(* ===== verification/_CoqProject ===== *)
-Q . S2P
Prelude.v
Coding.v
DbFormat.v
ThreadPool.v
Scheduler.v
SchedulerFam.v
SchedulerJobs.v
SchedulerDb.v
SchedulerInv.v
SchedulerProps.v
SchedulerWake.v
WriteControl.v
Crc32c.v
LogFormat.v
MemTableList.v
FlushCommit.v
VersionEdit.v
BinaryHeap.v
Iterators.v
MergingIterator.v
Block.v
BlockIterProps.v
BlockProps.v
CompactionIterator.v
CompactionReads.v
CompactionProps.v
SnapshotList.v
TwoLevelIterator.v
