(* ===== verification/Prelude.v ===== *)
(** * A verification of the SILK key-value store

    SILK is a fork of RocksDB, a log-structured merge tree: writes go to a
    write-ahead log and to a memtable; full memtables are flushed to table files
    in level 0, and background compactions merge table files into lower levels.
    SILK changes how the background work is scheduled, so that flushes and
    level-0 compactions are not delayed by lower ones.  The development translates
    components of the sources into Rocq functions, step relations and type
    classes, and proves what makes each of them correct.

    ** The parts and their files

    - Prelude.v: machine integers with their wrap-around ([u8], [u32], [u64]),
      bytes, [Status] (include/rocksdb/status.h), record updates, tactics.
    - Coding.v: util/coding.{h,cc}.  Fixed-width integers, varints and
      length-prefixed slices.  A [Put] routine is the function that gives the bytes
      it appends, a [Get] routine returns the value and the rest of its input or
      [None].
    - DbFormat.v: util/comparator.cc, db/dbformat.{h,cc}.  Comparators, internal
      keys, lookup keys.  The record [Comparator] has the operations and
      [ComparatorOk] the laws that ordered structures rely on.
    - ThreadPool.v: util/threadpool_imp.cc.  One pool; the body of a thread between
      two waits is a function.
    - Scheduler.v: the part of DBImpl (db/db_impl.{h,cc},
      db/db_impl_compaction_flush.cc, db/column_family.{h,cc}) that decides which
      flush or compaction runs in which pool.  A handler that releases the mutex is
      cut there into a [_begin] and an [_end] function.  SchedulerFam.v (reference
      counts and queues), SchedulerJobs.v (job counters,
      [MaybeScheduleFlushOrCompaction]), SchedulerDb.v (handlers), SchedulerInv.v (the
      transition system and its invariant), SchedulerProps.v and SchedulerWake.v
      (theorems) build on it and on ThreadPool.v.
    - WriteControl.v: db/write_controller.{h,cc} and the stall decision of
      db/column_family.cc, over an interface [Double] for the rate arithmetic.
    - Crc32c.v: util/crc32c.{h,cc}, table-driven and instruction-based.
    - LogFormat.v: db/log_{format.h,writer,reader}, over the interfaces
      [WritableFile] and [SequentialFile]; uses Coding.v and Crc32c.v.
    - MemTableList.v: db/memtable_list.{h,cc} and the bookkeeping of
      db/flush_job.cc, with the memtables and list versions as a shared store;
      FlushCommit.v runs flush jobs, readers, writers and the committing thread in
      any order.
    Where two components meet, the caller's model has what it needs of the callee
    as an argument (the [CFView] of a column family, the compaction a picker
    returns, the status of an I/O operation), or as a class whose laws the theorems
    assume and an instance discharges.

    ** What the theorems show

    - Encodings: every value is read back as written, decoders stay in bounds and
      reject what does not fit, optimised and plain routines agree; the log reads
      back record by record, the reader terminates on any file contents except in
      the cases that two theorems exhibit.
    - Keys: the comparators are total orders with the separator and successor
      contracts; encoded keys are ordered as their parts; a lookup key finds exactly
      what its snapshot sees.
    - Background work: in every reachable state the counters of DBImpl are exact, no
      assertion fails, no deleted column family is used, no queued work is without a
      job, and no wake-up is lost; one scheduling call starts all the work its limits
      allow; SILK's compactions in the flush pool are bounded.  Four theorems show
      executions in which pausing, closing and aborting go wrong.
    - Write stalls: tokens are counted exactly, the decision is the documented one,
      rates stay in their range, and delayed writers stay below the rate.
    - Flushes: the memtable list keeps its counters, references and memory exact under
      all interleavings, readers' versions never change, memtables leave in the order
      they came; one theorem shows how a failed flush breaks recovery.
    ** Bounds and fuel

    Loops of the code that are not structural take fuel.  Ten groups of seven bits
    are enough for a varint of 64 bits ([varint_bytes_fuel]); queue loops have the
    length of the queue as fuel, [while_] of Scheduler.v the number of jobs that wait,
    [TrimHistory] the length of the history; the log reader's fuel is computed from
    the file contents, and [read_record_total] shows that it is enough.
    Integers are kept at their width where the code can overflow; counters of jobs and
    references are unbounded integers, whose invariants bound them.

    ** Not modelled

    Reading and compacting table files, the write path with its lock-free queue, skip
    lists (they need the memory model), recovery, options, statistics, the
    environments, language bindings, tools and utilities.  What the modelled parts need
    of them are parameters.  Logging, statistics and test hooks inside modelled
    functions are left out. *)

From stdpp Require Import base gmap list strings.
From Stdlib Require Import ZArith Lia.
From Stdlib Require Strings.Byte.

(** ** Scope and notations *)

Declare Scope silk_scope.
Delimit Scope silk_scope with silk.

Notation byte := Byte.byte.

(** A [Slice] or a [std::string]: a sequence of bytes. *)
Notation bytes := (list Byte.byte).

#[global] Open Scope Z_scope.

(** ** Machine-width integers *)

(** Unsigned wrap-around at 8, 32 and 64 bits and signed wrap-around at 32
    bits ([int]). *)
Definition u8 (z : Z) : Z := z mod 2 ^ 8.
Definition u32 (z : Z) : Z := z mod 2 ^ 32.
Definition u64 (z : Z) : Z := z mod 2 ^ 64.

Definition is_u8 (z : Z) : Prop := 0 <= z < 2 ^ 8.
Definition is_u32 (z : Z) : Prop := 0 <= z < 2 ^ 32.
Definition is_u64 (z : Z) : Prop := 0 <= z < 2 ^ 64.

(** ** Bytes *)

Definition Z_of_byte (b : byte) : Z := Z.of_N (Byte.to_N b).

(** Storing an integer into an [unsigned char] keeps its low eight bits. *)
Definition byte_of_Z (z : Z) : byte :=
  match Byte.of_N (Z.to_N (z mod 256)) with
  | Some b => b
  | None => Byte.x00
  end.

#[global] Instance byte_eq_dec : EqDecision byte.
Proof. intros x y. destruct (Byte.byte_eq_dec x y); [left|right]; done. Defined.

(** ** Status *)

(** The codes of include/rocksdb/status.h; a status is a code and a message
    (sub-codes are not distinguished). *)
Inductive Code :=
| kOk | kNotFound | kCorruption | kNotSupported | kInvalidArgument | kIOError
| kMergeInProgress | kIncomplete | kShutdownInProgress | kTimedOut | kAborted
| kBusy | kExpired | kTryAgain.

#[global] Instance Code_eq_dec : EqDecision Code.
Proof. solve_decision. Defined.

Record Status := mkStatus { code : Code; message : string }.

Definition OK : Status := mkStatus kOk EmptyString.
Definition ok (s : Status) : bool := bool_decide (code s = kOk).
Definition IsShutdownInProgress (s : Status) : bool :=
  bool_decide (code s = kShutdownInProgress).
Definition NotFound (msg : string) : Status := mkStatus kNotFound msg.
Definition Corruption (msg : string) : Status := mkStatus kCorruption msg.
Definition NotSupported (msg : string) : Status := mkStatus kNotSupported msg.
Definition InvalidArgument (msg : string) : Status := mkStatus kInvalidArgument msg.
Definition IOError (msg : string) : Status := mkStatus kIOError msg.
Definition Aborted (msg : string) : Status := mkStatus kAborted msg.
Definition ShutdownInProgress : Status := mkStatus kShutdownInProgress EmptyString.

(** ** Functional record update

    [r <| f := v |>] is [r] with its field [f] set to [v], and
    [r <| f ::= g |>] applies [g] to the field.  A record type opts in with a
    [Settable] instance, its eta expansion; the setters are found from it. *)

Class Settable (R : Type) := eta_record : R -> R.

Class Setter {R T : Type} (proj : R -> T) := set : (T -> T) -> R -> R.
Arguments set {R T} proj {_} _ _ /.

Ltac solve_setter :=
  match goal with
  | |- @Setter ?R ?T ?p =>
      let i := constr:(_ : Settable R) in
      let f := fresh "f" in
      let r := fresh "r" in
      intros f r;
      let e := eval hnf in (i r) in
      match eval pattern (p r) in e with
      | ?F _ => let b := eval cbv beta in (F (f (p r))) in exact b
      end
  end.

#[global] Hint Extern 1 (Setter _) => solve_setter : typeclass_instances.

Notation "r <| f := v |>" := (set f (fun _ => v) r)
  (at level 1, left associativity, format "r  <| f  :=  v |>") : silk_scope.
Notation "r <| f ::= g |>" := (set f g r)
  (at level 1, left associativity, format "r  <| f  ::=  g |>") : silk_scope.
#[global] Open Scope silk_scope.

(** ** Proof automation *)

Create HintDb silk.

(** Decide every boolean test in sight, keeping the equations for [lia]. *)
Ltac split_ifs :=
  repeat match goal with
  | |- context [if ?b then _ else _] => destruct b eqn:?
  | H : context [if ?b then _ else _] |- _ => destruct b eqn:?
  end.

(** Turn boolean connectives among the hypotheses into propositions. *)
Ltac bprop :=
  repeat match goal with
  | H : (_ && _) = true |- _ => apply andb_true_iff in H; destruct H
  | H : (_ || _) = false |- _ => apply orb_false_iff in H; destruct H
  | H : negb _ = true |- _ => apply negb_true_iff in H
  | H : negb _ = false |- _ => apply negb_false_iff in H
  | H : (_ && _) = false |- _ => apply andb_false_iff in H
  | H : (_ || _) = true |- _ => apply orb_true_iff in H
  end.

(** Evaluate the literal powers of two, then linear arithmetic. *)
Ltac eval_pow :=
  repeat match goal with
  | |- context [Z.pow (Zpos ?a) (Zpos ?b)] =>
      let v := eval vm_compute in (Z.pow (Zpos a) (Zpos b)) in
      change (Z.pow (Zpos a) (Zpos b)) with v
  | H : context [Z.pow (Zpos ?a) (Zpos ?b)] |- _ =>
      let v := eval vm_compute in (Z.pow (Zpos a) (Zpos b)) in
      change (Z.pow (Zpos a) (Zpos b)) with v in H
  end.

Ltac zlia :=
  unfold is_u8, is_u32, is_u64 in *; eval_pow;
  first [ lia | Z.to_euclidean_division_equations; lia ].

(** ** Lemmas on bytes and integers *)

Lemma Z_of_byte_range b : 0 <= Z_of_byte b < 256.
Proof.
  unfold Z_of_byte. pose proof (Byte.to_N_bounded b) as H. lia.
Qed.

Lemma Z_of_byte_of_Z z : Z_of_byte (byte_of_Z z) = z mod 256.
Proof.
  unfold Z_of_byte, byte_of_Z.
  assert (Hr : 0 <= z mod 256 < 256) by (apply Z.mod_pos_bound; lia).
  destruct (Byte.of_N (Z.to_N (z mod 256))) as [b|] eqn:E.
  - apply Byte.to_of_N in E. rewrite E. lia.
  - apply Byte.of_N_None_iff in E. lia.
Qed.

Lemma byte_of_Z_of_byte b : byte_of_Z (Z_of_byte b) = b.
Proof.
  unfold byte_of_Z. rewrite Z.mod_small by apply Z_of_byte_range.
  unfold Z_of_byte. by rewrite N2Z.id, Byte.of_to_N.
Qed.

Lemma Z_of_byte_inj b c : Z_of_byte b = Z_of_byte c -> b = c.
Proof. intros H. by rewrite <- (byte_of_Z_of_byte b), H, byte_of_Z_of_byte. Qed.

Lemma byte_of_Z_mod z : byte_of_Z (z mod 256) = byte_of_Z z.
Proof. apply Z_of_byte_inj. by rewrite !Z_of_byte_of_Z, Z.mod_mod. Qed.

Lemma u8_range z : is_u8 (u8 z).
Proof. unfold is_u8, u8. apply Z.mod_pos_bound; lia. Qed.

Lemma u32_range z : is_u32 (u32 z).
Proof. unfold is_u32, u32. apply Z.mod_pos_bound; lia. Qed.

Lemma u64_range z : is_u64 (u64 z).
Proof. unfold is_u64, u64. apply Z.mod_pos_bound; lia. Qed.

Lemma u32_small z : is_u32 z -> u32 z = z.
Proof. apply Z.mod_small. Qed.

Lemma u64_small z : is_u64 z -> u64 z = z.
Proof. apply Z.mod_small. Qed.

#[export] Hint Resolve Z_of_byte_range u8_range u32_range u64_range : silk.
#[export] Hint Rewrite Z_of_byte_of_Z byte_of_Z_of_byte : silk.

(** Appending the bits [x << s] above a value of [s] bits is an addition. *)
Lemma lor_shiftl_add r x s :
  0 <= s -> 0 <= r < 2 ^ s -> Z.lor r (Z.shiftl x s) = r + x * 2 ^ s.
Proof.
  intros Hs Hr. rewrite <- (Z.shiftl_mul_pow2 x s) by done. symmetry.
  apply Z.add_nocarry_lor. apply Z.bits_inj'; intros i Hi. rewrite Z.land_spec, Z.bits_0.
  destruct (Z.lt_ge_cases i s) as [Hlt|Hge].
  - by rewrite (Z.shiftl_spec_low x s i), andb_false_r.
  - rewrite <- (Z.mod_small r (2 ^ s)) by done.
    by rewrite Z.mod_pow2_bits_high by lia.
Qed.

(** ** Lemmas on lists *)

Lemma take_app_length' {A} (l k : list A) n :
  n = length l -> take n (l ++ k) = l.
Proof. intros ->. apply take_app_length. Qed.

Lemma drop_app_length' {A} (l k : list A) n :
  n = length l -> drop n (l ++ k) = k.
Proof. intros ->. apply drop_app_length. Qed.

Lemma take_S_middle {A} (l k : list A) x :
  take (S (length l)) (l ++ x :: k) = l ++ [x].
Proof. induction l as [|y l IH]; cbn; [by rewrite take_0|by rewrite IH]. Qed.

Lemma drop_S_middle {A} (l k : list A) x :
  drop (S (length l)) (l ++ x :: k) = k.
Proof. induction l as [|y l IH]; cbn; [by rewrite drop_0|done]. Qed.
