(* ===== verification/Coding.v ===== *)
(** * Byte-level encodings (util/coding.h, util/coding.cc)

    Fixed-width little-endian integers, LEB128-style varints and
    length-prefixed slices.  A [Put] routine, which appends to a
    [std::string], is the function that gives the bytes appended; a [Get]
    routine, which consumes a prefix of a [Slice], returns the value and the
    remaining slice, or [None] where the code returns [false] or [nullptr].
    The [memcpy] path of a little-endian machine and the byte-by-byte path are
    both modelled, selected by the argument that stands for
    [port::kLittleEndian], and proved equal. *)

From S2P Require Import Prelude.
From stdpp Require Import base list.
From Stdlib Require Import ZArith Lia.
#[local] Open Scope Z_scope.

(** ** Fixed-width integers *)

(** The memory image of an [n]-byte unsigned integer on a little-endian
    machine, and the integer a memory image denotes. *)
Fixpoint le_bytes (n : nat) (v : Z) : bytes :=
  match n with
  | O => []
  | S n => byte_of_Z v :: le_bytes n (Z.shiftr v 8)
  end.

Fixpoint le_value (l : bytes) : Z :=
  match l with
  | [] => 0
  | b :: l => Z_of_byte b + 256 * le_value l
  end.

(** The unsigned char at [ptr\[i\]]. *)
Definition char_at (p : bytes) (i : nat) : Z := Z_of_byte (nth i p Byte.x00).

Definition EncodeFixed32_on (kLittleEndian : bool) (value : Z) : bytes :=
  if kLittleEndian then le_bytes 4 value
  else
    [byte_of_Z (Z.land value 255);
     byte_of_Z (Z.land (Z.shiftr value 8) 255);
     byte_of_Z (Z.land (Z.shiftr value 16) 255);
     byte_of_Z (Z.land (Z.shiftr value 24) 255)].

Definition EncodeFixed64_on (kLittleEndian : bool) (value : Z) : bytes :=
  if kLittleEndian then le_bytes 8 value
  else
    [byte_of_Z (Z.land value 255);
     byte_of_Z (Z.land (Z.shiftr value 8) 255);
     byte_of_Z (Z.land (Z.shiftr value 16) 255);
     byte_of_Z (Z.land (Z.shiftr value 24) 255);
     byte_of_Z (Z.land (Z.shiftr value 32) 255);
     byte_of_Z (Z.land (Z.shiftr value 40) 255);
     byte_of_Z (Z.land (Z.shiftr value 48) 255);
     byte_of_Z (Z.land (Z.shiftr value 56) 255)].

Definition DecodeFixed32_on (kLittleEndian : bool) (ptr : bytes) : Z :=
  if kLittleEndian then le_value (take 4 ptr)
  else
    Z.lor (Z.lor (Z.lor (char_at ptr 0)
                        (u32 (Z.shiftl (char_at ptr 1) 8)))
                 (u32 (Z.shiftl (char_at ptr 2) 16)))
          (u32 (Z.shiftl (char_at ptr 3) 24)).

Definition DecodeFixed64_on (kLittleEndian : bool) (ptr : bytes) : Z :=
  if kLittleEndian then le_value (take 8 ptr)
  else
    let lo := DecodeFixed32_on kLittleEndian ptr in
    let hi := DecodeFixed32_on kLittleEndian (drop 4 ptr) in
    Z.lor (u64 (Z.shiftl hi 32)) lo.

(** The platform the store is built for is little-endian. *)
Definition EncodeFixed32 : Z -> bytes := EncodeFixed32_on true.
Definition EncodeFixed64 : Z -> bytes := EncodeFixed64_on true.
Definition DecodeFixed32 : bytes -> Z := DecodeFixed32_on true.
Definition DecodeFixed64 : bytes -> Z := DecodeFixed64_on true.

Definition PutFixed32 (value : Z) : bytes := EncodeFixed32 value.
Definition PutFixed64 (value : Z) : bytes := EncodeFixed64 value.

Definition GetFixed32 (input : bytes) : option (Z * bytes) :=
  if (length input <? 4)%nat then None
  else Some (DecodeFixed32 input, drop 4 input).

Definition GetFixed64 (input : bytes) : option (Z * bytes) :=
  if (length input <? 8)%nat then None
  else Some (DecodeFixed64 input, drop 8 input).

(** ** Varints *)

(** The encoder of 32-bit varints is unrolled by the number of groups. *)
Definition EncodeVarint32 (v : Z) : bytes :=
  let B := 128 in
  if v <? Z.shiftl 1 7 then
    [byte_of_Z v]
  else if v <? Z.shiftl 1 14 then
    [byte_of_Z (Z.lor v B); byte_of_Z (Z.shiftr v 7)]
  else if v <? Z.shiftl 1 21 then
    [byte_of_Z (Z.lor v B); byte_of_Z (Z.lor (Z.shiftr v 7) B);
     byte_of_Z (Z.shiftr v 14)]
  else if v <? Z.shiftl 1 28 then
    [byte_of_Z (Z.lor v B); byte_of_Z (Z.lor (Z.shiftr v 7) B);
     byte_of_Z (Z.lor (Z.shiftr v 14) B); byte_of_Z (Z.shiftr v 21)]
  else
    [byte_of_Z (Z.lor v B); byte_of_Z (Z.lor (Z.shiftr v 7) B);
     byte_of_Z (Z.lor (Z.shiftr v 14) B); byte_of_Z (Z.lor (Z.shiftr v 21) B);
     byte_of_Z (Z.shiftr v 28)].

(** The encoder of 64-bit varints is a loop; ten iterations are enough for
    a 64-bit value ([varint_bytes_fuel]). *)
Fixpoint varint_bytes (fuel : nat) (v : Z) : bytes :=
  match fuel with
  | O => []
  | S fuel =>
      let B := 128 in
      if v >=? B then
        byte_of_Z (Z.lor (Z.land v (B - 1)) B) :: varint_bytes fuel (Z.shiftr v 7)
      else [byte_of_Z v]
  end.

Definition kMaxVarint64Length : nat := 10.

Definition EncodeVarint64 (v : Z) : bytes := varint_bytes kMaxVarint64Length v.

Fixpoint VarintLength_loop (fuel : nat) (v len : Z) : Z :=
  match fuel with
  | O => len
  | S fuel =>
      if v >=? 128 then VarintLength_loop fuel (Z.shiftr v 7) (len + 1) else len
  end.

Definition VarintLength (v : Z) : Z := VarintLength_loop kMaxVarint64Length v 1.

(** The decoding loop shared by the two widths: [wrap] truncates to the width
    of the result, [max_shift] is the last shift tried. *)
Fixpoint get_varint_loop (wrap : Z -> Z) (max_shift : Z) (p : bytes)
    (shift result : Z) : option (Z * bytes) :=
  if shift <=? max_shift then
    match p with
    | [] => None
    | b :: p =>
        let byte := Z_of_byte b in
        if negb (Z.land byte 128 =? 0) then
          get_varint_loop wrap max_shift p (shift + 7)
            (Z.lor result (wrap (Z.shiftl (Z.land byte 127) shift)))
        else Some (Z.lor result (wrap (Z.shiftl byte shift)), p)
    end
  else None.

Definition GetVarint32PtrFallback (p : bytes) : option (Z * bytes) :=
  get_varint_loop u32 28 p 0 0.

(** The one-byte fast path, then the general loop. *)
Definition GetVarint32Ptr (p : bytes) : option (Z * bytes) :=
  match p with
  | b :: q =>
      let result := Z_of_byte b in
      if Z.land result 128 =? 0 then Some (result, q)
      else GetVarint32PtrFallback p
  | [] => GetVarint32PtrFallback p
  end.

Definition GetVarint64Ptr (p : bytes) : option (Z * bytes) :=
  get_varint_loop u64 63 p 0 0.

Definition PutVarint32 (v : Z) : bytes := EncodeVarint32 v.
Definition PutVarint64 (v : Z) : bytes := EncodeVarint64 v.

Definition PutVarint32Varint32 (v1 v2 : Z) : bytes :=
  EncodeVarint32 v1 ++ EncodeVarint32 v2.
Definition PutVarint32Varint32Varint32 (v1 v2 v3 : Z) : bytes :=
  EncodeVarint32 v1 ++ EncodeVarint32 v2 ++ EncodeVarint32 v3.
Definition PutVarint64Varint64 (v1 v2 : Z) : bytes :=
  EncodeVarint64 v1 ++ EncodeVarint64 v2.
Definition PutVarint32Varint64 (v1 v2 : Z) : bytes :=
  EncodeVarint32 v1 ++ EncodeVarint64 v2.
Definition PutVarint32Varint32Varint64 (v1 v2 v3 : Z) : bytes :=
  EncodeVarint32 v1 ++ EncodeVarint32 v2 ++ EncodeVarint64 v3.

Definition GetVarint32 (input : bytes) : option (Z * bytes) := GetVarint32Ptr input.
Definition GetVarint64 (input : bytes) : option (Z * bytes) := GetVarint64Ptr input.

(** ** Length-prefixed slices *)

(** The length is cast to [uint32_t] before it is written. *)
Definition PutLengthPrefixedSlice (value : bytes) : bytes :=
  PutVarint32 (u32 (Z.of_nat (length value))) ++ value.

Definition PutLengthPrefixedSliceParts (parts : list bytes) : bytes :=
  let total_bytes := fold_left (fun n p => (n + length p)%nat) parts O in
  fold_left app parts (PutVarint32 (u32 (Z.of_nat total_bytes))).

Definition GetLengthPrefixedSlice (input : bytes) : option (bytes * bytes) :=
  match GetVarint32 input with
  | Some (len, input) =>
      if len <=? Z.of_nat (length input) then
        Some (take (Z.to_nat len) input, drop (Z.to_nat len) input)
      else None
  | None => None
  end.

(** The overload on a raw pointer looks at five bytes of length and trusts the
    data: [None] stands for the dereference of a null pointer. *)
Definition GetLengthPrefixedSlice_ptr (data : bytes) : option bytes :=
  match GetVarint32Ptr (take 5 data) with
  | Some (len, rest) =>
      let consumed := (length (take 5 data) - length rest)%nat in
      Some (take (Z.to_nat len) (drop consumed data))
  | None => None
  end.

(** Everything before the first delimiter; the delimiter is skipped too. *)
Fixpoint GetSliceUntil (slice : bytes) (delimiter : byte) : bytes * bytes :=
  match slice with
  | [] => ([], [])
  | b :: rest =>
      if decide (b = delimiter) then ([], rest)
      else let '(r, k) := GetSliceUntil rest delimiter in (b :: r, k)
  end.

(** ** Lemmas: fixed-width integers *)

Lemma length_le_bytes n v : length (le_bytes n v) = n.
Proof. revert v; induction n; intros; simpl; auto. Qed.

Lemma le_value_bytes n v : le_value (le_bytes n v) = v mod 2 ^ (8 * Z.of_nat n).
Proof.
  revert v; induction n as [|n IH]; intros v; cbn [le_bytes le_value].
  - by rewrite Z.mod_1_r.
  - rewrite IH, Z_of_byte_of_Z, Z.shiftr_div_pow2 by lia.
    replace (8 * Z.of_nat (S n)) with (8 + 8 * Z.of_nat n) by lia.
    rewrite Z.pow_add_r by lia. change (2 ^ 8) with 256.
    rewrite Z.rem_mul_r by lia. done.
Qed.

Lemma le_bytes_value l : le_bytes (length l) (le_value l) = l.
Proof.
  induction l as [|b l IH]; cbn [length le_bytes le_value]; [done|].
  pose proof (Z_of_byte_range b).
  f_equal.
  - rewrite <- byte_of_Z_mod, (Z.mul_comm 256), Z.mod_add by lia.
    rewrite byte_of_Z_mod. apply byte_of_Z_of_byte.
  - rewrite Z.shiftr_div_pow2 by lia. change (2 ^ 8) with 256.
    rewrite Z.add_comm, Z.mul_comm, Z.div_add_l by lia.
    rewrite (Z.div_small (Z_of_byte b)) by lia. by rewrite Z.add_0_r.
Qed.

Lemma le_value_range l : 0 <= le_value l < 2 ^ (8 * Z.of_nat (length l)).
Proof.
  rewrite <- (le_bytes_value l) at 1 2. rewrite le_value_bytes.
  apply Z.mod_pos_bound. lia.
Qed.

Lemma le_value_app l k :
  le_value (l ++ k) = le_value l + 2 ^ (8 * Z.of_nat (length l)) * le_value k.
Proof.
  induction l as [|b l IH]; cbn [app le_value length].
  - change (2 ^ _) with 1. lia.
  - rewrite IH. replace (8 * Z.of_nat (S (length l)))
      with (8 + 8 * Z.of_nat (length l)) by lia.
    rewrite Z.pow_add_r by lia. change (2 ^ 8) with 256. lia.
Qed.

Lemma land_255 z : Z.land z 255 = z mod 256.
Proof. change 255 with (Z.ones 8). by rewrite Z.land_ones. Qed.

(** The byte-by-byte encoders agree with the memory image. *)
Lemma EncodeFixed32_endian v : EncodeFixed32_on false v = EncodeFixed32_on true v.
Proof.
  unfold EncodeFixed32_on. cbn [le_bytes]. rewrite !Z.shiftr_shiftr by lia.
  by rewrite !land_255, !byte_of_Z_mod.
Qed.

Lemma EncodeFixed64_endian v : EncodeFixed64_on false v = EncodeFixed64_on true v.
Proof.
  unfold EncodeFixed64_on. cbn [le_bytes]. rewrite !Z.shiftr_shiftr by lia.
  by rewrite !land_255, !byte_of_Z_mod.
Qed.

Lemma DecodeFixed32_endian p :
  (4 <= length p)%nat -> DecodeFixed32_on false p = DecodeFixed32_on true p.
Proof.
  destruct p as [|b0 [|b1 [|b2 [|b3 p]]]]; cbn [length]; intros ?; try lia.
  unfold DecodeFixed32_on, char_at. cbn [nth take le_value]. rewrite take_0.
  pose proof (Z_of_byte_range b0); pose proof (Z_of_byte_range b1);
  pose proof (Z_of_byte_range b2); pose proof (Z_of_byte_range b3).
  rewrite !u32_small by (unfold is_u32; rewrite Z.shiftl_mul_pow2 by lia; zlia).
  rewrite (lor_shiftl_add _ _ 8), (lor_shiftl_add _ _ 16),
    (lor_shiftl_add _ _ 24) by zlia.
  cbn [le_value]. zlia.
Qed.

Lemma DecodeFixed64_endian p :
  (8 <= length p)%nat -> DecodeFixed64_on false p = DecodeFixed64_on true p.
Proof.
  intros Hp. unfold DecodeFixed64_on.
  rewrite !DecodeFixed32_endian by (rewrite ?length_drop; lia).
  unfold DecodeFixed32_on.
  replace (take 8 p) with (take 4 p ++ take 4 (drop 4 p))
    by (by rewrite take_take_drop).
  assert (length (take 4 p) = 4%nat) by (rewrite length_take; lia).
  assert (length (take 4 (drop 4 p)) = 4%nat)
    by (rewrite length_take, length_drop; lia).
  generalize dependent (take 4 (drop 4 p)). generalize dependent (take 4 p).
  intros lo Hlo hi Hhi.
  pose proof (le_value_range lo) as H0. pose proof (le_value_range hi) as H1.
  rewrite Hlo in H0. rewrite Hhi in H1. change (8 * Z.of_nat 4) with 32 in *.
  rewrite u64_small by (unfold is_u64; rewrite Z.shiftl_mul_pow2 by lia; zlia).
  rewrite Z.lor_comm, lor_shiftl_add by zlia.
  rewrite le_value_app, Hlo. change (8 * Z.of_nat 4) with 32. lia.
Qed.

Lemma length_EncodeFixed32 v : length (EncodeFixed32 v) = 4%nat.
Proof. apply length_le_bytes. Qed.

Lemma length_EncodeFixed64 v : length (EncodeFixed64 v) = 8%nat.
Proof. apply length_le_bytes. Qed.

Lemma DecodeFixed32_app v rest :
  is_u32 v -> DecodeFixed32 (EncodeFixed32 v ++ rest) = v.
Proof.
  intros Hv. unfold DecodeFixed32, DecodeFixed32_on.
  rewrite take_app_length' by (by rewrite length_EncodeFixed32).
  unfold EncodeFixed32, EncodeFixed32_on. rewrite le_value_bytes.
  by apply Z.mod_small.
Qed.

Lemma DecodeFixed64_app v rest :
  is_u64 v -> DecodeFixed64 (EncodeFixed64 v ++ rest) = v.
Proof.
  intros Hv. unfold DecodeFixed64, DecodeFixed64_on.
  rewrite take_app_length' by (by rewrite length_EncodeFixed64).
  unfold EncodeFixed64, EncodeFixed64_on. rewrite le_value_bytes.
  by apply Z.mod_small.
Qed.

Lemma DecodeFixed64_range p : is_u64 (DecodeFixed64 p).
Proof.
  unfold DecodeFixed64, DecodeFixed64_on, is_u64.
  pose proof (le_value_range (take 8 p)) as H. rewrite length_take in H.
  assert (2 ^ (8 * Z.of_nat (8 `min` length p)) <= 2 ^ 64)
    by (apply Z.pow_le_mono_r; lia). lia.
Qed.

Lemma GetFixed32_PutFixed32 v rest :
  is_u32 v -> GetFixed32 (PutFixed32 v ++ rest) = Some (v, rest).
Proof.
  intros Hv. unfold GetFixed32, PutFixed32.
  rewrite length_app, length_EncodeFixed32.
  destruct (Nat.ltb_spec (4 + length rest) 4); [lia|].
  rewrite DecodeFixed32_app, drop_app_length' by (done || by rewrite length_EncodeFixed32).
  done.
Qed.

Lemma GetFixed64_PutFixed64 v rest :
  is_u64 v -> GetFixed64 (PutFixed64 v ++ rest) = Some (v, rest).
Proof.
  intros Hv. unfold GetFixed64, PutFixed64.
  rewrite length_app, length_EncodeFixed64.
  destruct (Nat.ltb_spec (8 + length rest) 8); [lia|].
  rewrite DecodeFixed64_app, drop_app_length' by (done || by rewrite length_EncodeFixed64).
  done.
Qed.

#[export] Hint Rewrite length_EncodeFixed32 length_EncodeFixed64 : silk.

(** ** Lemmas: varints *)

Lemma byte_high_bit b : (Z.land (Z_of_byte b) 128 =? 0) = (Z_of_byte b <? 128).
Proof. by destruct b. Qed.

Lemma land_127 z : Z.land z 127 = z mod 128.
Proof. change 127 with (Z.ones 7). by rewrite Z.land_ones. Qed.

Lemma lor_128_mod z : Z.lor (z mod 128) 128 = z mod 128 + 128.
Proof.
  pose proof (Z.mod_pos_bound z 128 ltac:(lia)).
  change 128 with (Z.shiftl 1 7) at 2. by rewrite lor_shiftl_add by zlia.
Qed.

(** Setting the continuation bit before or after masking the group stores the
    same byte. *)
Lemma byte_of_Z_lor_128 z :
  byte_of_Z (Z.lor z 128) = byte_of_Z (Z.lor (Z.land z 127) 128).
Proof.
  rewrite <- (byte_of_Z_mod (Z.lor z 128)). f_equal.
  rewrite <- land_255. change 255 with (Z.lor 127 128).
  rewrite Z.land_lor_distr_l, (Z.land_lor_distr_r z).
  change (Z.land 128 (Z.lor 127 128)) with 128.
  rewrite <- Z.lor_assoc. f_equal.
  apply Z.bits_inj'; intros i _. rewrite Z.lor_spec, Z.land_spec.
  by destruct (Z.testbit z i), (Z.testbit 128 i).
Qed.

Lemma Z_of_varint_head v :
  Z_of_byte (byte_of_Z (Z.lor (Z.land v 127) 128)) = v mod 128 + 128.
Proof.
  rewrite Z_of_byte_of_Z, land_127, lor_128_mod. apply Z.mod_small.
  pose proof (Z.mod_pos_bound v 128 ltac:(lia)). lia.
Qed.

Lemma varint_group fuel v :
  varint_bytes (S fuel) v =
  if v >=? 128 then
    byte_of_Z (Z.lor (Z.land v 127) 128) :: varint_bytes fuel (Z.shiftr v 7)
  else [byte_of_Z v].
Proof. done. Qed.

(** Ten groups of seven bits hold any 64-bit value: more fuel does not change
    the encoding. *)
Lemma varint_bytes_fuel fuel v k :
  0 <= v < 2 ^ (7 * Z.of_nat (S fuel)) ->
  varint_bytes (S fuel + k) v = varint_bytes (S fuel) v.
Proof.
  revert v; induction fuel as [|fuel IH]; intros v Hv.
  - cbn [varint_bytes Nat.add]. split_ifs; [|done].
    change (2 ^ _) with 128 in Hv. lia.
  - change (S (S fuel) + k)%nat with (S (S fuel + k)).
    rewrite (varint_group (S fuel + k)), (varint_group (S fuel)).
    split_ifs; [|done]. f_equal. apply IH.
    rewrite Z.shiftr_div_pow2 by lia. split; [apply Z.div_pos; lia|].
    apply Z.div_lt_upper_bound; [lia|].
    rewrite <- Z.pow_add_r by lia.
    replace (7 + _) with (7 * Z.of_nat (S (S fuel))) by lia. lia.
Qed.

(** The unrolled 32-bit encoder is the 64-bit loop. *)
Lemma EncodeVarint32_loop v : is_u32 v -> EncodeVarint32 v = EncodeVarint64 v.
Proof.
  intros Hv. unfold EncodeVarint32, EncodeVarint64, kMaxVarint64Length.
  change 10%nat with (5 + 5)%nat. rewrite varint_bytes_fuel by zlia.
  cbn [varint_bytes]. rewrite !Z.shiftr_shiftr by lia.
  change (7 + 7 + 7 + 7) with 28. change (7 + 7 + 7) with 21.
  change (7 + 7) with 14. change (128 - 1) with 127.
  rewrite (byte_of_Z_lor_128 v), (byte_of_Z_lor_128 (Z.shiftr v 7)),
    (byte_of_Z_lor_128 (Z.shiftr v 14)), (byte_of_Z_lor_128 (Z.shiftr v 21)).
  rewrite !Z.shiftl_mul_pow2, !Z.shiftr_div_pow2 by lia.
  split_ifs; done || zlia.
Qed.

(** One iteration of the decoding loop: a last byte, a continued byte. *)
Lemma get_varint_last W max_shift v s r rest :
  0 <= s <= max_shift -> 0 <= r < 2 ^ s -> 0 <= v < 128 -> v * 2 ^ s < 2 ^ W ->
  get_varint_loop (fun z => z mod 2 ^ W) max_shift (byte_of_Z v :: rest) s r =
  Some (r + v * 2 ^ s, rest).
Proof.
  intros Hs Hr Hv HW. cbn [get_varint_loop].
  rewrite (proj2 (Z.leb_le _ _)), byte_high_bit by lia.
  rewrite Z_of_byte_of_Z, (Z.mod_small v 256), (proj2 (Z.ltb_lt _ _)) by lia.
  cbn [negb]. rewrite Z.mod_small, lor_shiftl_add; [done|lia|lia|].
  rewrite Z.shiftl_mul_pow2 by lia. nia.
Qed.

Lemma get_varint_more W max_shift v s r rest :
  0 <= s <= max_shift -> 0 <= r < 2 ^ s -> 0 <= v -> v * 2 ^ s < 2 ^ W ->
  get_varint_loop (fun z => z mod 2 ^ W) max_shift
    (byte_of_Z (Z.lor (Z.land v 127) 128) :: rest) s r =
  get_varint_loop (fun z => z mod 2 ^ W) max_shift rest (s + 7)
    (r + (v mod 128) * 2 ^ s).
Proof.
  intros Hs Hr Hv HW. cbn [get_varint_loop].
  pose proof (Z.mod_pos_bound v 128 ltac:(lia)) as Hm.
  pose proof (Z.mod_le v 128 Hv ltac:(lia)) as Hle.
  rewrite (proj2 (Z.leb_le _ _)), byte_high_bit, Z_of_varint_head by lia.
  rewrite (proj2 (Z.ltb_ge _ _)), land_127 by lia. cbn [negb].
  replace ((v mod 128 + 128) mod 128) with (v mod 128) by zlia.
  rewrite Z.mod_small, lor_shiftl_add; [done|lia|lia|].
  rewrite Z.shiftl_mul_pow2 by lia. nia.
Qed.

(** Decoding reads back what the loop wrote and stops right after it. *)
Lemma get_varint_loop_bytes W max_shift fuel v k r rest :
  (W = 32 /\ max_shift = 28) \/ (W = 64 /\ max_shift = 63) ->
  0 <= k -> 7 * k <= max_shift -> 0 <= r < 2 ^ (7 * k) ->
  0 <= v -> v * 2 ^ (7 * k) < 2 ^ W -> v < 2 ^ (7 * Z.of_nat (S fuel)) ->
  get_varint_loop (fun z => z mod 2 ^ W) max_shift
    (varint_bytes (S fuel) v ++ rest) (7 * k) r = Some (r + v * 2 ^ (7 * k), rest).
Proof.
  intros HW. revert v k r.
  induction fuel as [|fuel IH]; intros v k r Hk Hs Hr Hv HvW Hf;
    rewrite varint_group; destruct (v >=? 128) eqn:Hge; cbn [app];
    try (apply get_varint_last; lia).
  { change (2 ^ (7 * Z.of_nat 1)) with 128 in Hf. lia. }
  rewrite get_varint_more by lia.
  assert (Hp : 2 ^ (7 * (k + 1)) = 128 * 2 ^ (7 * k))
    by (replace (7 * (k + 1)) with (7 + 7 * k) by lia; by rewrite Z.pow_add_r by lia).
  assert (Hf' : 2 ^ (7 * Z.of_nat (S (S fuel))) = 128 * 2 ^ (7 * Z.of_nat (S fuel)))
    by (replace (7 * Z.of_nat (S (S fuel))) with (7 + 7 * Z.of_nat (S fuel)) by lia;
        by rewrite Z.pow_add_r by lia).
  rewrite Z.shiftr_div_pow2 by lia. change (2 ^ 7) with 128.
  pose proof (Z.div_mod v 128 ltac:(lia)) as Hdm.
  pose proof (Z.mod_pos_bound v 128 ltac:(lia)) as Hm.
  assert (Hs' : 7 * (k + 1) <= max_shift).
  { assert (7 * (k + 1) < W); [|lia].
    apply (Z.pow_lt_mono_r_iff 2); [lia|lia|]. nia. }
  replace (7 * k + 7) with (7 * (k + 1)) by lia.
  rewrite IH; [do 2 f_equal; nia|lia|lia|nia|nia|nia|nia].
Qed.

Lemma GetVarint64_app v rest :
  is_u64 v -> GetVarint64 (PutVarint64 v ++ rest) = Some (v, rest).
Proof.
  intros Hv. unfold GetVarint64, PutVarint64, GetVarint64Ptr, EncodeVarint64, u64.
  rewrite (get_varint_loop_bytes 64 63 9 v 0 0) by zlia. do 2 f_equal. lia.
Qed.

(** The fast path of the 32-bit decoder agrees with the loop. *)
Lemma GetVarint32Ptr_fallback p : GetVarint32Ptr p = GetVarint32PtrFallback p.
Proof.
  destruct p as [|b p]; [done|]. unfold GetVarint32Ptr, GetVarint32PtrFallback.
  destruct (Z.land (Z_of_byte b) 128 =? 0) eqn:E; [|done].
  cbn [get_varint_loop]. rewrite E. cbn [negb Z.leb Z.compare].
  rewrite Z.shiftl_0_r, Z.lor_0_l, u32_small; [done|].
  pose proof (Z_of_byte_range b). zlia.
Qed.

Lemma GetVarint32_app v rest :
  is_u32 v -> GetVarint32 (PutVarint32 v ++ rest) = Some (v, rest).
Proof.
  intros Hv. unfold GetVarint32, PutVarint32. rewrite GetVarint32Ptr_fallback.
  rewrite EncodeVarint32_loop by done.
  unfold GetVarint32PtrFallback, EncodeVarint64, kMaxVarint64Length, u32.
  rewrite (get_varint_loop_bytes 32 28 9 v 0 0) by zlia. do 2 f_equal. lia.
Qed.

Lemma GetLengthPrefixedSlice_app value rest :
  is_u32 (Z.of_nat (length value)) ->
  GetLengthPrefixedSlice (PutLengthPrefixedSlice value ++ rest) = Some (value, rest).
Proof.
  intros Hl. unfold GetLengthPrefixedSlice, PutLengthPrefixedSlice.
  rewrite <- app_assoc, u32_small, GetVarint32_app by done.
  rewrite (proj2 (Z.leb_le _ _)) by (rewrite length_app; lia).
  by rewrite Nat2Z.id, take_app_length, drop_app_length.
Qed.

#[export] Hint Rewrite GetVarint64_app GetVarint32_app GetLengthPrefixedSlice_app
  GetFixed32_PutFixed32 GetFixed64_PutFixed64 using done : silk.

(** ** Lengths and ranges *)

Lemma VarintLength_bytes fuel v n :
  VarintLength_loop fuel v n + 1 = n + Z.of_nat (length (varint_bytes (S fuel) v)).
Proof.
  revert v n; induction fuel as [|fuel IH]; intros v n;
    rewrite varint_group; cbn [VarintLength_loop]; split_ifs; cbn [length];
    try lia.
  - cbn [varint_bytes length]. lia.
  - specialize (IH (Z.shiftr v 7) (n + 1)). lia.
Qed.

Lemma get_varint_loop_range wrap max_shift W p s r v rest :
  (forall z, 0 <= wrap z < 2 ^ W) -> 0 < W -> 0 <= r < 2 ^ W ->
  get_varint_loop wrap max_shift p s r = Some (v, rest) ->
  0 <= v < 2 ^ W /\ exists n, rest = drop (S n) p /\ (S n <= length p)%nat /\
    s + 7 * Z.of_nat n <= max_shift.
Proof.
  intros Hwrap HW. revert s r. induction p as [|b p IH]; intros s r Hr;
    cbn [get_varint_loop]; destruct (Z.leb_spec s max_shift); try done.
  assert (Hlor : forall z, 0 <= Z.lor r (wrap z) < 2 ^ W).
  { intros z. pose proof (Hwrap z). split; [apply Z.lor_nonneg; lia|].
    apply Z.log2_lt_cancel. rewrite Z.log2_lor, Z.log2_pow2 by lia.
    apply Z.max_lub_lt.
    - destruct (Z.eq_dec r 0) as [->|]; [cbn; lia|]. apply Z.log2_lt_pow2; lia.
    - destruct (Z.eq_dec (wrap z) 0) as [->|]; [cbn; lia|].
      apply Z.log2_lt_pow2; lia. }
  destruct (negb _); intros Hg.
  - apply IH in Hg as (Hv & n & -> & Hn & Hs); [|done].
    split; [done|]. exists (S n). cbn [drop length]. split_and!; [done|lia|lia].
  - simplify_eq. split; [apply Hlor|]. exists O. cbn [drop length].
    rewrite drop_0. split_and!; [done|lia|lia].
Qed.

Lemma length_varint_bytes fuel v : (length (varint_bytes fuel v) <= fuel)%nat.
Proof.
  revert v; induction fuel as [|fuel IH]; intros v; [done|].
  rewrite varint_group. split_ifs; cbn [length]; [|lia].
  specialize (IH (Z.shiftr v 7)). lia.
Qed.

Lemma VarintLength_spec v :
  is_u64 v -> VarintLength v = Z.of_nat (length (EncodeVarint64 v)).
Proof.
  intros Hv. pose proof (VarintLength_bytes kMaxVarint64Length v 1) as H.
  replace (S kMaxVarint64Length) with (10 + 1)%nat in H by done.
  rewrite varint_bytes_fuel in H by zlia.
  unfold VarintLength, EncodeVarint64, kMaxVarint64Length in *. lia.
Qed.

Lemma PutLengthPrefixedSliceParts_concat parts :
  PutLengthPrefixedSliceParts parts = PutLengthPrefixedSlice (concat parts).
Proof.
  unfold PutLengthPrefixedSliceParts, PutLengthPrefixedSlice.
  assert (Hn : forall n, fold_left (fun n p => (n + length p)%nat) parts n =
                 (n + length (concat parts))%nat).
  { induction parts as [|p parts IH]; intros n; cbn [fold_left concat length]; [lia|].
    rewrite IH, length_app. lia. }
  rewrite Hn, Nat.add_0_l. generalize (PutVarint32 (u32 (Z.of_nat (length (concat parts))))).
  clear Hn. induction parts as [|p parts IH]; intros acc; cbn [fold_left concat].
  - by rewrite app_nil_r.
  - by rewrite IH, <- app_assoc.
Qed.

(** ** Properties *)

(** C25: a varint is read back as written, whatever follows it, at both
    widths; its length is the one [VarintLength] announces, at most ten bytes
    (five for a 32-bit value); and the unrolled 32-bit encoder writes the same
    bytes as the 64-bit loop. *)
Theorem varint_roundtrip v rest :
  is_u64 v ->
  GetVarint64 (PutVarint64 v ++ rest) = Some (v, rest) /\
  Z.of_nat (length (PutVarint64 v)) = VarintLength v /\
  (length (PutVarint64 v) <= kMaxVarint64Length)%nat /\
  (is_u32 v ->
   PutVarint32 v = PutVarint64 v /\
   GetVarint32 (PutVarint32 v ++ rest) = Some (v, rest) /\
   (length (PutVarint32 v) <= 5)%nat).
Proof.
  intros Hv. split_and!.
  - by apply GetVarint64_app.
  - symmetry. by apply VarintLength_spec.
  - apply length_varint_bytes.
  - intros Hv32. split_and!; [by apply EncodeVarint32_loop|by apply GetVarint32_app|].
    unfold PutVarint32, EncodeVarint32. split_ifs; cbn [length]; lia.
Qed.

Lemma varint_roundtrip_witness :
  is_u64 300 /\ GetVarint64 (PutVarint64 300 ++ []) = Some (300, []) /\
  PutVarint32 300 = [Byte.xac; Byte.x02].
Proof.
  split; [zlia|]. split; [|reflexivity].
  refine (proj1 (varint_roundtrip 300 [] _)). zlia.
Defined.

(** Decoders consume what they read. *)
Lemma GetVarint32_shrinks p v rest :
  GetVarint32 p = Some (v, rest) -> is_u32 v /\ (length rest < length p)%nat.
Proof.
  unfold GetVarint32. rewrite GetVarint32Ptr_fallback. intros H.
  apply (get_varint_loop_range u32 28 32) in H as (Hv & n & -> & Hn & _); [|apply u32_range|lia|zlia].
  split; [done|]. rewrite length_drop. lia.
Qed.

Lemma GetVarint64_shrinks p v rest :
  GetVarint64 p = Some (v, rest) -> is_u64 v /\ (length rest < length p)%nat.
Proof.
  intros H. apply (get_varint_loop_range u64 63 64) in H as (Hv & n & -> & Hn & _); [|apply u64_range|lia|zlia].
  split; [done|]. rewrite length_drop. lia.
Qed.

Lemma GetLengthPrefixedSlice_shrinks p v rest :
  GetLengthPrefixedSlice p = Some (v, rest) -> (length v + length rest < length p)%nat.
Proof.
  unfold GetLengthPrefixedSlice. destruct (GetVarint32 p) as [[len q]|] eqn:E; [|done].
  apply GetVarint32_shrinks in E as [Hl Hq]. destruct (Z.leb_spec len (Z.of_nat (length q))); [|done].
  intros [= <- <-]. rewrite length_take, length_drop. unfold is_u32 in Hl. lia.
Qed.

(** whatever the bytes, a varint decoder that succeeds has read at least
    one byte and at most five (ten at 64 bits), all inside its input, and
    returns a value of its width. *)
Lemma varint_decode_bounds p v rest :
  (GetVarint32 p = Some (v, rest) ->
   is_u32 v /\ exists n, (1 <= n <= 5)%nat /\ (n <= length p)%nat /\ rest = drop n p) /\
  (GetVarint64 p = Some (v, rest) ->
   is_u64 v /\ exists n, (1 <= n <= 10)%nat /\ (n <= length p)%nat /\ rest = drop n p).
Proof.
  split.
  - unfold GetVarint32. rewrite GetVarint32Ptr_fallback. intros H.
    apply (get_varint_loop_range u32 28 32) in H as (Hv & n & -> & Hn & Hs);
      [|apply u32_range|lia|zlia].
    split; [done|]. exists (S n). split_and!; [lia|lia|done|done].
  - intros H. apply (get_varint_loop_range u64 63 64) in H as (Hv & n & -> & Hn & Hs);
      [|apply u64_range|lia|zlia].
    split; [done|]. exists (S n). split_and!; [lia|lia|done|done].
Qed.

(** The byte-by-byte path of the fixed-width codecs and the [memcpy] path
    of a little-endian machine write and read the same bytes, a value is read
    back as written, and a length-prefixed slice (given whole or in parts) of
    less than 4 GiB is read back with the rest of the input untouched. *)
Theorem fixed_and_slice_roundtrip v (value : bytes) (parts : list bytes) rest :
  is_u64 v -> is_u32 (Z.of_nat (length value)) -> concat parts = value ->
  (forall x, EncodeFixed32_on false x = EncodeFixed32_on true x) /\
  (forall x, EncodeFixed64_on false x = EncodeFixed64_on true x) /\
  DecodeFixed64_on false (PutFixed64 v ++ rest) = v /\
  GetFixed64 (PutFixed64 v ++ rest) = Some (v, rest) /\
  (is_u32 v -> DecodeFixed32_on false (PutFixed32 v ++ rest) = v /\
               GetFixed32 (PutFixed32 v ++ rest) = Some (v, rest)) /\
  GetLengthPrefixedSlice (PutLengthPrefixedSlice value ++ rest) = Some (value, rest) /\
  PutLengthPrefixedSliceParts parts = PutLengthPrefixedSlice value.
Proof.
  intros Hv Hl <-. split_and!.
  - apply EncodeFixed32_endian.
  - apply EncodeFixed64_endian.
  - rewrite DecodeFixed64_endian; [by apply DecodeFixed64_app|].
    unfold PutFixed64. rewrite length_app, length_EncodeFixed64. lia.
  - by apply GetFixed64_PutFixed64.
  - intros Hv32. split; [|by apply GetFixed32_PutFixed32].
    rewrite DecodeFixed32_endian; [by apply DecodeFixed32_app|].
    unfold PutFixed32. rewrite length_app, length_EncodeFixed32. lia.
  - by apply GetLengthPrefixedSlice_app.
  - apply PutLengthPrefixedSliceParts_concat.
Qed.

Lemma fixed_and_slice_roundtrip_witness :
  GetLengthPrefixedSlice (PutLengthPrefixedSlice [Byte.x41; Byte.x42] ++ [Byte.x00]) =
  Some ([Byte.x41; Byte.x42], [Byte.x00]).
Proof.
  destruct (fixed_and_slice_roundtrip 7 [Byte.x41; Byte.x42]
    [[Byte.x41]; [Byte.x42]] [Byte.x00]) as (_ & _ & _ & _ & _ & H & _);
    [zlia|cbn; zlia|reflexivity|exact H].
Defined.
