(* ===== verification/DbFormat.v ===== *)
(** * Keys and their orders (util/comparator.cc, db/dbformat.h, db/dbformat.cc)

    [Comparator] is the interface every ordered structure of the store works
    against; [ComparatorOk] states what it promises.  The bytewise comparator
    is proved to keep the promise, and the internal-key comparator, which
    appends a sequence number and a value type to a user key, keeps it
    whenever its user comparator does. *)

From S2P Require Import Prelude Coding.
From stdpp Require Import base list.
From Stdlib Require Import ZArith Lia.
#[local] Open Scope Z_scope.

(** ** The comparator interface *)

(** [FindShortestSeparator start limit] and [FindShortSuccessor key] give the
    string the code leaves in its first argument. *)
Class Comparator := {
  Compare : bytes -> bytes -> Z;
  FindShortestSeparator : bytes -> bytes -> bytes;
  FindShortSuccessor : bytes -> bytes
}.

(** The contract of include/rocksdb/comparator.h on the keys in [valid]:
    a three-way total order, ... *)
Class CompareOrder (c : Comparator) (valid : bytes -> Prop) : Prop := {
  compare_refl a : valid a -> Compare a a = 0;
  compare_antisym a b : valid a -> valid b ->
    Z.sgn (Compare a b) = - Z.sgn (Compare b a);
  compare_trans a b d : valid a -> valid b -> valid d ->
    Compare a b <= 0 -> Compare b d <= 0 -> Compare a d <= 0
}.

(** ... a separator in [\[start, limit)] when [start < limit], and an unchanged
    key when there is no room, ... *)
Class SeparatorOk (c : Comparator) (valid : bytes -> Prop) : Prop := {
  separator_valid a b : valid a -> valid b -> valid (FindShortestSeparator a b);
  separator_ge a b : valid a -> valid b ->
    Compare a b < 0 -> Compare a (FindShortestSeparator a b) <= 0;
  separator_lt a b : valid a -> valid b ->
    Compare a b < 0 -> Compare (FindShortestSeparator a b) b < 0;
  separator_same a b : valid a -> valid b ->
    Compare a b = 0 -> Compare a (FindShortestSeparator a b) = 0
}.

(** ... and a successor that is not before its key. *)
Class SuccessorOk (c : Comparator) (valid : bytes -> Prop) : Prop := {
  successor_valid a : valid a -> valid (FindShortSuccessor a);
  successor_ge a : valid a -> Compare a (FindShortSuccessor a) <= 0
}.

Class ComparatorOk (c : Comparator) (valid : bytes -> Prop) : Prop := {
  comparator_order :: CompareOrder c valid;
  comparator_separator :: SeparatorOk c valid;
  comparator_successor :: SuccessorOk c valid
}.

Section OrderFacts.
Context {c : Comparator} {valid : bytes -> Prop} {Ho : CompareOrder c valid}.

Lemma compare_lt_gt a b : valid a -> valid b -> Compare a b < 0 <-> Compare b a > 0.
Proof. intros Ha Hb. pose proof (compare_antisym a b Ha Hb). lia. Qed.

Lemma compare_eq_sym a b : valid a -> valid b -> Compare a b = 0 <-> Compare b a = 0.
Proof. intros Ha Hb. pose proof (compare_antisym a b Ha Hb). lia. Qed.

Lemma compare_le_lt_trans a b d :
  valid a -> valid b -> valid d ->
  Compare a b <= 0 -> Compare b d < 0 -> Compare a d < 0.
Proof.
  intros Ha Hb Hd Hab Hbd.
  assert (Had : Compare a d <= 0) by (apply (compare_trans a b d); auto; lia).
  destruct (Z.eq_dec (Compare a d) 0) as [E|]; [|lia].
  assert (Hda : Compare d a <= 0) by (apply compare_eq_sym in E; auto; lia).
  pose proof (compare_trans d a b Hd Ha Hb Hda Hab).
  pose proof (compare_antisym b d Hb Hd). lia.
Qed.

Lemma compare_lt_le_trans a b d :
  valid a -> valid b -> valid d ->
  Compare a b < 0 -> Compare b d <= 0 -> Compare a d < 0.
Proof.
  intros Ha Hb Hd Hab Hbd.
  assert (Had : Compare a d <= 0) by (apply (compare_trans a b d); auto; lia).
  destruct (Z.eq_dec (Compare a d) 0) as [E|]; [|lia].
  assert (Hda : Compare d a <= 0) by (apply compare_eq_sym in E; auto; lia).
  pose proof (compare_trans b d a Hb Hd Ha Hbd Hda).
  pose proof (compare_antisym a b Ha Hb). lia.
Qed.
End OrderFacts.

(** ** The bytewise comparator *)

Module Bytewise.

(** The sign of [memcmp] on two buffers of the same length. *)
Fixpoint memcmp (a b : bytes) : Z :=
  match a, b with
  | x :: a, y :: b =>
      if Z_of_byte x <? Z_of_byte y then -1
      else if Z_of_byte y <? Z_of_byte x then 1
      else memcmp a b
  | _, _ => 0
  end.

Definition Slice_compare (a b : bytes) : Z :=
  let min_len := if (length a <? length b)%nat then length a else length b in
  let r := memcmp (take min_len a) (take min_len b) in
  if r =? 0 then
    if (length a <? length b)%nat then -1
    else if (length b <? length a)%nat then 1
    else r
  else r.

Definition Slice_eq (a b : bytes) : bool :=
  (length a =? length b)%nat && (memcmp a b =? 0).

(** The length of the common prefix. *)
Fixpoint diff_index (start limit : bytes) : nat :=
  match start, limit with
  | x :: start, y :: limit => if decide (x = y) then S (diff_index start limit) else 0
  | _, _ => 0
  end.

(** Increment the first byte of [rest] that is not 0xff and cut the string
    there; a run of 0xff is left alone. *)
Fixpoint bump (rest : bytes) : bytes :=
  match rest with
  | [] => []
  | b :: rest =>
      if Z_of_byte b <? 255 then [byte_of_Z (Z_of_byte b + 1)]
      else b :: bump rest
  end.

Definition bytewise_separator (start limit : bytes) : bytes :=
  let min_length := Nat.min (length start) (length limit) in
  let d := diff_index start limit in
  if (min_length <=? d)%nat then start
  else
    let start_byte := Z_of_byte (nth d start Byte.x00) in
    let limit_byte := Z_of_byte (nth d limit Byte.x00) in
    if start_byte >=? limit_byte then start
    else if (d <? length limit - 1)%nat || (start_byte + 1 <? limit_byte) then
      take d start ++ [byte_of_Z (start_byte + 1)]
    else take (S d) start ++ bump (drop (S d) start).

Definition bytewise_successor (key : bytes) : bytes := bump key.

Definition BytewiseComparator : Comparator := {|
  Compare := Slice_compare;
  FindShortestSeparator := bytewise_separator;
  FindShortSuccessor := bytewise_successor
|}.

(** The reverse comparator inherits the separator and the successor of the
    bytewise one. *)
Definition ReverseBytewiseComparator : Comparator := {|
  Compare := fun a b => - Slice_compare a b;
  FindShortestSeparator := bytewise_separator;
  FindShortSuccessor := bytewise_successor
|}.

(** *** The lexicographic order behind [Slice_compare] *)

Fixpoint lex (a b : bytes) : Z :=
  match a, b with
  | [], [] => 0
  | [], _ :: _ => -1
  | _ :: _, [] => 1
  | x :: a, y :: b =>
      if Z_of_byte x <? Z_of_byte y then -1
      else if Z_of_byte y <? Z_of_byte x then 1
      else lex a b
  end.

Lemma Slice_compare_lex a b : Slice_compare a b = lex a b.
Proof.
  unfold Slice_compare. revert b.
  induction a as [|x a IH]; intros [|y b]; try done.
  cbn [lex]. specialize (IH b). rewrite <- IH. clear IH.
  cbn [length].
  replace (S (length a) <? S (length b))%nat with (length a <? length b)%nat by done.
  replace (S (length b) <? S (length a))%nat with (length b <? length a)%nat by done.
  destruct (length a <? length b)%nat; cbn [take memcmp]; split_ifs; done.
Qed.

Lemma lex_refl a : lex a a = 0.
Proof. induction a as [|x a IH]; [done|]. cbn [lex]. by rewrite Z.ltb_irrefl. Qed.

Lemma lex_antisym a b : lex b a = - lex a b.
Proof.
  revert b; induction a as [|x a IH]; intros [|y b]; try done.
  cbn [lex]. split_ifs; try lia. apply IH.
Qed.

Lemma lex_eq a b : lex a b = 0 -> a = b.
Proof.
  revert b; induction a as [|x a IH]; intros [|y b]; try done.
  cbn [lex]. split_ifs; try done. intros H. f_equal; [|auto].
  apply Z_of_byte_inj. lia.
Qed.

Lemma lex_trans a b d : lex a b <= 0 -> lex b d <= 0 -> lex a d <= 0.
Proof.
  revert b d; induction a as [|x a IH]; intros [|y b] [|z d]; try done.
  cbn [lex]. split_ifs; try lia. apply IH.
Qed.

Lemma lex_app p a b : lex (p ++ a) (p ++ b) = lex a b.
Proof. induction p as [|x p IH]; [done|]. cbn [lex app]. by rewrite Z.ltb_irrefl. Qed.

Lemma lex_prefix p a : lex p (p ++ a) <= 0.
Proof. rewrite <- (app_nil_r p) at 1. rewrite lex_app. by destruct a. Qed.

Lemma lex_bump a : lex a (bump a) <= 0.
Proof.
  induction a as [|x a IH]; [done|]. cbn [bump].
  pose proof (Z_of_byte_range x). split_ifs; cbn [lex].
  - rewrite Z_of_byte_of_Z, Z.mod_small by lia. split_ifs; lia.
  - rewrite Z.ltb_irrefl. done.
Qed.

(** Where two strings differ: the common prefix and the first difference. *)
Lemma diff_index_spec a b :
  (diff_index a b < Nat.min (length a) (length b))%nat ->
  exists p x y a' b', x <> y /\ length p = diff_index a b /\
    a = p ++ x :: a' /\ b = p ++ y :: b'.
Proof.
  revert b; induction a as [|x a IH]; intros [|y b] H; cbn [length] in H;
    [cbn [Nat.min] in H; lia..|].
  cbn [diff_index] in *. case_decide as Hxy.
  - subst y. destruct (IH b) as (p & x' & y' & a' & b' & Hne & Hp & -> & ->); [lia|].
    exists (x :: p), x', y', a', b'. cbn [length app]. split_and!; try done. lia.
  - by exists [], x, y, a, b.
Qed.

(** The separator keeps the prefix before the first difference and what it
    appends there sorts between the two strings. *)
Lemma bytewise_separator_bounds a b :
  lex a b < 0 -> lex a (bytewise_separator a b) <= 0 /\ lex (bytewise_separator a b) b < 0.
Proof.
  intros Hlt. unfold bytewise_separator.
  destruct (Nat.leb_spec (Nat.min (length a) (length b)) (diff_index a b)) as [|Hd].
  { by rewrite lex_refl. }
  destruct (diff_index_spec a b Hd) as (p & x & y & a' & b' & Hne & Hp & -> & ->).
  rewrite <- Hp, !nth_middle, !take_app_length.
  rewrite take_S_middle, drop_S_middle.
  rewrite lex_app in Hlt. cbn [lex] in Hlt.
  pose proof (Z_of_byte_range x). pose proof (Z_of_byte_range y).
  assert (Hxy : Z_of_byte x < Z_of_byte y).
  { destruct (Z.ltb_spec (Z_of_byte x) (Z_of_byte y)); [done|].
    destruct (Z.ltb_spec (Z_of_byte y) (Z_of_byte x)); [lia|].
    exfalso. apply Hne, Z_of_byte_inj. lia. }
  destruct (Z.geb_spec (Z_of_byte x) (Z_of_byte y)); [lia|].
  destruct (_ || _) eqn:Hc.
  - rewrite !lex_app. cbn [lex]. rewrite Z_of_byte_of_Z, Z.mod_small by lia.
    apply orb_true_iff in Hc as [Hc|Hc].
    + apply Nat.ltb_lt in Hc. rewrite length_app in Hc. cbn [length] in Hc.
      destruct b' as [|z b']; [cbn [length] in Hc; lia|].
      split_ifs; split; try lia; cbn; lia.
    + split_ifs; split; try lia; cbn; lia.
  - rewrite <- app_assoc, !lex_app. cbn [app lex]. rewrite Z.ltb_irrefl.
    rewrite (proj2 (Z.ltb_lt _ _) Hxy). split; [apply lex_bump|lia].
Qed.

Lemma bytewise_separator_same a : bytewise_separator a a = a.
Proof.
  unfold bytewise_separator. assert (H : diff_index a a = length a).
  { induction a as [|x a IH]; [done|]. cbn [diff_index length].
    by rewrite decide_True, IH. }
  by rewrite H, Nat.min_id, Nat.leb_refl.
Qed.

#[global] Instance BytewiseComparator_ok :
  ComparatorOk BytewiseComparator (fun _ => True).
Proof.
  split; split; cbn [Compare FindShortestSeparator FindShortSuccessor BytewiseComparator];
    intros; rewrite ?Slice_compare_lex in *; try done.
  - apply lex_refl.
  - rewrite (lex_antisym b a). by rewrite Z.sgn_opp.
  - by eapply lex_trans.
  - by apply bytewise_separator_bounds.
  - by apply bytewise_separator_bounds.
  - apply lex_eq in H1 as ->. by rewrite bytewise_separator_same, lex_refl.
  - apply lex_bump.
Qed.

(** The reverse order has no key that the separator could shorten: it keeps
    the contract of the order and of the separator. *)
Lemma bytewise_separator_gt a b : lex b a < 0 -> bytewise_separator a b = a.
Proof.
  intros Hlt. unfold bytewise_separator.
  destruct (Nat.leb_spec (Nat.min (length a) (length b)) (diff_index a b)) as [|Hd]; [done|].
  destruct (diff_index_spec a b Hd) as (p & x & y & a' & b' & Hne & Hp & -> & ->).
  rewrite <- Hp, !nth_middle. rewrite lex_app in Hlt. cbn [lex] in Hlt.
  destruct (Z.geb_spec (Z_of_byte x) (Z_of_byte y)); [done|].
  revert Hlt. split_ifs; lia.
Qed.

#[global] Instance Reverse_order : CompareOrder ReverseBytewiseComparator (fun _ => True).
Proof.
  split; cbn [Compare ReverseBytewiseComparator]; intros; rewrite ?Slice_compare_lex in *.
  - by rewrite lex_refl.
  - rewrite (lex_antisym b a). lia.
  - pose proof (lex_trans d b a). rewrite (lex_antisym b a), (lex_antisym d b) in *.
    rewrite (lex_antisym d a) in *. lia.
Qed.

#[global] Instance Reverse_separator : SeparatorOk ReverseBytewiseComparator (fun _ => True).
Proof.
  split; cbn [Compare FindShortestSeparator ReverseBytewiseComparator]; intros;
    rewrite ?Slice_compare_lex in *; try done.
  - rewrite bytewise_separator_gt, lex_refl by (rewrite lex_antisym; lia). lia.
  - by rewrite bytewise_separator_gt by (rewrite lex_antisym; lia).
  - assert (E : a = b) by (apply lex_eq; lia). subst.
    by rewrite bytewise_separator_same, lex_refl.
Qed.

End Bytewise.

(** ** Internal keys *)

(** [ValueType] is an [unsigned char]: any byte can be cast to it, so it is an
    integer here, with the enumerators of db/dbformat.h. *)
Definition kTypeDeletion : Z := 0.
Definition kTypeValue : Z := 1.
Definition kTypeMerge : Z := 2.
Definition kTypeLogData : Z := 3.
Definition kTypeColumnFamilyDeletion : Z := 4.
Definition kTypeColumnFamilyValue : Z := 5.
Definition kTypeColumnFamilyMerge : Z := 6.
Definition kTypeSingleDeletion : Z := 7.
Definition kTypeColumnFamilySingleDeletion : Z := 8.
Definition kTypeBeginPrepareXID : Z := 9.
Definition kTypeEndPrepareXID : Z := 10.
Definition kTypeCommitXID : Z := 11.
Definition kTypeRollbackXID : Z := 12.
Definition kTypeNoop : Z := 13.
Definition kTypeColumnFamilyRangeDeletion : Z := 14.
Definition kTypeRangeDeletion : Z := 15.
Definition kMaxValue : Z := 127.

Definition kValueTypeForSeek : Z := kTypeSingleDeletion.
Definition kValueTypeForSeekForPrev : Z := kTypeDeletion.

Definition IsValueType (t : Z) : bool :=
  (t <=? kTypeMerge) || (t =? kTypeSingleDeletion).

Definition IsExtendedValueType (t : Z) : bool :=
  IsValueType t || (t =? kTypeRangeDeletion).

Definition kMaxSequenceNumber : Z := Z.shiftl 1 56 - 1.

Record ParsedInternalKey := mkParsed {
  user_key : bytes;
  sequence : Z;
  type : Z
}.

#[export] Instance ParsedInternalKey_eq_dec : EqDecision ParsedInternalKey.
Proof. solve_decision. Defined.

Definition InternalKeyEncodingLength (key : ParsedInternalKey) : nat :=
  (length (user_key key) + 8)%nat.

Definition PackSequenceAndType (seq t : Z) : Z := Z.lor (u64 (Z.shiftl seq 8)) t.

Definition UnPackSequenceAndType (packed : Z) : Z * Z :=
  (Z.shiftr packed 8, Z.land packed 255).

Definition AppendInternalKey (result : bytes) (key : ParsedInternalKey) : bytes :=
  (result ++ user_key key) ++ PutFixed64 (PackSequenceAndType (sequence key) (type key)).

Definition AppendInternalKeyFooter (result : bytes) (s t : Z) : bytes :=
  result ++ PutFixed64 (PackSequenceAndType s t).

Definition ExtractUserKey (internal_key : bytes) : bytes :=
  take (length internal_key - 8) internal_key.

(** [DecodeFixed64 (data + n - 8)], the packed sequence number and type. *)
Definition key_footer (internal_key : bytes) : Z :=
  DecodeFixed64 (drop (length internal_key - 8) internal_key).

Definition ExtractValueType (internal_key : bytes) : Z :=
  Z.land (key_footer internal_key) 255.

Definition ParseInternalKey (internal_key : bytes) : option ParsedInternalKey :=
  let n := length internal_key in
  if (n <? 8)%nat then None
  else
    let num := key_footer internal_key in
    let c := Z.land num 255 in
    let result := mkParsed (take (n - 8) internal_key) (Z.shiftr num 8) c in
    if IsExtendedValueType (type result) then Some result else None.

Definition UpdateInternalKey (ikey : bytes) (seq t : Z) : bytes :=
  let newval := Z.lor (u64 (Z.shiftl seq 8)) t in
  take (length ikey - 8) ikey ++ EncodeFixed64 newval.

Definition GetInternalKeySeqno (internal_key : bytes) : Z :=
  Z.shiftr (key_footer internal_key) 8.

(** The constructor of [InternalKey] and the two extremes for a user key. *)
Definition InternalKey_make (user : bytes) (s t : Z) : bytes :=
  AppendInternalKey [] (mkParsed user s t).

Definition SetMaxPossibleForUserKey (user : bytes) : bytes :=
  AppendInternalKey [] (mkParsed user kMaxSequenceNumber kValueTypeForSeek).

Definition SetMinPossibleForUserKey (user : bytes) : bytes :=
  AppendInternalKey [] (mkParsed user 0 0).

(** [LookupKey]: the memtable key; the internal key starts after the varint. *)
Record LookupKey := mkLookupKey { lk_start : bytes; lk_kstart : nat }.

Definition LookupKey_make (user : bytes) (s : Z) : LookupKey :=
  let usize := length user in
  let klength := EncodeVarint32 (u32 (Z.of_nat usize + 8)) in
  mkLookupKey
    (klength ++ user ++ EncodeFixed64 (PackSequenceAndType s kValueTypeForSeek))
    (length klength).

Definition memtable_key (k : LookupKey) : bytes := lk_start k.
Definition lookup_internal_key (k : LookupKey) : bytes := drop (lk_kstart k) (lk_start k).
Definition lookup_user_key (k : LookupKey) : bytes :=
  let ik := lookup_internal_key k in take (length ik - 8) ik.

Section InternalKeyComparator.
Context (user_comparator : Comparator).

Definition InternalKeyCompare (akey bkey : bytes) : Z :=
  let r := Compare (Comparator:=user_comparator) (ExtractUserKey akey) (ExtractUserKey bkey) in
  if r =? 0 then
    let anum := key_footer akey in
    let bnum := key_footer bkey in
    if anum >? bnum then -1 else if anum <? bnum then 1 else r
  else r.

Definition ParsedCompare (a b : ParsedInternalKey) : Z :=
  let r := Compare (Comparator:=user_comparator) (user_key a) (user_key b) in
  if r =? 0 then
    if sequence a >? sequence b then -1
    else if sequence a <? sequence b then 1
    else if type a >? type b then -1
    else if type a <? type b then 1
    else r
  else r.

Definition InternalKey_separator (start limit : bytes) : bytes :=
  let user_start := ExtractUserKey start in
  let user_limit := ExtractUserKey limit in
  let tmp := FindShortestSeparator (Comparator:=user_comparator) user_start user_limit in
  if (length tmp <=? length user_start)%nat &&
     (Compare (Comparator:=user_comparator) user_start tmp <? 0) then
    tmp ++ PutFixed64 (PackSequenceAndType kMaxSequenceNumber kValueTypeForSeek)
  else start.

Definition InternalKey_successor (key : bytes) : bytes :=
  let ukey := ExtractUserKey key in
  let tmp := FindShortSuccessor (Comparator:=user_comparator) ukey in
  if (length tmp <=? length ukey)%nat &&
     (Compare (Comparator:=user_comparator) ukey tmp <? 0) then
    tmp ++ PutFixed64 (PackSequenceAndType kMaxSequenceNumber kValueTypeForSeek)
  else key.

Definition InternalKeyComparator : Comparator := {|
  Compare := InternalKeyCompare;
  FindShortestSeparator := InternalKey_separator;
  FindShortSuccessor := InternalKey_successor
|}.
End InternalKeyComparator.

(** *** Lemmas on packing and parsing *)

(** What the assertions of [PackSequenceAndType] require. *)
Definition packable (seq t : Z) : Prop := 0 <= seq <= kMaxSequenceNumber /\ 0 <= t < 256.

Definition valid_parsed (k : ParsedInternalKey) : Prop :=
  packable (sequence k) (type k) /\ IsExtendedValueType (type k) = true.

Definition valid_internal_key (k : bytes) : Prop := (8 <= length k)%nat.

Lemma kMaxSequenceNumber_value : kMaxSequenceNumber = 2 ^ 56 - 1.
Proof. reflexivity. Qed.

Lemma Pack_value seq t : packable seq t -> PackSequenceAndType seq t = seq * 256 + t.
Proof.
  intros [Hs Ht]. rewrite kMaxSequenceNumber_value in Hs. unfold PackSequenceAndType.
  rewrite u64_small by (rewrite Z.shiftl_mul_pow2 by lia; zlia).
  rewrite Z.lor_comm, lor_shiftl_add by zlia. zlia.
Qed.

Lemma Pack_u64 seq t : packable seq t -> is_u64 (PackSequenceAndType seq t).
Proof.
  intros H. rewrite Pack_value by done. destruct H as [Hs Ht].
  rewrite kMaxSequenceNumber_value in Hs. zlia.
Qed.

Lemma UnPack_Pack seq t :
  packable seq t -> UnPackSequenceAndType (PackSequenceAndType seq t) = (seq, t).
Proof.
  intros H. unfold UnPackSequenceAndType. rewrite Pack_value, land_255 by done.
  rewrite Z.shiftr_div_pow2 by lia. destruct H as [Hs Ht]. f_equal; zlia.
Qed.

Lemma ExtractUserKey_app u v : ExtractUserKey (u ++ EncodeFixed64 v) = u.
Proof.
  unfold ExtractUserKey. rewrite take_app_length'; [done|].
  rewrite length_app, length_EncodeFixed64. lia.
Qed.

Lemma key_footer_app u v : is_u64 v -> key_footer (u ++ EncodeFixed64 v) = v.
Proof.
  intros Hv. unfold key_footer. rewrite drop_app_length'.
  - rewrite <- (app_nil_r (EncodeFixed64 v)). by apply DecodeFixed64_app.
  - rewrite length_app, length_EncodeFixed64. lia.
Qed.

Lemma key_footer_Append r k :
  packable (sequence k) (type k) ->
  key_footer (AppendInternalKey r k) = PackSequenceAndType (sequence k) (type k).
Proof. intros H. apply key_footer_app. by apply Pack_u64. Qed.

Lemma ExtractUserKey_Append k : ExtractUserKey (AppendInternalKey [] k) = user_key k.
Proof. apply ExtractUserKey_app. Qed.

Lemma length_AppendInternalKey k :
  length (AppendInternalKey [] k) = InternalKeyEncodingLength k.
Proof.
  unfold AppendInternalKey, InternalKeyEncodingLength, PutFixed64.
  by rewrite length_app, length_EncodeFixed64.
Qed.

Lemma valid_AppendInternalKey k : valid_internal_key (AppendInternalKey [] k).
Proof.
  unfold valid_internal_key. rewrite length_AppendInternalKey.
  unfold InternalKeyEncodingLength. lia.
Qed.

Lemma ParseInternalKey_Append k :
  valid_parsed k -> ParseInternalKey (AppendInternalKey [] k) = Some k.
Proof.
  intros [Hp Ht]. unfold ParseInternalKey.
  destruct (Nat.ltb_spec (length (AppendInternalKey [] k)) 8) as [Hl|_].
  { pose proof (valid_AppendInternalKey k). unfold valid_internal_key in *. lia. }
  rewrite key_footer_Append by done.
  change (take _ _) with (ExtractUserKey (AppendInternalKey [] k)).
  rewrite ExtractUserKey_Append.
  pose proof (UnPack_Pack _ _ Hp) as Hu. unfold UnPackSequenceAndType in Hu.
  simplify_eq. cbn [type]. rewrite H, H0, Ht. by destruct k.
Qed.

(** *** The order on internal keys *)

Lemma InternalKeyCompare_Append ucmp a b :
  packable (sequence a) (type a) -> packable (sequence b) (type b) ->
  InternalKeyCompare ucmp (AppendInternalKey [] a) (AppendInternalKey [] b) =
  ParsedCompare ucmp a b.
Proof.
  intros Ha Hb. unfold InternalKeyCompare, ParsedCompare.
  rewrite !ExtractUserKey_Append, !key_footer_Append, !Pack_value by done.
  destruct Ha as [_ Ha], Hb as [_ Hb]. split_ifs; try done; lia.
Qed.

Lemma kMax_packable t : 0 <= t < 256 -> packable kMaxSequenceNumber t.
Proof. split; [|done]. rewrite kMaxSequenceNumber_value. zlia. Qed.

Section InternalKeyComparatorFacts.
Context (ucmp : Comparator) {Ho : CompareOrder ucmp (fun _ => True)}.
#[local] Existing Instance Ho.

(** The user keys decide unless they are equal. *)
Lemma InternalKeyCompare_user a b :
  Compare (ExtractUserKey a) (ExtractUserKey b) <> 0 ->
  InternalKeyCompare ucmp a b = Compare (ExtractUserKey a) (ExtractUserKey b).
Proof. unfold InternalKeyCompare. intros Hr. by apply Z.eqb_neq in Hr as ->. Qed.

#[export] Instance InternalKeyComparator_order :
  CompareOrder (InternalKeyComparator ucmp) valid_internal_key.
Proof.
  split; cbn [Compare InternalKeyComparator]; unfold InternalKeyCompare.
  - intros a _. rewrite compare_refl by done. cbn. split_ifs; lia.
  - intros a b _ _.
    pose proof (compare_antisym (ExtractUserKey a) (ExtractUserKey b) I I).
    split_ifs; lia.
  - intros a b d _ _ _.
    pose proof (compare_antisym (ExtractUserKey a) (ExtractUserKey b) I I).
    pose proof (compare_antisym (ExtractUserKey b) (ExtractUserKey d) I I).
    pose proof (compare_antisym (ExtractUserKey a) (ExtractUserKey d) I I).
    pose proof (compare_trans (ExtractUserKey a) (ExtractUserKey b) (ExtractUserKey d) I I I).
    pose proof (compare_trans (ExtractUserKey b) (ExtractUserKey d) (ExtractUserKey a) I I I).
    pose proof (compare_trans (ExtractUserKey d) (ExtractUserKey a) (ExtractUserKey b) I I I).
    split_ifs; lia.
Qed.

Lemma tacked_key_valid u s t :
  valid_internal_key (u ++ PutFixed64 (PackSequenceAndType s t)).
Proof.
  unfold valid_internal_key, PutFixed64. rewrite length_app, length_EncodeFixed64. lia.
Qed.

(** A shortened user key with the seek footer sorts strictly after the key
    it replaces. *)
Lemma shortened_after a u s t :
  Compare (ExtractUserKey a) u < 0 ->
  InternalKeyCompare ucmp a (u ++ PutFixed64 (PackSequenceAndType s t)) < 0.
Proof.
  intros Hlt. unfold PutFixed64.
  rewrite InternalKeyCompare_user; rewrite ExtractUserKey_app; lia.
Qed.

#[export] Instance InternalKeyComparator_successor :
  SuccessorOk (InternalKeyComparator ucmp) valid_internal_key.
Proof.
  split; cbn [Compare FindShortSuccessor InternalKeyComparator];
    unfold InternalKey_successor; intros a Ha; destruct (_ && _) eqn:E; bprop.
  - apply tacked_key_valid.
  - done.
  - apply Z.lt_le_incl, shortened_after. lia.
  - pose proof (compare_refl (c:=InternalKeyComparator ucmp) a Ha) as Hr.
    cbn [Compare InternalKeyComparator] in Hr. lia.
Qed.

#[export] Instance InternalKeyComparator_separator
    {Hs : SeparatorOk ucmp (fun _ => True)} :
  SeparatorOk (InternalKeyComparator ucmp) valid_internal_key.
Proof.
  split; cbn [Compare FindShortestSeparator InternalKeyComparator];
    unfold InternalKey_separator; intros a b Ha Hb; destruct (_ && _) eqn:E; bprop;
    pose proof (compare_refl (c:=InternalKeyComparator ucmp) a Ha) as Hr;
    cbn [Compare InternalKeyComparator] in Hr; try (intros; lia).
  - apply tacked_key_valid.
  - done.
  - intros _. apply Z.lt_le_incl, shortened_after. lia.
  - intros Hab. unfold PutFixed64.
    assert (Hu : Compare (ExtractUserKey a) (ExtractUserKey b) < 0).
    { revert Hab. unfold InternalKeyCompare. destruct (Z.eqb_spec
        (Compare (ExtractUserKey a) (ExtractUserKey b)) 0) as [E'|]; [|done].
      pose proof (separator_same _ _ I I E'). lia. }
    pose proof (separator_lt _ _ I I Hu).
    rewrite InternalKeyCompare_user; rewrite ExtractUserKey_app; lia.
  - intros Hab. assert (Hu : Compare (ExtractUserKey a) (ExtractUserKey b) = 0).
    { revert Hab. unfold InternalKeyCompare.
      destruct (Z.eqb_spec (Compare (ExtractUserKey a) (ExtractUserKey b)) 0); lia. }
    pose proof (separator_same _ _ I I Hu). lia.
Qed.

#[export] Instance InternalKeyComparator_ok
    {Hs : SeparatorOk ucmp (fun _ => True)} :
  ComparatorOk (InternalKeyComparator ucmp) valid_internal_key.
Proof. split; apply _. Qed.
End InternalKeyComparatorFacts.

(** ** Properties *)

(** The bytewise comparator is a total order in which only equal strings
    compare equal, and [FindShortestSeparator] keeps its promise on every pair
    of strings: with [start < limit] the result is in [\[start, limit)], and it
    is no longer than [start]; [FindShortSuccessor] never goes below its
    argument. *)
Theorem bytewise_contract :
  ComparatorOk Bytewise.BytewiseComparator (fun _ => True) /\
  (forall a b, Bytewise.Slice_compare a b = 0 <-> a = b) /\
  (forall a b, (length (Bytewise.bytewise_separator a b) <= length a)%nat).
Proof.
  split_and!.
  - apply _.
  - intros a b. rewrite Bytewise.Slice_compare_lex.
    split; [apply Bytewise.lex_eq|intros ->; apply Bytewise.lex_refl].
  - intros a b. unfold Bytewise.bytewise_separator. cbv zeta.
    destruct (Nat.leb_spec (Nat.min (length a) (length b)) (Bytewise.diff_index a b));
      [done|].
    set (d := Bytewise.diff_index a b) in *.
    assert (Hbump : forall l, (length (Bytewise.bump l) <= length l)%nat).
    { induction l as [|x l IH]; cbn [Bytewise.bump]; [done|].
      destruct (_ <? _); cbn [length]; lia. }
    specialize (Hbump (drop (S d) a)). rewrite length_drop in Hbump.
    destruct (_ >=? _); [done|]. destruct (_ || _);
      rewrite length_app, length_take; cbn [length]; lia.
Qed.

(** C26: over any user comparator that keeps its order and separator contracts
    (the bytewise and the reverse one do), the internal-key comparator is a
    full comparator on keys of at least eight bytes; in particular the
    assertions of its [FindShortestSeparator] and [FindShortSuccessor] hold. *)
Theorem internal_key_comparator_contract (ucmp : Comparator)
    (Ho : CompareOrder ucmp (fun _ => True)) (Hs : SeparatorOk ucmp (fun _ => True)) :
  ComparatorOk (InternalKeyComparator ucmp) valid_internal_key.
Proof. apply _. Qed.

Lemma internal_key_comparator_contract_witness :
  ComparatorOk (InternalKeyComparator Bytewise.BytewiseComparator) valid_internal_key /\
  ComparatorOk (InternalKeyComparator Bytewise.ReverseBytewiseComparator) valid_internal_key.
Proof. split; apply internal_key_comparator_contract; apply _. Defined.



(** C28: seeking with the lookup key of a user key [u] and a snapshot [s] lands
    on the first entry of [u] the snapshot may see: among the entries of [u]
    with an inline value type, exactly those with sequence number at most [s]
    are at or after the lookup key.  The lookup key's memtable form is the
    length-prefixed internal key. *)
Theorem lookup_key_seek (ucmp : Comparator) (u : bytes) (s : Z) (e : ParsedInternalKey) :
  CompareOrder ucmp (fun _ => True) ->
  0 <= s <= kMaxSequenceNumber -> packable (sequence e) (type e) ->
  IsValueType (type e) = true -> user_key e = u ->
  (InternalKeyCompare ucmp (lookup_internal_key (LookupKey_make u s))
     (AppendInternalKey [] e) <= 0 <-> sequence e <= s) /\
  lookup_user_key (LookupKey_make u s) = u /\
  (is_u32 (Z.of_nat (length u) + 8) ->
   GetLengthPrefixedSlice (memtable_key (LookupKey_make u s)) =
   Some (lookup_internal_key (LookupKey_make u s), [])).
Proof.
  intros Ho Hs He Ht <-.
  assert (Hp : packable s kValueTypeForSeek) by (split; done).
  assert (Hik : lookup_internal_key (LookupKey_make (user_key e) s) =
    AppendInternalKey [] (mkParsed (user_key e) s kValueTypeForSeek)).
  { unfold lookup_internal_key, LookupKey_make. cbn [lk_start lk_kstart].
    by rewrite drop_app_length. }
  split_and!.
  - rewrite Hik, InternalKeyCompare_Append by done. unfold ParsedCompare.
    cbn [user_key sequence type]. rewrite compare_refl by done.
    unfold IsValueType, kValueTypeForSeek, kTypeSingleDeletion, kTypeMerge in *.
    destruct He as [_ He]. apply orb_true_iff in Ht. cbn [Z.eqb]. split_ifs; lia.
  - unfold lookup_user_key. rewrite Hik. apply (ExtractUserKey_Append (mkParsed _ _ _)).
  - intros Hlen. rewrite Hik.
    rewrite <- (app_nil_r (memtable_key (LookupKey_make (user_key e) s))).
    set (ik := AppendInternalKey [] _).
    assert (Hl : length ik = (length (user_key e) + 8)%nat)
      by apply (length_AppendInternalKey (mkParsed _ _ _)).
    replace (memtable_key (LookupKey_make (user_key e) s)) with (PutLengthPrefixedSlice ik).
    { apply GetLengthPrefixedSlice_app. rewrite Hl. zlia. }
    unfold PutLengthPrefixedSlice, memtable_key, LookupKey_make, PutVarint32.
    cbn [lk_start]. rewrite Hl. do 3 f_equal. lia.
Qed.

Lemma lookup_key_seek_witness :
  InternalKeyCompare Bytewise.BytewiseComparator
    (lookup_internal_key (LookupKey_make [Byte.x61] 9))
    (AppendInternalKey [] (mkParsed [Byte.x61] 5 kTypeValue)) <= 0 <-> 5 <= 9.
Proof.
  refine (proj1 (lookup_key_seek Bytewise.BytewiseComparator [Byte.x61] 9
    (mkParsed [Byte.x61] 5 kTypeValue) _ _ _ _ _)).
  - vm_compute. done.
  - repeat split; vm_compute; done.
  - reflexivity.
  - reflexivity.
Defined.

(** [kValueTypeForSeek] is meant to be the highest-numbered value type, but
    [kTypeRangeDeletion] is above it: at the largest sequence number a range
    tombstone sorts before the key that [SetMaxPossibleForUserKey] builds. *)
Theorem seek_type_below_range_deletion :
  IsExtendedValueType kTypeRangeDeletion = true /\
  InternalKeyCompare Bytewise.BytewiseComparator
    (AppendInternalKey [] (mkParsed [Byte.x61] kMaxSequenceNumber kTypeRangeDeletion))
    (SetMaxPossibleForUserKey [Byte.x61]) < 0.
Proof. split; vm_compute; reflexivity. Qed.

(** The reverse comparator inherits [FindShortSuccessor]: the string it leaves
    is before the key in the reverse order, not at or after it. *)
Theorem reverse_successor_before_key :
  Compare (Comparator:=Bytewise.ReverseBytewiseComparator)
    [Byte.x61; Byte.x62]
    (FindShortSuccessor (Comparator:=Bytewise.ReverseBytewiseComparator)
       [Byte.x61; Byte.x62]) > 0.
Proof. reflexivity. Qed.
