(* ===== verification/ThreadPool.v ===== *)
(** * The thread pool (util/threadpool_imp.cc)

    One pool of background threads with a FIFO queue of jobs.  The state of
    [ThreadPoolImpl::Impl] is a record; each method is a function on it.  The
    body of [BGThread] between two waits is one decision of a thread
    ([BGThread_iter]): keep waiting, terminate, or run the job it dequeued.
    Threads are identified by their index in [bgthreads_].  Jobs are values of
    an arbitrary type [J]; running them is up to the client. *)

From S2P Require Import Prelude.
From stdpp Require Import base list.
From Stdlib Require Import ZArith Lia.
#[local] Open Scope Z_scope.

Section ThreadPool.
Context {J U : Type}.

(** [unschedFunction] may be the empty [std::function]. *)
Record BGItem := mkItem {
  item_tag : nat;
  item_function : J;
  item_unsched : option U
}.

Record Impl := mkImpl {
  low_io_priority_ : bool;
  total_threads_limit_ : Z;
  queue_len_ : Z;
  exit_all_threads_ : bool;
  wait_for_jobs_to_complete_ : bool;
  queue_ : list BGItem;
  bgthreads_ : nat
}.

#[export] Instance Impl_settable : Settable Impl := fun r =>
  mkImpl (low_io_priority_ r) (total_threads_limit_ r) (queue_len_ r)
    (exit_all_threads_ r) (wait_for_jobs_to_complete_ r) (queue_ r) (bgthreads_ r).

(** The constructor: one thread allowed, none started. *)
Definition Impl_init : Impl := mkImpl false 1 0 false false [] 0.

Definition HasExcessiveThread (p : Impl) : bool :=
  Z.of_nat (bgthreads_ p) >? total_threads_limit_ p.

Definition IsLastExcessiveThread (p : Impl) (thread_id : nat) : bool :=
  HasExcessiveThread p && (Z.of_nat thread_id =? Z.of_nat (bgthreads_ p) - 1).

Definition IsExcessiveThread (p : Impl) (thread_id : nat) : bool :=
  Z.of_nat thread_id >=? total_threads_limit_ p.

Definition GetQueueLen (p : Impl) : Z := queue_len_ p.
Definition GetBackgroundThreads (p : Impl) : Z := total_threads_limit_ p.
Definition LowerIOPriority (p : Impl) : Impl := p <| low_io_priority_ := true |>.

(** [queue_len_.store(static_cast<unsigned int>(queue_.size()))] *)
Definition store_queue_len (p : Impl) : Impl :=
  p <| queue_len_ := u32 (Z.of_nat (length (queue_ p))) |>.

(** The loop of [StartBGThreads] starts one thread per iteration; the number
    of missing threads bounds it. *)
Fixpoint StartBGThreads_loop (fuel : nat) (p : Impl) : Impl :=
  match fuel with
  | O => p
  | S fuel =>
      if Z.of_nat (bgthreads_ p) <? total_threads_limit_ p then
        StartBGThreads_loop fuel (p <| bgthreads_ ::= S |>)
      else p
  end.

Definition StartBGThreads (p : Impl) : Impl :=
  StartBGThreads_loop (Z.to_nat (total_threads_limit_ p)) p.

Definition SetBackgroundThreadsInternal (num : Z) (allow_reduce : bool) (p : Impl) : Impl :=
  if exit_all_threads_ p then p
  else if (num >? total_threads_limit_ p) ||
          ((num <? total_threads_limit_ p) && allow_reduce) then
    StartBGThreads (p <| total_threads_limit_ := Z.max 0 num |>)
  else p.

Definition SetBackgroundThreads (num : Z) (p : Impl) : Impl :=
  SetBackgroundThreadsInternal num true p.

Definition IncBackgroundThreadsIfNeeded (num : Z) (p : Impl) : Impl :=
  SetBackgroundThreadsInternal num false p.

(** A job submitted while the threads are being joined is dropped. *)
Definition Submit (schedule : J) (unschedule : option U) (tag : nat) (p : Impl) : Impl :=
  if exit_all_threads_ p then p
  else
    let p := StartBGThreads p in
    store_queue_len (p <| queue_ ::= fun q => q ++ [mkItem tag schedule unschedule] |>).

Definition SubmitJob (job : J) (p : Impl) : Impl := Submit job None 0 p.

Definition Schedule (function : J) (tag : nat) (unschedFunction : option U) (p : Impl) : Impl :=
  Submit function unschedFunction tag p.

(** [UnSchedule] removes the queued jobs with the tag and returns how many
    there were and the unschedule functions to run outside the mutex. *)
Fixpoint UnSchedule_loop (arg : nat) (q : list BGItem) : list BGItem * list U * Z :=
  match q with
  | [] => ([], [], 0)
  | it :: q =>
      let '(kept, candidates, count) := UnSchedule_loop arg q in
      if decide (arg = item_tag it) then
        (kept, match item_unsched it with Some f => f :: candidates | None => candidates end,
         count + 1)
      else (it :: kept, candidates, count)
  end.

Definition UnSchedule (arg : nat) (p : Impl) : Impl * list U * Z :=
  let '(kept, candidates, count) := UnSchedule_loop arg (queue_ p) in
  (store_queue_len (p <| queue_ := kept |>), candidates, count).

(** One decision of a background thread holding [mu_].  [ThreadStuck] stands
    for [queue_.front()] on an empty queue. *)
Inductive ThreadDecision :=
| ThreadWait
| ThreadExit (p : Impl)
| ThreadRun (f : J) (p : Impl)
| ThreadStuck.

Definition BGThread_iter (thread_id : nat) (p : Impl) : ThreadDecision :=
  if negb (exit_all_threads_ p) && negb (IsLastExcessiveThread p thread_id) &&
     (match queue_ p with [] => true | _ => false end || IsExcessiveThread p thread_id)
  then ThreadWait
  else if exit_all_threads_ p &&
     (negb (wait_for_jobs_to_complete_ p) || match queue_ p with [] => true | _ => false end)
  then ThreadExit p
  else if IsLastExcessiveThread p thread_id then
    ThreadExit (p <| bgthreads_ ::= Nat.pred |>)
  else
    match queue_ p with
    | [] => ThreadStuck
    | it :: rest => ThreadRun (item_function it) (store_queue_len (p <| queue_ := rest |>))
    end.

(** [JoinThreads] raises the exit flags, waits for the threads to terminate
    and resets the pool. *)
Definition JoinThreads_begin (wait_for_jobs_to_complete : bool) (p : Impl) : Impl :=
  p <| wait_for_jobs_to_complete_ := wait_for_jobs_to_complete |>
    <| exit_all_threads_ := true |>.

Definition JoinThreads_end (p : Impl) : Impl :=
  p <| bgthreads_ := O |> <| exit_all_threads_ := false |>
    <| wait_for_jobs_to_complete_ := false |>.

(** ** Invariant *)

(** The reported length is the length of the queue (an [unsigned int]) and the
    thread limit is never negative. *)
Definition pool_ok (p : Impl) : Prop :=
  queue_len_ p = u32 (Z.of_nat (length (queue_ p))) /\ 0 <= total_threads_limit_ p.

Lemma StartBGThreads_loop_spec fuel p :
  (Z.to_nat (total_threads_limit_ p) <= bgthreads_ p + fuel)%nat ->
  StartBGThreads_loop fuel p =
  p <| bgthreads_ := Nat.max (bgthreads_ p) (Z.to_nat (total_threads_limit_ p)) |>.
Proof.
  revert p; induction fuel as [|fuel IH]; intros p Hf; cbn [StartBGThreads_loop].
  - destruct p; cbn in *. f_equal. lia.
  - destruct (Z.ltb_spec (Z.of_nat (bgthreads_ p)) (total_threads_limit_ p)).
    + rewrite IH by (destruct p; cbn in *; lia). destruct p; cbn in *. f_equal. lia.
    + destruct p; cbn in *. f_equal. lia.
Qed.

Lemma StartBGThreads_spec p :
  StartBGThreads p =
  p <| bgthreads_ := Nat.max (bgthreads_ p) (Z.to_nat (total_threads_limit_ p)) |>.
Proof. apply StartBGThreads_loop_spec. lia. Qed.

Lemma UnSchedule_loop_spec arg q :
  UnSchedule_loop arg q =
  (filter (fun it => arg <> item_tag it) q,
   omap item_unsched (filter (fun it => arg = item_tag it) q),
   Z.of_nat (length (filter (fun it => arg = item_tag it) q))).
Proof.
  induction q as [|it q IH]; [done|]. cbn [UnSchedule_loop]. rewrite IH.
  rewrite !filter_cons. destruct (decide (arg = item_tag it)) as [E|E].
  - rewrite decide_False by tauto. cbn [length omap list_omap].
    repeat f_equal; first [by destruct (item_unsched it)|lia].
  - by rewrite decide_True by done.
Qed.

Lemma store_queue_len_ok p :
  0 <= total_threads_limit_ p -> pool_ok (store_queue_len p).
Proof. intros H. split; [done|]. by destruct p. Qed.

Lemma Submit_queue f u t p :
  exit_all_threads_ p = false -> queue_ (Submit f u t p) = queue_ p ++ [mkItem t f u].
Proof. intros H. unfold Submit. rewrite H, StartBGThreads_spec. by destruct p. Qed.

Lemma Submit_exit f u t p :
  exit_all_threads_ (Submit f u t p) = exit_all_threads_ p.
Proof.
  unfold Submit. destruct (exit_all_threads_ p) eqn:E; [done|].
  rewrite StartBGThreads_spec. by destruct p.
Qed.

Lemma Submit_limit f u t p :
  total_threads_limit_ (Submit f u t p) = total_threads_limit_ p.
Proof.
  unfold Submit. destruct (exit_all_threads_ p) eqn:E; [done|].
  rewrite StartBGThreads_spec. by destruct p.
Qed.

Lemma Submit_ok f u t p : pool_ok p -> pool_ok (Submit f u t p).
Proof.
  intros [Hq Hl]. unfold Submit. destruct (exit_all_threads_ p); [done|].
  apply store_queue_len_ok. rewrite StartBGThreads_spec. by destruct p.
Qed.

Lemma SetBackgroundThreadsInternal_queue num b p :
  queue_ (SetBackgroundThreadsInternal num b p) = queue_ p /\
  exit_all_threads_ (SetBackgroundThreadsInternal num b p) = exit_all_threads_ p /\
  (pool_ok p -> pool_ok (SetBackgroundThreadsInternal num b p)).
Proof.
  unfold SetBackgroundThreadsInternal. destruct (exit_all_threads_ p) eqn:E; [done|].
  destruct (_ || _); [|done]. rewrite StartBGThreads_spec. destruct p; cbn in *.
  split_and!; [done..|]. intros [Hq Hl]. split; cbn in *; [done|lia].
Qed.

Lemma UnSchedule_ok arg p : pool_ok p -> pool_ok (fst (fst (UnSchedule arg p))).
Proof.
  intros [Hq Hl]. unfold UnSchedule. destruct (UnSchedule_loop _ _) as [[k c] n]. cbn [fst].
  apply store_queue_len_ok. by destruct p.
Qed.

Lemma BGThread_iter_run thread_id p f p' :
  BGThread_iter thread_id p = ThreadRun f p' ->
  exists it rest, queue_ p = it :: rest /\ f = item_function it /\
    p' = store_queue_len (p <| queue_ := rest |>).
Proof.
  unfold BGThread_iter. intros H.
  destruct (negb _ && _ && _); [done|]. destruct (exit_all_threads_ p && _); [done|].
  destruct (IsLastExcessiveThread p thread_id); [done|].
  destruct (queue_ p) as [|it rest] eqn:E; [done|]. simplify_eq. by exists it, rest.
Qed.

Lemma BGThread_iter_exit thread_id p p' :
  BGThread_iter thread_id p = ThreadExit p' ->
  queue_ p' = queue_ p /\ exit_all_threads_ p' = exit_all_threads_ p /\
  (pool_ok p -> pool_ok p').
Proof.
  unfold BGThread_iter. intros H.
  destruct (negb _ && _ && _); [done|].
  destruct (exit_all_threads_ p && _); [by simplify_eq|].
  destruct (IsLastExcessiveThread p thread_id); [simplify_eq; by destruct p|].
  by destruct (queue_ p).
Qed.

(** A thread never takes a job from an empty queue. *)
Lemma BGThread_iter_not_stuck thread_id p : BGThread_iter thread_id p <> ThreadStuck.
Proof.
  unfold BGThread_iter. destruct (queue_ p) eqn:Eq; [|by split_ifs].
  destruct (exit_all_threads_ p), (IsLastExcessiveThread p thread_id),
    (wait_for_jobs_to_complete_ p); done.
Qed.

(** ** Runs of the pool *)

(** What can happen to a pool that is not being joined. *)
Inductive PoolEvent :=
| EvSubmit (f : J) (u : option U) (tag : nat)
| EvThread (thread_id : nat)
| EvSetThreads (num : Z) (allow_reduce : bool)
| EvUnSchedule (tag : nat).

(** One event: the new pool and the jobs a thread started. *)
Definition pool_step (e : PoolEvent) (p : Impl) : Impl * list BGItem :=
  match e with
  | EvSubmit f u t => (Submit f u t p, [])
  | EvThread i =>
      match BGThread_iter i p with
      | ThreadWait | ThreadStuck => (p, [])
      | ThreadExit p => (p, [])
      | ThreadRun _ p' => (p', take 1 (queue_ p))
      end
  | EvSetThreads n b => (SetBackgroundThreadsInternal n b p, [])
  | EvUnSchedule t => (fst (fst (UnSchedule t p)), [])
  end.

Fixpoint pool_run (es : list PoolEvent) (p : Impl) : Impl * list BGItem :=
  match es with
  | [] => (p, [])
  | e :: es =>
      let '(p, started) := pool_step e p in
      let '(p, started') := pool_run es p in
      (p, started ++ started')
  end.

Definition submitted (es : list PoolEvent) : list BGItem :=
  omap (fun e => match e with EvSubmit f u t => Some (mkItem t f u) | _ => None end) es.

Definition with_tag (t : nat) (l : list BGItem) : list BGItem :=
  filter (fun it => t = item_tag it) l.

Lemma with_tag_app t l k : with_tag t (l ++ k) = with_tag t l ++ with_tag t k.
Proof. apply filter_app. Qed.

Lemma with_tag_other t t' l :
  t <> t' -> with_tag t (filter (fun it => t' <> item_tag it) l) = with_tag t l.
Proof.
  intros Hne. unfold with_tag. induction l as [|it l IH]; [done|].
  rewrite !filter_cons. repeat case_decide; try congruence;
    rewrite ?filter_cons; repeat case_decide; congruence.
Qed.

Lemma pool_step_exit e p :
  exit_all_threads_ p = false -> exit_all_threads_ (fst (pool_step e p)) = false.
Proof.
  intros Hp. destruct e as [f u t|i|n b|t]; cbn [pool_step fst].
  - by rewrite Submit_exit.
  - destruct (BGThread_iter i p) eqn:E; cbn [fst]; try done.
    + apply BGThread_iter_exit in E as (_ & -> & _). done.
    + apply BGThread_iter_run in E as (it & rest & _ & _ & ->). by destruct p.
  - by destruct (SetBackgroundThreadsInternal_queue n b p) as (_ & -> & _).
  - unfold UnSchedule. destruct (UnSchedule_loop _ _) as [[??]?]. by destruct p.
Qed.

Lemma pool_step_fifo e p t :
  exit_all_threads_ p = false -> e <> EvUnSchedule t ->
  with_tag t (snd (pool_step e p) ++ queue_ (fst (pool_step e p))) =
  with_tag t (queue_ p ++ submitted [e]).
Proof.
  intros Hp Hne. destruct e as [f u t'|i|n b|t']; cbn [pool_step fst snd submitted app omap list_omap].
  - by rewrite Submit_queue.
  - rewrite app_nil_r. destruct (BGThread_iter i p) eqn:E; cbn [fst snd app]; try done.
    + by apply BGThread_iter_exit in E as (-> & _ & _).
    + apply BGThread_iter_run in E as (it & rest & -> & _ & ->).
      cbn [take app]. by destruct p.
  - destruct (SetBackgroundThreadsInternal_queue n b p) as (-> & _ & _).
    by rewrite app_nil_r.
  - rewrite app_nil_r. unfold UnSchedule. rewrite UnSchedule_loop_spec. cbn [fst].
    transitivity (with_tag t (filter (fun it => t' <> item_tag it) (queue_ p))).
    + by destruct p.
    + apply with_tag_other. congruence.
Qed.

Lemma pool_run_fifo es p t :
  exit_all_threads_ p = false -> EvUnSchedule t ∉ es ->
  with_tag t (snd (pool_run es p) ++ queue_ (fst (pool_run es p))) =
  with_tag t (queue_ p ++ submitted es).
Proof.
  revert p; induction es as [|e es IH]; intros p Hp Hes; cbn [pool_run].
  { cbn. by rewrite app_nil_r. }
  apply not_elem_of_cons in Hes as [He Hes].
  pose proof (pool_step_fifo e p t Hp ltac:(congruence)) as Hstep.
  pose proof (pool_step_exit e p Hp) as Hx.
  destruct (pool_step e p) as [p1 st1]. cbn [fst snd] in *.
  specialize (IH p1 Hx Hes). destruct (pool_run es p1) as [p2 st2]. cbn [fst snd] in *.
  rewrite <- app_assoc, with_tag_app, IH, <- with_tag_app, app_assoc, with_tag_app, Hstep.
  rewrite <- with_tag_app, <- app_assoc. f_equal. f_equal.
  unfold submitted. by rewrite <- omap_app.
Qed.

Lemma pool_step_ok e p : pool_ok p -> pool_ok (fst (pool_step e p)).
Proof.
  intros Hp. destruct e as [f u t|i|n b|t]; cbn [pool_step fst].
  - by apply Submit_ok.
  - destruct (BGThread_iter i p) eqn:E; cbn [fst]; try done.
    + apply BGThread_iter_exit in E as (_ & _ & H). auto.
    + apply BGThread_iter_run in E as (it & rest & _ & _ & ->).
      apply store_queue_len_ok. destruct Hp. by destruct p.
  - by apply SetBackgroundThreadsInternal_queue.
  - by apply UnSchedule_ok.
Qed.

Lemma pool_run_ok es p : pool_ok p -> pool_ok (fst (pool_run es p)).
Proof.
  revert p; induction es as [|e es IH]; intros p Hp; [done|]. cbn [pool_run].
  pose proof (pool_step_ok e p Hp) as H1. destruct (pool_step e p) as [p1 s1].
  specialize (IH p1 H1). by destruct (pool_run es p1).
Qed.

End ThreadPool.

Arguments BGItem : clear implicits.
Arguments Impl : clear implicits.
Arguments ThreadDecision : clear implicits.
Arguments PoolEvent : clear implicits.

(** ** Properties *)



(** [UnSchedule] removes exactly the queued jobs with the given tag,
    returns their number and hands back their unschedule functions in queue
    order; a later submission with any tag is queued behind the others. *)
Theorem unschedule_exact {J U : Type} (arg : nat) (p : Impl J U) :
  let '(p', candidates, count) := UnSchedule arg p in
  queue_ p' = filter (fun it => arg <> item_tag it) (queue_ p) /\
  candidates = omap item_unsched (with_tag arg (queue_ p)) /\
  count = Z.of_nat (length (queue_ p)) - Z.of_nat (length (queue_ p')) /\
  bgthreads_ p' = bgthreads_ p /\
  (exit_all_threads_ p = false -> forall f u t,
   queue_ (Submit f u t p') = queue_ p' ++ [mkItem t f u]).
Proof.
  unfold UnSchedule. rewrite UnSchedule_loop_spec.
  assert (Hlen : forall q : list (BGItem J U), length q =
    (length (filter (fun it => arg = item_tag it) q) +
     length (filter (fun it => arg <> item_tag it) q))%nat).
  { induction q as [|it q IH]; [done|]. rewrite !filter_cons.
    repeat case_decide; cbn [length]; try tauto; lia. }
  specialize (Hlen (queue_ p)).
  split_and!; [by destruct p|done| |by destruct p|].
  - destruct p; cbn in *. lia.
  - intros Hx f u t. apply Submit_queue. by destruct p.
Qed.
