(* ===== verification/Scheduler.v ===== *)
(** * Background work scheduling, the core of SILK
    (db/db_impl_compaction_flush.cc, db/db_impl.cc)

    The state of [DBImpl] that decides which flushes and compactions run, and
    when.  A handler that holds [mutex_] throughout is a function on the
    state; a handler that releases the mutex while a job runs is split at that
    point into a [_begin] and an [_end] function, and the step relation of
    SchedulerInv.v interleaves them freely.

    What other components answer about a column family (is a flush pending,
    does it need compaction, how many files are in level 0, ...) is its
    [CFView]; whenever the code gives those components a chance to change it,
    the new view is an argument.  An [assert] of the code records a violation
    in [assert_ok], and so does every access to a column family or to a manual
    compaction that no longer exists. *)

From S2P Require Import Prelude ThreadPool.
From stdpp Require Import base gmap list strings.
From Stdlib Require Import ZArith Lia.
#[local] Open Scope Z_scope.

(** ** State *)

(** The answers of the memtable list, the version storage and the options of a
    column family. *)
Record CFView := mkView {
  IsFlushPending : bool;            (** [imm()->IsFlushPending()] *)
  NumNotFlushed : Z;                (** [imm()->NumNotFlushed()] *)
  mem_IsEmpty : bool;               (** [mem()->IsEmpty()] *)
  NeedsCompaction : bool;           (** [NeedsCompaction()] *)
  NumLevelFiles0 : Z;               (** [current()->storage_info()->NumLevelFiles(0)] *)
  disable_auto_compactions : bool;
  memtable_memory : Z               (** [write_buffer_size * max_write_buffer_number] *)
}.

Record ColumnFamilyData := mkCFD {
  refs_ : Z;
  dropped_ : bool;
  pending_flush_ : bool;
  pending_compaction_ : bool;
  cf_view : CFView
}.

#[export] Instance ColumnFamilyData_settable : Settable ColumnFamilyData := fun r =>
  mkCFD (refs_ r) (dropped_ r) (pending_flush_ r) (pending_compaction_ r) (cf_view r).

(** A compaction that was picked: deletion compactions and trivial moves only
    edit the version; the others run a job.  It holds a reference to its
    column family. *)
Inductive CompactionKind := DeletionCompaction | TrivialMove | FullCompaction.

Record Compaction := mkCompaction { c_cfd : nat; c_kind : CompactionKind }.

Record ManualCompaction := mkManual {
  m_cfd : nat;
  m_status : Status;
  m_done : bool;
  m_in_progress : bool;
  m_incomplete : bool;
  m_exclusive : bool;
  m_disallow_trivial_move : bool;
  m_manual_end_null : bool;         (** [manual_end == nullptr] *)
  m_compaction : option Compaction
}.

#[export] Instance ManualCompaction_settable : Settable ManualCompaction := fun r =>
  mkManual (m_cfd r) (m_status r) (m_done r) (m_in_progress r) (m_incomplete r)
    (m_exclusive r) (m_disallow_trivial_move r) (m_manual_end_null r) (m_compaction r).

(** The functions given to [env_->Schedule]; a compaction carries the manual
    compaction of its [CompactionArg], if any. *)
Inductive Job := BGWorkFlush | BGWorkCompaction (m : option nat).

Inductive Priority := LOW | HIGH.

#[export] Instance Priority_eq_dec : EqDecision Priority.
Proof. solve_decision. Defined.

Notation JobPool := (Impl Job (option nat)).

(** The column families and the two queues of those that wait for work. *)
Record Families := mkFamilies {
  cfds : gmap nat ColumnFamilyData;
  default_cf : nat;
  flush_queue_ : list nat;
  compaction_queue_ : list nat;
  fam_ok : bool
}.

#[export] Instance Families_settable : Settable Families := fun r =>
  mkFamilies (cfds r) (default_cf r) (flush_queue_ r) (compaction_queue_ r) (fam_ok r).

(** The counters of background jobs and the two thread pools they go to. *)
Record Jobs := mkJobs {
  unscheduled_flushes_ : Z;
  unscheduled_compactions_ : Z;
  bg_flush_scheduled_ : Z;
  bg_compaction_scheduled_ : Z;
  num_running_flushes_ : Z;
  num_running_compactions_ : Z;
  pool_high : JobPool;
  pool_low : JobPool;
  jobs_ok : bool
}.

#[export] Instance Jobs_settable : Settable Jobs := fun r =>
  mkJobs (unscheduled_flushes_ r) (unscheduled_compactions_ r) (bg_flush_scheduled_ r)
    (bg_compaction_scheduled_ r) (num_running_flushes_ r) (num_running_compactions_ r)
    (pool_high r) (pool_low r) (jobs_ok r).

(** The rest: flags, pause counters, manual compactions, options, the write
    controller's [NeedSpeedupCompaction()] and how often [bg_cv_.SignalAll()]
    was called. *)
Record Control := mkControl {
  opened_successfully_ : bool;
  shutting_down_ : bool;
  bg_error_ : Status;
  bg_work_paused_ : Z;
  bg_compaction_paused_ : Z;
  num_running_ingest_file_ : Z;
  max_total_in_memory_state_ : Z;
  manual_compaction_dequeue_ : list nat;
  manuals : gmap nat ManualCompaction;
  max_background_flushes : Z;
  max_background_compactions : Z;
  max_background_jobs : Z;
  need_speedup_compaction : bool;
  paranoid_checks : bool;
  bg_cv_signals : nat;
  ctl_ok : bool
}.

#[export] Instance Control_settable : Settable Control := fun r =>
  mkControl (opened_successfully_ r) (shutting_down_ r) (bg_error_ r) (bg_work_paused_ r)
    (bg_compaction_paused_ r) (num_running_ingest_file_ r) (max_total_in_memory_state_ r)
    (manual_compaction_dequeue_ r) (manuals r) (max_background_flushes r)
    (max_background_compactions r) (max_background_jobs r) (need_speedup_compaction r)
    (paranoid_checks r) (bg_cv_signals r) (ctl_ok r).

(** The fields of [DBImpl] that background work reads and writes, in the three
    groups that are updated independently. *)
Record DBImpl := mkDB { fams : Families; jobs : Jobs; ctl : Control }.

#[export] Instance DBImpl_settable : Settable DBImpl := fun r =>
  mkDB (fams r) (jobs r) (ctl r).

(** Every assertion met so far held, and no deleted column family was used. *)
Definition assert_ok (st : DBImpl) : bool :=
  fam_ok (fams st) && jobs_ok (jobs st) && ctl_ok (ctl st).

Definition fam_assert (b : bool) (F : Families) : Families := F <| fam_ok ::= fun a => a && b |>.
Definition jobs_assert (b : bool) (j : Jobs) : Jobs := j <| jobs_ok ::= fun a => a && b |>.
Definition ctl_assert (b : bool) (c : Control) : Control := c <| ctl_ok ::= fun a => a && b |>.

Definition SignalAll (st : DBImpl) : DBImpl :=
  st <| ctl ::= fun c => c <| bg_cv_signals ::= S |> |>.

(** ** Column families *)

Definition no_view : CFView := mkView false 0 true false 0 false 0.
Definition no_cfd : ColumnFamilyData := mkCFD 0 false false false no_view.

Definition get_cfd (F : Families) (id : nat) : ColumnFamilyData :=
  default no_cfd (cfds F !! id).

(** Accessing a column family asserts that it has not been deleted. *)
Definition live (id : nat) (F : Families) : Families :=
  fam_assert (bool_decide (is_Some (cfds F !! id))) F.

Definition upd_cfd (id : nat) (f : ColumnFamilyData -> ColumnFamilyData) (F : Families) : Families :=
  (live id F) <| cfds ::= alter f id |>.

Definition set_view (id : nat) (v : CFView) (F : Families) : Families :=
  upd_cfd id (fun c => c <| cf_view := v |>) F.

(** The view of a column family as other components leave it while its super
    version stays installed. *)
Definition refresh_view (id : nat) (v : CFView) (F : Families) : Families :=
  upd_cfd id (fun c => c <| cf_view :=
    mkView (IsFlushPending v) (NumNotFlushed v) (mem_IsEmpty v) (NeedsCompaction v)
      (NumLevelFiles0 v) (disable_auto_compactions v) (memtable_memory (cf_view c)) |>) F.

Definition Ref (id : nat) (F : Families) : Families :=
  upd_cfd id (fun c => c <| refs_ ::= Z.succ |>) F.

(** [Unref] returns whether this was the last reference. *)
Definition Unref (id : nat) (F : Families) : bool * Families :=
  let old_refs := refs_ (get_cfd F id) in
  (old_refs =? 1,
   fam_assert (old_refs >? 0) (upd_cfd id (fun c => c <| refs_ ::= Z.pred |>) F)).

Definition delete_cfd (id : nat) (F : Families) : Families := F <| cfds ::= delete id |>.

(** [if (cfd->Unref()) delete cfd;] *)
Definition Unref_delete (id : nat) (F : Families) : Families :=
  let '(last, F) := Unref id F in if last then delete_cfd id F else F.

Definition FreeDeadColumnFamilies (F : Families) : Families :=
  F <| cfds ::= filter (fun kv => refs_ kv.2 <> 0) |>.

(** ** Queues of column families *)

Definition AddToCompactionQueue (id : nat) (F : Families) : Families :=
  let F := fam_assert (negb (pending_compaction_ (get_cfd F id))) F in
  let F := Ref id F in
  let F := F <| compaction_queue_ ::= fun q => q ++ [id] |> in
  upd_cfd id (fun c => c <| pending_compaction_ := true |>) F.

Definition PopFirstFromCompactionQueue (F : Families) : nat * Families :=
  match compaction_queue_ F with
  | [] => (O, fam_assert false F)
  | id :: q =>
      let F := F <| compaction_queue_ := q |> in
      let F := fam_assert (pending_compaction_ (get_cfd F id)) F in
      (id, upd_cfd id (fun c => c <| pending_compaction_ := false |>) F)
  end.

Definition AddToFlushQueue (id : nat) (F : Families) : Families :=
  let F := fam_assert (negb (pending_flush_ (get_cfd F id))) F in
  let F := Ref id F in
  let F := F <| flush_queue_ ::= fun q => q ++ [id] |> in
  upd_cfd id (fun c => c <| pending_flush_ := true |>) F.

Definition PopFirstFromFlushQueue (F : Families) : nat * Families :=
  match flush_queue_ F with
  | [] => (O, fam_assert false F)
  | id :: q =>
      let F := F <| flush_queue_ := q |> in
      let F := fam_assert (pending_flush_ (get_cfd F id)) F in
      (id, upd_cfd id (fun c => c <| pending_flush_ := false |>) F)
  end.

Definition SchedulePendingFlush (id : nat) (st : DBImpl) : DBImpl :=
  let st := st <| fams ::= live id |> in
  let c := get_cfd (fams st) id in
  if negb (pending_flush_ c) && IsFlushPending (cf_view c) then
    st <| fams ::= AddToFlushQueue id |>
       <| jobs ::= fun j => j <| unscheduled_flushes_ ::= Z.succ |> |>
  else st.

Definition SchedulePendingCompaction (id : nat) (st : DBImpl) : DBImpl :=
  let st := st <| fams ::= live id |> in
  let c := get_cfd (fams st) id in
  if negb (pending_compaction_ c) && NeedsCompaction (cf_view c) then
    st <| fams ::= AddToCompactionQueue id |>
       <| jobs ::= fun j => j <| unscheduled_compactions_ ::= Z.succ |> |>
  else st.

(** ** Thread pools *)

Definition get_pool (pri : Priority) (j : Jobs) : JobPool :=
  match pri with HIGH => pool_high j | LOW => pool_low j end.

Definition set_pool (pri : Priority) (p : JobPool) (j : Jobs) : Jobs :=
  match pri with HIGH => j <| pool_high := p |> | LOW => j <| pool_low := p |> end.

(** The jobs of this database carry its address, [this], as tag. *)
Definition this_tag : nat := 1.

Definition env_Schedule (f : Job) (pri : Priority) (u : option (option nat)) (j : Jobs) : Jobs :=
  set_pool pri (Schedule f this_tag u (get_pool pri j)) j.

Definition GetThreadPoolQueueLen (pri : Priority) (j : Jobs) : Z := GetQueueLen (get_pool pri j).

Definition env_GetBackgroundThreads (pri : Priority) (j : Jobs) : Z :=
  GetBackgroundThreads (get_pool pri j).

(** ** Manual compactions *)

Definition no_manual : ManualCompaction :=
  mkManual 0 OK true false false false false true None.

Definition get_manual (c : Control) (m : nat) : ManualCompaction :=
  default no_manual (manuals c !! m).

Definition upd_manual (m : nat) (f : ManualCompaction -> ManualCompaction) (c : Control) : Control :=
  (ctl_assert (bool_decide (is_Some (manuals c !! m))) c) <| manuals ::= alter f m |>.

Definition HasPendingManualCompaction (c : Control) : bool :=
  match manual_compaction_dequeue_ c with [] => false | _ => true end.

Definition AddManualCompaction (m : nat) (c : Control) : Control :=
  c <| manual_compaction_dequeue_ ::= fun q => q ++ [m] |>.

(** The first occurrence is erased; a missing one is an [assert(false)]. *)
Fixpoint remove_first (m : nat) (q : list nat) : option (list nat) :=
  match q with
  | [] => None
  | x :: q =>
      if decide (m = x) then Some q
      else match remove_first m q with Some q => Some (x :: q) | None => None end
  end.

Definition RemoveManualCompaction (m : nat) (c : Control) : Control :=
  match remove_first m (manual_compaction_dequeue_ c) with
  | Some q => c <| manual_compaction_dequeue_ := q |>
  | None => ctl_assert false c
  end.

Definition HasExclusiveManualCompaction (c : Control) : bool :=
  existsb (fun m => m_exclusive (get_manual c m)) (manual_compaction_dequeue_ c).

Fixpoint HaveManualCompaction_loop (c : Control) (cfd : nat) (q : list nat) : bool :=
  match q with
  | [] => false
  | m :: q =>
      let it := get_manual c m in
      if m_exclusive it then true
      else if bool_decide (cfd = m_cfd it) && negb (m_in_progress it || m_done it) then true
      else HaveManualCompaction_loop c cfd q
  end.

Definition HaveManualCompaction (cfd : nat) (c : Control) : bool :=
  HaveManualCompaction_loop c cfd (manual_compaction_dequeue_ c).

Definition MCOverlap (m m1 : ManualCompaction) : bool :=
  if m_exclusive m || m_exclusive m1 then true
  else if negb (bool_decide (m_cfd m = m_cfd m1)) then false
  else true.

Fixpoint ShouldntRun_loop (c : Control) (m : nat) (seen : bool) (q : list nat) : bool :=
  match q with
  | [] => false
  | x :: q =>
      if decide (m = x) then ShouldntRun_loop c m true q
      else if MCOverlap (get_manual c m) (get_manual c x) &&
              (negb seen && negb (m_in_progress (get_manual c x))) then true
      else ShouldntRun_loop c m seen q
  end.

Definition ShouldntRunManualCompaction (m : nat) (st : DBImpl) : bool :=
  if num_running_ingest_file_ (ctl st) >? 0 then true
  else if m_exclusive (get_manual (ctl st) m) then bg_compaction_scheduled_ (jobs st) >? 0
  else ShouldntRun_loop (ctl st) m false (manual_compaction_dequeue_ (ctl st)).

(** ** Job limits *)

Record BGJobLimits := mkLimits { max_flushes : Z; max_compactions : Z }.

(** [int] division truncates. *)
Definition GetBGJobLimits (max_background_flushes max_background_compactions
    max_background_jobs : Z) (parallelize_compactions : bool) : BGJobLimits :=
  let res :=
    if (max_background_flushes =? -1) && (max_background_compactions =? -1) then
      let mf := Z.max 1 (Z.quot max_background_jobs 4) in
      mkLimits mf (Z.max 1 (max_background_jobs - mf))
    else
      mkLimits (Z.max 1 max_background_flushes) (Z.max 1 max_background_compactions) in
  if negb parallelize_compactions then mkLimits (max_flushes res) 1 else res.

Definition bg_job_limits (c : Control) : BGJobLimits :=
  GetBGJobLimits (max_background_flushes c) (max_background_compactions c)
    (max_background_jobs c) (need_speedup_compaction c).

(** ** MaybeScheduleFlushOrCompaction *)

(** The body of the two flush loops, and of the compaction loop. *)
Definition schedule_flush (pri : Priority) (j : Jobs) : Jobs :=
  env_Schedule BGWorkFlush pri None
    (j <| unscheduled_flushes_ ::= Z.pred |> <| bg_flush_scheduled_ ::= Z.succ |>).

Definition schedule_compaction (pri : Priority) (j : Jobs) : Jobs :=
  env_Schedule (BGWorkCompaction None) pri (Some None)
    (j <| bg_compaction_scheduled_ ::= Z.succ |> <| unscheduled_compactions_ ::= Z.pred |>).

(** The loops decrease the number of unscheduled jobs, which bounds them. *)
Fixpoint while_ (fuel : nat) (cond : Jobs -> bool) (body : Jobs -> Jobs) (j : Jobs) : Jobs :=
  match fuel with
  | O => j
  | S fuel => if cond j then while_ fuel cond body (body j) else j
  end.

Definition schedule_flushes (limits : BGJobLimits) (is_flush_pool_empty : bool) (j : Jobs) : Jobs :=
  let j :=
    while_ (Z.to_nat (unscheduled_flushes_ j))
      (fun j => negb is_flush_pool_empty && (unscheduled_flushes_ j >? 0) &&
                (bg_flush_scheduled_ j <? max_flushes limits))
      (schedule_flush HIGH) j in
  if is_flush_pool_empty then
    while_ (Z.to_nat (unscheduled_flushes_ j))
      (fun j => (unscheduled_flushes_ j >? 0) &&
                (bg_flush_scheduled_ j + bg_compaction_scheduled_ j <? max_flushes limits))
      (schedule_flush LOW) j
  else j.

(** SILK's condition for giving the head of the compaction queue, an L0->L1
    compaction, to the flush pool; [l0] is the number of level-0 files of the
    default column family. *)
Definition silk_high_compaction (l0 : Z) (j : Jobs) : bool :=
  (GetThreadPoolQueueLen HIGH j <? 2) &&
  ((num_running_flushes_ j <? 2) || (unscheduled_flushes_ j <? 2)) &&
  (unscheduled_compactions_ j >? 0) &&
  (l0 >=? 4).

Definition schedule_silk (l0 : Z) (j : Jobs) : Jobs :=
  if silk_high_compaction l0 j then schedule_compaction HIGH j else j.

Definition schedule_low_compactions (limits : BGJobLimits) (j : Jobs) : Jobs :=
  while_ (Z.to_nat (unscheduled_compactions_ j))
    (fun j => (bg_compaction_scheduled_ j <? max_compactions limits) &&
              (unscheduled_compactions_ j >? 0))
    (schedule_compaction LOW) j.

Definition default_l0_files (F : Families) : Z :=
  NumLevelFiles0 (cf_view (get_cfd F (default_cf F))).

Definition MaybeScheduleFlushOrCompaction (st : DBImpl) : DBImpl :=
  if negb (opened_successfully_ (ctl st)) then st
  else if bg_work_paused_ (ctl st) >? 0 then st
  else if shutting_down_ (ctl st) then st
  else
    let limits := bg_job_limits (ctl st) in
    let is_flush_pool_empty := env_GetBackgroundThreads HIGH (jobs st) =? 0 in
    let st := st <| jobs ::= schedule_flushes limits is_flush_pool_empty |> in
    let st := st <| fams ::= live (default_cf (fams st)) |> in
    let st := st <| jobs ::= schedule_silk (default_l0_files (fams st)) |> in
    if bg_compaction_paused_ (ctl st) >? 0 then st
    else if HasExclusiveManualCompaction (ctl st) then st
    else st <| jobs ::= schedule_low_compactions limits |>.

(** ** Pausing and continuing *)

(** The waits for scheduled work separate the two halves. *)
Definition PauseBackgroundWork_begin (st : DBImpl) : DBImpl :=
  st <| ctl ::= fun c => c <| bg_compaction_paused_ ::= Z.succ |> |>.

Definition PauseBackgroundWork_wait (st : DBImpl) : bool :=
  (bg_compaction_scheduled_ (jobs st) >? 0) || (bg_flush_scheduled_ (jobs st) >? 0).

Definition PauseBackgroundWork_end (st : DBImpl) : Status * DBImpl :=
  (OK, st <| ctl ::= fun c => c <| bg_work_paused_ ::= Z.succ |> |>).

Definition ContinueBackgroundWork (st : DBImpl) : Status * DBImpl :=
  if bg_work_paused_ (ctl st) =? 0 then (InvalidArgument EmptyString, st)
  else
    let st := st <| ctl ::= fun c =>
      (ctl_assert (bg_compaction_paused_ c >? 0) (ctl_assert (bg_work_paused_ c >? 0) c))
        <| bg_compaction_paused_ ::= Z.pred |> <| bg_work_paused_ ::= Z.pred |> |> in
    (OK, if bg_work_paused_ (ctl st) =? 0 then MaybeScheduleFlushOrCompaction st else st).

Definition PauseCompactionWork_begin (st : DBImpl) : DBImpl :=
  st <| ctl ::= fun c => c <| bg_compaction_paused_ ::= Z.succ |> |>.

Definition PauseCompactionWork_wait (st : DBImpl) : bool :=
  bg_compaction_scheduled_ (jobs st) >? 0.

Definition PauseCompactionWork_end (st : DBImpl) : Status * DBImpl :=
  (OK, st <| ctl ::= fun c => c <| bg_compaction_paused_ ::= Z.succ |> |>).

Definition ContinueCompactionWork (st : DBImpl) : Status * DBImpl :=
  if bg_compaction_paused_ (ctl st) =? 0 then (InvalidArgument EmptyString, st)
  else
    let st := st <| ctl ::= fun c =>
      (ctl_assert (bg_compaction_paused_ c >? 0) c) <| bg_compaction_paused_ ::= Z.pred |> |> in
    (OK, if bg_compaction_paused_ (ctl st) =? 0 then MaybeScheduleFlushOrCompaction st else st).

(** ** Installing a version and flushing a memtable *)

(** [v] is the view of the column family once the super version is installed. *)
Definition InstallSuperVersionAndScheduleWork (id : nat) (v : CFView) (st : DBImpl) : DBImpl :=
  let old_memtable_size := memtable_memory (cf_view (get_cfd (fams st) id)) in
  let st := st <| fams ::= set_view id v |> in
  let st := SchedulePendingFlush id st in
  let st := SchedulePendingCompaction id st in
  let st := MaybeScheduleFlushOrCompaction st in
  st <| ctl ::= fun c => c <| max_total_in_memory_state_ ::=
          fun t => u64 (t - old_memtable_size + memtable_memory v) |> |>.

(** [FlushMemTable]: the test for something to flush, then (after the switch of
    the memtable, which releases the mutex) the scheduling. *)
Definition FlushMemTable_nothing (id : nat) (F : Families) : bool :=
  (NumNotFlushed (cf_view (get_cfd F id)) =? 0) && mem_IsEmpty (cf_view (get_cfd F id)).

Definition FlushMemTable_schedule (id : nat) (v : CFView) (st : DBImpl) : DBImpl :=
  let st := st <| fams ::= refresh_view id v |> in
  MaybeScheduleFlushOrCompaction (SchedulePendingFlush id st).

(** One test of the loop of [WaitForFlushMemTable]: [None] means wait. *)
Definition WaitForFlushMemTable_test (id : nat) (st : DBImpl) : option Status :=
  if (NumNotFlushed (cf_view (get_cfd (fams st) id)) >? 0) && ok (bg_error_ (ctl st)) then
    if shutting_down_ (ctl st) then Some ShutdownInProgress
    else if dropped_ (get_cfd (fams st) id) then
      Some (InvalidArgument "Cannot flush a dropped CF"%string)
    else None
  else if negb (ok (bg_error_ (ctl st))) then Some (bg_error_ (ctl st))
  else Some OK.

(** ** Background flushes *)

(** A flush job between the points where it releases the mutex: flushing a
    column family, or past [BackgroundFlush] with its status. *)
Inductive RunningFlush :=
| FlushRunning (id : nat)
| FlushReturned (s : Status).

Definition bg_status (c : Control) : Status :=
  if ok (bg_error_ c) && shutting_down_ c then ShutdownInProgress else bg_error_ c.

(** The loop of [BackgroundFlush] pops column families until one can be
    flushed; the queue bounds it. *)
Fixpoint BackgroundFlush_pick (fuel : nat) (F : Families) : option nat * Families :=
  match fuel with
  | O => (None, F)
  | S fuel =>
      match flush_queue_ F with
      | [] => (None, F)
      | _ =>
          let '(first, F) := PopFirstFromFlushQueue F in
          if dropped_ (get_cfd F first) || negb (IsFlushPending (cf_view (get_cfd F first)))
          then BackgroundFlush_pick fuel (Unref_delete first F)
          else (Some first, F)
      end
  end.

(** Up to the point where [FlushMemTableToOutputFile] picked the memtables,
    which leaves the view [v]. *)
Definition BackgroundFlush_begin (v : CFView) (st : DBImpl) : RunningFlush * DBImpl :=
  let status := bg_status (ctl st) in
  if negb (ok status) then (FlushReturned status, st)
  else
    match BackgroundFlush_pick (length (flush_queue_ (fams st))) (fams st) with
    | (None, F) => (FlushReturned status, st <| fams := F |>)
    | (Some id, F) =>
        let F := fam_assert (negb (NumNotFlushed (cf_view (get_cfd F id)) =? 0)) F in
        let F := fam_assert (IsFlushPending (cf_view (get_cfd F id))) F in
        (FlushRunning id, st <| fams := refresh_view id v F |>)
    end.

(** A job that failed wakes the waiters before it sleeps. *)
Definition signal_error (s : Status) (st : DBImpl) : DBImpl :=
  if negb (ok s) && negb (IsShutdownInProgress s) then SignalAll st else st.

Definition BackgroundCallFlush_begin (v : CFView) (st : DBImpl) : RunningFlush * DBImpl :=
  let st := st <| jobs ::= fun j =>
    (jobs_assert (negb (bg_flush_scheduled_ j =? 0)) j) <| num_running_flushes_ ::= Z.succ |> |> in
  match BackgroundFlush_begin v st with
  | (FlushReturned s, st) => (FlushReturned s, signal_error s st)
  | r => r
  end.

(** Record a background error unless a listener cleared it. *)
Definition set_bg_error (e : Status) (st : DBImpl) : DBImpl :=
  if negb (ok e) then st <| ctl ::= fun c => c <| bg_error_ := e |> |> else st.

(** The end of [FlushMemTableToOutputFile]: [sync_error] is the error (after
    the listeners) if syncing the closed logs failed, [s] the status of the
    flush, [v] the view it leaves, [err] the error after the listeners,
    [space_error] the one raised when the space limit is reached. *)
Definition FlushMemTableToOutputFile_end (id : nat) (sync_error : option Status)
    (s : Status) (v : CFView) (err : Status) (space_error : option Status)
    (st : DBImpl) : DBImpl :=
  let st := match sync_error with Some e => set_bg_error e st | None => st end in
  let st :=
    if ok s then InstallSuperVersionAndScheduleWork id v st
    else st <| fams ::= refresh_view id v |> in
  let st :=
    if negb (ok s) && negb (IsShutdownInProgress s) &&
       paranoid_checks (ctl st) && ok (bg_error_ (ctl st))
    then set_bg_error err st else st in
  if ok s then
    match space_error with
    | Some e => if ok (bg_error_ (ctl st)) then set_bg_error e st else st
    | None => st
    end
  else st.

(** [BackgroundFlush] returns: the reference taken by the queue is released. *)
Definition BackgroundFlush_end (id : nat) (sync_error : option Status) (s : Status)
    (v : CFView) (err : Status) (space_error : option Status) (st : DBImpl)
    : RunningFlush * DBImpl :=
  let st := FlushMemTableToOutputFile_end id sync_error s v err space_error st in
  let st := st <| fams ::= Unref_delete id |> in
  (FlushReturned s, signal_error s st).

Definition BackgroundCallFlush_end (st : DBImpl) : DBImpl :=
  let st := st <| jobs ::= fun j =>
    (jobs_assert (num_running_flushes_ j >? 0) j)
      <| num_running_flushes_ ::= Z.pred |> <| bg_flush_scheduled_ ::= Z.pred |> |> in
  SignalAll (MaybeScheduleFlushOrCompaction st).

(** ** Background compactions *)

Inductive RunningCompaction :=
| CompactionRunning (m : option nat) (c : option Compaction)
| CompactionReturned (s : Status) (made_progress : bool).

(** Releasing a compaction drops its reference to the column family. *)
Definition release_compaction (c : option Compaction) (F : Families) : Families :=
  match c with Some c => Unref_delete (c_cfd c) F | None => F end.

(** The column family at the head of the compaction queue; [pick] is what its
    compaction picker returns, with the view of the column family after it. *)
Definition BackgroundCompaction_auto (pick : option (CompactionKind * CFView))
    (st : DBImpl) : RunningCompaction * DBImpl :=
  match compaction_queue_ (fams st) with
  | [] => (CompactionRunning None None, st)
  | front :: _ =>
      if HaveManualCompaction front (ctl st) then
        (CompactionReturned OK false,
         st <| jobs ::= fun j => j <| unscheduled_compactions_ ::= Z.succ |> |>)
      else
        let '(id, F) := PopFirstFromCompactionQueue (fams st) in
        let '(last, F) := Unref id F in
        if last then (CompactionReturned OK false, st <| fams := delete_cfd id F |>)
        else
          let cfd := get_cfd F id in
          if negb (disable_auto_compactions (cf_view cfd)) && negb (dropped_ cfd) then
            match pick with
            | None => (CompactionRunning None None, st <| fams := F |>)
            | Some (kind, v) =>
                let F := Ref id (refresh_view id v F) in
                let st := st <| fams := F |> in
                let st :=
                  if NeedsCompaction (cf_view (get_cfd F id)) then
                    MaybeScheduleFlushOrCompaction
                      (st <| fams ::= AddToCompactionQueue id |>
                          <| jobs ::= fun j => j <| unscheduled_compactions_ ::= Z.succ |> |>)
                  else st in
                (CompactionRunning None (Some (mkCompaction id kind)), st)
            end
          else (CompactionRunning None None, st <| fams := F |>)
  end.

Definition BackgroundCompaction_manual (m : nat) (st : DBImpl) : RunningCompaction * DBImpl :=
  let st := st <| ctl ::= upd_manual m (fun x => x <| m_in_progress := true |>) |> in
  match m_compaction (get_manual (ctl st) m) with
  | None =>
      (CompactionRunning (Some m) None,
       st <| ctl ::= upd_manual m (fun x =>
               x <| m_done := true |> <| m_manual_end_null := true |>) |>)
  | Some c => (CompactionRunning (Some m) (Some c), st)
  end.

Definition BackgroundCompaction_begin (arg : option nat)
    (pick : option (CompactionKind * CFView)) (st : DBImpl) : RunningCompaction * DBImpl :=
  let status := bg_status (ctl st) in
  if negb (ok status) then
    let st :=
      match arg with
      | Some m =>
          st <| ctl ::= upd_manual m (fun x =>
                  x <| m_status := status |> <| m_done := true |> <| m_in_progress := false |>) |>
             <| fams ::= release_compaction (m_compaction (get_manual (ctl st) m)) |>
      | None => st
      end in
    (CompactionReturned status false, st)
  else
    match arg with
    | Some m => BackgroundCompaction_manual m st
    | None => BackgroundCompaction_auto pick st
    end.

(** Entered once no external file is being ingested. *)
Definition BackgroundCallCompaction_begin (arg : option nat)
    (pick : option (CompactionKind * CFView)) (st : DBImpl) : RunningCompaction * DBImpl :=
  let st := st <| jobs ::= fun j =>
    (jobs_assert (negb (bg_compaction_scheduled_ j =? 0)) j)
      <| num_running_compactions_ ::= Z.succ |> |> in
  match BackgroundCompaction_begin arg pick st with
  | (CompactionReturned s b, st) => (CompactionReturned s b, signal_error s st)
  | r => r
  end.

(** What a manual compaction that disallows trivial moves runs. *)
Definition run_kind (trivial_move_disallowed : bool) (k : CompactionKind) : CompactionKind :=
  match k with
  | TrivialMove => if trivial_move_disallowed then FullCompaction else TrivialMove
  | k => k
  end.

(** The body of a picked compaction and the release of its files. *)
Definition BackgroundCompaction_body (trivial_move_disallowed : bool) (c : option Compaction)
    (status : Status) (v : CFView) (st : DBImpl) : DBImpl :=
  match c with
  | None => st
  | Some c =>
      let st :=
        match run_kind trivial_move_disallowed (c_kind c) with
        | FullCompaction =>
            if ok status then InstallSuperVersionAndScheduleWork (c_cfd c) v st else st
        | _ => InstallSuperVersionAndScheduleWork (c_cfd c) v st
        end in
      st <| fams ::= Unref_delete (c_cfd c) |>
  end.

Definition manual_tail (status : Status) (x : ManualCompaction) : ManualCompaction :=
  let x := if negb (ok status) then x <| m_status := status |> <| m_done := true |> else x in
  let x := if m_manual_end_null x then x <| m_done := true |> else x in
  let x := if negb (m_done x) then x <| m_incomplete := true |> else x in
  x <| m_in_progress := false |>.

(** The background error a failed compaction leaves. *)
Definition compaction_error (status err : Status) (st : DBImpl) : DBImpl :=
  if ok status then st
  else if IsShutdownInProgress status then st
  else if paranoid_checks (ctl st) && ok (bg_error_ (ctl st)) then set_bg_error err st
  else st.

(** The rest of [BackgroundCompaction] once the job has run: [status] is its
    status, [v] the view it leaves, [err] the error after the listeners. *)
Definition BackgroundCompaction_end (m : option nat) (c : option Compaction)
    (status : Status) (v : CFView) (err : Status) (st : DBImpl)
    : RunningCompaction * DBImpl :=
  let trivial_move_disallowed :=
    match m with
    | Some m => m_disallow_trivial_move (get_manual (ctl st) m)
    | None => false
    end in
  let st := BackgroundCompaction_body trivial_move_disallowed c status v st in
  let st := compaction_error status err st in
  let st :=
    match m with
    | Some m => st <| ctl ::= upd_manual m (manual_tail status) |>
    | None => st
    end in
  (CompactionReturned status (match c with Some _ => true | None => false end),
   signal_error status st).

Definition BackgroundCallCompaction_end (made_progress : bool) (st : DBImpl) : DBImpl :=
  let st := st <| jobs ::= fun j =>
    (jobs_assert (num_running_compactions_ j >? 0) j)
      <| num_running_compactions_ ::= Z.pred |> <| bg_compaction_scheduled_ ::= Z.pred |> |> in
  let st := st <| fams ::= FreeDeadColumnFamilies |> in
  let st := MaybeScheduleFlushOrCompaction st in
  if made_progress || (bg_compaction_scheduled_ (jobs st) =? 0) ||
     HasPendingManualCompaction (ctl st)
  then SignalAll st else st.

(** ** Manual compactions in the caller's thread *)

(** [RunManualCompaction] registers the compaction, ... *)
Definition RunManualCompaction_begin (m : nat) (cfd : nat) (exclusive disallow : bool)
    (st : DBImpl) : DBImpl :=
  let manual := mkManual cfd OK false false false exclusive disallow false None in
  st <| ctl ::= fun c => AddManualCompaction m (c <| manuals ::= insert m manual |>) |>.

(** ... (an exclusive one waits until nothing is scheduled) ... *)
Definition RunManualCompaction_exclusive_wait (m : nat) (st : DBImpl) : bool :=
  m_exclusive (get_manual (ctl st) m) && (bg_compaction_scheduled_ (jobs st) >? 0).

(** ... and loops until it is done.  [range] is the result of [CompactRange]:
    the compaction, whether it conflicts with a running one, and whether the
    whole range is covered; a compaction holds a reference. *)
Definition manual_blocked (m : nat) (scheduled : bool) (st : DBImpl) : bool :=
  ShouldntRunManualCompaction m st || m_in_progress (get_manual (ctl st) m) || scheduled.

Definition RunManualCompaction_iter (m : nat) (scheduled : bool)
    (range : option CompactionKind * bool * bool) (st : DBImpl) : bool * DBImpl :=
  let st := st <| ctl ::= fun c => ctl_assert (HasPendingManualCompaction c) c |> in
  if manual_blocked m scheduled st then (scheduled, st)
  else
    let '(c, conflict, end_null) := range in
    let id := m_cfd (get_manual (ctl st) m) in
    let st := st <| ctl ::= upd_manual m (fun x =>
      x <| m_compaction := option_map (mkCompaction id) c |>
        <| m_manual_end_null := end_null |>) |> in
    match c with
    | None =>
        if conflict then
          (scheduled, st <| ctl ::= fun c => ctl_assert (negb (m_exclusive (get_manual c m))) c |>)
        else (scheduled,
              SignalAll (st <| ctl ::= upd_manual m (fun x => x <| m_done := true |>) |>))
    | Some _ =>
        let st := st <| fams ::= Ref id |> in
        let st := st <| ctl ::= upd_manual m (fun x => x <| m_incomplete := false |>) |> in
        (true, st <| jobs ::= fun j =>
           env_Schedule (BGWorkCompaction (Some m)) LOW (Some (Some m))
             (j <| bg_compaction_scheduled_ ::= Z.succ |>) |>)
    end.

(** What a woken waiter does before it tests the loop condition again. *)
Definition RunManualCompaction_wake (m : nat) (scheduled : bool) (st : DBImpl) : bool * DBImpl :=
  if scheduled && m_incomplete (get_manual (ctl st) m) then
    (false, st <| ctl ::= fun c => upd_manual m (fun x => x <| m_incomplete := false |>)
       (ctl_assert (negb (m_in_progress (get_manual c m))) c) |>)
  else (scheduled, st).

(** The [ManualCompaction] lives on the caller's stack and ends with the call:
    a job that still used it would violate the assertion of [upd_manual]. *)
Definition RunManualCompaction_end (m : nat) (st : DBImpl) : Status * DBImpl :=
  let status := m_status (get_manual (ctl st) m) in
  let st := st <| ctl ::= fun c => RemoveManualCompaction m
    (ctl_assert (HasPendingManualCompaction c)
      (ctl_assert (negb (m_in_progress (get_manual c m))) c)) |> in
  let st := SignalAll st in
  (status, st <| ctl ::= fun c => c <| manuals ::= delete m |> |>).

(** ** CompactFiles *)

(** The checks of [CompactFilesImpl] on its arguments: an automatic output path
    needs a single path, then the picker sanitizes the input files and finds them,
    and none of them may already be compacted.  [None]: all passed. *)
Definition CompactFilesImpl_check (output_path_id db_paths : Z) (sanitized found : Status)
    (in_compaction : bool) : option Status :=
  if (output_path_id <? 0) && negb (db_paths =? 1) then
    Some (NotSupported
      "Automatic output path selection is not yet supported in CompactFiles()"%string)
  else if negb (ok sanitized) then Some sanitized
  else if negb (ok found) then Some found
  else if in_compaction then
    Some (Aborted
      "Some of the necessary compaction input files are already being compacted"%string)
  else None.

(** [CompactFilesImpl] up to the release of the mutex: [check] is the outcome of
    the checks, [picked] whether the picker returned a compaction. *)
Definition CompactFilesImpl_begin (id : nat) (check : option Status) (picked : bool)
    (st : DBImpl) : option Status * DBImpl :=
  if shutting_down_ (ctl st) then (Some ShutdownInProgress, st)
  else
    match check with
    | Some s => (Some s, st)
    | None =>
        let st := st <| jobs ::= fun j => j <| bg_compaction_scheduled_ ::= Z.succ |> |> in
        if negb picked then (Some (Aborted "Another Level 0 compaction is running"%string), st)
        else (None, st <| fams ::= Ref id |>)
    end.

Definition CompactFilesImpl_end (id : nat) (status : Status) (v : CFView) (err : Status)
    (st : DBImpl) : DBImpl :=
  let st := if ok status then InstallSuperVersionAndScheduleWork id v st else st in
  let st := compaction_error status err st in
  let st := st <| fams ::= Unref_delete id |> in
  let st := st <| jobs ::= fun j => j <| bg_compaction_scheduled_ ::= Z.pred |> |> in
  if bg_compaction_scheduled_ (jobs st) =? 0 then SignalAll st else st.

(** ** Shutdown *)

(** [CancelAllBackgroundWork(false)] once nothing is left to flush. *)
Definition CancelAllBackgroundWork (st : DBImpl) : DBImpl :=
  SignalAll (st <| ctl ::= fun c => c <| shutting_down_ := true |> |>).

(** [UnscheduleCallback]: a withdrawn manual compaction releases its
    compaction. *)
Definition UnscheduleCallback (c : Control) (F : Families) (arg : option nat) : Families :=
  match arg with
  | Some m => release_compaction (m_compaction (get_manual c m)) F
  | None => F
  end.

(** The destructor withdraws its queued jobs from the two pools, takes what it
    withdrew from the low pool off the compactions and what it withdrew from the
    high pool off the flushes, and waits for both counters to reach zero. *)
Definition DBImpl_unschedule (st : DBImpl) : DBImpl :=
  let '(low, low_callbacks, compactions_unscheduled) := UnSchedule this_tag (pool_low (jobs st)) in
  let '(high, high_callbacks, flushes_unscheduled) := UnSchedule this_tag (pool_high (jobs st)) in
  st <| fams ::= fun F => fold_left (UnscheduleCallback (ctl st)) (low_callbacks ++ high_callbacks) F |>
     <| jobs ::= fun j =>
          j <| pool_low := low |> <| pool_high := high |>
            <| bg_compaction_scheduled_ ::= fun n => n - compactions_unscheduled |>
            <| bg_flush_scheduled_ ::= fun n => n - flushes_unscheduled |> |>.

Definition DBImpl_destructor_begin (st : DBImpl) : DBImpl :=
  DBImpl_unschedule (CancelAllBackgroundWork st).

Definition DBImpl_destructor_wait (st : DBImpl) : bool :=
  negb (bg_compaction_scheduled_ (jobs st) =? 0) || negb (bg_flush_scheduled_ (jobs st) =? 0).

(** Once nothing is scheduled, the destructor drains the two queues. *)
Fixpoint drain_flush_queue (fuel : nat) (F : Families) : Families :=
  match fuel, flush_queue_ F with
  | S fuel, _ :: _ =>
      let '(id, F) := PopFirstFromFlushQueue F in drain_flush_queue fuel (Unref_delete id F)
  | _, _ => F
  end.

Fixpoint drain_compaction_queue (fuel : nat) (F : Families) : Families :=
  match fuel, compaction_queue_ F with
  | S fuel, _ :: _ =>
      let '(id, F) := PopFirstFromCompactionQueue F in
      drain_compaction_queue fuel (Unref_delete id F)
  | _, _ => F
  end.

Definition DBImpl_destructor_end (st : DBImpl) : DBImpl :=
  st <| fams ::= fun F => drain_flush_queue (length (flush_queue_ F)) F |>
     <| fams ::= fun F => drain_compaction_queue (length (compaction_queue_ F)) F |>.
