(* ===== verification/SchedulerFam.v ===== *)
(** * Reference counts and queues of the column families

    [fam_inv F h] says that the two queues of column families and their flags
    agree, that the reference count of every column family is exactly what the
    queues hold plus what the holders [h] outside of them hold, and that no
    assertion failed.  Each operation of Scheduler.v on column families takes
    the invariant from one holder function to another; a queue hands its
    reference over to whoever pops the entry. *)

From S2P Require Import Prelude ThreadPool Scheduler.
From stdpp Require Import base gmap list.
From Stdlib Require Import ZArith Lia.
#[local] Open Scope Z_scope.

(** ** Holders *)

(** One more, or one less, reference to [id]. *)
Definition add_holder (k : Z) (id : nat) (h : nat -> Z) : nat -> Z :=
  fun i => if decide (i = id) then h i + k else h i.

(** What the memtable list promises: a pending flush has something to flush. *)
Definition view_ok (v : CFView) : Prop := IsFlushPending v = true -> NumNotFlushed v <> 0.

(** What holds of one column family: [in_f] and [in_c] say that it is in the
    flush and in the compaction queue, [n] is the number of holders. *)
Definition cell_inv (o : option ColumnFamilyData) (in_f in_c : Prop) (n : Z) : Prop :=
  match o with
  | None => ~ in_f /\ ~ in_c /\ n = 0
  | Some c =>
      (in_f <-> pending_flush_ c = true) /\ (in_c <-> pending_compaction_ c = true) /\
      refs_ c = n + Z.b2z (pending_flush_ c) + Z.b2z (pending_compaction_ c) /\
      0 < refs_ c /\ 0 <= n /\ view_ok (cf_view c)
  end.

Record fam_inv (F : Families) (h : nat -> Z) : Prop := {
  fi_ok : fam_ok F = true;
  fi_fnodup : NoDup (flush_queue_ F);
  fi_cnodup : NoDup (compaction_queue_ F);
  fi_cell id : cell_inv (cfds F !! id) (id ∈ flush_queue_ F) (id ∈ compaction_queue_ F) (h id)
}.

Lemma fam_inv_ext F h h' : (forall i, h i = h' i) -> fam_inv F h -> fam_inv F h'.
Proof. intros E [Hok Hf Hc H]. split; try done; intros id; rewrite <- E; auto. Qed.

Lemma fam_nonneg F h id : fam_inv F h -> 0 <= h id.
Proof. intros H. pose proof (fi_cell F h H id) as Hc. unfold cell_inv in Hc. destruct (cfds F !! id); lia. Qed.

Lemma fam_held F h id : fam_inv F h -> 0 < h id -> is_Some (cfds F !! id).
Proof.
  intros H Hp. pose proof (fi_cell F h H id) as Hc. unfold cell_inv in Hc.
  destruct (cfds F !! id); [done|]. lia.
Qed.

Lemma fam_assert_true b F : b = true -> fam_assert b F = F.
Proof. intros ->. unfold fam_assert. destruct F; cbn. by rewrite andb_true_r. Qed.

Lemma live_true id F : is_Some (cfds F !! id) -> live id F = F.
Proof. intros Hl. apply fam_assert_true. by apply bool_decide_eq_true. Qed.

Lemma get_cfd_Some F id c : cfds F !! id = Some c -> get_cfd F id = c.
Proof. intros H. unfold get_cfd. by rewrite H. Qed.

Lemma upd_cfd_eq id f F :
  is_Some (cfds F !! id) -> upd_cfd id f F = F <| cfds ::= alter f id |>.
Proof. intros Hl. unfold upd_cfd. by rewrite live_true. Qed.

Lemma upd_cfd_lookup id f F i :
  cfds (upd_cfd id f F) !! i = if decide (i = id) then f <$> cfds F !! i else cfds F !! i.
Proof.
  unfold upd_cfd, live, fam_assert. destruct F; cbn. rewrite lookup_alter.
  repeat case_decide; by subst.
Qed.

(** The fields of the results of the primitive updates. *)
Lemma upd_cfd_fields id f F :
  flush_queue_ (upd_cfd id f F) = flush_queue_ F /\
  compaction_queue_ (upd_cfd id f F) = compaction_queue_ F /\
  default_cf (upd_cfd id f F) = default_cf F.
Proof. by destruct F. Qed.

(** ** Operations that act on one column family

    It is enough to look at that column family. *)
Lemma fam_inv_frame F F' h h' id :
  fam_inv F h -> fam_ok F' = true ->
  NoDup (flush_queue_ F') -> NoDup (compaction_queue_ F') ->
  (forall i, i <> id -> cfds F' !! i = cfds F !! i /\ h' i = h i /\
     (i ∈ flush_queue_ F' <-> i ∈ flush_queue_ F) /\
     (i ∈ compaction_queue_ F' <-> i ∈ compaction_queue_ F)) ->
  cell_inv (cfds F' !! id) (id ∈ flush_queue_ F') (id ∈ compaction_queue_ F') (h' id) ->
  fam_inv F' h'.
Proof.
  intros H Hok Hf Hc Ho Hid. split; try done. intros i.
  destruct (decide (i = id)) as [->|Hne]; [done|]. destruct (Ho i Hne) as (-> & -> & E1 & E2).
  pose proof (fi_cell _ _ H i) as Hi. unfold cell_inv in *. destruct (cfds F !! i); tauto.
Qed.

Lemma fam_inv_upd F h h' id f c :
  fam_inv F h -> cfds F !! id = Some c -> (forall i, i <> id -> h' i = h i) ->
  cell_inv (Some (f c)) (id ∈ flush_queue_ F) (id ∈ compaction_queue_ F) (h' id) ->
  fam_inv (upd_cfd id f F) h'.
Proof.
  intros H Hc Hh Hid. assert (is_Some (cfds F !! id)) as Hl by (by rewrite Hc).
  destruct (upd_cfd_fields id f F) as (Ef & Ec & _).
  eapply (fam_inv_frame F _ h _ id); [done| |..]; rewrite ?Ef, ?Ec.
  - rewrite upd_cfd_eq by done. by destruct F, H.
  - apply H.
  - apply H.
  - intros i Hi. rewrite upd_cfd_lookup, decide_False by done. split_and!; auto.
  - by rewrite upd_cfd_lookup, decide_True, Hc by done.
Qed.

Lemma add_holder_same k id h : add_holder k id h id = h id + k.
Proof. unfold add_holder. by rewrite decide_True. Qed.

Lemma add_holder_other k id h i : i <> id -> add_holder k id h i = h i.
Proof. intros. unfold add_holder. by rewrite decide_False. Qed.

(** The view and the dropped flag are no concern of the invariant. *)
Lemma upd_cfd_inv F h id f :
  fam_inv F h -> is_Some (cfds F !! id) ->
  (forall c, refs_ (f c) = refs_ c /\ pending_flush_ (f c) = pending_flush_ c /\
             pending_compaction_ (f c) = pending_compaction_ c /\
             (view_ok (cf_view c) -> view_ok (cf_view (f c)))) ->
  fam_inv (upd_cfd id f F) h.
Proof.
  intros H [c Hc] Hf. eapply fam_inv_upd; eauto. pose proof (fi_cell _ _ H id) as Hi.
  rewrite Hc in Hi. unfold cell_inv in *. destruct (Hf c) as (-> & -> & -> & Hv).
  intuition auto.
Qed.

Lemma set_view_inv F h id v :
  fam_inv F h -> is_Some (cfds F !! id) -> view_ok v -> fam_inv (set_view id v F) h.
Proof. intros H Hl Hv. by apply upd_cfd_inv. Qed.

Lemma refresh_view_inv F h id v :
  fam_inv F h -> is_Some (cfds F !! id) -> view_ok v -> fam_inv (refresh_view id v F) h.
Proof. intros H Hl Hv. by apply upd_cfd_inv. Qed.

(** A new reference, on a column family the caller knows to be alive. *)
Lemma Ref_inv F h id :
  fam_inv F h -> is_Some (cfds F !! id) -> fam_inv (Ref id F) (add_holder 1 id h).
Proof.
  intros H [c Hc]. eapply fam_inv_upd; eauto using add_holder_other.
  pose proof (fi_cell _ _ H id) as Hi. rewrite Hc in Hi. rewrite add_holder_same.
  unfold cell_inv in *. destruct c; cbn in *. intuition lia.
Qed.

(** A holder gives its reference back; the last one deletes the column family. *)
Lemma Unref_delete_inv F h id :
  fam_inv F h -> 0 < h id -> fam_inv (Unref_delete id F) (add_holder (-1) id h).
Proof.
  intros H Hh. destruct (fam_held _ _ _ H Hh) as [c Hc].
  pose proof (fi_cell _ _ H id) as Hi. rewrite Hc in Hi. cbn in Hi.
  unfold Unref_delete, Unref. rewrite (get_cfd_Some _ _ _ Hc).
  rewrite fam_assert_true by lia. destruct (Z.eqb_spec (refs_ c) 1) as [E|E].
  - assert (pending_flush_ c = false /\ pending_compaction_ c = false) as [Ep Eq]
      by (destruct (pending_flush_ c), (pending_compaction_ c); cbn in *; lia).
    rewrite Ep, Eq in Hi. rewrite upd_cfd_eq by (by rewrite Hc).
    eapply (fam_inv_frame F _ h _ id); [done|by destruct F, H..| |].
    + intros i Hi'. rewrite add_holder_other by done. destruct F; cbn.
      rewrite lookup_delete_ne, lookup_alter_ne by done. done.
    + rewrite add_holder_same. destruct F; cbn in *. rewrite lookup_delete_eq. cbn. intuition lia.
  - eapply fam_inv_upd; eauto using add_holder_other. rewrite add_holder_same.
    unfold cell_inv in *. destruct c; cbn in *. intuition lia.
Qed.

(** Nothing is dead while the invariant holds. *)
Lemma FreeDeadColumnFamilies_id F h : fam_inv F h -> FreeDeadColumnFamilies F = F.
Proof.
  intros H. unfold FreeDeadColumnFamilies. destruct F as [m d fq cq ok]; cbn. f_equal.
  apply map_filter_id. intros i c Hc. pose proof (fi_cell _ _ H i) as Hi. cbn in *.
  rewrite Hc in Hi. cbn in Hi. lia.
Qed.

(** ** The queues *)

Lemma AddToFlushQueue_inv F h id c :
  fam_inv F h -> cfds F !! id = Some c -> pending_flush_ c = false ->
  fam_inv (AddToFlushQueue id F) h.
Proof.
  intros H Hc Hp. pose proof (fi_cell _ _ H id) as Hi. rewrite Hc in Hi. cbn in Hi.
  unfold AddToFlushQueue, Ref. rewrite (get_cfd_Some _ _ _ Hc), Hp, fam_assert_true by done.
  rewrite (upd_cfd_eq id _ F) by (by rewrite Hc).
  rewrite upd_cfd_eq by (destruct F; cbn in *; by rewrite lookup_alter_eq, Hc).
  eapply (fam_inv_frame F _ h _ id); [done|by destruct F, H| |by destruct F, H| |].
  - destruct F, H; cbn in *. apply NoDup_app. split_and!; [done| |apply NoDup_singleton].
    intros i Hin ->%list_elem_of_singleton. naive_solver congruence.
  - intros i Hne. destruct F; cbn. rewrite !lookup_alter_ne by done. set_solver.
  - destruct F; cbn in *. rewrite !lookup_alter_eq, Hc. destruct c; cbn in *. subst. cbn in *.
    set_solver by lia.
Qed.

Lemma AddToCompactionQueue_inv F h id c :
  fam_inv F h -> cfds F !! id = Some c -> pending_compaction_ c = false ->
  fam_inv (AddToCompactionQueue id F) h.
Proof.
  intros H Hc Hp. pose proof (fi_cell _ _ H id) as Hi. rewrite Hc in Hi. cbn in Hi.
  unfold AddToCompactionQueue, Ref. rewrite (get_cfd_Some _ _ _ Hc), Hp, fam_assert_true by done.
  rewrite (upd_cfd_eq id _ F) by (by rewrite Hc).
  rewrite upd_cfd_eq by (destruct F; cbn in *; by rewrite lookup_alter_eq, Hc).
  eapply (fam_inv_frame F _ h _ id); [done|by destruct F, H|by destruct F, H| | |].
  - destruct F, H; cbn in *. apply NoDup_app. split_and!; [done| |apply NoDup_singleton].
    intros i Hin ->%list_elem_of_singleton. naive_solver congruence.
  - intros i Hne. destruct F; cbn. rewrite !lookup_alter_ne by done. set_solver.
  - destruct F; cbn in *. rewrite !lookup_alter_eq, Hc. destruct c; cbn in *. subst. cbn in *.
    set_solver by lia.
Qed.

(** Popping hands the reference of the queue to the caller. *)
Lemma PopFirstFromFlushQueue_inv F h id q :
  fam_inv F h -> flush_queue_ F = id :: q ->
  exists F', PopFirstFromFlushQueue F = (id, F') /\ fam_inv F' (add_holder 1 id h) /\
    flush_queue_ F' = q.
Proof.
  intros H Hq. pose proof (fi_cell _ _ H id) as Hi. unfold PopFirstFromFlushQueue. rewrite Hq in *.
  unfold cell_inv in Hi. destruct (cfds F !! id) as [c|] eqn:Hc; [|set_solver].
  eexists; split; [done|]. assert (pending_flush_ c = true) as Hp by set_solver.
  rewrite Hp in Hi. cbn in Hi.
  rewrite fam_assert_true by (destruct F; cbn in *; unfold get_cfd; cbn; by rewrite Hc).
  destruct (upd_cfd_fields id (fun c => c <| pending_flush_ := false |>)
    (F <| flush_queue_ := q |>)) as (Ef & Ec & _).
  pose proof (fi_fnodup _ _ H) as Hnd. rewrite Hq in Hnd. apply NoDup_cons in Hnd as [Hni Hnd].
  split; [|rewrite Ef; by destruct F].
  rewrite upd_cfd_eq by (destruct F; cbn in *; by rewrite Hc).
  eapply (fam_inv_frame F _ h _ id); [done|by destruct F, H|by destruct F|by destruct F, H| |].
  - intros i Hne. rewrite add_holder_other by done. destruct F; cbn in *. subst.
    rewrite lookup_alter_ne by done. set_solver.
  - rewrite add_holder_same. destruct F; cbn in *. subst. rewrite lookup_alter_eq, Hc.
    destruct c; cbn in *. intuition (try lia; set_solver).
Qed.

Lemma PopFirstFromCompactionQueue_inv F h id q :
  fam_inv F h -> compaction_queue_ F = id :: q ->
  exists F', PopFirstFromCompactionQueue F = (id, F') /\ fam_inv F' (add_holder 1 id h) /\
    compaction_queue_ F' = q /\ pending_compaction_ (get_cfd F' id) = false.
Proof.
  intros H Hq. pose proof (fi_cell _ _ H id) as Hi. unfold PopFirstFromCompactionQueue.
  rewrite Hq in *.
  unfold cell_inv in Hi. destruct (cfds F !! id) as [c|] eqn:Hc; [|set_solver].
  eexists; split; [done|]. assert (pending_compaction_ c = true) as Hp by set_solver.
  rewrite Hp in Hi. cbn in Hi.
  rewrite fam_assert_true by (destruct F; cbn in *; unfold get_cfd; cbn; by rewrite Hc).
  destruct (upd_cfd_fields id (fun c => c <| pending_compaction_ := false |>)
    (F <| compaction_queue_ := q |>)) as (Ef & Ec & _).
  pose proof (fi_cnodup _ _ H) as Hnd. rewrite Hq in Hnd. apply NoDup_cons in Hnd as [Hni Hnd].
  split_and!; [|rewrite Ec; by destruct F|
    unfold get_cfd; rewrite upd_cfd_lookup, decide_True by done; destruct F; cbn in *; by rewrite Hc].
  rewrite upd_cfd_eq by (destruct F; cbn in *; by rewrite Hc).
  eapply (fam_inv_frame F _ h _ id); [done|by destruct F, H|by destruct F, H|by destruct F| |].
  - intros i Hne. rewrite add_holder_other by done. destruct F; cbn in *. subst.
    rewrite lookup_alter_ne by done. set_solver.
  - rewrite add_holder_same. destruct F; cbn in *. subst. rewrite lookup_alter_eq, Hc.
    destruct c; cbn in *. intuition (try lia; set_solver).
Qed.

(** ** What the operations leave alone *)

(** The fields other than the map of column families and the ghost flag. *)
Definition queues (F : Families) : nat * list nat * list nat :=
  (default_cf F, flush_queue_ F, compaction_queue_ F).

Lemma upd_cfd_queues id f F : queues (upd_cfd id f F) = queues F.
Proof. by destruct F. Qed.

Lemma set_view_queues id v F : queues (set_view id v F) = queues F.
Proof. by destruct F. Qed.

Lemma refresh_view_queues id v F : queues (refresh_view id v F) = queues F.
Proof. by destruct F. Qed.

Lemma Ref_queues id F : queues (Ref id F) = queues F.
Proof. by destruct F. Qed.

Lemma Unref_delete_queues id F : queues (Unref_delete id F) = queues F.
Proof. unfold Unref_delete, Unref. destruct (refs_ _ =? 1); by destruct F. Qed.

Lemma release_compaction_queues c F : queues (release_compaction c F) = queues F.
Proof. destruct c; [apply Unref_delete_queues|done]. Qed.

Lemma AddToFlushQueue_queues id F :
  queues (AddToFlushQueue id F) = (default_cf F, flush_queue_ F ++ [id], compaction_queue_ F).
Proof. by destruct F. Qed.

Lemma AddToCompactionQueue_queues id F :
  queues (AddToCompactionQueue id F) = (default_cf F, flush_queue_ F, compaction_queue_ F ++ [id]).
Proof. by destruct F. Qed.

Lemma PopFirstFromFlushQueue_queues F :
  queues (snd (PopFirstFromFlushQueue F)) =
  (default_cf F, tail (flush_queue_ F), compaction_queue_ F).
Proof. unfold PopFirstFromFlushQueue. destruct F as [m d [|i fq] cq ok]; done. Qed.

Lemma PopFirstFromCompactionQueue_queues F :
  queues (snd (PopFirstFromCompactionQueue F)) =
  (default_cf F, flush_queue_ F, tail (compaction_queue_ F)).
Proof. unfold PopFirstFromCompactionQueue. destruct F as [m d fq [|i cq] ok]; done. Qed.

Lemma add_holder_cancel id h i : add_holder (-1) id (add_holder 1 id h) i = h i.
Proof. unfold add_holder. case_decide; lia. Qed.

(** ** The loop of BackgroundFlush

    It consumes the head of a non-empty queue, and whatever it returns it
    holds a reference to. *)
Lemma BackgroundFlush_pick_spec fuel F h :
  fam_inv F h -> (length (flush_queue_ F) <= fuel)%nat ->
  let '(r, F') := BackgroundFlush_pick fuel F in
  (exists k, flush_queue_ F' = drop k (flush_queue_ F) /\
     (flush_queue_ F <> [] -> 0 < k)%nat) /\
  compaction_queue_ F' = compaction_queue_ F /\ default_cf F' = default_cf F /\
  match r with
  | None => fam_inv F' h /\ flush_queue_ F' = []
  | Some id => fam_inv F' (add_holder 1 id h) /\
      dropped_ (get_cfd F' id) = false /\ IsFlushPending (cf_view (get_cfd F' id)) = true
  end.
Proof.
  revert F h; induction fuel as [|fuel IH]; intros F h H Hlen; cbn [BackgroundFlush_pick].
  { destruct (flush_queue_ F); cbn in *; [|lia]. split_and!; try done. by exists O. }
  destruct (flush_queue_ F) as [|id q] eqn:Hq.
  { split_and!; try done. by exists O. }
  destruct (PopFirstFromFlushQueue_inv _ _ _ _ H Hq) as (F1 & E & H1 & Hq1).
  pose proof (PopFirstFromFlushQueue_queues F) as Hqs. rewrite E in *. cbn [snd] in Hqs.
  unfold queues in Hqs. injection Hqs as Ed _ Ec.
  destruct (dropped_ (get_cfd F1 id) || negb (IsFlushPending (cf_view (get_cfd F1 id)))) eqn:Eb.
  - assert (fam_inv (Unref_delete id F1) h) as H2.
    { eapply fam_inv_ext; [apply add_holder_cancel|]. apply Unref_delete_inv; [done|].
      rewrite add_holder_same. pose proof (fam_nonneg _ _ id H). lia. }
    pose proof (Unref_delete_queues id F1) as Hqs2. unfold queues in Hqs2. injection Hqs2 as Ed2 Ef2 Ec2.
    specialize (IH _ _ H2 ltac:(rewrite Ef2, Hq1; cbn in *; lia)).
    destruct (BackgroundFlush_pick fuel (Unref_delete id F1)) as [r F'].
    destruct IH as ((k & Ek & Hk) & Ec' & Ed' & Hr). split_and!.
    + exists (S k). split; [|lia]. by rewrite Ek, Ef2, Hq1.
    + congruence.
    + congruence.
    + done.
  - bprop. split_and!; try done. exists 1%nat. split; [|lia]. by rewrite Hq1.
Qed.

(** Once nothing else holds a column family, draining the queues frees those
    they held. *)
Lemma drain_flush_queue_spec fuel F h :
  fam_inv F h -> (length (flush_queue_ F) <= fuel)%nat ->
  fam_inv (drain_flush_queue fuel F) h /\ flush_queue_ (drain_flush_queue fuel F) = [] /\
  compaction_queue_ (drain_flush_queue fuel F) = compaction_queue_ F.
Proof.
  revert F h; induction fuel as [|fuel IH]; intros F h H Hlen; cbn [drain_flush_queue].
  { destruct (flush_queue_ F) eqn:E; cbn in *; [by split_and!|lia]. }
  destruct (flush_queue_ F) as [|id q] eqn:Hq; [done|].
  destruct (PopFirstFromFlushQueue_inv _ _ _ _ H Hq) as (F1 & E & H1 & Hq1).
  pose proof (PopFirstFromFlushQueue_queues F) as Hqs. rewrite E in *. cbn [snd] in Hqs.
  unfold queues in Hqs. injection Hqs as Ed _ Ec.
  assert (fam_inv (Unref_delete id F1) h) as H2.
  { eapply fam_inv_ext; [apply add_holder_cancel|]. apply Unref_delete_inv; [done|].
    rewrite add_holder_same. pose proof (fam_nonneg _ _ id H). lia. }
  pose proof (Unref_delete_queues id F1) as Hqs2. unfold queues in Hqs2. injection Hqs2 as Ed2 Ef2 Ec2.
  destruct (IH _ _ H2 ltac:(rewrite Ef2, Hq1; cbn in *; lia)) as (? & ? & ?).
  split_and!; [done..|congruence].
Qed.

Lemma drain_compaction_queue_spec fuel F h :
  fam_inv F h -> (length (compaction_queue_ F) <= fuel)%nat ->
  fam_inv (drain_compaction_queue fuel F) h /\
  compaction_queue_ (drain_compaction_queue fuel F) = [] /\
  flush_queue_ (drain_compaction_queue fuel F) = flush_queue_ F.
Proof.
  revert F h; induction fuel as [|fuel IH]; intros F h H Hlen; cbn [drain_compaction_queue].
  { destruct (compaction_queue_ F) eqn:E; cbn in *; [by split_and!|lia]. }
  destruct (compaction_queue_ F) as [|id q] eqn:Hq; [done|].
  destruct (PopFirstFromCompactionQueue_inv _ _ _ _ H Hq) as (F1 & E & H1 & Hq1 & _).
  pose proof (PopFirstFromCompactionQueue_queues F) as Hqs. rewrite E in *. cbn [snd] in Hqs.
  unfold queues in Hqs. injection Hqs as Ed Ec _.
  assert (fam_inv (Unref_delete id F1) h) as H2.
  { eapply fam_inv_ext; [apply add_holder_cancel|]. apply Unref_delete_inv; [done|].
    rewrite add_holder_same. pose proof (fam_nonneg _ _ id H). lia. }
  pose proof (Unref_delete_queues id F1) as Hqs2. unfold queues in Hqs2. injection Hqs2 as Ed2 Ef2 Ec2.
  destruct (IH _ _ H2 ltac:(rewrite Ec2, Hq1; cbn in *; lia)) as (? & ? & ?).
  split_and!; [done..|congruence].
Qed.
