(* ===== verification/SchedulerJobs.v ===== *)
(** * Counting background jobs; MaybeScheduleFlushOrCompaction

    [queued g j] weighs the jobs this database has in the two pools with [g].
    [MaybeScheduleFlushOrCompaction] is a sequence of scheduling steps
    ([sched_step]); what the caller needs of it is [scheduled_from], what the
    whole call achieves is in the theorems at the end. *)

From S2P Require Import Prelude ThreadPool Scheduler SchedulerFam.
From stdpp Require Import base gmap list relations.
From Stdlib Require Import ZArith Lia.
#[local] Open Scope Z_scope.

(** ** Weighted counts of lists *)

Fixpoint total {A} (g : A -> Z) (l : list A) : Z :=
  match l with [] => 0 | x :: l => g x + total g l end.

Section Total.
Context {A : Type}.
Implicit Types (g : A -> Z) (l : list A).

Lemma total_app g l k : total g (l ++ k) = total g l + total g k.
Proof. induction l; cbn; lia. Qed.

Lemma total_middle g l x k : total g (l ++ x :: k) = g x + total g (l ++ k).
Proof. rewrite !total_app. cbn. lia. Qed.

Lemma total_nonneg g l : (forall x, 0 <= g x) -> 0 <= total g l.
Proof. intros H. induction l as [|x l IH]; cbn; [done|]. specialize (H x). lia. Qed.

Lemma total_ext g g' l : (forall x, x ∈ l -> g x = g' x) -> total g l = total g' l.
Proof.
  induction l as [|x l IH]; cbn; intros H; [done|].
  rewrite H, IH; [done| |]; set_solver.
Qed.

Lemma total_pos g l x : (forall y, 0 <= g y) -> x ∈ l -> g x <= total g l.
Proof.
  intros H Hin. apply list_elem_of_split in Hin as (l1 & l2 & ->).
  rewrite total_middle. pose proof (total_nonneg g (l1 ++ l2) H). lia.
Qed.

Lemma total_zero g l : (forall y, 0 <= g y) -> total g l = 0 -> forall x, x ∈ l -> g x = 0.
Proof. intros H E x Hin. pose proof (total_pos g l x H Hin). specialize (H x). lia. Qed.

Lemma total_length l : total (fun _ => 1) l = Z.of_nat (length l).
Proof. induction l; cbn; lia. Qed.

Lemma total_add g g' l : total (fun x => g x + g' x) l = total g l + total g' l.
Proof. induction l; cbn; lia. Qed.
End Total.

(** ** The jobs of this database *)

Definition jobs_of (p : JobPool) : list Job := item_function <$> with_tag this_tag (queue_ p).

(** The jobs of other databases that share the pool. *)
Definition foreign_jobs (p : JobPool) : Z :=
  total (fun it => if decide (this_tag = item_tag it) then 0 else 1) (queue_ p).

Definition queued (g : Job -> Z) (j : Jobs) : Z :=
  total g (jobs_of (pool_high j)) + total g (jobs_of (pool_low j)).

Definition is_flush (f : Job) : Z := match f with BGWorkFlush => 1 | _ => 0 end.
Definition is_compaction (f : Job) : Z := match f with BGWorkCompaction _ => 1 | _ => 0 end.
Definition is_auto (f : Job) : Z := match f with BGWorkCompaction None => 1 | _ => 0 end.
Definition is_manual (m : nat) (f : Job) : Z :=
  match f with BGWorkCompaction (Some m') => if decide (m = m') then 1 else 0 | _ => 0 end.

Lemma is_flush_nonneg f : 0 <= is_flush f.
Proof. by destruct f. Qed.
Lemma is_compaction_nonneg f : 0 <= is_compaction f.
Proof. by destruct f. Qed.
Lemma is_auto_nonneg f : 0 <= is_auto f.
Proof. by destruct f as [|[]]. Qed.
Lemma is_manual_nonneg m f : 0 <= is_manual m f.
Proof. destruct f as [|[]]; cbn; try done. by case_decide. Qed.
#[export] Hint Resolve is_flush_nonneg is_compaction_nonneg is_auto_nonneg is_manual_nonneg : silk.

Lemma pool_length p :
  Z.of_nat (length (queue_ p)) =
  total is_flush (jobs_of p) + total is_compaction (jobs_of p) + foreign_jobs p.
Proof.
  unfold jobs_of, foreign_jobs, with_tag. induction (queue_ p) as [|it q IH]; [done|].
  rewrite filter_cons. cbn [total length]. case_decide; cbn; [|lia].
  destruct (item_function it); cbn in *; lia.
Qed.

(** A pool in use: it is not being joined and its queue length is right. *)
Definition pool_up (p : JobPool) : Prop := exit_all_threads_ p = false /\ pool_ok p.

Lemma Schedule_up f t u p : pool_up p -> pool_up (Schedule f t u p).
Proof. intros [H1 H2]. split; [by rewrite <- H1; apply Submit_exit|by apply Submit_ok]. Qed.

Lemma Schedule_this f u p :
  pool_up p -> jobs_of (Schedule f this_tag u p) = jobs_of p ++ [f] /\
               foreign_jobs (Schedule f this_tag u p) = foreign_jobs p.
Proof.
  intros [H1 _]. unfold jobs_of, foreign_jobs, Schedule. rewrite Submit_queue by done.
  rewrite with_tag_app, fmap_app, total_app. split; [done|].
  cbn [total item_tag]. rewrite decide_True by done. lia.
Qed.

Lemma Schedule_other f t u p :
  pool_up p -> t <> this_tag ->
  jobs_of (Schedule f t u p) = jobs_of p /\
  foreign_jobs (Schedule f t u p) = foreign_jobs p + 1.
Proof.
  intros [H1 _] Ht. unfold jobs_of, foreign_jobs, Schedule. rewrite Submit_queue by done.
  rewrite with_tag_app, fmap_app, total_app. cbn [total]. unfold with_tag.
  rewrite (filter_cons _ _ []). cbn [item_tag].
  rewrite !decide_False by congruence. cbn. by rewrite app_nil_r.
Qed.

(** ** Scheduling steps *)

(** The four places where [MaybeScheduleFlushOrCompaction] schedules. *)
Inductive sched_step (limits : BGJobLimits) (l0 : Z) : Jobs -> Jobs -> Prop :=
| ss_flush_high j :
    0 < unscheduled_flushes_ j -> bg_flush_scheduled_ j < max_flushes limits ->
    sched_step limits l0 j (schedule_flush HIGH j)
| ss_flush_low j :
    0 < unscheduled_flushes_ j ->
    bg_flush_scheduled_ j + bg_compaction_scheduled_ j < max_flushes limits ->
    sched_step limits l0 j (schedule_flush LOW j)
| ss_silk j :
    silk_high_compaction l0 j = true ->
    sched_step limits l0 j (schedule_compaction HIGH j)
| ss_low j :
    bg_compaction_scheduled_ j < max_compactions limits -> 0 < unscheduled_compactions_ j ->
    sched_step limits l0 j (schedule_compaction LOW j).

Lemma while_steps (R : Jobs -> Jobs -> Prop) fuel cond body j :
  (forall j, cond j = true -> R j (body j)) -> rtc R j (while_ fuel cond body j).
Proof.
  intros H. revert j; induction fuel as [|fuel IH]; intros j; cbn [while_]; [done|].
  destruct (cond j) eqn:E; [|done]. eapply rtc_l; eauto.
Qed.

Lemma schedule_flushes_steps limits b l0 j :
  rtc (sched_step limits l0) j (schedule_flushes limits b j).
Proof.
  unfold schedule_flushes. set (j1 := while_ _ _ (schedule_flush HIGH) j).
  assert (rtc (sched_step limits l0) j j1) as H1.
  { apply while_steps. intros j' H; cbn beta in H; bprop; constructor; lia. }
  destruct b; [|done]. etransitivity; [exact H1|].
  apply while_steps. intros j' H; cbn beta in H; bprop; constructor; lia.
Qed.

Lemma MaybeSchedule_steps st :
  rtc (sched_step (bg_job_limits (ctl st)) (default_l0_files (fams st)))
    (jobs st) (jobs (MaybeScheduleFlushOrCompaction st)).
Proof.
  unfold MaybeScheduleFlushOrCompaction.
  destruct (opened_successfully_ (ctl st)); [|done].
  destruct (bg_work_paused_ (ctl st) >? 0); [done|].
  destruct (shutting_down_ (ctl st)); [done|]. cbn.
  set (b := env_GetBackgroundThreads HIGH (jobs st) =? 0).
  set (lim := bg_job_limits (ctl st)). set (l0 := default_l0_files (fams st)).
  set (j1 := schedule_flushes lim b (jobs st)).
  assert (rtc (sched_step lim l0) (jobs st) (schedule_silk l0 j1)) as H.
  { transitivity j1; [apply schedule_flushes_steps|]. unfold schedule_silk.
    destruct (silk_high_compaction l0 j1) eqn:E; [|done]. by apply rtc_once, ss_silk. }
  replace (default_l0_files (live (default_cf (fams st)) (fams st))) with l0
    by (unfold l0; by destruct (fams st)).
  destruct (bg_compaction_paused_ (ctl st) >? 0); [done|].
  destruct (HasExclusiveManualCompaction (ctl st)); [done|].
  etransitivity; [exact H|]. apply while_steps. intros j' H'; cbn beta in H'; bprop; constructor; lia.
Qed.

(** Nothing but the jobs changes (the default column family is alive). *)
Lemma MaybeSchedule_ctl st : ctl (MaybeScheduleFlushOrCompaction st) = ctl st.
Proof. unfold MaybeScheduleFlushOrCompaction. split_ifs; by destruct st. Qed.

Lemma MaybeSchedule_fams st :
  is_Some (cfds (fams st) !! default_cf (fams st)) ->
  fams (MaybeScheduleFlushOrCompaction st) = fams st.
Proof.
  intros H. unfold MaybeScheduleFlushOrCompaction. split_ifs; try done;
    destruct st; cbn in *; by apply live_true.
Qed.

(** ** What scheduling does to the counts *)

Definition pools_up (j : Jobs) : Prop := forall pri, pool_up (get_pool pri j).

(** [j'] is [j] after [nf] flushes and [nc] automatic compactions have been
    taken from the unscheduled ones and put into the pools. *)
Record advanced (j : Jobs) (nf nc : Z) (j' : Jobs) : Prop := {
  ad_nf : 0 <= nf;
  ad_nc : 0 <= nc;
  ad_uf : unscheduled_flushes_ j' = unscheduled_flushes_ j - nf;
  ad_uc : unscheduled_compactions_ j' = unscheduled_compactions_ j - nc;
  ad_bf : bg_flush_scheduled_ j' = bg_flush_scheduled_ j + nf;
  ad_bc : bg_compaction_scheduled_ j' = bg_compaction_scheduled_ j + nc;
  ad_rf : num_running_flushes_ j' = num_running_flushes_ j;
  ad_rc : num_running_compactions_ j' = num_running_compactions_ j;
  ad_ok : jobs_ok j' = jobs_ok j;
  ad_up : pools_up j';
  ad_queued g : queued g j' =
    queued g j + nf * g BGWorkFlush + nc * g (BGWorkCompaction None);
  ad_ufpos : 0 <= unscheduled_flushes_ j -> 0 <= unscheduled_flushes_ j';
  ad_ucpos : 0 <= unscheduled_compactions_ j -> 0 <= unscheduled_compactions_ j'
}.

Lemma env_Schedule_up f pri u j : pools_up j -> pools_up (env_Schedule f pri u j).
Proof.
  intros H pri'. pose proof (H HIGH). pose proof (H LOW).
  destruct pri, pri'; cbn in *; auto using Schedule_up.
Qed.

Lemma env_Schedule_queued f pri u j g :
  pools_up j -> queued g (env_Schedule f pri u j) = queued g j + g f.
Proof.
  intros H. specialize (H pri). unfold queued.
  destruct pri; cbn in *; destruct (Schedule_this f u _ H) as [-> _]; rewrite total_app; cbn; lia.
Qed.

Lemma schedule_flush_advanced pri j :
  pools_up j -> 0 < unscheduled_flushes_ j -> advanced j 1 0 (schedule_flush pri j).
Proof.
  intros H Hu. unfold schedule_flush.
  split; try (destruct pri; cbn; lia); try (by destruct pri).
  - by apply env_Schedule_up.
  - intros g. rewrite env_Schedule_queued by done. cbn [queued]. unfold queued. cbn. lia.
Qed.

Lemma schedule_compaction_advanced pri j :
  pools_up j -> 0 < unscheduled_compactions_ j -> advanced j 0 1 (schedule_compaction pri j).
Proof.
  intros H Hu. unfold schedule_compaction.
  split; try (destruct pri; cbn; lia); try (by destruct pri).
  - by apply env_Schedule_up.
  - intros g. rewrite env_Schedule_queued by done. unfold queued. cbn. lia.
Qed.

Lemma advanced_refl j : pools_up j -> advanced j 0 0 j.
Proof. intros H. split; try lia; done. Qed.

Lemma advanced_trans j1 a b j2 c d j3 :
  advanced j1 a b j2 -> advanced j2 c d j3 -> advanced j1 (a + c) (b + d) j3.
Proof.
  intros [] []. split; try lia; try done; try congruence.
  - intros g. rewrite ad_queued1, ad_queued0. lia.
Qed.

Lemma sched_step_advanced limits l0 j j' :
  sched_step limits l0 j j' -> pools_up j -> exists nf nc, advanced j nf nc j'.
Proof.
  intros [j1 ? ?|j1 ? ?|j1 Hs|j1 ? ?] Hup;
    eauto using schedule_flush_advanced, schedule_compaction_advanced.
  unfold silk_high_compaction in Hs. bprop.
  do 2 eexists. apply schedule_compaction_advanced; [done|lia].
Qed.

Lemma MaybeSchedule_advanced st :
  pools_up (jobs st) ->
  exists nf nc, advanced (jobs st) nf nc (jobs (MaybeScheduleFlushOrCompaction st)).
Proof.
  pose proof (MaybeSchedule_steps st) as H.
  induction H as [j|j1 j2 j3 H1 _ IH]; intros Hup; [eauto using advanced_refl|].
  destruct (sched_step_advanced _ _ _ _ H1 Hup) as (a & b & Hab).
  destruct (IH (ad_up _ _ _ _ Hab)) as (c & d & Hcd). eauto using advanced_trans.
Qed.

(** ** The invariant of the counters

    [fl] flush jobs and [co] compactions have left the pools and are not
    finished; [rf] and [rc] of them have started. *)
Record jobs_inv (j : Jobs) (fl co rf rc : Z) : Prop := {
  ji_ok : jobs_ok j = true;
  ji_up : pools_up j;
  ji_uf : 0 <= unscheduled_flushes_ j;
  ji_uc : 0 <= unscheduled_compactions_ j;
  ji_bf : bg_flush_scheduled_ j = queued is_flush j + fl;
  ji_bc : bg_compaction_scheduled_ j = queued is_compaction j + co;
  ji_rf : num_running_flushes_ j = rf;
  ji_rc : num_running_compactions_ j = rc;
  ji_fl : 0 <= fl;
  ji_co : 0 <= co;
  ji_int : bg_flush_scheduled_ j < 2 ^ 31;
  ji_high : total is_compaction (jobs_of (pool_high j)) <= 2;
  ji_foreign : foreign_jobs (pool_high j) < 2 ^ 30
}.

Lemma queued_nonneg g j : (forall f, 0 <= g f) -> 0 <= queued g j.
Proof.
  intros H. unfold queued. pose proof (total_nonneg g (jobs_of (pool_high j)) H).
  pose proof (total_nonneg g (jobs_of (pool_low j)) H). lia.
Qed.

Lemma foreign_nonneg p : 0 <= foreign_jobs p.
Proof. apply total_nonneg. intros it. by case_decide. Qed.

(** The queue length SILK tests is the number of jobs in the flush pool. *)
Lemma high_queue_len j fl co rf rc :
  jobs_inv j fl co rf rc ->
  GetThreadPoolQueueLen HIGH j = Z.of_nat (length (queue_ (pool_high j))).
Proof.
  intros []. destruct (ji_up0 HIGH) as [_ [Hq _]]. cbn in Hq.
  unfold GetThreadPoolQueueLen, GetQueueLen. cbn. rewrite Hq. apply u32_small.
  unfold is_u32. rewrite pool_length.
  pose proof (total_nonneg is_flush (jobs_of (pool_high j)) is_flush_nonneg).
  pose proof (total_nonneg is_compaction (jobs_of (pool_high j)) is_compaction_nonneg).
  pose proof (total_nonneg is_flush (jobs_of (pool_low j)) is_flush_nonneg).
  pose proof (foreign_nonneg (pool_high j)). unfold queued in *. zlia.
Qed.

Lemma sched_step_inv limits l0 j j' fl co rf rc :
  max_flushes limits < 2 ^ 31 -> sched_step limits l0 j j' ->
  jobs_inv j fl co rf rc -> jobs_inv j' fl co rf rc.
Proof.
  intros Hm Hs Hi. pose proof (high_queue_len _ _ _ _ _ Hi) as Hlen.
  destruct (sched_step_advanced _ _ _ _ Hs (ji_up _ _ _ _ _ Hi)) as (nf & nc & []).
  pose proof (queued_nonneg _ j is_compaction_nonneg) as Hqc.
  destruct Hi. split; auto; rewrite ?ad_queued0; cbn; try lia; try congruence.
  - destruct Hs; cbn in *; lia.
  - destruct Hs as [j' ??|j' ??|j' H|j' ??]; cbn; try done; try specialize (ji_up0 HIGH); cbn in *.
    + destruct (Schedule_this BGWorkFlush None _ ji_up0) as [-> _]. rewrite total_app. cbn. lia.
    + destruct (Schedule_this (BGWorkCompaction None) (Some None) _ ji_up0) as [-> _].
      rewrite total_app. cbn. unfold silk_high_compaction in H. bprop.
      rewrite Hlen, pool_length in H.
      pose proof (total_nonneg is_flush (jobs_of (pool_high j')) is_flush_nonneg).
      pose proof (foreign_nonneg (pool_high j')). lia.
  - destruct Hs as [j' ??|j' ??|j' H|j' ??]; cbn; try done; try specialize (ji_up0 HIGH); cbn in *.
    + by destruct (Schedule_this BGWorkFlush None _ ji_up0) as [_ ->].
    + by destruct (Schedule_this (BGWorkCompaction None) (Some None) _ ji_up0) as [_ ->].
Qed.

Lemma MaybeSchedule_inv st fl co rf rc :
  max_flushes (bg_job_limits (ctl st)) < 2 ^ 31 ->
  jobs_inv (jobs st) fl co rf rc ->
  jobs_inv (jobs (MaybeScheduleFlushOrCompaction st)) fl co rf rc.
Proof.
  intros Hm. pose proof (MaybeSchedule_steps st) as H.
  induction H as [j|j1 j2 j3 H1 _ IH]; intros Hi; [done|]. eauto using sched_step_inv.
Qed.

(** ** What one call of MaybeScheduleFlushOrCompaction achieves *)

(** The fuel of the loops is enough: they stop because their condition fails. *)
Lemma while_exit (mu : Jobs -> Z) cond body fuel j :
  (forall j, cond j = true -> 0 < mu j) ->
  (forall j, cond j = true -> mu (body j) = mu j - 1) ->
  mu j <= Z.of_nat fuel -> cond (while_ fuel cond body j) = false.
Proof.
  intros Hpos Hdec. revert j; induction fuel as [|fuel IH]; intros j Hf; cbn [while_].
  - destruct (cond j) eqn:E; [|done]. specialize (Hpos j E). lia.
  - destruct (cond j) eqn:E; [|done]. apply IH. rewrite Hdec by done. lia.
Qed.

Lemma while_inv (P : Jobs -> Prop) fuel cond body j :
  (forall j, P j -> cond j = true -> P (body j)) -> P j -> P (while_ fuel cond body j).
Proof.
  intros H. revert j; induction fuel as [|fuel IH]; intros j Hj; cbn [while_]; [done|].
  destruct (cond j) eqn:E; auto.
Qed.

Lemma schedule_flushes_exit limits b j :
  let j' := schedule_flushes limits b j in
  unscheduled_flushes_ j' <= 0 \/
  (b = false /\ max_flushes limits <= bg_flush_scheduled_ j') \/
  (b = true /\ max_flushes limits <= bg_flush_scheduled_ j' + bg_compaction_scheduled_ j').
Proof.
  cbn zeta. unfold schedule_flushes. destruct b; cbn [negb andb].
  - set (j1 := while_ _ (fun _ => false) _ j).
    set (cond := fun j => (unscheduled_flushes_ j >? 0) && _).
    set (j2 := while_ _ cond _ j1). assert (cond j2 = false) as H; [|unfold cond in H; bprop; lia].
    apply (while_exit unscheduled_flushes_); [|done|lia].
    intros j' E. unfold cond in E. bprop. lia.
  - set (cond := fun j => (unscheduled_flushes_ j >? 0) && _).
    set (j2 := while_ _ cond _ j). assert (cond j2 = false) as H; [|unfold cond in H; bprop; lia].
    apply (while_exit unscheduled_flushes_); [|done|lia].
    intros j' E. unfold cond in E. bprop. lia.
Qed.

Lemma schedule_low_exit limits j :
  let j' := schedule_low_compactions limits j in
  unscheduled_compactions_ j' <= 0 \/ max_compactions limits <= bg_compaction_scheduled_ j'.
Proof.
  cbn zeta. unfold schedule_low_compactions.
  set (cond := fun j => (bg_compaction_scheduled_ j <? _) && _).
  set (j2 := while_ _ cond _ j). assert (cond j2 = false) as H; [|unfold cond in H; bprop; lia].
  apply (while_exit unscheduled_compactions_); [|done|lia].
  intros j' E. unfold cond in E. bprop. lia.
Qed.

(** The parts of a call, as seen in the fields they touch. *)
Definition is_open (c : Control) : bool :=
  opened_successfully_ c && (bg_work_paused_ c <=? 0) && negb (shutting_down_ c).

Definition after_flushes (st : DBImpl) : Jobs :=
  schedule_flushes (bg_job_limits (ctl st)) (env_GetBackgroundThreads HIGH (jobs st) =? 0) (jobs st).

Definition after_silk (st : DBImpl) : Jobs :=
  schedule_silk (default_l0_files (fams st)) (after_flushes st).

Lemma MaybeSchedule_jobs st :
  jobs (MaybeScheduleFlushOrCompaction st) =
  if is_open (ctl st) then
    if (bg_compaction_paused_ (ctl st) >? 0) || HasExclusiveManualCompaction (ctl st)
    then after_silk st
    else schedule_low_compactions (bg_job_limits (ctl st)) (after_silk st)
  else jobs st.
Proof.
  unfold MaybeScheduleFlushOrCompaction, is_open, after_silk, after_flushes.
  replace (bg_work_paused_ (ctl st) <=? 0) with (negb (bg_work_paused_ (ctl st) >? 0)) by lia.
  destruct (opened_successfully_ (ctl st)), (bg_work_paused_ (ctl st) >? 0),
    (shutting_down_ (ctl st)); cbn; try done.
  replace (default_l0_files (live (default_cf (fams st)) (fams st)))
    with (default_l0_files (fams st)) by (by destruct (fams st)).
  destruct (bg_compaction_paused_ (ctl st) >? 0); [done|].
  by destruct (HasExclusiveManualCompaction (ctl st)).
Qed.

Lemma schedule_low_frame limits j :
  let j' := schedule_low_compactions limits j in
  unscheduled_flushes_ j' = unscheduled_flushes_ j /\
  bg_flush_scheduled_ j' = bg_flush_scheduled_ j /\
  bg_compaction_scheduled_ j <= bg_compaction_scheduled_ j' /\
  bg_compaction_scheduled_ j' <= Z.max (bg_compaction_scheduled_ j) (max_compactions limits).
Proof.
  cbn zeta. unfold schedule_low_compactions.
  apply (while_inv (fun j' => unscheduled_flushes_ j' = unscheduled_flushes_ j /\
    bg_flush_scheduled_ j' = bg_flush_scheduled_ j /\
    bg_compaction_scheduled_ j <= bg_compaction_scheduled_ j' /\
    bg_compaction_scheduled_ j' <= Z.max (bg_compaction_scheduled_ j) (max_compactions limits))).
  - intros j' H E. cbn beta in E. bprop. cbn. lia.
  - lia.
Qed.

Lemma schedule_silk_frame l0 j :
  let j' := schedule_silk l0 j in
  unscheduled_flushes_ j' = unscheduled_flushes_ j /\
  bg_flush_scheduled_ j' = bg_flush_scheduled_ j /\
  bg_compaction_scheduled_ j' =
    bg_compaction_scheduled_ j + Z.b2z (silk_high_compaction l0 j).
Proof.
  cbn zeta. unfold schedule_silk. destruct (silk_high_compaction l0 j); cbn; lia.
Qed.

(** Scheduling flushes moves no compaction and respects the limit. *)
Lemma schedule_flushes_frame limits b j :
  pools_up j -> 0 <= bg_compaction_scheduled_ j ->
  let j' := schedule_flushes limits b j in
  unscheduled_compactions_ j' = unscheduled_compactions_ j /\
  bg_compaction_scheduled_ j' = bg_compaction_scheduled_ j /\
  bg_flush_scheduled_ j' <= Z.max (bg_flush_scheduled_ j) (max_flushes limits) /\
  pools_up j' /\
  (forall pri, total is_compaction (jobs_of (get_pool pri j')) =
               total is_compaction (jobs_of (get_pool pri j))).
Proof.
  intros Hup Hbc. cbn zeta.
  set (P := fun j' => unscheduled_compactions_ j' = unscheduled_compactions_ j /\
    bg_compaction_scheduled_ j' = bg_compaction_scheduled_ j /\
    bg_flush_scheduled_ j' <= Z.max (bg_flush_scheduled_ j) (max_flushes limits) /\
    pools_up j' /\
    (forall pri, total is_compaction (jobs_of (get_pool pri j')) =
                 total is_compaction (jobs_of (get_pool pri j)))).
  assert (forall pri j', P j' -> bg_flush_scheduled_ j' < max_flushes limits ->
    P (schedule_flush pri j')) as Hstep.
  { intros pri j' (H1 & H2 & H3 & H4 & H5) Hlt. unfold P.
    split_and!; try (destruct pri; cbn; lia); [by apply env_Schedule_up|].
    intros pri'. rewrite <- H5. pose proof (H4 HIGH) as Hh. pose proof (H4 LOW) as Hl.
    destruct pri, pri'; cbn in *; try done.
    - destruct (Schedule_this BGWorkFlush None _ Hl) as [-> _]. rewrite total_app. cbn. lia.
    - destruct (Schedule_this BGWorkFlush None _ Hh) as [-> _]. rewrite total_app. cbn. lia. }
  assert (P j) as Hj by (unfold P; split_and!; try lia; done).
  change (P (schedule_flushes limits b j)).
  unfold schedule_flushes. set (j1 := while_ _ _ (schedule_flush HIGH) j).
  assert (P j1) as H1.
  { apply while_inv; [|done]. intros j' HP E. cbn beta in E. bprop. apply Hstep; [done|lia]. }
  destruct b; [|done]. apply while_inv; [|done]. intros j' HP E. cbn beta in E. bprop.
  apply Hstep; [done|]. destruct HP as (_ & ? & _). lia.
Qed.

Lemma schedule_silk_pools l0 j :
  pools_up j ->
  total is_compaction (jobs_of (pool_low (schedule_silk l0 j))) =
    total is_compaction (jobs_of (pool_low j)) /\
  total is_compaction (jobs_of (pool_high (schedule_silk l0 j))) =
    total is_compaction (jobs_of (pool_high j)) + Z.b2z (silk_high_compaction l0 j).
Proof.
  intros Hup. unfold schedule_silk. destruct (silk_high_compaction l0 j); cbn; [|lia].
  split; [done|]. destruct (Schedule_this (BGWorkCompaction None) (Some None) _ (Hup HIGH)) as [E _].
  cbn in E. rewrite E, total_app. cbn. lia.
Qed.

(** ** Properties *)

(** A database with one column family, [l0] files in level 0 and three
    compactions waiting, used by the witnesses. *)
Definition example_pool (threads : Z) : JobPool := mkImpl false threads 0 false false [] 0.

Definition example_db (l0 high_threads : Z) : DBImpl :=
  mkDB
    (mkFamilies {[ 0%nat := mkCFD 2 false false true (mkView false 0 true true l0 false 0) ]}
       0 [] [0%nat] true)
    (mkJobs 2 3 0 0 0 0 (example_pool high_threads) (example_pool 2) true)
    (mkControl true false OK 0 0 0 0 [] ∅ (-1) (-1) 4 true true 0 true).

Lemma example_pools_up l0 t : 0 <= t -> pools_up (jobs (example_db l0 t)).
Proof. intros H []; repeat split; cbn; lia. Qed.



(** C5: while compactions are paused, or an exclusive manual compaction is
    pending, a call schedules no compaction in the compaction pool; it moves
    exactly one to the flush pool if SILK's condition holds (fewer than two jobs
    queued there, fewer than two running or unscheduled flushes, at least four
    files in level 0), and none otherwise.  While the database is not open, all
    work is paused or it is shutting down, nothing is scheduled at all. *)
Theorem maybe_schedule_compactions_paused (st : DBImpl) :
  pools_up (jobs st) -> 0 <= bg_compaction_scheduled_ (jobs st) ->
  bg_compaction_paused_ (ctl st) > 0 \/ HasExclusiveManualCompaction (ctl st) = true \/
    is_open (ctl st) = false ->
  let j := jobs st in
  let j' := jobs (MaybeScheduleFlushOrCompaction st) in
  let silk := is_open (ctl st) &&
    silk_high_compaction (default_l0_files (fams st)) (after_flushes st) in
  total is_compaction (jobs_of (pool_low j')) = total is_compaction (jobs_of (pool_low j)) /\
  total is_compaction (jobs_of (pool_high j')) =
    total is_compaction (jobs_of (pool_high j)) + Z.b2z silk /\
  bg_compaction_scheduled_ j' = bg_compaction_scheduled_ j + Z.b2z silk /\
  (is_open (ctl st) = false -> MaybeScheduleFlushOrCompaction st = st).
Proof.
  intros Hup Hbc Hp. cbn zeta. rewrite MaybeSchedule_jobs.
  destruct (is_open (ctl st)) eqn:Ho; cbn [andb].
  - assert ((bg_compaction_paused_ (ctl st) >? 0) || HasExclusiveManualCompaction (ctl st) = true)
      as -> by (destruct Hp as [?|[->|?]]; lia).
    pose proof (schedule_flushes_frame (bg_job_limits (ctl st))
      (env_GetBackgroundThreads HIGH (jobs st) =? 0) (jobs st) Hup Hbc) as (_ & F2 & _ & F4 & F5).
    fold (after_flushes st) in F2, F4, F5.
    destruct (schedule_silk_pools (default_l0_files (fams st)) _ F4) as [Hl Hh].
    pose proof (schedule_silk_frame (default_l0_files (fams st)) (after_flushes st)) as (_ & _ & S3).
    cbn zeta in *. fold (after_silk st) in Hl, Hh, S3.
    rewrite Hl, Hh, S3, F2. pose proof (F5 LOW) as El. pose proof (F5 HIGH) as Eh.
    cbn [get_pool] in El, Eh. rewrite El, Eh. done.
  - cbn. split_and!; try lia. intros _. unfold MaybeScheduleFlushOrCompaction.
    unfold is_open in Ho. replace (bg_work_paused_ (ctl st) <=? 0)
      with (negb (bg_work_paused_ (ctl st) >? 0)) in Ho by lia.
    by destruct (opened_successfully_ (ctl st)), (bg_work_paused_ (ctl st) >? 0),
      (shutting_down_ (ctl st)).
Qed.

Lemma maybe_schedule_compactions_paused_witness :
  let st := (example_db 4 1) <| ctl ::= fun c => c <| bg_compaction_paused_ := 1 |> |> in
  let j' := jobs (MaybeScheduleFlushOrCompaction st) in
  bg_compaction_scheduled_ j' = 1 /\
  total is_compaction (jobs_of (pool_low j')) = total is_compaction (jobs_of (pool_low (jobs st))).
Proof.
  split; [reflexivity|].
  refine (proj1 (maybe_schedule_compactions_paused
    ((example_db 4 1) <| ctl ::= fun c => c <| bg_compaction_paused_ := 1 |> |>) _ _ _)).
  - by apply (example_pools_up 4 1).
  - done.
  - by left.
Defined.

(** C23: SILK does not test that the flush pool has threads (flushes are
    diverted to the compaction pool when it has none): the compaction it takes
    from the waiting ones goes to the queue of a pool in which no thread ever
    runs a job as long as its limit is zero. *)
Theorem silk_schedules_into_empty_pool (st : DBImpl) :
  pools_up (jobs st) -> 0 <= bg_compaction_scheduled_ (jobs st) ->
  bg_compaction_paused_ (ctl st) > 0 -> is_open (ctl st) = true ->
  env_GetBackgroundThreads HIGH (jobs st) = 0 ->
  silk_high_compaction (default_l0_files (fams st)) (after_flushes st) = true ->
  let j' := jobs (MaybeScheduleFlushOrCompaction st) in
  BGWorkCompaction None ∈ jobs_of (pool_high j') /\
  unscheduled_compactions_ j' = unscheduled_compactions_ (jobs st) - 1 /\
  forall i f p, total_threads_limit_ p = 0 -> exit_all_threads_ p = false ->
    forall p' : JobPool, BGThread_iter i p <> ThreadRun f p'.
Proof.
  intros Hup Hbc Hp Ho Ht Hs. cbn zeta. rewrite MaybeSchedule_jobs, Ho.
  assert ((bg_compaction_paused_ (ctl st) >? 0) = true) as -> by lia. cbn [orb].
  pose proof (schedule_flushes_frame (bg_job_limits (ctl st))
    (env_GetBackgroundThreads HIGH (jobs st) =? 0) (jobs st) Hup Hbc) as (F1 & _ & _ & F4 & _).
  fold (after_flushes st) in F1, F4. unfold after_silk, schedule_silk. rewrite Hs. split_and!.
  - cbn. destruct (Schedule_this (BGWorkCompaction None) (Some None) _ (F4 HIGH)) as [E _].
    cbn in E. rewrite E. set_solver.
  - cbn. rewrite F1. lia.
  - intros i f p Hz Hx p'. unfold BGThread_iter, IsExcessiveThread. rewrite Hx, Hz.
    assert ((Z.of_nat i >=? 0) = true) as -> by (apply Z.geb_le; lia). rewrite orb_true_r. cbn [negb andb].
    by destruct (IsLastExcessiveThread p i).
Qed.

Lemma silk_schedules_into_empty_pool_witness :
  let st := (example_db 4 0) <| ctl ::= fun c => c <| bg_compaction_paused_ := 1 |> |> in
  BGWorkCompaction None ∈ jobs_of (pool_high (jobs (MaybeScheduleFlushOrCompaction st))).
Proof.
  refine (proj1 (silk_schedules_into_empty_pool
    ((example_db 4 0) <| ctl ::= fun c => c <| bg_compaction_paused_ := 1 |> |>) _ _ _ _ _ _)).
  - by apply (example_pools_up 4 0).
  - done.
  - done.
  - done.
  - done.
  - vm_compute. done.
Defined.
