(* ===== verification/SchedulerDb.v ===== *)
(** * The handlers of background work preserve the state invariant

    [db_inv] joins the invariants of the column families and of the job
    counters.  A handler that installs versions, schedules or releases work is
    [quiet]: it changes neither the manual compactions nor the flags, and it
    keeps the balance between the queues and the jobs that serve them. *)

From S2P Require Import Prelude ThreadPool Scheduler SchedulerFam SchedulerJobs.
From stdpp Require Import base gmap list relations.
From Stdlib Require Import ZArith Lia.
#[local] Open Scope Z_scope.

(** ** Invariant and effects *)

Definition is_int (z : Z) : Prop := - 2 ^ 31 <= z < 2 ^ 31.

Definition limits_ok (c : Control) : Prop :=
  is_int (max_background_flushes c) /\ is_int (max_background_compactions c) /\
  is_int (max_background_jobs c).

Record db_inv (st : DBImpl) (h : nat -> Z) (fl co rf rc : Z) : Prop := {
  di_fams : fam_inv (fams st) h;
  di_jobs : jobs_inv (jobs st) fl co rf rc;
  di_default : 0 < h (default_cf (fams st));
  di_limits : limits_ok (ctl st)
}.

(** The part of the control state that only a few handlers change. *)
Definition ctl_core (c : Control) :=
  (opened_successfully_ c, shutting_down_ c, bg_work_paused_ c, bg_compaction_paused_ c,
   num_running_ingest_file_ c, manual_compaction_dequeue_ c, manuals c,
   (max_background_flushes c, max_background_compactions c, max_background_jobs c), ctl_ok c).

(** How many entries of the compaction queue are not yet scheduled or queued in
    a pool, and how many flushes are scheduled or queued beyond the entries of
    the flush queue. *)
Definition cov_c (st : DBImpl) : Z :=
  Z.of_nat (length (compaction_queue_ (fams st))) -
  unscheduled_compactions_ (jobs st) - queued is_auto (jobs st).

Definition cov_f (st : DBImpl) : Z :=
  unscheduled_flushes_ (jobs st) + queued is_flush (jobs st) -
  Z.of_nat (length (flush_queue_ (fams st))).

(** Weights that see neither flushes nor automatic compactions. *)
Definition manual_weight (g : Job -> Z) : Prop :=
  g BGWorkFlush = 0 /\ g (BGWorkCompaction None) = 0.

Record quiet (st st' : DBImpl) : Prop := {
  q_ctl : ctl_core (ctl st') = ctl_core (ctl st);
  q_err : ok (bg_error_ (ctl st')) = true -> ok (bg_error_ (ctl st)) = true;
  q_default : default_cf (fams st') = default_cf (fams st);
  q_covc : cov_c st' = cov_c st;
  q_covf : cov_f st' = cov_f st;
  q_queued g : manual_weight g -> queued g (jobs st') = queued g (jobs st);
  q_paused : 0 < bg_work_paused_ (ctl st) ->
    bg_flush_scheduled_ (jobs st') = bg_flush_scheduled_ (jobs st)
}.

#[global] Instance quiet_preorder : PreOrder quiet.
Proof.
  split.
  - intros st. by split.
  - intros s1 s2 s3 [] []. split; try congruence; try tauto.
    + intros g Hg. rewrite q_queued1, q_queued0; done.
    + intros Hp. rewrite q_paused1, q_paused0; try done.
      by injection q_ctl0 as ? ? -> ?.
Qed.

Lemma ctl_core_limits c c' : ctl_core c' = ctl_core c -> limits_ok c -> limits_ok c'.
Proof. unfold ctl_core, limits_ok. intros E. by injection E as _ _ _ _ _ _ _ -> -> -> _. Qed.

Lemma max_flushes_int c : limits_ok c -> max_flushes (bg_job_limits c) < 2 ^ 31.
Proof.
  unfold limits_ok, is_int, bg_job_limits, GetBGJobLimits. intros (H1 & H2 & H3).
  split_ifs; cbn [max_flushes]; zlia.
Qed.

(** A handler keeps the invariant, with the holders [h'], and is quiet. *)
Definition keeps (st : DBImpl) (h' : nat -> Z) (fl co rf rc : Z) (st' : DBImpl) : Prop :=
  db_inv st' h' fl co rf rc /\ quiet st st'.

Section Handlers.
Context (st : DBImpl) (h : nat -> Z) (fl co rf rc : Z).
Hypothesis (I : db_inv st h fl co rf rc).

Lemma default_live : is_Some (cfds (fams st) !! default_cf (fams st)).
Proof. eapply fam_held; apply I. Qed.

Lemma keeps_refl : keeps st h fl co rf rc st.
Proof. by split. Qed.

Lemma MaybeSchedule_keeps : keeps st h fl co rf rc (MaybeScheduleFlushOrCompaction st).
Proof.
  pose proof (MaybeSchedule_fams st default_live) as Ef. pose proof (MaybeSchedule_ctl st) as Ec.
  destruct (MaybeSchedule_advanced st (ji_up _ _ _ _ _ (di_jobs _ _ _ _ _ _ I)))
    as (nf & nc & A). destruct I as [If Ij Id Il]. split.
  - split; rewrite ?Ef, ?Ec; try done. apply MaybeSchedule_inv; [by apply max_flushes_int|done].
  - split; rewrite ?Ef, ?Ec; try done; unfold cov_c, cov_f; rewrite ?Ef.
    + rewrite (ad_uc _ _ _ _ A), (ad_queued _ _ _ _ A). cbn. lia.
    + rewrite (ad_uf _ _ _ _ A), (ad_queued _ _ _ _ A). cbn. lia.
    + intros g [H1 H2]. rewrite (ad_queued _ _ _ _ A), H1, H2. lia.
    + intros Hp. rewrite MaybeSchedule_jobs. unfold is_open.
      assert ((bg_work_paused_ (ctl st) <=? 0) = false) as -> by lia. by rewrite andb_false_r.
Qed.

(** Changes of the column families that leave the queues alone. *)
Lemma fams_keeps F h' :
  queues F = queues (fams st) -> fam_inv F h' -> 0 < h' (default_cf (fams st)) ->
  keeps st h' fl co rf rc (st <| fams := F |>).
Proof.
  unfold queues. intros E HF Hd. injection E as Ed Ef Ec. destruct I as [If Ij Id Il].
  destruct st as [F0 J0 C0]; cbn in *. split.
  - split; cbn; try done. by rewrite Ed.
  - split; cbn; try done; unfold cov_c, cov_f; cbn; by rewrite ?Ef, ?Ec.
Qed.

Lemma set_view_keeps id v :
  is_Some (cfds (fams st) !! id) -> view_ok v ->
  keeps st h fl co rf rc (st <| fams ::= set_view id v |>).
Proof.
  intros Hl Hv. apply (fams_keeps (set_view id v (fams st))); try apply I.
  - apply set_view_queues.
  - by apply set_view_inv; [apply I|..].
Qed.

Lemma refresh_view_keeps id v :
  is_Some (cfds (fams st) !! id) -> view_ok v ->
  keeps st h fl co rf rc (st <| fams ::= refresh_view id v |>).
Proof.
  intros Hl Hv. apply (fams_keeps (refresh_view id v (fams st))); try apply I.
  - apply refresh_view_queues.
  - by apply refresh_view_inv; [apply I|..].
Qed.

Lemma Ref_keeps id :
  is_Some (cfds (fams st) !! id) ->
  keeps st (add_holder 1 id h) fl co rf rc (st <| fams ::= Ref id |>).
Proof.
  intros Hl. apply (fams_keeps (Ref id (fams st))).
  - apply Ref_queues.
  - apply Ref_inv; [apply I|done].
  - pose proof (di_default _ _ _ _ _ _ I). unfold add_holder. case_decide; lia.
Qed.

Lemma Unref_delete_keeps id :
  0 < h id -> (id = default_cf (fams st) -> 1 < h id) ->
  keeps st (add_holder (-1) id h) fl co rf rc (st <| fams ::= Unref_delete id |>).
Proof.
  intros Hh Hd. apply (fams_keeps (Unref_delete id (fams st))).
  - apply Unref_delete_queues.
  - apply Unref_delete_inv; [apply I|done].
  - pose proof (di_default _ _ _ _ _ _ I). unfold add_holder. case_decide as E; [|done].
    subst. specialize (Hd eq_refl). lia.
Qed.

(** Changes of the control state outside its core. *)
Lemma ctl_keeps c :
  ctl_core c = ctl_core (ctl st) ->
  (ok (bg_error_ c) = true -> ok (bg_error_ (ctl st)) = true) ->
  keeps st h fl co rf rc (st <| ctl := c |>).
Proof.
  intros Hc He. destruct I as [If Ij Id Il]. destruct st as [F0 J0 C0]; cbn in *. split.
  - split; cbn; try done. by eapply ctl_core_limits.
  - by split.
Qed.

Lemma SignalAll_keeps : keeps st h fl co rf rc (SignalAll st).
Proof. apply (ctl_keeps (ctl st) <| bg_cv_signals ::= S |>); by destruct (ctl st). Qed.

Lemma signal_error_keeps s : keeps st h fl co rf rc (signal_error s st).
Proof. unfold signal_error. destruct (_ && _); [apply SignalAll_keeps|apply keeps_refl]. Qed.

Lemma set_bg_error_keeps e : keeps st h fl co rf rc (set_bg_error e st).
Proof.
  unfold set_bg_error. destruct (ok e) eqn:E; [apply keeps_refl|].
  apply (ctl_keeps (ctl st) <| bg_error_ := e |>); destruct (ctl st); cbn; [done|congruence].
Qed.

Lemma compaction_error_keeps s e : keeps st h fl co rf rc (compaction_error s e st).
Proof. unfold compaction_error. split_ifs; auto using keeps_refl, set_bg_error_keeps. Qed.

End Handlers.

Lemma keeps_trans st h1 h2 fl co rf rc st1 st2 :
  keeps st h1 fl co rf rc st1 -> keeps st1 h2 fl co rf rc st2 -> keeps st h2 fl co rf rc st2.
Proof. intros [_ Q1] [I2 Q2]. split; [done|]. by etransitivity. Qed.

Lemma held st h fl co rf rc id :
  db_inv st h fl co rf rc -> 0 < h id -> is_Some (cfds (fams st) !! id).
Proof. intros I. eapply fam_held. apply I. Qed.

(** ** Composed handlers *)

(** Adding to a queue together with its counter. *)
Lemma add_flush_keeps st h fl co rf rc id c :
  db_inv st h fl co rf rc -> cfds (fams st) !! id = Some c -> pending_flush_ c = false ->
  keeps st h fl co rf rc
    (st <| fams ::= AddToFlushQueue id |>
        <| jobs ::= fun j => j <| unscheduled_flushes_ ::= Z.succ |> |>).
Proof.
  intros [If Ij Id Il] Hc Hp.
  assert (default_cf (AddToFlushQueue id (fams st)) = default_cf (fams st)) as Ed by done.
  assert (flush_queue_ (AddToFlushQueue id (fams st)) = flush_queue_ (fams st) ++ [id]) as Ef by done.
  assert (compaction_queue_ (AddToFlushQueue id (fams st)) = compaction_queue_ (fams st)) as Ec by done.
  pose proof (AddToFlushQueue_inv _ _ _ _ If Hc Hp) as HF.
  cbn [set fams jobs ctl]. set (F' := AddToFlushQueue id (fams st)) in *. clearbody F'. split.
  - split; cbn; try done; [|by rewrite Ed]. destruct Ij; split; cbn; try done; lia.
  - split; cbn [fams jobs ctl]; try done; unfold cov_c, cov_f; cbn [fams jobs].
    + by rewrite Ec.
    + rewrite Ef, length_app. cbn. unfold queued. cbn. lia.
Qed.

Lemma add_compaction_keeps st h fl co rf rc id c :
  db_inv st h fl co rf rc -> cfds (fams st) !! id = Some c -> pending_compaction_ c = false ->
  keeps st h fl co rf rc
    (st <| fams ::= AddToCompactionQueue id |>
        <| jobs ::= fun j => j <| unscheduled_compactions_ ::= Z.succ |> |>).
Proof.
  intros [If Ij Id Il] Hc Hp.
  assert (default_cf (AddToCompactionQueue id (fams st)) = default_cf (fams st)) as Ed by done.
  assert (flush_queue_ (AddToCompactionQueue id (fams st)) = flush_queue_ (fams st)) as Ef by done.
  assert (compaction_queue_ (AddToCompactionQueue id (fams st)) = compaction_queue_ (fams st) ++ [id]) as Ec by done.
  pose proof (AddToCompactionQueue_inv _ _ _ _ If Hc Hp) as HF.
  cbn [set fams jobs ctl]. set (F' := AddToCompactionQueue id (fams st)) in *. clearbody F'. split.
  - split; cbn; try done; [|by rewrite Ed]. destruct Ij; split; cbn; try done; lia.
  - split; cbn [fams jobs ctl]; try done; unfold cov_c, cov_f; cbn [fams jobs].
    + rewrite Ec, length_app. cbn. unfold queued. cbn. lia.
    + by rewrite Ef.
Qed.

Lemma live_id st id : is_Some (cfds (fams st) !! id) -> st <| fams ::= live id |> = st.
Proof. intros Hl. destruct st; cbn in *. by rewrite live_true. Qed.

Lemma SchedulePendingFlush_keeps st h fl co rf rc id :
  db_inv st h fl co rf rc -> 0 < h id -> keeps st h fl co rf rc (SchedulePendingFlush id st).
Proof.
  intros I Hh. destruct (held _ _ _ _ _ _ _ I Hh) as [c Hc].
  unfold SchedulePendingFlush. rewrite live_id by (by rewrite Hc).
  rewrite (get_cfd_Some _ _ _ Hc). destruct (negb (pending_flush_ c) && _) eqn:E.
  - bprop. by eapply add_flush_keeps.
  - by apply keeps_refl.
Qed.

Lemma SchedulePendingCompaction_keeps st h fl co rf rc id :
  db_inv st h fl co rf rc -> 0 < h id -> keeps st h fl co rf rc (SchedulePendingCompaction id st).
Proof.
  intros I Hh. destruct (held _ _ _ _ _ _ _ I Hh) as [c Hc].
  unfold SchedulePendingCompaction. rewrite live_id by (by rewrite Hc).
  rewrite (get_cfd_Some _ _ _ Hc). destruct (negb (pending_compaction_ c) && _) eqn:E.
  - bprop. by eapply add_compaction_keeps.
  - by apply keeps_refl.
Qed.

(** One link of a chain of handlers: the rest starts from the invariant it
    leaves. *)
Tactic Notation "keeps_by" constr(K) "as" ident(I') :=
  let K' := fresh in
  pose proof K as K'; eapply keeps_trans; [exact K'|]; destruct K' as [I' _].

Lemma InstallSuperVersion_keeps st h fl co rf rc id v :
  db_inv st h fl co rf rc -> 0 < h id -> view_ok v ->
  keeps st h fl co rf rc (InstallSuperVersionAndScheduleWork id v st).
Proof.
  intros I Hh Hv. unfold InstallSuperVersionAndScheduleWork.
  keeps_by (set_view_keeps _ _ _ _ _ _ I id v (held _ _ _ _ _ _ _ I Hh) Hv) as I1.
  keeps_by (SchedulePendingFlush_keeps _ _ _ _ _ _ id I1 Hh) as I2.
  keeps_by (SchedulePendingCompaction_keeps _ _ _ _ _ _ id I2 Hh) as I3.
  keeps_by (MaybeSchedule_keeps _ _ _ _ _ _ I3) as I4.
  set (s4 := MaybeScheduleFlushOrCompaction _) in *. clearbody s4.
  set (old := memtable_memory (cf_view _)).
  apply (ctl_keeps s4 h fl co rf rc I4
    ((ctl s4) <| max_total_in_memory_state_ ::= fun t => u64 (t - old + memtable_memory v) |>));
    by destruct (ctl s4).
Qed.

Lemma FlushMemTable_schedule_keeps st h fl co rf rc id v :
  db_inv st h fl co rf rc -> 0 < h id -> view_ok v ->
  keeps st h fl co rf rc (FlushMemTable_schedule id v st).
Proof.
  intros I Hh Hv. unfold FlushMemTable_schedule.
  keeps_by (refresh_view_keeps _ _ _ _ _ _ I id v (held _ _ _ _ _ _ _ I Hh) Hv) as I1.
  keeps_by (SchedulePendingFlush_keeps _ _ _ _ _ _ id I1 Hh) as I2.
  by apply MaybeSchedule_keeps.
Qed.

Lemma FlushMemTableToOutputFile_end_keeps st h fl co rf rc id se s v err sp :
  db_inv st h fl co rf rc -> 0 < h id -> view_ok v ->
  keeps st h fl co rf rc (FlushMemTableToOutputFile_end id se s v err sp st).
Proof.
  intros I Hh Hv. unfold FlushMemTableToOutputFile_end.
  assert (keeps st h fl co rf rc (match se with Some e => set_bg_error e st | None => st end)) as K1
    by (destruct se; [by apply set_bg_error_keeps|by apply keeps_refl]).
  eapply keeps_trans; [exact K1|]. destruct K1 as [I1 _].
  set (s1 := match se with Some e => _ | None => _ end) in *.
  assert (keeps s1 h fl co rf rc (if ok s then InstallSuperVersionAndScheduleWork id v s1
    else s1 <| fams ::= refresh_view id v |>)) as K2
    by (destruct (ok s); [by apply InstallSuperVersion_keeps|
          eapply refresh_view_keeps; eauto using held]).
  eapply keeps_trans; [exact K2|]. destruct K2 as [I2 _].
  set (s2 := if ok s then _ else _) in *.
  assert (keeps s2 h fl co rf rc (if negb (ok s) && negb (IsShutdownInProgress s) &&
    paranoid_checks (ctl s2) && ok (bg_error_ (ctl s2)) then set_bg_error err s2 else s2)) as K3
    by (destruct (_ && _ && _ && _); [by apply set_bg_error_keeps|by apply keeps_refl]).
  eapply keeps_trans; [exact K3|]. destruct K3 as [I3 _].
  set (s3 := if _ && _ && _ && _ then _ else _) in *.
  destruct (ok s), sp as [e|]; try (by apply keeps_refl).
  destruct (ok (bg_error_ (ctl s3))); [by apply set_bg_error_keeps|by apply keeps_refl].
Qed.

Lemma BackgroundFlush_end_keeps st h fl co rf rc id se s v err sp :
  db_inv st h fl co rf rc -> 0 < h id -> (id = default_cf (fams st) -> 1 < h id) ->
  view_ok v -> keeps st (add_holder (-1) id h) fl co rf rc (snd (BackgroundFlush_end id se s v err sp st)).
Proof.
  intros I Hh Hd Hv. unfold BackgroundFlush_end. cbn [snd].
  destruct (FlushMemTableToOutputFile_end_keeps _ _ _ _ _ _ id se s v err sp I Hh Hv) as [I1 Q1].
  eapply keeps_trans; [by split|]. set (s1 := FlushMemTableToOutputFile_end _ _ _ _ _ _ _) in *.
  assert (keeps s1 (add_holder (-1) id h) fl co rf rc (s1 <| fams ::= Unref_delete id |>)) as [I2 Q2].
  { apply Unref_delete_keeps; try done. by rewrite (q_default _ _ Q1). }
  eapply keeps_trans; [by split|]. by apply signal_error_keeps.
Qed.

Lemma BackgroundCompaction_body_keeps st h fl co rf rc b c s v :
  db_inv st h fl co rf rc ->
  0 < h (c_cfd c) -> (c_cfd c = default_cf (fams st) -> 1 < h (c_cfd c)) -> view_ok v ->
  keeps st (add_holder (-1) (c_cfd c) h) fl co rf rc
    (BackgroundCompaction_body b (Some c) s v st).
Proof.
  intros I Hh Hd Hv. unfold BackgroundCompaction_body.
  set (s1 := match run_kind b (c_kind c) with FullCompaction => _ | _ => _ end).
  assert (keeps st h fl co rf rc s1) as [I1 Q1].
  { unfold s1. destruct (run_kind _ _); try (by apply InstallSuperVersion_keeps).
    destruct (ok s); [by apply InstallSuperVersion_keeps|by apply keeps_refl]. }
  eapply keeps_trans; [by split|]. apply Unref_delete_keeps; try done.
  by rewrite (q_default _ _ Q1).
Qed.

(** ** Handlers that consume an entry of a queue *)

(** What remains of [quiet] when the balance of the queues changes. *)
Record mild (st st' : DBImpl) : Prop := {
  mi_ctl : ctl_core (ctl st') = ctl_core (ctl st);
  mi_err : ok (bg_error_ (ctl st')) = true -> ok (bg_error_ (ctl st)) = true;
  mi_default : default_cf (fams st') = default_cf (fams st);
  mi_queued g : manual_weight g -> queued g (jobs st') = queued g (jobs st);
  mi_paused : 0 < bg_work_paused_ (ctl st) ->
    bg_flush_scheduled_ (jobs st') = bg_flush_scheduled_ (jobs st)
}.

Lemma quiet_mild st st' : quiet st st' -> mild st st'.
Proof. intros []. by split. Qed.

#[global] Instance mild_preorder : PreOrder mild.
Proof.
  split.
  - intros st. by split.
  - intros s1 s2 s3 [] []. split; try congruence; try tauto.
    + intros g Hg. rewrite mi_queued1, mi_queued0; done.
    + intros Hp. rewrite mi_paused1, mi_paused0; try done.
      by injection mi_ctl0 as ? ? -> ?.
Qed.

(** Starting and finishing a job moves it between the counters. *)
Lemma start_flush_inv st h fl co rf rc :
  db_inv st h fl co rf rc -> 0 < fl ->
  db_inv (st <| jobs ::= fun j => (jobs_assert (negb (bg_flush_scheduled_ j =? 0)) j)
                <| num_running_flushes_ ::= Z.succ |> |>) h fl co (rf + 1) rc.
Proof.
  intros [If Ij Id Il] Hfl. split; try done. cbn.
  pose proof (queued_nonneg is_flush (jobs st) is_flush_nonneg).
  pose proof (ji_ok _ _ _ _ _ Ij) as Hok.
  destruct Ij; split; cbn; try done; try lia. rewrite Hok. cbn. lia.
Qed.

Lemma start_compaction_inv st h fl co rf rc :
  db_inv st h fl co rf rc -> 0 < co ->
  db_inv (st <| jobs ::= fun j => (jobs_assert (negb (bg_compaction_scheduled_ j =? 0)) j)
                <| num_running_compactions_ ::= Z.succ |> |>) h fl co rf (rc + 1).
Proof.
  intros [If Ij Id Il] Hco. split; try done. cbn.
  pose proof (queued_nonneg is_compaction (jobs st) is_compaction_nonneg).
  pose proof (ji_ok _ _ _ _ _ Ij) as Hok.
  destruct Ij; split; cbn; try done; try lia. rewrite Hok. cbn. lia.
Qed.

(** The holders after a flush has begun: a running flush keeps the reference
    of the queue. *)
Definition flush_holders (r : RunningFlush) (h : nat -> Z) : nat -> Z :=
  match r with FlushRunning id => add_holder 1 id h | FlushReturned _ => h end.

Lemma BackgroundFlush_begin_spec st h fl co rf rc v r st' :
  db_inv st h fl co rf rc -> view_ok v -> BackgroundFlush_begin v st = (r, st') ->
  db_inv st' (flush_holders r h) fl co rf rc /\ mild st st' /\
  ctl st' = ctl st /\ cov_c st' = cov_c st /\
  (ok (bg_status (ctl st)) = true -> cov_f st + 1 <= cov_f st' \/ 0 <= cov_f st').
Proof.
  intros I Hv E. unfold BackgroundFlush_begin in E.
  destruct (ok (bg_status (ctl st))) eqn:Es; cbn [negb] in E.
  2: { injection E as <- <-. split_and!; done. }
  pose proof (BackgroundFlush_pick_spec _ _ _ (di_fams _ _ _ _ _ _ I) (le_n _)) as P.
  destruct (BackgroundFlush_pick _ _) as [o F'].
  destruct P as ((k & Ek & Hk) & Ec & Ed & Hr).
  assert (exists F2, r = match o with Some id => FlushRunning id | None => FlushReturned (bg_status (ctl st)) end
    /\ st' = mkDB F2 (jobs st) (ctl st) /\ fam_inv F2 (flush_holders r h) /\ queues F2 = queues F')
    as (F2 & Er & -> & HF2 & Eq).
  { destruct o as [id|]; injection E as <- <-; [|by exists F'; destruct Hr].
    destruct Hr as (HF & _ & Hp).
    assert (is_Some (cfds F' !! id)) as [c Hc].
    { eapply fam_held; [done|]. rewrite add_holder_same.
      pose proof (fam_nonneg _ _ id (di_fams _ _ _ _ _ _ I)). lia. }
    pose proof (fi_cell _ _ HF id) as Hi. rewrite Hc in Hi. cbn in Hi.
    rewrite (get_cfd_Some _ _ _ Hc) in *.
    rewrite (fam_assert_true (negb _)) by (apply negb_true_iff, Z.eqb_neq, Hi, Hp).
    rewrite (get_cfd_Some _ _ _ Hc), fam_assert_true by done.
    eexists. split_and!; [done|by destruct st| |apply refresh_view_queues].
    by apply refresh_view_inv. }
  unfold queues in Eq. injection Eq as Ed2 Ef2 Ec2. destruct I as [If Ij Id Il]. split_and!.
  - split; try done. cbn. rewrite Ed2, Ed.
    unfold flush_holders. destruct r; [unfold add_holder; case_decide; lia|done].
  - split; try done. cbn. congruence.
  - done.
  - unfold cov_c. cbn. congruence.
  - intros _. unfold cov_f. cbn. rewrite Ef2, Ek, length_drop.
    pose proof (queued_nonneg is_flush (jobs st) is_flush_nonneg).
    pose proof (ji_uf _ _ _ _ _ Ij).
    destruct (flush_queue_ (fams st)) as [|x q]; cbn [length]; [right; lia|].
    assert (0 < k)%nat by (by apply Hk). lia.
Qed.

(** The holders after a compaction has begun. *)
Definition compaction_holders (r : RunningCompaction) (h : nat -> Z) : nat -> Z :=
  match r with
  | CompactionRunning _ (Some c) => add_holder 1 (c_cfd c) h
  | _ => h
  end.

(** Taking the head of the compaction queue and dropping its reference. *)
Lemma pop_unref_spec F h id q :
  fam_inv F h -> compaction_queue_ F = id :: q ->
  exists F1 last F2, PopFirstFromCompactionQueue F = (id, F1) /\ Unref id F1 = (last, F2) /\
    fam_inv (if last then delete_cfd id F2 else F2) h /\
    queues (if last then delete_cfd id F2 else F2) = (default_cf F, flush_queue_ F, q) /\
    (last = false -> exists c, cfds F2 !! id = Some c /\ pending_compaction_ c = false).
Proof.
  intros H Hq. destruct (PopFirstFromCompactionQueue_inv _ _ _ _ H Hq) as (F1 & E1 & H1 & Hq1 & _).
  pose proof (PopFirstFromCompactionQueue_queues F) as Q1. rewrite E1, Hq in Q1. cbn [snd tail] in Q1.
  destruct (Unref id F1) as [last F2] eqn:E2. exists F1, last, F2.
  assert (Unref_delete id F1 = if last then delete_cfd id F2 else F2) as E3
    by (unfold Unref_delete; by rewrite E2).
  assert (0 < add_holder 1 id h id) as Hh
    by (rewrite add_holder_same; pose proof (fam_nonneg _ _ id H); lia).
  pose proof (Unref_delete_queues id F1) as Q2. rewrite E3, Q1 in Q2.
  assert (fam_inv (if last then delete_cfd id F2 else F2) h) as H2.
  { rewrite <- E3. eapply fam_inv_ext; [apply add_holder_cancel|]. by apply Unref_delete_inv. }
  split_and!; try done. intros ->.
  destruct (fam_held _ _ _ H1 Hh) as [c Hc]. unfold Unref in E2. injection E2 as _ E2.
  assert (is_Some (cfds F2 !! id)) as [c2 Hc2].
  { rewrite <- E2. change (is_Some (cfds (upd_cfd id (fun c => c <| refs_ ::= Z.pred |>) F1) !! id)).
    rewrite upd_cfd_lookup, decide_True, Hc by done. by eexists. }
  exists c2. split; [done|]. pose proof (fi_cell _ _ H2 id) as Hi. rewrite Hc2 in Hi. cbn in Hi.
  unfold queues in Q2. injection Q2 as _ _ Q2. rewrite Q2 in Hi.
  pose proof (fi_cnodup _ _ H) as Hnd. rewrite Hq in Hnd. apply NoDup_cons in Hnd as [Hnd _].
  destruct (pending_compaction_ c2); [|done]. tauto.
Qed.

(** A picked compaction takes a reference; if the column family needs another
    one it goes back into the queue. *)
Lemma picked_keeps st h fl co rf rc id c v :
  db_inv st h fl co rf rc -> cfds (fams st) !! id = Some c -> pending_compaction_ c = false ->
  view_ok v ->
  let F := Ref id (refresh_view id v (fams st)) in
  let st1 := st <| fams := F |> in
  keeps st (add_holder 1 id h) fl co rf rc
    (if NeedsCompaction (cf_view (get_cfd F id)) then
       MaybeScheduleFlushOrCompaction
         (st1 <| fams ::= AddToCompactionQueue id |>
              <| jobs ::= fun j => j <| unscheduled_compactions_ ::= Z.succ |> |>)
     else st1).
Proof.
  intros I Hc Hp Hv. cbn zeta.
  keeps_by (refresh_view_keeps _ _ _ _ _ _ I id v ltac:(by exists c) Hv) as I1.
  assert (exists c1, cfds (refresh_view id v (fams st)) !! id = Some c1 /\
    pending_compaction_ c1 = false) as (c1 & Hc1 & Hp1).
  { unfold refresh_view. rewrite upd_cfd_lookup, decide_True, Hc by done. by eexists. }
  keeps_by (Ref_keeps _ _ _ _ _ _ I1 id ltac:(by exists c1)) as I2.
  destruct (NeedsCompaction _); [|by apply keeps_refl].
  assert (exists c2, cfds (Ref id (refresh_view id v (fams st))) !! id = Some c2 /\
    pending_compaction_ c2 = false) as (c2 & Hc2 & Hp2).
  { unfold Ref. rewrite upd_cfd_lookup, decide_True, Hc1 by done. by eexists. }
  keeps_by (add_compaction_keeps _ _ _ _ _ _ id _ I2 Hc2 Hp2) as I3.
  by apply MaybeSchedule_keeps.
Qed.

Lemma BackgroundCompaction_auto_spec st h fl co rf rc pick r st' :
  db_inv st h fl co rf rc -> 1 <= cov_c st ->
  (forall k v, pick = Some (k, v) -> view_ok v) ->
  BackgroundCompaction_auto pick st = (r, st') ->
  db_inv st' (compaction_holders r h) fl co rf rc /\ mild st st' /\
  (forall m c, r = CompactionRunning m c -> m = None) /\
  cov_c st' = cov_c st - 1 /\ cov_f st' = cov_f st.
Proof.
  intros I Hcov Hpick E. unfold BackgroundCompaction_auto in E. pose proof I as I0.
  destruct I as [If Ij Id Il].
  destruct (compaction_queue_ (fams st)) as [|front q] eqn:Hq.
  { exfalso. unfold cov_c in Hcov. rewrite Hq in Hcov. cbn in Hcov.
    pose proof (queued_nonneg is_auto (jobs st) is_auto_nonneg).
    pose proof (ji_uc _ _ _ _ _ Ij). lia. }
  destruct (HaveManualCompaction front (ctl st)).
  { injection E as <- <-. split_and!; try done.
    - split; try done. destruct Ij; split; cbn; try done; lia.
    - unfold cov_c, queued. cbn. lia. }
  destruct (pop_unref_spec _ _ _ _ If Hq) as (F1 & last & F2 & E1 & E2 & HF & HQ & Hl).
  rewrite E1, E2 in E. unfold queues in HQ. injection HQ as Ed Ef Ec.
  set (F3 := if last then delete_cfd front F2 else F2) in *.
  assert (db_inv (st <| fams := F3 |>) h fl co rf rc /\ mild st (st <| fams := F3 |>) /\
    cov_c (st <| fams := F3 |>) = cov_c st - 1 /\ cov_f (st <| fams := F3 |>) = cov_f st)
    as (I3 & M3 & C3 & C3').
  { split_and!.
    - split; try done. cbn. by rewrite Ed.
    - by split.
    - unfold cov_c. cbn [fams jobs set]. rewrite Ec, Hq. cbn [length]. lia.
    - unfold cov_f. cbn [fams jobs set]. by rewrite Ef. }
  destruct last; [by injection E as <- <-|].
  destruct (negb _ && negb _); [|by injection E as <- <-; split_and!; try done; intros; simplify_eq].
  destruct pick as [[kind v]|]; [|by injection E as <- <-; split_and!; try done; intros; simplify_eq].
  destruct (Hl eq_refl) as (c & Hc & Hp).
  injection E as <- <-. unfold F3 in I3, M3, C3, C3'. cbv iota in I3, M3, C3, C3'.
  destruct (picked_keeps _ _ _ _ _ _ front c v I3 Hc Hp (Hpick _ _ eq_refl)) as [I6 Q6].
  split_and!; try done.
  - etransitivity; [exact M3|]. by apply quiet_mild.
  - intros; simplify_eq; done.
  - rewrite <- C3. apply (q_covc _ _ Q6).
  - rewrite <- C3'. apply (q_covf _ _ Q6).
Qed.

(** ** Handlers that finish a job *)

(** The two counters of a kind of job go down together. *)
Lemma finish_flush_keeps st h fl co rf rc :
  db_inv st h fl co rf rc -> 1 <= fl -> 1 <= rf -> bg_work_paused_ (ctl st) <= 0 ->
  let st1 := st <| jobs ::= fun j => (jobs_assert (num_running_flushes_ j >? 0) j)
    <| num_running_flushes_ ::= Z.pred |> <| bg_flush_scheduled_ ::= Z.pred |> |> in
  db_inv st1 h (fl - 1) co (rf - 1) rc /\ quiet st st1.
Proof.
  intros [If Ij Id Il] Hfl Hrf Hp. cbn zeta. split; [split; try done|split; try done; intros; lia].
  pose proof (ji_ok _ _ _ _ _ Ij) as Hok. cbn. unfold jobs_assert.
  destruct Ij; split; cbn; try done; try lia; rewrite ?Hok; unfold queued in *; cbn; lia.
Qed.

Lemma BackgroundCallFlush_end_spec st h fl co rf rc :
  db_inv st h fl co rf rc -> 1 <= fl -> 1 <= rf -> bg_work_paused_ (ctl st) <= 0 ->
  db_inv (BackgroundCallFlush_end st) h (fl - 1) co (rf - 1) rc /\
  quiet st (BackgroundCallFlush_end st).
Proof.
  intros I Hfl Hrf Hp. destruct (finish_flush_keeps _ _ _ _ _ _ I Hfl Hrf Hp) as [I1 Q1].
  destruct (MaybeSchedule_keeps _ _ _ _ _ _ I1) as [I2 Q2].
  destruct (SignalAll_keeps _ _ _ _ _ _ I2) as [I3 Q3].
  split; [exact I3|]. etransitivity; [exact Q1|]. by etransitivity.
Qed.

Lemma finish_compaction_keeps st h fl co rf rc :
  db_inv st h fl co rf rc -> 1 <= co -> 1 <= rc ->
  let st1 := st <| jobs ::= fun j => (jobs_assert (num_running_compactions_ j >? 0) j)
    <| num_running_compactions_ ::= Z.pred |> <| bg_compaction_scheduled_ ::= Z.pred |> |> in
  db_inv st1 h fl (co - 1) rf (rc - 1) /\ quiet st st1.
Proof.
  intros [If Ij Id Il] Hco Hrc. cbn zeta. split; [split; try done|by split].
  pose proof (ji_ok _ _ _ _ _ Ij) as Hok. cbn. unfold jobs_assert.
  destruct Ij; split; cbn; try done; try lia; rewrite ?Hok; unfold queued in *; cbn; lia.
Qed.

Lemma BackgroundCallCompaction_end_spec st h fl co rf rc b :
  db_inv st h fl co rf rc -> 1 <= co -> 1 <= rc ->
  db_inv (BackgroundCallCompaction_end b st) h fl (co - 1) rf (rc - 1) /\
  quiet st (BackgroundCallCompaction_end b st).
Proof.
  intros I Hco Hrc. destruct (finish_compaction_keeps _ _ _ _ _ _ I Hco Hrc) as [I1 Q1].
  unfold BackgroundCallCompaction_end. set (s1 := st <| jobs ::= _ |>) in *.
  assert (s1 <| fams ::= FreeDeadColumnFamilies |> = s1) as ->.
  { change s1 with (mkDB (fams s1) (jobs s1) (ctl s1)) at 2. cbn [set fams jobs ctl].
    f_equal. eapply FreeDeadColumnFamilies_id. apply I1. }
  destruct (MaybeSchedule_keeps _ _ _ _ _ _ I1) as [I2 Q2].
  set (s2 := MaybeScheduleFlushOrCompaction s1) in *.
  assert (keeps s2 h fl (co - 1) rf (rc - 1)
    (if b || (bg_compaction_scheduled_ (jobs s2) =? 0) || HasPendingManualCompaction (ctl s2)
     then SignalAll s2 else s2)) as [I3 Q3]
    by (destruct (_ || _ || _); [by apply SignalAll_keeps|by apply keeps_refl]).
  split; [exact I3|]. etransitivity; [exact Q1|]. by etransitivity.
Qed.

(** A compaction that runs in the caller's thread is counted too. *)
Lemma count_compaction_keeps st h fl co rf rc k :
  db_inv st h fl co rf rc -> 0 <= co + k ->
  let st1 := st <| jobs ::= fun j => j <| bg_compaction_scheduled_ ::= fun n => n + k |> |> in
  db_inv st1 h fl (co + k) rf rc /\ quiet st st1.
Proof.
  intros [If Ij Id Il] Hco. cbn zeta. split; [split; try done|by split].
  cbn. destruct Ij; split; cbn; try done; unfold queued in *; cbn; lia.
Qed.

Lemma CompactFilesImpl_end_spec st h fl co rf rc id s v e :
  db_inv st h fl co rf rc -> 1 <= co -> 0 < h id ->
  (id = default_cf (fams st) -> 1 < h id) -> view_ok v ->
  db_inv (CompactFilesImpl_end id s v e st) (add_holder (-1) id h) fl (co - 1) rf rc /\
  quiet st (CompactFilesImpl_end id s v e st).
Proof.
  intros I Hco Hh Hd Hv. unfold CompactFilesImpl_end.
  set (s1 := if ok s then _ else st).
  assert (keeps st h fl co rf rc s1) as [I1 Q1]
    by (unfold s1; destruct (ok s); [by apply InstallSuperVersion_keeps|by apply keeps_refl]).
  destruct (compaction_error_keeps _ _ _ _ _ _ I1 s e) as [I2 Q2].
  set (s2 := compaction_error s e s1) in *.
  destruct (Unref_delete_keeps _ _ _ _ _ _ I2 id Hh) as [I3 Q3].
  { by rewrite (q_default _ _ Q2), (q_default _ _ Q1). }
  set (s3 := s2 <| fams ::= Unref_delete id |>) in *.
  destruct (count_compaction_keeps _ _ _ _ _ _ (-1) I3 ltac:(lia)) as [I4 Q4].
  set (s4 := s3 <| jobs ::= fun j => j <| bg_compaction_scheduled_ ::= Z.pred |> |>).
  change (s3 <| jobs ::= _ |>) with s4 in I4, Q4.
  assert (keeps s4 (add_holder (-1) id h) fl (co - 1) rf rc
    (if bg_compaction_scheduled_ (jobs s4) =? 0 then SignalAll s4 else s4)) as [I5 Q5]
    by (destruct (_ =? 0); [by apply SignalAll_keeps|by apply keeps_refl]).
  split; [exact I5|]. do 4 (etransitivity; [eassumption|]). done.
Qed.

(** Scheduling a manual compaction in the compaction pool. *)
Lemma schedule_manual_spec st h fl co rf rc m :
  db_inv st h fl co rf rc ->
  let st1 := st <| jobs ::= fun j =>
    env_Schedule (BGWorkCompaction (Some m)) LOW (Some (Some m))
      (j <| bg_compaction_scheduled_ ::= Z.succ |>) |> in
  db_inv st1 h fl co rf rc /\ cov_c st1 = cov_c st /\ cov_f st1 = cov_f st /\
  bg_flush_scheduled_ (jobs st1) = bg_flush_scheduled_ (jobs st) /\
  forall g, queued g (jobs st1) = queued g (jobs st) + g (BGWorkCompaction (Some m)).
Proof.
  intros [If Ij Id Il]. cbn zeta. pose proof (ji_up _ _ _ _ _ Ij) as Hup.
  set (j1 := (jobs st) <| bg_compaction_scheduled_ ::= Z.succ |>).
  assert (forall g, queued g (env_Schedule (BGWorkCompaction (Some m)) LOW (Some (Some m)) j1) =
    queued g (jobs st) + g (BGWorkCompaction (Some m))) as Hq
    by (intros g; by rewrite env_Schedule_queued).
  split_and!; try done.
  - split; try done. cbn [jobs set]. fold j1. pose proof (env_Schedule_up
      (BGWorkCompaction (Some m)) LOW (Some (Some m)) j1 Hup) as Hup1.
    destruct Ij; split; rewrite ?Hq; cbn; try done; lia.
  - unfold cov_c. cbn [jobs fams set]. fold j1. rewrite Hq. cbn. lia.
  - unfold cov_f. cbn [jobs fams set]. fold j1. rewrite Hq. cbn. lia.
Qed.
