(* ===== verification/SchedulerInv.v ===== *)
(** * Background work as a transition system

    A system state is the database together with the jobs that threads have
    taken from the pools, the flushes and compactions that are running, and
    the client calls that are in progress.  [step] interleaves the handlers of
    Scheduler.v with the threads of the pools and with everything the clients
    and the other components may do; [sys_inv] holds in every reachable state.

    Clients follow the interface: they use column families they hold a
    reference to, and call [ContinueCompactionWork] once for every
    [PauseCompactionWork]. *)

From stdpp Require Import base gmap list relations.
From Stdlib Require Import ZArith Lia.
From S2P Require Import Prelude ThreadPool Scheduler SchedulerFam SchedulerJobs SchedulerDb.
#[local] Open Scope Z_scope.

(** ** States *)

Record Sys := mkSys {
  db : DBImpl;
  dequeued : list Job;                       (** taken by a thread, mutex not yet acquired *)
  running_flushes : list RunningFlush;
  running_compactions : list RunningCompaction;
  compact_files : list nat;                  (** [CompactFiles] running, by column family *)
  leaked : Z;                                (** [CompactFiles] that returned without decrement *)
  callers : gmap nat bool;                   (** [RunManualCompaction], with its [scheduled] *)
  external_refs : list nat;                  (** references held outside of background work *)
  pausing_work : Z;                          (** waiting in [PauseBackgroundWork] *)
  pausing_compaction : Z;                    (** waiting in [PauseCompactionWork] *)
  paused_compaction : Z;                     (** [PauseCompactionWork] not yet continued *)
  residue : Z                                (** [ContinueCompactionWork] calls so far *)
}.

#[export] Instance Sys_settable : Settable Sys := fun r =>
  mkSys (db r) (dequeued r) (running_flushes r) (running_compactions r) (compact_files r)
    (leaked r) (callers r) (external_refs r) (pausing_work r) (pausing_compaction r)
    (paused_compaction r) (residue r).

(** What is not yet begun: queued in the pools or taken by a thread. *)
Definition pend (g : Job -> Z) (s : Sys) : Z := queued g (jobs (db s)) + total g (dequeued s).

Definition eq1 (id i : nat) : Z := if decide (i = id) then 1 else 0.
Definition flush_holds (id : nat) (r : RunningFlush) : Z :=
  match r with FlushRunning i => eq1 id i | FlushReturned _ => 0 end.
Definition compaction_holds (id : nat) (r : RunningCompaction) : Z :=
  match r with CompactionRunning _ (Some c) => eq1 id (c_cfd c) | _ => 0 end.
Definition job_holds (c : Control) (id : nat) (f : Job) : Z :=
  match f with
  | BGWorkCompaction (Some m) =>
      match m_compaction (get_manual c m) with Some k => eq1 id (c_cfd k) | None => 0 end
  | _ => 0
  end.
Definition runs_manual (m : nat) (r : RunningCompaction) : Z :=
  match r with CompactionRunning (Some m') _ => if decide (m = m') then 1 else 0 | _ => 0 end.

(** Everything that holds a reference to a column family, the queues apart. *)
Definition holders (s : Sys) (id : nat) : Z :=
  total (eq1 id) (external_refs s) + total (flush_holds id) (running_flushes s) +
  total (compaction_holds id) (running_compactions s) + total (eq1 id) (compact_files s) +
  pend (job_holds (ctl (db s)) id) s.

(** Column families that stay referenced: the default one and those a manual
    compaction was called on. *)
Definition pinned (d : DBImpl) (id : nat) : Prop :=
  id = default_cf (fams d) \/ exists m x, manuals (ctl d) !! m = Some x /\ m_cfd x = id.

(** The flushes and compactions that have left the pools. *)
Definition left_flush (s : Sys) : Z :=
  total is_flush (dequeued s) + Z.of_nat (length (running_flushes s)).
Definition left_compaction (s : Sys) : Z :=
  total is_compaction (dequeued s) + Z.of_nat (length (running_compactions s)) +
  Z.of_nat (length (compact_files s)) + leaked s.

(** ** Steps *)

Inductive step (s : Sys) : Sys -> Prop :=
(* the threads of the pools *)
| step_thread pri i f p' it rest :
    BGThread_iter i (get_pool pri (jobs (db s))) = ThreadRun f p' ->
    queue_ (get_pool pri (jobs (db s))) = it :: rest ->
    step s (s <| db ::= fun d => d <| jobs ::= set_pool pri p' |> |>
              <| dequeued ::= fun l => if decide (this_tag = item_tag it) then f :: l else l |>)
| step_thread_exit pri i p' :
    BGThread_iter i (get_pool pri (jobs (db s))) = ThreadExit p' ->
    step s (s <| db ::= fun d => d <| jobs ::= set_pool pri p' |> |>)
| step_set_threads pri n b :
    step s (s <| db ::= fun d => d <| jobs ::= fun j =>
      set_pool pri (SetBackgroundThreadsInternal n b (get_pool pri j)) j |> |>)
(* other databases that share the pools *)
| step_foreign pri f t u :
    t <> this_tag -> foreign_jobs (get_pool pri (jobs (db s))) < 2 ^ 30 - 1 ->
    step s (s <| db ::= fun d => d <| jobs ::= fun j =>
      set_pool pri (Schedule f t u (get_pool pri j)) j |> |>)
(* flush jobs *)
| step_flush_begin l1 l2 v r d :
    dequeued s = l1 ++ BGWorkFlush :: l2 -> view_ok v ->
    BackgroundCallFlush_begin v (db s) = (r, d) ->
    step s (s <| db := d |> <| dequeued := l1 ++ l2 |> <| running_flushes ::= cons r |>)
| step_flush_work l1 l2 id se st v err sp r d :
    running_flushes s = l1 ++ FlushRunning id :: l2 -> view_ok v ->
    BackgroundFlush_end id se st v err sp (db s) = (r, d) ->
    step s (s <| db := d |> <| running_flushes := l1 ++ r :: l2 |>)
| step_flush_end l1 l2 st :
    running_flushes s = l1 ++ FlushReturned st :: l2 ->
    step s (s <| db ::= BackgroundCallFlush_end |> <| running_flushes := l1 ++ l2 |>)
(* compaction jobs *)
| step_compaction_begin l1 l2 m pick r d :
    dequeued s = l1 ++ BGWorkCompaction m :: l2 ->
    num_running_ingest_file_ (ctl (db s)) = 0 ->
    (forall k v, pick = Some (k, v) -> view_ok v) ->
    BackgroundCallCompaction_begin m pick (db s) = (r, d) ->
    step s (s <| db := d |> <| dequeued := l1 ++ l2 |> <| running_compactions ::= cons r |>)
| step_compaction_work l1 l2 m c st v err r d :
    running_compactions s = l1 ++ CompactionRunning m c :: l2 -> view_ok v ->
    BackgroundCompaction_end m c st v err (db s) = (r, d) ->
    step s (s <| db := d |> <| running_compactions := l1 ++ r :: l2 |>)
| step_compaction_end l1 l2 st b :
    running_compactions s = l1 ++ CompactionReturned st b :: l2 ->
    step s (s <| db ::= BackgroundCallCompaction_end b |> <| running_compactions := l1 ++ l2 |>)
(* writes, options and other components *)
| step_install id v :
    id ∈ external_refs s -> view_ok v ->
    step s (s <| db ::= InstallSuperVersionAndScheduleWork id v |>)
| step_flush_request id v :
    id ∈ external_refs s -> view_ok v ->
    step s (s <| db ::= FlushMemTable_schedule id v |>)
| step_view id v :
    is_Some (cfds (fams (db s)) !! id) -> view_ok v ->
    step s (s <| db ::= fun d => d <| fams ::= refresh_view id v |> |>)
| step_bg_error e :
    step s (s <| db ::= set_bg_error e |>)
| step_speedup b :
    step s (s <| db ::= fun d => d <| ctl ::= fun c => c <| need_speedup_compaction := b |> |> |>)
| step_ingest n :
    0 <= n ->
    step s (s <| db ::= fun d => d <| ctl ::= fun c => c <| num_running_ingest_file_ := n |> |> |>)
| step_opened :
    step s (s <| db ::= fun d => MaybeScheduleFlushOrCompaction
      (d <| ctl ::= fun c => c <| opened_successfully_ := true |> |>) |>)
| step_options mbc mbj :
    is_int mbc -> is_int mbj ->
    step s (s <| db ::= fun d => MaybeScheduleFlushOrCompaction
      (d <| ctl ::= fun c => c <| max_background_compactions := mbc |>
                               <| max_background_jobs := mbj |> |>) |>)
| step_shutdown :
    step s (s <| db ::= CancelAllBackgroundWork |>)
(* column families *)
| step_create id v :
    cfds (fams (db s)) !! id = None -> view_ok v ->
    step s (s <| db ::= fun d => d <| fams ::= fun F =>
                F <| cfds ::= insert id (mkCFD 1 false false false v) |> |> |>
              <| external_refs ::= cons id |>)
| step_ref id :
    id ∈ external_refs s ->
    step s (s <| db ::= fun d => d <| fams ::= Ref id |> |> <| external_refs ::= cons id |>)
| step_unref id l1 l2 :
    external_refs s = l1 ++ id :: l2 -> (pinned (db s) id -> id ∈ l1 ++ l2) ->
    step s (s <| db ::= fun d => d <| fams ::= Unref_delete id |> |> <| external_refs := l1 ++ l2 |>)
| step_drop id :
    id ∈ external_refs s ->
    step s (s <| db ::= fun d => d <| fams ::=
      upd_cfd id (fun c => c <| dropped_ := true |>) |> |>)
(* pausing *)
| step_pause_work_begin :
    step s (s <| db ::= PauseBackgroundWork_begin |> <| pausing_work ::= Z.succ |>)
| step_pause_work_end :
    0 < pausing_work s -> PauseBackgroundWork_wait (db s) = false ->
    step s (s <| db ::= fun d => snd (PauseBackgroundWork_end d) |> <| pausing_work ::= Z.pred |>)
| step_continue_work :
    step s (s <| db ::= fun d => snd (ContinueBackgroundWork d) |>)
| step_pause_compaction_begin :
    step s (s <| db ::= PauseCompactionWork_begin |> <| pausing_compaction ::= Z.succ |>)
| step_pause_compaction_end :
    0 < pausing_compaction s -> PauseCompactionWork_wait (db s) = false ->
    step s (s <| db ::= fun d => snd (PauseCompactionWork_end d) |>
              <| pausing_compaction ::= Z.pred |> <| paused_compaction ::= Z.succ |>)
| step_continue_compaction :
    0 < paused_compaction s ->
    step s (s <| db ::= fun d => snd (ContinueCompactionWork d) |>
              <| paused_compaction ::= Z.pred |> <| residue ::= Z.succ |>)
(* manual compactions *)
| step_manual_begin m id excl dis :
    callers s !! m = None -> id ∈ external_refs s ->
    step s (s <| db ::= RunManualCompaction_begin m id excl dis |> <| callers ::= insert m false |>)
| step_manual_iter m b range b' d :
    callers s !! m = Some b -> m_done (get_manual (ctl (db s)) m) = false ->
    (snd (fst range) = true -> 0 < bg_compaction_scheduled_ (jobs (db s))) ->
    RunManualCompaction_iter m b range (db s) = (b', d) ->
    step s (s <| db := d |> <| callers ::= insert m b' |>)
| step_manual_wake m b b' d :
    callers s !! m = Some b ->
    RunManualCompaction_wake m b (db s) = (b', d) ->
    step s (s <| db := d |> <| callers ::= insert m b' |>)
| step_manual_end m b :
    callers s !! m = Some b -> m_done (get_manual (ctl (db s)) m) = true ->
    step s (s <| db ::= fun d => snd (RunManualCompaction_end m d) |> <| callers ::= delete m |>)
(* CompactFiles *)
| step_compact_files_begin id d :
    id ∈ external_refs s -> CompactFilesImpl_begin id None true (db s) = (None, d) ->
    step s (s <| db := d |> <| compact_files ::= cons id |>)
| step_compact_files_abort id e d :
    id ∈ external_refs s -> shutting_down_ (ctl (db s)) = false ->
    CompactFilesImpl_begin id None false (db s) = (Some e, d) ->
    step s (s <| db := d |> <| leaked ::= Z.succ |>)
| step_compact_files_end id l1 l2 st v err :
    compact_files s = l1 ++ id :: l2 -> view_ok v ->
    step s (s <| db ::= CompactFilesImpl_end id st v err |> <| compact_files := l1 ++ l2 |>).

(** ** Manual compactions *)

(** The phases of a [RunManualCompaction] call with local flag [scheduled],
    [p] jobs queued for it and [r] running. *)
Inductive manual_phase (x : ManualCompaction) : bool -> Z -> Z -> Prop :=
| mp_idle : m_in_progress x = false -> manual_phase x false 0 0
| mp_queued : m_in_progress x = false -> m_done x = false -> m_incomplete x = false ->
    is_Some (m_compaction x) -> manual_phase x true 1 0
| mp_running : m_in_progress x = true -> m_done x = false -> m_incomplete x = false ->
    is_Some (m_compaction x) -> manual_phase x true 0 1
| mp_back : m_in_progress x = false -> m_done x = true \/ m_incomplete x = true ->
    manual_phase x true 0 0.

Definition manual_cell (o : option bool) (ox : option ManualCompaction) (p r : Z) : Prop :=
  match o, ox with
  | Some b, Some x => manual_phase x b p r
  | None, None => p = 0 /\ r = 0
  | _, _ => False
  end.

Record manual_inv (c : Control) (cl : gmap nat bool) (p r : nat -> Z) : Prop := {
  mv_ok : ctl_ok c = true;
  mv_nodup : NoDup (manual_compaction_dequeue_ c);
  mv_queue m : m ∈ manual_compaction_dequeue_ c <-> is_Some (cl !! m);
  mv_cell m : manual_cell (cl !! m) (manuals c !! m) (p m) (r m)
}.

Lemma manual_inv_ext c c' cl p p' r r' :
  ctl_core c' = ctl_core c -> (forall m, p' m = p m) -> (forall m, r' m = r m) ->
  manual_inv c cl p r -> manual_inv c' cl p' r'.
Proof.
  intros E Hp Hr []. unfold ctl_core in E. injection E as _ _ _ _ _ Eq Em _ _ _ Eo.
  split; rewrite ?Eq, ?Em, ?Eo; try done. intros m. by rewrite Hp, Hr.
Qed.

Lemma ctl_assert_true b c : b = true -> ctl_assert b c = c.
Proof. intros ->. unfold ctl_assert. destruct c; cbn. by rewrite andb_true_r. Qed.

Lemma upd_manual_eq m f c :
  is_Some (manuals c !! m) -> upd_manual m f c = c <| manuals ::= alter f m |>.
Proof. intros H. unfold upd_manual. rewrite ctl_assert_true; [done|]. by apply bool_decide_eq_true. Qed.

Lemma remove_first_spec m q :
  NoDup q -> m ∈ q ->
  exists q', remove_first m q = Some q' /\ NoDup q' /\ forall m', m' ∈ q' <-> m' ∈ q /\ m' <> m.
Proof.
  induction q as [|x q IH]; intros Hnd Hin; [by apply not_elem_of_nil in Hin|].
  apply NoDup_cons in Hnd as [Hx Hnd]. cbn [remove_first]. destruct (decide (m = x)) as [<-|Hne].
  - exists q. split_and!; try done. set_solver.
  - destruct IH as (q' & -> & Hnd' & Hq'); [done|set_solver|].
    exists (x :: q'). split_and!; [done| |set_solver].
    apply NoDup_cons. split; [|done]. rewrite Hq'. tauto.
Qed.

Section Manual.
Context (c : Control) (cl : gmap nat bool) (p r : nat -> Z).
Hypothesis (M : manual_inv c cl p r).

Lemma manual_caller m b :
  cl !! m = Some b -> exists x, manuals c !! m = Some x /\ get_manual c m = x /\
    manual_phase x b (p m) (r m).
Proof.
  intros Hm. pose proof (mv_cell _ _ _ _ M m) as Hc. rewrite Hm in Hc. cbn in Hc.
  unfold get_manual. destruct (manuals c !! m) as [x|]; [|done]. by exists x.
Qed.

(** A queued or running job belongs to a call that waits for it. *)
Lemma manual_queued m : 0 <= p m -> 0 <= r m -> 0 < p m + r m ->
  exists x, cl !! m = Some true /\ manuals c !! m = Some x /\ get_manual c m = x /\
    manual_phase x true (p m) (r m) /\ p m + r m = 1.
Proof.
  intros Hp Hr Hpr. pose proof (mv_cell _ _ _ _ M m) as Hc. unfold manual_cell in Hc.
  unfold get_manual. destruct (cl !! m) as [b|], (manuals c !! m) as [x|]; try done; try lia.
  exists x. inversion Hc; subst; try lia; split_and!; try done; try lia; by constructor.
Qed.

(** Only one manual compaction changes. *)
Lemma manual_inv_upd m f b b' x p' r' :
  cl !! m = Some b -> manuals c !! m = Some x -> manual_phase (f x) b' (p' m) (r' m) ->
  (forall m', m' <> m -> p' m' = p m' /\ r' m' = r m') ->
  manual_inv (upd_manual m f c) (<[m := b']> cl) p' r'.
Proof.
  intros Hb Hx Hf Ho. rewrite upd_manual_eq by (by rewrite Hx).
  destruct M as [Hok Hnd Hq Hc]. destruct c; cbn in *. split; cbn; try done.
  - intros m'. rewrite Hq. destruct (decide (m = m')) as [<-|Hne].
    + rewrite lookup_insert_eq, Hb. split; by eexists.
    + by rewrite lookup_insert_ne.
  - intros m'. destruct (decide (m = m')) as [<-|Hne].
    + by rewrite lookup_insert_eq, lookup_alter_eq, Hx.
    + rewrite lookup_insert_ne, lookup_alter_ne by done.
      destruct (Ho m' ltac:(congruence)) as [-> ->]. apply Hc.
Qed.

Lemma manual_inv_upd_same m f b x p' r' :
  cl !! m = Some b -> manuals c !! m = Some x -> manual_phase (f x) b (p' m) (r' m) ->
  (forall m', m' <> m -> p' m' = p m' /\ r' m' = r m') ->
  manual_inv (upd_manual m f c) cl p' r'.
Proof.
  intros Hb Hx Hf Ho. rewrite <- (insert_id cl m b) by done. by eapply manual_inv_upd.
Qed.

Lemma manual_pending m b : cl !! m = Some b -> HasPendingManualCompaction c = true.
Proof.
  intros Hb. assert (m ∈ manual_compaction_dequeue_ c) as Hin by (apply (mv_queue _ _ _ _ M); eauto).
  unfold HasPendingManualCompaction. by destruct (manual_compaction_dequeue_ c); [apply not_elem_of_nil in Hin|].
Qed.

End Manual.

(** A weight that looks only at the compaction of each manual job. *)
Lemma job_holds_weight c id : manual_weight (job_holds c id).
Proof. by split. Qed.

Lemma is_manual_weight m : manual_weight (is_manual m).
Proof. by split. Qed.

Lemma job_holds_frame c c' id m l :
  (forall m', m' <> m -> get_manual c' m' = get_manual c m') ->
  m_compaction (get_manual c' m) = m_compaction (get_manual c m) \/ total (is_manual m) l = 0 ->
  total (job_holds c' id) l = total (job_holds c id) l.
Proof.
  intros Ho Hm. apply total_ext. intros f Hf. destruct f as [|[m'|]]; cbn; try done.
  destruct (decide (m' = m)) as [->|Hne]; [|by rewrite Ho].
  destruct Hm as [->|Hz]; [done|].
  pose proof (total_zero _ _ (is_manual_nonneg m) Hz _ Hf) as Hf0. cbn in Hf0.
  by rewrite decide_True in Hf0.
Qed.

Lemma get_upd_manual_ne m m' f c : m' <> m -> get_manual (upd_manual m f c) m' = get_manual c m'.
Proof.
  intros Hne. unfold get_manual, upd_manual, ctl_assert. destruct c; cbn.
  by rewrite lookup_alter_ne.
Qed.

Lemma get_upd_manual_eq m f c x :
  manuals c !! m = Some x -> get_manual (upd_manual m f c) m = f x.
Proof.
  intros Hx. unfold get_manual, upd_manual, ctl_assert. destruct c; cbn in *.
  by rewrite lookup_alter_eq, Hx.
Qed.

(** ** The invariant *)

(** Every entry of the compaction queue has exactly one automatic job that will
    serve it, and every entry of the flush queue at least one, as long as no
    background error or shutdown has made a job give up. *)
Definition covered (s : Sys) : Prop :=
  total is_auto (dequeued s) <= cov_c (db s) /\
  (ok (bg_status (ctl (db s))) = true ->
   total is_auto (dequeued s) = cov_c (db s) /\
   0 <= cov_f (db s) + total is_flush (dequeued s)).

Record pause_inv (s : Sys) : Prop := {
  pi_work : 0 <= bg_work_paused_ (ctl (db s));
  pi_pw : 0 <= pausing_work s;
  pi_pc : 0 <= pausing_compaction s;
  pi_cp : 0 <= paused_compaction s;
  pi_residue : 0 <= residue s;
  pi_count : bg_compaction_paused_ (ctl (db s)) =
    pausing_work s + bg_work_paused_ (ctl (db s)) + pausing_compaction s +
    2 * paused_compaction s + residue s
}.

Record sys_inv (s : Sys) : Prop := {
  sv_db : db_inv (db s) (holders s) (left_flush s) (left_compaction s)
    (Z.of_nat (length (running_flushes s))) (Z.of_nat (length (running_compactions s)));
  sv_manual : manual_inv (ctl (db s)) (callers s) (fun m => pend (is_manual m) s)
    (fun m => total (runs_manual m) (running_compactions s));
  sv_pinned id : pinned (db s) id -> id ∈ external_refs s;
  sv_pause : pause_inv s;
  sv_noflush : 0 < bg_work_paused_ (ctl (db s)) -> bg_flush_scheduled_ (jobs (db s)) = 0;
  sv_leaked : 0 <= leaked s;
  sv_covered : covered s
}.

(** ** Counting holders *)

Lemma eq1_nonneg id i : 0 <= eq1 id i.
Proof. unfold eq1. by case_decide. Qed.
Lemma flush_holds_nonneg id r : 0 <= flush_holds id r.
Proof. destruct r; cbn; [apply eq1_nonneg|done]. Qed.
Lemma compaction_holds_nonneg id r : 0 <= compaction_holds id r.
Proof. destruct r as [? [c|]|]; cbn; try done. apply eq1_nonneg. Qed.
Lemma job_holds_nonneg c id f : 0 <= job_holds c id f.
Proof. destruct f as [|[m|]]; cbn; try done. destruct (m_compaction _); [apply eq1_nonneg|done]. Qed.
Lemma runs_manual_nonneg m r : 0 <= runs_manual m r.
Proof. destruct r as [[m'|]|]; cbn; try done. by case_decide. Qed.
#[local] Hint Resolve eq1_nonneg flush_holds_nonneg compaction_holds_nonneg job_holds_nonneg
  runs_manual_nonneg : silk.

Lemma eq1_same id : eq1 id id = 1.
Proof. unfold eq1. by rewrite decide_True. Qed.

Lemma eq1_add id i h : add_holder 1 i h id = h id + eq1 id i.
Proof. unfold add_holder, eq1. repeat case_decide; subst; try done; lia. Qed.

Lemma eq1_sub id i h : add_holder (-1) i h id = h id - eq1 id i.
Proof. unfold add_holder, eq1. repeat case_decide; subst; try done; lia. Qed.

Lemma pend_nonneg g s : (forall f, 0 <= g f) -> 0 <= pend g s.
Proof.
  intros H. unfold pend. pose proof (queued_nonneg g (jobs (db s)) H).
  pose proof (total_nonneg g (dequeued s) H). lia.
Qed.

(** The parts of [holders] are non-negative. *)
Lemma holders_parts s id :
  0 <= total (eq1 id) (external_refs s) /\ 0 <= total (flush_holds id) (running_flushes s) /\
  0 <= total (compaction_holds id) (running_compactions s) /\
  0 <= total (eq1 id) (compact_files s) /\ 0 <= pend (job_holds (ctl (db s)) id) s.
Proof. split_and!; try apply total_nonneg; try apply pend_nonneg; auto with silk. Qed.

Lemma ext_held s id : id ∈ external_refs s -> 1 <= total (eq1 id) (external_refs s).
Proof.
  intros H. pose proof (total_pos (eq1 id) _ _ (eq1_nonneg id) H) as Hp. by rewrite eq1_same in Hp.
Qed.

Lemma ext_holders s id : id ∈ external_refs s -> 0 < holders s id.
Proof.
  intros H. pose proof (ext_held _ _ H). pose proof (holders_parts s id). unfold holders. lia.
Qed.

(** Giving back a reference other than the client's never touches a pinned
    column family's last one. *)
Lemma pinned_spare s id k :
  sys_inv s -> 1 <= k -> holders s id >= k + total (eq1 id) (external_refs s) ->
  id = default_cf (fams (db s)) -> 1 < holders s id.
Proof.
  intros S Hk Hh Hd. pose proof (ext_held s id) as He.
  assert (id ∈ external_refs s) as Hin by (apply (sv_pinned _ S); by left). specialize (He Hin). lia.
Qed.

Lemma db_inv_eq st h h' fl fl' co co' rf rf' rc rc' :
  db_inv st h fl co rf rc -> (forall i, h i = h' i) -> fl = fl' -> co = co' -> rf = rf' ->
  rc = rc' -> db_inv st h' fl' co' rf' rc'.
Proof.
  intros [] Hh <- <- <- <-. split; try done; [by eapply fam_inv_ext|by rewrite <- Hh].
Qed.

(** ** Steps that leave the manual compactions and the flags alone *)

Definition ghost (s : Sys) :=
  (callers s, pausing_work s, pausing_compaction s, paused_compaction s, residue s).

Lemma mild_pinned d d' id : mild d d' -> pinned d' id <-> pinned d id.
Proof.
  intros M. unfold pinned. rewrite (mi_default _ _ M). pose proof (mi_ctl _ _ M) as E.
  unfold ctl_core in E. injection E as _ _ _ _ _ _ -> _ _ _ _. done.
Qed.

Lemma mild_status d d' :
  mild d d' -> ok (bg_status (ctl d')) = true -> ok (bg_status (ctl d)) = true.
Proof.
  intros M. pose proof (mi_ctl _ _ M) as E. pose proof (mi_err _ _ M) as Herr.
  unfold ctl_core in E. injection E as _ Es _ _ _ _ _ _ _ _ _. unfold bg_status. rewrite Es.
  destruct (ok (bg_error_ (ctl d'))) eqn:E1; cbn; [|congruence].
  rewrite (Herr eq_refl). cbn. destruct (shutting_down_ (ctl d)); [done|]. intros _. auto.
Qed.

Lemma sys_inv_mild s s' :
  sys_inv s -> mild (db s) (db s') -> ghost s' = ghost s ->
  (forall id, pinned (db s) id -> id ∈ external_refs s') ->
  db_inv (db s') (holders s') (left_flush s') (left_compaction s')
    (Z.of_nat (length (running_flushes s'))) (Z.of_nat (length (running_compactions s'))) ->
  (forall m, total (is_manual m) (dequeued s') = total (is_manual m) (dequeued s)) ->
  (forall m, total (runs_manual m) (running_compactions s') =
             total (runs_manual m) (running_compactions s)) ->
  0 <= leaked s' -> covered s' -> sys_inv s'.
Proof.
  intros S M G Hpin Hdb Hm Hr Hl Hcov. unfold ghost in G. injection G as Gc Gpw Gpc Gcp Gr.
  pose proof (mi_ctl _ _ M) as E. unfold ctl_core in E.
  injection E as _ _ Ew Ec _ _ _ _ _ _ _. split; try done.
  - rewrite Gc. eapply manual_inv_ext; [apply (mi_ctl _ _ M)| |apply Hr|apply S].
    intros m. unfold pend. rewrite Hm, (mi_queued _ _ M); [done|apply is_manual_weight].
  - intros id Hid. apply Hpin. by apply (mild_pinned _ _ id M).
  - destruct (sv_pause _ S). split; rewrite ?Ew, ?Ec, ?Gpw, ?Gpc, ?Gcp, ?Gr; done.
  - rewrite Ew. intros Hp. rewrite (mi_paused _ _ M) by done. by apply S.
Qed.

(** The weight of the pending manual jobs does not change either. *)
Lemma mild_job_holds d d' id :
  mild d d' -> queued (job_holds (ctl d') id) (jobs d') = queued (job_holds (ctl d) id) (jobs d).
Proof.
  intros M. rewrite (mi_queued _ _ M) by apply job_holds_weight.
  pose proof (mi_ctl _ _ M) as E. unfold ctl_core in E.
  injection E as _ _ _ _ _ _ Em _ _ _ _. unfold queued, job_holds, get_manual. by rewrite Em.
Qed.

Lemma mild_total_holds d d' id l :
  mild d d' -> total (job_holds (ctl d') id) l = total (job_holds (ctl d) id) l.
Proof.
  intros M. pose proof (mi_ctl _ _ M) as E. unfold ctl_core in E.
  injection E as _ _ _ _ _ _ Em _ _ _ _. unfold job_holds, get_manual. by rewrite Em.
Qed.

Lemma covered_quiet s s' :
  covered s -> quiet (db s) (db s') ->
  total is_auto (dequeued s') = total is_auto (dequeued s) ->
  total is_flush (dequeued s') = total is_flush (dequeued s) -> covered s'.
Proof.
  intros [H1 H2] Q Ea Ef. unfold covered. rewrite Ea, Ef, (q_covc _ _ Q), (q_covf _ _ Q).
  split; [done|]. intros Hok. apply H2. eapply mild_status; [|done]. by apply quiet_mild.
Qed.

(** A quiet handler together with a change of the external references, the
    running jobs and the [CompactFiles] calls. *)
Lemma sys_inv_quiet s s' h :
  sys_inv s -> quiet (db s) (db s') -> ghost s' = ghost s -> dequeued s' = dequeued s ->
  (forall id, pinned (db s) id -> id ∈ external_refs s') -> 0 <= leaked s' ->
  (forall m, total (runs_manual m) (running_compactions s') =
             total (runs_manual m) (running_compactions s)) ->
  db_inv (db s') h (left_flush s') (left_compaction s')
    (Z.of_nat (length (running_flushes s'))) (Z.of_nat (length (running_compactions s'))) ->
  (forall i, h i - holders s i =
     (total (eq1 i) (external_refs s') + total (flush_holds i) (running_flushes s') +
      total (compaction_holds i) (running_compactions s') + total (eq1 i) (compact_files s')) -
     (total (eq1 i) (external_refs s) + total (flush_holds i) (running_flushes s) +
      total (compaction_holds i) (running_compactions s) + total (eq1 i) (compact_files s))) ->
  sys_inv s'.
Proof.
  intros S Q G Ed Hpin Hl Hr Hdb Hh. pose proof (quiet_mild _ _ Q) as M.
  apply (sys_inv_mild s); try done.
  - eapply db_inv_eq; [exact Hdb| |done..]. intros i. specialize (Hh i).
    unfold holders, pend in *. rewrite (mild_job_holds _ _ _ M), Ed, (mild_total_holds _ _ _ _ M). lia.
  - intros m. by rewrite Ed.
  - eapply covered_quiet; [apply S|done|by rewrite Ed..].
Qed.

Lemma sys_inv_keeps s d :
  sys_inv s ->
  keeps (db s) (holders s) (left_flush s) (left_compaction s)
    (Z.of_nat (length (running_flushes s))) (Z.of_nat (length (running_compactions s))) d ->
  sys_inv (s <| db := d |>).
Proof.
  intros S [I Q]. apply (sys_inv_quiet s _ (holders s)); try done; try apply S. intros; cbn; lia.
Qed.

(** ** Flush jobs *)

Lemma flush_work_inv s l1 l2 id se st v err sp r d :
  sys_inv s -> running_flushes s = l1 ++ FlushRunning id :: l2 -> view_ok v ->
  BackgroundFlush_end id se st v err sp (db s) = (r, d) ->
  sys_inv (s <| db := d |> <| running_flushes := l1 ++ r :: l2 |>).
Proof.
  intros S Hl Hv E. pose proof (holders_parts s id) as Hp.
  assert (1 <= total (flush_holds id) (running_flushes s)) as Hf.
  { rewrite Hl, total_middle. cbn. rewrite eq1_same.
    pose proof (total_nonneg _ (l1 ++ l2) (flush_holds_nonneg id)). lia. }
  destruct (BackgroundFlush_end_keeps _ _ _ _ _ _ id se st v err sp (sv_db _ S)) as [I Q].
  - unfold holders. lia.
  - apply (pinned_spare s id 1 S); unfold holders; lia.
  - done.
  - rewrite E in I, Q. cbn [snd] in I, Q. unfold BackgroundFlush_end in E. injection E as <- _.
    apply (sys_inv_quiet s _ (add_holder (-1) id (holders s))); try done; try apply S.
    + eapply db_inv_eq; [exact I|..]; unfold left_flush, left_compaction; cbn; try done;
        rewrite Hl, !length_app; cbn; lia.
    + intros i. rewrite eq1_sub. cbn. rewrite Hl, !total_middle. cbn. lia.
Qed.

Lemma flush_begin_inv s l1 l2 v r d :
  sys_inv s -> dequeued s = l1 ++ BGWorkFlush :: l2 -> view_ok v ->
  BackgroundCallFlush_begin v (db s) = (r, d) ->
  sys_inv (s <| db := d |> <| dequeued := l1 ++ l2 |> <| running_flushes ::= cons r |>).
Proof.
  intros S Hl Hv E. pose proof (sv_db _ S) as I.
  assert (total is_flush (dequeued s) = 1 + total is_flush (l1 ++ l2)) as Hfl
    by (by rewrite Hl, total_middle).
  pose proof (total_nonneg is_flush (l1 ++ l2) is_flush_nonneg) as Hn.
  apply start_flush_inv in I; [|unfold left_flush; lia].
  unfold BackgroundCallFlush_begin in E. set (s0 := (db s) <| jobs ::= _ |>) in *.
  destruct (BackgroundFlush_begin v s0) as [r1 d1] eqn:E1.
  destruct (BackgroundFlush_begin_spec _ _ _ _ _ _ _ _ _ I Hv E1) as (I1 & M1 & Ec & C1 & C2).
  assert (mild (db s) s0) as M0 by (by split).
  assert (r1 = r /\ keeps d1 (flush_holders r (holders s)) (left_flush s) (left_compaction s)
    (Z.of_nat (length (running_flushes s)) + 1) (Z.of_nat (length (running_compactions s))) d)
    as (-> & [I2 Q2]).
  { destruct r1; injection E as <- <-; (split; [done|]); [by apply keeps_refl|].
    by apply signal_error_keeps. }
  assert (mild (db s) d) as M by (etransitivity; [exact M0|]; etransitivity; [exact M1|by apply quiet_mild]).
  apply (sys_inv_mild s); try done; try apply S; cbn.
  - eapply db_inv_eq; [exact I2|..]; unfold left_flush, left_compaction; cbn; try lia.
    + intros i. destruct r; cbn [flush_holders]; rewrite ?eq1_add; unfold holders, pend; cbn;
        rewrite (mild_job_holds _ _ i M), (mild_total_holds _ _ i _ M), Hl, total_middle; cbn; lia.
    + rewrite Hl, total_middle. cbn. lia.
  - intros m. by rewrite Hl, total_middle.
  - destruct (sv_covered _ S) as [Hc1 Hc2]. rewrite Hl, !total_middle in Hc1, Hc2. cbn in Hc1, Hc2.
    unfold covered. cbn. rewrite (q_covc _ _ Q2), (q_covf _ _ Q2), C1. split; [exact Hc1|].
    intros Hok. apply (mild_status _ _ M) in Hok. destruct (Hc2 Hok) as [Hc3 Hc4].
    split; [done|]. destruct (C2 Hok) as [H|H]; [|lia].
    change (cov_f s0) with (cov_f (db s)) in H.
    rewrite total_middle in Hc4. cbn in Hc4. lia.
Qed.

Lemma flush_end_inv s l1 l2 st :
  sys_inv s -> running_flushes s = l1 ++ FlushReturned st :: l2 ->
  sys_inv (s <| db ::= BackgroundCallFlush_end |> <| running_flushes := l1 ++ l2 |>).
Proof.
  intros S Hl. pose proof (sv_db _ S) as I.
  assert (Z.of_nat (length (running_flushes s)) = Z.of_nat (length (l1 ++ l2)) + 1) as Hlen
    by (rewrite Hl, !length_app; cbn; lia).
  pose proof (total_nonneg is_flush (dequeued s) is_flush_nonneg).
  destruct (BackgroundCallFlush_end_spec _ _ _ _ _ _ I) as [I1 Q1].
  - unfold left_flush. lia.
  - lia.
  - pose proof (sv_noflush _ S) as Hnf. pose proof (queued_nonneg is_flush (jobs (db s)) is_flush_nonneg).
    pose proof (ji_bf _ _ _ _ _ (di_jobs _ _ _ _ _ _ I)). unfold left_flush in *. lia.
  - apply (sys_inv_quiet s _ (holders s)); try done; try apply S.
    + eapply db_inv_eq; [exact I1|..]; unfold left_flush; cbn; try done; lia.
    + intros i. cbn. rewrite Hl, total_middle. cbn. lia.
Qed.

(** ** Compaction jobs *)

Lemma compaction_begin_auto_inv s l1 l2 pick r d :
  sys_inv s -> dequeued s = l1 ++ BGWorkCompaction None :: l2 ->
  (forall k v, pick = Some (k, v) -> view_ok v) ->
  BackgroundCallCompaction_begin None pick (db s) = (r, d) ->
  sys_inv (s <| db := d |> <| dequeued := l1 ++ l2 |> <| running_compactions ::= cons r |>).
Proof.
  intros S Hl Hv E. pose proof (sv_db _ S) as I. destruct (sv_covered _ S) as [Hc1 Hc2].
  assert (forall g, total g (dequeued s) = g (BGWorkCompaction None) + total g (l1 ++ l2)) as Ht
    by (intros g; by rewrite Hl, total_middle).
  pose proof (total_nonneg is_auto (l1 ++ l2) is_auto_nonneg) as Hn.
  pose proof (total_nonneg is_compaction (l1 ++ l2) is_compaction_nonneg) as Hn'.
  apply start_compaction_inv in I;
    [|unfold left_compaction; rewrite Ht; cbn; pose proof (sv_leaked _ S); lia].
  unfold BackgroundCallCompaction_begin in E. set (s0 := (db s) <| jobs ::= _ |>) in *.
  assert (mild (db s) s0) as M0 by (by split).
  assert (cov_c s0 = cov_c (db s) /\ cov_f s0 = cov_f (db s)) as [C0 C0'] by done.
  destruct (BackgroundCompaction_begin None pick s0) as [r1 d1] eqn:E1.
  assert (db_inv d1 (compaction_holders r1 (holders s)) (left_flush s) (left_compaction s)
      (Z.of_nat (length (running_flushes s))) (Z.of_nat (length (running_compactions s)) + 1) /\
    mild s0 d1 /\ (forall m c, r1 = CompactionRunning m c -> m = None) /\
    (ok (bg_status (ctl s0)) = true -> cov_c d1 = cov_c s0 - 1) /\
    cov_c s0 - 1 <= cov_c d1 /\ cov_f d1 = cov_f s0) as (I1 & M1 & Hm & C1 & C2 & C3).
  { unfold BackgroundCompaction_begin in E1.
    destruct (ok (bg_status (ctl s0))) eqn:Es; cbn [negb] in E1.
    - eapply BackgroundCompaction_auto_spec in E1 as (I1 & M1 & Hm & C1 & C2);
        [|exact I|rewrite C0, Ht in *; cbn in *; lia|exact Hv].
      split_and!; try done; lia.
    - injection E1 as <- <-. split_and!; try done; lia. }
  assert (r1 = r /\ quiet d1 d /\ db_inv d (compaction_holders r (holders s)) (left_flush s)
      (left_compaction s) (Z.of_nat (length (running_flushes s)))
      (Z.of_nat (length (running_compactions s)) + 1)) as (-> & Q2 & I2).
  { destruct r1; injection E as <- <-; [done|]. split; [done|].
    destruct (signal_error_keeps _ _ _ _ _ _ I1 s1). done. }
  assert (mild (db s) d) as M by (etransitivity; [exact M0|]; etransitivity; [exact M1|by apply quiet_mild]).
  apply (sys_inv_mild s); try done; try apply S; cbn.
  - eapply db_inv_eq; [exact I2|..]; unfold left_flush, left_compaction; cbn; rewrite ?Ht; cbn; try lia.
    intros i. destruct r as [m [c|]|]; cbn [compaction_holders]; rewrite ?eq1_add;
      unfold holders, pend; cbn; rewrite (mild_job_holds _ _ i M), (mild_total_holds _ _ i _ M), Ht; cbn; lia.
  - intros m. destruct r as [m' c|]; cbn; [|done]. by rewrite (Hm _ _ eq_refl).
  - unfold covered. cbn. rewrite (q_covc _ _ Q2), (q_covf _ _ Q2). rewrite !Ht in Hc1. cbn in Hc1.
    split; [lia|]. intros Hok. apply (mild_status _ _ M) in Hok. destruct (Hc2 Hok) as [Hc3 Hc4].
    rewrite !Ht in Hc3, Hc4. cbn in Hc3, Hc4. specialize (C1 Hok). lia.
Qed.

(** Replacing the control state: only the options matter to [db_inv]. *)
Lemma db_inv_ctl d h fl co rf rc c :
  db_inv d h fl co rf rc -> limits_ok c -> db_inv (d <| ctl := c |>) h fl co rf rc.
Proof. intros [] Hc. by split. Qed.

(** The control state but for the manual compactions. *)
Definition ctl_rest (c : Control) :=
  (opened_successfully_ c, shutting_down_ c, bg_work_paused_ c, bg_compaction_paused_ c,
   (max_background_flushes c, max_background_compactions c, max_background_jobs c)).

Lemma upd_manual_rest m f c : ctl_rest (upd_manual m f c) = ctl_rest c.
Proof. by destruct c. Qed.

Lemma ctl_rest_limits c c' : ctl_rest c' = ctl_rest c -> limits_ok c -> limits_ok c'.
Proof. unfold ctl_rest, limits_ok. intros E. by injection E as _ _ _ _ -> -> ->. Qed.

Lemma pause_inv_ext s s' :
  pause_inv s -> ctl_rest (ctl (db s')) = ctl_rest (ctl (db s)) ->
  pausing_work s' = pausing_work s -> pausing_compaction s' = pausing_compaction s ->
  paused_compaction s' = paused_compaction s -> residue s' = residue s -> pause_inv s'.
Proof.
  intros [] E E1 E2 E3 E4. unfold ctl_rest in E. injection E as _ _ Ew Ec _ _ _.
  split; rewrite ?Ew, ?Ec, ?E1, ?E2, ?E3, ?E4; done.
Qed.

(** The column family of a manual compaction never changes. *)
Lemma upd_manual_pinned m f d id :
  (forall x, m_cfd (f x) = m_cfd x) ->
  pinned (d <| ctl ::= upd_manual m f |>) id -> pinned d id.
Proof.
  intros Hf [H|(m' & x & Hx & Hid)]; [by left|]. right. revert Hx.
  unfold upd_manual, ctl_assert. destruct d as [F J C], C; cbn. rewrite lookup_alter.
  case_decide as E; [subst|]; intros Hx; [|by exists m', x].
  apply fmap_Some in Hx as (x0 & Hx0 & ->). exists m', x0. by rewrite <- Hf.
Qed.

(** A job of a manual compaction that a thread has taken. *)
Lemma dequeued_manual s l1 l2 m :
  sys_inv s -> dequeued s = l1 ++ BGWorkCompaction (Some m) :: l2 ->
  exists x k, callers s !! m = Some true /\ manuals (ctl (db s)) !! m = Some x /\
    get_manual (ctl (db s)) m = x /\ m_compaction x = Some k /\ m_in_progress x = false /\
    m_done x = false /\ m_incomplete x = false /\
    pend (is_manual m) s = 1 /\ total (runs_manual m) (running_compactions s) = 0.
Proof.
  intros S Hl.
  assert (1 <= pend (is_manual m) s) as Hp.
  { unfold pend. rewrite Hl, total_middle. cbn. rewrite decide_True by done.
    pose proof (total_nonneg _ (l1 ++ l2) (is_manual_nonneg m)).
    pose proof (queued_nonneg _ (jobs (db s)) (is_manual_nonneg m)). lia. }
  pose proof (total_nonneg _ (running_compactions s) (runs_manual_nonneg m)) as Hr.
  destruct (manual_queued _ _ _ _ (sv_manual _ S) m ltac:(lia) Hr ltac:(lia))
    as (x & Hc & Hx & Hg & Hph & Hsum).
  inversion Hph as [| H1 H2 H3 H4 E1 E2 E3| |]; subst; try lia.
  destruct H4 as [k Hk]. exists (get_manual (ctl (db s)) m), k. split_and!; done || lia.
Qed.

(** The pending manual jobs and what they hold, when only the flags of manual
    compactions change. *)
Lemma upd_manual_holds m f c id l :
  is_Some (manuals c !! m) -> (forall x, m_compaction (f x) = m_compaction x) ->
  total (job_holds (upd_manual m f c) id) l = total (job_holds c id) l.
Proof.
  intros [x Hx] Hf. apply (job_holds_frame _ _ _ m); [intros; by apply get_upd_manual_ne|].
  left. rewrite (get_upd_manual_eq _ _ _ _ Hx), Hf. unfold get_manual. by rewrite Hx.
Qed.

Lemma upd_manual_core m f c c' :
  ctl_core c' = ctl_core c -> ctl_core (upd_manual m f c') = ctl_core (upd_manual m f c).
Proof.
  unfold ctl_core. intros E. injection E as E1 E2 E3 E4 E5 E6 E7 E8 E9 E10 E11.
  unfold upd_manual, ctl_assert. destruct c, c'; cbn in *. by subst.
Qed.

Lemma ctl_core_rest c c' : ctl_core c' = ctl_core c -> ctl_rest c' = ctl_rest c.
Proof.
  unfold ctl_core, ctl_rest. intros E. injection E as E1 E2 E3 E4 E5 E6 E7 E8 E9 E10 E11. congruence.
Qed.

(** ** Steps that change one manual compaction

    The handler changes the manual compaction [m] by [f]; the rest is mild. *)
Lemma sys_inv_manual s s' m f b b' x :
  sys_inv s -> callers s !! m = Some b -> manuals (ctl (db s)) !! m = Some x ->
  (forall x, m_cfd (f x) = m_cfd x) ->
  mild ((db s) <| ctl ::= upd_manual m f |>) (db s') ->
  callers s' = <[m := b']> (callers s) -> external_refs s' = external_refs s ->
  pausing_work s' = pausing_work s -> pausing_compaction s' = pausing_compaction s ->
  paused_compaction s' = paused_compaction s -> residue s' = residue s ->
  db_inv (db s') (holders s') (left_flush s') (left_compaction s')
    (Z.of_nat (length (running_flushes s'))) (Z.of_nat (length (running_compactions s'))) ->
  manual_phase (f x) b' (queued (is_manual m) (jobs (db s)) + total (is_manual m) (dequeued s'))
    (total (runs_manual m) (running_compactions s')) ->
  (forall m', m' <> m ->
    total (is_manual m') (dequeued s') = total (is_manual m') (dequeued s) /\
    total (runs_manual m') (running_compactions s') =
    total (runs_manual m') (running_compactions s)) ->
  0 <= leaked s' -> covered s' -> sys_inv s'.
Proof.
  intros S Hc Hx Hf M Ec Ee E1 E2 E3 E4 Hdb Hph Ho Hlk Hcov.
  pose proof (mi_ctl _ _ M) as Ecore.
  assert (ctl_rest (ctl (db s')) = ctl_rest (ctl (db s))) as Erest.
  { rewrite (ctl_core_rest _ _ Ecore). apply upd_manual_rest. }
  split; try done.
  - rewrite Ec. eapply manual_inv_ext; [exact Ecore|reflexivity|reflexivity|].
    eapply (manual_inv_upd _ _ _ _ (sv_manual _ S)); [exact Hc|exact Hx| |].
    + unfold pend. by rewrite (mi_queued _ _ M) by apply is_manual_weight.
    + intros m' Hne. destruct (Ho m' Hne) as [Hd Hr]. split; [|done].
      unfold pend. by rewrite (mi_queued _ _ M), Hd by apply is_manual_weight.
  - intros id Hid. rewrite Ee. apply (sv_pinned _ S), (upd_manual_pinned m f _ id); [done|].
    by apply (mild_pinned _ _ id M).
  - eapply pause_inv_ext; [apply S|done..].
  - intros Hw. assert (0 < bg_work_paused_ (ctl (db s))) as Hw'.
    { unfold ctl_rest in Erest. injection Erest as _ _ Ew _ _ _ _. by rewrite <- Ew. }
    rewrite (mi_paused _ _ M) by done. by apply S.
Qed.

(** What the pending jobs hold after such a step that keeps the compaction. *)
Lemma manual_pend_holds s d' m f id l :
  is_Some (manuals (ctl (db s)) !! m) -> (forall x, m_compaction (f x) = m_compaction x) ->
  mild ((db s) <| ctl ::= upd_manual m f |>) d' ->
  queued (job_holds (ctl d') id) (jobs d') + total (job_holds (ctl d') id) l =
  queued (job_holds (ctl (db s)) id) (jobs (db s)) + total (job_holds (ctl (db s)) id) l.
Proof.
  intros Hx Hf M. rewrite (mild_job_holds _ _ id M), (mild_total_holds _ _ id l M).
  unfold queued. cbn -[upd_manual]. by rewrite !upd_manual_holds.
Qed.

(** The job starts: it holds the compaction it was given. *)
Section ManualBegin.
Context (s : Sys) (l1 l2 : list Job) (m : nat).
Hypothesis (S : sys_inv s).
Hypothesis (Hl : dequeued s = l1 ++ BGWorkCompaction (Some m) :: l2).

Let started : DBImpl :=
  (db s) <| jobs ::= fun j => (jobs_assert (negb (bg_compaction_scheduled_ j =? 0)) j)
    <| num_running_compactions_ ::= Z.succ |> |>.

Lemma manual_total g :
  total g (dequeued s) = g (BGWorkCompaction (Some m)) + total g (l1 ++ l2).
Proof. by rewrite Hl, total_middle. Qed.

Lemma manual_started_inv f :
  db_inv (started <| ctl ::= upd_manual m f |>) (holders s) (left_flush s) (left_compaction s)
    (Z.of_nat (length (running_flushes s))) (Z.of_nat (length (running_compactions s)) + 1).
Proof.
  pose proof (total_nonneg is_compaction (l1 ++ l2) is_compaction_nonneg).
  pose proof (sv_leaked _ S).
  apply db_inv_ctl.
  - apply start_compaction_inv; [apply S|]. unfold left_compaction. rewrite manual_total. cbn. lia.
  - eapply ctl_rest_limits; [apply upd_manual_rest|]. apply (sv_db _ S).
Qed.

Lemma manual_covered s' :
  quiet (db s) (db s') \/ (cov_c (db s') = cov_c (db s) /\ cov_f (db s') = cov_f (db s) /\
    (ok (bg_status (ctl (db s'))) = true -> ok (bg_status (ctl (db s))) = true)) ->
  dequeued s' = l1 ++ l2 -> covered s'.
Proof.
  intros H Ed. destruct (sv_covered _ S) as [Hc1 Hc2]. rewrite !manual_total in Hc1. cbn in Hc1.
  assert (cov_c (db s') = cov_c (db s) /\ cov_f (db s') = cov_f (db s) /\
    (ok (bg_status (ctl (db s'))) = true -> ok (bg_status (ctl (db s))) = true)) as (E1 & E2 & E3).
  { destruct H as [Q|H]; [|done]. split_and!; [apply Q|apply Q|].
    apply mild_status. by apply quiet_mild. }
  unfold covered. rewrite Ed, E1, E2. split; [exact Hc1|]. intros Hok. destruct (Hc2 (E3 Hok)) as [Hc3 Hc4].
  rewrite !manual_total in Hc3, Hc4. split; [exact Hc3|exact Hc4].
Qed.

Lemma manual_run_inv k :
  m_compaction (get_manual (ctl (db s)) m) = Some k ->
  sys_inv (s <| db := started <| ctl ::= upd_manual m (fun x => x <| m_in_progress := true |>) |> |>
             <| dequeued := l1 ++ l2 |>
             <| running_compactions ::= cons (CompactionRunning (Some m) (Some k)) |>).
Proof.
  intros Hk0.
  destruct (dequeued_manual _ _ _ _ S Hl) as (x & k' & Hc & Hx & Hg & Hk & Hip & Hd & Hi & Hp & Hr).
  rewrite Hg, Hk in Hk0. injection Hk0 as ->. set (f := fun x : ManualCompaction => _).
  assert (mild ((db s) <| ctl ::= upd_manual m f |>) (started <| ctl ::= upd_manual m f |>)) as M
    by (by split).
  eapply (sys_inv_manual s _ m f true true x); try done; cbn -[upd_manual f].
  - by rewrite insert_id.
  - eapply db_inv_eq; [apply manual_started_inv|..]; unfold left_flush, left_compaction;
      cbn; rewrite ?manual_total; cbn; try lia.
    intros i. unfold holders, pend. cbn -[upd_manual f started].
    pose proof (manual_pend_holds s _ m f i (l1 ++ l2) ltac:(by rewrite Hx) ltac:(done) M) as E.
    cbn -[upd_manual f] in E. rewrite manual_total. cbn. rewrite Hg, Hk. lia.
  - unfold pend in Hp. rewrite manual_total in Hp. cbn in Hp. rewrite decide_True in * by done.
    match goal with |- manual_phase _ _ ?a ?b => replace a with 0 by lia; replace b with 1 by lia end.
    by constructor.
  - intros m' Hne. rewrite manual_total. cbn. by rewrite !decide_False by congruence.
  - apply S.
  - by apply manual_covered; [right|].
Qed.

(** With an error pending, it releases that compaction and reports. *)
Lemma manual_fail_inv k st b :
  m_compaction (get_manual (ctl (db s)) m) = Some k ->
  sys_inv (s <| db := signal_error st (started
                 <| ctl ::= upd_manual m (fun x =>
                      x <| m_status := st |> <| m_done := true |> <| m_in_progress := false |>) |>
                 <| fams ::= Unref_delete (c_cfd k) |>) |>
             <| dequeued := l1 ++ l2 |>
             <| running_compactions ::= cons (CompactionReturned st b) |>).
Proof.
  intros Hk0. pose proof (holders_parts s (c_cfd k)) as Hparts.
  destruct (dequeued_manual _ _ _ _ S Hl) as (x & k' & Hc & Hx & Hg & Hk & Hip & Hd & Hi & Hp & Hr).
  rewrite Hg, Hk in Hk0. injection Hk0 as ->. set (f := fun x : ManualCompaction => _).
  assert (1 <= pend (job_holds (ctl (db s)) (c_cfd k)) s) as Hh.
  { unfold pend. rewrite manual_total. cbn. rewrite Hg, Hk, eq1_same.
    pose proof (total_nonneg _ (l1 ++ l2) (job_holds_nonneg (ctl (db s)) (c_cfd k))).
    pose proof (queued_nonneg _ (jobs (db s)) (job_holds_nonneg (ctl (db s)) (c_cfd k))). lia. }
  destruct (Unref_delete_keeps _ _ _ _ _ _ (manual_started_inv f) (c_cfd k)) as [I2 Q2];
    [unfold holders; lia|apply (pinned_spare s (c_cfd k) 1 S); unfold holders; lia|].
  destruct (signal_error_keeps _ _ _ _ _ _ I2 st) as [I3 Q3].
  set (s2 := started <| ctl ::= upd_manual m f |>) in *. set (d := signal_error st _) in *.
  assert (quiet s2 d) as Q by (by etransitivity).
  assert (mild ((db s) <| ctl ::= upd_manual m f |>) d) as M.
  { transitivity s2; [by split|by apply quiet_mild]. }
  eapply (sys_inv_manual s _ m f true true x); try done; cbn -[upd_manual f].
  - by rewrite insert_id.
  - eapply db_inv_eq; [exact I3|..]; unfold left_flush, left_compaction;
      cbn; rewrite ?manual_total; cbn; try lia.
    intros i. rewrite eq1_sub. unfold holders, pend. cbn -[upd_manual f d].
    pose proof (manual_pend_holds s _ m f i (l1 ++ l2) ltac:(by rewrite Hx) ltac:(done) M) as E.
    rewrite manual_total. cbn. rewrite Hg, Hk. cbn -[upd_manual f d] in E. lia.
  - unfold pend in Hp. rewrite manual_total in Hp. cbn in Hp. rewrite decide_True in * by done.
    match goal with |- manual_phase _ _ ?a ?b => replace a with 0 by lia; replace b with 0 by lia end.
    constructor; cbn; [done|by left].
  - intros m' Hne. rewrite manual_total. cbn. by rewrite !decide_False by congruence.
  - apply S.
  - apply manual_covered; [right|done]. cbn [db set]. rewrite (q_covc _ _ Q), (q_covf _ _ Q).
    split_and!; try done. intros Hok. by apply (mild_status _ _ (quiet_mild _ _ Q)) in Hok.
Qed.

End ManualBegin.

Lemma compaction_begin_inv s l1 l2 m pick r d :
  sys_inv s -> dequeued s = l1 ++ BGWorkCompaction m :: l2 ->
  (forall k v, pick = Some (k, v) -> view_ok v) ->
  BackgroundCallCompaction_begin m pick (db s) = (r, d) ->
  sys_inv (s <| db := d |> <| dequeued := l1 ++ l2 |> <| running_compactions ::= cons r |>).
Proof.
  intros S Hl Hv E. destruct m as [m|]; [|by eapply compaction_begin_auto_inv].
  destruct (dequeued_manual _ _ _ _ S Hl) as (x & k & _ & Hx & Hg & Hk & _).
  unfold BackgroundCallCompaction_begin, BackgroundCompaction_begin in E.
  set (s0 := (db s) <| jobs ::= _ |>) in *.
  change (ctl s0) with (ctl (db s)) in E. rewrite Hg, Hk in E. cbn [release_compaction] in E.
  destruct (ok (bg_status (ctl (db s)))) eqn:Es; cbn [negb] in E.
  - unfold BackgroundCompaction_manual in E.
    set (s1 := s0 <| ctl ::= upd_manual m (fun x => x <| m_in_progress := true |>) |>) in *.
    assert (m_compaction (get_manual (ctl s1) m) = Some k) as Ek.
    { change (ctl s1) with (upd_manual m (fun x => x <| m_in_progress := true |>) (ctl (db s))).
      rewrite (get_upd_manual_eq _ _ _ _ Hx). done. }
    rewrite Ek in E. injection E as <- <-. apply manual_run_inv; [done..|]. by rewrite Hg.
  - injection E as <- <-. apply manual_fail_inv; [done..|]. by rewrite Hg.
Qed.

(** The part of [BackgroundCompaction_end] before the manual compaction is
    updated. *)
Lemma compaction_body_keeps s b m c st v err l1 l2 :
  sys_inv s -> running_compactions s = l1 ++ CompactionRunning m c :: l2 -> view_ok v ->
  exists h, keeps (db s) h (left_flush s) (left_compaction s)
    (Z.of_nat (length (running_flushes s))) (Z.of_nat (length (running_compactions s)))
    (compaction_error st err (BackgroundCompaction_body b c st v (db s))) /\
  forall i, h i = holders s i - compaction_holds i (CompactionRunning m c).
Proof.
  intros S Hl Hv. pose proof (sv_db _ S) as I. destruct c as [c|].
  - pose proof (holders_parts s (c_cfd c)) as Hp.
    assert (1 <= total (compaction_holds (c_cfd c)) (running_compactions s)) as Hf.
    { rewrite Hl, total_middle. cbn. rewrite eq1_same.
      pose proof (total_nonneg _ (l1 ++ l2) (compaction_holds_nonneg (c_cfd c))). lia. }
    destruct (BackgroundCompaction_body_keeps _ _ _ _ _ _ b c st v I) as [I1 Q1]; [..|done|].
    + unfold holders. lia.
    + apply (pinned_spare s (c_cfd c) 1 S); unfold holders; lia.
    + destruct (compaction_error_keeps _ _ _ _ _ _ I1 st err) as [I2 Q2].
      eexists. split; [split; [exact I2|by etransitivity]|]. intros i. by rewrite eq1_sub.
  - destruct (compaction_error_keeps _ _ _ _ _ _ I st err) as [I2 Q2].
    eexists. split; [by split|]. intros i. cbn. lia.
Qed.

Lemma running_manual s l1 l2 m c :
  sys_inv s -> running_compactions s = l1 ++ CompactionRunning (Some m) c :: l2 ->
  exists x, callers s !! m = Some true /\ manuals (ctl (db s)) !! m = Some x /\
    m_in_progress x = true /\ m_done x = false /\ m_incomplete x = false /\
    pend (is_manual m) s = 0 /\ total (runs_manual m) (running_compactions s) = 1.
Proof.
  intros S Hl.
  assert (1 <= total (runs_manual m) (running_compactions s)) as Hr.
  { rewrite Hl, total_middle. cbn. rewrite decide_True by done.
    pose proof (total_nonneg _ (l1 ++ l2) (runs_manual_nonneg m)). lia. }
  pose proof (pend_nonneg (is_manual m) s (is_manual_nonneg m)) as Hp.
  destruct (manual_queued _ _ _ _ (sv_manual _ S) m Hp ltac:(lia) ltac:(lia))
    as (x & Hc & Hx & Hg & Hph & Hsum).
  exists x. inversion Hph as [| | H1 H2 H3 H4 E1 E2 E3|]; subst; try lia. split_and!; done || lia.
Qed.

Lemma manual_tail_phase st x : manual_phase (manual_tail st x) true 0 0.
Proof.
  unfold manual_tail. destruct (ok st); cbn.
  - destruct (m_manual_end_null x); cbn; [constructor; cbn; auto|].
    destruct (m_done x) eqn:E; cbn; constructor; cbn; auto.
  - destruct (m_manual_end_null x); cbn; constructor; cbn; auto.
Qed.

Lemma manual_tail_frame st x :
  m_cfd (manual_tail st x) = m_cfd x /\ m_compaction (manual_tail st x) = m_compaction x.
Proof. unfold manual_tail. split_ifs; done. Qed.

Lemma compaction_work_inv s l1 l2 m c st v err r d :
  sys_inv s -> running_compactions s = l1 ++ CompactionRunning m c :: l2 -> view_ok v ->
  BackgroundCompaction_end m c st v err (db s) = (r, d) ->
  sys_inv (s <| db := d |> <| running_compactions := l1 ++ r :: l2 |>).
Proof.
  intros S Hl Hv E. unfold BackgroundCompaction_end in E.
  set (b := match m with Some m => _ | None => false end) in E.
  destruct (compaction_body_keeps s b m c st v err l1 l2 S Hl Hv) as (h & [I Q] & Hh).
  set (d1 := compaction_error st err _) in *. injection E as <- <-.
  assert (Z.of_nat (length (running_compactions s)) = Z.of_nat (length (l1 ++ l2)) + 1) as Hlen
    by (rewrite Hl, !length_app; cbn; lia).
  destruct m as [m|]; cbv iota beta.
  - destruct (running_manual _ _ _ _ _ S Hl) as (x & Hc & Hx & Hip & Hd & Hi & Hp & Hr).
    assert (db_inv (d1 <| ctl ::= upd_manual m (manual_tail st) |>) h (left_flush s)
      (left_compaction s) (Z.of_nat (length (running_flushes s)))
      (Z.of_nat (length (running_compactions s)))) as I2.
    { apply db_inv_ctl; [done|]. eapply ctl_rest_limits; [apply upd_manual_rest|apply I]. }
    destruct (signal_error_keeps _ _ _ _ _ _ I2 st) as [I3 Q3].
    set (d2 := d1 <| ctl ::= _ |>) in *. set (d3 := signal_error st d2) in *.
    assert (mild ((db s) <| ctl ::= upd_manual m (manual_tail st) |>) d3) as M.
    { transitivity d2; [|by apply quiet_mild]. destruct Q. split; cbn -[upd_manual]; try done.
      by apply upd_manual_core. }
    change (sys_inv (s <| db := d3 |> <| running_compactions := l1 ++ CompactionReturned st
      (match c with Some _ => true | None => false end) :: l2 |>)).
    clearbody d3. eapply (sys_inv_manual s _ m (manual_tail st) true true x); try done; cbn -[upd_manual].
    + intros x'. apply manual_tail_frame.
    + by rewrite insert_id.
    + eapply db_inv_eq; [exact I3|..]; unfold left_flush, left_compaction;
        cbn; try done; rewrite ?Hl, ?length_app; cbn; try lia.
      intros i. rewrite Hh. unfold holders, pend. cbn -[upd_manual].
      pose proof (manual_pend_holds s _ m (manual_tail st) i (dequeued s) ltac:(by rewrite Hx)
        ltac:(intros; apply manual_tail_frame) M) as E.
      rewrite Hl, !total_middle. cbn in *. lia.
    + unfold pend in Hp. rewrite Hl, total_middle in Hr. cbn in Hr. rewrite decide_True in Hr by done.
      rewrite total_middle. cbn.
      match goal with |- manual_phase _ _ ?a ?b => replace a with 0 by lia; replace b with 0 by lia end.
      apply manual_tail_phase.
    + intros m' Hne. split; [done|]. rewrite Hl, !total_middle. cbn.
      by rewrite decide_False by congruence.
    + apply S.
    + destruct (sv_covered _ S) as [Hc1 Hc2]. unfold covered. cbn [db dequeued set].
      rewrite (q_covc _ _ Q3), (q_covf _ _ Q3).
      change (cov_c d2) with (cov_c d1). change (cov_f d2) with (cov_f d1).
      rewrite (q_covc _ _ Q), (q_covf _ _ Q). split; [done|]. intros Hok.
      apply (mild_status _ _ (quiet_mild _ _ Q3)) in Hok.
      apply Hc2. by apply (mild_status _ _ (quiet_mild _ _ Q)).
  - destruct (signal_error_keeps _ _ _ _ _ _ I st) as [I3 Q3].
    apply (sys_inv_quiet s _ h); try done; try apply S; cbn.
    + by etransitivity.
    + intros m. rewrite Hl, !total_middle. done.
    + eapply db_inv_eq; [exact I3|..]; unfold left_flush, left_compaction; cbn; try done;
        rewrite Hl, !length_app; cbn; lia.
    + intros i. rewrite Hh, Hl, !total_middle. cbn. lia.
Qed.

Lemma compaction_end_inv s l1 l2 st b :
  sys_inv s -> running_compactions s = l1 ++ CompactionReturned st b :: l2 ->
  sys_inv (s <| db ::= BackgroundCallCompaction_end b |> <| running_compactions := l1 ++ l2 |>).
Proof.
  intros S Hl. pose proof (sv_db _ S) as I. pose proof (sv_leaked _ S).
  assert (Z.of_nat (length (running_compactions s)) = Z.of_nat (length (l1 ++ l2)) + 1) as Hlen
    by (rewrite Hl, !length_app; cbn; lia).
  pose proof (total_nonneg is_compaction (dequeued s) is_compaction_nonneg).
  destruct (BackgroundCallCompaction_end_spec _ _ _ _ _ _ b I) as [I1 Q1];
    [unfold left_compaction; lia|lia|].
  apply (sys_inv_quiet s _ (holders s)); try done; try apply S; cbn -[BackgroundCallCompaction_end].
  - intros m. by rewrite Hl, total_middle.
  - eapply db_inv_eq; [exact I1|..]; unfold left_flush, left_compaction; cbn; try done; lia.
  - intros i. rewrite Hl, total_middle. cbn. lia.
Qed.

(** ** The pools *)

Lemma set_pool_queued pri p j g :
  queued g (set_pool pri p j) =
  queued g j - total g (jobs_of (get_pool pri j)) + total g (jobs_of p).
Proof. unfold queued. destruct pri; cbn; lia. Qed.

Lemma set_pool_frame pri p j :
  unscheduled_flushes_ (set_pool pri p j) = unscheduled_flushes_ j /\
  unscheduled_compactions_ (set_pool pri p j) = unscheduled_compactions_ j /\
  bg_flush_scheduled_ (set_pool pri p j) = bg_flush_scheduled_ j /\
  bg_compaction_scheduled_ (set_pool pri p j) = bg_compaction_scheduled_ j /\
  num_running_flushes_ (set_pool pri p j) = num_running_flushes_ j /\
  num_running_compactions_ (set_pool pri p j) = num_running_compactions_ j /\
  jobs_ok (set_pool pri p j) = jobs_ok j.
Proof. by destruct pri. Qed.

(** Replacing a pool by one that lost the job [f], if any, to a thread. *)
Lemma set_pool_inv pri p j fl co rf rc k :
  jobs_inv j fl co rf rc -> pool_up p ->
  (forall g, total g (jobs_of (get_pool pri j)) = total g k + total g (jobs_of p)) ->
  (pri = HIGH -> foreign_jobs p < 2 ^ 30) ->
  jobs_inv (set_pool pri p j) (fl + total is_flush k) (co + total is_compaction k) rf rc.
Proof.
  intros J Hp Ht Hfo. destruct (set_pool_frame pri p j) as (E1 & E2 & E3 & E4 & E5 & E6 & E7).
  pose proof (total_nonneg is_flush k is_flush_nonneg).
  pose proof (total_nonneg is_compaction k is_compaction_nonneg).
  pose proof (Ht is_flush). pose proof (Ht is_compaction).
  destruct J. split; rewrite ?set_pool_queued, ?E1, ?E2, ?E3, ?E4, ?E5, ?E6, ?E7; try done; try lia.
  - intros pri'. specialize (ji_up pri'). by destruct pri, pri'.
  - destruct pri; cbn in *; lia.
  - destruct pri; cbn in *; auto.
Qed.

Lemma jobs_of_app p p' it :
  queue_ p = it :: queue_ p' ->
  jobs_of p = (if decide (this_tag = item_tag it) then [item_function it] else []) ++ jobs_of p' /\
  foreign_jobs p = (if decide (this_tag = item_tag it) then 0 else 1) + foreign_jobs p'.
Proof.
  intros E. unfold jobs_of, foreign_jobs. rewrite E. unfold with_tag. rewrite filter_cons.
  cbn [total]. by case_decide.
Qed.

(** A pool step: the jobs [k] move from the pool to the threads. *)
Lemma pool_step_inv s pri p k :
  sys_inv s -> pool_up p ->
  (forall g, total g (jobs_of (get_pool pri (jobs (db s)))) = total g k + total g (jobs_of p)) ->
  (pri = HIGH -> foreign_jobs p < 2 ^ 30) ->
  sys_inv (s <| db ::= fun d => d <| jobs ::= set_pool pri p |> |> <| dequeued ::= app k |>).
Proof.
  intros S Hp Ht Hfo. pose proof (sv_db _ S) as [If Ij Id Il].
  destruct (set_pool_frame pri p (jobs (db s))) as (E1 & E2 & E3 & _ & _ & _ & _).
  assert (forall g, pend g (s <| db ::= fun d => d <| jobs ::= set_pool pri p |> |>
    <| dequeued ::= app k |>) = pend g s) as Hpend.
  { intros g. unfold pend. cbn [db dequeued jobs set]. rewrite set_pool_queued, Ht, total_app. lia. }
  assert (forall i, holders s i = holders (s <| db ::= fun d => d <| jobs ::= set_pool pri p |> |>
    <| dequeued ::= app k |>) i) as Hh.
  { intros i. unfold holders. rewrite Hpend. done. }
  split.
  - split; try done.
    + by eapply fam_inv_ext.
    + pose proof (set_pool_inv _ _ _ _ _ _ _ k Ij Hp Ht Hfo) as J.
      unfold left_flush, left_compaction. cbn [db dequeued running_flushes running_compactions
        compact_files leaked jobs set] in *.
      rewrite !total_app. unfold left_flush, left_compaction in J.
      by replace (total is_flush k + _ + _) with
        (total is_flush (dequeued s) + Z.of_nat (length (running_flushes s)) + total is_flush k) by lia;
      replace (total is_compaction k + _ + _ + _ + _) with
        (total is_compaction (dequeued s) + Z.of_nat (length (running_compactions s)) +
         Z.of_nat (length (compact_files s)) + leaked s + total is_compaction k) by lia.
    + by rewrite <- Hh.
  - eapply manual_inv_ext; [done| |done|apply S]. intros m. apply Hpend.
  - apply S.
  - destruct (sv_pause _ S). by split.
  - intros Hw. cbn [db jobs set]. rewrite E3. by apply S.
  - apply S.
  - destruct (sv_covered _ S) as [Hc1 Hc2]. unfold covered, cov_c, cov_f.
    cbn [db dequeued jobs fams ctl set]. rewrite !set_pool_queued, !Ht, !total_app, E1, E2.
    unfold cov_c, cov_f in *. split; [lia|]. intros Hok. specialize (Hc2 Hok). lia.
Qed.

Lemma pool_keep_inv s pri p :
  sys_inv s -> pool_up p -> jobs_of p = jobs_of (get_pool pri (jobs (db s))) ->
  (pri = HIGH -> foreign_jobs p < 2 ^ 30) ->
  sys_inv (s <| db ::= fun d => d <| jobs ::= set_pool pri p |> |>).
Proof. intros S Hp E Hf. apply (pool_step_inv s pri p []); try done. intros g. by rewrite E. Qed.

Lemma sys_pool_up s pri : sys_inv s -> pool_up (get_pool pri (jobs (db s))).
Proof. intros S. apply (sv_db _ S). Qed.

Lemma sys_foreign s : sys_inv s -> foreign_jobs (pool_high (jobs (db s))) < 2 ^ 30.
Proof. intros S. apply (sv_db _ S). Qed.

Lemma thread_inv s pri i f p' it rest :
  sys_inv s -> BGThread_iter i (get_pool pri (jobs (db s))) = ThreadRun f p' ->
  queue_ (get_pool pri (jobs (db s))) = it :: rest ->
  sys_inv (s <| db ::= fun d => d <| jobs ::= set_pool pri p' |> |>
             <| dequeued ::= fun l => if decide (this_tag = item_tag it) then f :: l else l |>).
Proof.
  intros S E Hq. destruct (sys_pool_up s pri S) as [Hx Hok].
  pose proof (pool_step_ok (EvThread i) _ Hok) as Hok'. pose proof (pool_step_exit (EvThread i) _ Hx) as Hx'.
  cbn [pool_step] in Hok', Hx'. rewrite E in Hok', Hx'. cbn [fst] in Hok', Hx'.
  apply BGThread_iter_run in E as (it' & rest' & Hq' & -> & Ep). rewrite Hq in Hq'. injection Hq' as <- <-.
  assert (queue_ p' = rest) as Hr by (rewrite Ep; by destruct (get_pool pri (jobs (db s)))).
  destruct (jobs_of_app (get_pool pri (jobs (db s))) p' it) as [Ej Ef]; [by rewrite Hr|].
  assert (sys_inv (s <| db ::= fun d => d <| jobs ::= set_pool pri p' |> |>
    <| dequeued ::= app (if decide (this_tag = item_tag it) then [item_function it] else []) |>)).
  { apply pool_step_inv; try done.
    - intros g. by rewrite Ej, total_app.
    - intros ->. pose proof (sys_foreign s S) as Hf. cbn in Ef. case_decide; lia. }
  by destruct (decide (this_tag = item_tag it)).
Qed.

(** ** Flags, options and pauses *)

Definition rest (s : Sys) :=
  (dequeued s, running_flushes s, running_compactions s, compact_files s, leaked s,
   callers s, external_refs s).

Lemma sys_inv_flags s s' c :
  sys_inv s -> db s' = (db s) <| ctl := c |> -> rest s' = rest s ->
  (manual_compaction_dequeue_ c, manuals c, ctl_ok c) =
    (manual_compaction_dequeue_ (ctl (db s)), manuals (ctl (db s)), ctl_ok (ctl (db s))) ->
  limits_ok c -> (ok (bg_status c) = true -> ok (bg_status (ctl (db s))) = true) ->
  pause_inv s' -> (0 < bg_work_paused_ c -> bg_flush_scheduled_ (jobs (db s)) = 0) ->
  sys_inv s'.
Proof.
  intros S Ed Er Ec Hl Hst Hp Hn. unfold rest in Er. injection Er as R1 R2 R3 R4 R5 R6 R7.
  injection Ec as C1 C2 C3.
  assert (forall f, job_holds c f = job_holds (ctl (db s)) f) as Ej
    by (intros f; unfold job_holds, get_manual; by rewrite C2).
  assert (forall i, holders s i = holders s' i) as Hh.
  { intros i. unfold holders, pend. rewrite Ed, R1, R2, R3, R4, R7. cbn [ctl jobs set]. by rewrite Ej. }
  split; try done.
  - eapply db_inv_eq; [rewrite Ed; apply db_inv_ctl; [apply S|exact Hl]|exact Hh|..];
      unfold left_flush, left_compaction; congruence.
  - destruct (sv_manual _ S) as [M1 M2 M3 M4]. rewrite Ed, R6.
    split; cbn [ctl set]; rewrite ?C1, ?C2, ?C3; try done.
    intros m. unfold pend. rewrite Ed, R1, R3. apply M4.
  - intros id. rewrite Ed, R7. intros Hpin. apply (sv_pinned _ S). unfold pinned in *.
    cbn [ctl fams set] in Hpin. by rewrite C2 in Hpin.
  - by rewrite Ed.
  - rewrite R5. apply S.
  - destruct (sv_covered _ S) as [Hc1 Hc2]. unfold covered. rewrite Ed, R1.
    split; [exact Hc1|]. intros Hok. apply (Hc2 (Hst Hok)).
Qed.

Lemma MaybeSchedule_sys s : sys_inv s -> sys_inv (s <| db ::= MaybeScheduleFlushOrCompaction |>).
Proof. intros S. apply sys_inv_keeps; [done|]. apply MaybeSchedule_keeps, S. Qed.

Lemma limits_sys s : sys_inv s -> limits_ok (ctl (db s)).
Proof. intros S. apply (sv_db _ S). Qed.

(** The flags change and nothing else; what is left is what they mean. *)
Ltac flags S :=
  eapply (sys_inv_flags _ _ _ S); try done; try apply (limits_sys _ S); try apply S.

Lemma ingest_inv s n :
  sys_inv s ->
  sys_inv (s <| db ::= fun d => d <| ctl ::= fun c => c <| num_running_ingest_file_ := n |> |> |>).
Proof.
  intros S. flags S.
  by destruct (sv_pause _ S).
Qed.

Lemma opened_inv s :
  sys_inv s ->
  sys_inv (s <| db ::= fun d => MaybeScheduleFlushOrCompaction
    (d <| ctl ::= fun c => c <| opened_successfully_ := true |> |>) |>).
Proof.
  intros S.
  assert (sys_inv (s <| db ::= fun d => d <| ctl ::= fun c => c <| opened_successfully_ := true |> |> |>))
    as S1 by (flags S; by destruct (sv_pause _ S)).
  exact (MaybeSchedule_sys _ S1).
Qed.

Lemma options_inv s mbc mbj :
  sys_inv s -> is_int mbc -> is_int mbj ->
  sys_inv (s <| db ::= fun d => MaybeScheduleFlushOrCompaction
    (d <| ctl ::= fun c => c <| max_background_compactions := mbc |>
                             <| max_background_jobs := mbj |> |>) |>).
Proof.
  intros S H1 H2.
  assert (sys_inv (s <| db ::= fun d => d <| ctl ::= fun c =>
    c <| max_background_compactions := mbc |> <| max_background_jobs := mbj |> |> |>)) as S1.
  { flags S.
    - destruct (limits_sys s S) as (H & _ & _). by split_and!.
    - by destruct (sv_pause _ S). }
  exact (MaybeSchedule_sys _ S1).
Qed.

Lemma shutdown_inv s : sys_inv s -> sys_inv (s <| db ::= CancelAllBackgroundWork |>).
Proof.
  intros S.
  assert (sys_inv (s <| db ::= fun d => d <| ctl ::= fun c => c <| shutting_down_ := true |> |> |>)) as S1.
  { flags S.
    - unfold bg_status. cbn. destruct (ok (bg_error_ (ctl (db s)))) eqn:E; cbn; [done|congruence].
    - by destruct (sv_pause _ S). }
  apply (sys_inv_keeps _ _ S1). apply SignalAll_keeps, S1.
Qed.

Lemma pause_work_begin_inv s :
  sys_inv s -> sys_inv (s <| db ::= PauseBackgroundWork_begin |> <| pausing_work ::= Z.succ |>).
Proof.
  intros S. flags S.
  destruct (sv_pause _ S). split; cbn in *; lia.
Qed.

Lemma pause_work_end_inv s :
  sys_inv s -> 0 < pausing_work s -> PauseBackgroundWork_wait (db s) = false ->
  sys_inv (s <| db ::= fun d => snd (PauseBackgroundWork_end d) |> <| pausing_work ::= Z.pred |>).
Proof.
  intros S Hp Hw. unfold PauseBackgroundWork_wait in Hw. bprop.
  flags S.
  - destruct (sv_pause _ S). split; cbn in *; lia.
  - intros _. pose proof (sv_db _ S) as [_ Ij _ _].
    pose proof (queued_nonneg is_flush (jobs (db s)) is_flush_nonneg).
    pose proof (ji_bf _ _ _ _ _ Ij). pose proof (ji_fl _ _ _ _ _ Ij). lia.
Qed.

Lemma continue_work_inv s :
  sys_inv s -> sys_inv (s <| db ::= fun d => snd (ContinueBackgroundWork d) |>).
Proof.
  intros S. destruct (sv_pause _ S) as [P1 P2 P3 P4 P5 P6]. unfold ContinueBackgroundWork.
  destruct (Z.eqb_spec (bg_work_paused_ (ctl (db s))) 0) as [E|E].
  { change (sys_inv (s <| db ::= fun d => snd (ContinueBackgroundWork d) |>)).
    replace (s <| db ::= _ |>) with s; [done|]. destruct s; cbn in *.
    unfold ContinueBackgroundWork. cbn. by rewrite E. }
  set (c := (ctl (db s)) <| bg_compaction_paused_ ::= Z.pred |> <| bg_work_paused_ ::= Z.pred |>).
  assert (sys_inv (s <| db ::= fun d => d <| ctl := c |> |>)) as S1.
  { flags S.
    - split; cbn in *; lia.
    - cbn. intros H. apply S. lia. }
  assert ((db s) <| ctl ::= fun c0 => (ctl_assert (bg_compaction_paused_ c0 >? 0)
    (ctl_assert (bg_work_paused_ c0 >? 0) c0)) <| bg_compaction_paused_ ::= Z.pred |>
      <| bg_work_paused_ ::= Z.pred |> |> = (db s) <| ctl := c |>) as Ec.
  { cbn [set ctl fams jobs]. rewrite (ctl_assert_true (bg_work_paused_ (ctl (db s)) >? 0)) by lia.
    rewrite ctl_assert_true by lia. done. }
  assert (snd (ContinueBackgroundWork (db s)) =
    if bg_work_paused_ c =? 0 then MaybeScheduleFlushOrCompaction ((db s) <| ctl := c |>)
    else (db s) <| ctl := c |>) as Er.
  { unfold ContinueBackgroundWork. rewrite Ec.
    destruct (bg_work_paused_ (ctl (db s)) =? 0) eqn:E0; [lia|]. done. }
  assert (sys_inv (s <| db := snd (ContinueBackgroundWork (db s)) |>)) as S2; [|exact S2].
  rewrite Er. destruct (bg_work_paused_ c =? 0); [by apply MaybeSchedule_sys in S1|done].
Qed.

Lemma pause_compaction_begin_inv s :
  sys_inv s ->
  sys_inv (s <| db ::= PauseCompactionWork_begin |> <| pausing_compaction ::= Z.succ |>).
Proof.
  intros S. flags S.
  destruct (sv_pause _ S). split; cbn in *; lia.
Qed.

Lemma pause_compaction_end_inv s :
  sys_inv s -> 0 < pausing_compaction s ->
  sys_inv (s <| db ::= fun d => snd (PauseCompactionWork_end d) |>
             <| pausing_compaction ::= Z.pred |> <| paused_compaction ::= Z.succ |>).
Proof.
  intros S Hp. flags S.
  destruct (sv_pause _ S). split; cbn in *; lia.
Qed.

(** With the counter at two or more, continuing only lowers it. *)
Lemma ContinueCompactionWork_lowers d :
  2 <= bg_compaction_paused_ (ctl d) ->
  snd (ContinueCompactionWork d) = d <| ctl ::= fun c => c <| bg_compaction_paused_ ::= Z.pred |> |>.
Proof.
  intros H. unfold ContinueCompactionWork.
  destruct (bg_compaction_paused_ (ctl d) =? 0) eqn:E0; [lia|].
  cbn [set ctl fams jobs]. rewrite ctl_assert_true by lia. cbn [snd bg_compaction_paused_].
  destruct (Z.pred (bg_compaction_paused_ (ctl d)) =? 0) eqn:E1; [|done].
  exfalso. apply Z.eqb_eq in E1. lia.
Qed.

Lemma continue_compaction_inv s :
  sys_inv s -> 0 < paused_compaction s ->
  sys_inv (s <| db ::= fun d => snd (ContinueCompactionWork d) |>
             <| paused_compaction ::= Z.pred |> <| residue ::= Z.succ |>).
Proof.
  intros S Hp. destruct (sv_pause _ S) as [P1 P2 P3 P4 P5 P6].
  assert (sys_inv (s <| db := snd (ContinueCompactionWork (db s)) |>
    <| paused_compaction ::= Z.pred |> <| residue ::= Z.succ |>)) as S2; [|exact S2].
  rewrite ContinueCompactionWork_lowers by lia. flags S. split; cbn in *; lia.
Qed.

(** ** Column families *)

Lemma create_inv s id v :
  sys_inv s -> cfds (fams (db s)) !! id = None -> view_ok v ->
  sys_inv (s <| db ::= fun d => d <| fams ::= fun F =>
               F <| cfds ::= insert id (mkCFD 1 false false false v) |> |> |>
             <| external_refs ::= cons id |>).
Proof.
  intros S Hn Hv. pose proof (sv_db _ S) as I.
  assert (fam_inv ((fams (db s)) <| cfds ::= insert id (mkCFD 1 false false false v) |>)
    (add_holder 1 id (holders s))) as HF.
  { pose proof (di_fams _ _ _ _ _ _ I) as If. pose proof (fi_cell _ _ If id) as Hc.
    rewrite Hn in Hc. cbn in Hc.
    eapply (fam_inv_frame _ _ _ _ id If); try apply If.
    - intros i Hi. cbn. rewrite lookup_insert_ne, add_holder_other by done. done.
    - cbn. rewrite lookup_insert_eq, add_holder_same. cbn. intuition lia. }
  destruct (fams_keeps (db s) _ _ _ _ _ I
    ((fams (db s)) <| cfds ::= insert id (mkCFD 1 false false false v) |>) _ ltac:(done) HF) as [I1 Q1].
  { unfold add_holder. pose proof (di_default _ _ _ _ _ _ I). case_decide; lia. }
  apply (sys_inv_quiet s _ (add_holder 1 id (holders s))); try done; try apply S; cbn.
  - intros i Hi. apply elem_of_cons. right. by apply S.
  - intros i. rewrite eq1_add. lia.
Qed.

Lemma ref_inv s id :
  sys_inv s -> id ∈ external_refs s ->
  sys_inv (s <| db ::= fun d => d <| fams ::= Ref id |> |> <| external_refs ::= cons id |>).
Proof.
  intros S Hid. pose proof (sv_db _ S) as I.
  destruct (Ref_keeps _ _ _ _ _ _ I id) as [I1 Q1]; [eapply held; [exact I|by apply ext_holders]|].
  apply (sys_inv_quiet s _ (add_holder 1 id (holders s))); try done; try apply S; cbn.
  - intros i Hi. apply elem_of_cons. right. by apply S.
  - intros i. rewrite eq1_add. lia.
Qed.

Lemma unref_inv s id l1 l2 :
  sys_inv s -> external_refs s = l1 ++ id :: l2 -> (pinned (db s) id -> id ∈ l1 ++ l2) ->
  sys_inv (s <| db ::= fun d => d <| fams ::= Unref_delete id |> |> <| external_refs := l1 ++ l2 |>).
Proof.
  intros S Hl Hpin. pose proof (sv_db _ S) as I. pose proof (holders_parts s id) as Hp.
  assert (total (eq1 id) (external_refs s) = 1 + total (eq1 id) (l1 ++ l2)) as Ht
    by (by rewrite Hl, total_middle, eq1_same).
  pose proof (total_nonneg _ (l1 ++ l2) (eq1_nonneg id)).
  destruct (Unref_delete_keeps _ _ _ _ _ _ I id) as [I1 Q1].
  - unfold holders. lia.
  - intros Hd. assert (id ∈ l1 ++ l2) as Hin by (apply Hpin; by left).
    pose proof (total_pos (eq1 id) _ _ (eq1_nonneg id) Hin) as Hp'. rewrite eq1_same in Hp'.
    unfold holders. lia.
  - apply (sys_inv_quiet s _ (add_holder (-1) id (holders s))); try done; try apply S; cbn -[Unref_delete].
    + intros i Hi. pose proof (sv_pinned _ S i Hi) as Hin. rewrite Hl in Hin.
      destruct (decide (i = id)) as [->|Hne]; [by apply Hpin|set_solver].
    + intros i. rewrite eq1_sub, Hl, total_middle. lia.
Qed.

Lemma drop_inv s id :
  sys_inv s -> id ∈ external_refs s ->
  sys_inv (s <| db ::= fun d => d <| fams ::= upd_cfd id (fun c => c <| dropped_ := true |>) |> |>).
Proof.
  intros S Hid. pose proof (sv_db _ S) as I. apply sys_inv_keeps; [done|].
  eapply fams_keeps; [exact I|apply upd_cfd_queues| |apply I].
  apply upd_cfd_inv; [apply I| |done]. eapply held; [exact I|by apply ext_holders].
Qed.

(** ** CompactFiles *)

Lemma compact_files_begin_inv s id d :
  sys_inv s -> id ∈ external_refs s -> CompactFilesImpl_begin id None true (db s) = (None, d) ->
  sys_inv (s <| db := d |> <| compact_files ::= cons id |>).
Proof.
  intros S Hid E. pose proof (sv_db _ S) as I. unfold CompactFilesImpl_begin in E.
  destruct (shutting_down_ (ctl (db s))); [done|]. injection E as <-.
  pose proof (ji_co _ _ _ _ _ (di_jobs _ _ _ _ _ _ I)).
  destruct (count_compaction_keeps _ _ _ _ _ _ 1 I ltac:(lia)) as [I1 Q1].
  destruct (Ref_keeps _ _ _ _ _ _ I1 id) as [I2 Q2]; [eapply held; [exact I1|by apply ext_holders]|].
  apply (sys_inv_quiet s _ (add_holder 1 id (holders s))); try done; try apply S.
  - eapply db_inv_eq; [exact I2|..]; unfold left_flush, left_compaction; cbn; try done; lia.
  - intros i. rewrite eq1_add. cbn. lia.
Qed.

Lemma compact_files_abort_inv s id e d :
  sys_inv s -> shutting_down_ (ctl (db s)) = false ->
  CompactFilesImpl_begin id None false (db s) = (Some e, d) ->
  sys_inv (s <| db := d |> <| leaked ::= Z.succ |>).
Proof.
  intros S Hs E. pose proof (sv_db _ S) as I. unfold CompactFilesImpl_begin in E.
  rewrite Hs in E. cbn [negb] in E. injection E as _ <-. pose proof (sv_leaked _ S).
  pose proof (ji_co _ _ _ _ _ (di_jobs _ _ _ _ _ _ I)).
  destruct (count_compaction_keeps _ _ _ _ _ _ 1 I ltac:(lia)) as [I1 Q1].
  apply (sys_inv_quiet s _ (holders s)); try done; try apply S; cbn; try lia.
  eapply db_inv_eq; [exact I1|..]; unfold left_flush, left_compaction; cbn; try done; lia.
Qed.

Lemma compact_files_end_inv s id l1 l2 st v err :
  sys_inv s -> compact_files s = l1 ++ id :: l2 -> view_ok v ->
  sys_inv (s <| db ::= CompactFilesImpl_end id st v err |> <| compact_files := l1 ++ l2 |>).
Proof.
  intros S Hl Hv. pose proof (sv_db _ S) as I. pose proof (holders_parts s id) as Hp.
  pose proof (sv_leaked _ S).
  assert (total (eq1 id) (compact_files s) = 1 + total (eq1 id) (l1 ++ l2)) as Ht
    by (by rewrite Hl, total_middle, eq1_same).
  pose proof (total_nonneg _ (l1 ++ l2) (eq1_nonneg id)).
  assert (Z.of_nat (length (compact_files s)) = Z.of_nat (length (l1 ++ l2)) + 1) as Hlen
    by (rewrite Hl, !length_app; cbn; lia).
  pose proof (total_nonneg is_compaction (dequeued s) is_compaction_nonneg).
  destruct (CompactFilesImpl_end_spec _ _ _ _ _ _ id st v err I) as [I1 Q1]; [..|done|].
  - unfold left_compaction. lia.
  - unfold holders. lia.
  - apply (pinned_spare s id 1 S); unfold holders; lia.
  - apply (sys_inv_quiet s _ (add_holder (-1) id (holders s))); try done; try apply S;
      cbn -[CompactFilesImpl_end].
    + eapply db_inv_eq; [exact I1|..]; unfold left_flush, left_compaction; cbn; try done; lia.
    + intros i. rewrite eq1_sub, Hl, total_middle. lia.
Qed.

(** ** Calls of RunManualCompaction *)

(** The control state and the set of callers change together. *)
Lemma sys_inv_calls s s' c :
  sys_inv s -> db s' = (db s) <| ctl := c |> ->
  (dequeued s', running_flushes s', running_compactions s', compact_files s', leaked s',
   external_refs s') =
  (dequeued s, running_flushes s, running_compactions s, compact_files s, leaked s,
   external_refs s) ->
  (pausing_work s', pausing_compaction s', paused_compaction s', residue s') =
  (pausing_work s, pausing_compaction s, paused_compaction s, residue s) ->
  ctl_rest c = ctl_rest (ctl (db s)) -> bg_error_ c = bg_error_ (ctl (db s)) ->
  (forall i, pend (job_holds c i) s = pend (job_holds (ctl (db s)) i) s) ->
  manual_inv c (callers s') (fun m => pend (is_manual m) s)
    (fun m => total (runs_manual m) (running_compactions s)) ->
  (forall id, pinned ((db s) <| ctl := c |>) id -> id ∈ external_refs s) -> sys_inv s'.
Proof.
  intros S Ed Er Ep Ec Ee Hpend Hm Hpin. injection Er as R1 R2 R3 R4 R5 R6.
  injection Ep as P1 P2 P3 P4.
  assert (forall i, holders s i = holders s' i) as Hh.
  { intros i. unfold holders. specialize (Hpend i). unfold pend in *.
    rewrite Ed, R1, R2, R3, R4, R6. cbn [ctl jobs set]. lia. }
  pose proof Ec as Ec'. unfold ctl_rest in Ec'. injection Ec' as _ Es Ew _ _ _ _.
  split.
  - eapply db_inv_eq; [rewrite Ed; apply db_inv_ctl; [apply S|]|exact Hh|..];
      [eapply ctl_rest_limits; [exact Ec|apply (limits_sys _ S)]|..];
      unfold left_flush, left_compaction; congruence.
  - rewrite Ed. eapply manual_inv_ext; [reflexivity| | |exact Hm]; intros m.
    + unfold pend. by rewrite Ed, R1.
    + by rewrite R3.
  - intros id. rewrite Ed, R6. apply Hpin.
  - eapply pause_inv_ext; [apply S|by rewrite Ed|done..].
  - rewrite Ed. cbn [ctl jobs set]. rewrite Ew. apply S.
  - rewrite R5. apply S.
  - destruct (sv_covered _ S) as [Hc1 Hc2]. unfold covered. rewrite Ed, R1.
    split; [exact Hc1|]. intros Hok. apply Hc2. revert Hok. unfold bg_status.
    cbn [ctl set]. by rewrite Ee, Es.
Qed.

Lemma manual_idle_pend s m :
  sys_inv s -> callers s !! m = None ->
  manuals (ctl (db s)) !! m = None /\ queued (is_manual m) (jobs (db s)) = 0 /\
  total (is_manual m) (dequeued s) = 0 /\ total (runs_manual m) (running_compactions s) = 0.
Proof.
  intros S Hm. pose proof (mv_cell _ _ _ _ (sv_manual _ S) m) as Hc. rewrite Hm in Hc. cbn in Hc.
  destruct (manuals (ctl (db s)) !! m); [done|]. destruct Hc as [Hp Hr]. unfold pend in Hp.
  pose proof (queued_nonneg _ (jobs (db s)) (is_manual_nonneg m)).
  pose proof (total_nonneg _ (dequeued s) (is_manual_nonneg m)). split_and!; done || lia.
Qed.

(** What pending jobs hold does not depend on a manual compaction without jobs. *)
Lemma pend_holds_frame s c m i :
  (forall m', m' <> m -> get_manual c m' = get_manual (ctl (db s)) m') ->
  pend (is_manual m) s = 0 -> pend (job_holds c i) s = pend (job_holds (ctl (db s)) i) s.
Proof.
  intros Ho Hz. unfold pend, queued in *.
  pose proof (total_nonneg _ (jobs_of (pool_high (jobs (db s)))) (is_manual_nonneg m)).
  pose proof (total_nonneg _ (jobs_of (pool_low (jobs (db s)))) (is_manual_nonneg m)).
  pose proof (total_nonneg _ (dequeued s) (is_manual_nonneg m)).
  rewrite !(job_holds_frame _ _ i m _ Ho); [done|right; lia..].
Qed.

Lemma manual_begin_inv s m id excl dis :
  sys_inv s -> callers s !! m = None -> id ∈ external_refs s ->
  sys_inv (s <| db ::= RunManualCompaction_begin m id excl dis |> <| callers ::= insert m false |>).
Proof.
  intros S Hm Hid. destruct (manual_idle_pend _ _ S Hm) as (Hn & Hq & Hd & Hr).
  set (x := mkManual id OK false false false excl dis false None).
  set (c := AddManualCompaction m ((ctl (db s)) <| manuals ::= insert m x |>)).
  destruct (sv_manual _ S) as [M1 M2 M3 M4].
  assert (m ∉ manual_compaction_dequeue_ (ctl (db s))) as Hni
    by (rewrite M3, Hm; intros [? ?]; done).
  eapply (sys_inv_calls s _ c); try done.
  - intros i. apply (pend_holds_frame s c m i); [|unfold pend; lia].
    intros m' Hne. unfold get_manual, c. cbn. by rewrite lookup_insert_ne.
  - split; cbn.
    + done.
    + apply NoDup_app. split_and!; [done| |apply NoDup_singleton].
      intros m' Hin ->%list_elem_of_singleton. done.
    + intros m'. rewrite elem_of_app, M3, list_elem_of_singleton.
      destruct (decide (m = m')) as [<-|Hne].
      * rewrite lookup_insert_eq. split; eauto.
      * rewrite lookup_insert_ne by done. split; [|by left]. intros [?| ->]; done.
    + intros m'. destruct (decide (m = m')) as [<-|Hne].
      * rewrite !lookup_insert_eq. unfold pend. rewrite Hq, Hd, Hr. by constructor.
      * rewrite !lookup_insert_ne by done. apply M4.
  - intros i [Hi|(m' & y & Hy & <-)]; [apply S; by left|]. cbn in Hy.
    destruct (decide (m = m')) as [<-|Hne].
    + rewrite lookup_insert_eq in Hy. by injection Hy as <-.
    + rewrite lookup_insert_ne in Hy by done. apply S. right. by exists m', y.
Qed.

Lemma manual_end_inv s m b :
  sys_inv s -> callers s !! m = Some b -> m_done (get_manual (ctl (db s)) m) = true ->
  sys_inv (s <| db ::= fun d => snd (RunManualCompaction_end m d) |> <| callers ::= delete m |>).
Proof.
  intros S Hm Hdone.
  destruct (manual_caller _ _ _ _ (sv_manual _ S) m b Hm) as (x & Hx & Hg & Hph).
  rewrite Hg in Hdone.
  assert (m_in_progress x = false /\ pend (is_manual m) s = 0 /\
    total (runs_manual m) (running_compactions s) = 0) as (Hip & Hp & Hr).
  { inversion Hph; subst; try congruence; done. }
  destruct (sv_manual _ S) as [M1 M2 M3 M4].
  destruct (remove_first_spec m _ M2) as (q & Eq & Hnd & Hq); [apply M3; eauto|].
  assert (snd (RunManualCompaction_end m (db s)) = (db s) <| ctl := (ctl (db s))
    <| manual_compaction_dequeue_ := q |> <| bg_cv_signals ::= Datatypes.S |> <| manuals ::= delete m |> |>) as E.
  { unfold RunManualCompaction_end. cbn [snd set ctl SignalAll fams jobs].
    rewrite Hg, Hip, (ctl_assert_true (negb false)) by done.
    rewrite (ctl_assert_true (HasPendingManualCompaction _))
      by (by eapply manual_pending; [apply S|]).
    unfold RemoveManualCompaction. rewrite Eq. done. }
  eapply (sys_inv_calls s _ ((ctl (db s)) <| manual_compaction_dequeue_ := q |>
    <| bg_cv_signals ::= Datatypes.S |> <| manuals ::= delete m |>)); try done.
  - intros i. apply (pend_holds_frame s _ m i); [|done].
    intros m' Hne. unfold get_manual. cbn. by rewrite lookup_delete_ne.
  - split; cbn; try done.
    + intros m'. rewrite Hq, M3. destruct (decide (m = m')) as [<-|Hne].
      * rewrite lookup_delete_eq. split; [tauto|]. by intros [? ?].
      * rewrite lookup_delete_ne by done. naive_solver.
    + intros m'. destruct (decide (m = m')) as [<-|Hne].
      * by rewrite !lookup_delete_eq.
      * rewrite !lookup_delete_ne by done. apply M4.
  - intros i [Hi|(m' & y & Hy & <-)]; [apply S; by left|]. cbn in Hy.
    apply lookup_delete_Some in Hy as [_ Hy]. apply S. right. by exists m', y.
Qed.

Lemma callers_same s m b : callers s !! m = Some b -> s <| callers ::= insert m b |> = s.
Proof. intros H. destruct s; cbn in *. by rewrite insert_id. Qed.

Lemma upd_manual_compose m f g c :
  upd_manual m g (upd_manual m f c) = upd_manual m (fun x => g (f x)) c.
Proof.
  unfold upd_manual, ctl_assert. destruct c; cbn. f_equal.
  - apply map_eq. intros i. rewrite !lookup_alter. repeat case_decide; try done.
    subst. by destruct (manuals !! _).
  - rewrite <- andb_assoc. f_equal. rewrite lookup_alter_eq.
    by destruct (manuals !! m).
Qed.

(** Only the flags of a call without jobs change. *)
Lemma idle_upd_inv s m f b b' :
  sys_inv s -> callers s !! m = Some b -> pend (is_manual m) s = 0 ->
  (forall x, m_cfd (f x) = m_cfd x) ->
  (forall x, manual_phase x b 0 0 -> manual_phase (f x) b' 0 0) ->
  total (runs_manual m) (running_compactions s) = 0 ->
  sys_inv (s <| db ::= fun d => d <| ctl ::= upd_manual m f |> |> <| callers ::= insert m b' |>).
Proof.
  intros S Hm Hp Hf Hph Hr.
  destruct (manual_caller _ _ _ _ (sv_manual _ S) m b Hm) as (x & Hx & Hg & Hx').
  cbn beta in Hx'. rewrite Hp, Hr in Hx'.
  eapply (sys_inv_calls s _ (upd_manual m f (ctl (db s)))); try done.
  - intros i. apply (pend_holds_frame s _ m i); [|done]. intros m' Hne. by apply get_upd_manual_ne.
  - eapply (manual_inv_upd _ _ _ _ (sv_manual _ S)); [done|done| |done].
    cbn beta. rewrite Hp, Hr. by apply Hph.
  - intros i Hi. apply S. exact (upd_manual_pinned m f (db s) i Hf Hi).
Qed.

Lemma manual_wake_inv s m b b' d :
  sys_inv s -> callers s !! m = Some b -> RunManualCompaction_wake m b (db s) = (b', d) ->
  sys_inv (s <| db := d |> <| callers ::= insert m b' |>).
Proof.
  intros S Hm E. unfold RunManualCompaction_wake in E.
  destruct (manual_caller _ _ _ _ (sv_manual _ S) m b Hm) as (x & Hx & Hg & Hph).
  destruct (b && m_incomplete (get_manual (ctl (db s)) m)) eqn:Eb.
  - bprop. subst b. injection E as <- Ed. rewrite Hg in H0.
    assert (m_in_progress x = false /\ pend (is_manual m) s = 0 /\
      total (runs_manual m) (running_compactions s) = 0) as (Hip & Hp & Hr)
      by (inversion Hph; subst; try congruence; done).
    set (f := fun x : ManualCompaction => x <| m_incomplete := false |>).
    assert (sys_inv (s <| db ::= fun d => d <| ctl ::= upd_manual m f |> |>
      <| callers ::= insert m false |>)) as S1.
    { apply (idle_upd_inv s m f true false); try done.
      intros y Hy. constructor. by inversion Hy. }
    assert ((db s) <| ctl ::= upd_manual m f |> = d) as <-; [|exact S1].
    rewrite <- Ed. cbn [set fams jobs ctl]. by rewrite Hg, Hip, ctl_assert_true.
  - injection E as <- <-. assert (s <| db := db s |> = s) as -> by (by destruct s).
    by rewrite callers_same.
Qed.

(** A fresh compaction is scheduled for a waiting call. *)
Lemma manual_schedule_inv s m kind end_null :
  let id := m_cfd (get_manual (ctl (db s)) m) in
  let f := fun x => (x <| m_compaction := Some (mkCompaction id kind) |>
                       <| m_manual_end_null := end_null |>) <| m_incomplete := false |> in
  sys_inv s -> callers s !! m = Some false -> m_done (get_manual (ctl (db s)) m) = false ->
  sys_inv (s <| db := ((db s) <| ctl ::= upd_manual m f |> <| fams ::= Ref id |>)
                 <| jobs ::= fun j =>
                      env_Schedule (BGWorkCompaction (Some m)) LOW (Some (Some m))
                        (j <| bg_compaction_scheduled_ ::= Z.succ |>) |> |>
             <| callers ::= insert m true |>).
Proof.
  cbn zeta. intros S Hm Hdone.
  destruct (manual_caller _ _ _ _ (sv_manual _ S) m false Hm) as (x & Hx & Hg & Hph).
  rewrite Hg in *. set (id := m_cfd x).
  assert (m_in_progress x = false /\ pend (is_manual m) s = 0 /\
    total (runs_manual m) (running_compactions s) = 0) as (Hip & Hp & Hr)
    by (inversion Hph; subst; done).
  set (f := fun x : ManualCompaction => _ : ManualCompaction).
  assert (id ∈ external_refs s) as Hid by (apply S; right; by exists m, x).
  pose proof (sv_db _ S) as I.
  assert (db_inv ((db s) <| ctl ::= upd_manual m f |>) (holders s) (left_flush s) (left_compaction s)
    (Z.of_nat (length (running_flushes s))) (Z.of_nat (length (running_compactions s)))) as I1.
  { apply db_inv_ctl; [done|]. eapply ctl_rest_limits; [apply upd_manual_rest|apply I]. }
  destruct (Ref_keeps _ _ _ _ _ _ I1 id) as [I2 Q2]; [eapply held; [exact I1|by apply ext_holders]|].
  destruct (schedule_manual_spec _ _ _ _ _ _ m I2) as (I3 & C1 & C2 & C3 & Hq).
  set (d := (_ <| fams ::= Ref id |>) <| jobs ::= _ |>) in *.
  assert (Ec : ctl d = upd_manual m f (ctl (db s))) by done.
  assert (Hq' : forall g, queued g (jobs d) = queued g (jobs (db s)) + g (BGWorkCompaction (Some m)))
    by (intros g; apply Hq).
  assert (Hh : forall i, pend (job_holds (ctl (db s)) i) s =
    queued (job_holds (ctl d) i) (jobs (db s)) + total (job_holds (ctl d) i) (dequeued s)).
  { intros i. rewrite Ec. symmetry. apply (pend_holds_frame s _ m i); [|done].
    intros m' Hne. by apply get_upd_manual_ne. }
  assert (Hk : forall i, job_holds (ctl d) i (BGWorkCompaction (Some m)) = eq1 i id).
  { intros i. cbn [job_holds]. rewrite Ec, (get_upd_manual_eq _ _ _ _ Hx). done. }
  assert (Ed : default_cf (fams d) = default_cf (fams (db s))) by done.
  clearbody d. split; cbn [db dequeued running_flushes running_compactions compact_files leaked
    callers external_refs set].
  - eapply db_inv_eq; [exact I3|..]; try done. intros i. rewrite eq1_add.
    unfold holders at 1. rewrite Hh. unfold holders, pend.
    cbn [db dequeued running_flushes running_compactions compact_files external_refs set].
    rewrite Hq', Hk. lia.
  - rewrite Ec. eapply (manual_inv_upd _ _ _ _ (sv_manual _ S)); [done|done|..].
    + unfold pend in *. cbn [db dequeued set]. rewrite Hq', Hr. cbn [is_manual].
      rewrite decide_True by done. replace (_ + 1 + _) with 1 by lia.
      by constructor.
    + intros m' Hne. unfold pend. cbn [db dequeued set]. rewrite Hq'. cbn [is_manual].
      rewrite decide_False by congruence. lia.
  - intros i [Hi|(m' & y & Hy & <-)].
    + apply S. left. by rewrite Hi.
    + rewrite Ec in Hy. apply S, (upd_manual_pinned m f (db s) _ ltac:(done)). right. by exists m', y.
  - eapply pause_inv_ext; [apply S|..]; try done. cbn [db set]. rewrite Ec. apply upd_manual_rest.
  - rewrite Ec, C3. intros Hw. rewrite (q_paused _ _ Q2) by done. apply S. done.
  - apply S.
  - destruct (sv_covered _ S) as [Hc1 Hc2]. unfold covered. cbn [db dequeued set].
    rewrite C1, C2, (q_covc _ _ Q2), (q_covf _ _ Q2), Ec. done.
Qed.

Lemma manual_iter_inv s m b range b' d :
  sys_inv s -> callers s !! m = Some b -> m_done (get_manual (ctl (db s)) m) = false ->
  (snd (fst range) = true -> 0 < bg_compaction_scheduled_ (jobs (db s))) ->
  RunManualCompaction_iter m b range (db s) = (b', d) ->
  sys_inv (s <| db := d |> <| callers ::= insert m b' |>).
Proof.
  intros S Hm Hdone Hconf E. unfold RunManualCompaction_iter in E.
  assert ((db s) <| ctl ::= fun c => ctl_assert (HasPendingManualCompaction c) c |> = db s) as Ea.
  { cbn [set ctl]. rewrite ctl_assert_true by (by eapply manual_pending; [apply S|]).
    by destruct (db s). }
  rewrite Ea in E. clear Ea. unfold manual_blocked in E.
  destruct (manual_caller _ _ _ _ (sv_manual _ S) m b Hm) as (x & Hx & Hg & Hph).
  destruct (ShouldntRunManualCompaction m (db s) || m_in_progress (get_manual (ctl (db s)) m) || b) eqn:Eb.
  { injection E as <- <-. assert (s <| db := db s |> = s) as -> by (by destruct s).
    by rewrite callers_same. }
  bprop. subst b. destruct range as [[[kind|] conflict] end_null].
  - injection E as <- <-. pose proof (manual_schedule_inv s m kind end_null S Hm Hdone) as S1.
    cbn [set ctl fams jobs] in *. rewrite upd_manual_compose. exact S1.
  - assert (pend (is_manual m) s = 0 /\ total (runs_manual m) (running_compactions s) = 0)
      as (Hp & Hr) by (inversion Hph; subst; done).
    set (f := fun y : ManualCompaction => y <| m_compaction := None |> <| m_manual_end_null := end_null |>).
    destruct conflict.
    + injection E as <- Ed.
      assert (sys_inv (s <| db ::= fun d => d <| ctl ::= upd_manual m f |> |>
        <| callers ::= insert m false |>)) as S1.
      { apply (idle_upd_inv s m f false false); try done. intros y Hy. constructor. by inversion Hy. }
      assert (m_exclusive x = false) as Hex.
      { unfold ShouldntRunManualCompaction in H. rewrite Hg in H. specialize (Hconf eq_refl).
        destruct (num_running_ingest_file_ (ctl (db s)) >? 0); [done|].
        destruct (m_exclusive x); [lia|done]. }
      assert ((db s) <| ctl ::= upd_manual m f |> = d) as <-; [|exact S1].
      rewrite <- Ed.
      change ((db s) <| ctl := upd_manual m f (ctl (db s)) |> = (db s) <| ctl :=
        ctl_assert (negb (m_exclusive (get_manual (upd_manual m f (ctl (db s))) m)))
          (upd_manual m f (ctl (db s))) |>).
      rewrite (get_upd_manual_eq _ f _ _ Hx), ctl_assert_true; [done|]. cbn. by rewrite Hex.
    + injection E as <- Ed. set (g := fun y : ManualCompaction => (f y) <| m_done := true |>).
      assert (sys_inv (s <| db ::= fun d => d <| ctl ::= upd_manual m g |> |>
        <| callers ::= insert m false |>)) as S1.
      { apply (idle_upd_inv s m g false false); try done. intros y Hy. constructor. by inversion Hy. }
      assert (SignalAll ((db s) <| ctl ::= upd_manual m g |>) = d) as <-.
      { rewrite <- Ed. change (SignalAll ((db s) <| ctl := upd_manual m g (ctl (db s)) |>) =
          SignalAll ((db s) <| ctl := upd_manual m (fun y => y <| m_done := true |>)
            (upd_manual m f (ctl (db s))) |>)).
        by rewrite upd_manual_compose. }
      pose proof (sys_inv_keeps _ _ S1 (SignalAll_keeps _ _ _ _ _ _ (sv_db _ S1))) as S2. exact S2.
Qed.

(** ** Every step preserves the invariant *)

Lemma step_inv s s' : sys_inv s -> step s s' -> sys_inv s'.
Proof.
  intros S H. pose proof (sv_db _ S) as I.
  destruct H; eauto using thread_inv, flush_begin_inv, flush_work_inv, flush_end_inv,
    compaction_begin_inv, compaction_work_inv, compaction_end_inv, ingest_inv, opened_inv,
    options_inv, shutdown_inv, create_inv, ref_inv, unref_inv, drop_inv, pause_work_begin_inv,
    pause_work_end_inv, continue_work_inv, pause_compaction_begin_inv, pause_compaction_end_inv,
    continue_compaction_inv, manual_begin_inv, manual_iter_inv, manual_wake_inv, manual_end_inv,
    compact_files_begin_inv, compact_files_abort_inv, compact_files_end_inv.
  - apply BGThread_iter_exit in H as (Hq & Hx & Hok). destruct (sys_pool_up s pri S) as [U1 U2].
    assert (jobs_of p' = jobs_of (get_pool pri (jobs (db s))) /\
      foreign_jobs p' = foreign_jobs (get_pool pri (jobs (db s)))) as [E1 E2]
      by (unfold jobs_of, foreign_jobs; by rewrite Hq).
    apply pool_keep_inv; try done; [split; [congruence|auto]|].
    intros ->. rewrite E2. by apply sys_foreign.
  - destruct (sys_pool_up s pri S) as [U1 U2].
    destruct (SetBackgroundThreadsInternal_queue n b (get_pool pri (jobs (db s)))) as (Hq & Hx & Hok).
    apply (pool_keep_inv s pri (SetBackgroundThreadsInternal n b (get_pool pri (jobs (db s))))); try done.
    + split; [congruence|auto].
    + unfold jobs_of. by rewrite Hq.
    + intros ->. unfold foreign_jobs. rewrite Hq. by apply sys_foreign.
  - pose proof (sys_pool_up s pri S) as U. destruct (Schedule_other f t u _ U H) as [E1 E2].
    apply (pool_keep_inv s pri (Schedule f t u (get_pool pri (jobs (db s))))); try done.
    + by apply Schedule_up.
    + intros ->. rewrite E2. lia.
  - apply (sys_inv_keeps s _ S), InstallSuperVersion_keeps; [done|by apply ext_holders|done].
  - apply (sys_inv_keeps s _ S), FlushMemTable_schedule_keeps; [done|by apply ext_holders|done].
  - apply (sys_inv_keeps s _ S), refresh_view_keeps; done.
  - apply (sys_inv_keeps s _ S), set_bg_error_keeps; done.
  - assert (sys_inv (s <| db := (db s) <| ctl := (ctl (db s)) <| need_speedup_compaction := b |> |> |>))
      as S1 by (apply (sys_inv_keeps s _ S); by apply ctl_keeps).
    exact S1.
Qed.
