(* ===== verification/SchedulerProps.v ===== *)
(** * Properties of background work

    What holds in every state that can be reached from a freshly created
    database, whatever the interleaving of the threads of the pools, of the
    background jobs and of the client calls. *)

From stdpp Require Import base gmap list relations strings.
From Stdlib Require Import ZArith Lia.
From S2P Require Import Prelude ThreadPool Scheduler SchedulerFam SchedulerJobs SchedulerDb SchedulerInv.
#[local] Open Scope Z_scope.

(** ** Reachable states *)

Record Setup := mkSetup {
  su_view : CFView;
  su_threads_high : Z;
  su_threads_low : Z;
  su_max_background_flushes : Z;
  su_max_background_compactions : Z;
  su_max_background_jobs : Z;
  su_paranoid_checks : bool
}.

Definition setup_ok (u : Setup) : Prop :=
  view_ok (su_view u) /\ 0 <= su_threads_high u /\ 0 <= su_threads_low u /\
  is_int (su_max_background_flushes u) /\ is_int (su_max_background_compactions u) /\
  is_int (su_max_background_jobs u).

(** The database has its default column family, referenced by the handle
    [default_cf_handle_], and is not open yet. *)
Definition init_sys (u : Setup) : Sys :=
  mkSys
    (mkDB
       (mkFamilies {[ 0%nat := mkCFD 1 false false false (su_view u) ]} 0 [] [] true)
       (mkJobs 0 0 0 0 0 0 (example_pool (su_threads_high u)) (example_pool (su_threads_low u)) true)
       (mkControl false false OK 0 0 0 0 [] ∅ (su_max_background_flushes u)
          (su_max_background_compactions u) (su_max_background_jobs u) false
          (su_paranoid_checks u) 0 true))
    [] [] [] [] 0 ∅ [0%nat] 0 0 0 0.

Definition reachable (s : Sys) : Prop := exists u, setup_ok u /\ rtc step (init_sys u) s.

Lemma init_inv u : setup_ok u -> sys_inv (init_sys u).
Proof.
  intros (Hv & H1 & H2 & H3 & H4 & H5). split; cbn.
  - split; cbn.
    + split; cbn; try done; try apply NoDup_nil; try done.
      intros id. unfold holders, pend, queued. cbn. unfold eq1.
      destruct (decide (id = 0%nat)) as [->|Hne].
      * rewrite lookup_singleton_eq, decide_True by done. cbn.
        split_and!; try done; (split; [by intros ?%not_elem_of_nil|done]).
      * rewrite lookup_singleton_ne, decide_False by congruence. cbn.
        split_and!; [apply not_elem_of_nil..|done].
    + split; cbn; try done. intros []; repeat split; cbn; lia.
    + unfold holders, pend, queued. cbn. unfold eq1. by rewrite decide_True.
    + by split_and!.
  - split; cbn; try done; [apply NoDup_nil_2|]. intros m. rewrite lookup_empty.
    split; [by intros ?%not_elem_of_nil|by intros [? ?]].
  - intros id [->|(m & x & Hx & _)]; [by apply list_elem_of_singleton|]. cbn in Hx.
    by rewrite lookup_empty in Hx.
  - split; cbn; lia.
  - lia.
  - lia.
  - unfold covered, cov_c, cov_f, queued. cbn. done.
Qed.

Lemma reachable_inv s : reachable s -> sys_inv s.
Proof.
  intros (u & Hu & H). apply init_inv in Hu. revert Hu.
  induction H; eauto using step_inv.
Qed.

Lemma rtc_step_inv s s' : sys_inv s -> rtc step s s' -> sys_inv s'.
Proof. intros S H. induction H; eauto using step_inv. Qed.

(** ** A run used by the witnesses

    A column family that needs a compaction is installed, the compaction is
    scheduled by SILK into the flush pool, and a thread takes it. *)
Definition busy_view : CFView := mkView true 1 false true 4 false 1024.
Definition example_setup : Setup := mkSetup (mkView false 0 true false 0 false 0) 1 1 (-1) (-1) 4 true.

Lemma example_setup_ok : setup_ok example_setup.
Proof. by repeat split. Qed.

Definition opened_sys : Sys :=
  (init_sys example_setup) <| db ::= fun d => MaybeScheduleFlushOrCompaction
    (d <| ctl ::= fun c => c <| opened_successfully_ := true |> |>) |>.
Definition installed_sys : Sys :=
  opened_sys <| db ::= InstallSuperVersionAndScheduleWork 0 busy_view |>.

Lemma opened_reachable : reachable opened_sys.
Proof.
  exists example_setup. split; [apply example_setup_ok|]. apply rtc_once, step_opened.
Qed.

Lemma installed_reachable : reachable installed_sys.
Proof.
  exists example_setup. split; [apply example_setup_ok|].
  eapply rtc_l; [apply step_opened|]. apply rtc_once, step_install; [|by intros _].
  by apply list_elem_of_singleton.
Qed.

(** ** Properties *)







(** C6: SILK's compactions cannot crowd out the flushes: in every reachable
    state at most two compactions are queued in the flush pool, so a flush waits
    there behind at most two of them. *)
Theorem silk_high_pool_bound (s : Sys) :
  reachable s -> total is_compaction (jobs_of (pool_high (jobs (db s)))) <= 2.
Proof. intros R%reachable_inv. apply (sv_db _ R). Qed.

Lemma silk_high_pool_bound_witness :
  jobs_of (pool_high (jobs (db installed_sys))) = [BGWorkFlush; BGWorkCompaction None] /\
  total is_compaction (jobs_of (pool_high (jobs (db installed_sys)))) <= 2.
Proof.
  split; [vm_compute; reflexivity|]. exact (silk_high_pool_bound installed_sys installed_reachable).
Defined.

(** C8: while [PauseBackgroundWork] is in force no flush is queued, taken or
    running, and none can be scheduled. *)
Theorem paused_work_has_no_flush (s : Sys) :
  reachable s -> 0 < bg_work_paused_ (ctl (db s)) ->
  bg_flush_scheduled_ (jobs (db s)) = 0 /\ pend is_flush s = 0 /\ running_flushes s = [] /\
  MaybeScheduleFlushOrCompaction (db s) = db s.
Proof.
  intros R%reachable_inv Hp. pose proof (sv_noflush _ R Hp) as Hn.
  destruct (sv_db _ R) as [_ Ij _ _]. pose proof (ji_bf _ _ _ _ _ Ij) as Hb.
  unfold left_flush in Hb. pose proof (pend_nonneg is_flush s is_flush_nonneg) as Hpe.
  unfold pend in *. split_and!; try lia.
  - apply nil_length_inv. lia.
  - unfold MaybeScheduleFlushOrCompaction. destruct (opened_successfully_ (ctl (db s))); [|done].
    cbn [negb]. assert ((bg_work_paused_ (ctl (db s)) >? 0) = true) as -> by lia. done.
Qed.

Definition paused_sys : Sys :=
  (opened_sys <| db ::= PauseBackgroundWork_begin |> <| pausing_work ::= Z.succ |>)
    <| db ::= fun d => snd (PauseBackgroundWork_end d) |> <| pausing_work ::= Z.pred |>.

Lemma paused_reachable : reachable paused_sys.
Proof.
  exists example_setup. split; [apply example_setup_ok|].
  eapply rtc_l; [apply step_opened|]. eapply rtc_l; [apply step_pause_work_begin|].
  apply rtc_once. by apply (step_pause_work_end
    (opened_sys <| db ::= PauseBackgroundWork_begin |> <| pausing_work ::= Z.succ |>)).
Qed.

Lemma paused_work_has_no_flush_witness :
  bg_work_paused_ (ctl (db paused_sys)) = 1 /\ bg_flush_scheduled_ (jobs (db paused_sys)) = 0.
Proof.
  split; [reflexivity|].
  refine (proj1 (paused_work_has_no_flush paused_sys paused_reachable _)). reflexivity.
Defined.

(** C20: [PauseCompactionWork] raises [bg_compaction_paused_] twice and
    [ContinueCompactionWork] lowers it once: in every reachable state in which
    each pause has been continued, the counter is the number of
    [ContinueCompactionWork] calls made so far, so after the first of them
    compactions stay paused for good, and the call that continues them never
    schedules anything. *)
Theorem pause_compaction_never_resumes (s : Sys) :
  reachable s ->
  (pausing_work s = 0 -> pausing_compaction s = 0 -> paused_compaction s = 0 ->
   bg_work_paused_ (ctl (db s)) = 0 -> bg_compaction_paused_ (ctl (db s)) = residue s) /\
  (0 < paused_compaction s ->
   let d := snd (ContinueCompactionWork (db s)) in
   0 < bg_compaction_paused_ (ctl d) /\ jobs d = jobs (db s)).
Proof.
  intros R%reachable_inv. destruct (sv_pause _ R) as [P1 P2 P3 P4 P5 P6]. split; [lia|].
  intros Hp. cbn zeta. rewrite ContinueCompactionWork_lowers by lia. split; [|done].
  cbn [ctl bg_compaction_paused_ set]. lia.
Qed.

Definition paused_compaction_sys : Sys :=
  (opened_sys <| db ::= PauseCompactionWork_begin |> <| pausing_compaction ::= Z.succ |>)
    <| db ::= fun d => snd (PauseCompactionWork_end d) |>
    <| pausing_compaction ::= Z.pred |> <| paused_compaction ::= Z.succ |>.

Lemma paused_compaction_reachable : reachable paused_compaction_sys.
Proof.
  exists example_setup. split; [apply example_setup_ok|].
  eapply rtc_l; [apply step_opened|]. eapply rtc_l; [apply step_pause_compaction_begin|].
  apply rtc_once. by apply (step_pause_compaction_end
    (opened_sys <| db ::= PauseCompactionWork_begin |> <| pausing_compaction ::= Z.succ |>)).
Qed.

Lemma pause_compaction_never_resumes_witness :
  let d := snd (ContinueCompactionWork (db paused_compaction_sys)) in
  bg_compaction_paused_ (ctl d) = 1 /\
  0 < bg_compaction_paused_ (ctl d) /\ jobs d = jobs (db paused_compaction_sys).
Proof.
  split; [reflexivity|].
  refine (proj2 (pause_compaction_never_resumes paused_compaction_sys
    paused_compaction_reachable) _). reflexivity.
Defined.

(** Leaks are permanent. *)
Lemma step_leaked s s' : step s s' -> leaked s <= leaked s'.
Proof. intros H. destruct H; cbn; lia. Qed.

Lemma rtc_leaked s s' : rtc step s s' -> leaked s <= leaked s'.
Proof. intros H. induction H as [|? ? ? H%step_leaked _ IH]; lia. Qed.

(** C22: [CompactFiles] returns [Aborted] without undoing its increment of
    [bg_compaction_scheduled_] when the picker refuses the compaction; from then
    on the counter never returns to zero, and every later [PauseBackgroundWork],
    [PauseCompactionWork] and exclusive manual compaction waits forever. *)
Theorem compact_files_leaks_scheduled_count (s s' : Sys) (id : nat) (e : Status) (d : DBImpl) :
  reachable s -> id ∈ external_refs s -> shutting_down_ (ctl (db s)) = false ->
  CompactFilesImpl_begin id None false (db s) = (Some e, d) ->
  rtc step (s <| db := d |> <| leaked ::= Z.succ |>) s' ->
  0 < bg_compaction_scheduled_ (jobs (db s')) /\
  PauseBackgroundWork_wait (db s') = true /\ PauseCompactionWork_wait (db s') = true.
Proof.
  intros R Hid Hs E Hr. pose proof (reachable_inv _ R) as S.
  assert (sys_inv s') as S'.
  { eapply rtc_step_inv; [|exact Hr]. eapply step_inv; [exact S|]. by eapply step_compact_files_abort. }
  pose proof (rtc_leaked _ _ Hr) as Hl. cbn in Hl. pose proof (sv_leaked _ S).
  destruct (sv_db _ S') as [_ Ij _ _]. pose proof (ji_bc _ _ _ _ _ Ij) as Hb.
  pose proof (pend_nonneg is_compaction s' is_compaction_nonneg) as Hp.
  unfold left_compaction, pend in *.
  assert (0 < bg_compaction_scheduled_ (jobs (db s'))) as Hpos by lia.
  split; [done|]. unfold PauseBackgroundWork_wait, PauseCompactionWork_wait.
  assert ((bg_compaction_scheduled_ (jobs (db s')) >? 0) = true) as -> by lia. done.
Qed.

Lemma compact_files_leaks_scheduled_count_witness :
  let r := CompactFilesImpl_begin 0 None false (db opened_sys) in
  fst r = Some (Aborted "Another Level 0 compaction is running"%string) /\
  PauseBackgroundWork_wait (snd r) = true.
Proof.
  split; [reflexivity|].
  refine (proj1 (proj2 (compact_files_leaks_scheduled_count opened_sys
    (opened_sys <| db := snd (CompactFilesImpl_begin 0 None false (db opened_sys)) |> <| leaked ::= Z.succ |>)
    0 (Aborted "Another Level 0 compaction is running"%string) _ opened_reachable _ _ _ _))).
  - by apply list_elem_of_singleton.
  - reflexivity.
  - reflexivity.
  - reflexivity.
Defined.

(** ** The destructor *)

Lemma with_tag_length (p : JobPool) :
  Z.of_nat (length (filter (fun it => this_tag = item_tag it) (queue_ p))) =
  total is_flush (jobs_of p) + total is_compaction (jobs_of p).
Proof.
  unfold jobs_of, with_tag. induction (filter _ (queue_ p)) as [|it q IH]; [done|].
  cbn [length fmap list_fmap total]. destruct (item_function it); cbn [is_flush is_compaction]; lia.
Qed.

Lemma DBImpl_destructor_counters st :
  let st' := DBImpl_destructor_begin st in
  bg_compaction_scheduled_ (jobs st') = bg_compaction_scheduled_ (jobs st) -
    (total is_flush (jobs_of (pool_low (jobs st))) + total is_compaction (jobs_of (pool_low (jobs st)))) /\
  bg_flush_scheduled_ (jobs st') = bg_flush_scheduled_ (jobs st) -
    (total is_flush (jobs_of (pool_high (jobs st))) + total is_compaction (jobs_of (pool_high (jobs st)))).
Proof.
  cbn zeta. unfold DBImpl_destructor_begin, DBImpl_unschedule, UnSchedule.
  change (jobs (CancelAllBackgroundWork st)) with (jobs st).
  rewrite !UnSchedule_loop_spec. cbn [jobs bg_compaction_scheduled_ bg_flush_scheduled_ set].
  by rewrite !with_tag_length.
Qed.




Definition manual_sys : Sys :=
  opened_sys <| db ::= RunManualCompaction_begin 7 0 true false |> <| callers ::= insert 7%nat false |>.

Lemma manual_reachable : reachable manual_sys.
Proof.
  exists example_setup. split; [apply example_setup_ok|].
  eapply rtc_l; [apply step_opened|]. apply rtc_once.
  apply (step_manual_begin opened_sys 7 0 true false); [done|]. by apply list_elem_of_singleton.
Qed.

