(* ===== verification/SchedulerWake.v ===== *)
(** * No wake-up is lost

    [PauseBackgroundWork], the destructor and exclusive manual compactions wait
    on [bg_cv_] for the counters of scheduled jobs to reach zero.  Handlers that
    only schedule or install work never lower the counters ([grows]); the three
    that do signal when they bring them to zero. *)

From stdpp Require Import base gmap list relations.
From Stdlib Require Import ZArith Lia.
From S2P Require Import Prelude ThreadPool Scheduler SchedulerFam SchedulerJobs SchedulerDb SchedulerInv SchedulerProps.
#[local] Open Scope Z_scope.

(** The counters and the number of signals do not go down. *)
Definition grows (d d' : DBImpl) : Prop :=
  bg_flush_scheduled_ (jobs d) <= bg_flush_scheduled_ (jobs d') /\
  bg_compaction_scheduled_ (jobs d) <= bg_compaction_scheduled_ (jobs d') /\
  (bg_cv_signals (ctl d) <= bg_cv_signals (ctl d'))%nat.

#[global] Instance grows_preorder : PreOrder grows.
Proof. split; [intros d|intros d1 d2 d3]; unfold grows; lia. Qed.

Lemma grows_fams d F : grows d (d <| fams := F |>).
Proof. unfold grows; cbn [jobs ctl set]; lia. Qed.

Lemma grows_ctl d c : (bg_cv_signals (ctl d) <= bg_cv_signals c)%nat -> grows d (d <| ctl := c |>).
Proof. unfold grows; cbn [jobs ctl set]; lia. Qed.

Lemma grows_SignalAll d : grows d (SignalAll d).
Proof. unfold grows, SignalAll; cbn [jobs ctl set bg_cv_signals]; lia. Qed.

Lemma grows_upd_manual d m f : grows d (d <| ctl ::= upd_manual m f |>).
Proof. apply grows_ctl. by destruct (ctl d). Qed.

#[local] Hint Resolve grows_SignalAll grows_upd_manual : grows.
#[local] Hint Extern 1 (grows ?d ?d) => reflexivity : grows.
#[local] Hint Extern 2 (grows ?d (set fams _ ?d)) => exact (grows_fams d _) : grows.

Lemma sched_step_grows limits l0 j j' :
  sched_step limits l0 j j' ->
  bg_flush_scheduled_ j <= bg_flush_scheduled_ j' /\
  bg_compaction_scheduled_ j <= bg_compaction_scheduled_ j'.
Proof.
  intros []; cbn [schedule_flush schedule_compaction env_Schedule set_pool
    bg_flush_scheduled_ bg_compaction_scheduled_ set]; lia.
Qed.

Lemma grows_MaybeSchedule d : grows d (MaybeScheduleFlushOrCompaction d).
Proof.
  unfold grows. rewrite MaybeSchedule_ctl. pose proof (MaybeSchedule_steps d) as H.
  induction H as [|j1 j2 j3 H%sched_step_grows _ IH]; lia.
Qed.
#[local] Hint Resolve grows_MaybeSchedule : grows.

Lemma grows_SchedulePendingFlush id d : grows d (SchedulePendingFlush id d).
Proof.
  unfold SchedulePendingFlush. destruct (_ && _); unfold grows; cbn [jobs ctl set bg_flush_scheduled_
    bg_compaction_scheduled_]; lia.
Qed.

Lemma grows_SchedulePendingCompaction id d : grows d (SchedulePendingCompaction id d).
Proof.
  unfold SchedulePendingCompaction. destruct (_ && _); unfold grows; cbn [jobs ctl set
    bg_flush_scheduled_ bg_compaction_scheduled_]; lia.
Qed.

Lemma grows_Install id v d : grows d (InstallSuperVersionAndScheduleWork id v d).
Proof.
  unfold InstallSuperVersionAndScheduleWork.
  transitivity (d <| fams ::= set_view id v |>); [apply grows_fams|].
  etransitivity; [apply grows_SchedulePendingFlush|].
  etransitivity; [apply grows_SchedulePendingCompaction|].
  etransitivity; [apply grows_MaybeSchedule|]. apply grows_ctl.
  by destruct (ctl _).
Qed.

Lemma grows_FlushMemTable_schedule id v d : grows d (FlushMemTable_schedule id v d).
Proof.
  unfold FlushMemTable_schedule.
  transitivity (d <| fams ::= refresh_view id v |>); [apply grows_fams|].
  etransitivity; [apply grows_SchedulePendingFlush|]. apply grows_MaybeSchedule.
Qed.

Lemma grows_set_bg_error e d : grows d (set_bg_error e d).
Proof.
  unfold set_bg_error. destruct (negb (ok e)); [|reflexivity]. apply grows_ctl. by destruct (ctl d).
Qed.

Lemma grows_signal_error s d : grows d (signal_error s d).
Proof. unfold signal_error. destruct (_ && _); auto with grows. Qed.

Lemma grows_compaction_error s e d : grows d (compaction_error s e d).
Proof. unfold compaction_error. split_ifs; auto using grows_set_bg_error with grows. Qed.
#[local] Hint Resolve grows_Install grows_FlushMemTable_schedule grows_set_bg_error
  grows_signal_error grows_compaction_error : grows.

Lemma grows_FlushMemTableToOutputFile_end id se s v err sp d :
  grows d (FlushMemTableToOutputFile_end id se s v err sp d).
Proof.
  unfold FlushMemTableToOutputFile_end.
  transitivity (match se with Some e => set_bg_error e d | None => d end);
    [destruct se; auto with grows|]. set (d1 := match se with Some e => _ | None => _ end).
  transitivity (if ok s then InstallSuperVersionAndScheduleWork id v d1
    else d1 <| fams ::= refresh_view id v |>); [destruct (ok s); auto with grows|].
  set (d2 := if ok s then _ else _).
  transitivity (if negb (ok s) && negb (IsShutdownInProgress s) && paranoid_checks (ctl d2) &&
    ok (bg_error_ (ctl d2)) then set_bg_error err d2 else d2);
    [destruct (_ && _ && _ && _); auto with grows|].
  destruct (ok s); [|auto with grows]. destruct sp; [|auto with grows].
  destruct (ok _); auto with grows.
Qed.

Lemma grows_BackgroundFlush_end id se s v err sp d :
  grows d (snd (BackgroundFlush_end id se s v err sp d)).
Proof.
  unfold BackgroundFlush_end. cbn [snd].
  etransitivity; [apply grows_FlushMemTableToOutputFile_end|].
  etransitivity; [|apply grows_signal_error]. apply grows_fams.
Qed.

Lemma grows_BackgroundCallFlush_begin v d : grows d (snd (BackgroundCallFlush_begin v d)).
Proof.
  unfold BackgroundCallFlush_begin. set (d0 := d <| jobs ::= _ |>).
  transitivity d0; [unfold grows, d0; cbn [jobs ctl set bg_flush_scheduled_ bg_compaction_scheduled_
    jobs_assert]; lia|].
  assert (grows d0 (snd (BackgroundFlush_begin v d0))) as H.
  { unfold BackgroundFlush_begin. destruct (negb _); [reflexivity|].
    destruct (BackgroundFlush_pick _ _) as [[id|] F]; apply grows_fams. }
  destruct (BackgroundFlush_begin v d0) as [[id|s] d1]; [done|]. cbn [snd] in *.
  etransitivity; [exact H|]. auto with grows.
Qed.

Lemma grows_BackgroundCompaction_auto pick d : grows d (snd (BackgroundCompaction_auto pick d)).
Proof.
  unfold BackgroundCompaction_auto. destruct (compaction_queue_ (fams d)) as [|front q]; [reflexivity|].
  destruct (HaveManualCompaction front (ctl d)).
  { cbn [snd]. unfold grows; cbn [jobs ctl set bg_flush_scheduled_ bg_compaction_scheduled_]; lia. }
  destruct (PopFirstFromCompactionQueue (fams d)) as [id F]. destruct (Unref id F) as [[] F1].
  { apply grows_fams. }
  destruct (_ && _); [|apply grows_fams]. destruct pick as [[k v]|]; [|apply grows_fams].
  cbn [snd]. set (d1 := d <| fams := _ |>). transitivity d1; [apply grows_fams|].
  destruct (NeedsCompaction _); [|reflexivity]. etransitivity; [|apply grows_MaybeSchedule].
  unfold grows; cbn [jobs ctl set bg_flush_scheduled_ bg_compaction_scheduled_]; lia.
Qed.

Lemma grows_BackgroundCallCompaction_begin m pick d :
  grows d (snd (BackgroundCallCompaction_begin m pick d)).
Proof.
  unfold BackgroundCallCompaction_begin. set (d0 := d <| jobs ::= _ |>).
  transitivity d0; [unfold grows, d0; cbn [jobs ctl set bg_flush_scheduled_ bg_compaction_scheduled_
    jobs_assert]; lia|].
  assert (grows d0 (snd (BackgroundCompaction_begin m pick d0))) as H.
  { unfold BackgroundCompaction_begin. destruct (negb _); cbn [snd].
    - destruct m as [m|]; [|reflexivity]. etransitivity; [apply grows_upd_manual|]. apply grows_fams.
    - destruct m as [m|]; [|apply grows_BackgroundCompaction_auto].
      unfold BackgroundCompaction_manual. destruct (m_compaction _); cbn [snd]; auto with grows.
      etransitivity; apply grows_upd_manual. }
  destruct (BackgroundCompaction_begin m pick d0) as [[a b|s b] d1]; [done|]. cbn [snd] in *.
  etransitivity; [exact H|]. auto with grows.
Qed.

Lemma grows_BackgroundCompaction_end m c s v err d :
  grows d (snd (BackgroundCompaction_end m c s v err d)).
Proof.
  unfold BackgroundCompaction_end. cbn [snd]. set (b := match m with Some m => _ | None => false end).
  transitivity (BackgroundCompaction_body b c s v d).
  { destruct c as [c|]; [|reflexivity]. unfold BackgroundCompaction_body.
    etransitivity; [|apply grows_fams].
    destruct (run_kind _ _); auto with grows. destruct (ok s); auto with grows. }
  etransitivity; [apply grows_compaction_error|]. etransitivity; [|apply grows_signal_error].
  destruct m; auto with grows.
Qed.

Lemma grows_RunManualCompaction_iter m b range d :
  grows d (snd (RunManualCompaction_iter m b range d)).
Proof.
  unfold RunManualCompaction_iter. set (d0 := d <| ctl ::= _ |>).
  transitivity d0; [apply grows_ctl; by destruct (ctl d)|].
  destruct (manual_blocked m b d0); [reflexivity|]. destruct range as [[c conflict] e].
  etransitivity; [apply grows_upd_manual|].
  destruct c as [k|]; cbn [snd].
  - unfold grows; cbn [jobs ctl set bg_flush_scheduled_ bg_compaction_scheduled_ env_Schedule set_pool
      upd_manual ctl_assert bg_cv_signals]; lia.
  - destruct conflict; cbn [snd]; [apply grows_ctl; by destruct (ctl _)|].
    etransitivity; [apply grows_upd_manual|]. apply grows_SignalAll.
Qed.

(** ** The handlers that lower a counter *)

Definition signals (d d' : DBImpl) : Prop :=
  (bg_cv_signals (ctl d) < bg_cv_signals (ctl d'))%nat.

Lemma BackgroundCallFlush_end_signals d : signals d (BackgroundCallFlush_end d).
Proof.
  unfold signals, BackgroundCallFlush_end. set (d1 := d <| jobs ::= _ |>).
  pose proof (MaybeSchedule_ctl d1) as E. unfold SignalAll. cbn [ctl set bg_cv_signals].
  rewrite E. cbn [ctl set d1]. lia.
Qed.

Lemma BackgroundCallCompaction_end_signals b d :
  bg_compaction_scheduled_ (jobs (BackgroundCallCompaction_end b d)) = 0 ->
  signals d (BackgroundCallCompaction_end b d).
Proof.
  unfold signals, BackgroundCallCompaction_end. set (d1 := d <| jobs ::= _ |>).
  set (d2 := d1 <| fams ::= FreeDeadColumnFamilies |>).
  pose proof (MaybeSchedule_ctl d2) as E. set (d3 := MaybeScheduleFlushOrCompaction d2) in *.
  assert (ctl d3 = ctl d) as E' by exact E.
  destruct (b || (bg_compaction_scheduled_ (jobs d3) =? 0) || _) eqn:Eb; intros Hz.
  - unfold SignalAll. cbn [ctl set bg_cv_signals]. rewrite E'. lia.
  - bprop. lia.
Qed.

Lemma CompactFilesImpl_end_signals id s v e d :
  bg_compaction_scheduled_ (jobs (CompactFilesImpl_end id s v e d)) = 0 ->
  signals d (CompactFilesImpl_end id s v e d).
Proof.
  unfold signals, CompactFilesImpl_end. set (d1 := if ok s then _ else d).
  assert (grows d (compaction_error s e d1)) as (_ & _ & G).
  { transitivity d1; [unfold d1; destruct (ok s); auto with grows|auto with grows]. }
  set (d4 := _ <| jobs ::= _ |>).
  assert (bg_cv_signals (ctl d4) = bg_cv_signals (ctl (compaction_error s e d1))) as E by done.
  destruct (bg_compaction_scheduled_ (jobs d4) =? 0) eqn:Ez; intros Hz.
  - unfold SignalAll. cbn [ctl set bg_cv_signals]. rewrite E. lia.
  - exfalso. lia.
Qed.

(** A step lowers no counter, or signals, or is one of the two handlers that
    signal when they reach zero. *)
Lemma step_grows s s' :
  step s s' ->
  grows (db s) (db s') \/ signals (db s) (db s') \/
  (bg_compaction_scheduled_ (jobs (db s')) = 0 -> signals (db s) (db s')).
Proof.
  intros H. destruct H; cbn [db set];
    try (right; left; by apply BackgroundCallFlush_end_signals);
    try (right; right; by apply BackgroundCallCompaction_end_signals);
    try (right; right; by apply CompactFilesImpl_end_signals); left;
    auto with grows; try apply grows_fams; try (apply grows_ctl; by destruct (ctl (db s))).
  - unfold grows. cbn [jobs ctl set]. by destruct (set_pool_frame pri p' (jobs (db s)))
      as (_ & _ & -> & -> & _).
  - unfold grows. cbn [jobs ctl set]. by destruct (set_pool_frame pri p' (jobs (db s)))
      as (_ & _ & -> & -> & _).
  - unfold grows. cbn [jobs ctl set].
    by destruct (set_pool_frame pri (SetBackgroundThreadsInternal n b (get_pool pri (jobs (db s))))
      (jobs (db s))) as (_ & _ & -> & -> & _).
  - unfold grows. cbn [jobs ctl set].
    by destruct (set_pool_frame pri (Schedule f t u (get_pool pri (jobs (db s))))
      (jobs (db s))) as (_ & _ & -> & -> & _).
  - pose proof (grows_BackgroundCallFlush_begin v (db s)) as G. by rewrite H1 in G.
  - pose proof (grows_BackgroundFlush_end id se st v err sp (db s)) as G. by rewrite H1 in G.
  - pose proof (grows_BackgroundCallCompaction_begin m pick (db s)) as G. by rewrite H2 in G.
  - pose proof (grows_BackgroundCompaction_end m c st v err (db s)) as G. by rewrite H1 in G.
  - etransitivity; [|apply grows_MaybeSchedule]. apply grows_ctl. by destruct (ctl (db s)).
  - etransitivity; [|apply grows_MaybeSchedule]. apply grows_ctl. by destruct (ctl (db s)).
  - etransitivity; [|apply grows_SignalAll]. apply grows_ctl. by destruct (ctl (db s)).
  - unfold ContinueBackgroundWork. destruct (_ =? 0); [reflexivity|]. cbn [snd].
    set (d1 := (db s) <| ctl ::= _ |>). transitivity d1; [apply grows_ctl; by destruct (ctl (db s))|].
    destruct (_ =? 0); auto with grows.
  - unfold ContinueCompactionWork. destruct (_ =? 0); [reflexivity|]. cbn [snd].
    set (d1 := (db s) <| ctl ::= _ |>). transitivity d1; [apply grows_ctl; by destruct (ctl (db s))|].
    destruct (_ =? 0); auto with grows.
  - pose proof (grows_RunManualCompaction_iter m b range (db s)) as G. by rewrite H2 in G.
  - unfold RunManualCompaction_wake in H0. destruct (_ && _); injection H0 as <- <-; [|reflexivity].
    apply grows_ctl. by destruct (ctl (db s)).
  - unfold RunManualCompaction_end, RemoveManualCompaction, SignalAll, grows.
    cbn [snd jobs ctl set bg_cv_signals]. split_and!; [lia..|].
    destruct (remove_first _ _); cbn [bg_cv_signals ctl_assert set]; lia.
  - unfold CompactFilesImpl_begin in H0. destruct (shutting_down_ _); [done|].
    injection H0 as <-. unfold grows. cbn [jobs ctl set bg_flush_scheduled_ bg_compaction_scheduled_]. lia.
  - unfold CompactFilesImpl_begin in H1. rewrite H0 in H1.
    injection H1 as _ <-. unfold grows. cbn [jobs ctl set bg_flush_scheduled_ bg_compaction_scheduled_]. lia.
Qed.

(** C7: no wake-up is lost: in every reachable state, the step after which
    [PauseBackgroundWork], the destructor or an exclusive manual compaction no
    longer has to wait signals [bg_cv_]. *)
Theorem no_lost_wakeup (s s' : Sys) :
  reachable s -> step s s' ->
  (PauseBackgroundWork_wait (db s) = true /\ PauseBackgroundWork_wait (db s') = false) \/
  (PauseCompactionWork_wait (db s) = true /\ PauseCompactionWork_wait (db s') = false) ->
  (bg_cv_signals (ctl (db s)) < bg_cv_signals (ctl (db s')))%nat.
Proof.
  intros R%reachable_inv H Hw. pose proof (step_inv _ _ R H) as R'.
  assert (0 <= bg_compaction_scheduled_ (jobs (db s'))) as Hc.
  { destruct (sv_db _ R') as [_ Ij _ _]. rewrite (ji_bc _ _ _ _ _ Ij). pose proof (ji_co _ _ _ _ _ Ij).
    pose proof (queued_nonneg is_compaction (jobs (db s')) is_compaction_nonneg). lia. }
  unfold PauseBackgroundWork_wait, PauseCompactionWork_wait in Hw.
  destruct (step_grows _ _ H) as [(G1 & G2 & _)|[G|G]]; [exfalso|exact G|apply G]; lia.
Qed.

(** A client compaction of files that finishes. *)
Definition compacting_sys : Sys :=
  opened_sys <| db := snd (CompactFilesImpl_begin 0 None true (db opened_sys)) |>
    <| compact_files ::= cons 0%nat |>.

Definition compacted_sys : Sys :=
  compacting_sys <| db ::= CompactFilesImpl_end 0 OK (su_view example_setup) OK |>
    <| compact_files := [] |>.

Lemma compacting_reachable : reachable compacting_sys.
Proof.
  exists example_setup. split; [apply example_setup_ok|].
  eapply rtc_l; [apply step_opened|]. apply rtc_once.
  apply (step_compact_files_begin opened_sys); [by apply list_elem_of_singleton|done].
Qed.

Lemma no_lost_wakeup_witness :
  bg_cv_signals (ctl (db compacted_sys)) = 1%nat /\
  (bg_cv_signals (ctl (db compacting_sys)) < bg_cv_signals (ctl (db compacted_sys)))%nat.
Proof.
  split; [vm_compute; reflexivity|].
  refine (no_lost_wakeup compacting_sys compacted_sys compacting_reachable _ _).
  - refine (step_compact_files_end compacting_sys 0 [] [] OK (su_view example_setup) OK _ _);
      [reflexivity|done].
  - left. split; vm_compute; reflexivity.
Defined.
