(* ===== verification/WriteControl.v ===== *)
(** * Write stalls (db/write_controller.{h,cc}, db/column_family.cc)

    The write controller counts the tokens that column families hold: a stop
    token stops all writes, a delay token limits their rate, a pressure token
    asks for more compaction threads.  [RecalculateWriteStallConditions] decides
    which token a column family holds.  Rates are scaled in double precision;
    the class [Double] states what is used of it. *)

From stdpp Require Import base gmap list.
From Stdlib Require Import ZArith Lia.
From S2P Require Import Prelude.
#[local] Open Scope Z_scope.

(** ** Floating point *)

(** [mul_ratio n d x] is [static_cast<uint64_t>(static_cast<double>(x) * r)] for
    the double [r] nearest to [n / d]; [refill t rate] is the number of bytes of
    [t] microseconds at [rate] and [sleep bytes rate] the microseconds of [bytes]
    at [rate], as the two expressions of [GetDelay] compute them.  The laws bound
    the rounding by one part in [2^50] and the truncation by one. *)
Class Double := {
  mul_ratio : Z -> Z -> Z -> Z;
  refill : Z -> Z -> Z;
  sleep : Z -> Z -> Z;
  mul_ratio_upper n d x : 0 < n -> 0 < d -> 0 <= x ->
    mul_ratio n d x * d * 2 ^ 50 <= x * n * (2 ^ 50 + 1);
  mul_ratio_lower n d x : 0 < n -> 0 < d -> 0 <= x ->
    x * n * (2 ^ 50 - 1) <= (mul_ratio n d x + 1) * d * 2 ^ 50;
  mul_ratio_nonneg n d x : 0 < n -> 0 < d -> 0 <= x -> 0 <= mul_ratio n d x;
  refill_nonneg t r : 0 <= t -> 0 <= r -> 0 <= refill t r;
  refill_upper t r : 0 <= t -> 0 <= r ->
    refill t r * 1000000 * 2 ^ 50 <= t * r * (2 ^ 50 + 1);
  sleep_nonneg b r : 0 <= b -> 0 < r -> 0 <= sleep b r;
  sleep_lower b r : 0 <= b -> 0 < r ->
    b * 1000000 * (2 ^ 50 - 1) <= (sleep b r + 1) * r * 2 ^ 50
}.

Lemma div_upper a d : 0 <= a -> 0 < d -> a / d * d * 2 ^ 50 <= a * (2 ^ 50 + 1).
Proof. intros. pose proof (Z.mul_div_le a d). lia. Qed.

Lemma div_lower a d : 0 <= a -> 0 < d -> a * (2 ^ 50 - 1) <= (a / d + 1) * d * 2 ^ 50.
Proof. intros. pose proof (Z.mul_succ_div_gt a d). lia. Qed.

(** Exact arithmetic, truncated, satisfies the laws. *)
#[global] Program Instance exact_double : Double := {|
  mul_ratio n d x := x * n / d;
  refill t r := t * r / 1000000;
  sleep b r := b * 1000000 / r
|}.
Next Obligation. intros. apply div_upper; nia. Qed.
Next Obligation. intros. apply div_lower; nia. Qed.
Next Obligation. intros. apply Z.div_pos; nia. Qed.
Next Obligation. intros. apply Z.div_pos; nia. Qed.
Next Obligation. intros. apply div_upper; nia. Qed.
Next Obligation. intros. apply Z.div_pos; nia. Qed.
Next Obligation. intros. apply div_lower; nia. Qed.

(** ** The controller *)

Inductive Token := StopWriteToken | DelayWriteToken | CompactionPressureToken.

#[global] Instance Token_eq_dec : EqDecision Token.
Proof. solve_decision. Defined.

Record WriteController := mkWC {
  total_stopped_ : Z;
  total_delayed_ : Z;
  total_compaction_pressure_ : Z;
  bytes_left_ : Z;
  last_refill_time_ : Z;
  max_delayed_write_rate_ : Z;
  delayed_write_rate_ : Z;
  low_pri_bytes_per_sec : Z;       (** the limit of [low_pri_rate_limiter_] *)
  wc_ok : bool                     (** the assertions held *)
}.

#[export] Instance WriteController_settable : Settable WriteController := fun r =>
  mkWC (total_stopped_ r) (total_delayed_ r) (total_compaction_pressure_ r) (bytes_left_ r)
    (last_refill_time_ r) (max_delayed_write_rate_ r) (delayed_write_rate_ r)
    (low_pri_bytes_per_sec r) (wc_ok r).

Definition set_delayed_write_rate (write_rate : Z) (c : WriteController) : WriteController :=
  let write_rate :=
    if write_rate =? 0 then 1
    else if write_rate >? max_delayed_write_rate_ c then max_delayed_write_rate_ c
    else write_rate in
  c <| delayed_write_rate_ := write_rate |>.

Definition set_max_delayed_write_rate (write_rate : Z) (c : WriteController) : WriteController :=
  let write_rate := if write_rate =? 0 then 1 else write_rate in
  c <| max_delayed_write_rate_ := write_rate |> <| delayed_write_rate_ := write_rate |>.

Definition WriteController_init (delayed_write_rate low_pri_rate : Z) : WriteController :=
  set_max_delayed_write_rate delayed_write_rate (mkWC 0 0 0 0 0 0 0 low_pri_rate true).

Definition IsStopped (c : WriteController) : bool := total_stopped_ c >? 0.
Definition NeedsDelay (c : WriteController) : bool := total_delayed_ c >? 0.
Definition NeedSpeedupCompaction (c : WriteController) : bool :=
  IsStopped c || NeedsDelay c || (total_compaction_pressure_ c >? 0).

Definition GetStopToken (c : WriteController) : Token * WriteController :=
  (StopWriteToken, c <| total_stopped_ ::= Z.succ |>).

Definition GetDelayToken (write_rate : Z) (c : WriteController) : Token * WriteController :=
  let c := c <| total_delayed_ ::= Z.succ |> <| last_refill_time_ := 0 |> <| bytes_left_ := 0 |> in
  (DelayWriteToken, set_delayed_write_rate write_rate c).

Definition GetCompactionPressureToken (c : WriteController) : Token * WriteController :=
  (CompactionPressureToken, c <| total_compaction_pressure_ ::= Z.succ |>).

(** The destructors of the tokens. *)
Definition wc_assert (b : bool) (c : WriteController) : WriteController :=
  c <| wc_ok ::= fun a => a && b |>.

Definition delete_token (t : Token) (c : WriteController) : WriteController :=
  match t with
  | StopWriteToken =>
      (wc_assert (total_stopped_ c >=? 1) c) <| total_stopped_ ::= Z.pred |>
  | DelayWriteToken =>
      let c := c <| total_delayed_ ::= Z.pred |> in wc_assert (total_delayed_ c >=? 0) c
  | CompactionPressureToken =>
      let c := c <| total_compaction_pressure_ ::= Z.pred |> in
      wc_assert (total_compaction_pressure_ c >=? 0) c
  end.

(** [write_controller_token_.reset()] and the assignment of a new token, which
    exists before the old one is destroyed. *)
Definition reset_token (old : option Token) (c : WriteController) : WriteController :=
  match old with Some t => delete_token t c | None => c end.

Section Rates.
Context `{Double}.

Definition kMicrosPerSecond : Z := 1000000.
Definition kRefillInterval : Z := 1024.

(** [GetDelay] at the time [time_now]; its tail computes how long to sleep. *)
Definition GetDelay_sleep (time_now num_bytes sleep_debt : Z) (c : WriteController)
    : Z * WriteController :=
  let single_refill_amount := u64 (delayed_write_rate_ c * kRefillInterval) / kMicrosPerSecond in
  if u64 (bytes_left_ c + single_refill_amount) >=? num_bytes then
    (u64 (kRefillInterval + sleep_debt),
     c <| bytes_left_ := u64 (u64 (bytes_left_ c + single_refill_amount) - num_bytes) |>
       <| last_refill_time_ := u64 (time_now + kRefillInterval) |>)
  else
    let sleep_amount := u64 (sleep num_bytes (delayed_write_rate_ c) + sleep_debt) in
    (sleep_amount, c <| last_refill_time_ := u64 (time_now + sleep_amount) |>).

Definition GetDelay (time_now num_bytes : Z) (c : WriteController) : Z * WriteController :=
  if total_stopped_ c >? 0 then (0, c)
  else if total_delayed_ c =? 0 then (0, c)
  else if bytes_left_ c >=? num_bytes then
    (0, c <| bytes_left_ ::= fun b => b - num_bytes |>)
  else if negb (last_refill_time_ c =? 0) then
    if last_refill_time_ c >? time_now then
      GetDelay_sleep time_now num_bytes (last_refill_time_ c - time_now) c
    else
      let time_since_last_refill := time_now - last_refill_time_ c in
      let c := c <| bytes_left_ ::= fun b =>
                      u64 (b + refill time_since_last_refill (delayed_write_rate_ c)) |> in
      if (time_since_last_refill >=? kRefillInterval) && (bytes_left_ c >? num_bytes) then
        (0, c <| last_refill_time_ := time_now |> <| bytes_left_ ::= fun b => b - num_bytes |>)
      else GetDelay_sleep time_now num_bytes 0 c
  else GetDelay_sleep time_now num_bytes 0 c.

(** ** Deciding the token of a column family *)

Definition kMinWriteRate : Z := 16 * 1024.

Definition SetupDelay (compaction_needed_bytes prev_compaction_need_bytes : Z)
    (penalize_stop auto_compactions_disabled : bool) (c : WriteController)
    : Token * WriteController :=
  let max_write_rate := max_delayed_write_rate_ c in
  let write_rate := delayed_write_rate_ c in
  let write_rate :=
    if auto_compactions_disabled then max_write_rate
    else if NeedsDelay c && (max_write_rate >? kMinWriteRate) then
      if penalize_stop then
        let r := mul_ratio 3 5 write_rate in if r <? kMinWriteRate then kMinWriteRate else r
      else if (prev_compaction_need_bytes >? 0) &&
              (prev_compaction_need_bytes <=? compaction_needed_bytes) then
        let r := mul_ratio 4 5 write_rate in if r <? kMinWriteRate then kMinWriteRate else r
      else if prev_compaction_need_bytes >? compaction_needed_bytes then
        let r := mul_ratio 5 4 write_rate in if r >? max_write_rate then max_write_rate else r
      else write_rate
    else write_rate in
  GetDelayToken write_rate c.

Definition kMaxInt32 : Z := 2 ^ 31 - 1.

Definition GetL0ThresholdSpeedupCompaction (level0_file_num_compaction_trigger
    level0_slowdown_writes_trigger : Z) : Z :=
  if level0_file_num_compaction_trigger <? 0 then kMaxInt32
  else
    let twice_level0_trigger := level0_file_num_compaction_trigger * 2 in
    let one_fourth_trigger_slowdown :=
      level0_file_num_compaction_trigger +
      Z.quot (level0_slowdown_writes_trigger - level0_file_num_compaction_trigger) 4 in
    let res := Z.min twice_level0_trigger one_fourth_trigger_slowdown in
    if res >=? kMaxInt32 then kMaxInt32 else res.

(** What the decision looks at: the memtable list, the version storage and the
    options of the column family. *)
Record StallInput := mkStall {
  si_NumNotFlushed : Z;
  si_l0_delay_trigger_count : Z;
  si_compaction_needed_bytes : Z;
  si_max_write_buffer_number : Z;
  si_disable_auto_compactions : bool;
  si_level0_file_num_compaction_trigger : Z;
  si_level0_slowdown_writes_trigger : Z;
  si_level0_stop_writes_trigger : Z;
  si_soft_limit : Z;
  si_hard_limit : Z
}.

(** The column family's side: its token and the bytes of the last decision. *)
Record StallState := mkStallState {
  write_controller_token_ : option Token;
  prev_compaction_needed_bytes_ : Z
}.

Definition RecalculateWriteStallConditions (current_ : option StallInput) (s : StallState)
    (c : WriteController) : StallState * WriteController :=
  match current_ with None => (s, c) | Some i =>
  let compaction_needed_bytes := si_compaction_needed_bytes i in
  let was_stopped := IsStopped c in
  let needed_delay := NeedsDelay c in
  let prev := prev_compaction_needed_bytes_ s in
  let '(token, c) :=
    if si_NumNotFlushed i >=? si_max_write_buffer_number i then
      let '(t, c) := GetStopToken c in (Some t, reset_token (write_controller_token_ s) c)
    else if negb (si_disable_auto_compactions i) &&
            (si_l0_delay_trigger_count i >=? si_level0_stop_writes_trigger i) then
      let '(t, c) := GetStopToken c in (Some t, reset_token (write_controller_token_ s) c)
    else if negb (si_disable_auto_compactions i) && (si_hard_limit i >? 0) &&
            (compaction_needed_bytes >=? si_hard_limit i) then
      let '(t, c) := GetStopToken c in (Some t, reset_token (write_controller_token_ s) c)
    else if (si_max_write_buffer_number i >? 3) &&
            (si_NumNotFlushed i >=? si_max_write_buffer_number i - 1) then
      let '(t, c) := SetupDelay compaction_needed_bytes prev was_stopped
                       (si_disable_auto_compactions i) c in
      (Some t, reset_token (write_controller_token_ s) c)
    else if negb (si_disable_auto_compactions i) && (si_level0_slowdown_writes_trigger i >=? 0) &&
            (si_l0_delay_trigger_count i >=? si_level0_slowdown_writes_trigger i) then
      let near_stop := si_l0_delay_trigger_count i >=? si_level0_stop_writes_trigger i - 2 in
      let '(t, c) := SetupDelay compaction_needed_bytes prev (was_stopped || near_stop)
                       (si_disable_auto_compactions i) c in
      (Some t, reset_token (write_controller_token_ s) c)
    else if negb (si_disable_auto_compactions i) && (si_soft_limit i >? 0) &&
            (compaction_needed_bytes >=? si_soft_limit i) then
      let near_stop := (si_hard_limit i >? 0) &&
        (u64 (compaction_needed_bytes - si_soft_limit i) >?
         u64 (3 * u64 (si_hard_limit i - si_soft_limit i)) / 4) in
      let '(t, c) := SetupDelay compaction_needed_bytes prev (was_stopped || near_stop)
                       (si_disable_auto_compactions i) c in
      (Some t, reset_token (write_controller_token_ s) c)
    else
      let '(token, c) :=
        if si_l0_delay_trigger_count i >=?
           GetL0ThresholdSpeedupCompaction (si_level0_file_num_compaction_trigger i)
             (si_level0_slowdown_writes_trigger i) then
          let '(t, c) := GetCompactionPressureToken c in
          (Some t, reset_token (write_controller_token_ s) c)
        else if compaction_needed_bytes >=? si_soft_limit i / 4 then
          let '(t, c) := GetCompactionPressureToken c in
          (Some t, reset_token (write_controller_token_ s) c)
        else (None, reset_token (write_controller_token_ s) c) in
      if needed_delay then
        let write_rate := delayed_write_rate_ c in
        (token, (set_delayed_write_rate (mul_ratio 7 5 write_rate) c)
                  <| low_pri_bytes_per_sec := write_rate / 4 |>)
      else (token, c) in
  (mkStallState token compaction_needed_bytes, c)
  end.

(** [SetDropped] and the destructor give the token back. *)
Definition release_token (s : StallState) (c : WriteController) : StallState * WriteController :=
  (mkStallState None (prev_compaction_needed_bytes_ s), reset_token (write_controller_token_ s) c).

End Rates.

(** ** Token accounting *)

Definition holds (t : Token) (s : StallState) : Z :=
  if decide (write_controller_token_ s = Some t) then 1 else 0.

Fixpoint holders (t : Token) (cfs : list StallState) : Z :=
  match cfs with [] => 0 | s :: cfs => holds t s + holders t cfs end.

Lemma holds_range t s : 0 <= holds t s <= 1.
Proof. unfold holds. case_decide; lia. Qed.

Lemma holders_nonneg t cfs : 0 <= holders t cfs.
Proof. induction cfs as [|s cfs IH]; cbn; [done|]. pose proof (holds_range t s). lia. Qed.

Lemma holders_insert t cfs k s s' :
  cfs !! k = Some s -> holders t (<[k := s']> cfs) = holders t cfs - holds t s + holds t s'.
Proof.
  revert k. induction cfs as [|x cfs IH]; intros [|k] Hk; try discriminate; cbn in Hk.
  - injection Hk as ->. cbn. lia.
  - change (<[Datatypes.S k := s']> (x :: cfs)) with (x :: <[k := s']> cfs).
    cbn [holders]. rewrite (IH _ Hk). lia.
Qed.

Lemma holders_lookup t cfs k s : cfs !! k = Some s -> holds t s <= holders t cfs.
Proof.
  revert k. induction cfs as [|x cfs IH]; intros [|k] Hk; try discriminate; cbn in *.
  - injection Hk as ->. pose proof (holders_nonneg t cfs). lia.
  - pose proof (IH _ Hk). pose proof (holds_range t x). lia.
Qed.

Lemma holders_pos t cfs :
  0 < holders t cfs <-> exists s, s ∈ cfs /\ write_controller_token_ s = Some t.
Proof.
  induction cfs as [|x cfs IH]; cbn.
  - split; [lia|]. intros (s & Hs & _). by apply not_elem_of_nil in Hs.
  - pose proof (holders_nonneg t cfs). unfold holds at 1. case_decide as Hx.
    + split; [|lia]. intros _. exists x. split; [left|done].
    + rewrite Z.add_0_l, IH. split; intros (s & Hs & Ht); exists s.
      * split; [by right|done].
      * apply elem_of_cons in Hs as [->|Hs]; [done|by split].
Qed.

(** The token counts, with the difference a token makes. *)
Definition counter (t : Token) (c : WriteController) : Z :=
  match t with
  | StopWriteToken => total_stopped_ c
  | DelayWriteToken => total_delayed_ c
  | CompactionPressureToken => total_compaction_pressure_ c
  end.

Definition one (t : Token) (o : option Token) : Z := if decide (o = Some t) then 1 else 0.

Ltac each_token := intros []; unfold one; repeat case_decide; cbn in *; try congruence; lia.

(** Two controllers that differ in the counters only by [d] and whose rates are
    in range. *)
Definition rates_ok (c : WriteController) : Prop :=
  1 <= delayed_write_rate_ c <= max_delayed_write_rate_ c.

Definition moved (d : Token -> Z) (c c' : WriteController) : Prop :=
  (forall t, counter t c' = counter t c + d t) /\ wc_ok c' = wc_ok c /\
  (rates_ok c -> rates_ok c') /\ max_delayed_write_rate_ c' = max_delayed_write_rate_ c.

Ltac split_moved := refine (conj _ (conj _ (conj _ _))); [each_token|..].

Lemma moved_trans d e c c' c'' :
  moved d c c' -> moved e c' c'' -> moved (fun t => d t + e t) c c''.
Proof.
  intros (A & B & C & D) (A' & B' & C' & D').
  refine (conj _ (conj _ (conj _ _))); [intros t; rewrite A', A; lia|congruence|tauto|congruence].
Qed.

Lemma set_delayed_write_rate_moved r c :
  0 <= r -> moved (fun _ => 0) c (set_delayed_write_rate r c).
Proof.
  intros Hr. unfold set_delayed_write_rate, moved, rates_ok.
  split_moved; cbn in *; try done; split_ifs; zlia.
Qed.

Lemma GetStopToken_moved c t c' :
  GetStopToken c = (t, c') -> t = StopWriteToken /\ moved (fun u => one u (Some t)) c c'.
Proof. intros [= <- <-]. split; [done|]. split_moved; done. Qed.

Lemma GetCompactionPressureToken_moved c t c' :
  GetCompactionPressureToken c = (t, c') ->
  t = CompactionPressureToken /\ moved (fun u => one u (Some t)) c c'.
Proof. intros [= <- <-]. split; [done|]. split_moved; done. Qed.

Lemma GetDelayToken_moved r c t c' :
  0 <= r -> GetDelayToken r c = (t, c') ->
  t = DelayWriteToken /\ moved (fun u => one u (Some t)) c c'.
Proof.
  intros Hr [= <- <-]. split; [done|].
  unfold set_delayed_write_rate, moved, rates_ok.
  split_moved; cbn in *; try done; split_ifs; zlia.
Qed.

Lemma reset_token_moved o c :
  (forall t, one t o <= counter t c) -> moved (fun t => - one t o) c (reset_token o c).
Proof.
  intros Hle. destruct o as [u|]; cbn [reset_token].
  - specialize (Hle u). unfold one in Hle. rewrite decide_True in Hle by done.
    destruct u; unfold delete_token, wc_assert, moved; cbn in *;
      split_moved; try done; cbn; rewrite (proj2 (Z.geb_le _ _)) by lia;
      by rewrite andb_true_r.
  - refine (conj _ (conj _ (conj _ _))); try done. intros t. unfold one. rewrite decide_False by done. lia.
Qed.

(** What the assignment of a new token does. *)
Lemma assign_moved o t c c' :
  moved (fun u => one u (Some t)) c c' -> (forall u, one u o <= counter u c) ->
  moved (fun u => one u (Some t) + - one u o) c (reset_token o c').
Proof.
  intros Hm Hle. eapply moved_trans; [exact Hm|]. apply reset_token_moved.
  intros u. destruct Hm as (A & _). rewrite A. specialize (Hle u).
  unfold one at 2. case_decide; lia.
Qed.

(** ** What is decided *)

(** The conditions of the three tokens, in the terms of the options. *)
Definition must_stop (i : StallInput) : bool :=
  (si_max_write_buffer_number i <=? si_NumNotFlushed i) ||
  negb (si_disable_auto_compactions i) &&
    ((si_level0_stop_writes_trigger i <=? si_l0_delay_trigger_count i) ||
     (0 <? si_hard_limit i) && (si_hard_limit i <=? si_compaction_needed_bytes i)).

Definition must_delay (i : StallInput) : bool :=
  (3 <? si_max_write_buffer_number i) &&
    (si_max_write_buffer_number i <=? si_NumNotFlushed i + 1) ||
  negb (si_disable_auto_compactions i) &&
    ((0 <=? si_level0_slowdown_writes_trigger i) &&
       (si_level0_slowdown_writes_trigger i <=? si_l0_delay_trigger_count i) ||
     (0 <? si_soft_limit i) && (si_soft_limit i <=? si_compaction_needed_bytes i)).

Definition wants_speedup (i : StallInput) : bool :=
  (GetL0ThresholdSpeedupCompaction (si_level0_file_num_compaction_trigger i)
     (si_level0_slowdown_writes_trigger i) <=? si_l0_delay_trigger_count i) ||
  (si_soft_limit i / 4 <=? si_compaction_needed_bytes i).

Definition stall_token (i : StallInput) : option Token :=
  if must_stop i then Some StopWriteToken
  else if must_delay i then Some DelayWriteToken
  else if wants_speedup i then Some CompactionPressureToken
  else None.

Section Decide.
Context `{Double}.

Lemma SetupDelay_moved need prev pen dis c t c' :
  rates_ok c -> SetupDelay need prev pen dis c = (t, c') ->
  t = DelayWriteToken /\ moved (fun u => one u (Some t)) c c'.
Proof.
  intros [Hr1 Hr2]. unfold SetupDelay. apply GetDelayToken_moved.
  pose proof (mul_ratio_nonneg 5 4 (delayed_write_rate_ c)).
  pose proof (mul_ratio_nonneg 3 5 (delayed_write_rate_ c)).
  pose proof (mul_ratio_nonneg 4 5 (delayed_write_rate_ c)).
  unfold kMinWriteRate. cbv zeta. split_ifs; lia.
Qed.

(** The branches of the decision, as the boolean tests they make. *)
Lemma stall_token_branches i :
  stall_token i =
    if si_NumNotFlushed i >=? si_max_write_buffer_number i then Some StopWriteToken
    else if negb (si_disable_auto_compactions i) &&
            (si_l0_delay_trigger_count i >=? si_level0_stop_writes_trigger i)
    then Some StopWriteToken
    else if negb (si_disable_auto_compactions i) && (si_hard_limit i >? 0) &&
            (si_compaction_needed_bytes i >=? si_hard_limit i) then Some StopWriteToken
    else if (si_max_write_buffer_number i >? 3) &&
            (si_NumNotFlushed i >=? si_max_write_buffer_number i - 1)
    then Some DelayWriteToken
    else if negb (si_disable_auto_compactions i) && (si_level0_slowdown_writes_trigger i >=? 0) &&
            (si_l0_delay_trigger_count i >=? si_level0_slowdown_writes_trigger i)
    then Some DelayWriteToken
    else if negb (si_disable_auto_compactions i) && (si_soft_limit i >? 0) &&
            (si_compaction_needed_bytes i >=? si_soft_limit i) then Some DelayWriteToken
    else if si_l0_delay_trigger_count i >=?
            GetL0ThresholdSpeedupCompaction (si_level0_file_num_compaction_trigger i)
              (si_level0_slowdown_writes_trigger i) then Some CompactionPressureToken
    else if si_compaction_needed_bytes i >=? si_soft_limit i / 4
    then Some CompactionPressureToken else None.
Proof.
  unfold stall_token, must_stop, must_delay, wants_speedup.
  rewrite !Z.geb_leb, !Z.gtb_ltb.
  replace (si_max_write_buffer_number i <=? si_NumNotFlushed i + 1)
    with (si_max_write_buffer_number i - 1 <=? si_NumNotFlushed i)
    by (apply eq_true_iff_eq; rewrite !Z.leb_le; lia).
  repeat match goal with |- context [?a <=? ?b] => destruct (a <=? b) end;
  repeat match goal with |- context [?a <? ?b] => destruct (a <? b) end;
  destruct (si_disable_auto_compactions i); reflexivity.
Qed.

Lemma moved_ext d e c c' : (forall t, d t = e t) -> moved d c c' -> moved e c c'.
Proof. intros He (A & B). split; [intros t; rewrite A, He; done|done]. Qed.

(** The reward for recovering from a delay leaves the counters alone. *)
Lemma recover_moved d c c' l :
  rates_ok c -> moved d c c' ->
  moved d c ((set_delayed_write_rate (mul_ratio 7 5 (delayed_write_rate_ c')) c')
               <| low_pri_bytes_per_sec := l |>).
Proof.
  intros Hr Hm. pose proof Hm as (_ & _ & Hr' & _). specialize (Hr' Hr) as [Hr1 Hr2].
  destruct (moved_trans _ _ _ _ _ Hm
    (set_delayed_write_rate_moved _ _ (mul_ratio_nonneg 7 5 (delayed_write_rate_ c')
       ltac:(lia) ltac:(lia) ltac:(lia)))) as (A & B & C & D).
  refine (conj _ (conj B (conj C D))). intros t. specialize (A t). rewrite Z.add_0_r in A.
  by destruct t.
Qed.

Lemma recalculate_spec i s c s' c' :
  rates_ok c -> (forall u, one u (write_controller_token_ s) <= counter u c) ->
  RecalculateWriteStallConditions (Some i) s c = (s', c') ->
  write_controller_token_ s' = stall_token i /\
  prev_compaction_needed_bytes_ s' = si_compaction_needed_bytes i /\
  moved (fun u => one u (stall_token i) + - one u (write_controller_token_ s)) c c'.
Proof.
  intros Hr Hle. rewrite stall_token_branches. unfold RecalculateWriteStallConditions.
  cbv zeta.
  repeat match goal with
  | |- (let '(_, _) := (let '(_, _) := GetStopToken c in _) in _) = _ -> _ =>
      destruct (GetStopToken c) as [t c1] eqn:E; apply GetStopToken_moved in E as [-> E];
      intros [= <- <-]; split; [done|split; [done|by apply assign_moved]]
  | |- (let '(_, _) := (let '(_, _) := SetupDelay ?a ?b ?p ?d c in _) in _) = _ -> _ =>
      destruct (SetupDelay a b p d c) as [t c1] eqn:E;
      apply SetupDelay_moved in E as [-> E]; [|done];
      intros [= <- <-]; split; [done|split; [done|by apply assign_moved]]
  | |- (let '(_, _) := if ?b then _ else _ in _) = _ -> _ => destruct b
  end.
  match goal with
  | |- (let '(_, _) := (let '(_, _) := ?e in _) in _) = _ -> _ =>
      destruct e as [tok c1] eqn:E
  end.
  match goal with
  | |- _ -> _ = ?k /\ _ =>
    assert (tok = k /\ moved (fun u => one u k + - one u (write_controller_token_ s)) c c1)
      as [-> Hm]
  end.
  { split_ifs; injection E as <- <-; (split; [done|]).
    1,2: exact (assign_moved _ _ _ _ (proj2 (GetCompactionPressureToken_moved c _ _ eq_refl)) Hle).
    eapply moved_ext, reset_token_moved; [|done].
    intros t. cbv beta. change (one t None) with 0. lia. }
  destruct (NeedsDelay c); intros [= <- <-]; (split; [done|split; [done|]]);
    [by apply recover_moved|done].
Qed.

Lemma release_token_moved s c s' c' :
  (forall u, one u (write_controller_token_ s) <= counter u c) ->
  release_token s c = (s', c') ->
  write_controller_token_ s' = None /\
  moved (fun u => - one u (write_controller_token_ s)) c c'.
Proof. intros Hle [= <- <-]. split; [done|]. by apply reset_token_moved. Qed.

Lemma GetDelay_moved now n c : moved (fun _ => 0) c (GetDelay now n c).2.
Proof.
  unfold GetDelay, GetDelay_sleep. cbv zeta.
  split_ifs; (refine (conj _ (conj _ (conj _ _))); [intros []; cbn; lia|done..]).
Qed.

(** ** The controller and the column families of a database *)

Record Stalls := mkStalls { st_cfs : list StallState; st_wc : WriteController }.

Inductive StallOp :=
| Recalculate (k : nat) (current_ : option StallInput)
| ReleaseToken (k : nat)
| AddColumnFamily
| AskDelay (time_now num_bytes : Z)
| SetMaxRate (write_rate : Z).

Definition stall_op (o : StallOp) (w : Stalls) : Stalls :=
  match o with
  | Recalculate k i =>
      match st_cfs w !! k with
      | Some s =>
          let '(s, c) := RecalculateWriteStallConditions i s (st_wc w) in
          mkStalls (<[k := s]> (st_cfs w)) c
      | None => w
      end
  | ReleaseToken k =>
      match st_cfs w !! k with
      | Some s =>
          let '(s, c) := release_token s (st_wc w) in mkStalls (<[k := s]> (st_cfs w)) c
      | None => w
      end
  | AddColumnFamily => mkStalls (mkStallState None 0 :: st_cfs w) (st_wc w)
  | AskDelay now n => mkStalls (st_cfs w) (GetDelay now n (st_wc w)).2
  | SetMaxRate r => mkStalls (st_cfs w) (set_max_delayed_write_rate r (st_wc w))
  end.

Definition stall_ops (os : list StallOp) (w : Stalls) : Stalls :=
  foldl (fun w o => stall_op o w) w os.

Definition rate_is_u64 (o : StallOp) : bool :=
  match o with SetMaxRate r => (0 <=? r) && (r <? 2 ^ 64) | _ => true end.

Definition stalls_inv (w : Stalls) : Prop :=
  wc_ok (st_wc w) = true /\ rates_ok (st_wc w) /\
  forall t, counter t (st_wc w) = holders t (st_cfs w).

Lemma stalls_inv_held w k s :
  stalls_inv w -> st_cfs w !! k = Some s ->
  forall u, one u (write_controller_token_ s) <= counter u (st_wc w).
Proof. intros (_ & _ & Hc) Hk u. rewrite Hc. apply (holders_lookup _ _ k), Hk. Qed.

Lemma moved_inv w k s s' c' :
  stalls_inv w -> st_cfs w !! k = Some s ->
  moved (fun u => one u (write_controller_token_ s') + - one u (write_controller_token_ s))
    (st_wc w) c' ->
  stalls_inv (mkStalls (<[k := s']> (st_cfs w)) c').
Proof.
  intros (Hok & Hr & Hc) Hk (A & B & C & D).
  split; [by etrans|split; [by apply C|]].
  intros t. cbn [st_wc st_cfs]. rewrite A, Hc, (holders_insert _ _ _ _ _ Hk).
  change (one t (write_controller_token_ s)) with (holds t s).
  change (one t (write_controller_token_ s')) with (holds t s'). lia.
Qed.

Lemma stall_op_inv o w : rate_is_u64 o = true -> stalls_inv w -> stalls_inv (stall_op o w).
Proof.
  intros Ho Hw. pose proof Hw as (Hok & Hr & Hc).
  destruct o as [k i|k| |now n|r]; cbn [stall_op].
  - destruct (st_cfs w !! k) as [s|] eqn:Hk; [|done].
    destruct (RecalculateWriteStallConditions i s (st_wc w)) as [s' c'] eqn:E.
    destruct i as [i|].
    + apply recalculate_spec in E as (Ht & _ & Hm); [|done|by apply (stalls_inv_held w k)].
      rewrite <- Ht in Hm. by eapply moved_inv.
    + injection E as <- <-. rewrite list_insert_id by done. by destruct w.
  - destruct (st_cfs w !! k) as [s|] eqn:Hk; [|done].
    destruct (release_token s (st_wc w)) as [s' c'] eqn:E.
    apply release_token_moved in E as (Ht & Hm); [|by apply (stalls_inv_held w k)].
    eapply moved_inv; [done..|]. eapply moved_ext; [|exact Hm]. intros t. by rewrite Ht.
  - split; [done|split; [done|]]. intros t. cbn [st_cfs st_wc holders].
    change (holds t (mkStallState None 0)) with 0. by rewrite Hc.
  - destruct (GetDelay_moved now n (st_wc w)) as (A & B & C & D).
    split; [by etrans|split; [by apply C|]]. intros t. cbn [st_cfs st_wc].
    by rewrite A, Hc, Z.add_0_r.
  - cbn in Ho. bprop. split; [done|split; [|intros t; rewrite <- Hc; by destruct t]].
    unfold rates_ok; cbn. split_ifs; zlia.
Qed.

Lemma stall_ops_inv os w :
  forallb rate_is_u64 os = true -> stalls_inv w -> stalls_inv (stall_ops os w).
Proof.
  unfold stall_ops. revert w. induction os as [|o os IH]; intros w Hos Hw; [done|].
  cbn in Hos |- *. bprop. apply IH; [done|]. by apply stall_op_inv.
Qed.

Definition stalls_init (rate low_pri : Z) : Stalls := mkStalls [] (WriteController_init rate low_pri).

Lemma stalls_init_inv rate low_pri : is_u64 rate -> stalls_inv (stalls_init rate low_pri).
Proof.
  intros Hr. split; [done|split; [|by intros []]].
  unfold rates_ok; cbn. split_ifs; zlia.
Qed.

Lemma IsStopped_holders w :
  stalls_inv w ->
  IsStopped (st_wc w) = true <->
  exists s, s ∈ st_cfs w /\ write_controller_token_ s = Some StopWriteToken.
Proof.
  intros (_ & _ & Hc). unfold IsStopped. specialize (Hc StopWriteToken). cbn in Hc.
  rewrite Hc, <- holders_pos, Z.gtb_lt. done.
Qed.

Lemma NeedSpeedupCompaction_holders w :
  stalls_inv w ->
  NeedSpeedupCompaction (st_wc w) = true <->
  exists s, s ∈ st_cfs w /\ write_controller_token_ s <> None.
Proof.
  intros (_ & _ & Hc). unfold NeedSpeedupCompaction, IsStopped, NeedsDelay.
  pose proof (Hc StopWriteToken) as H1. pose proof (Hc DelayWriteToken) as H2.
  pose proof (Hc CompactionPressureToken) as H3. cbn in H1, H2, H3.
  rewrite H1, H2, H3, !orb_true_iff, !Z.gtb_lt, !holders_pos. split.
  - intros [[(s & Hs & Ht)|(s & Hs & Ht)]|(s & Hs & Ht)]; exists s; (split; [done|congruence]).
  - intros (s & Hs & Ht). destruct (write_controller_token_ s) as [[]|] eqn:E; [..|done];
      eauto.
Qed.


(** C29: re-evaluating a column family gives it the token that its conditions ask
    for: a stop token when it has too many unflushed memtables, level-0 files or
    pending bytes, else a delay token, else a pressure token, else none; then all
    writes are stopped if this column family must stop, and otherwise exactly if
    another one holds a stop token. *)
Theorem stall_decision rate low_pri os k s i w :
  is_u64 rate -> forallb rate_is_u64 os = true -> w = stall_ops os (stalls_init rate low_pri) ->
  st_cfs w !! k = Some s ->
  let w' := stall_op (Recalculate k (Some i)) w in
  (exists s', st_cfs w' !! k = Some s' /\ write_controller_token_ s' = stall_token i) /\
  (IsStopped (st_wc w') = true <->
     must_stop i = true \/
     exists j s', j <> k /\ st_cfs w !! j = Some s' /\
       write_controller_token_ s' = Some StopWriteToken).
Proof.
  intros Hr Hos -> Hk. set (w := stall_ops os (stalls_init rate low_pri)) in *. cbv zeta.
  assert (Hw : stalls_inv w) by (apply stall_ops_inv, stalls_init_inv; done).
  pose proof (stall_op_inv (Recalculate k (Some i)) w eq_refl Hw) as Hw'.
  rewrite (IsStopped_holders _ Hw'). cbn [stall_op] in *. rewrite Hk in *.
  destruct (RecalculateWriteStallConditions (Some i) s (st_wc w)) as [s' c'] eqn:E.
  apply recalculate_spec in E as (Ht & _ & _); [|apply Hw|by apply (stalls_inv_held w k)].
  cbn [st_cfs st_wc]. pose proof (lookup_lt_Some _ _ _ Hk) as Hlt. split.
  - exists s'. by rewrite list_lookup_insert_eq.
  - assert (Hs : write_controller_token_ s' = Some StopWriteToken <-> must_stop i = true)
      by (rewrite Ht; unfold stall_token; split_ifs; split; congruence).
    rewrite <- Hs. split.
    + intros (x & Hx & Hxt). apply list_elem_of_lookup in Hx as [j Hj].
      destruct (decide (j = k)) as [->|Hjk].
      * rewrite list_lookup_insert_eq in Hj by done. injection Hj as ->. by left.
      * rewrite list_lookup_insert_ne in Hj by done. right. eauto.
    + intros [Hst|(j & x & Hjk & Hj & Hxt)].
      * exists s'. split; [|done]. apply list_elem_of_lookup. exists k.
        by rewrite list_lookup_insert_eq.
      * exists x. split; [|done]. apply list_elem_of_lookup. exists j.
        by rewrite list_lookup_insert_ne.
Qed.

(** ** Rates *)


(** Writes that ask for their delay, sleep as told and then wait [wait] more
    before the next one: the time when all are done and the controller. *)
Fixpoint run_writes (t : Z) (ws : list (Z * Z)) (c : WriteController) : Z * WriteController :=
  match ws with
  | [] => (t, c)
  | (wait, n) :: ws =>
      let now := t + wait in
      let '(d, c) := GetDelay now n c in run_writes (now + d) ws c
  end.

Definition slack : Z := 2 ^ 50 + 2.

(** The bytes written so far and the bytes left are covered by the time from
    [t0] up to [x]. *)
Definition covered (t0 b k x : Z) (c : WriteController) : Prop :=
  total_stopped_ c = 0 /\ 0 < total_delayed_ c /\ 0 <= bytes_left_ c /\
  1 <= delayed_write_rate_ c /\ t0 <= x /\ 0 <= k /\
  (b + bytes_left_ c) * 1000000 * 2 ^ 50 <= delayed_write_rate_ c * slack * (x - t0 + k).

(** Credit never runs ahead of the clock. *)
Definition bucket_inv (t0 b k t : Z) (c : WriteController) : Prop :=
  let x := if last_refill_time_ c =? 0 then t0 else last_refill_time_ c in
  0 <= last_refill_time_ c /\ x <= t /\ covered t0 b k x c.

Lemma u64_le z : 0 <= z -> 0 <= u64 z <= z.
Proof. intros Hz. pose proof (Z.mod_le z (2 ^ 64)). pose proof (u64_range z). unfold u64 in *. zlia. Qed.

Lemma single_refill_bound r :
  1 <= r -> 0 <= u64 (r * kRefillInterval) / kMicrosPerSecond /\
  u64 (r * kRefillInterval) / kMicrosPerSecond * 1000000 * 2 ^ 50 <= r * slack * 1024.
Proof.
  intros Hr. unfold kRefillInterval, kMicrosPerSecond, slack.
  pose proof (u64_le (r * 1024)). zlia.
Qed.

Lemma sleep_bound n r :
  0 <= n -> 1 <= r -> n * 1000000 * 2 ^ 50 <= r * slack * (sleep n r + 1).
Proof.
  intros Hn Hr. pose proof (sleep_lower n r Hn) as HL. pose proof (sleep_nonneg n r Hn) as HN.
  unfold slack. set (s := sleep n r) in *. clearbody s. eval_pow.
  assert (0 <= (s + 1) * r) by nia. nia.
Qed.

Lemma GetDelay_sleep_bucket t0 b k x now n c d c' :
  0 < t0 -> 0 <= n -> covered t0 b k x c -> x <= now ->
  sleep n (delayed_write_rate_ c) < 2 ^ 64 ->
  GetDelay_sleep now n 0 c = (d, c') -> now + d < 2 ^ 64 ->
  0 <= d /\ delayed_write_rate_ c' = delayed_write_rate_ c /\
  bucket_inv t0 (b + n) (k + 1) (now + d) c'.
Proof.
  intros Ht0 Hn (Hs & Hd & HB & Hr & Hx & Hk & Hc) Hxn Hsl.
  pose proof (single_refill_bound _ Hr) as [Hsg0 Hsg].
  pose proof (sleep_bound n _ Hn Hr) as Hsb.
  pose proof (sleep_nonneg n (delayed_write_rate_ c) Hn ltac:(lia)) as Hsn.
  unfold GetDelay_sleep. cbv zeta.
  set (g := u64 (delayed_write_rate_ c * kRefillInterval) / kMicrosPerSecond) in *. clearbody g.
  assert (Hmul : delayed_write_rate_ c * slack * (x - t0 + k) <=
                 delayed_write_rate_ c * slack * (now - t0 + k))
    by (apply Z.mul_le_mono_nonneg_l; unfold slack; zlia).
  destruct (_ >=? n) eqn:Hge; intros [= <- <-] Hlt.
  - apply Z.geb_le in Hge. pose proof (u64_le (bytes_left_ c + g) ltac:(lia)).
    rewrite Z.add_0_r in Hlt |- *. unfold kRefillInterval in *.
    rewrite (u64_small 1024) in Hlt |- * by zlia.
    unfold bucket_inv, covered. cbn [bytes_left_ last_refill_time_ total_stopped_ total_delayed_
      delayed_write_rate_ set].
    rewrite (u64_small (now + 1024)), (u64_small (_ - n)) by
      (pose proof (u64_range (bytes_left_ c + g)); zlia).
    rewrite (proj2 (Z.eqb_neq (now + 1024) 0)) by lia.
    repeat (split; [lia|]).
    set (P := delayed_write_rate_ c * slack) in *. zlia.
  - rewrite Z.add_0_r in Hlt |- *. set (s := sleep n (delayed_write_rate_ c)) in *.
    rewrite (u64_small s) in Hlt |- * by zlia.
    unfold bucket_inv, covered. cbn [bytes_left_ last_refill_time_ total_stopped_ total_delayed_
      delayed_write_rate_ set].
    rewrite (u64_small (now + s)) by zlia.
    rewrite (proj2 (Z.eqb_neq (now + s) 0)) by lia.
    set (P := delayed_write_rate_ c * slack) in *.
    repeat (split; [lia|]). zlia.
Qed.

Lemma refill_covered t0 b k now c :
  last_refill_time_ c <> 0 -> last_refill_time_ c <= now ->
  covered t0 b k (last_refill_time_ c) c ->
  covered t0 b k now
    (c <| bytes_left_ ::= fun x =>
            u64 (x + refill (now - last_refill_time_ c) (delayed_write_rate_ c)) |>).
Proof.
  intros HL Hle (Hs & Hd & HB & Hr & Hx & Hk & Hc).
  pose proof (refill_upper (now - last_refill_time_ c) (delayed_write_rate_ c)
    ltac:(lia) ltac:(lia)) as HU.
  pose proof (refill_nonneg (now - last_refill_time_ c) (delayed_write_rate_ c)
    ltac:(lia) ltac:(lia)) as HN.
  set (g := refill _ _) in *. clearbody g.
  pose proof (u64_le (bytes_left_ c + g) ltac:(lia)) as Hu.
  unfold covered. cbn [bytes_left_ total_stopped_ total_delayed_ delayed_write_rate_ set].
  repeat (split; [lia|]). unfold slack in *.
  assert (0 <= (now - last_refill_time_ c) * delayed_write_rate_ c) by nia. zlia.
Qed.

Lemma covered_le t0 b k x y c : x <= y -> covered t0 b k x c -> covered t0 b k y c.
Proof.
  intros Hxy (Hs & Hd & HB & Hr & Hx & Hk & Hc). repeat (split; [lia|]).
  etrans; [exact Hc|]. apply Z.mul_le_mono_nonneg_l; unfold slack; zlia.
Qed.

(** Bytes taken from the credit. *)
Lemma spend_covered t0 b k x n c (f : Z -> Z) :
  f (bytes_left_ c) = bytes_left_ c - n -> 0 <= n <= bytes_left_ c -> covered t0 b k x c ->
  covered t0 (b + n) (k + 1) x (c <| bytes_left_ ::= f |>).
Proof.
  intros Hf Hn (Hs & Hd & HB & Hr & Hx & Hk & Hc).
  unfold covered. cbn [bytes_left_ total_stopped_ total_delayed_ delayed_write_rate_ set].
  rewrite Hf. repeat (split; [lia|]). unfold slack in *. zlia.
Qed.

Lemma GetDelay_bucket t0 b k t now n c d c' :
  0 < t0 -> 0 <= n -> bucket_inv t0 b k t c -> t <= now ->
  sleep n (delayed_write_rate_ c) < 2 ^ 64 ->
  GetDelay now n c = (d, c') -> now + d < 2 ^ 64 ->
  0 <= d /\ delayed_write_rate_ c' = delayed_write_rate_ c /\
  bucket_inv t0 (b + n) (k + 1) (now + d) c'.
Proof.
  intros Ht0 Hn (HL & Hx & Hcov) Hnow Hsl. unfold GetDelay.
  pose proof Hcov as (Hs & Hd & _). rewrite Hs. change (0 >? 0) with false.
  rewrite (proj2 (Z.eqb_neq (total_delayed_ c) 0)) by lia. cbv iota.
  destruct (bytes_left_ c >=? n) eqn:Hge.
  { apply Z.geb_le in Hge. intros [= <- <-] _. split; [done|split; [done|]].
    split; [done|]. split; [cbn in *; lia|].
    exact (spend_covered t0 b k _ n c (fun x => x - n) eq_refl (conj Hn Hge) Hcov). }
  destruct (last_refill_time_ c =? 0) eqn:H0; cbn [negb] in *.
  { apply GetDelay_sleep_bucket with (x := t0); auto; lia. }
  apply Z.eqb_neq in H0.
  destruct (last_refill_time_ c >? now) eqn:Hgt; [apply Z.gtb_lt in Hgt; lia|]. cbv zeta.
  assert (Hle : last_refill_time_ c <= now) by lia.
  pose proof (refill_covered _ _ _ _ _ H0 Hle Hcov) as Hcov'.
  set (c1 := c <| bytes_left_ ::= _ |>) in *.
  destruct (_ && _) eqn:Hearly;
    [|exact (GetDelay_sleep_bucket t0 b k now now n c1 d c' Ht0 Hn Hcov' (Z.le_refl _) Hsl)].
  bprop. intros [= <- <-] Hlt. split; [done|split; [done|]].
  split; [cbn; lia|]. cbn [last_refill_time_ set].
  rewrite (proj2 (Z.eqb_neq now 0)) by lia. split; [lia|].
  assert (Hspend : 0 <= n <= bytes_left_ c1) by zlia.
  set (c2 := c1 <| last_refill_time_ := now |>).
  assert (Hcov2 : covered t0 b k now c2) by exact Hcov'.
  exact (spend_covered t0 b k now n c2 (fun x => x - n) eq_refl Hspend Hcov2).
Qed.

Definition total_bytes (ws : list (Z * Z)) : Z := foldr (fun w b => w.2 + b) 0 ws.

Definition write_ok (rate : Z) (w : Z * Z) : bool :=
  (0 <=? w.1) && (0 <=? w.2) && (sleep w.2 rate <? 2 ^ 64).

Lemma run_writes_mono ws t c : 
  forallb (fun w => 0 <=? w.1) ws = true -> t <= (run_writes t ws c).1.
Proof.
  revert t c. induction ws as [|[wait n] ws IH]; intros t c Hok; cbn in *; [lia|]. bprop.
  destruct (GetDelay (t + wait) n c) as [d c1] eqn:E.
  assert (0 <= d).
  { unfold GetDelay, GetDelay_sleep in E. cbv zeta in E.
    split_ifs; injection E as <- <-; try done; apply u64_range. }
  specialize (IH (t + wait + d) c1 ltac:(done)). lia.
Qed.

Lemma run_writes_bucket t0 ws : forall b k t c,
  0 < t0 -> bucket_inv t0 b k t c -> forallb (write_ok (delayed_write_rate_ c)) ws = true ->
  (run_writes t ws c).1 < 2 ^ 64 ->
  delayed_write_rate_ (run_writes t ws c).2 = delayed_write_rate_ c /\
  bucket_inv t0 (b + total_bytes ws) (k + Z.of_nat (length ws))
    (run_writes t ws c).1 (run_writes t ws c).2.
Proof.
  induction ws as [|[wait n] ws IH]; intros b k t c Ht0 Hinv Hok Hlt.
  - cbn [run_writes total_bytes foldr length fst snd Z.of_nat]. by rewrite !Z.add_0_r.
  - cbn [forallb] in Hok. cbn [run_writes] in Hlt |- *.
    apply andb_true_iff in Hok as [Hw Hok]. unfold write_ok in Hw. cbn [fst snd] in Hw. bprop.
    destruct (GetDelay (t + wait) n c) as [d c1] eqn:E.
    assert (Hm : t + wait + d <= (run_writes (t + wait + d) ws c1).1).
    { apply run_writes_mono, forallb_forall. intros w Hin.
      rewrite forallb_forall in Hok. specialize (Hok w Hin). unfold write_ok in Hok. by bprop. }
    destruct (GetDelay_bucket t0 b k t (t + wait) n c d c1) as (Hd & Hr & Hinv'); try done; try zlia.
    rewrite <- Hr in Hok. destruct (IH _ _ _ _ Ht0 Hinv' Hok Hlt) as [Hr' Hfin].
    split; [congruence|]. cbn [total_bytes foldr length snd].
    fold (total_bytes ws). rewrite Nat2Z.inj_succ, Z.add_assoc.
    by replace (k + Z.succ (Z.of_nat (length ws))) with (k + 1 + Z.of_nat (length ws)) by lia.
Qed.

(** C31: from the moment a delay token is handed out, writers that sleep as they
    are told write at most the delayed rate times the elapsed time, up to one
    microsecond's worth of bytes per write for the truncation of the sleep and to
    one part in [2^49] for floating point; 64-bit wrap-around of the credit never
    lets more through. *)
Theorem delayed_writes_throttled rate c t c0 t0 ws :
  0 <= rate -> 1 <= max_delayed_write_rate_ c -> total_stopped_ c = 0 -> 0 <= total_delayed_ c ->
  GetDelayToken rate c = (t, c0) -> 0 < t0 ->
  forallb (write_ok (delayed_write_rate_ c0)) ws = true ->
  (run_writes t0 ws c0).1 < 2 ^ 64 ->
  let elapsed := (run_writes t0 ws c0).1 - t0 in
  total_bytes ws * 1000000 * 2 ^ 50 <=
  delayed_write_rate_ c0 * (2 ^ 50 + 2) * (elapsed + Z.of_nat (length ws)).
Proof.
  intros Hrate Hmax Hs0 Hdel E Ht0 Hok Hlt elapsed.
  assert (Hinv : bucket_inv t0 0 0 t0 c0).
  { injection E as _ <-. unfold bucket_inv, covered, set_delayed_write_rate.
    cbn -[Z.mul slack]. split_ifs; repeat split; zlia. }
  destruct (run_writes_bucket t0 ws _ _ _ _ Ht0 Hinv Hok Hlt) as [Hr (HL & Hx & Hcov)].
  apply (covered_le _ _ _ _ _ _ Hx) in Hcov as (_ & _ & HB & _ & _ & _ & Hc).
  rewrite Hr in Hc. unfold slack in Hc. subst elapsed.
  set (P := delayed_write_rate_ c0 * (2 ^ 50 + 2)) in *. zlia.
Qed.

End Decide.

(** ** Examples *)

(** A column family with five of six level-0 files before the stop. *)
Definition example_input (l0 : Z) : StallInput := mkStall 1 l0 1000 6 false 2 4 6 100000 200000.

Definition example_ops : list StallOp :=
  [AddColumnFamily; AddColumnFamily; Recalculate 0 (Some (example_input 5));
   Recalculate 1 (Some (example_input 7)); AskDelay 10 100; Recalculate 1 (Some (example_input 3));
   SetMaxRate 0; SetMaxRate 2000000; ReleaseToken 0; Recalculate 0 (Some (example_input 4))].


Lemma stall_decision_witness :
  let w := stall_ops example_ops (stalls_init 1000000 500000) in
  IsStopped (st_wc w) = false /\
  IsStopped (st_wc (stall_op (Recalculate 1 (Some (example_input 9))) w)) = true.
Proof.
  split; [reflexivity|].
  destruct (stall_decision 1000000 500000 example_ops 1
    (mkStallState (Some CompactionPressureToken) 1000) (example_input 9) _
    ltac:(unfold is_u64; lia) eq_refl eq_refl eq_refl) as [_ [_ H]].
  apply H. left. reflexivity.
Defined.

Definition example_delayed : WriteController :=
  mkWC 0 1 0 0 0 1000000 500000 0 true.


Lemma delayed_writes_throttled_witness :
  let c0 := (GetDelayToken 500000 example_delayed).2 in
  let ws := [(0, 100); (5, 4000); (2000, 700); (0, 10)] in
  (run_writes 1000 ws c0).1 = 12029 /\
  total_bytes ws * 1000000 * 2 ^ 50 <= 500000 * (2 ^ 50 + 2) * ((run_writes 1000 ws c0).1 - 1000 + 4).
Proof.
  split; [vm_compute; reflexivity|].
  apply (delayed_writes_throttled 500000 example_delayed DelayWriteToken
    (GetDelayToken 500000 example_delayed).2 1000 [(0, 100); (5, 4000); (2000, 700); (0, 10)]);
    first [vm_compute; reflexivity | vm_compute; discriminate].
Defined.
