(* ===== verification/LogFormat.v ===== *)
(** * The write-ahead log and manifest format (db/log_{format.h,writer.cc,reader.cc})

    Records are cut into fragments that do not cross a 32 KB block; each fragment
    has a header with a masked checksum, a length, a type and, in recyclable logs,
    the low 32 bits of the log number.  The file is reached through two
    interfaces, [WritableFile] and [SequentialFile]. *)

From stdpp Require Import base list strings.
From Stdlib Require Import ZArith Lia.
From S2P Require Import Prelude Coding Crc32c.
#[local] Open Scope Z_scope.

(** ** Format *)

Definition kZeroType : Z := 0.
Definition kFullType : Z := 1.
Definition kFirstType : Z := 2.
Definition kMiddleType : Z := 3.
Definition kLastType : Z := 4.
Definition kRecyclableFullType : Z := 5.
Definition kRecyclableFirstType : Z := 6.
Definition kRecyclableMiddleType : Z := 7.
Definition kRecyclableLastType : Z := 8.
Definition kMaxRecordType : Z := kRecyclableLastType.

Definition kBlockSize : Z := 32768.
Definition kHeaderSize : Z := 4 + 2 + 1.
Definition kRecyclableHeaderSize : Z := 4 + 1 + 4 + 2.

Definition size (b : bytes) : Z := Z.of_nat (length b).

(** ** Files *)

(** A file being written: what an append and a flush return, and the bytes it
    holds. *)
Class WritableFile (D : Type) := {
  Append : bytes -> D -> Status * D;
  Flush : D -> Status * D;
  contents : D -> bytes
}.

(** Appends and flushes that succeed: the data is at the end of the file. *)
Class ReliableWrites (D : Type) `{WritableFile D} : Prop := {
  append_ok b d : (Append b d).1 = OK /\ contents (Append b d).2 = contents d ++ b;
  flush_ok d : (Flush d).1 = OK /\ contents (Flush d).2 = contents d
}.

(** A file being read from the front. *)
Class SequentialFile (F : Type) := {
  Read : Z -> F -> Status * bytes * F;
  Skip : Z -> F -> Status * F;
  remaining : F -> bytes
}.

(** Reads that succeed return as many bytes as they are asked for, or all that
    are left. *)
Class ReliableReads (F : Type) `{SequentialFile F} : Prop := {
  read_ok n f : (Read n f).1.1 = OK /\
    (Read n f).1.2 = take (Z.to_nat n) (remaining f) /\
    remaining (Read n f).2 = drop (Z.to_nat n) (remaining f);
  skip_ok n f : (Skip n f).1 = OK /\ remaining (Skip n f).2 = drop (Z.to_nat n) (remaining f)
}.

(** ** Writer *)

Record Writer (D : Type) := mkWriter {
  dest_ : D;
  block_offset_ : Z;
  w_log_number_ : Z;
  recycle_log_files_ : bool;
  manual_flush_ : bool;
  w_ok : bool                      (** the assertions held *)
}.
Arguments mkWriter {D}.
Arguments dest_ {D}.
Arguments block_offset_ {D}.
Arguments w_log_number_ {D}.
Arguments recycle_log_files_ {D}.
Arguments manual_flush_ {D}.
Arguments w_ok {D}.

#[export] Instance Writer_settable D : Settable (Writer D) := fun r =>
  mkWriter (dest_ r) (block_offset_ r) (w_log_number_ r) (recycle_log_files_ r)
    (manual_flush_ r) (w_ok r).

Section Writing.
Context {D : Type} `{WritableFile D}.

Definition Writer_init (dest : D) (log_number : Z) (recycle manual_flush : bool) : Writer D :=
  mkWriter dest 0 log_number recycle manual_flush true.

Definition WriteBuffer (w : Writer D) : Status * Writer D :=
  let '(s, d) := Flush (dest_ w) in (s, w <| dest_ := d |>).

Definition type_crc_ (t : Z) : Z := Value [byte_of_Z t].

Definition w_assert (b : bool) (w : Writer D) : Writer D := w <| w_ok ::= fun a => a && b |>.

(** Header and payload are appended, and flushed unless that is left to the
    caller. *)
Definition append_record (manual_flush : bool) (buf ptr : bytes) (d : D) : Status * D :=
  let '(s, d) := Append buf d in
  if ok s then
    let '(s, d) := Append ptr d in
    if ok s then (if negb manual_flush then Flush d else (s, d)) else (s, d)
  else (s, d).

Definition EmitPhysicalRecord (t : Z) (ptr : bytes) (w : Writer D) : Status * Writer D :=
  let n := size ptr in
  let w := w_assert (n <=? 0xffff) w in
  let crc := type_crc_ t in
  let '(header_size, w, crc, tail) :=
    if t <? kRecyclableFullType then
      (kHeaderSize, w_assert (block_offset_ w + kHeaderSize + n <=? kBlockSize) w, crc, [])
    else
      let num := EncodeFixed32 (u32 (w_log_number_ w)) in
      (kRecyclableHeaderSize,
       w_assert (block_offset_ w + kRecyclableHeaderSize + n <=? kBlockSize) w,
       Extend crc num, num) in
  let crc := Extend crc ptr in
  let crc := Mask crc in
  let buf := EncodeFixed32 crc ++
    [byte_of_Z (Z.land n 0xff); byte_of_Z (Z.shiftr n 8); byte_of_Z t] ++ tail in
  let '(s, d) := append_record (manual_flush_ w) buf ptr (dest_ w) in
  (s, w <| dest_ := d |> <| block_offset_ ::= fun o => o + header_size + n |>).

(** The type of a fragment that begins and ends its record, or not. *)
Definition fragment_type (recycle begin end_ : bool) : Z :=
  if begin && end_ then (if recycle then kRecyclableFullType else kFullType)
  else if begin then (if recycle then kRecyclableFirstType else kFirstType)
  else if end_ then (if recycle then kRecyclableLastType else kLastType)
  else if recycle then kRecyclableMiddleType else kMiddleType.

(** One pass of the loop: the status, the bytes left and the writer. *)
Definition AddRecord_iter (begin : bool) (ptr : bytes) (w : Writer D)
    : Status * bytes * Writer D :=
  let left_ := size ptr in
  let header_size := if recycle_log_files_ w then kRecyclableHeaderSize else kHeaderSize in
  let leftover := kBlockSize - block_offset_ w in
  let w := w_assert (leftover >=? 0) w in
  let w :=
    if leftover <? header_size then
      let w :=
        if leftover >? 0 then
          (w_assert (header_size <=? 11) w)
            <| dest_ := (Append (repeat Byte.x00 (Z.to_nat leftover)) (dest_ w)).2 |>
        else w in
      w <| block_offset_ := 0 |>
    else w in
  let w := w_assert (kBlockSize - block_offset_ w >=? header_size) w in
  let avail := kBlockSize - block_offset_ w - header_size in
  let fragment_length := if left_ <? avail then left_ else avail in
  let end_ := left_ =? fragment_length in
  let type := fragment_type (recycle_log_files_ w) begin end_ in
  let '(s, w) := EmitPhysicalRecord type (take (Z.to_nat fragment_length) ptr) w in
  (s, drop (Z.to_nat fragment_length) ptr, w).

(** Every pass but one consumes a byte. *)
Fixpoint AddRecord_loop (fuel : nat) (begin : bool) (ptr : bytes) (w : Writer D)
    : option (Status * Writer D) :=
  match fuel with
  | O => None
  | S fuel =>
      let '(s, ptr, w) := AddRecord_iter begin ptr w in
      if ok s && (size ptr >? 0) then AddRecord_loop fuel false ptr w else Some (s, w)
  end.

Definition AddRecord (slice : bytes) (w : Writer D) : option (Status * Writer D) :=
  AddRecord_loop (length slice + 2) true slice w.

End Writing.

(** ** Reader *)

Definition kEof : Z := kMaxRecordType + 1.
Definition kBadRecord : Z := kMaxRecordType + 2.
Definition kBadHeader : Z := kMaxRecordType + 3.
Definition kOldRecord : Z := kMaxRecordType + 4.
Definition kBadRecordLen : Z := kMaxRecordType + 5.
Definition kBadRecordChecksum : Z := kMaxRecordType + 6.

Inductive WALRecoveryMode :=
| kTolerateCorruptedTailRecords | kAbsoluteConsistency | kPointInTimeRecovery
| kSkipAnyCorruptedRecords.

#[global] Instance WALRecoveryMode_eq_dec : EqDecision WALRecoveryMode.
Proof. solve_decision. Defined.

Record Reader (F : Type) := mkReader {
  file_ : F;
  has_reporter : bool;             (** [reporter_ != nullptr] *)
  reports : list (Z * Status);     (** what the reporter was told, latest first *)
  checksum_ : bool;
  buffer_ : bytes;
  eof_ : bool;
  read_error_ : bool;
  eof_offset_ : Z;
  last_record_offset_ : Z;
  end_of_buffer_offset_ : Z;
  initial_offset_ : Z;
  r_log_number_ : Z;
  recycled_ : bool
}.
Arguments mkReader {F}.
Arguments file_ {F}.
Arguments has_reporter {F}.
Arguments reports {F}.
Arguments checksum_ {F}.
Arguments buffer_ {F}.
Arguments eof_ {F}.
Arguments read_error_ {F}.
Arguments eof_offset_ {F}.
Arguments last_record_offset_ {F}.
Arguments end_of_buffer_offset_ {F}.
Arguments initial_offset_ {F}.
Arguments r_log_number_ {F}.
Arguments recycled_ {F}.

#[export] Instance Reader_settable F : Settable (Reader F) := fun r =>
  mkReader (file_ r) (has_reporter r) (reports r) (checksum_ r) (buffer_ r) (eof_ r)
    (read_error_ r) (eof_offset_ r) (last_record_offset_ r) (end_of_buffer_offset_ r)
    (initial_offset_ r) (r_log_number_ r) (recycled_ r).

(** Projections of an updated reader. *)
Ltac rd_simpl :=
  cbn [file_ has_reporter reports checksum_ buffer_ eof_ read_error_ eof_offset_
       last_record_offset_ end_of_buffer_offset_ initial_offset_ r_log_number_ recycled_ set].

Section Reading.
Context {F : Type} `{SequentialFile F}.

Definition Reader_init (file : F) (reporter checksum : bool) (initial_offset log_num : Z)
    : Reader F :=
  mkReader file reporter [] checksum [] false false 0 0 0 initial_offset log_num false.

Definition ReportDrop (n : Z) (reason : Status) (r : Reader F) : Reader F :=
  if has_reporter r &&
     (u64 (end_of_buffer_offset_ r - size (buffer_ r) - n) >=? initial_offset_ r)
  then r <| reports ::= cons (n, reason) |> else r.

Definition ReportCorruption (n : Z) (reason : string) (r : Reader F) : Reader F :=
  ReportDrop n (Corruption reason) r.

Definition SkipToInitialBlock (r : Reader F) : bool * Reader F :=
  let initial_offset_in_block := initial_offset_ r mod kBlockSize in
  let block_start_location := initial_offset_ r - initial_offset_in_block in
  let block_start_location :=
    if initial_offset_in_block >? kBlockSize - 6
    then u64 (block_start_location + kBlockSize) else block_start_location in
  let r := r <| end_of_buffer_offset_ := block_start_location |> in
  if block_start_location >? 0 then
    let '(skip_status, f) := Skip block_start_location (file_ r) in
    let r := r <| file_ := f |> in
    if negb (ok skip_status) then (false, ReportDrop block_start_location skip_status r)
    else (true, r)
  else (true, r).

(** [inl r] when it returned true, [inr (error, drop_size, r)] otherwise. *)
Definition ReadMore (drop_size : Z) (r : Reader F) : Reader F + (Z * Z * Reader F) :=
  if negb (eof_ r) && negb (read_error_ r) then
    let '(status, b, f) := Read kBlockSize (file_ r) in
    let r := r <| buffer_ := b |> <| file_ := f |> in
    let r := r <| end_of_buffer_offset_ ::= fun o => u64 (o + size (buffer_ r)) |> in
    if negb (ok status) then
      let r := r <| buffer_ := [] |> in
      let r := ReportDrop kBlockSize status r in
      inr (kEof, drop_size, r <| read_error_ := true |>)
    else if size (buffer_ r) <? kBlockSize then
      inl (r <| eof_ := true |> <| eof_offset_ := size (buffer_ r) |>)
    else inl r
  else if negb (size (buffer_ r) =? 0) then
    inr (kBadHeader, size (buffer_ r), r <| buffer_ := [] |>)
  else inr (kEof, drop_size, r <| buffer_ := [] |>).

(** A [char] read into an [unsigned int] is sign-extended. *)
Definition char_to_uint (b : byte) : Z :=
  let z := Z_of_byte b in if z <? 128 then z else z - 256 + 2 ^ 32.

Definition is_recyclable (type : Z) : bool :=
  (type >=? kRecyclableFullType) && (type <=? kRecyclableLastType).

(** The part of the loop after the header is known to be in the buffer. *)
Definition ParsePhysicalRecord (type header_size drop_size : Z) (r : Reader F)
    : Z * bytes * Z * Reader F :=
  let header := buffer_ r in
  let length_ := Z.lor (char_at header 4) (Z.shiftl (char_at header 5) 8) in
  if header_size + length_ >? size (buffer_ r) then
    let drop_size := size (buffer_ r) in
    let r := r <| buffer_ := [] |> in
    if negb (eof_ r) then (kBadRecordLen, [], drop_size, r)
    else if negb (drop_size =? 0) then (kBadHeader, [], drop_size, r)
    else (kEof, [], drop_size, r)
  else if (type =? kZeroType) && (length_ =? 0) then
    (kBadRecord, [], drop_size, r <| buffer_ := [] |>)
  else if checksum_ r &&
          negb (Value (take (Z.to_nat (length_ + header_size - 6)) (drop 6 header)) =?
                Unmask (DecodeFixed32 header)) then
    let drop_size := size (buffer_ r) in
    (kBadRecordChecksum, [], drop_size, r <| buffer_ := [] |>)
  else
    let r := r <| buffer_ ::= drop (Z.to_nat (header_size + length_)) |> in
    if u64 (end_of_buffer_offset_ r - size (buffer_ r) - header_size - length_) <?
       initial_offset_ r
    then (kBadRecord, [], drop_size, r)
    else (type, take (Z.to_nat length_) (drop (Z.to_nat header_size) header), drop_size, r).

Fixpoint ReadPhysicalRecord_loop (fuel : nat) (drop_size : Z) (r : Reader F)
    : option (Z * bytes * Z * Reader F) :=
  match fuel with
  | O => None
  | S fuel =>
      let more r :=
        match ReadMore drop_size r with
        | inl r => ReadPhysicalRecord_loop fuel drop_size r
        | inr (error, drop_size, r) => Some (error, [], drop_size, r)
        end in
      if size (buffer_ r) <? kHeaderSize then more r
      else
        let header := buffer_ r in
        let type := char_to_uint (nth 6 header Byte.x00) in
        if is_recyclable type then
          let r :=
            if u64 (end_of_buffer_offset_ r - size (buffer_ r)) =? 0
            then r <| recycled_ := true |> else r in
          if size (buffer_ r) <? kRecyclableHeaderSize then more r
          else if negb (DecodeFixed32 (drop 7 header) =? r_log_number_ r)
          then Some (kOldRecord, [], drop_size, r)
          else Some (ParsePhysicalRecord type kRecyclableHeaderSize drop_size r)
        else Some (ParsePhysicalRecord type kHeaderSize drop_size r)
  end.

(** A pass that reads more is followed by one that finds a header, or by one that
    finds the end of the file; four passes are enough. *)
Definition ReadPhysicalRecord (r : Reader F) : option (Z * bytes * Z * Reader F) :=
  ReadPhysicalRecord_loop 4 0 r.

(** The local variables of [ReadRecord]. *)
Record ReadState := mkReadState {
  scratch : bytes;
  in_fragmented_record : bool;
  prospective_record_offset : Z
}.

#[export] Instance ReadState_settable : Settable ReadState := fun s =>
  mkReadState (scratch s) (in_fragmented_record s) (prospective_record_offset s).

Inductive ReadStep :=
| Returns (found : bool) (record : bytes) (r : Reader F)
| Continues (s : ReadState) (r : Reader F).

Definition drop_fragments (s : ReadState) : ReadState :=
  s <| scratch := [] |> <| in_fragmented_record := false |>.

Definition report_middle (s : ReadState) (r : Reader F) : ReadStep :=
  if in_fragmented_record s
  then Continues (drop_fragments s)
         (ReportCorruption (size (scratch s)) "error in middle of record" r)
  else Continues s r.

Definition report_trailing (mode : WALRecoveryMode) (s : ReadState) (r : Reader F) : Reader F :=
  if in_fragmented_record s && bool_decide (mode = kAbsoluteConsistency)
  then ReportCorruption (size (scratch s)) "error reading trailing data" r else r.

(** The switch on the type of a physical record. *)
Definition ReadRecord_switch (mode : WALRecoveryMode) (physical_record_offset : Z)
    (record_type : Z) (fragment : bytes) (drop_size : Z) (s : ReadState) (r : Reader F)
    : ReadStep :=
  if (record_type =? kFullType) || (record_type =? kRecyclableFullType) then
    let r := if in_fragmented_record s && negb (size (scratch s) =? 0)
             then ReportCorruption (size (scratch s)) "partial record without end(1)" r else r in
    Returns true fragment (r <| last_record_offset_ := physical_record_offset |>)
  else if (record_type =? kFirstType) || (record_type =? kRecyclableFirstType) then
    let r := if in_fragmented_record s && negb (size (scratch s) =? 0)
             then ReportCorruption (size (scratch s)) "partial record without end(2)" r else r in
    Continues (mkReadState fragment true physical_record_offset) r
  else if (record_type =? kMiddleType) || (record_type =? kRecyclableMiddleType) then
    if negb (in_fragmented_record s)
    then Continues s (ReportCorruption (size fragment) "missing start of fragmented record(1)" r)
    else Continues (s <| scratch ::= fun b => b ++ fragment |>) r
  else if (record_type =? kLastType) || (record_type =? kRecyclableLastType) then
    if negb (in_fragmented_record s)
    then Continues s (ReportCorruption (size fragment) "missing start of fragmented record(2)" r)
    else Returns true (scratch s ++ fragment)
           (r <| last_record_offset_ := prospective_record_offset s |>)
  else if record_type =? kBadHeader then
    let r := if bool_decide (mode = kAbsoluteConsistency)
             then ReportCorruption drop_size "truncated header" r else r in
    Returns false [] (report_trailing mode s r)
  else if record_type =? kEof then
    Returns false [] (report_trailing mode s r)
  else if record_type =? kOldRecord then
    if negb (bool_decide (mode = kSkipAnyCorruptedRecords))
    then Returns false [] (report_trailing mode s r)
    else report_middle s r
  else if record_type =? kBadRecord then report_middle s r
  else if (record_type =? kBadRecordLen) || (record_type =? kBadRecordChecksum) then
    if recycled_ r && bool_decide (mode = kTolerateCorruptedTailRecords)
    then Returns false [] r
    else
      let r := if record_type =? kBadRecordLen
               then ReportCorruption drop_size "bad record length" r
               else ReportCorruption drop_size "checksum mismatch" r in
      report_middle s r
  else
    let r := ReportCorruption
               (size fragment + (if in_fragmented_record s then size (scratch s) else 0))
               "unknown record type" r in
    Continues (drop_fragments s) r.

Fixpoint ReadRecord_loop (fuel : nat) (mode : WALRecoveryMode) (s : ReadState) (r : Reader F)
    : option (bool * bytes * Reader F) :=
  match fuel with
  | O => None
  | S fuel =>
      let physical_record_offset := u64 (end_of_buffer_offset_ r - size (buffer_ r)) in
      match ReadPhysicalRecord r with
      | None => None
      | Some (record_type, fragment, drop_size, r) =>
          match ReadRecord_switch mode physical_record_offset record_type fragment drop_size s r with
          | Returns found record r => Some (found, record, r)
          | Continues s r => ReadRecord_loop fuel mode s r
          end
      end
  end.

(** Bytes that are left: each pass consumes some, so they bound the passes. *)
Definition unread (r : Reader F) : nat := length (buffer_ r) + length (remaining (file_ r)).

Definition ReadRecord (mode : WALRecoveryMode) (r : Reader F) : option (bool * bytes * Reader F) :=
  let '(positioned, r) :=
    if last_record_offset_ r <? initial_offset_ r then SkipToInitialBlock r else (true, r) in
  if negb positioned then Some (false, [], r)
  else ReadRecord_loop (unread r + 1) mode (mkReadState [] false 0) r.

Definition LastRecordOffset (r : Reader F) : Z := last_record_offset_ r.

Definition UnmarkEOF (r : Reader F) : Reader F :=
  if read_error_ r then r
  else
    let r := r <| eof_ := false |> in
    if eof_offset_ r =? 0 then r
    else
      let remaining_ := kBlockSize - eof_offset_ r in
      let '(status, read_buffer, f) := Read remaining_ (file_ r) in
      let added := size read_buffer in
      let r := r <| file_ := f |> <| end_of_buffer_offset_ ::= fun o => u64 (o + added) |> in
      if negb (ok status) then
        let r := if added >? 0 then ReportDrop added status r else r in
        r <| read_error_ := true |>
      else
        let r := r <| buffer_ ::= fun b => b ++ read_buffer |> in
        if added <? remaining_
        then r <| eof_ := true |> <| eof_offset_ ::= fun o => o + added |>
        else r <| eof_offset_ := 0 |>.

End Reading.

(** ** The bytes of a log *)

(** What every fragment of a log shares: whether the log is recyclable, and its
    number. *)
Record LogKind := mkLogKind { lk_recycle : bool; lk_number : Z }.

Definition header_size_of (k : LogKind) : Z :=
  if lk_recycle k then kRecyclableHeaderSize else kHeaderSize.

Definition number_bytes (k : LogKind) : bytes :=
  if lk_recycle k then EncodeFixed32 (u32 (lk_number k)) else [].

Definition frag_header (k : LogKind) (t : Z) (d : bytes) : bytes :=
  EncodeFixed32 (Mask (Value (byte_of_Z t :: number_bytes k ++ d))) ++
  [byte_of_Z (Z.land (size d) 0xff); byte_of_Z (Z.shiftr (size d) 8); byte_of_Z t] ++
  number_bytes k.

Definition frag (k : LogKind) (t : Z) (d : bytes) : bytes := frag_header k t d ++ d.

Lemma size_app a b : size (a ++ b) = size a + size b.
Proof. unfold size. rewrite length_app. lia. Qed.

Lemma size_nonneg a : 0 <= size a.
Proof. unfold size. lia. Qed.

Lemma size_take n b : 0 <= n <= size b -> size (take (Z.to_nat n) b) = n.
Proof. unfold size. rewrite length_take. lia. Qed.

Lemma size_drop n b : 0 <= n <= size b -> size (drop (Z.to_nat n) b) = size b - n.
Proof. unfold size. rewrite length_drop. lia. Qed.

Lemma size_frag_header k t d : size (frag_header k t d) = header_size_of k.
Proof.
  unfold frag_header, number_bytes, header_size_of. rewrite !size_app. unfold size.
  rewrite length_EncodeFixed32. destruct (lk_recycle k); [rewrite length_EncodeFixed32|]; reflexivity.
Qed.

Lemma size_frag k t d : size (frag k t d) = header_size_of k + size d.
Proof. unfold frag. by rewrite size_app, size_frag_header. Qed.

Lemma header_size_range k : 7 <= header_size_of k <= 11.
Proof. unfold header_size_of, kRecyclableHeaderSize, kHeaderSize. destruct (lk_recycle k); lia. Qed.

(** The fragments of a record from offset [pos] of the file to offset [pos']: some
    that fill their blocks, and the last one. *)
Inductive Chain (k : LogKind) : bool -> Z -> bytes -> bytes -> Z -> Prop :=
| Chain_end begin pos d :
    pos mod kBlockSize + header_size_of k + size d <= kBlockSize ->
    Chain k begin pos d (frag k (fragment_type (lk_recycle k) begin true) d)
      (pos + header_size_of k + size d)
| Chain_more begin pos d1 d2 s pos' :
    pos mod kBlockSize + header_size_of k + size d1 = kBlockSize -> d2 <> [] ->
    Chain k false (pos + header_size_of k + size d1) d2 s pos' ->
    Chain k begin pos (d1 ++ d2)
      (frag k (fragment_type (lk_recycle k) begin false) d1 ++ s) pos'.

(** The trailer of a block: [n] zeros at offset [pos]. *)
Definition trailer_ok (k : LogKind) (pos : Z) (n : nat) : Prop :=
  n = 0%nat \/
  (0 < Z.of_nat n < header_size_of k /\ pos mod kBlockSize + Z.of_nat n = kBlockSize).

Lemma Chain_size k begin pos d s pos' :
  Chain k begin pos d s pos' -> pos' = pos + size s /\ 7 <= size s.
Proof.
  pose proof (header_size_range k).
  induction 1 as [begin pos d _|begin pos d1 d2 s pos' _ _ _ IH].
  - rewrite size_frag. pose proof (size_nonneg d). lia.
  - rewrite size_app, size_frag. pose proof (size_nonneg d1). lia.
Qed.

(** *** Writing *)

Section WritingSpec.
Context {D : Type} `{ReliableWrites D}.

Definition kind_of (w : Writer D) : LogKind := mkLogKind (recycle_log_files_ w) (w_log_number_ w).

(** The writer [w'] is [w] after appending [s] and leaving the block at [o]. *)
Definition wrote (s : bytes) (o : Z) (w w' : Writer D) : Prop :=
  contents (dest_ w') = contents (dest_ w) ++ s /\ block_offset_ w' = o /\
  kind_of w' = kind_of w /\ manual_flush_ w' = manual_flush_ w /\ w_ok w' = w_ok w.

Lemma fragment_type_recyclable r b e :
  (fragment_type r b e <? kRecyclableFullType) = negb r.
Proof. by destruct r, b, e. Qed.

Lemma type_crc_value t num d :
  Extend (Extend (type_crc_ t) num) d = Value (byte_of_Z t :: num ++ d) /\
  Extend (type_crc_ t) d = Value (byte_of_Z t :: d).
Proof.
  unfold type_crc_, Value. rewrite !Extend_app by (try apply Extend_u32; unfold is_u32; lia).
  split; reflexivity.
Qed.

Lemma append_record_spec manual buf ptr d :
  exists d', append_record manual buf ptr d = (OK, d') /\ contents d' = contents d ++ buf ++ ptr.
Proof.
  unfold append_record. pose proof (append_ok buf d) as [E1 C1].
  destruct (Append buf d) as [s1 d1]. cbn in E1, C1. subst s1. cbn.
  pose proof (append_ok ptr d1) as [E2 C2].
  destruct (Append ptr d1) as [s2 d2]. cbn in E2, C2. subst s2. cbn.
  pose proof (flush_ok d2) as [E3 C3]. destruct (Flush d2) as [s3 d3]. cbn in E3, C3. subst s3.
  destruct manual; cbn; eexists; (split; [done|]); by rewrite ?C3, C2, C1, app_assoc.
Qed.

Lemma EmitPhysicalRecord_spec begin end_ d w :
  0 <= block_offset_ w ->
  block_offset_ w + header_size_of (kind_of w) + size d <= kBlockSize ->
  exists w', EmitPhysicalRecord (fragment_type (recycle_log_files_ w) begin end_) d w = (OK, w') /\
    wrote (frag (kind_of w) (fragment_type (recycle_log_files_ w) begin end_) d)
      (block_offset_ w + header_size_of (kind_of w) + size d) w w'.
Proof.
  intros Ho Hfit. pose proof (header_size_range (kind_of w)) as Hh.
  pose proof (fragment_type_recyclable (recycle_log_files_ w) begin end_) as Ht.
  set (t := fragment_type _ begin end_) in *. clearbody t.
  unfold EmitPhysicalRecord. rewrite (proj2 (Z.leb_le (size d) 0xffff)) by (unfold kBlockSize in Hfit; lia).
  rewrite Ht. unfold frag, frag_header, number_bytes, header_size_of, kind_of, wrote in *.
  cbn [lk_recycle lk_number] in *.
  destruct (type_crc_value t (EncodeFixed32 (u32 (w_log_number_ w))) d) as [Hcrc1 Hcrc2].
  destruct (recycle_log_files_ w) eqn:Hrec; cbn [negb]; cbv zeta; rewrite ?Hcrc1, ?Hcrc2;
    (match goal with |- context [append_record ?m ?b d ?x] =>
       destruct (append_record_spec m b d x) as (d' & -> & Hd') end);
    eexists; (split; [reflexivity|]); cbn [dest_ w_assert set block_offset_ kind_of manual_flush_
      w_ok recycle_log_files_ w_log_number_] in *;
    rewrite (proj2 (Z.leb_le (_ + _ + _) _)) by done;
    rewrite Hd', !andb_true_r, <- ?app_assoc, ?Hcrc1; unfold kind_of;
    cbn [recycle_log_files_ w_log_number_]; rewrite ?Hrec; done.
Qed.

(** Where the writer stands in its file. *)
Definition aligned (w : Writer D) : Prop :=
  0 <= block_offset_ w <= kBlockSize /\
  size (contents (dest_ w)) mod kBlockSize = block_offset_ w mod kBlockSize.

Lemma aligned_wrote s w w' :
  aligned w -> wrote s (block_offset_ w + size s) w w' ->
  block_offset_ w + size s <= kBlockSize -> aligned w'.
Proof.
  intros [Ho Ha] (Hc & Hb & _) Hle. unfold aligned. rewrite Hb, Hc, size_app.
  pose proof (size_nonneg s). split; [lia|].
  by rewrite <- Z.add_mod_idemp_l, Ha, Z.add_mod_idemp_l.
Qed.

(** The first half of a pass: room for a header. *)
Definition make_room (w : Writer D) : Writer D :=
  let header_size := header_size_of (kind_of w) in
  let leftover := kBlockSize - block_offset_ w in
  if leftover <? header_size then
    (if leftover >? 0 then
       w <| dest_ := (Append (repeat Byte.x00 (Z.to_nat leftover)) (dest_ w)).2 |>
     else w) <| block_offset_ := 0 |>
  else w.

Lemma make_room_spec w :
  aligned w ->
  exists n, contents (dest_ (make_room w)) = contents (dest_ w) ++ repeat Byte.x00 n /\
    aligned (make_room w) /\ kind_of (make_room w) = kind_of w /\
    manual_flush_ (make_room w) = manual_flush_ w /\ w_ok (make_room w) = w_ok w /\
    block_offset_ (make_room w) + header_size_of (kind_of w) <= kBlockSize /\
    (n = 0%nat \/ (0 < Z.of_nat n < header_size_of (kind_of w) /\
       block_offset_ w < kBlockSize /\ block_offset_ w + Z.of_nat n = kBlockSize)).
Proof.
  intros [Ho Ha]. pose proof (header_size_range (kind_of w)) as Hh.
  unfold make_room. cbv zeta. destruct (_ <? _) eqn:Hlt.
  - destruct (_ >? 0) eqn:Hgt.
    + set (n := Z.to_nat (kBlockSize - block_offset_ w)).
      destruct (append_ok (repeat Byte.x00 n) (dest_ w)) as [_ Hc].
      exists n. cbn [dest_ block_offset_ set]. rewrite Hc.
      refine (conj eq_refl (conj _ (conj eq_refl (conj eq_refl (conj eq_refl (conj _ _)))))).
      * unfold aligned; cbn [dest_ block_offset_ set]. rewrite Hc, size_app.
        split; [unfold kBlockSize; lia|].
        rewrite <- Z.add_mod_idemp_l, Ha, Z.add_mod_idemp_l by done.
        unfold size. rewrite repeat_length. subst n.
        rewrite Z2Nat.id by lia. by replace (block_offset_ w + (kBlockSize - block_offset_ w))
          with kBlockSize by lia.
      * unfold kBlockSize; lia.
      * right. subst n. lia.
    + exists 0%nat. cbn [repeat]. rewrite app_nil_r.
      refine (conj eq_refl (conj _ (conj eq_refl (conj eq_refl (conj eq_refl (conj _ _)))))).
      * unfold aligned; cbn [dest_ block_offset_ set]. split; [unfold kBlockSize; lia|].
        rewrite Ha. replace (block_offset_ w) with kBlockSize by lia. done.
      * cbn. unfold kBlockSize; lia.
      * by left.
  - exists 0%nat. cbn [repeat]. rewrite app_nil_r.
    refine (conj eq_refl (conj (conj Ho Ha) (conj eq_refl (conj eq_refl (conj eq_refl (conj _ _)))))).
    + lia.
    + by left.
Qed.

Lemma w_assert_true b (w : Writer D) : b = true -> w_assert b w = w.
Proof. intros ->. destruct w. unfold w_assert; cbn. by rewrite andb_true_r. Qed.

(** The length of the next fragment. *)
Definition fragment_length (w : Writer D) (ptr : bytes) : Z :=
  Z.min (size ptr) (kBlockSize - block_offset_ w - header_size_of (kind_of w)).

Lemma AddRecord_iter_eq begin ptr w :
  aligned w ->
  AddRecord_iter begin ptr w =
    let w1 := make_room w in
    let n := fragment_length w1 ptr in
    let '(s, w2) := EmitPhysicalRecord (fragment_type (recycle_log_files_ w1) begin (size ptr =? n))
                      (take (Z.to_nat n) ptr) w1 in
    (s, drop (Z.to_nat n) ptr, w2).
Proof.
  intros Ha. destruct (make_room_spec w Ha) as (n & _ & _ & Hk & _ & _ & Hroom & _).
  destruct Ha as [Ho _]. unfold AddRecord_iter. cbv zeta.
  rewrite !(w_assert_true (_ >=? 0)) by lia.
  change (if recycle_log_files_ w then kRecyclableHeaderSize else kHeaderSize)
    with (header_size_of (kind_of w)).
  pose proof (header_size_range (kind_of w)) as Hh.
  rewrite !(w_assert_true (header_size_of (kind_of w) <=? 11)) by lia.
  fold (make_room w). rewrite !(w_assert_true (_ >=? header_size_of _)) by lia.
  replace (if size ptr <? kBlockSize - block_offset_ (make_room w) - header_size_of (kind_of w)
           then size ptr else kBlockSize - block_offset_ (make_room w) - header_size_of (kind_of w))
    with (fragment_length (make_room w) ptr) by (unfold fragment_length; rewrite Hk; split_ifs; lia).
  done.
Qed.

Lemma AddRecord_iter_spec begin ptr w :
  aligned w -> (begin = false -> block_offset_ w = kBlockSize) ->
  exists pad m w', AddRecord_iter begin ptr w = (OK, drop (Z.to_nat m) ptr, w') /\
    aligned w' /\ 0 <= m <= size ptr /\ (m < size ptr -> block_offset_ w' = kBlockSize) /\
    (begin = false -> pad = 0%nat /\ (ptr <> [] -> 0 < m)) /\
    wrote (repeat Byte.x00 pad ++
           frag (kind_of w) (fragment_type (lk_recycle (kind_of w)) begin (size ptr =? m))
             (take (Z.to_nat m) ptr)) (block_offset_ w') w w' /\
    trailer_ok (kind_of w) (size (contents (dest_ w))) pad /\
    (let pos := size (contents (dest_ w)) + Z.of_nat pad in
     pos mod kBlockSize + header_size_of (kind_of w) + m <= kBlockSize /\
     (m < size ptr -> pos mod kBlockSize + header_size_of (kind_of w) + m = kBlockSize)).
Proof.
  intros Ha Hbegin. pose proof (AddRecord_iter_eq begin ptr w Ha) as Hiter. cbv zeta in Hiter.
  pose proof Ha as [Ho Hmod].
  destruct (make_room_spec w Ha) as (pad & Hc & Ha1 & Hk & Hm & Hok & Hroom & Hpad).
  pose proof (header_size_range (kind_of w)) as Hh. pose proof Ha1 as [Ho1 Hmod1].
  set (m := fragment_length (make_room w) ptr) in *.
  assert (Hmr : 0 <= m <= size ptr /\
    m <= kBlockSize - block_offset_ (make_room w) - header_size_of (kind_of w) /\
    (m < size ptr -> m = kBlockSize - block_offset_ (make_room w) - header_size_of (kind_of w))).
  { unfold m, fragment_length. rewrite Hk. pose proof (size_nonneg ptr). lia. }
  destruct Hmr as (Hm0 & Hm1 & Hm2). clearbody m.
  destruct (EmitPhysicalRecord_spec begin (size ptr =? m) (take (Z.to_nat m) ptr) (make_room w))
    as (w' & E & Hw); [lia|rewrite size_take, Hk by done; lia|].
  rewrite E in Hiter. rewrite size_take in Hw by done.
  pose proof Hw as (Hc' & Hb' & Hk' & Hm' & Hok'). rewrite Hk in Hb', Hw.
  assert (Hpos : (size (contents (dest_ w)) + Z.of_nat pad) mod kBlockSize = block_offset_ (make_room w)).
  { rewrite Hc, size_app in Hmod1. unfold size at 2 in Hmod1. rewrite repeat_length in Hmod1.
    rewrite Hmod1. apply Z.mod_small. lia. }
  exists pad, m, w'. cbv zeta. rewrite Hpos.
  split; [done|]. split.
  { eapply aligned_wrote; [exact Ha1| |]; rewrite size_frag, size_take, Z.add_assoc by done;
      [exact Hw|lia]. }
  split; [done|]. split; [lia|]. split.
  { intros ->. specialize (Hbegin eq_refl). split; [lia|]. intros Hne.
    assert (0 < size ptr) by (destruct ptr; [done|unfold size; cbn; lia]).
    assert (block_offset_ (make_room w) = 0).
    { rewrite <- Hpos. destruct Hpad as [->|Hp]; [|lia]. rewrite Z.add_0_r, Hmod, Hbegin. done. }
    unfold kBlockSize in *. lia. }
  split.
  { assert (Hrec : recycle_log_files_ (make_room w) = lk_recycle (kind_of w)) by (by rewrite <- Hk).
    split; [rewrite Hc', Hc, <- app_assoc, Hk, Hrec; done|]. split; [done|].
    split; [congruence|]. split; congruence. }
  split; [|lia].
  destruct Hpad as [->|(Hp1 & Hp2 & Hp3)]; [by left|right]. split; [done|].
  rewrite Hmod, (Z.mod_small (block_offset_ w)) by lia. done.
Qed.

(** The end of the loop, and its next pass. *)
Lemma AddRecord_loop_spec fuel : forall begin ptr w,
  aligned w -> (begin = false -> block_offset_ w = kBlockSize /\ ptr <> []) ->
  (length ptr + (if begin then 2 else 1) <= fuel)%nat ->
  exists pad s w', AddRecord_loop fuel begin ptr w = Some (OK, w') /\
    trailer_ok (kind_of w) (size (contents (dest_ w))) pad /\ (begin = false -> pad = 0%nat) /\
    Chain (kind_of w) begin (size (contents (dest_ w)) + Z.of_nat pad) ptr s
      (size (contents (dest_ w'))) /\
    aligned w' /\ wrote (repeat Byte.x00 pad ++ s) (block_offset_ w') w w'.
Proof.
  induction fuel as [|fuel IH]; intros begin ptr w Ha Hbegin Hfuel; [destruct begin; lia|].
  destruct (AddRecord_iter_spec begin ptr w Ha) as
    (pad & m & w1 & E & Ha1 & Hm & Hfull & Hmid & Hw1 & Hpad & Hfit & Hexact); [naive_solver|].
  cbn [AddRecord_loop]. rewrite E. change (ok OK) with true. cbn [andb].
  pose proof (size_drop m ptr Hm) as Hrest. pose proof Hw1 as (Hc & Hb & Hk & Hmf & Hok).
  set (k := kind_of w) in *.
  assert (Hsz : size (contents (dest_ w1)) =
    size (contents (dest_ w)) + Z.of_nat pad + header_size_of k + m).
  { rewrite Hc, !size_app, size_frag, size_take by done. unfold size at 2.
    rewrite repeat_length. lia. }
  destruct (_ >? 0) eqn:Hgt.
  - destruct (IH false (drop (Z.to_nat m) ptr) w1)
      as (pad1 & s & w' & E' & _ & Hpad1 & Hch & Ha' & Hw'); [done| | |].
    { intros _. split; [apply Hfull; lia|]. intros Hnil. by rewrite Hnil in Hgt. }
    { rewrite length_drop. unfold size in *. destruct begin; [lia|].
      destruct (Hmid eq_refl) as [_ Hpos]. specialize (Hpos ltac:(naive_solver)). lia. }
    rewrite (Hpad1 eq_refl), Z.add_0_r in Hch. rewrite (Hpad1 eq_refl) in Hw'.
    destruct Hw' as (Hc' & _ & Hk' & Hmf' & Hok').
    exists pad, (frag k (fragment_type (lk_recycle k) begin false) (take (Z.to_nat m) ptr) ++ s), w'.
    rewrite Hk in Hch. rewrite (proj2 (Z.eqb_neq _ _)) in Hc by lia.
    split; [done|]. split; [done|]. split; [naive_solver|]. split.
    + rewrite <- (take_drop (Z.to_nat m) ptr) at 1. apply Chain_more; rewrite ?size_take by done.
      * lia.
      * intros Hnil. by rewrite Hnil in Hgt.
      * rewrite <- Hsz. done.
    + split; [done|]. split; [by rewrite Hc', Hc, <- !app_assoc|].
      split; [done|]. split; [by etrans|]. split; by etrans.
  - assert (m = size ptr) as -> by lia.
    exists pad, (frag k (fragment_type (lk_recycle k) begin true) ptr), w1.
    rewrite Z.eqb_refl, (take_ge ptr) in Hc by (unfold size; lia).
    split; [done|]. split; [done|]. split; [naive_solver|].
    split; [rewrite Hsz; by apply Chain_end|]. repeat (split; [done|]). done.
Qed.
End WritingSpec.

(** *** Reading *)

Section ReadingSpec.
Context {F : Type} `{ReliableReads F}.

(** What reading leaves alone: the reports and the parameters of the reader. *)
Definition same_reader (r r' : Reader F) : Prop :=
  reports r' = reports r /\ checksum_ r' = checksum_ r /\ initial_offset_ r' = initial_offset_ r /\
  r_log_number_ r' = r_log_number_ r /\ has_reporter r' = has_reporter r.

Lemma same_reader_trans r1 r2 r3 : same_reader r1 r2 -> same_reader r2 r3 -> same_reader r1 r3.
Proof. unfold same_reader. intuition congruence. Qed.

(** The reader stands at offset [pos] with the bytes [s] ahead, in a buffer that
    ends with its block or with the file. *)
Definition reads_at (r : Reader F) (pos : Z) (s : bytes) : Prop :=
  initial_offset_ r = 0 /\ read_error_ r = false /\
  buffer_ r ++ remaining (file_ r) = s /\
  end_of_buffer_offset_ r = pos + size (buffer_ r) /\ 0 <= pos /\ pos + size s < 2 ^ 64 /\
  ((eof_ r = false /\ (pos + size (buffer_ r)) mod kBlockSize = 0 /\
    size (buffer_ r) <= kBlockSize) \/
   (eof_ r = true /\ remaining (file_ r) = [] /\
    pos mod kBlockSize + size (buffer_ r) < kBlockSize)).

(** In the middle of a block the buffer holds the rest of it. *)
Lemma block_rest pos b :
  0 <= pos -> 0 <= b <= kBlockSize -> (pos + b) mod kBlockSize = 0 ->
  b = 0 /\ pos mod kBlockSize = 0 \/ b = kBlockSize - pos mod kBlockSize.
Proof. unfold kBlockSize. intros. zlia. Qed.

(** What a read of [n] bytes gives. *)
Lemma read_block n b rest all :
  0 <= n -> b = take (Z.to_nat n) all -> rest = drop (Z.to_nat n) all ->
  size b <= n /\ size b + size rest = size all /\ b ++ rest = all /\ (size b < n -> rest = []).
Proof.
  intros Hn -> ->. rewrite <- size_app, take_drop. unfold size. rewrite length_take.
  split; [lia|]. split; [done|]. split; [done|]. intros Hsh. apply drop_ge. lia.
Qed.

Lemma ReadMore_spec r pos s :
  reads_at r pos s -> eof_ r = false ->
  exists r', (forall dsz, ReadMore dsz r = inl r') /\
    reads_at r' (pos + size (buffer_ r)) (remaining (file_ r)) /\ same_reader r r' /\
    buffer_ r' = take (Z.to_nat kBlockSize) (remaining (file_ r)) /\
    (size (remaining (file_ r)) < kBlockSize -> eof_ r' = true).
Proof.
  intros (Hi & He & Hs & Hend & Hpos & Hlt & [(Heof & Hal & Hsz)|(Heof & _)]) Hne; [|congruence].
  unfold ReadMore. rewrite Heof, He. cbn [negb andb].
  destruct (read_ok kBlockSize (file_ r)) as (E1 & E2 & E3).
  destruct (Read kBlockSize (file_ r)) as [[st b] f]. cbn [fst snd] in E1, E2, E3. subst st.
  change (ok OK) with true. cbn [negb]. rd_simpl.
  pose proof (read_block kBlockSize b (remaining f) (remaining (file_ r)) ltac:(discriminate) E2 E3) as Hb.
  destruct Hb as (Hb1 & Hb2 & Hb3 & Hb4).
  assert (Hall : size s = size (buffer_ r) + size (remaining (file_ r))) by (by rewrite <- Hs, size_app).
  pose proof (size_nonneg b). pose proof (size_nonneg (buffer_ r)). pose proof (size_nonneg (remaining f)).
  assert (Hu : u64 (end_of_buffer_offset_ r + size b) = pos + size (buffer_ r) + size b)
    by (rewrite Hend, u64_small; unfold is_u64; lia).
  rewrite Hu. clear E3 Hu. destruct (size b <? kBlockSize) eqn:Hshort.
  - eexists; split; [intros; reflexivity|]. split; [|split; [repeat split|split; [exact E2|reflexivity]]].
    clear E2. unfold reads_at. cbn [initial_offset_ read_error_ buffer_ file_ set end_of_buffer_offset_ eof_].
    repeat (split; [lia || exact Hb3 || exact He|]). right.
    split; [reflexivity|]. split; [apply Hb4; lia|]. rewrite Hal. lia.
  - eexists; split; [intros; reflexivity|]. split; [|split; [repeat split|split; [exact E2|]]].
    2: { clear E2. cbn [eof_ set]. intros. lia. }
    clear E2. unfold reads_at. cbn [initial_offset_ read_error_ buffer_ file_ set end_of_buffer_offset_ eof_].
    repeat (split; [lia || exact Hb3 || exact He|]). left.
    split; [exact Heof|]. assert (size b = kBlockSize) as -> by lia.
    split; [|lia]. rewrite <- Z.add_mod_idemp_l, Hal by discriminate. reflexivity.
Qed.

(** The parts of a fragment, as the reader takes them from its buffer. *)
Lemma frag_parts k t d b :
  0 <= t < 128 -> size d <= 0xffff ->
  let h := frag k t d ++ b in
  char_to_uint (nth 6 h Byte.x00) = t /\
  Z.lor (char_at h 4) (Z.shiftl (char_at h 5) 8) = size d /\
  Unmask (DecodeFixed32 h) = Value (byte_of_Z t :: number_bytes k ++ d) /\
  (lk_recycle k = true -> DecodeFixed32 (drop 7 h) = u32 (lk_number k)) /\
  take (Z.to_nat (size d + header_size_of k - 6)) (drop 6 h) = byte_of_Z t :: number_bytes k ++ d /\
  take (Z.to_nat (size d)) (drop (Z.to_nat (header_size_of k)) h) = d /\
  drop (Z.to_nat (header_size_of k + size d)) h = b.
Proof.
  intros Ht Hd. cbv zeta. unfold frag, frag_header. rewrite <- !app_assoc.
  set (v := Mask (Value (byte_of_Z t :: number_bytes k ++ d))).
  rewrite (DecodeFixed32_app v) by apply Mask_u32.
  replace (Unmask v) with (Value (byte_of_Z t :: number_bytes k ++ d)) by
    (unfold v; rewrite Unmask_Mask; [done|apply Extend_u32; unfold is_u32; lia]).
  assert (Hnum : length (number_bytes k) = Z.to_nat (header_size_of k - 7)).
  { unfold number_bytes, header_size_of. destruct (lk_recycle k); [by rewrite length_EncodeFixed32|done]. }
  pose proof (length_EncodeFixed32 v) as Hv.
  destruct (EncodeFixed32 v) as [|x0 [|x1 [|x2 [|x3 [|x4 x]]]]]; try discriminate Hv. clear v Hv.
  pose proof (header_size_range k) as Hh. pose proof (size_nonneg d) as Hd0.
  cbn [app nth char_at]. unfold char_at; cbn [nth]. rewrite !Z_of_byte_of_Z.
  split; [unfold char_to_uint; rewrite Z_of_byte_of_Z, Z.mod_small by lia; by rewrite (proj2 (Z.ltb_lt _ _)) by lia|].
  split.
  { change 255 with (Z.ones 8). rewrite Z.land_ones by lia.
    rewrite lor_shiftl_add by (try lia; apply Z.mod_pos_bound; lia).
    rewrite Z.shiftr_div_pow2 by lia. change (2 ^ 8) with 256. rewrite Z.mod_mod by lia. zlia. }
  split; [done|]. split.
  { intros Hrec. cbn [drop]. unfold number_bytes. rewrite Hrec.
    apply DecodeFixed32_app, u32_range. }
  replace (Z.to_nat (header_size_of k)) with (7 + length (number_bytes k))%nat by lia.
  replace (Z.to_nat (header_size_of k + size d)) with (7 + (length (number_bytes k) + length d))%nat
    by (unfold size; lia).
  replace (Z.to_nat (size d + header_size_of k - 6)) with (S (length (number_bytes k ++ d)))
    by (rewrite length_app; unfold size; lia).
  cbn [drop take Nat.add]. rewrite app_assoc, take_app_length, <- app_assoc.
  split; [done|]. rewrite drop_app_length. unfold size. rewrite Nat2Z.id, take_app_length.
  split; [done|]. by rewrite <- drop_drop, !drop_app_length.
Qed.

(** The types a writer gives to fragments. *)
Lemma fragment_type_range rec b e :
  let t := fragment_type rec b e in
  0 < t < 128 /\ is_recyclable t = rec /\ (t =? kZeroType) = false.
Proof. destruct rec, b, e; vm_compute; repeat split; congruence. Qed.

Definition readable (k : LogKind) (r : Reader F) : Prop :=
  r_log_number_ r = lk_number k /\ (lk_recycle k = true -> is_u32 (lk_number k)).

(** The reader after it took [b] from its buffer, up to [recycled_]. *)
Definition took (b : bytes) (r r' : Reader F) : Prop :=
  buffer_ r' = b /\ file_ r' = file_ r /\ eof_ r' = eof_ r /\ read_error_ r' = read_error_ r /\
  end_of_buffer_offset_ r' = end_of_buffer_offset_ r /\ same_reader r r'.

Lemma ParsePhysicalRecord_ready k t d b r :
  buffer_ r = frag k t d ++ b -> 0 < t < 128 -> size d <= 0xffff -> initial_offset_ r = 0 ->
  exists r', ParsePhysicalRecord t (header_size_of k) 0 r = (t, d, 0, r') /\ took b r r'.
Proof.
  intros Hbuf Ht Hd Hi.
  destruct (frag_parts k t d b) as (_ & Hlen & Hcrc & _ & Hbody & Hdata & Hrest); [lia|done|].
  unfold ParsePhysicalRecord. rewrite Hbuf, Hlen. cbv zeta.
  destruct (_ >? size _) eqn:E1.
  { rewrite size_app, size_frag in E1. pose proof (size_nonneg b). lia. }
  rewrite (proj2 (Z.eqb_neq t kZeroType)) by (unfold kZeroType; lia). cbn [andb].
  rewrite Hbody, Hcrc, Z.eqb_refl. cbn [negb]. rewrite andb_false_r.
  cbn [initial_offset_ set]. rewrite Hi.
  rewrite (proj2 (Z.ltb_ge _ 0)) by apply u64_range.
  eexists; split; [by rewrite Hdata|]. unfold took, same_reader. cbn. rewrite Hbuf, Hrest. done.
Qed.

Lemma ReadPhysicalRecord_ready fuel k begin end_ d b r :
  let t := fragment_type (lk_recycle k) begin end_ in
  buffer_ r = frag k t d ++ b -> size d <= 0xffff -> initial_offset_ r = 0 -> readable k r ->
  exists r', ReadPhysicalRecord_loop (S fuel) 0 r = Some (t, d, 0, r') /\ took b r r'.
Proof.
  intros t Hbuf Hd Hi [Hnum Hnum32]. destruct (fragment_type_range (lk_recycle k) begin end_) as (Ht & Hrec & _).
  fold t in Ht, Hrec. clearbody t.
  destruct (frag_parts k t d b) as (Htype & _ & _ & Hno & _); [lia|done|].
  pose proof (header_size_range k) as Hh. pose proof (size_nonneg d). pose proof (size_nonneg b).
  assert (Hsz : header_size_of k <= size (buffer_ r)) by (rewrite Hbuf, size_app, size_frag; lia).
  cbn [ReadPhysicalRecord_loop]. rewrite (proj2 (Z.ltb_ge _ kHeaderSize)) by (unfold kHeaderSize; lia).
  rewrite <- Hbuf in Htype, Hno. cbv zeta. rewrite Htype, Hrec. destruct (lk_recycle k) eqn:Hr.
  - set (r1 := if _ =? 0 then _ else r).
    assert (Hr1 : took (buffer_ r) r r1) by (unfold r1; destruct (_ =? 0); done).
    pose proof Hr1 as (Hb1 & _ & _ & _ & _ & (_ & _ & Hi1 & Hn1 & _)).
    rewrite Hb1, (proj2 (Z.ltb_ge _ kRecyclableHeaderSize)) by
      (unfold header_size_of in Hsz; by rewrite Hr in Hsz).
    rewrite Hn1, Hnum, Hno, u32_small, Z.eqb_refl by auto. cbn [negb].
    destruct (ParsePhysicalRecord_ready k t d b r1) as (r' & E & Hr'); [by rewrite Hb1|done|done|congruence|].
    unfold header_size_of in E. rewrite Hr in E. rewrite E.
    eexists; split; [done|].
    destruct Hr1 as (_ & ? & ? & ? & ? & ?), Hr' as (? & ? & ? & ? & ? & ?).
    repeat (split; [congruence|]). by eapply same_reader_trans.
  - destruct (ParsePhysicalRecord_ready k t d b r) as (r' & E & Hr'); [done..|].
    unfold header_size_of in E. rewrite Hr in E. rewrite E. eauto.
Qed.

(** Whatever is next starts in the buffer, or the buffer is empty. *)
Lemma buffer_prefix r pos x s :
  reads_at r pos (x ++ s) -> pos mod kBlockSize + size x <= kBlockSize ->
  (exists b, buffer_ r = x ++ b) \/ (buffer_ r = [] /\ eof_ r = false /\ pos mod kBlockSize = 0).
Proof.
  intros (_ & _ & Hs & _ & Hpos & _ & Hcase) Hx.
  assert (Hpre : size x <= size (buffer_ r) -> exists b, buffer_ r = x ++ b).
  { intros Hle. exists (drop (length x) (buffer_ r)).
    rewrite <- (take_drop (length x) (buffer_ r)) at 1. f_equal.
    apply (f_equal (take (length x))) in Hs. rewrite take_app_length in Hs.
    rewrite take_app_le in Hs by (unfold size in Hle; lia). done. }
  destruct Hcase as [(He & Hal & Hsz)|(He & Hrem & _)].
  - destruct (block_rest pos (size (buffer_ r)) Hpos) as [[Hz Hp]|Hb]; [pose proof (size_nonneg (buffer_ r)); lia|done| |].
    + right. split; [|done]. unfold size in Hz. destruct (buffer_ r); [done|cbn in Hz; lia].
    + left. apply Hpre. lia.
  - left. apply Hpre. rewrite Hrem, app_nil_r in Hs. rewrite Hs, size_app. pose proof (size_nonneg s). lia.
Qed.

Lemma took_reads_at r r' pos x b s :
  reads_at r pos (x ++ s) -> buffer_ r = x ++ b -> pos mod kBlockSize + size x <= kBlockSize ->
  took b r r' -> reads_at r' (pos + size x) s.
Proof.
  intros (Hi & He & Hs & Hend & Hpos & Hlt & Hcase) Hb Hfit
    (Tb & Tf & Te & Tr & To & (_ & _ & Ti & _)).
  rewrite Hb, <- app_assoc in Hs. apply app_inv_head in Hs. rewrite Hb, size_app in *.
  pose proof (size_nonneg x). pose proof (size_nonneg b).
  unfold reads_at. rewrite Tb, Tf, Te, Tr, To, Ti.
  repeat (split; [done || lia|]).
  destruct Hcase as [(E & Hal & Hsz)|(E & Hrem & Hsz)]; [left|right]; (split; [done|]).
  - split; [by rewrite <- Z.add_assoc|lia].
  - split; [done|]. unfold kBlockSize in *. zlia.
Qed.

Lemma fragment_read fuel k begin end_ d s r pos :
  let t := fragment_type (lk_recycle k) begin end_ in
  reads_at r pos (frag k t d ++ s) -> readable k r ->
  pos mod kBlockSize + header_size_of k + size d <= kBlockSize ->
  exists r', ReadPhysicalRecord_loop (S (S fuel)) 0 r = Some (t, d, 0, r') /\
    reads_at r' (pos + header_size_of k + size d) s /\ same_reader r r'.
Proof.
  intros t Hat Hk Hfit. pose proof (header_size_range k) as Hh. pose proof (size_nonneg d).
  assert (Hsz : size (frag k t d) = header_size_of k + size d) by apply size_frag.
  assert (Hpos : 0 <= pos) by apply Hat.
  assert (Hd : size d <= 0xffff) by (unfold kBlockSize in *; zlia).
  assert (Hready : forall fuel r0 pos0 b, reads_at r0 pos0 (frag k t d ++ s) ->
    pos0 mod kBlockSize + header_size_of k + size d <= kBlockSize ->
    readable k r0 -> buffer_ r0 = frag k t d ++ b ->
    exists r', ReadPhysicalRecord_loop (S fuel) 0 r0 = Some (t, d, 0, r') /\
      reads_at r' (pos0 + header_size_of k + size d) s /\ same_reader r0 r').
  { intros fuel0 r0 pos0 b Hat0 Hfit0 Hk0 Hb0.
    destruct (ReadPhysicalRecord_ready fuel0 k begin end_ d b r0) as (r' & E & Ht); [done..|apply Hat0|done|].
    exists r'. split; [done|]. split; [|apply Ht].
    rewrite <- Z.add_assoc, <- Hsz. eapply took_reads_at; [done..| |done]. lia. }
  destruct (buffer_prefix r pos (frag k t d) s Hat) as [[b Hb]|(Hb & He & Hp)]; [lia|by eapply Hready|].
  destruct (ReadMore_spec r pos _ Hat He) as (r1 & Hmore & Hat1 & Hsame & Hb1 & _).
  assert (Hrem : remaining (file_ r) = frag k t d ++ s)
    by (destruct Hat as (_ & _ & Hs & _); by rewrite Hb in Hs).
  rewrite Hb, Z.add_0_r, Hrem in Hat1.
  rewrite Hrem, take_app_ge in Hb1 by (unfold size, kBlockSize in *; lia).
  assert (Hk1 : readable k r1)
    by (unfold readable in *; destruct Hsame as (_ & _ & _ & -> & _); done).
  destruct (Hready fuel r1 pos _ Hat1 Hfit Hk1 Hb1) as (r' & E & Hat' & Hsame').
  exists r'. split; [|split; [done|by eapply same_reader_trans]].
  set (f1 := S fuel) in *. cbn [ReadPhysicalRecord_loop].
  rewrite Hb. change (size [] <? kHeaderSize) with true. cbv iota zeta. rewrite Hmore. exact E.
Qed.

(** A trailer is all that is left in the buffer. *)
Lemma trailer_buffer r pos n s :
  reads_at r pos (repeat Byte.x00 n ++ s) -> 0 < Z.of_nat n < 11 ->
  pos mod kBlockSize + Z.of_nat n = kBlockSize -> s <> [] ->
  eof_ r = false /\ buffer_ r = repeat Byte.x00 n /\ remaining (file_ r) = s.
Proof.
  intros Hat Hn Hp Hs. assert (Hsz : size (repeat Byte.x00 n) = Z.of_nat n)
    by (unfold size; by rewrite repeat_length).
  assert (Hs0 : 0 < size s) by (destruct s; [done|unfold size; cbn; lia]).
  destruct (buffer_prefix r pos _ s Hat) as [[b Hb]|(_ & _ & Hz)];
    [lia| |unfold kBlockSize in *; lia].
  destruct Hat as (_ & _ & Heq & _ & Hpos & _ & [(He & Hal & Hle)|(He & Hrem & Hlt)]).
  - rewrite Hb, size_app, Hsz in Hal, Hle. pose proof (size_nonneg b).
    assert (size b = 0) by (unfold kBlockSize in *; zlia).
    destruct b; [|unfold size in *; cbn in *; lia]. rewrite app_nil_r in Hb.
    split; [done|]. split; [done|]. rewrite Hb in Heq. by apply app_inv_head in Heq.
  - rewrite Hrem, app_nil_r in Heq. rewrite Heq, size_app in Hlt. lia.
Qed.

(** A trailer too short for any header is skipped without a trace. *)
Lemma trailer_small r pos n s :
  reads_at r pos (repeat Byte.x00 n ++ s) -> 0 < Z.of_nat n < 7 ->
  pos mod kBlockSize + Z.of_nat n = kBlockSize -> s <> [] ->
  exists r1, (forall fuel, ReadPhysicalRecord_loop (S fuel) 0 r = ReadPhysicalRecord_loop fuel 0 r1) /\
    reads_at r1 (pos + Z.of_nat n) s /\ same_reader r r1.
Proof.
  intros Hat Hn Hp Hs.
  destruct (trailer_buffer r pos n s Hat) as (He & Hb & Hrem); [lia|done..|].
  assert (Hsz : size (buffer_ r) = Z.of_nat n) by (rewrite Hb; unfold size; by rewrite repeat_length).
  destruct (ReadMore_spec r pos _ Hat He) as (r1 & Hmore & Hat1 & Hsame & _).
  rewrite Hsz, Hrem in Hat1. exists r1. split; [|done]. intros fuel.
  cbn [ReadPhysicalRecord_loop]. rewrite Hsz, (proj2 (Z.ltb_lt _ kHeaderSize)) by (unfold kHeaderSize; lia).
  by rewrite Hmore.
Qed.

(** A longer one, which only recyclable logs have, reads as an empty record of
    type zero, dropped without a report. *)
Lemma trailer_large r pos n s :
  reads_at r pos (repeat Byte.x00 n ++ s) -> 7 <= Z.of_nat n < 11 ->
  pos mod kBlockSize + Z.of_nat n = kBlockSize -> s <> [] ->
  exists r1, ReadPhysicalRecord r = Some (kBadRecord, [], 0, r1) /\
    reads_at r1 (pos + Z.of_nat n) s /\ same_reader r r1.
Proof.
  intros Hat Hn Hp Hs.
  destruct (trailer_buffer r pos n s Hat) as (He & Hb & Hrem); [lia|done..|].
  assert (Hsz : size (buffer_ r) = Z.of_nat n) by (rewrite Hb; unfold size; by rewrite repeat_length).
  exists (r <| buffer_ := [] |>). split; [|split; [|done]].
  - unfold ReadPhysicalRecord. cbn [ReadPhysicalRecord_loop].
    rewrite Hsz, (proj2 (Z.ltb_ge _ kHeaderSize)) by (unfold kHeaderSize; lia).
    unfold ParsePhysicalRecord, char_at. rewrite Hsz, Hb.
    destruct n as [|[|[|[|[|[|[|n]]]]]]]; try lia. cbn [repeat nth].
    change (char_to_uint Byte.x00) with 0. change (is_recyclable 0) with false.
    change (Z.lor (Z_of_byte Byte.x00) (Z.shiftl (Z_of_byte Byte.x00) 8)) with 0. cbv zeta iota. rewrite Z.add_0_r.
    destruct (_ >? _) eqn:Hgt; [apply Z.gtb_lt in Hgt; unfold kHeaderSize in Hgt; lia|]. done.
  - rewrite <- (app_nil_r (repeat _ n)) in Hb.
    replace (Z.of_nat n) with (size (repeat Byte.x00 n)) by (unfold size; by rewrite repeat_length).
    eapply took_reads_at; [done..| |done]. unfold size. rewrite repeat_length. lia.
Qed.

(** The switch on the fragments of a record. *)
Lemma switch_end mode off rec begin d st (r : Reader F) :
  in_fragmented_record st = negb begin -> (begin = true -> scratch st = []) ->
  0 <= off -> 0 <= prospective_record_offset st ->
  exists o, 0 <= o /\ ReadRecord_switch mode off (fragment_type rec begin true) d 0 st r =
    Returns true (scratch st ++ d) (r <| last_record_offset_ := o |>).
Proof.
  intros Hf Hs Ho Hp. unfold ReadRecord_switch. rewrite Hf. destruct begin.
  - rewrite (Hs eq_refl). exists off. destruct rec; done.
  - exists (prospective_record_offset st). destruct rec; done.
Qed.

Lemma switch_more mode off rec begin d st (r : Reader F) :
  in_fragmented_record st = negb begin -> (begin = true -> scratch st = []) ->
  0 <= off -> 0 <= prospective_record_offset st ->
  exists st', 0 <= prospective_record_offset st' /\ ReadRecord_switch mode off (fragment_type rec begin false) d 0 st r =
    Continues st' r /\ in_fragmented_record st' = true /\ scratch st' = scratch st ++ d.
Proof.
  intros Hf Hs Ho Hp. unfold ReadRecord_switch. rewrite Hf. destruct begin.
  - rewrite (Hs eq_refl). exists (mkReadState d true off). destruct rec; done.
  - exists (st <| scratch ::= fun b => b ++ d |>). destruct rec; done.
Qed.

Lemma readable_same k r r' : same_reader r r' -> readable k r -> readable k r'.
Proof. unfold readable. intros (_ & _ & _ & -> & _). done. Qed.

Lemma chain_read mode k begin pos d s pos' : Chain k begin pos d s pos' ->
  forall r r1 st rest fuel n, (length s <= fuel)%nat ->
  ReadPhysicalRecord r = ReadPhysicalRecord_loop (S (S n)) 0 r1 -> same_reader r r1 ->
  reads_at r1 pos (s ++ rest) -> readable k r1 ->
  in_fragmented_record st = negb begin -> (begin = true -> scratch st = []) ->
  0 <= prospective_record_offset st ->
  exists r', ReadRecord_loop fuel mode st r = Some (true, scratch st ++ d, r') /\
    reads_at r' pos' rest /\ same_reader r r' /\ 0 <= last_record_offset_ r'.
Proof.
  induction 1 as [begin pos d Hfit|begin pos d1 d2 s pos' Hfit Hd2 Hch IH];
    intros r r1 st rest fuel n Hfuel Hread Hsame Hat Hk Hf Hs Hp.
  - destruct fuel as [|fuel].
    { pose proof (size_frag k (fragment_type (lk_recycle k) begin true) d) as Hsz.
      pose proof (header_size_range k). pose proof (size_nonneg d). unfold size in *. lia. }
    destruct (fragment_read n k begin true d rest r1 pos Hat Hk Hfit) as (r2 & E & Hat2 & Hsame2).
    cbn [ReadRecord_loop]. rewrite Hread, E.
    match goal with |- context [ReadRecord_switch mode ?o _ _ _ _ _] =>
      destruct (switch_end mode o (lk_recycle k) begin d st r2 Hf Hs) as (o' & Ho & ->);
        [apply u64_range|done|] end.
    eexists; split; [done|]. split; [exact Hat2|]. split; [|exact Ho].
    by eapply same_reader_trans; [|exact Hsame2].
  - rewrite <- app_assoc in Hat. rewrite length_app in Hfuel.
    assert (Hl : (7 <= length (frag k (fragment_type (lk_recycle k) begin false) d1))%nat).
    { pose proof (size_frag k (fragment_type (lk_recycle k) begin false) d1).
      pose proof (header_size_range k). pose proof (size_nonneg d1). unfold size in *. lia. }
    destruct fuel as [|fuel]; [lia|].
    destruct (fragment_read n k begin false d1 (s ++ rest) r1 pos Hat Hk) as (r2 & E & Hat2 & Hsame2); [lia|].
    cbn [ReadRecord_loop]. rewrite Hread, E.
    match goal with |- context [ReadRecord_switch mode ?o _ _ _ _ _] =>
      destruct (switch_more mode o (lk_recycle k) begin d1 st r2 Hf Hs)
        as (st' & Hp' & -> & Hf' & Hs'); [apply u64_range|done|] end.
    destruct (IH r2 r2 st' rest fuel 2%nat) as (r' & E' & Hat' & Hsame' & Hlast);
      try done; [lia|by eapply readable_same|].
    exists r'. rewrite E', Hs', <- app_assoc. split; [done|]. split; [done|]. split; [|done].
    by do 2 (eapply same_reader_trans; [eassumption|]).
Qed.

(** One record, behind a trailer or not. *)
Lemma record_read mode k pos pad d s pos' rest r :
  trailer_ok k pos pad -> Chain k true (pos + Z.of_nat pad) d s pos' ->
  reads_at r pos ((repeat Byte.x00 pad ++ s) ++ rest) -> readable k r ->
  0 <= last_record_offset_ r ->
  exists r', ReadRecord mode r = Some (true, d, r') /\ reads_at r' pos' rest /\
    same_reader r r' /\ 0 <= last_record_offset_ r'.
Proof.
  intros Hpad Hch Hat Hk Hlast. rewrite <- app_assoc in Hat.
  pose proof Hat as (Hi & _ & Hall & _).
  assert (Hun : (length (repeat Byte.x00 pad ++ s) <= unread r)%nat).
  { unfold unread. rewrite <- length_app, Hall, !length_app. lia. }
  rewrite length_app in Hun.
  unfold ReadRecord. rewrite Hi, (proj2 (Z.ltb_ge _ _)) by done. cbn [negb].
  assert (Hne : s ++ rest <> []).
  { destruct (Chain_size _ _ _ _ _ _ Hch) as [_ Hs7]. destruct s; [change (7 <= 0) in Hs7; lia|done]. }
  pose proof (header_size_range k) as Hh.
  destruct Hpad as [->|[Hn Hp]].
  - cbn [repeat app Z.of_nat length] in *. rewrite Z.add_0_r in Hch.
    by apply (chain_read mode _ _ _ _ _ _ Hch r r (mkReadState [] false 0) rest (unread r + 1) 2%nat);
      [lia|..].
  - destruct (Z.lt_ge_cases (Z.of_nat pad) 7) as [Hsmall|Hlarge].
    + destruct (trailer_small r pos pad _ Hat) as (r1 & Hread & Hat1 & Hsame1); [lia|done..|].
      apply (chain_read mode _ _ _ _ _ _ Hch r r1 (mkReadState [] false 0) rest (unread r + 1) 1%nat);
        try done; [lia|by apply Hread|by eapply readable_same].
    + destruct (trailer_large r pos pad _ Hat) as (r1 & Hread & Hat1 & Hsame1); [lia|done..|].
      rewrite Nat.add_1_r. cbn [ReadRecord_loop]. rewrite Hread.
      change (ReadRecord_switch _ _ _ _ _ _ _) with (Continues (mkReadState [] false 0) r1).
      destruct (chain_read mode _ _ _ _ _ _ Hch r1 r1 (mkReadState [] false 0) rest (unread r) 2%nat)
        as (r' & E & Hat' & Hsame' & Hl'); try done; [lia|by eapply readable_same|].
      exists r'. split; [done|]. split; [done|]. split; [by eapply same_reader_trans|done].
Qed.

(** The end of the file. *)
Lemma eof_read mode r pos :
  reads_at r pos [] -> 0 <= last_record_offset_ r ->
  exists r', ReadRecord mode r = Some (false, [], r') /\ same_reader r r'.
Proof.
  intros Hat Hlast. pose proof Hat as (Hi & He & Hall & _).
  apply app_eq_nil in Hall as [Hb Hrem].
  unfold ReadRecord. rewrite Hi, (proj2 (Z.ltb_ge _ _)) by done. cbn [negb].
  rewrite Nat.add_1_r. cbn [ReadRecord_loop].
  assert (Hread : exists r', ReadPhysicalRecord r = Some (kEof, [], 0, r') /\ same_reader r r').
  { assert (Hend : forall n r0, eof_ r0 = true -> buffer_ r0 = [] -> same_reader r r0 ->
      exists r', ReadPhysicalRecord_loop (S n) 0 r0 = Some (kEof, [], 0, r') /\ same_reader r r').
    { intros n r0 He0 Hb0 Hs0. cbn [ReadPhysicalRecord_loop]. rewrite Hb0.
      change (size [] <? kHeaderSize) with true. cbv iota zeta.
      unfold ReadMore. rewrite He0, Hb0. cbn [negb andb]. change (size [] =? 0) with true. cbn [negb].
      eexists; split; [done|]. exact Hs0. }
    destruct (eof_ r) eqn:Heof; [by apply Hend|].
    destruct (ReadMore_spec r pos _ Hat Heof) as (r1 & Hmore & Hat1 & Hsame & Hb1 & Heof1).
    rewrite Hrem in Hat1, Hb1, Heof1. rewrite take_nil in Hb1.
    unfold ReadPhysicalRecord. set (n := 3%nat). cbn [ReadPhysicalRecord_loop]. rewrite Hb.
    change (size [] <? kHeaderSize) with true. cbv iota zeta. rewrite Hmore.
    by apply (Hend 2%nat); [apply Heof1|..]. }
  destruct Hread as (r' & -> & Hs'). exists r'. done.
Qed.

(** *** Termination *)

(** Reading either returns at the end of the file or at a record of another log,
    or consumes bytes. *)
Definition progress (r : Reader F) (res : Z * bytes * Z * Reader F) : Prop :=
  let '(t, _, _, r') := res in
  t = kEof \/ t = kBadHeader \/ t = kOldRecord \/ (unread r' < unread r)%nat.

Lemma ParsePhysicalRecord_progress t hs dsz r :
  7 <= hs <= size (buffer_ r) -> progress r (ParsePhysicalRecord t hs dsz r).
Proof.
  intros Hhs. unfold ParsePhysicalRecord. cbv zeta.
  set (n := Z.lor _ _). assert (Hn : 0 <= n).
  { apply Z.lor_nonneg. split; [|apply Z.shiftl_nonneg]; apply Z_of_byte_range. }
  assert (Hclear : (unread (r <| buffer_ := [] |>) < unread r)%nat)
    by (unfold unread, size in *; cbn; lia).
  split_ifs; unfold progress; cbn [eof_ set] in *; try tauto; right; right; right;
    try exact Hclear; unfold unread, size in *; cbn [buffer_ file_ set]; rewrite length_drop; lia.
Qed.

Lemma ReadMore_progress dsz r :
  match ReadMore dsz r with
  | inl r' => (eof_ r' = true \/ kBlockSize <= size (buffer_ r')) /\ (unread r' <= unread r)%nat
  | inr (e, _, r') => e = kEof \/ e = kBadHeader
  end.
Proof.
  unfold ReadMore. destruct (negb (eof_ r) && negb (read_error_ r)).
  - destruct (read_ok kBlockSize (file_ r)) as (E1 & E2 & E3).
    destruct (Read kBlockSize (file_ r)) as [[st b] f]. cbn [fst snd] in E1, E2, E3. subst st.
    change (ok OK) with true. cbn [negb]. rd_simpl.
    assert (Hu : (length b + length (remaining f) <= unread r)%nat).
    { rewrite E2, E3. unfold unread. rewrite length_take, length_drop. lia. }
    destruct (_ <? kBlockSize) eqn:Hsh; cbn [eof_ set buffer_];
      (split; [|unfold unread in *; cbn [buffer_ file_ set]; lia]); [left; reflexivity|right; lia].
  - destruct (negb _); auto.
Qed.

(** A pass over a buffer that need not be refilled, or cannot be. *)
Lemma settled_pass fuel r :
  eof_ r = true \/ read_error_ r = true \/ kRecyclableHeaderSize <= size (buffer_ r) ->
  exists res, ReadPhysicalRecord_loop (S fuel) 0 r = Some res /\ progress r res.
Proof.
  intros Hset.
  assert (Hmore : forall r0 k, buffer_ r0 = buffer_ r -> eof_ r0 = eof_ r -> read_error_ r0 = read_error_ r ->
    size (buffer_ r) < kRecyclableHeaderSize ->
    exists res, match ReadMore 0 r0 with inl r' => k r' | inr (e, d, r') => Some (e, [], d, r') end = Some res
      /\ progress r res).
  { intros r0 k Hb He Hr Hsz. unfold ReadMore. rewrite He, Hr.
    replace (negb (eof_ r) && negb (read_error_ r)) with false
      by (destruct Hset as [->|[->|]]; [done|by rewrite andb_false_r|lia]).
    destruct (negb _); eexists; (split; [done|]); unfold progress; tauto. }
  cbn [ReadPhysicalRecord_loop]. cbv zeta.
  destruct (size (buffer_ r) <? kHeaderSize) eqn:H7.
  { apply Hmore; try done. unfold kHeaderSize, kRecyclableHeaderSize in *; lia. }
  assert (Hq : forall t hs r0, buffer_ r0 = buffer_ r -> file_ r0 = file_ r -> 7 <= hs <= size (buffer_ r) ->
    exists res, Some (ParsePhysicalRecord t hs 0 r0) = Some res /\ progress r res).
  { intros t hs r0 Hb Hf Hhs. eexists; split; [done|].
    pose proof (ParsePhysicalRecord_progress t hs 0 r0 ltac:(by rewrite Hb)) as Hp.
    unfold progress in *. destruct (ParsePhysicalRecord t hs 0 r0) as [[[? ?] ?] ?].
    unfold unread in *. by rewrite <- Hb, <- Hf. }
  set (r1 := if _ =? 0 then _ else r).
  assert (Hr1 : buffer_ r1 = buffer_ r /\ file_ r1 = file_ r /\ eof_ r1 = eof_ r /\ read_error_ r1 = read_error_ r)
    by (unfold r1; destruct (_ =? 0); done). clearbody r1.
  destruct Hr1 as (Hb & Hf & He & Hr).
  destruct (is_recyclable _); [|apply Hq; [done..|unfold kHeaderSize in *; lia]].
  destruct (size (buffer_ r1) <? kRecyclableHeaderSize) eqn:H11.
  { apply Hmore; try done. rewrite Hb in H11. lia. }
  rewrite Hb in H11.
  destruct (negb _); [eexists; split; [done|]; unfold progress; tauto|].
  apply Hq; [done..|unfold kRecyclableHeaderSize in *; lia].
Qed.

Lemma ReadPhysicalRecord_total r :
  exists res, ReadPhysicalRecord r = Some res /\ progress r res.
Proof.
  destruct (decide (eof_ r = true \/ read_error_ r = true \/ kRecyclableHeaderSize <= size (buffer_ r)))
    as [Hset|Hset]; [by apply settled_pass|].
  assert (Hpass : forall r0, buffer_ r0 = buffer_ r -> file_ r0 = file_ r ->
    exists res, match ReadMore 0 r0 with
      | inl r' => ReadPhysicalRecord_loop 3 0 r'
      | inr (e, d, r') => Some (e, [], d, r') end = Some res /\ progress r res).
  { intros r0 Hb Hf. pose proof (ReadMore_progress 0 r0) as HM.
    destruct (ReadMore 0 r0) as [r'|[[e d] r']].
    - destruct HM as [Hs Hu]. destruct (settled_pass 2 r') as ([[[t b] d] r2] & E & Hp).
      { destruct Hs as [Hs|Hs]; [by left|right; right]. unfold kRecyclableHeaderSize, kBlockSize in *; lia. }
      eexists; split; [exact E|]. unfold progress, unread in *. rewrite Hb, Hf in Hu.
      destruct Hp as [Hp|[Hp|[Hp|Hp]]]; auto; right; right; right; lia.
    - eexists; split; [done|]. unfold progress. tauto. }
  unfold ReadPhysicalRecord. set (n := 3%nat). cbn [ReadPhysicalRecord_loop]. cbv zeta. subst n.
  destruct (size (buffer_ r) <? kHeaderSize) eqn:H7; [by apply Hpass|].
  set (r1 := if _ =? 0 then _ else r).
  assert (Hr1 : buffer_ r1 = buffer_ r /\ file_ r1 = file_ r) by (unfold r1; destruct (_ =? 0); done).
  clearbody r1. destruct Hr1 as [Hb Hf].
  destruct (is_recyclable _).
  - rewrite Hb, (proj2 (Z.ltb_lt _ kRecyclableHeaderSize)) by lia. by apply Hpass.
  - eexists; split; [done|]. apply ParsePhysicalRecord_progress. unfold kHeaderSize in *; lia.
Qed.

(** What the switch keeps of the reader. *)
Lemma ReportDrop_unread n reason r : unread (ReportDrop n reason r) = unread r.
Proof. unfold ReportDrop. by destruct (_ && _). Qed.

Lemma report_middle_unread st r st' r' :
  report_middle st r = Continues st' r' -> unread r' = unread r.
Proof.
  unfold report_middle, ReportCorruption. destruct (in_fragmented_record st); intros [= <- <-];
    [apply ReportDrop_unread|done].
Qed.

Lemma switch_continues mode off t frag_ dsz st r st' r' :
  mode <> kSkipAnyCorruptedRecords ->
  ReadRecord_switch mode off t frag_ dsz st r = Continues st' r' ->
  unread r' = unread r /\ t <> kEof /\ t <> kBadHeader /\ t <> kOldRecord.
Proof.
  intros Hmode. unfold ReadRecord_switch.
  rewrite (bool_decide_eq_false_2 (mode = kSkipAnyCorruptedRecords)) by done. cbn [negb].
  unfold kEof, kBadHeader, kOldRecord, ReportCorruption, kMaxRecordType, kRecyclableLastType.
  split_ifs; intros E; try discriminate E;
    first [apply report_middle_unread in E; rewrite ?ReportDrop_unread in E
          |injection E as <- <-; rewrite ?ReportDrop_unread];
    (split; [done|]); unfold kFirstType, kRecyclableFirstType, kMiddleType, kRecyclableMiddleType,
      kLastType, kRecyclableLastType, kBadRecord, kBadRecordLen, kBadRecordChecksum, kBadHeader, kEof,
      kOldRecord, kMaxRecordType, kRecyclableLastType in *; lia.
Qed.

Lemma ReadRecord_loop_total mode fuel : forall st r,
  mode <> kSkipAnyCorruptedRecords -> (unread r < fuel)%nat ->
  exists res, ReadRecord_loop fuel mode st r = Some res.
Proof.
  induction fuel as [|fuel IH]; intros st r Hmode Hfuel; [lia|]. cbn [ReadRecord_loop].
  destruct (ReadPhysicalRecord_total r) as ([[[t fr] dsz] r1] & E & Hp). rewrite E.
  destruct (ReadRecord_switch _ _ t fr dsz st r1) as [found rec r2|st' r2] eqn:Esw; [eauto|].
  destruct (switch_continues _ _ _ _ _ _ _ _ _ Hmode Esw) as (Hu & H1 & H2 & H3).
  apply IH; [done|]. unfold progress in Hp. destruct Hp as [|[|[|]]]; [done..|lia].
Qed.

(** C33: on any file contents, valid or damaged, reading a record returns, in every
    recovery mode but the one that skips corrupted records. *)
Theorem read_record_total mode r :
  mode <> kSkipAnyCorruptedRecords -> exists res, ReadRecord mode r = Some res.
Proof.
  intros Hmode. unfold ReadRecord. destruct (if _ <? _ then _ else _) as [positioned r1].
  destruct positioned; cbn [negb]; [|eauto]. apply ReadRecord_loop_total; [done|lia].
Qed.

(** The next thing in the buffer is a record of another log. *)
Definition old_record_ahead (r : Reader F) : Prop :=
  kRecyclableHeaderSize <= size (buffer_ r) /\
  is_recyclable (char_to_uint (nth 6 (buffer_ r) Byte.x00)) = true /\
  DecodeFixed32 (drop 7 (buffer_ r)) <> r_log_number_ r.

Lemma old_record_read n r :
  old_record_ahead r ->
  exists r', ReadPhysicalRecord_loop (S n) 0 r = Some (kOldRecord, [], 0, r') /\
    buffer_ r' = buffer_ r /\ r_log_number_ r' = r_log_number_ r.
Proof.
  intros (Hsz & Hrec & Hnum). cbn [ReadPhysicalRecord_loop].
  rewrite (proj2 (Z.ltb_ge _ kHeaderSize)) by (unfold kHeaderSize, kRecyclableHeaderSize in *; lia).
  cbv zeta. rewrite Hrec. set (r1 := if _ =? 0 then _ else r).
  assert (Hr1 : buffer_ r1 = buffer_ r /\ r_log_number_ r1 = r_log_number_ r)
    by (unfold r1; destruct (_ =? 0); done). clearbody r1. destruct Hr1 as [Hb Hn].
  rewrite Hb, (proj2 (Z.ltb_ge _ kRecyclableHeaderSize)) by done.
  rewrite Hn, (proj2 (Z.eqb_neq _ _)) by done. cbn [negb]. eauto.
Qed.

(** C34: in the mode that skips corrupted records, a recycled log with an old record
    behind the new ones makes the reader loop forever: the record is neither
    consumed nor taken as the end of the log, whatever number of passes it is
    given. *)
Theorem skip_mode_hangs_on_old_record st r fuel :
  old_record_ahead r -> ReadRecord_loop fuel kSkipAnyCorruptedRecords st r = None.
Proof.
  revert st r. induction fuel as [|fuel IH]; intros st r Hold; [done|]. cbn [ReadRecord_loop].
  destruct (old_record_read 3 r Hold) as (r1 & Hread & Hb & Hn).
  change (ReadPhysicalRecord r) with (ReadPhysicalRecord_loop 4 0 r). rewrite Hread.
  assert (Hsw : exists st' r2, ReadRecord_switch kSkipAnyCorruptedRecords
    (u64 (end_of_buffer_offset_ r - size (buffer_ r))) kOldRecord [] 0 st r1 = Continues st' r2 /\
    buffer_ r2 = buffer_ r1 /\ r_log_number_ r2 = r_log_number_ r1).
  { change (ReadRecord_switch _ _ _ _ _ _ _) with (report_middle st r1). unfold report_middle.
    destruct (in_fragmented_record st); [|eauto].
    unfold ReportCorruption, ReportDrop. destruct (_ && _); eauto. }
  destruct Hsw as (st' & r2 & -> & Hb2 & Hn2). apply IH.
  unfold old_record_ahead. rewrite Hb2, Hn2, Hb, Hn. exact Hold.
Qed.

(** *** Whole logs *)

(** The records of a log, read until there is none. *)
Fixpoint ReadRecords (fuel : nat) (mode : WALRecoveryMode) (r : Reader F)
    : option (list bytes * Reader F) :=
  match fuel with
  | O => None
  | S fuel =>
      match ReadRecord mode r with
      | Some (true, rec, r) =>
          match ReadRecords fuel mode r with
          | Some (recs, r) => Some (rec :: recs, r)
          | None => None
          end
      | Some (false, _, r) => Some ([], r)
      | None => None
      end
  end.

(** The bytes of a log from offset [pos] on. *)
Inductive LogBytes (k : LogKind) : Z -> list bytes -> bytes -> Prop :=
| LogBytes_nil pos : LogBytes k pos [] []
| LogBytes_cons pos pad d s pos' rs rest :
    trailer_ok k pos pad -> Chain k true (pos + Z.of_nat pad) d s pos' ->
    LogBytes k pos' rs rest ->
    LogBytes k pos (d :: rs) ((repeat Byte.x00 pad ++ s) ++ rest).

Lemma log_read mode k pos rs s : LogBytes k pos rs s -> forall r,
  reads_at r pos s -> readable k r -> 0 <= last_record_offset_ r ->
  exists r', ReadRecords (S (length rs)) mode r = Some (rs, r') /\ same_reader r r'.
Proof.
  induction 1 as [pos|pos pad d s pos' rs rest Hpad Hch Hlog IH]; intros r Hat Hk Hl.
  - destruct (eof_read mode r pos Hat Hl) as (r' & E & Hs). cbn [ReadRecords length]. rewrite E. eauto.
  - destruct (record_read mode k pos pad d s pos' rest r) as (r1 & E & Hat1 & Hs1 & Hl1); [done..|].
    destruct (IH r1) as (r' & E' & Hs'); [done|by eapply readable_same|done|].
    cbn [length]. set (n := S (length rs)) in *. cbn [ReadRecords]. rewrite E, E'.
    eexists; split; [done|by eapply same_reader_trans].
Qed.

End ReadingSpec.

Section WholeLog.
Context {D F : Type} `{ReliableWrites D} `{ReliableReads F}.

(** Records added one after the other, all of them successfully. *)
Fixpoint AddRecords (rs : list bytes) (w : Writer D) : option (Writer D) :=
  match rs with
  | [] => Some w
  | x :: rs =>
      match AddRecord x w with
      | Some (s, w) => if ok s then AddRecords rs w else None
      | None => None
      end
  end.

Lemma log_written rs : forall w, aligned w ->
  exists s w', AddRecords rs w = Some w' /\ contents (dest_ w') = contents (dest_ w) ++ s /\
    LogBytes (kind_of w) (size (contents (dest_ w))) rs s /\ w_ok w' = w_ok w.
Proof.
  induction rs as [|x rs IH]; intros w Ha.
  - exists [], w. rewrite app_nil_r. repeat split. constructor.
  - destruct (AddRecord_loop_spec (length x + 2) true x w Ha) as
      (pad & s & w1 & E & Hpad & _ & Hch & Ha1 & (Hc & _ & Hk & _ & Hok)); [done|done|].
    destruct (IH w1 Ha1) as (s' & w' & E' & Hc' & Hlog & Hok').
    exists ((repeat Byte.x00 pad ++ s) ++ s'), w'. cbn [AddRecords]. unfold AddRecord. rewrite E.
    change (ok OK) with true. cbv iota.
    split; [done|]. split; [by rewrite Hc', Hc, !app_assoc|]. split; [|congruence].
    rewrite Hk in Hlog. by econstructor.
Qed.

(** C13: a log written record by record to an empty file reads back as the same
    records in the same order and then ends, in every recovery mode, with or
    without checksums, and nothing is reported as corrupt; no assertion of the
    writer fails.  A recyclable log needs a number of 32 bits. *)
Theorem log_roundtrip (dest : D) number recycle manual rs :
  contents dest = [] -> (recycle = true -> is_u32 number) ->
  exists w, AddRecords rs (Writer_init dest number recycle manual) = Some w /\ w_ok w = true /\
    forall (file : F) mode checksum,
      remaining file = contents (dest_ w) -> size (contents (dest_ w)) < 2 ^ 64 ->
      exists r, ReadRecords (S (length rs)) mode (Reader_init file true checksum 0 number) =
                  Some (rs, r) /\ reports r = [].
Proof.
  intros Hempty Hnum. set (w0 := Writer_init dest number recycle manual).
  destruct (log_written rs w0) as (s & w & E & Hc & Hlog & Hok).
  { split; [cbn; unfold kBlockSize; lia|]. unfold w0; cbn. by rewrite Hempty. }
  exists w. split; [done|]. split; [done|]. intros file mode checksum Hfile Hsz.
  unfold w0 in Hc, Hlog; cbn in Hc, Hlog. rewrite Hempty in Hc, Hlog. cbn in Hc.
  destruct (log_read mode _ _ _ _ Hlog (Reader_init file true checksum 0 number)) as (r & Er & Hs).
  - unfold reads_at, Reader_init. cbn [initial_offset_ read_error_ buffer_ file_ end_of_buffer_offset_ eof_].
    rewrite Hfile, Hc in *. repeat (split; [done|]). left. repeat (split; [done|]). done.
  - split; [done|exact Hnum].
  - done.
  - exists r. split; [done|]. apply Hs.
Qed.

Lemma Chain_head k begin pos d s pos' : 0 <= pos -> Chain k begin pos d s pos' ->
  exists e d1 s', s = frag k (fragment_type (lk_recycle k) begin e) d1 ++ s' /\
    header_size_of k + size d1 <= kBlockSize.
Proof.
  intros Hpos Hch. pose proof (header_size_range k).
  pose proof (Z.mod_pos_bound pos kBlockSize eq_refl).
  destruct Hch as [begin pos d Hfit|begin pos d1 d2 s pos' Hfit _ _].
  - exists true, d, []. rewrite app_nil_r. split; [done|lia].
  - exists false, d1, s. split; [done|lia].
Qed.

(** The writer of a recyclable log stores 32 bits of the log's number and the
    reader compares them with all 64: once log numbers pass [2^32], a recyclable
    log reads as empty, its first record being taken for one of an older log. *)
Theorem recyclable_log_number_truncated (dest : D) number manual d rs w (file : F) mode checksum :
  contents dest = [] -> 2 ^ 32 <= number -> mode <> kSkipAnyCorruptedRecords ->
  AddRecords (d :: rs) (Writer_init dest number true manual) = Some w ->
  remaining file = contents (dest_ w) -> size (contents (dest_ w)) < 2 ^ 64 ->
  exists r, ReadRecord mode (Reader_init file true checksum 0 number) = Some (false, [], r).
Proof.
  intros Hempty Hnum Hmode E Hfile Hsz.
  destruct (log_written (d :: rs) (Writer_init dest number true manual)) as (s & w' & E' & Hc & Hlog & _).
  { split; [cbn; unfold kBlockSize; lia|]. cbn. by rewrite Hempty. }
  rewrite E in E'. injection E' as <-. cbn in Hc, Hlog. rewrite Hempty in Hc, Hlog. cbn in Hc.
  revert Hc. inversion Hlog as [|pos pad d' s' pos' rs' rest Hpad Hch Hrest]; subst; intros Hc.
  clear Hlog Hrest.
  assert (pad = 0%nat) as ->.
  { destruct Hpad as [|[Hp1 Hp2]]; [done|]. pose proof (header_size_range (kind_of
      (Writer_init dest number true manual))). change (size [] mod kBlockSize) with 0 in Hp2.
    unfold kBlockSize in *. lia. }
  destruct (Chain_head _ _ _ _ _ _ ltac:(done) Hch) as (e & d1 & s1 & -> & Hd1).
  set (k := kind_of _) in *. cbn [repeat app] in Hc. rewrite <- app_assoc in Hc.
  change (lk_recycle k) with true in *.
  destruct (fragment_type_range true true e) as (Ht & Hrec & _). set (t := fragment_type true true e) in *.
  pose proof (size_frag k t d1) as Hfsz. pose proof (size_nonneg d1).
  set (r0 := Reader_init file true checksum 0 number).
  assert (Hat : reads_at r0 0 (frag k t d1 ++ s1 ++ rest)).
  { unfold reads_at, r0, Reader_init. cbn [initial_offset_ read_error_ buffer_ file_ end_of_buffer_offset_ eof_].
    rewrite <- Hc, <- Hfile in *. repeat (split; [done|]). left. done. }
  destruct (ReadMore_spec r0 0 _ Hat eq_refl) as (r1 & Hmore & _ & (_ & _ & _ & Hn1 & _) & Hb1 & _).
  change (file_ r0) with file in Hb1.
  rewrite Hfile, Hc, take_app_ge in Hb1 by (unfold size, kBlockSize in *; lia).
  set (b := take _ _) in Hb1.
  destruct (frag_parts k t d1 b) as (Htype & _ & _ & Hno & _);
    [lia|change (header_size_of k) with 11 in *; unfold kBlockSize in *; lia|].
  assert (Hold : old_record_ahead r1).
  { unfold old_record_ahead. rewrite Hb1, Htype, Hn1, (Hno eq_refl), size_app.
    split; [change (header_size_of k) with kRecyclableHeaderSize in *; pose proof (size_nonneg b); lia|].
    split; [done|]. cbn. pose proof (u32_range number) as Hu. unfold is_u32 in Hu. lia. }
  destruct (old_record_read 2 r1 Hold) as (r2 & E2 & _).
  assert (Hread : ReadPhysicalRecord r0 = Some (kOldRecord, [], 0, r2)).
  { rewrite <- E2. unfold ReadPhysicalRecord. set (n := 3%nat). cbn [ReadPhysicalRecord_loop].
    change (size (buffer_ r0) <? kHeaderSize) with true. cbv iota zeta. by rewrite Hmore. }
  unfold ReadRecord. change (last_record_offset_ r0 <? initial_offset_ r0) with false. cbn [negb].
  rewrite Nat.add_1_r. cbn [ReadRecord_loop]. rewrite Hread. exists r2.
  unfold ReadRecord_switch. rewrite (bool_decide_eq_false_2 (mode = kSkipAnyCorruptedRecords)) by done.
  done.
Qed.

End WholeLog.

(** ** Files in memory *)

(** A file that is a list of bytes. *)
#[export] Instance memory_writes : WritableFile bytes := {|
  Append b d := (OK, d ++ b);
  Flush d := (OK, d);
  contents d := d
|}.

#[export] Instance memory_writes_reliable : ReliableWrites bytes.
Proof. split; done. Qed.

#[export] Instance memory_reads : SequentialFile bytes := {|
  Read n f := (OK, take (Z.to_nat n) f, drop (Z.to_nat n) f);
  Skip n f := (OK, drop (Z.to_nat n) f);
  remaining f := f
|}.

#[export] Instance memory_reads_reliable : ReliableReads bytes.
Proof. split; done. Qed.

(** ** Examples *)

(** Records of 0, 3 and 100 bytes. *)
Definition example_records : list bytes :=
  [[]; [Byte.x61; Byte.x62; Byte.x63]; repeat Byte.x7a 100].

Definition example_log (recycle : bool) : bytes :=
  match AddRecords example_records (Writer_init ([] : bytes) 7 recycle false) with
  | Some w => dest_ w
  | None => []
  end.

Lemma log_roundtrip_witness :
  exists w, AddRecords example_records (Writer_init ([] : bytes) 7 true false) = Some w /\
    w_ok w = true.
Proof.
  destruct (log_roundtrip (D := bytes) (F := bytes) [] 7 true false example_records)
    as (w & E & Hok & _); [reflexivity|intros _; unfold is_u32; lia|].
  exists w. exact (conj E Hok).
Defined.

(** A damaged log: the second record's payload is changed. *)
Definition damaged_log : bytes := <[20%nat := Byte.x00]> (example_log false).

Lemma read_record_total_witness :
  exists res, ReadRecord kPointInTimeRecovery (Reader_init damaged_log true true 0 7) = Some res.
Proof. apply (read_record_total kPointInTimeRecovery). discriminate. Defined.

(** A recycled file: the log had number 7, the reader expects number 8. *)
Definition recycled_reader : Reader bytes :=
  (Reader_init ([] : bytes) true true 0 8) <| buffer_ := example_log true |>.

Lemma skip_mode_hangs_on_old_record_witness :
  ReadRecord_loop 1000 kSkipAnyCorruptedRecords (mkReadState [] false 0) recycled_reader = None.
Proof.
  apply (skip_mode_hangs_on_old_record (mkReadState [] false 0) recycled_reader 1000).
  repeat split; vm_compute; discriminate.
Defined.

Lemma recyclable_log_number_truncated_witness :
  exists w r, AddRecords example_records (Writer_init ([] : bytes) (2 ^ 32 + 7) true false) = Some w /\
    ReadRecord kTolerateCorruptedTailRecords (Reader_init (dest_ w) true true 0 (2 ^ 32 + 7)) =
      Some (false, [], r).
Proof.
  destruct (AddRecords example_records (Writer_init ([] : bytes) (2 ^ 32 + 7) true false))
    as [w|] eqn:E; [|vm_compute in E; discriminate E].
  assert (Hs : size (dest_ w) < 2 ^ 64)
    by (vm_compute in E; injection E as <-; vm_compute; reflexivity).
  destruct (recyclable_log_number_truncated (D := bytes) (F := bytes) [] (2 ^ 32 + 7) false []
    [[Byte.x61; Byte.x62; Byte.x63]; repeat Byte.x7a 100] w
    (dest_ w) kTolerateCorruptedTailRecords true) as [r Hr];
    [reflexivity|lia|discriminate|exact E|reflexivity|exact Hs|].
  exists w, r. split; [first [exact E | reflexivity]|exact Hr].
Defined.
