(* ===== verification/MemTableList.v ===== *)
(** * Immutable memtables (db/memtable_list.{h,cc}, db/flush_job.cc)

    A column family keeps its full memtables in a list that is copied on write:
    readers hold versions of the list, and a version is changed in place only
    while the list is its only holder.  A flush job picks memtables, writes them
    to a table file without the mutex, and then either gives them back or installs
    the result.  Installing commits memtables to the manifest oldest first; one
    thread commits at a time and releases the mutex while it does. *)

From stdpp Require Import base gmap list.
From Stdlib Require Import ZArith Lia.
From S2P Require Import Prelude DbFormat.
#[local] Open Scope Z_scope.

(** ** Memtables and versions of the list *)

(** What a flush records in a [VersionEdit]: the log number below which logs are
    not needed for recovery any more, and the files added. *)
Record Edit := mkEdit { e_log_number : option Z; e_files : list Z }.

Definition Edit_Clear : Edit := mkEdit None [].
Definition NumEntries (e : Edit) : nat := length (e_files e).

(** A memtable, as far as the list looks at it. *)
Record MemTable := mkMemTable {
  refs_ : Z;
  flush_in_progress_ : bool;
  flush_completed_ : bool;
  file_number_ : Z;
  edit_ : Edit;
  mem_next_logfile_number_ : Z;
  ApproximateMemoryUsage : Z;
  min_prep_log_referenced_ : Z;
  num_entries_ : Z;
  num_deletes_ : Z;
  earliest_seqno_ : Z;
  read_only_ : bool
}.

#[export] Instance MemTable_settable : Settable MemTable := fun r =>
  mkMemTable (refs_ r) (flush_in_progress_ r) (flush_completed_ r) (file_number_ r) (edit_ r)
    (mem_next_logfile_number_ r) (ApproximateMemoryUsage r) (min_prep_log_referenced_ r)
    (num_entries_ r) (num_deletes_ r) (earliest_seqno_ r) (read_only_ r).

Record MemTableListVersion := mkMemVersion {
  memlist_ : list nat;             (** newest first *)
  memlist_history_ : list nat;
  max_write_buffer_number_to_maintain_ : Z;
  v_refs_ : Z
}.

#[export] Instance MemTableListVersion_settable : Settable MemTableListVersion := fun r =>
  mkMemVersion (memlist_ r) (memlist_history_ r) (max_write_buffer_number_to_maintain_ r) (v_refs_ r).

(** The list, with the memtables and versions it shares with its readers. *)
Record MemTableList := mkMemTableList {
  mems : gmap nat MemTable;
  versions : gmap nat MemTableListVersion;
  next_version : nat;
  current_ : nat;
  min_write_buffer_number_to_merge_ : Z;
  num_flush_not_started_ : Z;
  commit_in_progress_ : bool;
  flush_requested_ : bool;
  imm_flush_needed : bool;
  current_memory_usage_ : Z;
  to_delete : list nat;            (** memtables handed out for deletion, latest first *)
  ml_ok : bool                     (** the assertions held, and nothing deleted was used *)
}.

#[export] Instance MemTableList_settable : Settable MemTableList := fun r =>
  mkMemTableList (mems r) (versions r) (next_version r) (current_ r)
    (min_write_buffer_number_to_merge_ r) (num_flush_not_started_ r) (commit_in_progress_ r)
    (flush_requested_ r) (imm_flush_needed r) (current_memory_usage_ r) (to_delete r) (ml_ok r).

Definition ml_assert (b : bool) (l : MemTableList) : MemTableList :=
  l <| ml_ok ::= fun a => a && b |>.

(** Access through a pointer to a memtable or a version. *)
Definition null_mem : MemTable := mkMemTable 0 false false 0 Edit_Clear 0 0 0 0 0 0 false.
Definition null_version : MemTableListVersion := mkMemVersion [] [] 0 0.

Definition mem_at (m : nat) (l : MemTableList) : MemTable := default null_mem (mems l !! m).
Definition version_at (v : nat) (l : MemTableList) : MemTableListVersion :=
  default null_version (versions l !! v).
Definition cur (l : MemTableList) : MemTableListVersion := version_at (current_ l) l.

Definition update_mem (m : nat) (f : MemTable -> MemTable) (l : MemTableList) : MemTableList :=
  ml_assert (bool_decide (is_Some (mems l !! m))) l <| mems ::= alter f m |>.

Definition update_version (v : nat) (f : MemTableListVersion -> MemTableListVersion)
    (l : MemTableList) : MemTableList :=
  ml_assert (bool_decide (is_Some (versions l !! v))) l <| versions ::= alter f v |>.

(** ** MemTableListVersion *)

Definition AddMemTable (v m : nat) (l : MemTableList) : MemTableList :=
  (update_version v (fun x => x <| memlist_ ::= cons m |>) l)
    <| current_memory_usage_ ::= Z.add (ApproximateMemoryUsage (mem_at m l)) |>.

(** [MemTable::Unref] and what the list does when it returns the memtable. *)
Definition UnrefMemTable (m : nat) (l : MemTableList) : MemTableList :=
  let l := update_mem m (fun x => x <| refs_ ::= Z.pred |>) l in
  let l := ml_assert (refs_ (mem_at m l) >=? 0) l in
  if refs_ (mem_at m l) <=? 0 then
    let l := l <| to_delete ::= cons m |> in
    let l := ml_assert (current_memory_usage_ l >=? ApproximateMemoryUsage (mem_at m l)) l in
    l <| current_memory_usage_ ::= fun u => u - ApproximateMemoryUsage (mem_at m l) |>
  else l.

(** A new version with the memtables of an old one, all of them referenced. *)
Definition RefMemTable (m : nat) (l : MemTableList) : MemTableList :=
  update_mem m (fun x => x <| refs_ ::= Z.succ |>) l.

Definition MemTableListVersion_copy (old : nat) (l : MemTableList) : nat * MemTableList :=
  let o := version_at old l in
  let v := next_version l in
  let l := foldl (fun l m => RefMemTable m l) l (memlist_ o) in
  let l := foldl (fun l m => RefMemTable m l) l (memlist_history_ o) in
  (v, l <| versions ::= <[v := o <| v_refs_ := 0 |>]> |> <| next_version ::= S |>).

Definition Version_Ref (v : nat) (l : MemTableList) : MemTableList :=
  update_version v (fun x => x <| v_refs_ ::= Z.succ |>) l.

(** [can_delete] tells whether a list for the memtables was passed. *)
Definition Version_Unref (can_delete : bool) (v : nat) (l : MemTableList) : MemTableList :=
  let l := ml_assert (v_refs_ (version_at v l) >=? 1) l in
  let l := update_version v (fun x => x <| v_refs_ ::= Z.pred |>) l in
  if v_refs_ (version_at v l) =? 0 then
    let l := ml_assert can_delete l in
    let x := version_at v l in
    let l := foldl (fun l m => UnrefMemTable m l) l (memlist_ x) in
    let l := foldl (fun l m => UnrefMemTable m l) l (memlist_history_ x) in
    l <| versions ::= delete v |>
  else l.

(** The history is trimmed while it is too long and not empty; its length is enough fuel. *)
Fixpoint TrimHistory_loop (fuel : nat) (v : nat) (l : MemTableList) : MemTableList :=
  match fuel with
  | O => l
  | S fuel =>
      let x := version_at v l in
      if (Z.of_nat (length (memlist_ x) + length (memlist_history_ x)) >?
          u64 (max_write_buffer_number_to_maintain_ x)) &&
         negb (bool_decide (memlist_history_ x = [])) then
        let m := List.last (memlist_history_ x) 0%nat in
        let l := update_version v (fun x => x <| memlist_history_ ::= removelast (A := nat) |>) l in
        TrimHistory_loop fuel v (UnrefMemTable m l)
      else l
  end.

Definition TrimHistory (v : nat) (l : MemTableList) : MemTableList :=
  TrimHistory_loop (length (memlist_history_ (version_at v l))) v l.

Definition Version_Add (v m : nat) (l : MemTableList) : MemTableList :=
  let l := ml_assert (v_refs_ (version_at v l) =? 1) l in
  TrimHistory v (AddMemTable v m l).

Definition Version_Remove (v m : nat) (l : MemTableList) : MemTableList :=
  let l := ml_assert (v_refs_ (version_at v l) =? 1) l in
  let l := update_version v (fun x => x <| memlist_ ::= filter (fun i => i <> m) |>) l in
  if max_write_buffer_number_to_maintain_ (version_at v l) >? 0 then
    TrimHistory v (update_version v (fun x => x <| memlist_history_ ::= cons m |>) l)
  else UnrefMemTable m l.

Definition sum_of (f : MemTable -> Z) (ms : list nat) (l : MemTableList) : Z :=
  foldl (fun total m => u64 (total + f (mem_at m l))) 0 ms.

Definition GetTotalNumEntries (v : nat) (l : MemTableList) : Z :=
  sum_of num_entries_ (memlist_ (version_at v l)) l.
Definition GetTotalNumDeletes (v : nat) (l : MemTableList) : Z :=
  sum_of num_deletes_ (memlist_ (version_at v l)) l.

Definition GetEarliestSequenceNumber (include_history : bool) (v : nat) (l : MemTableList) : Z :=
  let x := version_at v l in
  if include_history && negb (bool_decide (memlist_history_ x = []))
  then earliest_seqno_ (mem_at (List.last (memlist_history_ x) 0%nat) l)
  else if negb (bool_decide (memlist_ x = []))
  then earliest_seqno_ (mem_at (List.last (memlist_ x) 0%nat) l)
  else kMaxSequenceNumber.

(** The search of the memtables of a version, newest first.  [C] is what
    [MemTable::Get] reads and writes through its arguments (the value, the status,
    the merge operands and range tombstones found so far); what it does to them, and
    whether it is done and the sequence number it found, is a parameter.  The last
    component of the result tells whether the assertion held. *)
Section Get.
Context {C : Type} (get : nat -> C -> bool * Z * C) (status : C -> Status).

Fixpoint GetFromList_loop (ms : list nat) (seq : Z) (c : C) : bool * Z * C * bool :=
  match ms with
  | [] => (false, seq, c, true)
  | m :: ms =>
      let '(done, current_seq, c) := get m c in
      let seq := if seq =? kMaxSequenceNumber then current_seq else seq in
      if done then (true, seq, c, negb (seq =? kMaxSequenceNumber))
      else if negb (ok (status c)) && negb (bool_decide (code (status c) = kMergeInProgress)) &&
              negb (bool_decide (code (status c) = kNotFound)) then (false, seq, c, true)
      else GetFromList_loop ms seq c
  end.

Definition GetFromList (ms : list nat) (c : C) : bool * Z * C * bool :=
  GetFromList_loop ms kMaxSequenceNumber c.

Definition Version_Get (v : nat) (l : MemTableList) (c : C) : bool * Z * C * bool :=
  GetFromList (memlist_ (version_at v l)) c.
Definition Version_GetFromHistory (v : nat) (l : MemTableList) (c : C) : bool * Z * C * bool :=
  GetFromList (memlist_history_ (version_at v l)) c.
End Get.

(** ** MemTableList *)

Definition MemTableList_init (min_write_buffer_number_to_merge max_to_maintain : Z) : MemTableList :=
  mkMemTableList ∅ {[0%nat := mkMemVersion [] [] max_to_maintain 1]} 1 0
    min_write_buffer_number_to_merge 0 false false false 0 [] true.

Definition NumNotFlushed (l : MemTableList) : Z := Z.of_nat (length (memlist_ (cur l))).
Definition NumNotFlushed_assert (l : MemTableList) : bool :=
  num_flush_not_started_ l <=? NumNotFlushed l.
Definition NumFlushed (l : MemTableList) : Z := Z.of_nat (length (memlist_history_ (cur l))).

Definition IsFlushPending (l : MemTableList) : bool :=
  (flush_requested_ l && (num_flush_not_started_ l >=? 1)) ||
  (num_flush_not_started_ l >=? min_write_buffer_number_to_merge_ l).
Definition IsFlushPending_assert (l : MemTableList) : bool :=
  implb (IsFlushPending l) (imm_flush_needed l).

Definition FlushRequested (l : MemTableList) : MemTableList := l <| flush_requested_ := true |>.
Definition HasFlushRequested (l : MemTableList) : bool := flush_requested_ l.

(** Picking goes through the list from its oldest memtable; the memtables picked
    come out oldest first. *)
Definition pick_one (m : nat) (acc : list nat * MemTableList) : list nat * MemTableList :=
  let '(ret, l) := acc in
  if negb (flush_in_progress_ (mem_at m l)) then
    let l := ml_assert (negb (flush_completed_ (mem_at m l))) l in
    let l := l <| num_flush_not_started_ ::= Z.pred |> in
    let l := if num_flush_not_started_ l =? 0 then l <| imm_flush_needed := false |> else l in
    let l := update_mem m (fun x => x <| flush_in_progress_ := true |>) l in
    (ret ++ [m], l)
  else (ret, l).

Definition PickMemtablesToFlush (l : MemTableList) : list nat * MemTableList :=
  let '(ret, l) := foldl (fun acc m => pick_one m acc) ([], l) (rev (memlist_ (cur l))) in
  (ret, l <| flush_requested_ := false |>).

Definition rollback_one (l : MemTableList) (m : nat) : MemTableList :=
  let l := ml_assert (flush_in_progress_ (mem_at m l)) l in
  let l := ml_assert (file_number_ (mem_at m l) =? 0) l in
  let l := update_mem m (fun x => x <| flush_in_progress_ := false |> <| flush_completed_ := false |>
                                    <| edit_ := Edit_Clear |>) l in
  l <| num_flush_not_started_ ::= Z.succ |>.

Definition RollbackMemtableFlush (ms : list nat) (l : MemTableList) : MemTableList :=
  let l := ml_assert (negb (bool_decide (ms = []))) l in
  (foldl rollback_one l ms) <| imm_flush_needed := true |>.

Definition InstallNewVersion (l : MemTableList) : MemTableList :=
  if v_refs_ (cur l) =? 1 then l
  else
    let version := current_ l in
    let '(v, l) := MemTableListVersion_copy (current_ l) l in
    let l := l <| current_ := v |> in
    let l := Version_Ref v l in
    Version_Unref false version l.

(** The end of [Add], when the memtable is in the list. *)
Definition add_ends (m : nat) (l : MemTableList) : MemTableList :=
  let l := update_mem m (fun x => x <| read_only_ := true |>) l in
  let l := l <| num_flush_not_started_ ::= Z.succ |> in
  if num_flush_not_started_ l =? 1 then l <| imm_flush_needed := true |> else l.

Definition MemTableList_Add (m : nat) (l : MemTableList) : MemTableList :=
  let l := ml_assert (Z.of_nat (length (memlist_ (cur l))) >=? num_flush_not_started_ l) l in
  let l := InstallNewVersion l in
  add_ends m (Version_Add (current_ l) m l).

(** *** Installing the result of a flush *)

(** The first loop: the memtables of the job are done. *)
Fixpoint mark_completed (first : bool) (file_number : Z) (ms : list nat) (l : MemTableList)
    : MemTableList :=
  match ms with
  | [] => l
  | m :: ms =>
      let l := ml_assert (first || Nat.eqb (NumEntries (edit_ (mem_at m l))) 0) l in
      let l := update_mem m (fun x => x <| flush_completed_ := true |>
                                        <| file_number_ := file_number |>) l in
      mark_completed false file_number ms l
  end.

(** The scan for memtables to commit, oldest first: their number and the edits. *)
Fixpoint scan_batch (first : bool) (batch_file_number : Z) (ms : list nat) (l : MemTableList)
    : nat * list Edit :=
  match ms with
  | [] => (0%nat, [])
  | m :: ms =>
      if negb (flush_completed_ (mem_at m l)) then (0%nat, [])
      else
        let fresh := first || negb (batch_file_number =? file_number_ (mem_at m l)) in
        let '(n, es) := scan_batch false (if fresh then file_number_ (mem_at m l)
                                          else batch_file_number) ms l in
        (S n, if fresh then edit_ (mem_at m l) :: es else es)
  end.

(** The head of the committing loop: it ends, or waits in [LogAndApply] with a
    batch. *)
Definition Install_scan (l : MemTableList) : option (nat * list Edit) * MemTableList :=
  let memlist := memlist_ (cur l) in
  if bool_decide (memlist = []) || negb (flush_completed_ (mem_at (List.last memlist 0%nat) l))
  then (None, l <| commit_in_progress_ := false |>)
  else (Some (scan_batch true 0 (rev memlist) l), l).

(** [InstallMemtableFlushResults] up to the first call of [LogAndApply]. *)
Definition Install_begin (ms : list nat) (file_number : Z) (l : MemTableList)
    : option (nat * list Edit) * MemTableList :=
  let l := mark_completed true file_number ms l in
  if commit_in_progress_ l then (None, l)
  else Install_scan (l <| commit_in_progress_ := true |>).

(** After [LogAndApply]: the batch leaves the list. *)
Fixpoint commit_batch (batch_count : nat) (l : MemTableList) : MemTableList :=
  match batch_count with
  | O => l
  | S n =>
      let m := List.last (memlist_ (cur l)) 0%nat in
      let l := ml_assert (file_number_ (mem_at m l) >? 0) l in
      commit_batch n (Version_Remove (current_ l) m l)
  end.

(** Or it is given back, to be flushed again. *)
Definition uncommit_one (l : MemTableList) (m : nat) : MemTableList :=
  let l := update_mem m (fun x => x <| flush_completed_ := false |> <| flush_in_progress_ := false |>
                                    <| edit_ := Edit_Clear |> <| file_number_ := 0 |>) l in
  l <| num_flush_not_started_ ::= Z.succ |> <| imm_flush_needed := true |>.

Definition uncommit_batch (batch_count : nat) (l : MemTableList) : MemTableList :=
  foldl uncommit_one l (take batch_count (rev (memlist_ (cur l)))).

(** The rest of the loop's body and the loop's condition, with the status of
    [LogAndApply]. *)
Definition Install_resume (s : Status) (batch_count : nat) (l : MemTableList)
    : option (nat * list Edit) * MemTableList :=
  let l := InstallNewVersion l in
  if ok s then Install_scan (commit_batch batch_count l)
  else (None, (uncommit_batch batch_count l) <| commit_in_progress_ := false |>).

Definition ApproximateUnflushedMemTablesMemoryUsage (l : MemTableList) : Z :=
  sum_of ApproximateMemoryUsage (memlist_ (cur l)) l.

Definition GetMinLogContainingPrepSection (l : MemTableList) : Z :=
  foldl (fun min_log m =>
    if flush_completed_ (mem_at m l) then min_log
    else
      let log := min_prep_log_referenced_ (mem_at m l) in
      if (log >? 0) && ((min_log =? 0) || (log <? min_log)) then log else min_log)
    0 (memlist_ (cur l)).

(** ** FlushJob *)

Record FlushJob := mkFlushJob { mems_ : list nat; meta_fd : Z }.

(** The edit of the job is the one of its first memtable. *)
Definition PickMemTable (new_file_number : Z) (l : MemTableList) : FlushJob * MemTableList :=
  let '(ms, l) := PickMemtablesToFlush l in
  match ms with
  | [] => (mkFlushJob [] 0, l)
  | m :: _ =>
      let next_log := mem_next_logfile_number_ (mem_at (List.last ms 0%nat) l) in
      (mkFlushJob ms new_file_number,
       update_mem m (fun x => x <| edit_ ::= fun e => mkEdit (Some next_log) (e_files e) |>) l)
  end.

(** [Run] after the table was written: [s] is the status of that, [empty_file]
    tells that nothing was left to write, [abandoned] that the database is shutting
    down or the column family was dropped. *)
Definition FlushJob_finish (s : Status) (empty_file abandoned : bool) (j : FlushJob)
    (l : MemTableList) : option (nat * list Edit) * MemTableList :=
  match mems_ j with
  | [] => (None, l)
  | m :: _ =>
      let l :=
        if ok s && negb empty_file
        then update_mem m (fun x => x <| edit_ ::= fun e =>
                                           mkEdit (e_log_number e) (e_files e ++ [meta_fd j]) |>) l
        else l in
      if negb (ok s) || abandoned then (None, RollbackMemtableFlush (mems_ j) l)
      else Install_begin (mems_ j) (meta_fd j) l
  end.

(** ** Counting references *)

(** How often [m] is in a list. *)
Definition occ (m : nat) (ms : list nat) : Z := Z.of_nat (count_occ Nat.eq_dec ms m).

Lemma occ_nonneg m ms : 0 <= occ m ms.
Proof. unfold occ. lia. Qed.

Lemma occ_nil m : occ m [] = 0.
Proof. done. Qed.

Lemma occ_cons m i ms : occ m (i :: ms) = (if decide (i = m) then 1 else 0) + occ m ms.
Proof. unfold occ. cbn. destruct (Nat.eq_dec i m), (decide (i = m)); congruence || lia. Qed.

Lemma occ_app m a b : occ m (a ++ b) = occ m a + occ m b.
Proof. unfold occ. rewrite count_occ_app. lia. Qed.

Lemma occ_pos m ms : m ∈ ms <-> 1 <= occ m ms.
Proof. rewrite list_elem_of_In, (count_occ_In Nat.eq_dec). unfold occ. lia. Qed.

Lemma occ_NoDup m ms : NoDup ms -> occ m ms <= 1.
Proof.
  intros Hnd. apply NoDup_ListNoDup in Hnd. unfold occ.
  pose proof (proj1 (NoDup_count_occ Nat.eq_dec ms) Hnd m). lia.
Qed.

Lemma occ_absent m ms : m ∉ ms -> occ m ms = 0.
Proof. rewrite occ_pos. pose proof (occ_nonneg m ms). lia. Qed.

(** Sums over maps. *)
Definition ksum {A} (f : nat -> A -> Z) (vs : gmap nat A) : Z :=
  map_fold (fun k x acc => f k x + acc) 0 vs.

Lemma ksum_insert_fresh {A} (f : nat -> A -> Z) vs v x :
  vs !! v = None -> ksum f (<[v := x]> vs) = f v x + ksum f vs.
Proof. intros Hv. unfold ksum. rewrite map_fold_insert_L; [done| |done]. intros; lia. Qed.

Lemma ksum_delete {A} (f : nat -> A -> Z) vs v x :
  vs !! v = Some x -> ksum f vs = f v x + ksum f (delete v vs).
Proof. intros Hv. unfold ksum. rewrite (map_fold_delete_L _ _ v x); [done| |done]. intros; lia. Qed.

Lemma ksum_insert {A} (f : nat -> A -> Z) vs v x y :
  vs !! v = Some x -> ksum f (<[v := y]> vs) = ksum f vs - f v x + f v y.
Proof.
  intros Hv. rewrite (ksum_delete f vs v x Hv), <- insert_delete_eq, ksum_insert_fresh;
    [lia|apply lookup_delete_eq].
Qed.

Lemma ksum_nonneg {A} (f : nat -> A -> Z) vs :
  (forall v x, vs !! v = Some x -> 0 <= f v x) -> 0 <= ksum f vs.
Proof.
  induction vs as [|v x vs Hv IH] using map_ind; intros Hf; [done|].
  rewrite ksum_insert_fresh by done. specialize (Hf v x (lookup_insert_eq _ _ _)) as Hx.
  assert (0 <= ksum f vs); [|lia]. apply IH. intros w y Hw. apply (Hf w).
  rewrite lookup_insert_ne; [done|]. intros ->. congruence.
Qed.

Lemma ksum_ge {A} (f : nat -> A -> Z) vs v x :
  (forall v x, vs !! v = Some x -> 0 <= f v x) -> vs !! v = Some x -> f v x <= ksum f vs.
Proof.
  intros Hf Hv. rewrite (ksum_delete f vs v x Hv).
  assert (0 <= ksum f (delete v vs)); [|lia]. apply ksum_nonneg. intros w y Hw.
  apply lookup_delete_Some in Hw as [_ Hw]. by apply (Hf w).
Qed.

Lemma ksum_ext {A} (f g : nat -> A -> Z) vs :
  (forall v x, vs !! v = Some x -> f v x = g v x) -> ksum f vs = ksum g vs.
Proof.
  induction vs as [|v x vs Hv IH] using map_ind; intros Hf; [done|].
  rewrite !ksum_insert_fresh by done. rewrite (Hf v x (lookup_insert_eq _ _ _)), IH; [done|].
  intros w y Hw. apply (Hf w). rewrite lookup_insert_ne; [done|]. intros ->. congruence.
Qed.

(** ** The invariant of the shared store *)

(** The memtables a version refers to. *)
Definition listed (x : MemTableListVersion) : list nat := memlist_ x ++ memlist_history_ x.

(** The references that versions hold to a memtable. *)
Definition version_refs (m : nat) (vs : gmap nat MemTableListVersion) : Z :=
  ksum (fun _ y => occ m (listed y)) vs.

(** What a memtable contributes to the memory in use. *)
Definition counted (x : MemTable) : Z := if refs_ x >? 0 then ApproximateMemoryUsage x else 0.

(** [h] says how many references to a memtable its other users hold, [hv] the same
    of versions, [fresh] which memtables were not added yet. *)
Record store_inv (fresh : nat -> bool) (h hv : nat -> Z) (l : MemTableList) : Prop := {
  si_ok : ml_ok l = true;
  si_current : is_Some (versions l !! current_ l);
  si_version v x : versions l !! v = Some x ->
    (v < next_version l)%nat /\ NoDup (listed x) /\ 1 <= v_refs_ x /\
    v_refs_ x = (if decide (v = current_ l) then 1 else 0) + hv v;
  si_hv v : 0 <= hv v /\ (versions l !! v = None -> hv v = 0);
  si_listed v x m : versions l !! v = Some x -> m ∈ listed x ->
    is_Some (mems l !! m) /\ fresh m = false;
  si_refs m x : mems l !! m = Some x ->
    refs_ x = version_refs m (versions l) + h m /\ 0 <= ApproximateMemoryUsage x;
  si_h m : 0 <= h m;
  si_usage : current_memory_usage_ l = ksum (fun m x => if fresh m then 0 else counted x) (mems l);
  si_deleted m : m ∈ to_delete l -> refs_ (mem_at m l) = 0 /\ is_Some (mems l !! m);
  si_deleted_once : NoDup (to_delete l)
}.

(** What the store operations leave alone: all of the list but its versions, the
    memory in use and the memtables to delete, and all of a memtable but its
    reference count. *)
Definition unref (x : MemTable) : MemTable := x <| refs_ := 0 |>.

Record frame (l l' : MemTableList) : Prop := {
  fr_mems : unref <$> mems l' = unref <$> mems l;
  fr_min : min_write_buffer_number_to_merge_ l' = min_write_buffer_number_to_merge_ l;
  fr_num : num_flush_not_started_ l' = num_flush_not_started_ l;
  fr_commit : commit_in_progress_ l' = commit_in_progress_ l;
  fr_requested : flush_requested_ l' = flush_requested_ l;
  fr_needed : imm_flush_needed l' = imm_flush_needed l
}.

#[export] Instance frame_preorder : PreOrder frame.
Proof.
  split; [done|]. intros a b c [] []. split; etrans; eassumption.
Qed.

(** And those that do not touch versions either. *)
Definition same_versions (l l' : MemTableList) : Prop :=
  versions l' = versions l /\ current_ l' = current_ l /\ next_version l' = next_version l.

Lemma same_versions_trans a b c : same_versions a b -> same_versions b c -> same_versions a c.
Proof. unfold same_versions. intuition congruence. Qed.

(** Changing the number of references held elsewhere. *)
Definition held (m : nat) (k : Z) (h : nat -> Z) : nat -> Z :=
  fun i => h i + if decide (i = m) then k else 0.

Lemma ml_assert_true b l : b = true -> ml_assert b l = l.
Proof. intros ->. destruct l. unfold ml_assert; cbn. by rewrite andb_true_r. Qed.

Lemma update_mem_eq m f l x :
  mems l !! m = Some x -> update_mem m f l = l <| mems := <[m := f x]> (mems l) |>.
Proof.
  intros Hm. unfold update_mem. rewrite ml_assert_true by (apply bool_decide_eq_true; eauto).
  cbn. f_equal. apply map_eq. intros i. destruct (decide (i = m)) as [->|].
  - by rewrite lookup_alter_eq, lookup_insert_eq, Hm.
  - by rewrite lookup_alter_ne, lookup_insert_ne.
Qed.

Lemma update_version_eq v f l x :
  versions l !! v = Some x -> update_version v f l = l <| versions := <[v := f x]> (versions l) |>.
Proof.
  intros Hv. unfold update_version. rewrite ml_assert_true by (apply bool_decide_eq_true; eauto).
  cbn. f_equal. apply map_eq. intros i. destruct (decide (i = v)) as [->|].
  - by rewrite lookup_alter_eq, lookup_insert_eq, Hv.
  - by rewrite lookup_alter_ne, lookup_insert_ne.
Qed.

Lemma mem_at_Some m l x : mems l !! m = Some x -> mem_at m l = x.
Proof. intros Hm. unfold mem_at. by rewrite Hm. Qed.

Lemma version_at_Some v l x : versions l !! v = Some x -> version_at v l = x.
Proof. intros Hv. unfold version_at. by rewrite Hv. Qed.

Lemma held_same m k h : held m k h m = h m + k.
Proof. unfold held. by rewrite decide_True. Qed.

Lemma held_other m k h i : i <> m -> held m k h i = h i.
Proof. intros. unfold held. rewrite decide_False by done. lia. Qed.

Lemma store_inv_ext fresh h h' hv l :
  (forall i, h i = h' i) -> store_inv fresh h hv l -> store_inv fresh h' hv l.
Proof.
  intros Hh []. split; try done.
  - intros m x Hm. rewrite <- Hh. auto.
  - intros m. by rewrite <- Hh.
Qed.

Lemma occ_sum_nonneg m (vs : gmap nat MemTableListVersion) :
  0 <= version_refs m vs.
Proof. apply ksum_nonneg. intros. apply occ_nonneg. Qed.

(** A store that differs in one count, in the memory in use and in the memtables
    to delete. *)
Lemma set_refs_inv fresh h h' hv l m x k d :
  store_inv fresh h hv l -> mems l !! m = Some x -> (forall i, h' i = held m k h i) ->
  0 <= h m + k ->
  (d = [] \/ d = [m] /\ 0 < refs_ x /\ refs_ x + k = 0) ->
  (refs_ x = 0 -> k = 0 \/ m ∉ to_delete l) ->
  store_inv fresh h' hv
    (l <| mems := <[m := x <| refs_ ::= fun r => r + k |>]> (mems l) |>
       <| to_delete ::= app d |>
       <| current_memory_usage_ ::= fun u =>
            u + (if fresh m then 0 else counted (x <| refs_ ::= fun r => r + k |>) - counted x) |>).
Proof.
  intros [] Hm Hh' Hk Hd Hdel. split; cbn [ml_ok versions current_ next_version mems
    current_memory_usage_ to_delete set].
  - done.
  - done.
  - done.
  - done.
  - intros v y i Hv Hi. destruct (si_listed0 v y i Hv Hi) as [Hs Hf]. split; [|done].
    destruct (decide (i = m)) as [->|]; [rewrite lookup_insert_eq; eauto|by rewrite lookup_insert_ne].
  - intros i y. rewrite Hh'. destruct (decide (i = m)) as [->|Hne].
    + rewrite lookup_insert_eq, held_same. intros [= <-]. cbn. specialize (si_refs0 m x Hm). lia.
    + rewrite lookup_insert_ne, held_other by done. apply si_refs0.
  - intros i. rewrite Hh'. unfold held. case_decide; [subst; lia|]. specialize (si_h0 i). lia.
  - rewrite (ksum_insert _ _ _ _ _ Hm), si_usage0. destruct (fresh m); lia.
  - intros i Hi. apply elem_of_app in Hi. unfold mem_at. cbn [mems set].
    destruct (decide (i = m)) as [->|Hne].
    + rewrite lookup_insert_eq. cbn. split; [|eauto].
      destruct Hi as [Hi|Hi].
      * destruct Hd as [->|(-> & _ & Hz)]; [by apply not_elem_of_nil in Hi|done].
      * destruct (si_deleted0 m Hi) as [Hz _]. rewrite (mem_at_Some _ _ _ Hm) in Hz.
        destruct (Hdel Hz) as [->|]; [lia|done].
    + rewrite lookup_insert_ne by done. destruct Hi as [Hi|Hi]; [|by apply si_deleted0].
      destruct Hd as [->|(-> & _)]; [by apply not_elem_of_nil in Hi|].
      apply list_elem_of_singleton in Hi. done.
  - destruct Hd as [->|(-> & Hpos' & _)]; [done|]. cbn. apply NoDup_cons. split; [|done].
    intros Hi. destruct (si_deleted0 m Hi) as [Hz _]. rewrite (mem_at_Some _ _ _ Hm) in Hz. lia.
Qed.

Lemma frame_refs l m x k u d :
  mems l !! m = Some x ->
  frame l (l <| mems := <[m := x <| refs_ := k |>]> (mems l) |>
             <| to_delete := d |> <| current_memory_usage_ := u |>).
Proof.
  intros Hm. split; try done. cbn [mems set]. rewrite fmap_insert. apply insert_id.
  rewrite lookup_fmap, Hm. done.
Qed.

(** A memtable with [k] more references. *)
Definition add_refs (k : Z) (x : MemTable) : MemTable := x <| refs_ ::= fun r => r + k |>.

Lemma UnrefMemTable_eq l m x :
  mems l !! m = Some x -> 1 <= refs_ x -> ApproximateMemoryUsage x <= current_memory_usage_ l ->
  UnrefMemTable m l =
    l <| mems := <[m := add_refs (-1) x]> (mems l) |>
      <| to_delete ::= app (if refs_ x =? 1 then [m] else []) |>
      <| current_memory_usage_ ::= fun u => u + (if refs_ x =? 1 then - ApproximateMemoryUsage x else 0) |>.
Proof.
  intros Hm Hr Hu. unfold UnrefMemTable. rewrite (update_mem_eq _ _ _ _ Hm).
  replace (x <| refs_ ::= Z.pred |>) with (add_refs (-1) x)
    by (destruct x; unfold add_refs; cbn; f_equal; lia).
  set (l1 := l <| mems := _ |>).
  assert (Hm1 : mems l1 !! m = Some (add_refs (-1) x)) by apply lookup_insert_eq.
  rewrite !(mem_at_Some _ _ _ Hm1).
  rewrite (ml_assert_true _ l1) by (apply Z.geb_le; cbn; lia).
  rewrite (mem_at_Some _ _ _ Hm1). change (refs_ (add_refs (-1) x)) with (refs_ x + -1).
  destruct (refs_ x =? 1) eqn:E.
  - apply Z.eqb_eq in E. rewrite E. cbn [Z.leb Z.add Z.compare Z.pos_sub].
    rewrite (mem_at_Some m (l1 <| to_delete ::= cons m |>) (add_refs (-1) x)) by exact Hm1.
    rewrite ml_assert_true by (apply Z.geb_le; exact Hu).
    rewrite (mem_at_Some m (l1 <| to_delete ::= cons m |>) (add_refs (-1) x)) by exact Hm1.
    unfold l1. destruct l; cbn. f_equal.
  - apply Z.eqb_neq in E. rewrite (proj2 (Z.leb_gt (refs_ x + -1) 0)) by lia.
    unfold l1. destruct l; cbn. f_equal. lia.
Qed.

Lemma counted_nonneg fresh h hv l i y :
  store_inv fresh h hv l -> mems l !! i = Some y -> 0 <= (if fresh i then 0 else counted y).
Proof.
  intros Hinv Hy. destruct (si_refs _ _ _ _ Hinv i y Hy). unfold counted.
  destruct (fresh i); [done|]. destruct (refs_ y >? 0); lia.
Qed.

Lemma UnrefMemTable_inv fresh h hv l m x :
  store_inv fresh (held m 1 h) hv l -> 0 <= h m -> mems l !! m = Some x -> fresh m = false ->
  store_inv fresh h hv (UnrefMemTable m l) /\ frame l (UnrefMemTable m l) /\
  same_versions l (UnrefMemTable m l).
Proof.
  intros Hinv Hh Hm Hf. destruct (si_refs _ _ _ _ Hinv m x Hm) as [Hr Hu].
  rewrite held_same in Hr. pose proof (occ_sum_nonneg m (versions l)) as Hocc.
  assert (Hpos : 1 <= refs_ x) by lia. clear Hocc Hr.
  assert (Hle : ApproximateMemoryUsage x <= current_memory_usage_ l).
  { rewrite (si_usage _ _ _ _ Hinv).
    pose proof (ksum_ge (fun m x => if fresh m then 0 else counted x) (mems l) m x) as Hge.
    cbv beta in Hge. rewrite Hf in Hge. unfold counted at 2 in Hge.
    rewrite (proj2 (Z.gtb_lt (refs_ x) 0)) in Hge by lia. apply Hge; [|done].
    intros i y Hy. by eapply counted_nonneg. }
  rewrite (UnrefMemTable_eq l m x Hm Hpos Hle).
  split; [|split; [apply (frame_refs l m x _ _ _ Hm)|done]].
  replace (if refs_ x =? 1 then - ApproximateMemoryUsage x else 0)
    with (if fresh m then 0 else counted (add_refs (-1) x) - counted x).
  - apply (set_refs_inv fresh (held m 1 h) h hv l m x (-1)); [done|done| | | |].
    + intros i. unfold held. case_decide; lia.
    + rewrite held_same. lia.
    + destruct (refs_ x =? 1) eqn:E; [right|by left]. apply Z.eqb_eq in E. split; [done|lia].
    + lia.
  - rewrite Hf. unfold counted, add_refs. cbn [refs_ ApproximateMemoryUsage set].
    rewrite (proj2 (Z.gtb_lt (refs_ x) 0)) by lia.
    destruct (refs_ x =? 1) eqn:E; [apply Z.eqb_eq in E; rewrite E; change (1 + -1 >? 0) with false; cbv iota; lia|].
    apply Z.eqb_neq in E. rewrite (proj2 (Z.gtb_lt _ _)) by lia. lia.
Qed.

(** Many at once. *)
Definition held_list (ms : list nat) (h : nat -> Z) : nat -> Z := fun i => h i + occ i ms.

Lemma frame_Some l l' m x :
  frame l l' -> mems l !! m = Some x -> exists y, mems l' !! m = Some y /\ unref y = unref x.
Proof.
  intros [Hf _ _ _ _ _] Hm. apply (f_equal (fun g => g !! m)) in Hf.
  rewrite !lookup_fmap, Hm in Hf. cbn in Hf.
  destruct (mems l' !! m) as [y|]; [|discriminate]. cbn in Hf. exists y. split; [done|congruence].
Qed.

Lemma UnrefMemTables_inv fresh h hv ms : forall l,
  store_inv fresh (held_list ms h) hv l -> (forall i, 0 <= h i) ->
  (forall m, m ∈ ms -> is_Some (mems l !! m) /\ fresh m = false) ->
  let l' := foldl (fun l m => UnrefMemTable m l) l ms in
  store_inv fresh h hv l' /\ frame l l' /\ same_versions l l'.
Proof.
  induction ms as [|m ms IH]; intros l Hinv Hh Hms; cbn [foldl]; cbv zeta.
  - split; [|done]. eapply store_inv_ext; [|exact Hinv]. intros i. unfold held_list. rewrite occ_nil. lia.
  - destruct (Hms m) as [[x Hx] Hf]; [left|].
    destruct (UnrefMemTable_inv fresh (held_list ms h) hv l m x) as (H1 & H2 & H3); [|..|done|].
    + eapply store_inv_ext; [|exact Hinv]. intros i. unfold held, held_list. rewrite occ_cons.
      destruct (decide (m = i)), (decide (i = m)); congruence || lia.
    + unfold held_list. pose proof (occ_nonneg m ms). specialize (Hh m). lia.
    + done.
    + destruct (IH (UnrefMemTable m l) H1 Hh) as (H4 & H5 & H6).
      { intros i Hi. destruct (Hms i) as [[y Hy] Hfi]; [by right|].
        destruct (frame_Some _ _ _ _ H2 Hy) as (z & Hz & _). eauto. }
      split; [done|]. split; [by etrans|by eapply same_versions_trans].
Qed.

Lemma RefMemTables_inv fresh hv ms : forall h l,
  store_inv fresh h hv l ->
  (forall m, m ∈ ms -> exists x, mems l !! m = Some x /\ 0 < refs_ x) ->
  let l' := foldl (fun l m => RefMemTable m l) l ms in
  store_inv fresh (held_list ms h) hv l' /\ frame l l' /\ same_versions l l' /\
  (forall m x, mems l !! m = Some x -> exists y, mems l' !! m = Some y /\ refs_ x <= refs_ y).
Proof.
  induction ms as [|m ms IH]; intros h l Hinv Hms; cbn [foldl]; cbv zeta.
  - split; [|split; [done|split; [done|eauto using Z.le_refl]]]. eapply store_inv_ext; [|exact Hinv].
    intros i. unfold held_list. rewrite occ_nil. lia.
  - destruct (Hms m) as (x & Hx & Hpos); [left|].
    set (l1 := RefMemTable m l).
    assert (El1 : l1 = l <| mems := <[m := add_refs 1 x]> (mems l) |>).
    { unfold l1, RefMemTable. rewrite (update_mem_eq _ _ _ _ Hx). by destruct x. }
    assert (H1 : store_inv fresh (held m 1 h) hv l1).
    { pose proof (set_refs_inv fresh h (held m 1 h) hv l m x 1 [] Hinv Hx) as Hset.
      assert (Hc : (if fresh m then 0 else counted (x <| refs_ ::= fun r => r + 1 |>) - counted x) = 0).
      { destruct (fresh m); [done|]. unfold counted. cbn [refs_ ApproximateMemoryUsage set].
        rewrite !(proj2 (Z.gtb_lt _ _)) by lia. lia. }
      rewrite Hc in Hset. rewrite El1.
      assert (Hl : l <| mems := <[m := add_refs 1 x]> (mems l) |> =
        l <| mems := <[m := x <| refs_ ::= fun r => r + 1 |>]> (mems l) |> <| to_delete ::= app [] |>
          <| current_memory_usage_ ::= fun u => u + 0 |>) by (destruct l; cbn; f_equal; lia).
      rewrite Hl. apply Hset; [done| |by left|lia]. pose proof (si_h _ _ _ _ Hinv m). lia. }
    assert (H2 : frame l l1).
    { rewrite El1. destruct l. apply (frame_refs _ m x _ _ _ Hx). }
    assert (H3 : same_versions l l1) by (rewrite El1; done).
    assert (H4 : forall i y, mems l !! i = Some y -> exists z, mems l1 !! i = Some z /\ refs_ y <= refs_ z).
    { intros i y Hy. rewrite El1. cbn [mems set]. destruct (decide (i = m)) as [->|].
      - rewrite lookup_insert_eq. rewrite Hx in Hy. injection Hy as ->. eexists. split; [done|]. cbn. lia.
      - rewrite lookup_insert_ne by done. eauto using Z.le_refl. }
    destruct (IH (held m 1 h) l1 H1) as (H5 & H6 & H7 & H8).
    { intros i Hi. destruct (Hms i) as (y & Hy & Hp); [by right|].
      destruct (H4 i y Hy) as (z & Hz & Hle). exists z. split; [done|lia]. }
    split.
    { eapply store_inv_ext; [|exact H5]. intros i. unfold held, held_list. rewrite occ_cons.
      destruct (decide (m = i)), (decide (i = m)); congruence || lia. }
    split; [by etrans|]. split; [by eapply same_versions_trans|].
    intros i y Hy. destruct (H4 i y Hy) as (z & Hz & Hle). destruct (H8 i z Hz) as (w & Hw & Hle').
    exists w. split; [done|lia].
Qed.

(** ** Changing a version in place *)

Lemma set_version_inv fresh h h' hv l v x y :
  store_inv fresh h hv l -> versions l !! v = Some x ->
  v_refs_ y = v_refs_ x -> NoDup (listed y) ->
  (forall m, m ∈ listed y -> is_Some (mems l !! m) /\ fresh m = false) ->
  (forall m, h' m = h m + occ m (listed x) - occ m (listed y)) -> (forall m, 0 <= h' m) ->
  store_inv fresh h' hv (l <| versions := <[v := y]> (versions l) |>).
Proof.
  intros [] Hv Hrefs Hnd Hlist Hh' Hh0. split; cbn [ml_ok versions current_ next_version mems
    current_memory_usage_ to_delete set]; try done.
  - destruct (decide (v = current_ l)) as [->|]; [rewrite lookup_insert_eq; eauto|].
    by rewrite lookup_insert_ne.
  - intros w z. destruct (decide (w = v)) as [->|].
    + rewrite lookup_insert_eq. intros [= <-]. rewrite Hrefs.
      destruct (si_version0 v x Hv) as (? & _ & ?). done.
    + rewrite lookup_insert_ne by done. apply si_version0.
  - intros w. split; [apply si_hv0|]. intros Hw. apply si_hv0.
    destruct (decide (w = v)) as [->|]; [by rewrite lookup_insert_eq in Hw|].
    by rewrite lookup_insert_ne in Hw.
  - intros w z m. destruct (decide (w = v)) as [->|].
    + rewrite lookup_insert_eq. intros [= <-]. apply Hlist.
    + rewrite lookup_insert_ne by done. apply si_listed0.
  - intros m z Hm. rewrite Hh'. unfold version_refs. rewrite (ksum_insert _ _ _ _ _ Hv).
    destruct (si_refs0 m z Hm) as [-> ?]. unfold version_refs. lia.
Qed.

(** What the operations on the version [v] do to the others. *)
Definition only_version (v : nat) (l l' : MemTableList) : Prop :=
  current_ l' = current_ l /\ next_version l' = next_version l /\
  forall w, w <> v -> versions l' !! w = versions l !! w.

Lemma only_version_trans v a b c : only_version v a b -> only_version v b c -> only_version v a c.
Proof.
  intros (H1 & H2 & H3) (H4 & H5 & H6). split; [congruence|]. split; [congruence|].
  intros w Hw. rewrite H6, H3; done.
Qed.

Lemma same_only v l l' : same_versions l l' -> only_version v l l'.
Proof. intros (H1 & H2 & H3). split; [done|]. split; [done|]. intros. by rewrite H1. Qed.

Lemma removelast_app_last (ms : list nat) : ms <> [] -> ms = removelast ms ++ [List.last ms 0%nat].
Proof. apply app_removelast_last. Qed.

Lemma TrimHistory_loop_inv fresh h hv v fuel : forall l x,
  store_inv fresh h hv l -> versions l !! v = Some x ->
  exists y, versions (TrimHistory_loop fuel v l) !! v = Some y /\
    store_inv fresh h hv (TrimHistory_loop fuel v l) /\ frame l (TrimHistory_loop fuel v l) /\
    only_version v l (TrimHistory_loop fuel v l) /\ memlist_ y = memlist_ x /\
    v_refs_ y = v_refs_ x /\
    max_write_buffer_number_to_maintain_ y = max_write_buffer_number_to_maintain_ x.
Proof.
  induction fuel as [|fuel IH]; intros l x Hinv Hv; cbn [TrimHistory_loop];
    [exists x; repeat (split; [done|]); done|].
  rewrite (version_at_Some _ _ _ Hv). destruct (_ && _) eqn:E;
    [|exists x; repeat (split; [done|]); done].
  apply andb_true_iff in E as [_ Hne]. apply negb_true_iff, bool_decide_eq_false in Hne.
  set (m := List.last (memlist_history_ x) 0%nat).
  pose proof (removelast_app_last _ Hne) as Hsplit. fold m in Hsplit.
  set (x1 := x <| memlist_history_ ::= removelast (A := nat) |>).
  rewrite (update_version_eq _ _ _ _ Hv). fold x1. set (l1 := l <| versions := _ |>).
  assert (Hocc : forall i, occ i (listed x) = occ i (listed x1) + if decide (m = i) then 1 else 0).
  { intros i. unfold listed, x1. cbn. rewrite Hsplit at 1. rewrite !occ_app, occ_cons, occ_nil. lia. }
  destruct (si_version _ _ _ _ Hinv v x Hv) as (_ & Hnd & _).
  assert (Hsub : forall i, i ∈ listed x1 -> i ∈ listed x).
  { intros i. rewrite !occ_pos, Hocc. case_decide; lia. }
  assert (H1 : store_inv fresh (held m 1 h) hv l1).
  { apply (set_version_inv fresh h _ hv l v x x1 Hinv Hv); try done.
    - unfold listed, x1 in *. cbn in *. rewrite Hsplit, app_assoc in Hnd.
      by apply NoDup_app in Hnd as [Hnd _].
    - intros i Hi. by apply (si_listed _ _ _ _ Hinv v x), Hsub.
    - intros i. rewrite Hocc. unfold held. destruct (decide (m = i)), (decide (i = m)); congruence || lia.
    - intros i. unfold held. pose proof (si_h _ _ _ _ Hinv i). case_decide; lia. }
  destruct (si_listed _ _ _ _ Hinv v x m Hv) as [[z Hz] Hf].
  { apply occ_pos. rewrite Hocc, decide_True by done. pose proof (occ_nonneg m (listed x1)). lia. }
  destruct (UnrefMemTable_inv fresh h hv l1 m z H1 (si_h _ _ _ _ Hinv m) Hz Hf) as (H2 & H3 & H4).
  assert (Hv1 : versions (UnrefMemTable m l1) !! v = Some x1).
  { destruct H4 as (-> & _). apply lookup_insert_eq. }
  destruct (IH (UnrefMemTable m l1) x1 H2 Hv1) as (y & Hy & H5 & H6 & H7 & H8 & H9 & H10).
  exists y. split; [done|]. split; [done|]. split.
  { transitivity l1; [done|]. by transitivity (UnrefMemTable m l1). }
  split; [|done].
  eapply only_version_trans; [|exact H7]. eapply only_version_trans; [|by apply same_only].
  split; [done|]. split; [done|]. intros w Hw. cbn. by rewrite lookup_insert_ne.
Qed.

(** ** Adding to the list and removing from it *)

Definition unfresh (m : nat) (fresh : nat -> bool) : nat -> bool :=
  fun i => if decide (i = m) then false else fresh i.

Lemma unfresh_inv fresh h hv l m z :
  store_inv fresh h hv l -> fresh m = true -> mems l !! m = Some z -> 0 < refs_ z ->
  store_inv (unfresh m fresh) h hv (l <| current_memory_usage_ ::= Z.add (ApproximateMemoryUsage z) |>).
Proof.
  intros [] Hf Hz Hr. split; cbn [ml_ok versions current_ next_version mems
    current_memory_usage_ to_delete set]; try done.
  - intros v x i Hv Hi. destruct (si_listed0 v x i Hv Hi) as [? Hfi]. split; [done|].
    unfold unfresh. by case_decide.
  - rewrite si_usage0, !(ksum_delete _ _ _ _ Hz). unfold unfresh at 1.
    rewrite decide_True, Hf by done. unfold counted at 2.
    rewrite (proj2 (Z.gtb_lt _ _) Hr), Z.add_0_l. f_equal.
    apply ksum_ext. intros i y Hi. unfold unfresh. case_decide as Hd; [|done].
    subst i. by rewrite lookup_delete_eq in Hi.
Qed.

Lemma Version_Add_inv fresh h hv l v x m z :
  store_inv fresh (held m 1 h) hv l -> (forall i, 0 <= h i) ->
  versions l !! v = Some x -> v_refs_ x = 1 -> fresh m = true -> mems l !! m = Some z ->
  exists y, versions (Version_Add v m l) !! v = Some y /\
    store_inv (unfresh m fresh) h hv (Version_Add v m l) /\ frame l (Version_Add v m l) /\
    only_version v l (Version_Add v m l) /\ memlist_ y = m :: memlist_ x /\ v_refs_ y = 1.
Proof.
  intros Hinv Hh Hv Hr Hf Hz. unfold Version_Add.
  rewrite ml_assert_true by (rewrite (version_at_Some _ _ _ Hv), Hr; done).
  unfold AddMemTable. rewrite (mem_at_Some _ _ _ Hz), (update_version_eq _ _ _ _ Hv).
  set (x1 := x <| memlist_ ::= cons m |>). set (l1 := _ <| current_memory_usage_ ::= _ |>).
  assert (Hnot : m ∉ listed x).
  { intros Hm. destruct (si_listed _ _ _ _ Hinv v x m Hv Hm). congruence. }
  destruct (si_refs _ _ _ _ Hinv m z Hz) as [Hrz _]. rewrite held_same in Hrz.
  pose proof (occ_sum_nonneg m (versions l)) as Hocc. specialize (Hh m) as Hhm.
  assert (Hrz0 : 0 < refs_ z) by lia. clear Hrz Hocc.
  pose proof (unfresh_inv _ _ _ _ _ _ Hinv Hf Hz Hrz0) as H0.
  assert (H1 : store_inv (unfresh m fresh) h hv l1).
  { apply (set_version_inv _ _ h hv _ v x x1 H0 Hv); [done| | | |done].
    - unfold listed, x1. cbn. apply NoDup_cons. split; [done|].
      by destruct (si_version _ _ _ _ Hinv v x Hv) as (_ & ? & _).
    - unfold listed, x1. cbn. intros i Hi. apply elem_of_cons in Hi as [->|Hi].
      + split; [eauto|]. unfold unfresh. by rewrite decide_True.
      + destruct (si_listed _ _ _ _ H0 v x i Hv Hi). done.
    - intros i. unfold listed, x1, held. cbn. rewrite occ_cons.
      destruct (decide (m = i)), (decide (i = m)); congruence || lia. }
  assert (Hv1 : versions l1 !! v = Some x1) by apply lookup_insert_eq.
  destruct (TrimHistory_loop_inv _ _ _ v (length (memlist_history_ (version_at v l1))) l1 x1 H1 Hv1)
    as (y & Hy & H2 & H3 & H4 & H5 & H6 & _).
  exists y. split; [done|]. split; [done|]. split; [by transitivity l1|]. split; [|by rewrite H5, H6].
  eapply only_version_trans; [|exact H4]. split; [done|]. split; [done|].
  intros w Hw. cbn. by rewrite lookup_insert_ne.
Qed.

Lemma occ_filter_ne i m ms :
  occ i (filter (fun j => j <> m) ms) = if decide (i = m) then 0 else occ i ms.
Proof.
  induction ms as [|j ms IH]; [cbn; rewrite occ_nil; by case_decide|].
  rewrite filter_cons. destruct (decide (j <> m)) as [Hj|Hj]; rewrite ?occ_cons, IH;
    repeat case_decide; subst; try lia; tauto.
Qed.

Lemma Version_Remove_inv fresh h hv l v x m :
  store_inv fresh h hv l -> versions l !! v = Some x -> v_refs_ x = 1 -> m ∈ memlist_ x ->
  exists y, versions (Version_Remove v m l) !! v = Some y /\
    store_inv fresh h hv (Version_Remove v m l) /\ frame l (Version_Remove v m l) /\
    only_version v l (Version_Remove v m l) /\
    memlist_ y = filter (fun i => i <> m) (memlist_ x) /\ v_refs_ y = 1.
Proof.
  intros Hinv Hv Hr Hm. unfold Version_Remove.
  rewrite ml_assert_true by (rewrite (version_at_Some _ _ _ Hv), Hr; done).
  rewrite (update_version_eq _ _ _ _ Hv).
  set (x1 := x <| memlist_ ::= filter (fun i => i <> m) |>). set (l1 := l <| versions := _ |>).
  assert (Hv1 : versions l1 !! v = Some x1) by apply lookup_insert_eq.
  rewrite (version_at_Some _ _ _ Hv1).
  destruct (si_version _ _ _ _ Hinv v x Hv) as (_ & Hnd & _).
  assert (Hmx : m ∈ listed x) by (apply elem_of_app; by left).
  destruct (si_listed _ _ _ _ Hinv v x m Hv Hmx) as [[z Hz] Hf].
  assert (Hocc : forall i, occ i (listed x) = occ i (listed x1) + if decide (m = i) then 1 else 0).
  { intros i. pose proof (occ_NoDup i (listed x) Hnd) as Hle. unfold listed in Hle |- *. unfold x1.
    cbn [memlist_ memlist_history_ set].
    rewrite occ_app in Hle. rewrite !occ_app, occ_filter_ne. pose proof (occ_nonneg i (memlist_history_ x)).
    destruct (decide (i = m)), (decide (m = i)); try congruence; [|lia].
    subst i. apply occ_pos in Hm. lia. }
  assert (Hsub : forall i, i ∈ listed x1 -> i ∈ listed x) by (intros i; rewrite !occ_pos, Hocc; case_decide; lia).
  assert (Hnd1 : NoDup (listed x1)).
  { apply NoDup_ListNoDup, (NoDup_count_occ Nat.eq_dec). intros i.
    pose proof (occ_NoDup i (listed x) Hnd) as Hle. rewrite Hocc in Hle. unfold occ in Hle. case_decide; lia. }
  assert (Hm1 : m ∉ listed x1).
  { rewrite occ_pos. pose proof (occ_NoDup m (listed x) Hnd) as Hle. rewrite Hocc, decide_True in Hle by done. lia. }
  assert (Hlist : forall i, i ∈ listed x1 -> is_Some (mems l !! i) /\ fresh i = false)
    by (intros i Hi; by apply (si_listed _ _ _ _ Hinv v x), Hsub).
  assert (Honly : forall l', only_version v l1 l' -> only_version v l l').
  { intros l'. apply only_version_trans. split; [done|]. split; [done|].
    intros w Hw. cbn. by rewrite lookup_insert_ne. }
  destruct (_ >? 0) eqn:E.
  - rewrite (update_version_eq _ _ _ _ Hv1). set (x2 := x1 <| memlist_history_ ::= cons m |>).
    set (l2 := l1 <| versions := _ |>).
    assert (Hperm : forall i, occ i (listed x2) = occ i (listed x)).
    { intros i. rewrite Hocc. unfold x2, listed. cbn. rewrite !occ_app, occ_cons. lia. }
    assert (El2 : l2 = l <| versions := <[v := x2]> (versions l) |>)
      by (unfold l2, l1; cbn; by rewrite insert_insert_eq).
    assert (H2 : store_inv fresh h hv l2).
    { rewrite El2. apply (set_version_inv fresh h h hv l v x x2 Hinv Hv); try done.
      - apply NoDup_ListNoDup, (NoDup_count_occ Nat.eq_dec). intros i.
        pose proof (occ_NoDup i (listed x) Hnd) as Hle. rewrite <- Hperm in Hle. unfold occ in Hle. lia.
      - intros i Hi. apply (si_listed _ _ _ _ Hinv v x); [done|]. by rewrite occ_pos, <- Hperm, <- occ_pos.
      - intros i. rewrite Hperm. lia.
      - apply (si_h _ _ _ _ Hinv). }
    assert (Hv2 : versions l2 !! v = Some x2) by (rewrite El2; apply lookup_insert_eq).
    destruct (TrimHistory_loop_inv _ _ _ v (length (memlist_history_ (version_at v l2))) l2 x2 H2 Hv2)
      as (y & Hy & H3 & H4 & H5 & H6 & H7 & _).
    exists y. split; [done|]. split; [done|]. split; [by transitivity l2|].
    split; [|by rewrite H6, H7]. apply Honly. eapply only_version_trans; [|exact H5].
    split; [done|]. split; [done|]. intros w Hw. cbn. by rewrite lookup_insert_ne.
  - assert (H1 : store_inv fresh (held m 1 h) hv l1).
    { apply (set_version_inv fresh h _ hv l v x x1 Hinv Hv); try done.
      - intros i. rewrite Hocc. unfold held. destruct (decide (m = i)), (decide (i = m)); congruence || lia.
      - intros i. unfold held. pose proof (si_h _ _ _ _ Hinv i). case_decide; lia. }
    destruct (UnrefMemTable_inv fresh h hv l1 m z H1 (si_h _ _ _ _ Hinv m) Hz Hf) as (H2 & H3 & H4).
    exists x1. split; [destruct H4 as (-> & _); done|]. split; [done|].
    split; [by transitivity l1|]. split; [|done]. by apply Honly, same_only.
Qed.

(** ** References to versions *)

Lemma listed_refs fresh h hv l v x m :
  store_inv fresh h hv l -> versions l !! v = Some x -> m ∈ listed x ->
  exists z, mems l !! m = Some z /\ 0 < refs_ z.
Proof.
  intros Hinv Hv Hm. destruct (si_listed _ _ _ _ Hinv v x m Hv Hm) as [[z Hz] _].
  exists z. split; [done|]. destruct (si_refs _ _ _ _ Hinv m z Hz) as [Hr _].
  pose proof (ksum_ge (fun _ y => occ m (listed y)) (versions l) v x) as Hge. cbv beta in Hge.
  apply occ_pos in Hm. pose proof (si_h _ _ _ _ Hinv m). unfold version_refs in Hr.
  assert (occ m (listed x) <= ksum (fun _ y => occ m (listed y)) (versions l)); [|lia].
  apply Hge; [|done]. intros. apply occ_nonneg.
Qed.

(** Versions that list the same memtables. *)
Definition same_memtables (x y : MemTableListVersion) : Prop :=
  memlist_ y = memlist_ x /\ memlist_history_ y = memlist_history_ x.

(** The current version becomes writable: no one else holds it, and it lists the
    same memtables as before. *)
Lemma InstallNewVersion_inv fresh h hv l x :
  store_inv fresh h hv l -> versions l !! current_ l = Some x ->
  let l' := InstallNewVersion l in
  exists y, versions l' !! current_ l' = Some y /\ store_inv fresh h hv l' /\ frame l l' /\
    memlist_ y = memlist_ x /\ memlist_history_ y = memlist_history_ x /\ v_refs_ y = 1 /\
    (forall v z, versions l !! v = Some z ->
       exists z', versions l' !! v = Some z' /\ same_memtables z z').
Proof.
  intros Hinv Hx. cbv zeta. unfold InstallNewVersion, cur. rewrite (version_at_Some _ _ _ Hx).
  destruct (v_refs_ x =? 1) eqn:E.
  { apply Z.eqb_eq in E. exists x. repeat (split; [done|]). intros v z Hz. by exists z. }
  apply Z.eqb_neq in E. destruct (si_version _ _ _ _ Hinv _ x Hx) as (Hlt & Hnd & Hr1 & Hr2).
  rewrite decide_True in Hr2 by done.
  unfold MemTableListVersion_copy. rewrite (version_at_Some _ _ _ Hx), <- foldl_app.
  fold (listed x).
  destruct (RefMemTables_inv fresh hv (listed x) h l Hinv) as (H1 & H2 & (Ev & Ec & En) & _).
  { intros m Hm. by apply (listed_refs _ _ _ _ _ _ _ Hinv Hx). }
  set (l1 := foldl _ l (listed x)) in *. set (v := next_version l).
  assert (Hv : versions l !! v = None).
  { destruct (versions l !! v) eqn:Ev'; [|done]. destruct (si_version _ _ _ _ Hinv _ _ Ev'). unfold v in *; lia. }
  assert (Hcv : current_ l <> v) by (unfold v; lia).
  set (x0 := x <| v_refs_ := 0 |>).
  assert (Hres : Version_Unref false (current_ l)
      (Version_Ref v (l1 <| versions ::= <[v := x0]> |> <| next_version ::= S |> <| current_ := v |>)) =
    l1 <| versions := <[current_ l := x <| v_refs_ ::= Z.pred |>]> (<[v := x <| v_refs_ := 1 |>]> (versions l)) |>
       <| next_version ::= S |> <| current_ := v |>).
  { unfold Version_Ref. rewrite (update_version_eq v _ _ x0) by apply lookup_insert_eq.
    unfold Version_Unref.
    assert (Hcur : forall f, versions ((l1 <| versions ::= <[v := x0]> |> <| next_version ::= S |> <| current_ := v |>)
      <| versions := <[v := x0 <| v_refs_ ::= Z.succ |>]> f |>) !! current_ l = f !! current_ l)
      by (intros f; cbn; by rewrite lookup_insert_ne).
    set (l2 := _ <| versions := <[v := _]> _ |>).
    assert (Hx2 : versions l2 !! current_ l = Some x)
      by (unfold l2; rewrite Hcur; cbn; rewrite Ev; by rewrite lookup_insert_ne).
    rewrite (version_at_Some _ _ _ Hx2), (ml_assert_true _ l2) by (apply Z.geb_le; lia).
    rewrite (update_version_eq _ _ _ _ Hx2).
    rewrite (version_at_Some _ _ (x <| v_refs_ ::= Z.pred |>)) by apply lookup_insert_eq.
    change (v_refs_ (x <| v_refs_ ::= Z.pred |>)) with (Z.pred (v_refs_ x)).
    rewrite (proj2 (Z.eqb_neq _ 0)) by lia.
    unfold l2. cbn. rewrite insert_insert_eq, Ev. done. }
  rewrite Hres. clear Hres. set (l' := _ <| current_ := v |>).
  assert (Hv' : versions l' !! v = Some (x <| v_refs_ := 1 |>)).
  { unfold l'; cbn. rewrite lookup_insert_ne by done. apply lookup_insert_eq. }
  exists (x <| v_refs_ := 1 |>). split; [exact Hv'|]. split; [|split; [|split; [done|split; [done|split; [done|]]]]].
  2: { destruct H2. by split. }
  2: { intros w z Hw. unfold l'; cbn. destruct (decide (w = current_ l)) as [->|Hwc].
       - rewrite lookup_insert_eq. rewrite Hx in Hw. injection Hw as <-. by eexists.
       - rewrite lookup_insert_ne by done. destruct (decide (w = v)) as [->|]; [congruence|].
         rewrite lookup_insert_ne by done. by exists z. }
  destruct H1. unfold l'. split; cbn [ml_ok versions current_ next_version mems
    current_memory_usage_ to_delete set].
  - done.
  - eauto.
  - intros w z. destruct (decide (w = current_ l)) as [->|Hwc].
    + rewrite lookup_insert_eq, En. intros [= <-]. cbn. rewrite decide_False by done.
      split; [lia|]. split; [done|]. lia.
    + rewrite lookup_insert_ne by done. destruct (decide (w = v)) as [->|Hwv].
      * rewrite lookup_insert_eq, En. intros [= <-]. cbn [v_refs_ set].
        split; [unfold v; lia|]. split; [done|]. split; [lia|].
        by rewrite (proj2 (si_hv _ _ _ _ Hinv _) Hv).
      * rewrite lookup_insert_ne, En by done. intros Hw.
        destruct (si_version _ _ _ _ Hinv w z Hw) as (? & ? & ? & Hz).
        rewrite decide_False in Hz by done. split; [lia|]. done.
  - intros w. split; [apply (si_hv0 w)|]. intros Hw. apply (si_hv _ _ _ _ Hinv).
    destruct (decide (w = current_ l)) as [->|]; [by rewrite lookup_insert_eq in Hw|].
    rewrite lookup_insert_ne in Hw by done.
    destruct (decide (w = v)) as [->|]; [by rewrite lookup_insert_eq in Hw|].
    by rewrite lookup_insert_ne in Hw.
  - intros w z m. destruct (decide (w = current_ l)) as [->|Hwc].
    + rewrite lookup_insert_eq. intros [= <-] Hm. apply (si_listed0 (current_ l) x m); [by rewrite Ev|exact Hm].
    + rewrite lookup_insert_ne by done. destruct (decide (w = v)) as [->|Hwv].
      * rewrite lookup_insert_eq. intros [= <-] Hm. apply (si_listed0 (current_ l) x m); [by rewrite Ev|exact Hm].
      * rewrite lookup_insert_ne by done. rewrite <- Ev. apply si_listed0.
  - intros m z Hm. destruct (si_refs0 m z Hm) as [Hrz ?]. split; [|done].
    unfold version_refs in *. rewrite (ksum_insert _ _ _ x) by (by rewrite lookup_insert_ne).
    rewrite ksum_insert_fresh by done. rewrite Ev in Hrz. unfold held_list in Hrz.
    cbn. fold (listed x). lia.
  - apply (si_h _ _ _ _ Hinv).
  - done.
  - done.
  - done.
Qed.

Lemma Version_Ref_inv fresh h hv l v x :
  store_inv fresh h hv l -> versions l !! v = Some x ->
  store_inv fresh h (held v 1 hv) (Version_Ref v l) /\ frame l (Version_Ref v l) /\
  only_version v l (Version_Ref v l) /\
  versions (Version_Ref v l) !! v = Some (x <| v_refs_ ::= Z.succ |>).
Proof.
  intros Hinv Hv. unfold Version_Ref. rewrite (update_version_eq _ _ _ _ Hv).
  split; [|split; [done|split; [|apply lookup_insert_eq]]].
  2: { split; [done|]. split; [done|]. intros w Hw. cbn. by rewrite lookup_insert_ne. }
  destruct Hinv. split; cbn [ml_ok versions current_ next_version mems current_memory_usage_ to_delete set];
    try done.
  - destruct (decide (v = current_ l)) as [->|]; [rewrite lookup_insert_eq; eauto|].
    by rewrite lookup_insert_ne.
  - intros w z. destruct (decide (w = v)) as [->|].
    + rewrite lookup_insert_eq, held_same. intros [= <-]. cbn.
      destruct (si_version0 v x Hv) as (? & ? & ? & ?). repeat (split; [done|]). lia.
    + rewrite lookup_insert_ne, held_other by done. apply si_version0.
  - intros w. unfold held. destruct (si_hv0 w) as [? Hw0]. case_decide as Hd.
    + subst w. split; [lia|]. by rewrite lookup_insert_eq.
    + rewrite lookup_insert_ne by done. split; [lia|]. intros. rewrite Hw0 by done. lia.
  - intros w z m. destruct (decide (w = v)) as [->|].
    + rewrite lookup_insert_eq. intros [= <-]. apply (si_listed0 v x m Hv).
    + rewrite lookup_insert_ne by done. apply si_listed0.
  - intros m z Hm. destruct (si_refs0 m z Hm) as [-> ?]. split; [|done]. unfold version_refs.
    rewrite (ksum_insert _ _ _ _ _ Hv). cbn. fold (listed x). lia.
Qed.

(** Dropping a version commutes with dropping references to memtables. *)
Lemma UnrefMemTable_versions m vs l :
  UnrefMemTable m (l <| versions := vs |>) = (UnrefMemTable m l) <| versions := vs |>.
Proof.
  unfold UnrefMemTable, update_mem, ml_assert, mem_at. cbn. destruct (_ <=? 0); done.
Qed.

Lemma UnrefMemTables_versions ms vs : forall l,
  foldl (fun l m => UnrefMemTable m l) (l <| versions := vs |>) ms =
  (foldl (fun l m => UnrefMemTable m l) l ms) <| versions := vs |>.
Proof.
  induction ms as [|m ms IH]; intros l; cbn [foldl]; [done|]. by rewrite UnrefMemTable_versions, IH.
Qed.

Lemma delete_version_inv fresh h hv l v x :
  store_inv fresh h (held v 1 hv) l -> (forall w, 0 <= hv w) -> versions l !! v = Some x ->
  v_refs_ x = 1 -> v <> current_ l ->
  store_inv fresh (held_list (listed x) h) hv (l <| versions := delete v (versions l) |>).
Proof.
  intros [] Hhv Hv Hr Hne. split; cbn [ml_ok versions current_ next_version mems current_memory_usage_ to_delete set];
    try done.
  - by rewrite lookup_delete_ne.
  - intros w z Hw. apply lookup_delete_Some in Hw as [Hwv Hw].
    destruct (si_version0 w z Hw) as (? & ? & ? & Hz). by rewrite held_other in Hz.
  - intros w. split; [done|]. intros Hw. destruct (decide (w = v)) as [->|].
    + destruct (si_version0 v x Hv) as (_ & _ & _ & Hz). rewrite decide_False, held_same in Hz by done. lia.
    + rewrite lookup_delete_ne in Hw by done. destruct (si_hv0 w) as [_ Hw0].
      specialize (Hw0 Hw). by rewrite held_other in Hw0.
  - intros w z m Hw. apply lookup_delete_Some in Hw as [_ Hw]. by apply (si_listed0 w).
  - intros m z Hm. destruct (si_refs0 m z Hm) as [-> ?]. split; [|done]. unfold version_refs, held_list.
    rewrite (ksum_delete _ _ _ _ Hv). lia.
  - intros m. unfold held_list. pose proof (occ_nonneg m (listed x)). specialize (si_h0 m). lia.
Qed.

Lemma Version_Unref_inv fresh h hv l v x :
  store_inv fresh h (held v 1 hv) l -> (forall w, 0 <= hv w) -> versions l !! v = Some x ->
  let l' := Version_Unref true v l in
  store_inv fresh h hv l' /\ frame l l' /\ only_version v l l' /\
  (1 < v_refs_ x -> versions l' !! v = Some (x <| v_refs_ ::= Z.pred |>)) /\
  (v = current_ l -> 1 < v_refs_ x).
Proof.
  intros Hinv Hhv Hv. cbv zeta. destruct (si_version _ _ _ _ Hinv v x Hv) as (Hlt & Hnd & Hr1 & Hr2).
  rewrite held_same in Hr2. specialize (Hhv v) as Hhv0.
  assert (Hcur : v = current_ l -> 1 < v_refs_ x) by (intros ->; rewrite decide_True in Hr2 by done; lia).
  unfold Version_Unref. rewrite (version_at_Some _ _ _ Hv).
  rewrite (ml_assert_true _ l) by (apply Z.geb_le; lia). rewrite (update_version_eq _ _ _ _ Hv).
  set (l1 := l <| versions := _ |>).
  assert (Hv1 : versions l1 !! v = Some (x <| v_refs_ ::= Z.pred |>)) by apply lookup_insert_eq.
  assert (Honly : only_version v l l1)
    by (split; [done|]; split; [done|]; intros w Hw; cbn; by rewrite lookup_insert_ne).
  rewrite (version_at_Some _ _ _ Hv1).
  change (v_refs_ (x <| v_refs_ ::= Z.pred |>)) with (Z.pred (v_refs_ x)).
  destruct (Z.pred (v_refs_ x) =? 0) eqn:E.
  - apply Z.eqb_eq in E. assert (Hr : v_refs_ x = 1) by lia.
    assert (Hne : v <> current_ l) by (intros Hvc; specialize (Hcur Hvc); lia).
    rewrite ml_assert_true by done. rewrite (version_at_Some _ _ _ Hv1).
    change (memlist_ (x <| v_refs_ ::= Z.pred |>)) with (memlist_ x).
    change (memlist_history_ (x <| v_refs_ ::= Z.pred |>)) with (memlist_history_ x).
    rewrite <- foldl_app. fold (listed x).
    pose proof (delete_version_inv _ _ _ _ _ _ Hinv Hhv Hv Hr Hne) as H1.
    set (l2 := foldl _ l1 (listed x)).
    assert (El : l2 <| versions ::= delete v |> =
      foldl (fun l m => UnrefMemTable m l) (l <| versions := delete v (versions l) |>) (listed x)).
    { rewrite UnrefMemTables_versions. unfold l2, l1. rewrite UnrefMemTables_versions. cbn.
      f_equal. by rewrite delete_insert_eq. }
    rewrite El.
    destruct (UnrefMemTables_inv fresh h hv (listed x) _ H1 (si_h _ _ _ _ Hinv)) as (H2 & H3 & H4).
    { intros m Hm. apply (si_listed _ _ _ _ Hinv v x m Hv Hm). }
    split; [done|]. split; [etrans; [|exact H3]; done|]. split; [|split; [lia|done]].
    eapply only_version_trans; [|by apply same_only]. split; [done|]. split; [done|].
    intros w Hw. cbn. by rewrite lookup_delete_ne.
  - apply Z.eqb_neq in E. split; [|split; [done|split; [done|split; [done|done]]]].
    destruct Hinv. unfold l1. split; cbn [ml_ok versions current_ next_version mems current_memory_usage_ to_delete set];
      try done.
    + destruct (decide (v = current_ l)) as [->|]; [rewrite lookup_insert_eq; eauto|].
      by rewrite lookup_insert_ne.
    + intros w z. destruct (decide (w = v)) as [->|].
      * rewrite lookup_insert_eq. intros [= <-]. cbn. repeat (split; [done|]). lia.
      * rewrite lookup_insert_ne by done. intros Hw. specialize (si_version0 w z Hw).
        by rewrite held_other in si_version0.
    + intros w. split; [done|]. destruct (decide (w = v)) as [->|]; [by rewrite lookup_insert_eq|].
      rewrite lookup_insert_ne by done. intros Hw. destruct (si_hv0 w) as [_ Hw0].
      specialize (Hw0 Hw). by rewrite held_other in Hw0.
    + intros w z m. destruct (decide (w = v)) as [->|].
      * rewrite lookup_insert_eq. intros [= <-]. apply (si_listed0 v x m Hv).
      * rewrite lookup_insert_ne by done. apply si_listed0.
    + intros m z Hm. destruct (si_refs0 m z Hm) as [-> ?]. split; [|done]. unfold version_refs.
      rewrite (ksum_insert _ _ _ _ _ Hv). cbn. fold (listed x). lia.
Qed.
