(* ===== verification/FlushCommit.v ===== *)
(** * Flushing immutable memtables (db/memtable_list.cc, db/flush_job.cc)

    The flags of the memtables in a list, flush jobs that run concurrently, and
    the thread that commits their results.  Readers take and drop references to
    memtables and versions in between.  The invariant of the reachable states
    gives the assertions of the list, the number of memtables waiting for a flush,
    and the order in which memtables leave the list. *)

From Stdlib Require Import ZArith Lia String.
From stdpp Require Import base gmap list.
From S2P Require Import Prelude DbFormat MemTableList.
#[local] Open Scope Z_scope.

(** ** The system *)

(** The list of a column family with its environment: the jobs that run, the batch
    that waits for the manifest, what was added to the list and what left it (oldest
    first), the edits of the manifest, and the references others hold. *)
Record Flushing := mkFlushing {
  imm : MemTableList;
  jobs : list FlushJob;
  committing : option (nat * list Edit);
  added : list nat;
  committed : list nat;
  manifest : list Edit;
  mem_holders : nat -> Z;
  version_holders : nat -> Z
}.

Definition Flushing_init (min_merge maintain : Z) : Flushing :=
  mkFlushing (MemTableList_init min_merge maintain) [] None [] [] [] (fun _ => 0) (fun _ => 0).

Definition never_added (s : Flushing) (m : nat) : bool := negb (bool_decide (m ∈ added s)).

(** A memtable as it is created, referenced by its creator. *)
Definition new_memtable (x : MemTable) : Prop :=
  refs_ x = 1 /\ flush_in_progress_ x = false /\ flush_completed_ x = false /\ file_number_ x = 0 /\
  edit_ x = Edit_Clear /\ 0 <= ApproximateMemoryUsage x.

(** Writers change no flag of the memtable they fill. *)
Definition written (x y : MemTable) : Prop :=
  refs_ y = refs_ x /\ flush_in_progress_ y = flush_in_progress_ x /\
  flush_completed_ y = flush_completed_ x /\ file_number_ y = file_number_ x /\
  edit_ y = edit_ x /\ 0 <= ApproximateMemoryUsage y.

(** A job ends; it may become the one that commits. *)
Definition job_ends (st : Status) (empty_file abandoned : bool) (i : nat) (j : FlushJob) (s : Flushing)
    : Flushing :=
  let '(batch, l) := FlushJob_finish st empty_file abandoned j (imm s) in
  mkFlushing l (delete i (jobs s)) (match batch with Some b => Some b | None => committing s end)
    (added s) (committed s) (manifest s) (mem_holders s) (version_holders s).

(** [LogAndApply] returned for the batch [b]. *)
Definition batch_ends (st : Status) (b : nat * list Edit) (s : Flushing) : Flushing :=
  let '(batch, l) := Install_resume st (fst b) (imm s) in
  mkFlushing l (jobs s) batch (added s)
    (if ok st then committed s ++ take (fst b) (rev (memlist_ (cur (imm s)))) else committed s)
    (if ok st then manifest s ++ snd b else manifest s) (mem_holders s) (version_holders s).

Definition job_starts (file_number : Z) (s : Flushing) : Flushing :=
  let '(j, l) := PickMemTable file_number (imm s) in
  mkFlushing l (match mems_ j with [] => jobs s | _ => jobs s ++ [j] end) (committing s)
    (added s) (committed s) (manifest s) (mem_holders s) (version_holders s).

Definition set_imm (l : MemTableList) (s : Flushing) : Flushing :=
  mkFlushing l (jobs s) (committing s) (added s) (committed s) (manifest s) (mem_holders s)
    (version_holders s).

(** Everything that happens to the list under the mutex. *)
Inductive Flushing_step : Flushing -> Flushing -> Prop :=
| step_new s m x : mems (imm s) !! m = None -> never_added s m = true -> new_memtable x ->
    mem_holders s m = 0 ->
    Flushing_step s (mkFlushing ((imm s) <| mems ::= <[m := x]> |>) (jobs s) (committing s) (added s) (committed s)
              (manifest s) (held m 1 (mem_holders s)) (version_holders s))
| step_write s m x y : mems (imm s) !! m = Some x -> never_added s m = true -> written x y ->
    Flushing_step s (set_imm ((imm s) <| mems ::= <[m := y]> |>) s)
| step_add s m : is_Some (mems (imm s) !! m) -> never_added s m = true -> 1 <= mem_holders s m ->
    Flushing_step s (mkFlushing (MemTableList_Add m (imm s)) (jobs s) (committing s) (added s ++ [m]) (committed s)
              (manifest s) (held m (-1) (mem_holders s)) (version_holders s))
| step_ref_mem s m x : mems (imm s) !! m = Some x -> 1 <= refs_ x ->
    Flushing_step s (mkFlushing (RefMemTable m (imm s)) (jobs s) (committing s) (added s) (committed s)
              (manifest s) (held m 1 (mem_holders s)) (version_holders s))
| step_unref_mem s m x : mems (imm s) !! m = Some x -> (m ∈ added s \/ 2 <= refs_ x) ->
    1 <= mem_holders s m ->
    Flushing_step s (mkFlushing (UnrefMemTable m (imm s)) (jobs s) (committing s) (added s) (committed s)
              (manifest s) (held m (-1) (mem_holders s)) (version_holders s))
| step_ref_version s v : is_Some (versions (imm s) !! v) ->
    Flushing_step s (mkFlushing (Version_Ref v (imm s)) (jobs s) (committing s) (added s) (committed s)
              (manifest s) (mem_holders s) (held v 1 (version_holders s)))
| step_unref_version s v : 1 <= version_holders s v ->
    Flushing_step s (mkFlushing (Version_Unref true v (imm s)) (jobs s) (committing s) (added s) (committed s)
              (manifest s) (mem_holders s) (held v (-1) (version_holders s)))
| step_request s : Flushing_step s (set_imm (FlushRequested (imm s)) s)
| step_job_starts s n : 0 < n -> Flushing_step s (job_starts n s)
| step_job_ends s i j st empty_file abandoned : jobs s !! i = Some j ->
    Flushing_step s (job_ends st empty_file abandoned i j s)
| step_batch_ends s st b : committing s = Some b -> Flushing_step s (batch_ends st b s).

Inductive Flushing_reachable (min_merge maintain : Z) : Flushing -> Prop :=
| reachable_init : Flushing_reachable min_merge maintain (Flushing_init min_merge maintain)
| reachable_step s s' : Flushing_reachable min_merge maintain s -> Flushing_step s s' -> Flushing_reachable min_merge maintain s'.

(** ** Counting memtables *)

Definition count_if (p : nat -> bool) (ms : list nat) : Z :=
  foldr (fun m n => (if p m then 1 else 0) + n) 0 ms.

Lemma count_if_bounds p ms : 0 <= count_if p ms <= Z.of_nat (length ms).
Proof. induction ms as [|m ms IH]; cbn [count_if foldr length]; [lia|]. fold (count_if p ms). destruct (p m); lia. Qed.

Lemma count_if_ext p q ms : (forall m, m ∈ ms -> p m = q m) -> count_if p ms = count_if q ms.
Proof.
  induction ms as [|m ms IH]; intros H; [done|]. cbn. fold (count_if p ms) (count_if q ms).
  rewrite (H m), IH; [done| |by left]. intros. apply H. by right.
Qed.

Lemma count_if_flip p q m ms :
  NoDup ms -> m ∈ ms -> (forall i, i <> m -> p i = q i) -> p m = true -> q m = false ->
  count_if p ms = 1 + count_if q ms.
Proof.
  intros Hnd Hm Hpq Hp Hq. induction Hnd as [|i ms Hi Hnd IH]; [by apply not_elem_of_nil in Hm|].
  cbn. fold (count_if p ms) (count_if q ms). destruct (decide (i = m)) as [->|].
  - rewrite Hp, Hq. rewrite (count_if_ext p q ms); [lia|]. intros j Hj. apply Hpq. intros ->. done.
  - apply elem_of_cons in Hm as [->|Hm]; [done|]. rewrite (Hpq i), IH by done. destruct (q i); lia.
Qed.

Lemma count_if_remove p m ms :
  p m = false -> count_if p (filter (fun i => i <> m) ms) = count_if p ms.
Proof.
  intros Hp. induction ms as [|i ms IH]; [done|]. rewrite filter_cons. case_decide as Hd.
  - cbn. fold (count_if p ms) (count_if p (filter (fun i => i <> m) ms)). by rewrite IH.
  - assert (i = m) as -> by (destruct (decide (i = m)); tauto). cbn. fold (count_if p ms).
    by rewrite Hp, IH.
Qed.

(** ** The flags *)

Definition waiting (l : MemTableList) (m : nat) : bool := negb (flush_in_progress_ (mem_at m l)).

(** [inflight] are the memtables of the jobs; [exempt] is the memtable whose edit
    a job has filled before it marks the memtable. *)
Record flags_inv (fresh : nat -> bool) (exempt : option nat) (inflight : list nat) (l : MemTableList) : Prop := {
  fl_num : num_flush_not_started_ l = count_if (waiting l) (memlist_ (cur l));
  fl_completed m : flush_completed_ (mem_at m l) = true ->
    flush_in_progress_ (mem_at m l) = true /\ 0 < file_number_ (mem_at m l);
  fl_not_completed m : flush_completed_ (mem_at m l) = false ->
    file_number_ (mem_at m l) = 0 /\ (exempt <> Some m -> e_files (edit_ (mem_at m l)) = []);
  fl_fresh m : fresh m = true -> flush_in_progress_ (mem_at m l) = false;
  fl_nodup : NoDup inflight;
  fl_inflight m : m ∈ inflight <->
    m ∈ memlist_ (cur l) /\ flush_in_progress_ (mem_at m l) = true /\ flush_completed_ (mem_at m l) = false
}.

(** Operations on references do not show in the flags. *)
Lemma frame_at l l' m : frame l l' -> unref (mem_at m l') = unref (mem_at m l).
Proof.
  intros [Hf _ _ _ _ _]. apply (f_equal (fun g => g !! m)) in Hf. rewrite !lookup_fmap in Hf.
  unfold mem_at. destruct (mems l' !! m), (mems l !! m); cbn in *; congruence.
Qed.

Lemma unref_flags x y :
  unref x = unref y ->
  flush_in_progress_ x = flush_in_progress_ y /\ flush_completed_ x = flush_completed_ y /\
  file_number_ x = file_number_ y /\ edit_ x = edit_ y /\
  mem_next_logfile_number_ x = mem_next_logfile_number_ y.
Proof. destruct x, y. cbn. intros [=]. subst. done. Qed.

Lemma flags_frame fresh exempt inflight l l' :
  frame l l' -> memlist_ (cur l') = memlist_ (cur l) ->
  flags_inv fresh exempt inflight l -> flags_inv fresh exempt inflight l'.
Proof.
  intros Hf Hm [].
  assert (Heq : forall m, _) by (intros m; exact (unref_flags _ _ (frame_at l l' m Hf))).
  split; try done.
  - rewrite (fr_num _ _ Hf), Hm, fl_num0. apply count_if_ext. intros m _. unfold waiting.
    by destruct (Heq m) as (-> & _).
  - intros m. destruct (Heq m) as (-> & -> & -> & _). apply fl_completed0.
  - intros m. destruct (Heq m) as (_ & -> & -> & -> & _). apply fl_not_completed0.
  - intros m. destruct (Heq m) as (-> & _). apply fl_fresh0.
  - intros m. destruct (Heq m) as (-> & -> & _). rewrite Hm. apply fl_inflight0.
Qed.

(** ** Updating one memtable *)

Lemma mem_at_update m f l x i :
  mems l !! m = Some x -> mem_at i (update_mem m f l) = if decide (i = m) then f x else mem_at i l.
Proof.
  intros Hm. rewrite (update_mem_eq _ _ _ _ Hm). unfold mem_at. cbn [mems set].
  case_decide as Hd; [subst; by rewrite lookup_insert_eq|by rewrite lookup_insert_ne].
Qed.

Lemma mems_update m f l x i :
  mems l !! m = Some x -> is_Some (mems l !! i) -> is_Some (mems (update_mem m f l) !! i).
Proof.
  intros Hm Hi. rewrite (update_mem_eq _ _ _ _ Hm). cbn [mems set].
  destruct (decide (i = m)) as [->|]; [rewrite lookup_insert_eq; eauto|by rewrite lookup_insert_ne].
Qed.

(** The reference accounting does not look at flags, edits or counters. *)
Lemma store_inv_update fresh h hv l m f x :
  store_inv fresh h hv l -> mems l !! m = Some x -> refs_ (f x) = refs_ x ->
  ApproximateMemoryUsage (f x) = ApproximateMemoryUsage x ->
  store_inv fresh h hv (update_mem m f l).
Proof.
  intros [] Hm Hr Hu. rewrite (update_mem_eq _ _ _ _ Hm).
  split; cbn [ml_ok versions current_ next_version mems current_memory_usage_ to_delete set]; try done.
  - intros v y i Hv Hi. destruct (si_listed v y i Hv Hi) as [Hs ?]. split; [|done].
    destruct (decide (i = m)) as [->|]; [rewrite lookup_insert_eq; eauto|by rewrite lookup_insert_ne].
  - intros i y. destruct (decide (i = m)) as [->|].
    + rewrite lookup_insert_eq. intros [= <-]. rewrite Hr, Hu. by apply si_refs.
    + rewrite lookup_insert_ne by done. apply si_refs.
  - rewrite (ksum_insert _ _ _ _ _ Hm). unfold counted. rewrite Hr, Hu. rewrite si_usage. unfold counted. lia.
  - intros i Hi. destruct (si_deleted i Hi) as [Hz Hs]. unfold mem_at in *. cbn [mems set].
    destruct (decide (i = m)) as [->|].
    + rewrite lookup_insert_eq. cbn. rewrite Hm in Hz. cbn in Hz. split; [lia|eauto].
    + by rewrite lookup_insert_ne.
Qed.

Lemma store_inv_same fresh h hv l l' :
  store_inv fresh h hv l -> mems l' = mems l -> versions l' = versions l -> next_version l' = next_version l ->
  current_ l' = current_ l -> current_memory_usage_ l' = current_memory_usage_ l ->
  to_delete l' = to_delete l -> ml_ok l' = ml_ok l -> store_inv fresh h hv l'.
Proof.
  intros [] E1 E2 E3 E4 E5 E6 E7. split; rewrite ?E1, ?E2, ?E3, ?E4, ?E5, ?E6, ?E7; try done.
  intros m. unfold mem_at. rewrite E1. apply si_deleted.
Qed.

(** ** Changing the flags of one memtable of the list *)

Lemma flags_set fresh ex ex' inf inf' l l' m y :
  flags_inv fresh ex inf l -> NoDup (memlist_ (cur l)) -> m ∈ memlist_ (cur l) /\ fresh m = false ->
  (forall i, mem_at i l' = if decide (i = m) then y else mem_at i l) ->
  memlist_ (cur l') = memlist_ (cur l) ->
  num_flush_not_started_ l' =
    num_flush_not_started_ l - Z.b2z (waiting l m) + Z.b2z (negb (flush_in_progress_ y)) ->
  (flush_completed_ y = true -> flush_in_progress_ y = true /\ 0 < file_number_ y) ->
  (flush_completed_ y = false ->
     file_number_ y = 0 /\ (ex' <> Some m -> e_files (edit_ y) = [])) ->
  (forall i, i <> m -> ex' <> Some i -> ex <> Some i) ->
  NoDup inf' -> (forall i, i <> m -> i ∈ inf' <-> i ∈ inf) ->
  (m ∈ inf' <-> flush_in_progress_ y = true /\ flush_completed_ y = false) ->
  flags_inv fresh ex' inf' l'.
Proof.
  intros [] Hnd [Hm Hfm] Hat Hlist Hnum Hc Hnc Hex Hnd' Hinf Hinfm.
  assert (Hw : waiting l' m = negb (flush_in_progress_ y)) by (unfold waiting; by rewrite Hat, decide_True).
  assert (Hw' : forall i, i <> m -> waiting l' i = waiting l i)
    by (intros i Hi; unfold waiting; by rewrite Hat, decide_False).
  split; [| | | |done|].
  - rewrite Hnum, fl_num0, Hlist, <- Hw.
    destruct (waiting l m) eqn:E1, (waiting l' m) eqn:E2; cbn.
    + rewrite (count_if_ext (waiting l') (waiting l)); [lia|]. intros i _.
      destruct (decide (i = m)) as [->|]; [congruence|by apply Hw'].
    + rewrite (count_if_flip (waiting l) (waiting l') m); [lia|done..| |done|done].
      intros i Hi. by rewrite Hw'.
    + rewrite (count_if_flip (waiting l') (waiting l) m); [lia|done..|exact Hw'|done|done].
    + rewrite (count_if_ext (waiting l') (waiting l)); [lia|]. intros i _.
      destruct (decide (i = m)) as [->|]; [congruence|by apply Hw'].
  - intros i. rewrite Hat. case_decide; [done|apply fl_completed0].
  - intros i. rewrite Hat. case_decide as Hd; [subst; done|]. intros Hi.
    destruct (fl_not_completed0 i Hi) as [? He]. split; [done|]. auto.
  - intros i Hi. rewrite Hat, decide_False by congruence. by apply fl_fresh0.
  - intros i. rewrite Hat, Hlist. case_decide as Hd; [subst; rewrite Hinfm; tauto|].
    rewrite Hinf by done. apply fl_inflight0.
Qed.

(** Picking one memtable. *)
Lemma pick_one_inv fresh h hv inf l m ret :
  store_inv fresh h hv l -> flags_inv fresh None inf l -> NoDup (memlist_ (cur l)) -> m ∈ memlist_ (cur l) ->
  is_Some (mems l !! m) /\ fresh m = false -> imm_flush_needed l = (num_flush_not_started_ l >? 0) ->
  let '(ret', l') := pick_one m (ret, l) in
  store_inv fresh h hv l' /\ memlist_ (cur l') = memlist_ (cur l) /\
  (forall i, is_Some (mems l !! i) -> is_Some (mems l' !! i)) /\
  imm_flush_needed l' = (num_flush_not_started_ l' >? 0) /\ commit_in_progress_ l' = commit_in_progress_ l /\
  (forall i, flush_completed_ (mem_at i l') = flush_completed_ (mem_at i l)) /\
  exists picked, ret' = ret ++ picked /\ flags_inv fresh None (inf ++ picked) l'.
Proof.
  intros Hst Hfl Hnd Hm [[x Hx] Hfm] Hneed. unfold pick_one. rewrite (mem_at_Some _ _ _ Hx).
  destruct (flush_in_progress_ x) eqn:Ep; cbn [negb].
  { repeat (split; [done|]). exists []. by rewrite !app_nil_r. }
  assert (Ec : flush_completed_ x = false).
  { destruct (flush_completed_ x) eqn:E; [|done]. pose proof (fl_completed _ _ _ _ Hfl m) as Hc.
    rewrite (mem_at_Some _ _ _ Hx), E in Hc. destruct (Hc eq_refl). congruence. }
  rewrite Ec, (ml_assert_true _ l) by done.
  assert (Hpos : 1 <= num_flush_not_started_ l).
  { rewrite (fl_num _ _ _ _ Hfl). rewrite (count_if_flip (waiting l) (fun i => if decide (i = m) then false else waiting l i) m);
      try done; [|by intros; rewrite decide_False| |by rewrite decide_True].
    - pose proof (count_if_bounds (fun i => if decide (i = m) then false else waiting l i) (memlist_ (cur l))). lia.
    - unfold waiting. by rewrite (mem_at_Some _ _ _ Hx), Ep. }
  set (l1 := l <| num_flush_not_started_ ::= Z.pred |>).
  set (l2 := if num_flush_not_started_ l1 =? 0 then _ else l1).
  assert (E2 : l2 = l <| num_flush_not_started_ ::= Z.pred |>
                      <| imm_flush_needed := (Z.pred (num_flush_not_started_ l) >? 0) |>).
  { unfold l2, l1. change (num_flush_not_started_ (l <| num_flush_not_started_ ::= Z.pred |>))
      with (Z.pred (num_flush_not_started_ l)).
    destruct (Z.eqb_spec (Z.pred (num_flush_not_started_ l)) 0) as [E|E].
    - by rewrite E.
    - rewrite (proj2 (Z.gtb_lt (Z.pred (num_flush_not_started_ l)) 0)) by lia.
      rewrite (proj2 (Z.gtb_lt (num_flush_not_started_ l) 0)) in Hneed by lia.
      destruct l; cbn in *. by rewrite Hneed. }
  assert (Hx2 : mems l2 !! m = Some x) by (rewrite E2; exact Hx).
  split; [|split; [|split; [|split; [|split; [|split]]]]].
  - apply (store_inv_update _ _ _ _ _ _ x); [|exact Hx2|done|done].
    apply (store_inv_same _ _ _ l); rewrite ?E2; done.
  - rewrite E2. done.
  - intros i Hi. apply (mems_update _ _ _ x _ Hx2). by rewrite E2.
  - rewrite E2. done.
  - rewrite E2. done.
  - intros i. rewrite (mem_at_update _ _ _ _ _ Hx2). case_decide as Hd; [|by rewrite E2].
    subst i. rewrite (mem_at_Some _ _ _ Hx). done.
  - exists [m]. split; [done|].
    assert (Hmi : m ∉ inf).
    { rewrite (fl_inflight _ _ _ _ Hfl). rewrite (mem_at_Some _ _ _ Hx). intros (_ & ? & _). congruence. }
    eapply (flags_set fresh None None inf); [exact Hfl|done|exact (conj Hm Hfm)| | | | | | | | |].
    + intros i. rewrite (mem_at_update _ _ _ _ _ Hx2). by rewrite E2.
    + by rewrite E2.
    + unfold waiting. rewrite (mem_at_Some _ _ _ Hx), Ep, E2. cbn. lia.
    + cbn. congruence.
    + intros _. pose proof (fl_not_completed _ _ _ _ Hfl m) as Hn. rewrite (mem_at_Some _ _ _ Hx) in Hn. by apply Hn.
    + done.
    + apply NoDup_app. split; [apply (fl_nodup _ _ _ _ Hfl)|]. split; [|apply NoDup_singleton].
      intros i Hi ->%list_elem_of_singleton. done.
    + intros i Hi. rewrite elem_of_app, list_elem_of_singleton. tauto.
    + cbn. rewrite elem_of_app, list_elem_of_singleton. tauto.
Qed.

(** ** Picking *)

Lemma memlist_ok fresh h hv l :
  store_inv fresh h hv l ->
  versions l !! current_ l = Some (cur l) /\ NoDup (memlist_ (cur l)) /\
  forall m, m ∈ memlist_ (cur l) -> is_Some (mems l !! m) /\ fresh m = false.
Proof.
  intros Hinv. destruct (si_current _ _ _ _ Hinv) as [x Hx]. unfold cur. rewrite (version_at_Some _ _ _ Hx).
  split; [done|]. destruct (si_version _ _ _ _ Hinv _ _ Hx) as (_ & Hnd & _).
  split; [by apply NoDup_app in Hnd as [? _]|].
  intros m Hm. apply (si_listed _ _ _ _ Hinv _ _ m Hx). apply elem_of_app. by left.
Qed.

(** What operations on the flags keep: the memtables of the list, and who commits. *)
Record same_list (l l' : MemTableList) : Prop := {
  sl_memlist : memlist_ (cur l') = memlist_ (cur l);
  sl_commit : commit_in_progress_ l' = commit_in_progress_ l;
  sl_min : min_write_buffer_number_to_merge_ l' = min_write_buffer_number_to_merge_ l
}.

#[export] Instance same_list_preorder : PreOrder same_list.
Proof. split; [done|]. intros a b c [] []. split; etrans; eassumption. Qed.

Definition same_completed (l l' : MemTableList) : Prop :=
  forall m, flush_completed_ (mem_at m l') = flush_completed_ (mem_at m l).

(** [imm_flush_needed] tells whether a memtable waits. *)
Definition needed_ok (l : MemTableList) : Prop := imm_flush_needed l = (num_flush_not_started_ l >? 0).

Lemma pick_all_inv fresh h hv inf ms : forall ret l,
  store_inv fresh h hv l -> flags_inv fresh None inf l -> needed_ok l ->
  (forall m, m ∈ ms -> m ∈ memlist_ (cur l)) ->
  let '(ret', l') := foldl (fun acc m => pick_one m acc) (ret, l) ms in
  store_inv fresh h hv l' /\ needed_ok l' /\ same_list l l' /\ same_completed l l' /\
  exists picked, ret' = ret ++ picked /\ flags_inv fresh None (inf ++ picked) l'.
Proof.
  revert inf. induction ms as [|m ms IH]; intros inf ret l Hst Hfl Hneed Hms; cbn [foldl].
  { repeat (split; [done|]). exists []. by rewrite !app_nil_r. }
  destruct (memlist_ok _ _ _ _ Hst) as (_ & Hnd & Hsome).
  assert (Hm : m ∈ memlist_ (cur l)) by (apply Hms; left).
  pose proof (pick_one_inv fresh h hv inf l m ret Hst Hfl Hnd Hm (Hsome m Hm) Hneed) as H1.
  assert (Hmin : min_write_buffer_number_to_merge_ (snd (pick_one m (ret, l))) =
                 min_write_buffer_number_to_merge_ l).
  { unfold pick_one. destruct (negb _); [|done]. cbn. by destruct (Z.pred _ =? 0). }
  destruct (pick_one m (ret, l)) as [ret1 l1]. destruct H1 as (H1 & H2 & H3 & H4 & H5 & H6 & p & -> & H7).
  specialize (IH (inf ++ p) (ret ++ p) l1 H1 H7 H4).
  destruct (foldl _ (ret ++ p, l1) ms) as [ret' l'].
  destruct IH as (H8 & H9 & H10 & H11 & p' & -> & H12).
  { intros i Hi. rewrite H2. apply Hms. by right. }
  split; [done|]. split; [done|]. split; [by transitivity l1|]. split.
  { intros i. by rewrite H11, H6. }
  exists (p ++ p'). rewrite <- app_assoc in H12. by rewrite app_assoc.
Qed.

Lemma PickMemtablesToFlush_inv fresh h hv inf l :
  store_inv fresh h hv l -> flags_inv fresh None inf l -> needed_ok l ->
  let '(ret, l') := PickMemtablesToFlush l in
  store_inv fresh h hv l' /\ needed_ok l' /\ same_list l l' /\ same_completed l l' /\
  flags_inv fresh None (inf ++ ret) l'.
Proof.
  intros Hst Hfl Hneed. unfold PickMemtablesToFlush.
  pose proof (pick_all_inv fresh h hv inf (rev (memlist_ (cur l))) [] l Hst Hfl Hneed) as H.
  destruct (foldl _ _ _) as [ret l1]. destruct H as (H1 & H2 & H3 & H4 & p & -> & H5).
  { intros m. by rewrite list_elem_of_In, <- in_rev, <- list_elem_of_In. }
  split; [by apply (store_inv_same _ _ _ l1)|]. split; [done|]. split; [by destruct H3|].
  split; [done|]. by destruct H5.
Qed.

(** Updates that leave the flags of a memtable alone. *)
Lemma flags_touch fresh ex ex' inf l m f x :
  flags_inv fresh ex inf l -> mems l !! m = Some x ->
  flush_in_progress_ (f x) = flush_in_progress_ x -> flush_completed_ (f x) = flush_completed_ x ->
  file_number_ (f x) = file_number_ x ->
  (flush_completed_ x = false -> ex' <> Some m -> ex <> Some m -> e_files (edit_ (f x)) = e_files (edit_ x)) ->
  (forall i, ex' <> Some i -> ex <> Some i) ->
  flags_inv fresh ex' inf (update_mem m f l).
Proof.
  intros [] Hx E1 E2 E3 E4 Hex.
  assert (Hat : forall i, flush_in_progress_ (mem_at i (update_mem m f l)) = flush_in_progress_ (mem_at i l) /\
    flush_completed_ (mem_at i (update_mem m f l)) = flush_completed_ (mem_at i l) /\
    file_number_ (mem_at i (update_mem m f l)) = file_number_ (mem_at i l)).
  { intros i. rewrite (mem_at_update _ _ _ _ _ Hx). case_decide as Hd; [|done]. subst i.
    by rewrite (mem_at_Some _ _ _ Hx). }
  split; [| | | |done|].
  - change (num_flush_not_started_ (update_mem m f l)) with (num_flush_not_started_ l).
    change (cur (update_mem m f l)) with (cur l). rewrite fl_num0. apply count_if_ext. intros i _.
    unfold waiting. by destruct (Hat i) as (-> & _).
  - intros i. destruct (Hat i) as (-> & -> & ->). apply fl_completed0.
  - intros i. destruct (Hat i) as (_ & -> & ->). intros Hi. destruct (fl_not_completed0 i Hi) as [? He].
    split; [done|]. intros Hi'. specialize (He (Hex i Hi')). rewrite (mem_at_update _ _ _ _ _ Hx).
    case_decide as Hd; [|done]. subst i. rewrite (mem_at_Some _ _ _ Hx) in *. rewrite E4; auto.
  - intros i. destruct (Hat i) as (-> & _). apply fl_fresh0.
  - intros i. destruct (Hat i) as (-> & -> & _). apply fl_inflight0.
Qed.

Lemma PickMemTable_inv fresh h hv inf n l :
  store_inv fresh h hv l -> flags_inv fresh None inf l -> needed_ok l ->
  let '(j, l') := PickMemTable n l in
  store_inv fresh h hv l' /\ needed_ok l' /\ same_list l l' /\ same_completed l l' /\
  flags_inv fresh None (inf ++ mems_ j) l' /\ (mems_ j <> [] -> meta_fd j = n).
Proof.
  intros Hst Hfl Hneed. unfold PickMemTable.
  pose proof (PickMemtablesToFlush_inv fresh h hv inf l Hst Hfl Hneed) as H.
  destruct (PickMemtablesToFlush l) as [ms l1]. destruct H as (H1 & H2 & H3 & H4 & H5).
  destruct ms as [|m ms]; cbn [mems_ meta_fd]; [done|].
  assert (Hm : m ∈ inf ++ m :: ms) by (apply elem_of_app; right; left).
  apply (fl_inflight _ _ _ _ H5) in Hm as (Hm & _).
  destruct (memlist_ok _ _ _ _ H1) as (_ & _ & Hsome). destruct (Hsome m Hm) as [[x Hx] _].
  split; [by apply (store_inv_update _ _ _ _ _ _ x)|]. split; [done|]. split; [by destruct H3|]. split.
  { intros i. rewrite (mem_at_update _ _ _ _ _ Hx). rewrite <- H4. case_decide as Hd; [|done].
    subst i. by rewrite (mem_at_Some _ _ _ Hx). }
  split; [|done]. by apply (flags_touch fresh None None _ _ _ _ x).
Qed.

(** ** Giving memtables back *)

(** What giving back keeps: memtables do not become flushed. *)
Definition keeps (l l' : MemTableList) : Prop :=
  same_list l l' /\
  forall m, flush_completed_ (mem_at m l) = false -> flush_completed_ (mem_at m l') = false.

Definition quiet (l l' : MemTableList) : Prop := same_list l l' /\ same_completed l l'.

#[export] Instance quiet_preorder : PreOrder quiet.
Proof.
  split; [done|]. intros a b c [H1 H2] [H3 H4]. split; [by transitivity b|].
  intros m. by rewrite H4, H2.
Qed.

#[export] Instance keeps_preorder : PreOrder keeps.
Proof.
  split; [done|]. intros a b c [H1 H2] [H3 H4]. split; [by transitivity b|]. auto.
Qed.

Lemma inflight_mem fresh h hv ex inf l m :
  store_inv fresh h hv l -> flags_inv fresh ex inf l -> m ∈ inf ->
  (m ∈ memlist_ (cur l) /\ fresh m = false) /\
  exists x, mems l !! m = Some x /\ mem_at m l = x /\ flush_in_progress_ x = true /\
    flush_completed_ x = false /\ file_number_ x = 0 /\ (ex <> Some m -> e_files (edit_ x) = []).
Proof.
  intros Hst Hfl Hm. apply (fl_inflight _ _ _ _ Hfl) in Hm as (Hm & Hp & Hc).
  destruct (memlist_ok _ _ _ _ Hst) as (_ & _ & Hsome). destruct (Hsome m Hm) as [[x Hx] Hf].
  split; [done|]. clear Hf. exists x. pose proof (mem_at_Some _ _ _ Hx) as Hat.
  destruct (fl_not_completed _ _ _ _ Hfl m Hc) as [Hf He]. rewrite Hat in *. done.
Qed.

Lemma rollback_one_inv fresh h hv ex inf l m :
  store_inv fresh h hv l -> flags_inv fresh ex (m :: inf) l -> (ex = None \/ ex = Some m) ->
  let l' := rollback_one l m in
  store_inv fresh h hv l' /\ flags_inv fresh None inf l' /\ quiet l l' /\
  num_flush_not_started_ l' = num_flush_not_started_ l + 1.
Proof.
  intros Hst Hfl Hex. destruct (inflight_mem _ _ _ _ _ _ m Hst Hfl) as (Hm & x & Hx & Hat & Hp & Hc & Hf & _); [left|].
  cbv zeta. unfold rollback_one.
  rewrite (ml_assert_true _ l) by (by rewrite Hat). rewrite (ml_assert_true _ l) by (rewrite Hat, Hf; done).
  set (f := fun x : MemTable => _ : MemTable).
  set (l' := (update_mem m f l) <| num_flush_not_started_ ::= Z.succ |>).
  assert (Hat' : forall i, mem_at i l' = if decide (i = m) then f x else mem_at i l)
    by (intros i; apply (mem_at_update m f l x i Hx)).
  destruct (memlist_ok _ _ _ _ Hst) as (_ & Hnd & _).
  destruct (proj1 (NoDup_cons _ _) (fl_nodup _ _ _ _ Hfl)) as [Hmi Hndi].
  split; [|split; [|split]].
  - apply (store_inv_same _ _ _ (update_mem m f l)); try done. by apply (store_inv_update _ _ _ _ _ _ x).
  - eapply (flags_set fresh ex None (m :: inf) inf); [exact Hfl|done|exact Hm|exact Hat'|done| | | | |done| |].
    + unfold waiting. rewrite Hat, Hp. cbn. lia.
    + done.
    + done.
    + intros i Hi _. destruct Hex as [->| ->]; congruence.
    + intros i Hi. rewrite elem_of_cons. tauto.
    + split; [done|]. intros [? _]. done.
  - split; [done|]. intros i. rewrite Hat'. case_decide; [subst i; by rewrite Hat, Hc|done].
  - cbn. lia.
Qed.

Lemma rollback_all_inv fresh h hv inf ms : forall l,
  store_inv fresh h hv l -> flags_inv fresh None (ms ++ inf) l ->
  let l' := foldl rollback_one l ms in
  store_inv fresh h hv l' /\ flags_inv fresh None inf l' /\ quiet l l' /\
  num_flush_not_started_ l' = num_flush_not_started_ l + Z.of_nat (length ms).
Proof.
  induction ms as [|m ms IH]; intros l Hst Hfl; cbv zeta; cbn [foldl].
  { split; [done|]. split; [done|]. split; [done|]. cbn. lia. }
  destruct (rollback_one_inv fresh h hv None (ms ++ inf) l m Hst Hfl) as (H1 & H2 & H3 & H4); [by left|].
  destruct (IH _ H1 H2) as (H5 & H6 & H7 & H8). split; [done|]. split; [done|].
  split; [by transitivity (rollback_one l m)|]. rewrite H8, H4. cbn [length]. lia.
Qed.

Lemma RollbackMemtableFlush_inv fresh h hv ex inf m ms l :
  store_inv fresh h hv l -> flags_inv fresh ex (m :: ms ++ inf) l -> (ex = None \/ ex = Some m) ->
  let l' := RollbackMemtableFlush (m :: ms) l in
  store_inv fresh h hv l' /\ flags_inv fresh None inf l' /\ quiet l l' /\ needed_ok l'.
Proof.
  intros Hst Hfl Hex. cbv zeta. unfold RollbackMemtableFlush. rewrite ml_assert_true by done. cbn [foldl].
  destruct (rollback_one_inv fresh h hv ex (ms ++ inf) l m Hst Hfl Hex) as (H1 & H2 & H3 & H4).
  destruct (rollback_all_inv fresh h hv inf ms _ H1 H2) as (H5 & H6 & H7 & H8).
  set (l1 := foldl rollback_one (rollback_one l m) ms) in *.
  split; [by apply (store_inv_same _ _ _ l1)|]. split; [by destruct H6|].
  split; [transitivity (rollback_one l m); [done|]; destruct H7 as [[] ?]; split; done|].
  unfold needed_ok. cbn. rewrite H8, H4. symmetry. apply Z.gtb_lt.
  pose proof (fl_num _ _ _ _ Hfl). pose proof (count_if_bounds (waiting l) (memlist_ (cur l))). lia.
Qed.

(** A batch that could not be committed. *)
Lemma uncommit_one_inv fresh h hv inf l m :
  store_inv fresh h hv l -> flags_inv fresh None inf l -> m ∈ memlist_ (cur l) ->
  flush_completed_ (mem_at m l) = true ->
  let l' := uncommit_one l m in
  store_inv fresh h hv l' /\ flags_inv fresh None inf l' /\ needed_ok l' /\ keeps l l' /\
  (forall i, flush_completed_ (mem_at i l') = if decide (i = m) then false else flush_completed_ (mem_at i l)).
Proof.
  intros Hst Hfl Hm Hc. cbv zeta. destruct (memlist_ok _ _ _ _ Hst) as (_ & Hnd & Hsome).
  destruct (Hsome m Hm) as [[x Hx] Hfm]. pose proof (mem_at_Some _ _ _ Hx) as Hat.
  destruct (fl_completed _ _ _ _ Hfl m Hc) as [Hp _]. unfold uncommit_one. set (f := fun x : MemTable => _ : MemTable).
  set (l' := _ <| imm_flush_needed := true |>).
  assert (Hat' : forall i, mem_at i l' = if decide (i = m) then f x else mem_at i l)
    by (intros i; apply (mem_at_update m f l x i Hx)).
  assert (Hc' : forall i, flush_completed_ (mem_at i l') =
    if decide (i = m) then false else flush_completed_ (mem_at i l)) by (intros i; rewrite Hat'; by case_decide).
  split; [|split; [|split; [|split; [|exact Hc']]]].
  - apply (store_inv_same _ _ _ (update_mem m f l)); try done. by apply (store_inv_update _ _ _ _ _ _ x).
  - eapply (flags_set fresh None None inf inf); [exact Hfl|done|exact (conj Hm Hfm)|exact Hat'|done| | | | | |done|].
    + unfold waiting. rewrite Hp. cbn. lia.
    + done.
    + done.
    + done.
    + apply (fl_nodup _ _ _ _ Hfl).
    + rewrite (fl_inflight _ _ _ _ Hfl), Hc. cbn. intuition congruence.
  - unfold needed_ok. cbn. symmetry. apply Z.gtb_lt. rewrite (fl_num _ _ _ _ Hfl).
    pose proof (count_if_bounds (waiting l) (memlist_ (cur l))). lia.
  - split; [done|]. intros i Hi. rewrite Hc'. by case_decide.
Qed.

Lemma uncommit_all_inv fresh h hv inf ms : forall l,
  store_inv fresh h hv l -> flags_inv fresh None inf l -> needed_ok l -> NoDup ms ->
  (forall m, m ∈ ms -> m ∈ memlist_ (cur l) /\ flush_completed_ (mem_at m l) = true) ->
  let l' := foldl uncommit_one l ms in
  store_inv fresh h hv l' /\ flags_inv fresh None inf l' /\ needed_ok l' /\ keeps l l' /\
  (forall m, m ∈ ms -> flush_completed_ (mem_at m l') = false).
Proof.
  induction ms as [|m ms IH]; intros l Hst Hfl Hneed Hnd Hms; cbv zeta; cbn [foldl].
  { repeat (split; [done|]). intros m Hm. by apply not_elem_of_nil in Hm. }
  apply NoDup_cons in Hnd as [Hm Hnd]. destruct (Hms m) as [Hin Hc]; [left|].
  destruct (uncommit_one_inv fresh h hv inf l m Hst Hfl Hin Hc) as (H1 & H2 & H3 & H4 & H5).
  destruct (IH _ H1 H2 H3 Hnd) as (H6 & H7 & H8 & H9 & H10).
  { intros i Hi. destruct (Hms i) as [Hi1 Hi2]; [by right|]. destruct H4 as [Hs _].
    rewrite (sl_memlist _ _ Hs), H5, decide_False; [done|]. intros ->. done. }
  split; [done|]. split; [done|]. split; [done|]. split; [by transitivity (uncommit_one l m)|].
  intros i Hi. apply elem_of_cons in Hi as [->|Hi]; [|by apply H10].
  apply (proj2 H9). by rewrite H5, decide_True.
Qed.

(** ** Installing results *)

Lemma mark_completed_inv fresh h hv inf n ms : forall first ex l,
  store_inv fresh h hv l -> flags_inv fresh ex (ms ++ inf) l -> 0 < n ->
  (ex = None \/ first = true /\ ex = head ms) ->
  let l' := mark_completed first n ms l in
  store_inv fresh h hv l' /\ flags_inv fresh None inf l' /\ same_list l l' /\
  num_flush_not_started_ l' = num_flush_not_started_ l /\ imm_flush_needed l' = imm_flush_needed l /\
  (forall m, flush_completed_ (mem_at m l) = true -> flush_completed_ (mem_at m l') = true).
Proof.
  induction ms as [|m ms IH]; intros first ex l Hst Hfl Hn Hex; cbv zeta; cbn [mark_completed].
  { destruct Hex as [->|[_ ->]]; done. }
  destruct (inflight_mem _ _ _ _ _ _ m Hst Hfl) as (Hm & x & Hx & Hat & Hp & Hc & _ & He); [left|].
  rewrite (ml_assert_true _ l).
  2: { destruct first; [done|]. destruct Hex as [->|[? _]]; [|done]. unfold NumEntries.
       by rewrite Hat, He. }
  set (f := fun x : MemTable => _ : MemTable). set (l1 := update_mem m f l).
  assert (Hat' : forall i, mem_at i l1 = if decide (i = m) then f x else mem_at i l)
    by (intros i; apply (mem_at_update m f l x i Hx)).
  destruct (memlist_ok _ _ _ _ Hst) as (_ & Hnd & _).
  destruct (proj1 (NoDup_cons _ _) (fl_nodup _ _ _ _ Hfl)) as [Hmi Hndi].
  assert (H1 : store_inv fresh h hv l1) by (by apply (store_inv_update _ _ _ _ _ _ x)).
  assert (H2 : flags_inv fresh None (ms ++ inf) l1).
  { eapply (flags_set fresh ex None (m :: ms ++ inf)); [exact Hfl|done|exact Hm|exact Hat'|done| | | | |done| |].
    - unfold waiting. rewrite Hat, Hp. cbn. rewrite Hp. cbn. lia.
    - intros _. cbn. rewrite Hp. done.
    - done.
    - intros i Hi _. destruct Hex as [->|[_ ->]]; cbn; congruence.
    - intros i Hi. rewrite elem_of_cons. tauto.
    - split; [done|]. cbn. intros [_ ?]. done. }
  destruct (IH false None l1 H1 H2 Hn) as (H3 & H4 & H5 & H6 & H7 & H8); [by left|].
  split; [done|]. split; [done|]. split; [by destruct H5|]. split; [done|]. split; [done|].
  intros i Hi. apply H8. rewrite Hat'. by case_decide.
Qed.

(** The memtables of the list, oldest first. *)
Definition oldest (l : MemTableList) : list nat := rev (memlist_ (cur l)).

Lemma oldest_in l m : m ∈ oldest l <-> m ∈ memlist_ (cur l).
Proof. unfold oldest. by rewrite !list_elem_of_In, <- in_rev. Qed.

Lemma last_oldest (ms : list nat) : ms <> [] -> head (rev ms) = Some (List.last ms 0%nat).
Proof.
  intros Hne. rewrite (removelast_app_last _ Hne) at 1. by rewrite rev_app_distr.
Qed.

Lemma scan_batch_spec ms l : forall first b,
  let n := fst (scan_batch first b ms l) in
  (n <= length ms)%nat /\ (forall m, m ∈ take n ms -> flush_completed_ (mem_at m l) = true) /\
  (forall m, ms !! n = Some m -> flush_completed_ (mem_at m l) = false).
Proof.
  induction ms as [|m ms IH]; intros first b; cbv zeta; cbn [scan_batch].
  { split; [done|]. split; [intros m Hm; by apply not_elem_of_nil in Hm|done]. }
  destruct (flush_completed_ (mem_at m l)) eqn:Ec; cbn [negb].
  - specialize (IH false (if first || negb (b =? file_number_ (mem_at m l))
      then file_number_ (mem_at m l) else b)). cbv zeta in IH.
    destruct (scan_batch false _ ms l) as [n es]. cbn [fst] in *. destruct IH as (H1 & H2 & H3).
    split; [cbn; lia|]. split; [|exact H3]. cbn [take]. intros i Hi.
    apply elem_of_cons in Hi as [->|Hi]; auto.
  - cbn. split; [lia|]. split; [intros i Hi; by apply not_elem_of_nil in Hi|]. by intros i [= <-].
Qed.

(** What holds of the thread that commits; when there is none, the oldest memtable
    was not flushed. *)
Definition commit_ok (c : option (nat * list Edit)) (l : MemTableList) : Prop :=
  match c with
  | Some (n, _) => commit_in_progress_ l = true /\ (0 < n <= length (oldest l))%nat /\
      forall m, m ∈ take n (oldest l) -> flush_completed_ (mem_at m l) = true
  | None => commit_in_progress_ l = false /\
      forall m, head (oldest l) = Some m -> flush_completed_ (mem_at m l) = false
  end.

Lemma Install_scan_spec l :
  commit_in_progress_ l = true ->
  let '(c, l') := Install_scan l in
  l' = l <| commit_in_progress_ := commit_in_progress_ l' |> /\ commit_ok c l' /\
  forall n es, c = Some (n, es) -> (n, es) = scan_batch true 0 (oldest l) l.
Proof.
  intros Hc. unfold Install_scan. destruct (bool_decide _ || _) eqn:E.
  - split; [done|]. split; [|done]. split; [done|]. intros m Hm.
    apply orb_true_iff in E as [E|E].
    + apply bool_decide_eq_true in E. unfold oldest in Hm. change (cur (l <| commit_in_progress_ := false |>)) with (cur l) in Hm.
      by rewrite E in Hm.
    + unfold oldest in Hm. change (cur (l <| commit_in_progress_ := false |>)) with (cur l) in Hm.
      destruct (decide (memlist_ (cur l) = [])) as [E0|Hne]; [by rewrite E0 in Hm|].
      rewrite last_oldest in Hm by done. injection Hm as <-. by apply negb_true_iff in E.
  - apply orb_false_iff in E as [E1 E2]. apply bool_decide_eq_false in E1. apply negb_false_iff in E2.
    split; [by destruct l; cbn in *; rewrite Hc|].
    fold (oldest l). pose proof (scan_batch_spec (oldest l) l true 0) as (H1 & H2 & H3).
    destruct (scan_batch true 0 (oldest l) l) as [n es]. cbn [fst] in *. split; [|by intros ? ? [= <- <-]].
    split; [done|]. split; [|done]. split; [|done].
    destruct n; [|lia]. pose proof (last_oldest _ E1) as Hl. fold (oldest l) in Hl.
    rewrite head_lookup in Hl. specialize (H3 _ Hl). congruence.
Qed.

(** ** What readers see *)

(** A version that someone other than the list holds. *)
Definition stable (hv : nat -> Z) (l l' : MemTableList) : Prop :=
  forall v x, versions l !! v = Some x -> 1 <= hv v ->
  exists x', versions l' !! v = Some x' /\ same_memtables x x'.

Lemma same_memtables_refl x : same_memtables x x.
Proof. done. Qed.

Lemma stable_same hv l l' : same_versions l l' -> stable hv l l'.
Proof. intros (E & _) v x Hx _. rewrite E. eauto using same_memtables_refl. Qed.

Lemma stable_trans hv a b c : stable hv a b -> stable hv b c -> stable hv a c.
Proof.
  intros H1 H2 v x Hx Hv. destruct (H1 v x Hx Hv) as (y & Hy & E1 & E2).
  destruct (H2 v y Hy Hv) as (z & Hz & E3 & E4). exists z. split; [done|]. split; congruence.
Qed.

(** Only the list holds the current version once [InstallNewVersion] ran. *)
Lemma current_unshared fresh h hv l x v :
  store_inv fresh h hv l -> versions l !! current_ l = Some x -> v_refs_ x = 1 -> 1 <= hv v -> v <> current_ l.
Proof.
  intros Hst Hx Hr Hv ->. destruct (si_version _ _ _ _ Hst _ _ Hx) as (_ & _ & _ & E).
  rewrite decide_True in E by done. lia.
Qed.

Lemma stable_only fresh h hv l l' x :
  store_inv fresh h hv l -> versions l !! current_ l = Some x -> v_refs_ x = 1 ->
  only_version (current_ l) l l' -> stable hv l l'.
Proof.
  intros Hst Hx Hr (_ & _ & Ho) v y Hy Hv. rewrite Ho; [eauto using same_memtables_refl|].
  by eapply current_unshared.
Qed.

Lemma InstallNewVersion_stable fresh h hv l :
  store_inv fresh h hv l -> stable hv l (InstallNewVersion l).
Proof.
  intros Hst. destruct (memlist_ok _ _ _ _ Hst) as (Hx & _).
  destruct (InstallNewVersion_inv _ _ _ _ _ Hst Hx) as (_ & _ & _ & _ & _ & _ & _ & Hs).
  intros v z Hz _. by apply Hs.
Qed.

Lemma same_versions_foldl (f : MemTableList -> nat -> MemTableList) ms :
  (forall l m, same_versions l (f l m)) -> forall l, same_versions l (foldl f l ms).
Proof.
  intros Hf. induction ms as [|m ms IH]; intros l; cbn [foldl]; [done|].
  eapply same_versions_trans; [apply Hf|apply IH].
Qed.

(** ** Committing *)

Lemma filter_ne_absent (m : nat) (ms : list nat) : m ∉ ms -> filter (fun i => i <> m) ms = ms.
Proof.
  intros Hm. induction ms as [|i ms IH]; [done|]. apply not_elem_of_cons in Hm as [Hi Hm].
  rewrite filter_cons, decide_True by done. by rewrite IH.
Qed.

Lemma filter_ne_last (m : nat) (a : list nat) :
  NoDup (a ++ [m]) -> filter (fun i => i <> m) (a ++ [m]) = a.
Proof.
  intros Hnd. apply NoDup_app in Hnd as (_ & Hd & _). rewrite filter_app, filter_ne_absent.
  - rewrite filter_cons, decide_False by tauto. apply app_nil_r.
  - intros Hm. apply (Hd m Hm). left.
Qed.

(** A flushed memtable leaves the list. *)
Lemma flags_remove fresh inf l l' m :
  flags_inv fresh None inf l -> frame l l' -> flush_completed_ (mem_at m l) = true ->
  memlist_ (cur l') = filter (fun i => i <> m) (memlist_ (cur l)) -> flags_inv fresh None inf l'.
Proof.
  intros [] Hf Hc Hm.
  assert (Heq : forall m, _) by (intros i; exact (unref_flags _ _ (frame_at l l' i Hf))).
  split; try done.
  - rewrite (fr_num _ _ Hf), Hm, fl_num0, <- (count_if_remove (waiting l) m).
    + apply count_if_ext. intros i _. unfold waiting. by destruct (Heq i) as (-> & _).
    + unfold waiting. destruct (fl_completed0 m Hc) as [-> _]. done.
  - intros i. destruct (Heq i) as (-> & -> & -> & _). apply fl_completed0.
  - intros i. destruct (Heq i) as (_ & -> & -> & -> & _). apply fl_not_completed0.
  - intros i. destruct (Heq i) as (-> & _). apply fl_fresh0.
  - intros i. destruct (Heq i) as (-> & -> & _). rewrite Hm, list_elem_of_filter, fl_inflight0.
    intuition congruence.
Qed.

Lemma commit_batch_inv fresh h hv inf a : forall n b l x,
  store_inv fresh h hv l -> flags_inv fresh None inf l -> versions l !! current_ l = Some x -> v_refs_ x = 1 ->
  memlist_ x = a ++ b -> length b = n -> (forall m, m ∈ b -> flush_completed_ (mem_at m l) = true) ->
  let l' := commit_batch n l in
  store_inv fresh h hv l' /\ flags_inv fresh None inf l' /\ frame l l' /\ memlist_ (cur l') = a /\
  stable hv l l'.
Proof.
  induction n as [|n IH]; intros b l x Hst Hfl Hx Hr Hab Hlen Hc; cbv zeta; cbn [commit_batch];
    assert (Hcur : cur l = x) by (unfold cur; by rewrite (version_at_Some _ _ _ Hx)).
  { repeat (split; [done|]). split; [|by apply stable_same].
    rewrite Hcur, Hab. apply length_zero_iff_nil in Hlen as ->. apply app_nil_r. }
  destruct (exists_last (l := b)) as (b' & m & Eb); [by intros ->|]. subst b.
  rewrite length_app in Hlen. cbn in Hlen.
  assert (Hm : m ∈ memlist_ x) by (rewrite Hab, !elem_of_app; right; right; left).
  assert (Hcm : flush_completed_ (mem_at m l) = true) by (apply Hc, elem_of_app; right; left).
  assert (Hlast : List.last (memlist_ (cur l)) 0%nat = m) by (by rewrite Hcur, Hab, app_assoc, last_last).
  rewrite Hlast. rewrite ml_assert_true.
  2: { apply Z.gtb_lt. apply (fl_completed _ _ _ _ Hfl m Hcm). }
  destruct (Version_Remove_inv fresh h hv l (current_ l) x m Hst Hx Hr Hm) as (y & Hy & H1 & H2 & H3' & H5 & H6).
  set (l1 := Version_Remove (current_ l) m l) in *.
  pose proof (stable_only _ _ _ _ _ _ Hst Hx Hr H3') as Hst1. destruct H3' as (H3 & _). rewrite <- H3 in Hy.
  assert (Hcur1 : cur l1 = y) by (unfold cur; by rewrite (version_at_Some _ _ _ Hy)).
  assert (Hy' : memlist_ y = a ++ b').
  { rewrite H5, Hab, app_assoc. apply filter_ne_last. rewrite <- app_assoc, <- Hab, <- Hcur.
    by destruct (memlist_ok _ _ _ _ Hst) as (_ & ? & _). }
  destruct (IH b' l1 y H1) as (H7 & H8 & H9 & H10 & H11); try done; [|lia| |].
  - eapply flags_remove; [exact Hfl|exact H2|exact Hcm|]. by rewrite Hcur1, Hcur.
  - intros i Hi. destruct (unref_flags _ _ (frame_at l l1 i H2)) as (_ & -> & _). apply Hc, elem_of_app. by left.
  - split; [done|]. split; [done|]. split; [by transitivity l1|]. split; [done|by eapply stable_trans].
Qed.

(** ** One round of the committing loop *)

Lemma frame_needed l l' : frame l l' -> needed_ok l -> needed_ok l'.
Proof. intros Hf Hn. unfold needed_ok. by rewrite (fr_needed _ _ Hf), (fr_num _ _ Hf). Qed.

Lemma flags_commit fresh ex inf l b : flags_inv fresh ex inf l -> flags_inv fresh ex inf (l <| commit_in_progress_ := b |>).
Proof. by intros []. Qed.

Lemma store_commit fresh h hv l b :
  store_inv fresh h hv l -> store_inv fresh h hv (l <| commit_in_progress_ := b |>).
Proof. intros H. by apply (store_inv_same _ _ _ l). Qed.

Lemma split_batch n (ms : list nat) :
  (n <= length (rev ms))%nat -> exists a b, ms = a ++ b /\ length b = n /\ take n (rev ms) = rev b /\
    drop n (rev ms) = rev a.
Proof.
  rewrite length_rev. intros Hn.
  assert (exists a b, ms = a ++ b /\ length b = n) as (a & b & -> & Hb).
  { exists (take (length ms - n) ms), (drop (length ms - n) ms). rewrite take_drop, length_drop.
    split; [done|lia]. }
  exists a, b. split; [done|]. split; [done|]. rewrite rev_app_distr.
  split; [apply take_app_length'|apply drop_app_length']; by rewrite length_rev.
Qed.

(** The list before and after [LogAndApply] returns. *)
Lemma Install_resume_inv fresh h hv inf st n es l :
  store_inv fresh h hv l -> flags_inv fresh None inf l -> needed_ok l -> commit_ok (Some (n, es)) l ->
  let '(c, l') := Install_resume st n l in
  store_inv fresh h hv l' /\ flags_inv fresh None inf l' /\ needed_ok l' /\ commit_ok c l' /\
  oldest l' = (if ok st then drop n (oldest l) else oldest l) /\
  min_write_buffer_number_to_merge_ l' = min_write_buffer_number_to_merge_ l /\ stable hv l l'.
Proof.
  intros Hst Hfl Hneed (Hcip & Hn & Hbatch). pose proof (InstallNewVersion_stable _ _ _ _ Hst) as Hst1.
  destruct (memlist_ok _ _ _ _ Hst) as (Hx & Hnd & _).
  destruct (InstallNewVersion_inv _ _ _ _ _ Hst Hx) as (y & Hy & H1 & H2 & H3 & H4 & H5 & _).
  unfold Install_resume. set (l1 := InstallNewVersion l) in *.
  assert (Hcur1 : cur l1 = y) by (unfold cur; by rewrite (version_at_Some _ _ _ Hy)).
  assert (Hold : oldest l1 = oldest l) by (unfold oldest; by rewrite Hcur1, H3).
  assert (H6 : flags_inv fresh None inf l1) by (eapply flags_frame; [done|by rewrite Hcur1|done]).
  assert (Hc1 : forall m, flush_completed_ (mem_at m l1) = flush_completed_ (mem_at m l))
    by (intros m; by destruct (unref_flags _ _ (frame_at l l1 m H2)) as (_ & -> & _)).
  pose proof (frame_needed _ _ H2 Hneed) as Hneed1.
  destruct (split_batch n (memlist_ (cur l)) (proj2 Hn)) as (a & b & Hab & Hb & Htake & Hdrop).
  fold (oldest l) in Htake, Hdrop. destruct (ok st).
  - destruct (commit_batch_inv fresh h hv inf a n b l1 y) as (H7 & H8 & H9 & H10 & H11); try done.
    { by rewrite H3. }
    { intros m Hm. rewrite Hc1. apply Hbatch. rewrite Htake. by rewrite list_elem_of_In, <- in_rev, <- list_elem_of_In. }
    set (l2 := commit_batch n l1) in *.
    assert (Hcip2 : commit_in_progress_ l2 = true) by (by rewrite (fr_commit _ _ H9), (fr_commit _ _ H2)).
    pose proof (Install_scan_spec l2 Hcip2) as Hscan. destruct (Install_scan l2) as [c l3].
    destruct Hscan as (El & Hok & _). split; [rewrite El; by apply store_commit|].
    split; [rewrite El; by apply flags_commit|]. split; [rewrite El; by apply (frame_needed l1 l2)|].
    split; [done|]. rewrite El. change (oldest (l2 <| commit_in_progress_ := commit_in_progress_ l3 |>)) with (oldest l2).
    split; [unfold oldest at 1; by rewrite H10, Hdrop|].
    split; [cbn; by rewrite (fr_min _ _ H9), (fr_min _ _ H2)|].
    eapply stable_trans; [exact Hst1|]. eapply stable_trans; [exact H11|by apply stable_same].
  - unfold uncommit_batch. fold (oldest l1). rewrite Hold.
    assert (Hndo : NoDup (oldest l)) by (by apply NoDup_ListNoDup, NoDup_rev, NoDup_ListNoDup).
    destruct (uncommit_all_inv fresh h hv inf (take n (oldest l)) l1) as (H7 & H8 & H9 & [H10 _] & H11); try done.
    { rewrite <- (take_drop n (oldest l)) in Hndo. by apply NoDup_app in Hndo as [? _]. }
    { intros m Hm. rewrite Hc1. split; [|by apply Hbatch]. apply oldest_in. rewrite Hold.
      rewrite <- (take_drop n (oldest l)), elem_of_app. by left. }
    set (l2 := foldl uncommit_one l1 _) in *. pose proof (sl_memlist _ _ H10) as Hml.
    assert (Hold2 : oldest l2 = oldest l) by (unfold oldest at 1; by rewrite Hml).
    split; [by apply store_commit|]. split; [by apply flags_commit|]. split; [done|].
    split; [|split; [exact Hold2|split; [by rewrite <- (fr_min _ _ H2), <- (sl_min _ _ H10)|]]].
    2: { eapply stable_trans; [exact Hst1|]. apply stable_same.
         apply (same_versions_foldl uncommit_one (take n (oldest l))). done. }
    split; [done|]. change (oldest (l2 <| commit_in_progress_ := false |>)) with (oldest l2). rewrite Hold2.
    intros m Hm. apply H11. destruct (oldest l) as [|o os], n as [|n]; cbn in *; try lia; try done.
    injection Hm as ->. left.
Qed.

(** ** The end of a job *)

Lemma commit_ok_quiet c l l' : quiet l l' -> commit_ok c l -> commit_ok c l'.
Proof.
  intros [Hs Hc]. unfold commit_ok, oldest. rewrite (sl_memlist _ _ Hs), (sl_commit _ _ Hs).
  destruct c as [[n es]|].
  - intros (? & ? & H). split; [done|]. split; [done|]. intros m Hm. rewrite Hc. by apply H.
  - intros (? & H). split; [done|]. intros m Hm. rewrite Hc. by apply H.
Qed.

Lemma Install_begin_inv fresh h hv ex inf m ms n c l :
  store_inv fresh h hv l -> flags_inv fresh ex ((m :: ms) ++ inf) l -> (ex = None \/ ex = Some m) ->
  0 < n -> needed_ok l -> commit_ok c l ->
  let '(c', l') := Install_begin (m :: ms) n l in
  store_inv fresh h hv l' /\ flags_inv fresh None inf l' /\ needed_ok l' /\
  commit_ok (match c' with Some b => Some b | None => c end) l' /\ oldest l' = oldest l /\
  min_write_buffer_number_to_merge_ l' = min_write_buffer_number_to_merge_ l /\
  (c <> None -> c' = None).
Proof.
  intros Hst Hfl Hex Hn Hneed Hc. unfold Install_begin.
  destruct (mark_completed_inv fresh h hv inf n (m :: ms) true ex l Hst Hfl Hn) as (H1 & H2 & H3 & H4 & H5 & H6);
    [destruct Hex; auto|].
  set (l1 := mark_completed true n (m :: ms) l) in *.
  assert (Hold : oldest l1 = oldest l) by (unfold oldest; by rewrite (sl_memlist _ _ H3)).
  assert (Hneed1 : needed_ok l1) by (unfold needed_ok; by rewrite H4, H5).
  destruct (commit_in_progress_ l1) eqn:Ec.
  - repeat (split; [done|]). split; [|split; [done|split; [apply H3|done]]].
    rewrite (sl_commit _ _ H3) in Ec. destruct c as [[k es]|]; [|by destruct Hc; congruence].
    destruct Hc as (_ & Hk & Hb). split; [by rewrite (sl_commit _ _ H3)|]. rewrite Hold. split; [done|]. auto.
  - set (l2 := l1 <| commit_in_progress_ := true |>).
    pose proof (Install_scan_spec l2 eq_refl) as Hscan. destruct (Install_scan l2) as [c' l3].
    destruct Hscan as (El & Hok & _).
    rewrite (sl_commit _ _ H3) in Ec. destruct c as [[k es]|]; [by destruct Hc; congruence|].
    split; [rewrite El; by apply store_commit, store_commit|].
    split; [rewrite El; by apply flags_commit, flags_commit|].
    split; [by rewrite El|]. split; [by destruct c'|].
    split; [rewrite El; exact Hold|]. split; [rewrite El; apply (sl_min _ _ H3)|done].
Qed.

Lemma FlushJob_finish_inv fresh h hv inf st empty abandoned j c l :
  store_inv fresh h hv l -> flags_inv fresh None (mems_ j ++ inf) l -> mems_ j <> [] ->
  0 < meta_fd j -> needed_ok l -> commit_ok c l ->
  let '(c', l') := FlushJob_finish st empty abandoned j l in
  store_inv fresh h hv l' /\ flags_inv fresh None inf l' /\ needed_ok l' /\
  commit_ok (match c' with Some b => Some b | None => c end) l' /\ oldest l' = oldest l /\
  min_write_buffer_number_to_merge_ l' = min_write_buffer_number_to_merge_ l /\
  (c <> None -> c' = None).
Proof.
  intros Hst Hfl Hne Hn Hneed Hc. unfold FlushJob_finish. destruct (mems_ j) as [|m ms] eqn:Ej; [done|].
  set (l1 := if ok st && negb empty then _ else l).
  destruct (inflight_mem _ _ _ _ _ _ m Hst Hfl) as (_ & x & Hx & Hat & _); [left|].
  assert (Hl1 : store_inv fresh h hv l1 /\ (exists ex, flags_inv fresh ex ((m :: ms) ++ inf) l1 /\ (ex = None \/ ex = Some m)) /\
    quiet l l1 /\ needed_ok l1).
  { unfold l1. destruct (ok st && negb empty).
    - split; [by apply (store_inv_update _ _ _ _ _ _ x)|]. split.
      { exists (Some m). split; [|by right]. apply (flags_touch fresh None (Some m) _ _ _ _ x); try done; congruence. }
      split; [|done]. split; [done|]. intros i. rewrite (mem_at_update _ _ _ _ _ Hx).
      case_decide; [subst i; by rewrite Hat|done].
    - split; [done|]. split; [exists None; auto|]. done. }
  destruct Hl1 as (H1 & (ex & H2 & Hex) & H3 & H4). destruct H3 as [Hs Hcomp].
  assert (Hold : oldest l1 = oldest l) by (unfold oldest; by rewrite (sl_memlist _ _ Hs)).
  assert (Hc1 : commit_ok c l1) by (by apply (commit_ok_quiet c l)).
  destruct (negb (ok st) || abandoned).
  - destruct (RollbackMemtableFlush_inv fresh h hv ex inf m ms l1 H1 H2 Hex) as (H5 & H6 & H7 & H8).
    split; [done|]. split; [done|]. split; [done|]. split; [by apply (commit_ok_quiet c l1)|].
    destruct H7 as [Hs' _]. split; [unfold oldest; rewrite (sl_memlist _ _ Hs'); exact Hold|].
    split; [rewrite (sl_min _ _ Hs'); apply (sl_min _ _ Hs)|done].
  - pose proof (Install_begin_inv fresh h hv ex inf m ms (meta_fd j) c l1 H1 H2 Hex Hn H4 Hc1) as H5.
    destruct (Install_begin _ _ l1) as [c' l']. rewrite Hold, (sl_min _ _ Hs) in H5. exact H5.
Qed.

(** ** Adding a memtable *)

Lemma store_inv_fresh fresh fresh' h h' hv l :
  (forall i, fresh i = fresh' i) -> (forall i, h i = h' i) ->
  store_inv fresh h hv l -> store_inv fresh' h' hv l.
Proof.
  intros Hf Hh []. split; try done.
  - intros v x m. rewrite <- Hf. apply si_listed.
  - intros m x Hm. rewrite <- Hh. auto.
  - intros m. by rewrite <- Hh.
  - rewrite si_usage. apply ksum_ext. intros. by rewrite Hf.
Qed.

Lemma MemTableList_Add_eq m l :
  num_flush_not_started_ l <= Z.of_nat (length (memlist_ (cur l))) ->
  MemTableList_Add m l = add_ends m (Version_Add (current_ (InstallNewVersion l)) m (InstallNewVersion l)).
Proof.
  intros Hn. unfold MemTableList_Add. by rewrite ml_assert_true by (apply Z.geb_le; lia).
Qed.

Lemma add_ends_eq m l z :
  mems l !! m = Some z -> needed_ok l -> 0 <= num_flush_not_started_ l ->
  add_ends m l = (update_mem m (fun x => x <| read_only_ := true |>) l)
    <| num_flush_not_started_ ::= Z.succ |> <| imm_flush_needed := true |>.
Proof.
  intros Hz Hneed H0. unfold add_ends.
  set (l1 := _ <| num_flush_not_started_ ::= Z.succ |>).
  destruct (Z.eqb_spec (num_flush_not_started_ l1) 1) as [E|E]; [done|].
  assert (Hn : imm_flush_needed l1 = true).
  { change (imm_flush_needed l = true). rewrite Hneed. apply Z.gtb_lt. cbn in E. lia. }
  unfold l1 in *. destruct l. cbn in *. by rewrite Hn.
Qed.

Lemma add_ends_at m l0 l z i :
  frame l0 l -> mems l !! m = Some z -> needed_ok l -> 0 <= num_flush_not_started_ l ->
  flush_in_progress_ (mem_at i (add_ends m l)) = flush_in_progress_ (mem_at i l0) /\
  flush_completed_ (mem_at i (add_ends m l)) = flush_completed_ (mem_at i l0) /\
  file_number_ (mem_at i (add_ends m l)) = file_number_ (mem_at i l0) /\
  edit_ (mem_at i (add_ends m l)) = edit_ (mem_at i l0).
Proof.
  intros Hf Hz Hneed H0. rewrite (add_ends_eq _ _ _ Hz Hneed H0). set (f := fun x : MemTable => _ : MemTable).
  change (mem_at i (_ <| imm_flush_needed := true |>)) with (mem_at i (update_mem m f l)).
  destruct (unref_flags _ _ (frame_at l0 l i Hf)) as (<- & <- & <- & <- & _).
  rewrite (mem_at_update _ _ _ _ _ Hz). case_decide; [|done]. subst i. by rewrite (mem_at_Some _ _ _ Hz).
Qed.

Lemma add_ends_flags fresh inf c m l0 l z :
  flags_inv fresh None inf l0 -> needed_ok l0 -> commit_ok c l0 -> fresh m = true -> m ∉ memlist_ (cur l0) ->
  frame l0 l -> mems l !! m = Some z -> memlist_ (cur l) = m :: memlist_ (cur l0) ->
  let l' := add_ends m l in
  flags_inv (unfresh m fresh) None inf l' /\ needed_ok l' /\ commit_ok c l' /\ oldest l' = oldest l0 ++ [m] /\
  min_write_buffer_number_to_merge_ l' = min_write_buffer_number_to_merge_ l0.
Proof.
  intros Hfl Hneed0 Hc Hf Hm Hfr Hz Hlist. cbv zeta. pose proof (frame_needed _ _ Hfr Hneed0) as Hneed.
  pose proof (count_if_bounds (waiting l0) (memlist_ (cur l0))) as Hcb.
  assert (Hnum : num_flush_not_started_ l = count_if (waiting l0) (memlist_ (cur l0)))
    by (rewrite (fr_num _ _ Hfr); apply (fl_num _ _ _ _ Hfl)).
  assert (H0 : 0 <= num_flush_not_started_ l) by lia.
  assert (Hat : forall i, _) by (intros i; exact (add_ends_at m l0 l z i Hfr Hz Hneed H0)).
  pose proof (add_ends_eq _ _ _ Hz Hneed H0) as E. set (l' := add_ends m l) in *.
  assert (Hml : memlist_ (cur l') = m :: memlist_ (cur l0)) by (by rewrite E).
  assert (Hold : oldest l' = oldest l0 ++ [m]) by (unfold oldest; by rewrite Hml).
  assert (Hnum' : num_flush_not_started_ l' = Z.succ (num_flush_not_started_ l)) by (by rewrite E).
  pose proof (fl_fresh _ _ _ _ Hfl m Hf) as Hp.
  split; [|split; [|split; [|split; [done|]]]].
  - split; [| | | |apply (fl_nodup _ _ _ _ Hfl)|].
    + rewrite Hml, Hnum', Hnum. cbn. fold (count_if (waiting l') (memlist_ (cur l0))).
      rewrite (count_if_ext (waiting l') (waiting l0)).
      2: { intros i _. unfold waiting. by destruct (Hat i) as (-> & _). }
      unfold waiting at 2. destruct (Hat m) as (-> & _). rewrite Hp. cbn. lia.
    + intros i. destruct (Hat i) as (-> & -> & -> & _). apply (fl_completed _ _ _ _ Hfl).
    + intros i. destruct (Hat i) as (_ & -> & -> & ->). apply (fl_not_completed _ _ _ _ Hfl).
    + intros i. destruct (Hat i) as (-> & _). unfold unfresh. case_decide; [done|]. apply (fl_fresh _ _ _ _ Hfl).
    + intros i. destruct (Hat i) as (-> & -> & _). rewrite Hml, elem_of_cons, (fl_inflight _ _ _ _ Hfl).
      intuition congruence.
  - unfold needed_ok. rewrite Hnum'. rewrite E. cbn. symmetry. apply Z.gtb_lt. lia.
  - assert (Ec : commit_in_progress_ l' = commit_in_progress_ l0) by (rewrite E; apply (fr_commit _ _ Hfr)).
    unfold commit_ok in *. rewrite Hold, Ec. destruct c as [[n es]|].
    + destruct Hc as (? & ? & Hb). split; [done|]. rewrite length_app. split; [lia|].
      rewrite take_app_le by lia. intros i Hi. destruct (Hat i) as (_ & -> & _). by apply Hb.
    + destruct Hc as (? & Hb). split; [done|]. intros i Hi. destruct (Hat i) as (_ & -> & _).
      destruct (oldest l0) as [|o os]; [|by apply Hb]. injection Hi as <-.
      destruct (flush_completed_ (mem_at m l0)) eqn:Em; [|done].
      destruct (fl_completed _ _ _ _ Hfl m Em). congruence.
  - rewrite E. apply (fr_min _ _ Hfr).
Qed.

Lemma MemTableList_Add_inv fresh h hv inf c m l :
  store_inv fresh h hv l -> flags_inv fresh None inf l -> needed_ok l -> commit_ok c l ->
  is_Some (mems l !! m) -> fresh m = true -> 1 <= h m ->
  let l' := MemTableList_Add m l in
  store_inv (unfresh m fresh) (held m (-1) h) hv l' /\ flags_inv (unfresh m fresh) None inf l' /\ needed_ok l' /\
  commit_ok c l' /\ oldest l' = oldest l ++ [m] /\
  min_write_buffer_number_to_merge_ l' = min_write_buffer_number_to_merge_ l /\ stable hv l l'.
Proof.
  intros Hst Hfl Hneed Hc [z Hz] Hf Hh. cbv zeta. pose proof (InstallNewVersion_stable _ _ _ _ Hst) as Hst1. destruct (memlist_ok _ _ _ _ Hst) as (Hx & Hnd & Hsome).
  pose proof (fl_num _ _ _ _ Hfl) as Hnum.
  pose proof (count_if_bounds (waiting l) (memlist_ (cur l))) as Hcb.
  rewrite MemTableList_Add_eq by lia.
  destruct (InstallNewVersion_inv _ _ _ _ _ Hst Hx) as (y & Hy & H1 & H2 & H3 & _ & H5 & _).
  set (l1 := InstallNewVersion l) in *.
  destruct (frame_Some _ _ _ _ H2 Hz) as (z1 & Hz1 & _).
  destruct (Version_Add_inv fresh (held m (-1) h) hv l1 (current_ l1) y m z1) as
    (y2 & Hy2 & H7 & H8 & H9' & H10 & _); try done.
  { apply (store_inv_ext fresh h); [|done]. intros i. unfold held. case_decide; lia. }
  { intros i. unfold held. pose proof (si_h _ _ _ _ Hst i). case_decide; [subst; lia|lia]. }
  set (l2 := Version_Add (current_ l1) m l1) in *.
  pose proof (stable_only _ _ _ _ _ _ H1 Hy H5 H9') as Hst2. destruct H9' as (H9 & _). rewrite <- H9 in Hy2.
  assert (Hcur2 : memlist_ (cur l2) = m :: memlist_ (cur l)).
  { unfold cur at 1. by rewrite (version_at_Some _ _ _ Hy2), H10, H3. }
  assert (Hfr : frame l l2) by (by transitivity l1).
  destruct (frame_Some _ _ _ _ Hfr Hz) as (z2 & Hz2 & _).
  split.
  - rewrite (add_ends_eq m l2 z2); [|done|by apply (frame_needed l)|rewrite (fr_num _ _ Hfr); lia].
    apply (store_inv_same _ _ _ (update_mem m (fun x => x <| read_only_ := true |>) l2)); try done.
    by apply (store_inv_update _ _ _ _ _ _ z2).
  - destruct (add_ends_flags fresh inf c m l l2 z2) as (H11 & H12 & H13 & H14 & H15); try done.
    { intros Hm. destruct (Hsome m Hm). congruence. }
    repeat (split; [done|]). eapply stable_trans; [exact Hst1|]. eapply stable_trans; [exact Hst2|].
    apply stable_same. unfold add_ends. by destruct (_ =? 1).
Qed.

(** ** The invariant of the reachable states *)

Record inv (min_merge : Z) (s : Flushing) : Prop := {
  inv_store : store_inv (never_added s) (mem_holders s) (version_holders s) (imm s);
  inv_flags : flags_inv (never_added s) None (flat_map mems_ (jobs s)) (imm s);
  inv_needed : needed_ok (imm s);
  inv_commit : commit_ok (committing s) (imm s);
  inv_jobs : Forall (fun j => mems_ j <> [] /\ 0 < meta_fd j) (jobs s);
  inv_added : added s = committed s ++ oldest (imm s);
  inv_once : NoDup (added s);
  inv_min : min_write_buffer_number_to_merge_ (imm s) = min_merge
}.

Lemma not_listed_refs fresh h hv l m :
  store_inv fresh h hv l -> fresh m = true \/ mems l !! m = None -> version_refs m (versions l) = 0.
Proof.
  intros Hst Hm. unfold version_refs. rewrite (ksum_ext _ (fun _ _ => 0)).
  - unfold ksum. induction (versions l) as [|v x vs Hv IH] using map_ind; [done|].
    rewrite map_fold_insert_L; [by rewrite IH|intros; lia|done].
  - intros v x Hv. apply occ_absent. intros Hin. destruct (si_listed _ _ _ _ Hst v x m Hv Hin) as [[? ?] ?].
    destruct Hm; congruence.
Qed.

(** Memtables that are not in the list may change. *)
Lemma store_inv_outside fresh h k hv l m y :
  store_inv fresh h hv l -> fresh m = true -> 0 <= h m + k -> refs_ y = h m + k ->
  0 <= ApproximateMemoryUsage y -> (m ∈ to_delete l -> refs_ y = 0) ->
  store_inv fresh (held m k h) hv (l <| mems ::= <[m := y]> |>).
Proof.
  intros Hst Hf Hk Hr Hu Hdel. pose proof (not_listed_refs _ _ _ _ m Hst (or_introl Hf)) as Hz. destruct Hst.
  split; cbn [ml_ok versions current_ next_version mems current_memory_usage_ to_delete set]; try done.
  - intros v x i Hv Hi. destruct (si_listed v x i Hv Hi) as [? ?]. rewrite lookup_insert_ne; [done|congruence].
  - intros i x. destruct (decide (i = m)) as [->|].
    + rewrite lookup_insert_eq, held_same. intros [= <-]. lia.
    + rewrite lookup_insert_ne, held_other by done. apply si_refs.
  - intros i. unfold held. specialize (si_h i). case_decide; [subst; lia|lia].
  - rewrite si_usage. destruct (mems l !! m) as [z|] eqn:Em.
    + rewrite (ksum_insert _ _ _ _ _ Em), Hf. lia.
    + rewrite ksum_insert_fresh, Hf by done. lia.
  - intros i Hi. destruct (si_deleted i Hi) as [? ?]. unfold mem_at in *. cbn [mems set].
    destruct (decide (i = m)) as [->|]; [|by rewrite lookup_insert_ne].
    rewrite lookup_insert_eq. cbn. auto.
Qed.

Lemma flags_outside fresh inf l m y :
  flags_inv fresh None inf l -> m ∉ memlist_ (cur l) -> flush_in_progress_ y = false ->
  flush_completed_ y = false -> file_number_ y = 0 -> e_files (edit_ y) = [] ->
  flags_inv fresh None inf (l <| mems ::= <[m := y]> |>).
Proof.
  intros [] Hm Hp Hc Hf He.
  assert (Hat : forall i, mem_at i (l <| mems ::= <[m := y]> |>) = if decide (i = m) then y else mem_at i l).
  { intros i. unfold mem_at. cbn [mems set]. case_decide; [subst; by rewrite lookup_insert_eq|by rewrite lookup_insert_ne]. }
  split; [| | | |done|].
  - change (num_flush_not_started_ (l <| mems ::= <[m := y]> |>)) with (num_flush_not_started_ l).
    change (cur (l <| mems ::= <[m := y]> |>)) with (cur l).
    rewrite fl_num0. apply count_if_ext. intros i Hi. unfold waiting. rewrite Hat, decide_False; [done|congruence].
  - intros i. rewrite Hat. case_decide; [congruence|apply fl_completed0].
  - intros i. rewrite Hat. case_decide; [done|apply fl_not_completed0].
  - intros i. rewrite Hat. case_decide; [done|apply fl_fresh0].
  - intros i. rewrite Hat, fl_inflight0. case_decide; [subst i|done].
    change (cur (l <| mems ::= <[m := y]> |>)) with (cur l). tauto.
Qed.

Lemma commit_outside fresh inf c l m y :
  flags_inv fresh None inf l -> commit_ok c l -> m ∉ memlist_ (cur l) ->
  commit_ok c (l <| mems ::= <[m := y]> |>).
Proof.
  intros _ Hc Hm.
  assert (Hat : forall i, i ∈ oldest l -> mem_at i (l <| mems ::= <[m := y]> |>) = mem_at i l).
  { intros i Hi. apply oldest_in in Hi. unfold mem_at. cbn [mems set]. rewrite lookup_insert_ne; [done|congruence]. }
  unfold commit_ok in *. change (oldest (l <| mems ::= <[m := y]> |>)) with (oldest l).
  destruct c as [[n es]|].
  - destruct Hc as (? & ? & Hb). split; [done|]. split; [done|]. intros i Hi. rewrite Hat; [by apply Hb|].
    rewrite <- (take_drop n (oldest l)), elem_of_app. by left.
  - destruct Hc as (? & Hb). split; [done|]. intros i Hi. rewrite Hat; [by apply Hb|].
    destruct (oldest l); [done|]. injection Hi as ->. left.
Qed.

(** Operations on references, seen from the flags and the committing thread. *)
Lemma frame_flags fresh inf c l l' :
  frame l l' -> memlist_ (cur l') = memlist_ (cur l) -> flags_inv fresh None inf l -> needed_ok l -> commit_ok c l ->
  flags_inv fresh None inf l' /\ needed_ok l' /\ commit_ok c l' /\ oldest l' = oldest l /\
  min_write_buffer_number_to_merge_ l' = min_write_buffer_number_to_merge_ l.
Proof.
  intros Hf Hm Hfl Hn Hc. split; [by apply (flags_frame fresh None inf l)|]. split; [by apply (frame_needed l)|].
  split; [|split; [unfold oldest; by rewrite Hm|apply (fr_min _ _ Hf)]].
  apply (commit_ok_quiet c l); [|done]. split; [split; [done|apply (fr_commit _ _ Hf)|apply (fr_min _ _ Hf)]|].
  intros m. by destruct (unref_flags _ _ (frame_at l l' m Hf)) as (_ & -> & _).
Qed.

Lemma same_versions_memlist l l' : same_versions l l' -> memlist_ (cur l') = memlist_ (cur l).
Proof. intros (E1 & E2 & _). unfold cur, version_at. by rewrite E1, E2. Qed.

(** Dropping one of several references to a memtable that was not added yet. *)
Lemma UnrefMemTable_kept fresh h hv l m x :
  store_inv fresh h hv l -> 1 <= h m -> mems l !! m = Some x -> 2 <= refs_ x ->
  store_inv fresh (held m (-1) h) hv (UnrefMemTable m l) /\ frame l (UnrefMemTable m l) /\
  same_versions l (UnrefMemTable m l).
Proof.
  intros Hst Hh Hx Hr. unfold UnrefMemTable. rewrite (update_mem_eq _ _ _ _ Hx).
  set (l1 := l <| mems := _ |>).
  assert (Hx1 : mems l1 !! m = Some (x <| refs_ ::= Z.pred |>)) by apply lookup_insert_eq.
  rewrite (mem_at_Some _ _ _ Hx1), (ml_assert_true _ l1) by (apply Z.geb_le; cbn; lia).
  rewrite (mem_at_Some _ _ _ Hx1). rewrite (proj2 (Z.leb_gt _ 0)) by (cbn; lia).
  pose proof (set_refs_inv fresh h (held m (-1) h) hv l m x (-1) [] Hst Hx) as Hset.
  assert (Hc : (if fresh m then 0 else counted (x <| refs_ ::= fun r => r + -1 |>) - counted x) = 0).
  { destruct (fresh m); [done|]. unfold counted. cbn [refs_ ApproximateMemoryUsage set].
    rewrite !(proj2 (Z.gtb_lt _ _)) by lia. lia. }
  rewrite Hc in Hset.
  assert (Hl : l1 = l <| mems := <[m := x <| refs_ ::= fun r => r + -1 |>]> (mems l) |> <| to_delete ::= app [] |>
          <| current_memory_usage_ ::= fun u => u + 0 |>).
  { unfold l1. destruct l; cbn. f_equal; lia. }
  split; [rewrite Hl; apply Hset; [done|lia|by left|lia]|].
  split; [|done]. unfold l1. destruct l. apply (frame_refs _ m x _ _ _ Hx).
Qed.

Lemma flags_perm fresh ex inf inf' l :
  inf ≡ₚ inf' -> flags_inv fresh ex inf l -> flags_inv fresh ex inf' l.
Proof.
  intros Hp []. split; try done.
  - by rewrite <- Hp.
  - intros m. rewrite <- fl_inflight0. by rewrite Hp.
Qed.

Lemma flags_fresh fresh fresh' ex inf l :
  (forall i, fresh i = fresh' i) -> flags_inv fresh ex inf l -> flags_inv fresh' ex inf l.
Proof. intros Hf []. split; try done. intros m. rewrite <- Hf. apply fl_fresh0. Qed.

(** The steps that only change references. *)
Lemma references_step min_merge s l h hv :
  inv min_merge s -> store_inv (never_added s) h hv l -> frame (imm s) l ->
  memlist_ (cur l) = memlist_ (cur (imm s)) ->
  inv min_merge (mkFlushing l (jobs s) (committing s) (added s) (committed s) (manifest s) h hv).
Proof.
  intros [] Hst Hfr Hm. destruct (frame_flags _ _ _ _ _ Hfr Hm inv_flags0 inv_needed0 inv_commit0)
    as (H1 & H2 & H3 & H4 & H5).
  split; cbn; try done; congruence.
Qed.

Lemma step_new_inv min_merge s m x :
  inv min_merge s -> mems (imm s) !! m = None -> never_added s m = true -> new_memtable x ->
  mem_holders s m = 0 ->
  inv min_merge (mkFlushing ((imm s) <| mems ::= <[m := x]> |>) (jobs s) (committing s) (added s)
    (committed s) (manifest s) (held m 1 (mem_holders s)) (version_holders s)).
Proof.
  intros [] Hm Hna (Hr & Hp & Hc & Hf & He & Hu) Hh.
  assert (Hnot : m ∉ memlist_ (cur (imm s))).
  { intros Hin. destruct (memlist_ok _ _ _ _ inv_store0) as (_ & _ & Hs). destruct (Hs m Hin). congruence. }
  split; cbn; try done.
  - apply store_inv_outside; [done|done|lia|lia|done|]. intros Hd.
    destruct (si_deleted _ _ _ _ inv_store0 m Hd) as [_ [? ?]]. congruence.
  - apply flags_outside; try done. by rewrite He.
  - by apply (commit_outside (never_added s) (flat_map mems_ (jobs s))).
Qed.

Lemma step_write_inv min_merge s m x y :
  inv min_merge s -> mems (imm s) !! m = Some x -> never_added s m = true -> written x y ->
  inv min_merge (set_imm ((imm s) <| mems ::= <[m := y]> |>) s).
Proof.
  intros [] Hm Hna (Hr & Hp & Hc & Hf & He & Hu). pose proof (mem_at_Some _ _ _ Hm) as Hat.
  assert (Hnot : m ∉ memlist_ (cur (imm s))).
  { intros Hin. destruct (memlist_ok _ _ _ _ inv_store0) as (_ & _ & Hs). destruct (Hs m Hin). congruence. }
  pose proof (not_listed_refs _ _ _ _ m inv_store0 (or_introl Hna)) as Hz.
  destruct (si_refs _ _ _ _ inv_store0 m x Hm) as [Hrx _].
  pose proof (fl_fresh _ _ _ _ inv_flags0 m Hna) as Hpx. rewrite Hat in Hpx.
  assert (Hcx : flush_completed_ x = false).
  { destruct (flush_completed_ x) eqn:E; [|done]. rewrite <- Hat in E.
    destruct (fl_completed _ _ _ _ inv_flags0 m E). congruence. }
  pose proof (fl_not_completed _ _ _ _ inv_flags0 m) as Hn. rewrite Hat in Hn. destruct (Hn Hcx) as [Hfx Hex].
  split; cbn; try done.
  - apply (store_inv_ext _ (held m 0 (mem_holders s))); [intros i; unfold held; case_decide; lia|].
    pose proof (si_h _ _ _ _ inv_store0 m). apply store_inv_outside; try done; try lia.
    intros Hd. destruct (si_deleted _ _ _ _ inv_store0 m Hd) as [Hd0 _]. rewrite Hat in Hd0. lia.
  - apply flags_outside; try done; [congruence..|]. rewrite He. by apply Hex.
  - by apply (commit_outside (never_added s) (flat_map mems_ (jobs s))).
Qed.

Lemma never_added_snoc s m i :
  negb (bool_decide (i ∈ added s ++ [m])) = unfresh m (never_added s) i.
Proof.
  unfold unfresh, never_added. case_decide as Hd; [subst i|f_equal; apply bool_decide_ext].
  - rewrite bool_decide_eq_true_2; [done|]. apply elem_of_app. right. left.
  - rewrite elem_of_app, list_elem_of_singleton. tauto.
Qed.

Lemma step_add_inv min_merge s m :
  inv min_merge s -> is_Some (mems (imm s) !! m) -> never_added s m = true -> 1 <= mem_holders s m ->
  inv min_merge (mkFlushing (MemTableList_Add m (imm s)) (jobs s) (committing s) (added s ++ [m]) (committed s)
    (manifest s) (held m (-1) (mem_holders s)) (version_holders s)).
Proof.
  intros [] Hm Hna Hh. destruct (MemTableList_Add_inv _ _ _ _ _ m _ inv_store0 inv_flags0 inv_needed0 inv_commit0 Hm Hna Hh)
    as (H1 & H2 & H3 & H4 & H5 & H6 & _).
  pose proof (never_added_snoc s m) as Hfresh.
  split; cbn; try done.
  - eapply store_inv_fresh; [|done|exact H1]. intros i. by rewrite <- Hfresh.
  - eapply flags_fresh; [|exact H2]. intros i. by rewrite <- Hfresh.
  - by rewrite inv_added0, H5, app_assoc.
  - apply NoDup_app. split; [done|]. split; [|apply NoDup_singleton]. intros i Hi ->%list_elem_of_singleton.
    unfold never_added in Hna. by rewrite bool_decide_eq_true_2 in Hna.
  - congruence.
Qed.

Lemma step_unref_mem_inv min_merge s m x :
  inv min_merge s -> mems (imm s) !! m = Some x -> (m ∈ added s \/ 2 <= refs_ x) -> 1 <= mem_holders s m ->
  inv min_merge (mkFlushing (UnrefMemTable m (imm s)) (jobs s) (committing s) (added s) (committed s)
    (manifest s) (held m (-1) (mem_holders s)) (version_holders s)).
Proof.
  intros Hinv Hx Hor Hh. pose proof (inv_store _ _ Hinv) as Hst.
  assert (Hu : store_inv (never_added s) (held m (-1) (mem_holders s)) (version_holders s) (UnrefMemTable m (imm s)) /\
    frame (imm s) (UnrefMemTable m (imm s)) /\ same_versions (imm s) (UnrefMemTable m (imm s))).
  { destruct Hor as [Ha|Hr]; [|by apply (UnrefMemTable_kept _ _ _ _ _ x)].
    apply (UnrefMemTable_inv _ _ _ _ _ x); [|rewrite held_same; lia|done|].
    - apply (store_inv_ext _ (mem_holders s)); [|done]. intros i. unfold held. case_decide; lia.
    - unfold never_added. by rewrite bool_decide_eq_true_2. }
  destruct Hu as (H1 & H2 & H3). apply references_step; [done|done|done|by apply same_versions_memlist].
Qed.

Lemma step_ref_mem_inv min_merge s m x :
  inv min_merge s -> mems (imm s) !! m = Some x -> 1 <= refs_ x ->
  inv min_merge (mkFlushing (RefMemTable m (imm s)) (jobs s) (committing s) (added s) (committed s)
    (manifest s) (held m 1 (mem_holders s)) (version_holders s)).
Proof.
  intros Hinv Hx Hr. destruct (RefMemTables_inv _ _ [m] _ _ (inv_store _ _ Hinv)) as (H1 & H2 & H3 & _).
  { intros i ->%list_elem_of_singleton. exists x. split; [done|lia]. }
  apply references_step; [done| |done|by apply same_versions_memlist].
  eapply store_inv_ext; [|exact H1]. intros i. unfold held, held_list. rewrite occ_cons, occ_nil.
  destruct (decide (m = i)), (decide (i = m)); congruence || lia.
Qed.

Lemma only_version_memlist v x y l l' :
  only_version v l l' -> versions l !! v = Some x -> (v = current_ l -> versions l' !! v = Some y) ->
  memlist_ y = memlist_ x -> memlist_ (cur l') = memlist_ (cur l).
Proof.
  intros (E1 & _ & Ho) Hx Hy Hm. unfold cur, version_at. rewrite E1.
  destruct (decide (v = current_ l)) as [Hv|Hv].
  - specialize (Hy Hv). rewrite <- Hv, Hy, Hx. done.
  - rewrite Ho; [done|congruence].
Qed.

Lemma step_ref_version_inv min_merge s v :
  inv min_merge s -> is_Some (versions (imm s) !! v) ->
  inv min_merge (mkFlushing (Version_Ref v (imm s)) (jobs s) (committing s) (added s) (committed s)
    (manifest s) (mem_holders s) (held v 1 (version_holders s))).
Proof.
  intros Hinv [x Hx]. destruct (Version_Ref_inv _ _ _ _ v x (inv_store _ _ Hinv) Hx) as (H1 & H2 & H3 & H4).
  apply references_step; [done|done|done|].
  by apply (only_version_memlist v x (x <| v_refs_ ::= Z.succ |>)).
Qed.

Lemma store_inv_holders fresh h hv hv' l :
  (forall w, hv w = hv' w) -> store_inv fresh h hv l -> store_inv fresh h hv' l.
Proof.
  intros Hw []. split; try done.
  - intros v x Hx. rewrite <- Hw. auto.
  - intros v. by rewrite <- Hw.
Qed.

Lemma Version_Unref_held fresh h hv l v x :
  store_inv fresh h hv l -> 1 <= hv v -> versions l !! v = Some x ->
  let l' := Version_Unref true v l in
  store_inv fresh h (held v (-1) hv) l' /\ frame l l' /\ only_version v l l' /\
  (1 < v_refs_ x -> versions l' !! v = Some (x <| v_refs_ ::= Z.pred |>)) /\
  (v = current_ l -> 1 < v_refs_ x).
Proof.
  intros Hst Hv Hx. apply Version_Unref_inv; [|intros w; unfold held; pose proof (proj1 (si_hv _ _ _ _ Hst w));
    case_decide; [subst; lia|lia]|done].
  eapply store_inv_holders; [|exact Hst]. intros w. unfold held. case_decide; lia.
Qed.

Lemma step_unref_version_inv min_merge s v :
  inv min_merge s -> 1 <= version_holders s v ->
  inv min_merge (mkFlushing (Version_Unref true v (imm s)) (jobs s) (committing s) (added s) (committed s)
    (manifest s) (mem_holders s) (held v (-1) (version_holders s))).
Proof.
  intros Hinv Hv. pose proof (inv_store _ _ Hinv) as Hst.
  destruct (versions (imm s) !! v) as [x|] eqn:Hx.
  2: { destruct (si_hv _ _ _ _ Hst v) as [_ H0]. specialize (H0 Hx). lia. }
  destruct (Version_Unref_held _ _ _ _ v x Hst Hv Hx) as (H1 & H2 & H3 & H4 & H5).
  apply references_step; [done|done|done|].
  apply (only_version_memlist v x (x <| v_refs_ ::= Z.pred |>)); [done|done| |done]. auto.
Qed.

Lemma job_starts_inv min_merge s n : inv min_merge s -> 0 < n -> inv min_merge (job_starts n s).
Proof.
  intros [] Hn. unfold job_starts.
  pose proof (PickMemTable_inv _ _ _ _ n _ inv_store0 inv_flags0 inv_needed0) as H.
  destruct (PickMemTable n (imm s)) as [j l]. destruct H as (H1 & H2 & H3 & H4 & H5 & H6).
  assert (Hold : oldest l = oldest (imm s)) by (unfold oldest; by rewrite (sl_memlist _ _ H3)).
  split; cbn; try done.
  - destruct (mems_ j) as [|m ms] eqn:Ej; [by rewrite app_nil_r in H5|].
    rewrite flat_map_app. cbn [flat_map]. by rewrite app_nil_r, Ej.
  - by apply (commit_ok_quiet _ (imm s)).
  - destruct (mems_ j) eqn:Ej; [done|]. apply Forall_app. split; [done|]. apply Forall_singleton.
    rewrite Ej. split; [done|]. by rewrite H6.
  - by rewrite Hold.
  - by rewrite (sl_min _ _ H3).
Qed.

Lemma job_ends_inv min_merge s i j st empty abandoned :
  inv min_merge s -> jobs s !! i = Some j -> inv min_merge (job_ends st empty abandoned i j s).
Proof.
  intros [] Hj. unfold job_ends. pose proof (delete_Permutation _ _ _ Hj) as Hp.
  rewrite Forall_forall in inv_jobs0.
  destruct (inv_jobs0 j) as [Hne Hfd]; [by eapply list_elem_of_lookup_2|].
  assert (Hfl : flags_inv (never_added s) None (mems_ j ++ flat_map mems_ (delete i (jobs s))) (imm s)).
  { eapply flags_perm; [|exact inv_flags0]. etrans; [apply Permutation_flat_map, Hp|done]. }
  pose proof (FlushJob_finish_inv _ _ _ _ st empty abandoned j (committing s) _ inv_store0 Hfl Hne Hfd
    inv_needed0 inv_commit0) as H.
  destruct (FlushJob_finish st empty abandoned j (imm s)) as [c l].
  destruct H as (H1 & H2 & H3 & H4 & H5 & H6 & _).
  split; cbn; try done; [|by rewrite H5|by rewrite H6].
  apply Forall_forall. intros k Hk. apply inv_jobs0. rewrite Hp. by right.
Qed.

Lemma batch_ends_inv min_merge s st b :
  inv min_merge s -> committing s = Some b -> inv min_merge (batch_ends st b s).
Proof.
  intros [] Hb. unfold batch_ends. rewrite Hb in inv_commit0. destruct b as [n es]. cbn [fst snd].
  pose proof (Install_resume_inv _ _ _ _ st n es _ inv_store0 inv_flags0 inv_needed0 inv_commit0) as H.
  destruct (Install_resume st n (imm s)) as [c l]. destruct H as (H1 & H2 & H3 & H4 & H5 & H6 & _).
  split; cbn; try done; [|by rewrite H6]. fold (oldest (imm s)). rewrite H5, inv_added0.
  destruct (ok st); [|done]. by rewrite <- app_assoc, take_drop.
Qed.

Lemma Flushing_init_inv min_merge maintain : inv min_merge (Flushing_init min_merge maintain).
Proof.
  split; cbn; try done.
  - split; cbn [ml_ok versions current_ next_version mems current_memory_usage_ to_delete MemTableList_init].
    + done.
    + rewrite lookup_singleton_eq. eauto.
    + intros v x. destruct (decide (v = 0%nat)) as [->|].
      * rewrite lookup_singleton_eq. intros [= <-]. cbn. split; [lia|]. split; [constructor|]. done.
      * by rewrite lookup_singleton_ne.
    + done.
    + intros v x m. destruct (decide (v = 0%nat)) as [->|]; [|by rewrite lookup_singleton_ne].
      rewrite lookup_singleton_eq. intros [= <-] Hm. by apply not_elem_of_nil in Hm.
    + intros m x. by rewrite lookup_empty.
    + done.
    + done.
    + intros m Hm. by apply not_elem_of_nil in Hm.
    + constructor.
  - assert (Hat : forall m, mem_at m (MemTableList_init min_merge maintain) = null_mem)
      by (intros m; unfold mem_at; cbn; by rewrite lookup_empty).
    split; try done; try (intros m; rewrite Hat; done).
    + constructor.
    + intros m. split; [intros Hm; by apply not_elem_of_nil in Hm|]. by intros [Hm%not_elem_of_nil _].
  - constructor.
Qed.

Lemma Flushing_step_inv min_merge s s' : inv min_merge s -> Flushing_step s s' -> inv min_merge s'.
Proof.
  intros Hinv Hstep. destruct Hstep.
  - by apply step_new_inv.
  - by eapply step_write_inv.
  - by apply step_add_inv.
  - by eapply step_ref_mem_inv.
  - by eapply step_unref_mem_inv.
  - by apply step_ref_version_inv.
  - by apply step_unref_version_inv.
  - destruct Hinv. split; cbn; try done; [by apply (store_inv_same _ _ _ (imm s))|by destruct inv_flags0].
  - by apply job_starts_inv.
  - by apply job_ends_inv.
  - by apply batch_ends_inv.
Qed.

Lemma Flushing_reachable_inv min_merge maintain s : Flushing_reachable min_merge maintain s -> inv min_merge s.
Proof. induction 1; [apply Flushing_init_inv|by eapply Flushing_step_inv]. Qed.

(** Picking, giving back and marking do not touch versions. *)
Lemma pick_same_versions ms : forall ret l,
  same_versions l (snd (foldl (fun acc m => pick_one m acc) (ret, l) ms)).
Proof.
  induction ms as [|m ms IH]; intros ret l; cbn [foldl]; [done|].
  destruct (pick_one m (ret, l)) as [r1 l1] eqn:E. eapply same_versions_trans; [|apply IH].
  revert E. unfold pick_one. destruct (negb _); [|by intros [= <- <-]].
  destruct (_ =? 0); by intros [= <- <-].
Qed.

Lemma PickMemTable_same_versions n l : same_versions l (snd (PickMemTable n l)).
Proof.
  unfold PickMemTable, PickMemtablesToFlush. pose proof (pick_same_versions (rev (memlist_ (cur l))) [] l) as H.
  destruct (foldl _ _ _) as [ret l1]. cbn in H. by destruct ret.
Qed.

Lemma mark_completed_same_versions n ms : forall first l, same_versions l (mark_completed first n ms l).
Proof.
  induction ms as [|m ms IH]; intros first l; cbn [mark_completed]; [done|].
  eapply same_versions_trans; [|apply IH]. done.
Qed.

Lemma Install_scan_same_versions l : same_versions l (snd (Install_scan l)).
Proof. unfold Install_scan. by destruct (_ || _). Qed.

Lemma FlushJob_finish_same_versions st empty abandoned j l :
  same_versions l (snd (FlushJob_finish st empty abandoned j l)).
Proof.
  unfold FlushJob_finish. destruct (mems_ j) as [|m ms]; [done|]. set (l1 := if _ && _ then _ else l).
  apply (same_versions_trans l l1); [unfold l1; by destruct (_ && _)|].
  destruct (negb (ok st) || abandoned).
  - cbn [snd]. unfold RollbackMemtableFlush.
    apply (same_versions_foldl rollback_one (m :: ms) ltac:(done) (ml_assert _ l1)).
  - unfold Install_begin.
    pose proof (mark_completed_same_versions (meta_fd j) (m :: ms) true l1) as H. revert H.
    generalize (mark_completed true (meta_fd j) (m :: ms) l1). intros l2 H. destruct (commit_in_progress_ l2); [done|].
    eapply same_versions_trans; [exact H|]. 
    eapply same_versions_trans; [|apply Install_scan_same_versions]. done.
Qed.

Lemma step_stable min_merge s s' v x :
  inv min_merge s -> Flushing_step s s' -> 1 <= version_holders s v -> 1 <= version_holders s' v ->
  versions (imm s) !! v = Some x ->
  exists x', versions (imm s') !! v = Some x' /\ same_memtables x x'.
Proof.
  intros Hinv Hstep Hv Hv' Hx. pose proof (inv_store _ _ Hinv) as Hst.
  assert (Hsame : forall l, same_versions (imm s) l -> exists x', versions l !! v = Some x' /\ same_memtables x x')
    by (intros l Hl; by apply (stable_same (version_holders s) (imm s) l)).
  destruct Hstep; cbn [imm version_holders set_imm] in *.
  - by apply Hsame.
  - by apply Hsame.
  - destruct Hinv. by apply (MemTableList_Add_inv _ _ _ _ _ m _ inv_store0 inv_flags0 inv_needed0 inv_commit0).
  - by apply Hsame.
  - apply Hsame. unfold UnrefMemTable. by destruct (_ <=? 0).
  - match goal with H : is_Some _ |- _ => destruct H as [y Hy] end.
    destruct (Version_Ref_inv _ _ _ _ _ y Hst Hy) as (_ & _ & (_ & _ & Ho) & E).
    destruct (decide (v = v0)) as [->|Hne]; [|rewrite Ho by done; eauto using same_memtables_refl].
    rewrite E. rewrite Hx in Hy. injection Hy as ->. by eexists.
  - destruct (versions (imm s) !! v0) as [y|] eqn:Hy.
    2: { pose proof (proj2 (si_hv _ _ _ _ Hst v0) Hy). lia. }
    destruct (Version_Unref_held _ _ _ _ v0 y Hst) as (_ & _ & (_ & _ & Ho) & E & _); [done|done|].
    destruct (decide (v = v0)) as [->|Hne]; [|rewrite Ho by done; eauto using same_memtables_refl].
    rewrite held_same in Hv'. destruct (si_version _ _ _ _ Hst v0 y Hy) as (_ & _ & _ & Er).
    rewrite E by (destruct (decide (v0 = current_ (imm s))); lia).
    rewrite Hx in Hy. injection Hy as ->. by eexists.
  - by apply Hsame.
  - unfold job_starts. pose proof (PickMemTable_same_versions n (imm s)) as H1. apply Hsame.
    by destruct (PickMemTable n (imm s)) as [j l].
  - unfold job_ends. pose proof (FlushJob_finish_same_versions st empty_file abandoned j (imm s)) as H1. apply Hsame.
    by destruct (FlushJob_finish _ _ _ _ _) as [c l].
  - unfold batch_ends. destruct b as [n es]. cbn [fst snd]. destruct Hinv.
    match goal with H : committing s = _ |- _ => rewrite H in inv_commit0 end.
    pose proof (Install_resume_inv _ _ _ _ st n es _ inv_store0 inv_flags0 inv_needed0 inv_commit0) as H1.
    destruct (Install_resume st n (imm s)) as [c l]. cbn. apply H1; done.
Qed.

(** ** Properties *)

(** C11: however readers, writers, flush jobs and the committing thread interleave, no
    assertion of the list fails and nothing deleted is used; the list's counter is
    the number of its memtables whose flush did not start, [imm_flush_needed] tells
    whether there is one, and a flush is pending only if the list is not empty;
    a memtable handed out for deletion is referenced by no one and listed in no
    version, and the memory in use is that of the added memtables still referenced. *)
Theorem memtable_list_safe (min_merge maintain : Z) (s : Flushing) :
  1 <= min_merge -> Flushing_reachable min_merge maintain s ->
  let l := imm s in
  ml_ok l = true /\ NumNotFlushed_assert l = true /\ IsFlushPending_assert l = true /\
  num_flush_not_started_ l = count_if (waiting l) (memlist_ (cur l)) /\
  imm_flush_needed l = (num_flush_not_started_ l >? 0) /\
  (IsFlushPending l = true -> NumNotFlushed l <> 0) /\
  NoDup (to_delete l) /\
  (forall m, m ∈ to_delete l -> mem_holders s m = 0 /\
     forall v x, versions l !! v = Some x -> m ∉ memlist_ x ++ memlist_history_ x) /\
  current_memory_usage_ l =
    ksum (fun m x => if bool_decide (m ∈ added s) && (refs_ x >? 0) then ApproximateMemoryUsage x else 0) (mems l).
Proof.
  intros Hmin Hr. cbv zeta. apply Flushing_reachable_inv in Hr. destruct Hr.
  pose proof (count_if_bounds (waiting (imm s)) (memlist_ (cur (imm s)))) as Hcb.
  pose proof (fl_num _ _ _ _ inv_flags0) as Hnum.
  assert (Hpend : IsFlushPending (imm s) = true -> 1 <= num_flush_not_started_ (imm s)).
  { unfold IsFlushPending. rewrite inv_min0. intros [[_ H]%andb_true_iff|H]%orb_true_iff; apply Z.geb_le in H; lia. }
  split; [apply (si_ok _ _ _ _ inv_store0)|].
  split; [apply Z.leb_le; unfold NumNotFlushed; lia|].
  split. { unfold IsFlushPending_assert. destruct (IsFlushPending (imm s)); [|done]. cbn. rewrite inv_needed0.
           apply Z.gtb_lt. specialize (Hpend eq_refl). lia. }
  split; [done|]. split; [done|].
  split; [intros H; specialize (Hpend H); unfold NumNotFlushed; lia|].
  split; [apply (si_deleted_once _ _ _ _ inv_store0)|]. split.
  - intros m Hm. destruct (si_deleted _ _ _ _ inv_store0 m Hm) as [H0 [z Hz]]. rewrite (mem_at_Some _ _ _ Hz) in H0.
    destruct (si_refs _ _ _ _ inv_store0 m z Hz) as [Hz0 _]. pose proof (occ_sum_nonneg m (versions (imm s))).
    pose proof (si_h _ _ _ _ inv_store0 m). split; [lia|]. intros v x Hx Hin.
    destruct (listed_refs _ _ _ _ _ _ _ inv_store0 Hx Hin) as (z' & Hz' & ?).
    assert (z' = z) by congruence. subst. lia.
  - rewrite (si_usage _ _ _ _ inv_store0). apply ksum_ext. intros m x _. unfold never_added, counted.
    by destruct (bool_decide (m ∈ added s)).
Qed.


(** C35: copy on write: while a reader holds a version of the list, no step of anyone
    changes the memtables the version lists, and none of them is deleted. *)
Theorem reader_version_stable (min_merge maintain : Z) (s s' : Flushing) (v : nat) :
  Flushing_reachable min_merge maintain s -> Flushing_step s s' ->
  1 <= version_holders s v -> 1 <= version_holders s' v ->
  exists x x', versions (imm s) !! v = Some x /\ versions (imm s') !! v = Some x' /\
    memlist_ x' = memlist_ x /\ memlist_history_ x' = memlist_history_ x /\
    forall m, m ∈ memlist_ x ++ memlist_history_ x -> m ∉ to_delete (imm s').
Proof.
  intros Hr Hstep Hv Hv'. apply Flushing_reachable_inv in Hr. pose proof (Flushing_step_inv _ _ _ Hr Hstep) as Hinv'.
  pose proof (inv_store _ _ Hr) as Hst. pose proof (inv_store _ _ Hinv') as Hst'.
  destruct (versions (imm s) !! v) as [x|] eqn:Hx.
  2: { pose proof (proj2 (si_hv _ _ _ _ Hst v) Hx). lia. }
  destruct (step_stable _ _ _ _ _ Hr Hstep Hv Hv' Hx) as (x' & Hx' & E1 & E2).
  exists x, x'. repeat (split; [done|]). intros m Hm Hd. rewrite <- E1, <- E2 in Hm.
  destruct (listed_refs _ _ _ _ _ _ _ Hst' Hx' Hm) as (z & Hz & Hpos).
  destruct (si_deleted _ _ _ _ Hst' m Hd) as [H0 _]. rewrite (mem_at_Some _ _ _ Hz) in H0. lia.
Qed.

(** *** A flush that is given back *)

(** A memtable of one write is filled and added; logs below [next_log] hold it. *)
Definition sample_mem (next_log : Z) : MemTable :=
  mkMemTable 1 false false 0 Edit_Clear next_log 10 0 1 0 1 false.

Definition fill (m : nat) (next_log : Z) (s : Flushing) : Flushing :=
  mkFlushing (MemTableList_Add m ((imm s) <| mems ::= <[m := sample_mem next_log]> |>)) (jobs s) (committing s)
    (added s ++ [m]) (committed s) (manifest s) (held m (-1) (held m 1 (mem_holders s))) (version_holders s).

Lemma reachable_fill min_merge maintain m next_log s :
  Flushing_reachable min_merge maintain s -> mems (imm s) !! m = None -> never_added s m = true -> mem_holders s m = 0 ->
  Flushing_reachable min_merge maintain (fill m next_log s).
Proof.
  intros Hr Hm Hn Hh.
  pose proof (reachable_step _ _ _ _ Hr (step_new s m (sample_mem next_log) Hm Hn ltac:(done) Hh)) as H1.
  unshelve refine (reachable_step _ _ _ _ H1 (step_add _ m _ _ _)); cbn; [|exact Hn|].
  - rewrite lookup_insert_eq. eauto.
  - rewrite held_same. lia.
Qed.

(** Two flushes of one memtable each; the first fails, and is picked again together
    with a memtable that is younger than the one being flushed. *)
Definition given_back : Flushing :=
  let s := fill 0 11 (Flushing_init 1 0) in
  let s := job_starts 101 s in
  let s := job_starts 102 (fill 1 12 s) in
  let s := fill 2 13 s in
  let s := job_ends (IOError String.EmptyString) false false 0 (mkFlushJob [0%nat] 101) s in
  let s := job_starts 103 s in
  let s := job_ends OK false false 1 (mkFlushJob [0%nat; 2%nat] 103) s in
  batch_ends OK (1%nat, [mkEdit (Some 13) [103]]) s.

Lemma given_back_reachable : Flushing_reachable 1 0 given_back.
Proof.
  unfold given_back. cbv zeta.
  refine (reachable_step _ _ _ _ _ (step_batch_ends _ OK (1%nat, [mkEdit (Some 13) [103]]) _)); [|by vm_compute].
  refine (reachable_step _ _ _ _ _ (step_job_ends _ 1 (mkFlushJob [0%nat; 2%nat] 103) OK false false _)); [|by vm_compute].
  refine (reachable_step _ _ _ _ _ (step_job_starts _ 103 _)); [|lia].
  refine (reachable_step _ _ _ _ _ (step_job_ends _ 0 (mkFlushJob [0%nat] 101) _ false false _)); [|by vm_compute].
  apply reachable_fill; [|by vm_compute..].
  refine (reachable_step _ _ _ _ _ (step_job_starts _ 102 _)); [|lia].
  apply reachable_fill; [|by vm_compute..].
  refine (reachable_step _ _ _ _ _ (step_job_starts _ 101 _)); [|lia].
  apply reachable_fill; [apply reachable_init|by vm_compute..].
Qed.

(** C36: when a flush is given back and picked again, its job can hold memtables on
    both sides of one that another job is still flushing.  The job's edit carries
    the log number of its youngest memtable, so committing its oldest one alone
    tells recovery to skip all logs of the memtable in between, which is in no
    table file yet. *)
Theorem rollback_skips_unflushed_logs :
  exists s m e n, Flushing_reachable 1 0 s /\ committing s = None /\
    m ∈ memlist_ (cur (imm s)) /\ flush_completed_ (mem_at m (imm s)) = false /\
    0 < num_entries_ (mem_at m (imm s)) /\
    e ∈ manifest s /\ e_log_number e = Some n /\ mem_next_logfile_number_ (mem_at m (imm s)) <= n.
Proof.
  exists given_back, 1%nat, (mkEdit (Some 13) [103]), 13.
  split; [apply given_back_reachable|]. split; [by vm_compute|].
  split; [apply list_elem_of_In; vm_compute; tauto|]. split; [by vm_compute|]. split; [by vm_compute|].
  split; [apply list_elem_of_In; vm_compute; tauto|]. split; [done|by vm_compute].
Qed.

(** *** Instances *)

Lemma memtable_list_safe_witness :
  NumNotFlushed_assert (imm given_back) = true /\ NumNotFlushed (imm given_back) = 2.
Proof.
  split; [|by vm_compute].
  apply (memtable_list_safe 1 0 given_back); [lia|apply given_back_reachable].
Defined.


(** A reader holds the first version while a memtable is added. *)
Definition reading : Flushing :=
  mkFlushing (Version_Ref 0 (imm (Flushing_init 1 0)) <| mems ::= <[0%nat := sample_mem 11]> |>) [] None [] [] []
    (held 0 1 (fun _ => 0)) (held 0 1 (fun _ => 0)).

Definition reading_added : Flushing :=
  mkFlushing (MemTableList_Add 0 (imm reading)) [] None [0%nat] [] [] (held 0 (-1) (held 0 1 (fun _ => 0)))
    (held 0 1 (fun _ => 0)).

Lemma reading_reachable : Flushing_reachable 1 0 reading.
Proof.
  pose proof (reachable_step _ _ _ _ (reachable_init 1 0) (step_ref_version (Flushing_init 1 0) 0
    (ex_intro _ _ eq_refl))) as H1.
  refine (reachable_step _ _ _ _ H1 (step_new _ 0 (sample_mem 11) _ _ _ _)); done.
Qed.

Lemma reading_step : Flushing_step reading reading_added.
Proof. apply (step_add reading 0); [by eexists|done|done]. Qed.

Lemma reader_version_stable_witness :
  exists x x', versions (imm reading) !! 0%nat = Some x /\ versions (imm reading_added) !! 0%nat = Some x' /\
    memlist_ x' = memlist_ x /\ memlist_ (cur (imm reading_added)) = [0%nat].
Proof.
  destruct (reader_version_stable 1 0 reading reading_added 0 reading_reachable reading_step)
    as (x & x' & H1 & H2 & H3 & _); [by vm_compute..|].
  exists x, x'. repeat (split; [done|]). by vm_compute.
Defined.
