(* ===== verification/VersionEdit.v ===== *)
(** * Version edits (db/version_edit.{h,cc})

    A version edit is one record of the manifest: the files a version of a column
    family gains and loses, with the numbers of logs, files and sequence that go
    with it.  [EncodeTo] writes tagged fields in a format that older releases can
    read as far as possible; [DecodeFrom] accepts all formats ever written.  The
    decoder is a function on a parser state that holds its local variables, since
    one of them, the [FileMetaData] it fills, carries over from field to field. *)

From Stdlib Require Import ZArith Lia String Sorting.Sorted.
From stdpp Require Import base list.
From S2P Require Import Prelude Coding DbFormat.
#[local] Open Scope Z_scope.

(** ** Files *)

Definition kFileNumberMask : Z := 0x3FFFFFFFFFFFFFFF.

Definition PackFileNumberAndPathId (number path_id : Z) : Z :=
  Z.lor number (u64 (path_id * (kFileNumberMask + 1))).
Definition PackFileNumberAndPathId_assert (number : Z) : bool := number <=? kFileNumberMask.

Record FileDescriptor := mkFd { packed_number_and_path_id : Z; file_size : Z }.

Definition FileDescriptor_make (number path_id size : Z) : FileDescriptor :=
  mkFd (PackFileNumberAndPathId number path_id) size.

Definition GetNumber (fd : FileDescriptor) : Z := Z.land (packed_number_and_path_id fd) kFileNumberMask.
Definition GetPathId (fd : FileDescriptor) : Z := u32 (packed_number_and_path_id fd / (kFileNumberMask + 1)).

(** The fields an edit carries.  [hll] is a shared pointer to the sketch the fork
    keeps of a file's keys, here the number of the object; the other statistics of
    the fork follow it ([reclaim_ratio] is never assigned and is left out). *)
Record FileMetaData := mkFile {
  fd : FileDescriptor;
  smallest : bytes;
  largest : bytes;
  smallest_seqno : Z;
  largest_seqno : Z;
  marked_for_compaction : bool;
  hll : nat;
  file_num_low : Z;
  file_num_high : Z;
  num_sst_next_level_overlap : Z;
  hll_add_count : Z
}.

#[export] Instance FileMetaData_settable : Settable FileMetaData := fun r =>
  mkFile (fd r) (smallest r) (largest r) (smallest_seqno r) (largest_seqno r)
    (marked_for_compaction r) (hll r) (file_num_low r) (file_num_high r)
    (num_sst_next_level_overlap r) (hll_add_count r).

(** The constructor allocates the sketch. *)
Definition FileMetaData_new (sketch : nat) : FileMetaData :=
  mkFile (FileDescriptor_make 0 0 0) [] [] kMaxSequenceNumber 0 false sketch
    (u64 (-1)) (u64 (-1)) (-1) 0.

(** [InternalKey::Valid]. *)
Definition InternalKey_Valid (rep : bytes) : bool :=
  match ParseInternalKey rep with Some _ => true | None => false end.

(** ** Edits *)

Record VersionEdit := mkVersionEdit {
  max_level_ : Z;
  comparator_ : bytes;
  log_number_ : Z;
  prev_log_number_ : Z;
  next_file_number_ : Z;
  max_column_family_ : Z;
  last_sequence_ : Z;
  has_comparator_ : bool;
  has_log_number_ : bool;
  has_prev_log_number_ : bool;
  has_next_file_number_ : bool;
  has_last_sequence_ : bool;
  has_max_column_family_ : bool;
  deleted_files_ : list (Z * Z);        (** a set, in the order of its elements *)
  new_files_ : list (Z * FileMetaData);
  column_family_ : Z;
  is_column_family_drop_ : bool;
  is_column_family_add_ : bool;
  column_family_name_ : bytes
}.

#[export] Instance VersionEdit_settable : Settable VersionEdit := fun r =>
  mkVersionEdit (max_level_ r) (comparator_ r) (log_number_ r) (prev_log_number_ r)
    (next_file_number_ r) (max_column_family_ r) (last_sequence_ r) (has_comparator_ r)
    (has_log_number_ r) (has_prev_log_number_ r) (has_next_file_number_ r)
    (has_last_sequence_ r) (has_max_column_family_ r) (deleted_files_ r) (new_files_ r)
    (column_family_ r) (is_column_family_drop_ r) (is_column_family_add_ r)
    (column_family_name_ r).

Definition VersionEdit_Clear : VersionEdit :=
  mkVersionEdit 0 [] 0 0 0 0 0 false false false false false false [] [] 0 false false [].

(** Insertion into a [std::set] of pairs of level and file number. *)
Definition pair_lt (a b : Z * Z) : bool :=
  (fst a <? fst b) || ((fst a =? fst b) && (snd a <? snd b)).

Fixpoint set_insert (x : Z * Z) (s : list (Z * Z)) : list (Z * Z) :=
  match s with
  | [] => [x]
  | y :: s' => if pair_lt x y then x :: s else if pair_lt y x then y :: set_insert x s' else s
  end.

Definition SetComparatorName (name : bytes) (e : VersionEdit) : VersionEdit :=
  e <| has_comparator_ := true |> <| comparator_ := name |>.
Definition SetLogNumber (num : Z) (e : VersionEdit) : VersionEdit :=
  e <| has_log_number_ := true |> <| log_number_ := num |>.
Definition SetPrevLogNumber (num : Z) (e : VersionEdit) : VersionEdit :=
  e <| has_prev_log_number_ := true |> <| prev_log_number_ := num |>.
Definition SetNextFile (num : Z) (e : VersionEdit) : VersionEdit :=
  e <| has_next_file_number_ := true |> <| next_file_number_ := num |>.
Definition SetLastSequence (seq : Z) (e : VersionEdit) : VersionEdit :=
  e <| has_last_sequence_ := true |> <| last_sequence_ := seq |>.
Definition SetMaxColumnFamily (max_column_family : Z) (e : VersionEdit) : VersionEdit :=
  e <| has_max_column_family_ := true |> <| max_column_family_ := max_column_family |>.
Definition AddFile (level : Z) (f : FileMetaData) (e : VersionEdit) : VersionEdit :=
  e <| new_files_ ::= fun l => l ++ [(level, f)] |>.
Definition AddFile_assert (f : FileMetaData) : bool := smallest_seqno f <=? largest_seqno f.
Definition DeleteFile (level file : Z) (e : VersionEdit) : VersionEdit :=
  e <| deleted_files_ ::= set_insert (level, file) |>.
Definition VersionEdit_NumEntries (e : VersionEdit) : nat :=
  length (new_files_ e) + length (deleted_files_ e).
Definition SetColumnFamily (id : Z) (e : VersionEdit) : VersionEdit := e <| column_family_ := id |>.
Definition ColumnFamily_assert (e : VersionEdit) : bool :=
  negb (is_column_family_drop_ e) && negb (is_column_family_add_ e) && (VersionEdit_NumEntries e =? 0)%nat.
Definition AddColumnFamily (name : bytes) (e : VersionEdit) : VersionEdit :=
  e <| is_column_family_add_ := true |> <| column_family_name_ := name |>.
Definition DropColumnFamily (e : VersionEdit) : VersionEdit := e <| is_column_family_drop_ := true |>.

(** ** Tags *)

Definition kComparator : Z := 1.
Definition kLogNumber : Z := 2.
Definition kNextFileNumber : Z := 3.
Definition kLastSequence : Z := 4.
Definition kCompactPointer : Z := 5.
Definition kDeletedFile : Z := 6.
Definition kNewFile : Z := 7.
Definition kPrevLogNumber : Z := 9.
Definition kNewFile2 : Z := 100.
Definition kNewFile3 : Z := 102.
Definition kNewFile4 : Z := 103.
Definition kColumnFamily : Z := 200.
Definition kColumnFamilyAdd : Z := 201.
Definition kColumnFamilyDrop : Z := 202.
Definition kMaxColumnFamily : Z := 203.

Definition kTerminate : Z := 1.
Definition kNeedCompaction : Z := 2.
Definition kPathId : Z := 65.
Definition kCustomTagNonSafeIgnoreMask : Z := Z.shiftl 1 6.

(** ** Encoding *)

Definition encode_deleted (d : Z * Z) : bytes :=
  PutVarint32Varint32Varint64 kDeletedFile (u32 (fst d)) (snd d).

(** One file, or nothing if its key range is not valid. *)
Definition encode_new_file (nf : Z * FileMetaData) : option bytes :=
  let '(level, f) := nf in
  if negb (InternalKey_Valid (smallest f)) || negb (InternalKey_Valid (largest f)) then None
  else
    let has_customized_fields := marked_for_compaction f in
    let path_id := GetPathId (fd f) in
    Some (PutVarint32 (if has_customized_fields then kNewFile4
                       else if path_id =? 0 then kNewFile2 else kNewFile3) ++
          PutVarint32Varint64 (u32 level) (GetNumber (fd f)) ++
          (if negb (path_id =? 0) && negb has_customized_fields then PutVarint32 path_id else []) ++
          PutVarint64 (file_size (fd f)) ++
          PutLengthPrefixedSlice (smallest f) ++
          PutLengthPrefixedSlice (largest f) ++
          PutVarint64Varint64 (smallest_seqno f) (largest_seqno f) ++
          (if has_customized_fields then
             (if negb (path_id =? 0)
              then PutVarint32 kPathId ++ PutLengthPrefixedSlice [byte_of_Z path_id] else []) ++
             (if marked_for_compaction f
              then PutVarint32 kNeedCompaction ++ PutLengthPrefixedSlice [byte_of_Z 1] else []) ++
             PutVarint32 kTerminate
           else [])).

(** The loop over the files, and what follows it. *)
Fixpoint encode_files (files : list (Z * FileMetaData)) (rest : bytes) : bool * bytes :=
  match files with
  | [] => (true, rest)
  | nf :: files =>
      match encode_new_file nf with
      | None => (false, [])
      | Some b => let '(r, bs) := encode_files files rest in (r, b ++ bs)
      end
  end.

(** The fields before the files, and those after them. *)
Definition encode_numbers (e : VersionEdit) : bytes :=
  (if has_comparator_ e then PutVarint32 kComparator ++ PutLengthPrefixedSlice (comparator_ e) else []) ++
  (if has_log_number_ e then PutVarint32Varint64 kLogNumber (log_number_ e) else []) ++
  (if has_prev_log_number_ e then PutVarint32Varint64 kPrevLogNumber (prev_log_number_ e) else []) ++
  (if has_next_file_number_ e then PutVarint32Varint64 kNextFileNumber (next_file_number_ e) else []) ++
  (if has_last_sequence_ e then PutVarint32Varint64 kLastSequence (last_sequence_ e) else []) ++
  (if has_max_column_family_ e then PutVarint32Varint32 kMaxColumnFamily (max_column_family_ e) else []).

Definition encode_column_family (e : VersionEdit) : bytes :=
  (if negb (column_family_ e =? 0) then PutVarint32Varint32 kColumnFamily (column_family_ e) else []) ++
  (if is_column_family_add_ e
   then PutVarint32 kColumnFamilyAdd ++ PutLengthPrefixedSlice (column_family_name_ e) else []) ++
  (if is_column_family_drop_ e then PutVarint32 kColumnFamilyDrop else []).

(** What is appended to the destination, and whether the edit could be encoded. *)
Definition EncodeTo (e : VersionEdit) : bool * bytes :=
  let '(r, bs) := encode_files (new_files_ e) (encode_column_family e) in
  (r, encode_numbers e ++ flat_map encode_deleted (deleted_files_ e) ++ bs).

(** ** Decoding *)

(** The local variables of the decoder, with the number of the next sketch and
    whether the assertion of [PackFileNumberAndPathId] held. *)
Record Parser := mkParser {
  p_input : bytes;
  p_edit : VersionEdit;
  p_f : FileMetaData;
  p_next_hll : nat;
  p_ok : bool
}.

#[export] Instance Parser_settable : Settable Parser := fun r =>
  mkParser (p_input r) (p_edit r) (p_f r) (p_next_hll r) (p_ok r).

(** A parse that fails keeps what it changed: [bind] is the [&&] of the code. *)
Definition parse (A : Type) : Type := Parser -> option A * Parser.

Definition ret {A} (x : A) : parse A := fun p => (Some x, p).
Definition bind {A B} (m : parse A) (k : A -> parse B) : parse B := fun p =>
  match m p with (Some x, p) => k x p | (None, p) => (None, p) end.

Declare Scope parse_scope.
Delimit Scope parse_scope with parse.
Notation "x <- m ;; k" := (bind m (fun x => k))
  (at level 100, m at next level, k at level 200, right associativity) : parse_scope.
Notation "m ;; k" := (bind m (fun _ => k))
  (at level 100, k at level 200, right associativity) : parse_scope.
#[local] Open Scope parse_scope.

Definition get {A} (g : bytes -> option (A * bytes)) : parse A := fun p =>
  match g (p_input p) with
  | Some (x, rest) => (Some x, p <| p_input := rest |>)
  | None => (None, p)
  end.

Definition modify (f : Parser -> Parser) : parse unit := fun p => (Some tt, f p).
Definition set_f (f : FileMetaData -> FileMetaData) : parse unit := modify (fun p => p <| p_f ::= f |>).
Definition set_edit (f : VersionEdit -> VersionEdit) : parse unit := modify (fun p => p <| p_edit ::= f |>).

(** The key is stored even if it turns out not to be valid. *)
Definition GetInternalKey (store : bytes -> FileMetaData -> FileMetaData) : parse unit :=
  str <- get GetLengthPrefixedSlice;;
  set_f (store str);;
  fun p => (if InternalKey_Valid str then Some tt else None, p).

Definition GetSmallest : parse unit := GetInternalKey (fun k f => f <| smallest := k |>).
Definition GetLargest : parse unit := GetInternalKey (fun k f => f <| largest := k |>).
Definition GetSmallestSeqno : parse unit :=
  v <- get GetVarint64;; set_f (fun f => f <| smallest_seqno := v |>).
Definition GetLargestSeqno : parse unit :=
  v <- get GetVarint64;; set_f (fun f => f <| largest_seqno := v |>).

(** A 32-bit value as an [int]. *)
Definition int_of_u32 (v : Z) : Z := if v <? 2 ^ 31 then v else v - 2 ^ 32.

Definition GetLevel : parse Z :=
  v <- get GetVarint32;;
  let level := int_of_u32 v in
  set_edit (fun e => e <| max_level_ ::= fun m => if m <? level then level else m |>);;
  ret level.

(** [f.fd = FileDescriptor(...); new_files_.push_back(...)]. *)
Definition push_file (level number path_id size : Z) : parse unit :=
  modify (fun p =>
    let p := p <| p_ok ::= andb (PackFileNumberAndPathId_assert number) |> in
    let p := p <| p_f ::= fun f => f <| fd := FileDescriptor_make number path_id size |> |> in
    p <| p_edit ::= AddFile level (p_f p) |>).

(** A [char] converted to an unsigned 32-bit integer is extended by its sign. *)
Definition u32_of_char (b : byte) : Z :=
  if Z_of_byte b <? 128 then Z_of_byte b else u32 (Z_of_byte b - 256).

Inductive Custom := CustomDone (path_id : Z) | CustomError (msg : string) | CustomFuel.

(** The loop over customized fields, at most one for each byte of the input. *)
Fixpoint custom_fields (fuel : nat) (path_id : Z) (p : Parser) : Custom * Parser :=
  match fuel with
  | O => (CustomFuel, p)
  | S fuel =>
      match get GetVarint32 p with
      | (None, p) => (CustomError "new-file4 custom field", p)
      | (Some custom_tag, p) =>
          if custom_tag =? kTerminate then (CustomDone path_id, p)
          else
            match get GetLengthPrefixedSlice p with
            | (None, p) => (CustomError "new-file4 custom field lenth prefixed slice error", p)
            | (Some field, p) =>
                if custom_tag =? kPathId then
                  match field with
                  | [c] => if u32_of_char c >? 3 then (CustomError "path_id wrong vaue", p)
                           else custom_fields fuel (u32_of_char c) p
                  | _ => (CustomError "path_id field wrong size", p)
                  end
                else if custom_tag =? kNeedCompaction then
                  match field with
                  | [c] => custom_fields fuel path_id
                             (p <| p_f ::= fun f => f <| marked_for_compaction := (Z_of_byte c =? 1) |> |>)
                  | _ => (CustomError "need_compaction field wrong size", p)
                  end
                else if negb (Z.land custom_tag kCustomTagNonSafeIgnoreMask =? 0)
                then (CustomError "new-file4 custom field not supported", p)
                else custom_fields fuel path_id p
            end
      end
  end.

(** The outcome of a field of the edit: an error message, or none. *)
Inductive Outcome := Fine | Error (msg : string) | OutOfFuel.

Definition DecodeNewFile4From (p : Parser) : Outcome * Parser :=
  let caller_f := p_f p in
  let p := p <| p_f := FileMetaData_new (p_next_hll p) |> <| p_next_hll ::= S |> in
  let '(r, p) :=
    match (level <- GetLevel;; number <- get GetVarint64;; size <- get GetVarint64;;
           GetSmallest;; GetLargest;; GetSmallestSeqno;; GetLargestSeqno;; ret (level, number, size)) p with
    | (None, p) => (Error "new-file4 entry", p)
    | (Some (level, number, size), p) =>
        match custom_fields (S (length (p_input p))) 0 p with
        | (CustomError msg, p) => (Error msg, p)
        | (CustomFuel, p) => (OutOfFuel, p)
        | (CustomDone path_id, p) => (Fine, snd (push_file level number path_id size p))
        end
    end in
  (r, p <| p_f := caller_f |>).

(** [if (...) { ... } else { msg = ... }]. *)
Definition or_msg (m : parse unit) (msg : string) (p : Parser) : Outcome * Parser :=
  match m p with (Some tt, p) => (Fine, p) | (None, p) => (Error msg, p) end.

Definition decode_tag (tag : Z) : Parser -> Outcome * Parser :=
  if tag =? kComparator then
    or_msg (str <- get GetLengthPrefixedSlice;; set_edit (SetComparatorName str)) "comparator name"
  else if tag =? kLogNumber then
    or_msg (v <- get GetVarint64;; set_edit (SetLogNumber v)) "log number"
  else if tag =? kPrevLogNumber then
    or_msg (v <- get GetVarint64;; set_edit (SetPrevLogNumber v)) "previous log number"
  else if tag =? kNextFileNumber then
    or_msg (v <- get GetVarint64;; set_edit (SetNextFile v)) "next file number"
  else if tag =? kLastSequence then
    or_msg (v <- get GetVarint64;; set_edit (SetLastSequence v)) "last sequence number"
  else if tag =? kMaxColumnFamily then
    or_msg (v <- get GetVarint32;; set_edit (SetMaxColumnFamily v)) "max column family"
  else if tag =? kCompactPointer then
    or_msg (GetLevel;; GetInternalKey (fun _ f => f)) "compaction pointer"
  else if tag =? kDeletedFile then
    or_msg (level <- GetLevel;; number <- get GetVarint64;; set_edit (DeleteFile level number)) "deleted file"
  else if tag =? kNewFile then
    or_msg (level <- GetLevel;; number <- get GetVarint64;; size <- get GetVarint64;;
            GetSmallest;; GetLargest;; push_file level number 0 size) "new-file entry"
  else if tag =? kNewFile2 then
    or_msg (level <- GetLevel;; number <- get GetVarint64;; size <- get GetVarint64;;
            GetSmallest;; GetLargest;; GetSmallestSeqno;; GetLargestSeqno;;
            push_file level number 0 size) "new-file2 entry"
  else if tag =? kNewFile3 then
    or_msg (level <- GetLevel;; number <- get GetVarint64;; path_id <- get GetVarint32;; size <- get GetVarint64;;
            GetSmallest;; GetLargest;; GetSmallestSeqno;; GetLargestSeqno;;
            push_file level number path_id size) "new-file3 entry"
  else if tag =? kNewFile4 then DecodeNewFile4From
  else if tag =? kColumnFamily then
    or_msg (v <- get GetVarint32;; set_edit (SetColumnFamily v)) "set column family id"
  else if tag =? kColumnFamilyAdd then
    or_msg (str <- get GetLengthPrefixedSlice;; set_edit (AddColumnFamily str)) "column family add"
  else if tag =? kColumnFamilyDrop then or_msg (set_edit DropColumnFamily) EmptyString
  else fun p => (Error "unknown tag", p).

(** The loop over the fields, at most one for each byte of the input. *)
Fixpoint decode_loop (fuel : nat) (p : Parser) : Outcome * Parser :=
  match fuel with
  | O => (OutOfFuel, p)
  | S fuel =>
      match get GetVarint32 p with
      | (None, p) => (if bool_decide (p_input p = []) then Fine else Error "invalid tag", p)
      | (Some tag, p) =>
          match decode_tag tag p with
          | (Fine, p) => decode_loop fuel p
          | r => r
          end
      end
  end.

(** [next_hll] numbers the sketches the decoder allocates.  The result is the
    status, the edit and whether the assertions held. *)
Definition DecodeFrom (next_hll : nat) (src : bytes) : option (Status * VersionEdit * bool) :=
  let p := mkParser src VersionEdit_Clear (FileMetaData_new next_hll) (S next_hll) true in
  let '(r, p) := decode_loop (S (length src)) p in
  match r with
  | Fine => Some (OK, p_edit p, p_ok p)
  | Error msg => Some (Corruption ("VersionEdit: " ++ msg), p_edit p, p_ok p)
  | OutOfFuel => None
  end.

(** ** Parsing what was written *)

Definition put (p : Parser) (input : bytes) : Parser :=
  mkParser input (p_edit p) (p_f p) (p_next_hll p) (p_ok p).

Lemma get_app {A} (g : bytes -> option (A * bytes)) p b r x :
  g (b ++ r) = Some (x, r) -> get g (put p (b ++ r)) = (Some x, put p r).
Proof. intros Hg. unfold get. cbn [p_input put]. by rewrite Hg. Qed.

Lemma get_varint32 p v r : is_u32 v -> get GetVarint32 (put p (PutVarint32 v ++ r)) = (Some v, put p r).
Proof. intros. by apply get_app, GetVarint32_app. Qed.

Lemma get_varint64 p v r : is_u64 v -> get GetVarint64 (put p (PutVarint64 v ++ r)) = (Some v, put p r).
Proof. intros. by apply get_app, GetVarint64_app. Qed.

Lemma get_slice p v r :
  is_u32 (Z.of_nat (length v)) ->
  get GetLengthPrefixedSlice (put p (PutLengthPrefixedSlice v ++ r)) = (Some v, put p r).
Proof. intros. by apply get_app, GetLengthPrefixedSlice_app. Qed.

Lemma bind_Some {A B} (m : parse A) (k : A -> parse B) p x p' :
  m p = (Some x, p') -> bind m k p = k x p'.
Proof. intros H. unfold bind. by rewrite H. Qed.

(** [b] is a sequence of fields that takes the decoder from [p] to [p']. *)
Definition decodes (b : bytes) (p p' : Parser) : Prop :=
  exists j, (j <= length b)%nat /\
  forall fuel r, decode_loop (j + fuel) (put p (b ++ r)) = decode_loop fuel (put p' r).

Lemma decodes_nil p : decodes [] p p.
Proof. by exists 0%nat. Qed.

Lemma decodes_app a b p p' p'' : decodes a p p' -> decodes b p' p'' -> decodes (a ++ b) p p''.
Proof.
  intros (j & Hj & Ha) (k & Hk & Hb). exists (j + k)%nat. rewrite length_app. split; [lia|].
  intros fuel r. by rewrite <- Nat.add_assoc, <- app_assoc, Ha, Hb.
Qed.

Lemma decodes_if (c : bool) b p p' : (c = true -> decodes b p p') -> decodes (if c then b else []) p (if c then p' else p).
Proof. destruct c; [auto|intros; apply decodes_nil]. Qed.

Lemma length_PutVarint32 v : is_u32 v -> (1 <= length (PutVarint32 v))%nat.
Proof.
  intros Hv. destruct (PutVarint32 v) as [|b bs] eqn:E; [|cbn; lia].
  pose proof (GetVarint32_app v [] Hv) as H. rewrite E in H. discriminate.
Qed.

Lemma decodes_tag tag b p p' :
  is_u32 tag -> (forall r, decode_tag tag (put p (b ++ r)) = (Fine, put p' r)) ->
  decodes (PutVarint32 tag ++ b) p p'.
Proof.
  intros Ht Hb. exists 1%nat. rewrite length_app. split; [pose proof (length_PutVarint32 tag Ht); lia|].
  intros fuel r. cbn [Nat.add decode_loop]. by rewrite <- app_assoc, get_varint32, Hb.
Qed.

Lemma or_msg_Fine m msg p p' : m p = (Some tt, p') -> or_msg m msg p = (Fine, p').
Proof. intros H. unfold or_msg. by rewrite H. Qed.

(** *** The numbers *)

Definition numbers (f : VersionEdit -> VersionEdit) (p : Parser) : Parser := p <| p_edit ::= f |>.

Ltac u32_const := unfold is_u32; split; vm_compute; congruence.

(** A tag followed by one value. *)
Ltac decode_value lem :=
  intros; apply decodes_tag; [u32_const|]; intros r; apply or_msg_Fine;
  rewrite (bind_Some _ _ _ _ _ (lem _ _ _ ltac:(eassumption))); reflexivity.

Lemma decodes_comparator v p :
  is_u32 (Z.of_nat (length v)) ->
  decodes (PutVarint32 kComparator ++ PutLengthPrefixedSlice v) p (numbers (SetComparatorName v) p).
Proof. decode_value @get_slice. Qed.

Lemma decodes_log_number v p :
  is_u64 v -> decodes (PutVarint32Varint64 kLogNumber v) p (numbers (SetLogNumber v) p).
Proof. decode_value @get_varint64. Qed.

Lemma decodes_prev_log_number v p :
  is_u64 v -> decodes (PutVarint32Varint64 kPrevLogNumber v) p (numbers (SetPrevLogNumber v) p).
Proof. decode_value @get_varint64. Qed.

Lemma decodes_next_file v p :
  is_u64 v -> decodes (PutVarint32Varint64 kNextFileNumber v) p (numbers (SetNextFile v) p).
Proof. decode_value @get_varint64. Qed.

Lemma decodes_last_sequence v p :
  is_u64 v -> decodes (PutVarint32Varint64 kLastSequence v) p (numbers (SetLastSequence v) p).
Proof. decode_value @get_varint64. Qed.

Lemma decodes_max_column_family v p :
  is_u32 v -> decodes (PutVarint32Varint32 kMaxColumnFamily v) p (numbers (SetMaxColumnFamily v) p).
Proof. decode_value @get_varint32. Qed.

Lemma decodes_column_family v p :
  is_u32 v -> decodes (PutVarint32Varint32 kColumnFamily v) p (numbers (SetColumnFamily v) p).
Proof. decode_value @get_varint32. Qed.

Lemma decodes_column_family_add v p :
  is_u32 (Z.of_nat (length v)) ->
  decodes (PutVarint32 kColumnFamilyAdd ++ PutLengthPrefixedSlice v) p (numbers (AddColumnFamily v) p).
Proof. decode_value @get_slice. Qed.

Lemma decodes_column_family_drop p : decodes (PutVarint32 kColumnFamilyDrop) p (numbers DropColumnFamily p).
Proof.
  rewrite <- (app_nil_r (PutVarint32 _)). apply decodes_tag; [u32_const|]. done.
Qed.

(** *** Levels and deleted files *)

Definition is_level (level : Z) : Prop := 0 <= level < 2 ^ 31.

Definition raise_level (level : Z) (e : VersionEdit) : VersionEdit :=
  e <| max_level_ ::= fun m => if m <? level then level else m |>.

Lemma get_level p level r :
  is_level level ->
  GetLevel (put p (PutVarint32 (u32 level) ++ r)) = (Some level, put (numbers (raise_level level) p) r).
Proof.
  intros Hl. unfold is_level in Hl. unfold GetLevel. rewrite u32_small by zlia.
  erewrite bind_Some by (apply get_varint32; unfold is_u32; zlia).
  unfold int_of_u32. rewrite (proj2 (Z.ltb_lt _ _)) by lia. done.
Qed.

Lemma decodes_deleted d p :
  is_level (fst d) -> is_u64 (snd d) ->
  decodes (encode_deleted d) p (numbers (fun e => DeleteFile (fst d) (snd d) (raise_level (fst d) e)) p).
Proof.
  intros Hl Hn. unfold encode_deleted. apply decodes_tag; [u32_const|]. intros r. apply or_msg_Fine.
  rewrite <- app_assoc. erewrite bind_Some by (by apply get_level).
  erewrite bind_Some by (by apply get_varint64). done.
Qed.

Lemma pair_lt_trans a b c : pair_lt a b = true -> pair_lt b c = true -> pair_lt a c = true.
Proof. unfold pair_lt. rewrite !orb_true_iff, !andb_true_iff, !Z.ltb_lt, !Z.eqb_eq. lia. Qed.

Lemma pair_lt_asym a b : pair_lt a b = true -> pair_lt b a = false.
Proof.
  unfold pair_lt. rewrite orb_true_iff, andb_true_iff, orb_false_iff, andb_false_iff, !Z.ltb_lt, !Z.ltb_ge,
    Z.eqb_eq, Z.eqb_neq. lia.
Qed.

Definition pairs_sorted (s : list (Z * Z)) : Prop := StronglySorted (fun a b => pair_lt a b = true) s.

Lemma set_insert_last x s : pairs_sorted (s ++ [x]) -> set_insert x s = s ++ [x].
Proof.
  induction s as [|y s IH]; [done|]. intros Hs. apply StronglySorted_inv in Hs as [Hs Hy].
  cbn [set_insert app]. assert (Hyx : pair_lt y x = true).
  { rewrite Forall_forall in Hy. apply Hy, list_elem_of_In, in_or_app. right. by left. }
  rewrite (pair_lt_asym _ _ Hyx), Hyx. by rewrite IH.
Qed.

Lemma pairs_sorted_prefix a b : pairs_sorted (a ++ b) -> pairs_sorted a.
Proof.
  unfold pairs_sorted. induction a as [|x a IH]; [constructor|]. intros [Hs Hx]%StronglySorted_inv.
  constructor; [by apply IH|by apply Forall_app in Hx as [? _]].
Qed.

Definition delete_all (ds : list (Z * Z)) (e : VersionEdit) : VersionEdit :=
  foldl (fun e d => DeleteFile (fst d) (snd d) (raise_level (fst d) e)) e ds.

Lemma decodes_deleted_files ds : forall p,
  Forall (fun d => is_level (fst d) /\ is_u64 (snd d)) ds ->
  decodes (flat_map encode_deleted ds) p (numbers (delete_all ds) p).
Proof.
  induction ds as [|d ds IH]; intros p Hds; cbn [flat_map].
  - destruct p. apply decodes_nil.
  - apply Forall_cons in Hds as [[Hl Hn] Hds].
    eapply decodes_app; [by apply decodes_deleted|].
    exact (IH (numbers (fun e => DeleteFile (fst d) (snd d) (raise_level (fst d) e)) p) Hds).
Qed.

Lemma delete_all_spec ds : forall e,
  pairs_sorted (deleted_files_ e ++ ds) ->
  delete_all ds e = e <| deleted_files_ := deleted_files_ e ++ ds |>
                      <| max_level_ := foldl (fun m d => if m <? fst d then fst d else m) (max_level_ e) ds |>.
Proof.
  induction ds as [|d ds IH]; intros e Hs; cbn [delete_all foldl].
  - rewrite app_nil_r. by destruct e.
  - assert (E : DeleteFile (fst d) (snd d) (raise_level (fst d) e) =
      e <| deleted_files_ := deleted_files_ e ++ [d] |>
        <| max_level_ := if max_level_ e <? fst d then fst d else max_level_ e |>).
    { unfold DeleteFile, raise_level. destruct d as [l n]. cbn. rewrite set_insert_last; [done|].
      apply (pairs_sorted_prefix _ ds). by rewrite <- app_assoc. }
    unfold delete_all in IH. rewrite E, IH.
    + cbn. by rewrite <- app_assoc.
    + cbn. by rewrite <- app_assoc.
Qed.

(** *** New files *)

(** A file as the decoder knows it: the statistics of the fork are not written. *)
Definition decoded_file (sketch : nat) (f : FileMetaData) : FileMetaData :=
  mkFile (fd f) (smallest f) (largest f) (smallest_seqno f) (largest_seqno f)
    (marked_for_compaction f) sketch (u64 (-1)) (u64 (-1)) (-1) 0.

Record file_ok (nf : Z * FileMetaData) : Prop := {
  fo_level : is_level (fst nf);
  fo_packed : is_u64 (packed_number_and_path_id (fd (snd nf)));
  fo_size : is_u64 (file_size (fd (snd nf)));
  fo_smallest : is_u32 (Z.of_nat (length (smallest (snd nf)))) /\ InternalKey_Valid (smallest (snd nf)) = true;
  fo_largest : is_u32 (Z.of_nat (length (largest (snd nf)))) /\ InternalKey_Valid (largest (snd nf)) = true;
  fo_smallest_seqno : is_u64 (smallest_seqno (snd nf));
  fo_largest_seqno : is_u64 (largest_seqno (snd nf))
}.

Lemma mask_value : kFileNumberMask + 1 = 2 ^ 62.
Proof. done. Qed.

Lemma GetNumber_spec d : is_u64 (packed_number_and_path_id d) -> GetNumber d = packed_number_and_path_id d mod 2 ^ 62.
Proof. intros. unfold GetNumber. change kFileNumberMask with (Z.ones 62). by rewrite Z.land_ones. Qed.

Lemma GetPathId_spec d : is_u64 (packed_number_and_path_id d) ->
  GetPathId d = packed_number_and_path_id d / 2 ^ 62 /\ 0 <= GetPathId d <= 3.
Proof.
  intros Hd. unfold GetPathId. rewrite mask_value. unfold is_u64 in Hd.
  assert (0 <= packed_number_and_path_id d / 2 ^ 62 < 4).
  { split; [apply Z.div_pos; lia|]. apply Z.div_lt_upper_bound; zlia. }
  rewrite u32_small by zlia. lia.
Qed.

Lemma FileDescriptor_split d : is_u64 (packed_number_and_path_id d) ->
  FileDescriptor_make (GetNumber d) (GetPathId d) (file_size d) = d /\
  is_u64 (GetNumber d) /\ PackFileNumberAndPathId_assert (GetNumber d) = true.
Proof.
  intros Hd. rewrite GetNumber_spec by done. destruct (GetPathId_spec d Hd) as [-> Hp].
  pose proof (Z.mod_pos_bound (packed_number_and_path_id d) (2 ^ 62) ltac:(lia)) as Hm.
  unfold FileDescriptor_make, PackFileNumberAndPathId, PackFileNumberAndPathId_assert. rewrite mask_value.
  split; [|split; [unfold is_u64; zlia|apply Z.leb_le; unfold kFileNumberMask; zlia]].
  destruct d as [packed size]. cbn [packed_number_and_path_id file_size] in *. f_equal.
  unfold is_u64 in Hd. rewrite u64_small.
  - rewrite Z.lor_comm, <- Z.shiftl_mul_pow2 by lia. rewrite <- Z.land_ones, <- Z.shiftr_div_pow2 by lia.
    apply Z.bits_inj'. intros k Hk. rewrite Z.lor_spec, Z.shiftl_spec, Z.land_spec by lia.
    destruct (Z.ltb_spec k 62) as [H1|H1].
    + rewrite Z.testbit_neg_r, Z.ones_spec_low, andb_true_r by lia. done.
    + rewrite Z.shiftr_spec, Z.ones_spec_high, andb_false_r, orb_false_r by lia. f_equal. lia.
  - split; [apply Z.mul_nonneg_nonneg; [apply Z.div_pos; lia|lia]|].
    pose proof (Z.div_mod packed (2 ^ 62) ltac:(lia)). lia.
Qed.

Lemma get_key store p k r :
  is_u32 (Z.of_nat (length k)) /\ InternalKey_Valid k = true ->
  GetInternalKey store (put p (PutLengthPrefixedSlice k ++ r)) = (Some tt, put (p <| p_f ::= store k |>) r).
Proof.
  intros [Hl Hv]. unfold GetInternalKey. erewrite bind_Some by (by apply get_slice).
  cbn. by rewrite Hv.
Qed.

Lemma get_smallest_seqno p v r :
  is_u64 v ->
  GetSmallestSeqno (put p (PutVarint64 v ++ r)) = (Some tt, put (p <| p_f ::= set smallest_seqno (fun _ => v) |>) r).
Proof. intros Hv. unfold GetSmallestSeqno. by erewrite bind_Some by (by apply get_varint64). Qed.

Lemma get_largest_seqno p v r :
  is_u64 v ->
  GetLargestSeqno (put p (PutVarint64 v ++ r)) = (Some tt, put (p <| p_f ::= set largest_seqno (fun _ => v) |>) r).
Proof. intros Hv. unfold GetLargestSeqno. by erewrite bind_Some by (by apply get_varint64). Qed.

(** The variables of the decoder between two files: the file it fills has the
    statistics of a new one. *)
Definition blank (shared : nat) (g : FileMetaData) : Prop :=
  marked_for_compaction g = false /\ hll g = shared /\ file_num_low g = u64 (-1) /\
  file_num_high g = u64 (-1) /\ num_sst_next_level_overlap g = -1 /\ hll_add_count g = 0.

(** The fields all formats have in common. *)
Definition file_ranges (f : FileMetaData) : bytes :=
  PutLengthPrefixedSlice (smallest f) ++ PutLengthPrefixedSlice (largest f) ++
  PutVarint64Varint64 (smallest_seqno f) (largest_seqno f).

Definition fill_ranges (f g : FileMetaData) : FileMetaData :=
  g <| smallest := smallest f |> <| largest := largest f |>
    <| smallest_seqno := smallest_seqno f |> <| largest_seqno := largest_seqno f |>.

Lemma get_ranges {A} (k : parse A) nf p r :
  file_ok nf ->
  bind GetSmallest (fun _ => bind GetLargest (fun _ => bind GetSmallestSeqno (fun _ => bind GetLargestSeqno
    (fun _ => k)))) (put p (file_ranges (snd nf) ++ r)) = k (put (p <| p_f ::= fill_ranges (snd nf) |>) r).
Proof.
  intros []. unfold file_ranges. rewrite <- !app_assoc.
  erewrite bind_Some by (by apply get_key). erewrite bind_Some by (by apply get_key).
  unfold PutVarint64Varint64. rewrite <- app_assoc.
  erewrite bind_Some by (by apply get_smallest_seqno). erewrite bind_Some by (by apply get_largest_seqno).
  done.
Qed.

Lemma fill_blank shared g f :
  blank shared g -> marked_for_compaction f = false -> (fill_ranges f g) <| fd := fd f |> = decoded_file shared f.
Proof. intros (H1 & H2 & H3 & H4 & H5 & H6) Hm. destruct g; cbn in *. by rewrite H1, H2, H3, H4, H5, H6, <- Hm. Qed.

(** The decoder after a file. *)
Definition after_file (shared : nat) (nf : Z * FileMetaData) (p : Parser) : Parser :=
  let '(level, f) := nf in
  if marked_for_compaction f then
    p <| p_edit ::= fun e => AddFile level (decoded_file (p_next_hll p) f) (raise_level level e) |>
      <| p_next_hll ::= S |>
  else
    p <| p_edit ::= fun e => AddFile level (decoded_file shared f) (raise_level level e) |>
      <| p_f := decoded_file shared f |>.

Lemma pushed_file level number path_id size p :
  PackFileNumberAndPathId_assert number = true ->
  push_file level number path_id size p =
  (Some tt, p <| p_f ::= set fd (fun _ => FileDescriptor_make number path_id size) |>
              <| p_edit ::= AddFile level ((p_f p) <| fd := FileDescriptor_make number path_id size |>) |>).
Proof. intros Ha. unfold push_file, modify. rewrite Ha. by destruct p. Qed.

Lemma decodes_plain_file shared level f p :
  file_ok (level, f) -> marked_for_compaction f = false -> blank shared (p_f p) ->
  exists b, encode_new_file (level, f) = Some b /\ decodes b p (after_file shared (level, f) p).
Proof.
  intros Hf Hm Hb. destruct Hf as [Hl Hp Hs [Hsl Hsv] [Hll Hlv] Hs1 Hs2] eqn:EHf. cbn [fst snd] in *.
  destruct (FileDescriptor_split (fd f) Hp) as (Hfd & Hn & Ha).
  destruct (GetPathId_spec (fd f) Hp) as [_ Hpath].
  unfold encode_new_file. rewrite Hsv, Hlv, Hm. cbn [negb orb]. eexists. split; [done|].
  cbn [negb andb]. rewrite app_nil_r.
  change (PutLengthPrefixedSlice (smallest f) ++ _) with (file_ranges (snd (level, f))).
  apply decodes_tag; [destruct (_ =? 0); u32_const|]. intros r.
  unfold PutVarint32Varint64. rewrite <- !app_assoc. unfold after_file. rewrite Hm.
  destruct (GetPathId (fd f) =? 0) eqn:E; cbn [negb andb].
  - apply Z.eqb_eq in E. apply or_msg_Fine. erewrite bind_Some by (by apply get_level).
    erewrite bind_Some by (by apply get_varint64). cbn [app]. erewrite bind_Some by (by apply get_varint64).
    rewrite (get_ranges _ _ _ _ Hf). rewrite <- E, pushed_file by done. rewrite Hfd.
    rewrite <- (fill_blank _ _ f Hb Hm). done.
  - apply or_msg_Fine. erewrite bind_Some by (by apply get_level).
    erewrite bind_Some by (by apply get_varint64).
    erewrite bind_Some by (apply get_varint32; unfold is_u32; zlia). erewrite bind_Some by (by apply get_varint64).
    rewrite (get_ranges _ _ _ _ Hf). rewrite pushed_file by done. rewrite Hfd.
    rewrite <- (fill_blank _ _ f Hb Hm). done.
Qed.

Lemma u32_of_char_small z : 0 <= z < 128 -> u32_of_char (byte_of_Z z) = z.
Proof.
  intros Hz. unfold u32_of_char. rewrite Z_of_byte_of_Z, Z.mod_small by lia.
  by rewrite (proj2 (Z.ltb_lt _ _)) by lia.
Qed.

(** One customized field. *)
Lemma custom_field fuel path_id tag c p r :
  is_u32 tag -> (tag =? kTerminate) = false ->
  custom_fields (S fuel) path_id (put p (PutVarint32 tag ++ PutLengthPrefixedSlice [c] ++ r)) =
  if tag =? kPathId then
    if u32_of_char c >? 3 then (CustomError "path_id wrong vaue", put p r)
    else custom_fields fuel (u32_of_char c) (put p r)
  else if tag =? kNeedCompaction then
    custom_fields fuel path_id (put (p <| p_f ::= set marked_for_compaction (fun _ => Z_of_byte c =? 1) |>) r)
  else if negb (Z.land tag kCustomTagNonSafeIgnoreMask =? 0)
  then (CustomError "new-file4 custom field not supported", put p r)
  else custom_fields fuel path_id (put p r).
Proof.
  intros Ht Hterm. cbn [custom_fields]. rewrite get_varint32, Hterm by done.
  rewrite get_slice by (unfold is_u32; cbn; zlia). done.
Qed.

Definition customs (path_id : Z) : bytes :=
  (if negb (path_id =? 0) then PutVarint32 kPathId ++ PutLengthPrefixedSlice [byte_of_Z path_id] else []) ++
  (PutVarint32 kNeedCompaction ++ PutLengthPrefixedSlice [byte_of_Z 1]) ++ PutVarint32 kTerminate.

Lemma custom_fields_read fuel path_id p r :
  0 <= path_id <= 3 -> (3 <= fuel)%nat ->
  custom_fields fuel 0 (put p (customs path_id ++ r)) =
  (CustomDone path_id, put (p <| p_f ::= set marked_for_compaction (fun _ => true) |>) r).
Proof.
  intros Hp Hfuel. destruct fuel as [|[|[|fuel]]]; try lia. unfold customs. rewrite <- !app_assoc.
  assert (Hneed : forall k q, custom_fields (S (S k)) q (put p (PutVarint32 kNeedCompaction ++
      PutLengthPrefixedSlice [byte_of_Z 1] ++ PutVarint32 kTerminate ++ r)) =
    (CustomDone q, put (p <| p_f ::= set marked_for_compaction (fun _ => true) |>) r)).
  { intros k q. rewrite custom_field by (u32_const || done). cbn [custom_fields].
    change (kNeedCompaction =? kPathId) with false. change (kNeedCompaction =? kNeedCompaction) with true.
    cbv iota. rewrite get_varint32 by u32_const. done. }
  destruct (Z.eqb_spec path_id 0) as [->|Hne]; cbn [negb]; [apply Hneed|].
  rewrite <- !app_assoc, custom_field by (u32_const || done). rewrite u32_of_char_small by lia.
  change (kPathId =? kPathId) with true. cbv iota.
  destruct (path_id >? 3) eqn:E; [apply Z.gtb_lt in E; lia|]. apply Hneed.
Qed.

Lemma decodes_marked_file shared level f p :
  file_ok (level, f) -> marked_for_compaction f = true ->
  exists b, encode_new_file (level, f) = Some b /\ decodes b p (after_file shared (level, f) p).
Proof.
  intros Hf Hm. destruct Hf as [Hl Hp Hs [Hsl Hsv] [Hll Hlv] Hs1 Hs2] eqn:EHf. cbn [fst snd] in *.
  destruct (FileDescriptor_split (fd f) Hp) as (Hfd & Hn & Ha).
  destruct (GetPathId_spec (fd f) Hp) as [_ Hpath].
  unfold encode_new_file. rewrite Hsv, Hlv, Hm. cbn [negb orb]. eexists. split; [done|].
  rewrite andb_false_r. cbn [app]. fold (customs (GetPathId (fd f))).
  apply decodes_tag; [u32_const|]. intros r. unfold PutVarint32Varint64. rewrite <- !app_assoc.
  change (decode_tag kNewFile4) with DecodeNewFile4From. unfold DecodeNewFile4From.
  set (q := mkParser [] (p_edit p) (FileMetaData_new (p_next_hll p)) (S (p_next_hll p)) (p_ok p)).
  change (_ <| p_next_hll ::= S |>) with (put q (PutVarint32 (u32 level) ++ PutVarint64 (GetNumber (fd f)) ++
    PutVarint64 (file_size (fd f)) ++ PutLengthPrefixedSlice (smallest f) ++ PutLengthPrefixedSlice (largest f) ++
    PutVarint64Varint64 (smallest_seqno f) (largest_seqno f) ++ customs (GetPathId (fd f)) ++ r)).
  erewrite bind_Some by (by apply get_level). erewrite bind_Some by (by apply get_varint64).
  erewrite bind_Some by (by apply get_varint64).
  replace (PutLengthPrefixedSlice (smallest f) ++ PutLengthPrefixedSlice (largest f) ++
    PutVarint64Varint64 (smallest_seqno f) (largest_seqno f) ++ customs (GetPathId (fd f)) ++ r)
    with (file_ranges (snd (level, f)) ++ customs (GetPathId (fd f)) ++ r)
    by (unfold file_ranges; by rewrite <- !app_assoc).
  rewrite (get_ranges _ _ _ _ Hf). unfold ret. cbv iota beta.
  rewrite custom_fields_read; [|done|].
  - cbv iota beta. rewrite pushed_file by done. rewrite Hfd. unfold after_file. rewrite Hm.
    unfold decoded_file. rewrite Hm. done.
  - change (p_input (put _ ?x)) with x. rewrite !length_app. unfold customs. rewrite !length_app.
    pose proof (length_PutVarint32 kNeedCompaction ltac:(u32_const)).
    pose proof (length_PutVarint32 kTerminate ltac:(u32_const)). lia.
Qed.

Lemma after_file_blank shared nf p : blank shared (p_f p) -> blank shared (p_f (after_file shared nf p)).
Proof.
  destruct nf as [level f]. intros Hb. unfold after_file. destruct (marked_for_compaction f) eqn:Hm; [done|].
  by repeat split.
Qed.

Definition after_files (shared : nat) (files : list (Z * FileMetaData)) (p : Parser) : Parser :=
  foldl (fun p nf => after_file shared nf p) p files.

Lemma decodes_files shared files : forall p,
  Forall file_ok files -> blank shared (p_f p) ->
  exists b, (forall rest, encode_files files rest = (true, b ++ rest)) /\
    decodes b p (after_files shared files p).
Proof.
  induction files as [|[level f] files IH]; intros p Hok Hb.
  { exists []. split; [done|]. apply decodes_nil. }
  apply Forall_cons in Hok as [Hf Hok].
  assert (Hone : exists b, encode_new_file (level, f) = Some b /\ decodes b p (after_file shared (level, f) p)).
  { destruct (marked_for_compaction f) eqn:Hm; [by apply decodes_marked_file|by apply decodes_plain_file]. }
  destruct Hone as (b & Hb1 & Hd1).
  destruct (IH (after_file shared (level, f) p) Hok (after_file_blank _ _ _ Hb)) as (bs & Hb2 & Hd2).
  exists (b ++ bs). split; [|by eapply decodes_app].
  intros rest. cbn [encode_files]. by rewrite Hb1, Hb2, <- app_assoc.
Qed.

(** The files of the decoded edit: those marked for compaction get a sketch of
    their own, all others share one. *)
Fixpoint decoded_files (shared next : nat) (files : list (Z * FileMetaData)) : list (Z * FileMetaData) :=
  match files with
  | [] => []
  | (level, f) :: files =>
      if marked_for_compaction f then (level, decoded_file next f) :: decoded_files shared (S next) files
      else (level, decoded_file shared f) :: decoded_files shared next files
  end.

Definition higher (m level : Z) : Z := if m <? level then level else m.

Lemma after_files_spec shared files : forall p,
  p_edit (after_files shared files p) =
    (p_edit p) <| new_files_ ::= fun l => l ++ decoded_files shared (p_next_hll p) files |>
               <| max_level_ := foldl (fun m nf => higher m (fst nf)) (max_level_ (p_edit p)) files |> /\
  p_ok (after_files shared files p) = p_ok p.
Proof.
  induction files as [|[level f] files IH]; intros p; cbn [after_files foldl decoded_files].
  { split; [|done]. destruct p as [? e ? ? ?]. destruct e; cbn. by rewrite app_nil_r. }
  unfold after_files in IH. destruct (IH (after_file shared (level, f) p)) as [-> ->].
  unfold after_file. destruct (marked_for_compaction f); cbn; (split; [|done]); by rewrite <- app_assoc.
Qed.

(** ** The round trip *)

Record edit_ok (e : VersionEdit) : Prop := {
  eo_comparator : is_u32 (Z.of_nat (length (comparator_ e)));
  eo_log_number : is_u64 (log_number_ e);
  eo_prev_log_number : is_u64 (prev_log_number_ e);
  eo_next_file_number : is_u64 (next_file_number_ e);
  eo_last_sequence : is_u64 (last_sequence_ e);
  eo_max_column_family : is_u32 (max_column_family_ e);
  eo_deleted : Forall (fun d => is_level (fst d) /\ is_u64 (snd d)) (deleted_files_ e);
  eo_sorted : pairs_sorted (deleted_files_ e);
  eo_files : Forall file_ok (new_files_ e);
  eo_column_family : is_u32 (column_family_ e);
  eo_name : is_u32 (Z.of_nat (length (column_family_name_ e)))
}.

(** What comes back: fields that were not set are cleared, the highest level is
    computed, and files lose the statistics of the fork. *)
Definition decoded_edit (next : nat) (e : VersionEdit) : VersionEdit :=
  mkVersionEdit
    (foldl (fun m nf => higher m (fst nf)) (foldl (fun m d => higher m (fst d)) 0 (deleted_files_ e)) (new_files_ e))
    (if has_comparator_ e then comparator_ e else [])
    (if has_log_number_ e then log_number_ e else 0)
    (if has_prev_log_number_ e then prev_log_number_ e else 0)
    (if has_next_file_number_ e then next_file_number_ e else 0)
    (if has_max_column_family_ e then max_column_family_ e else 0)
    (if has_last_sequence_ e then last_sequence_ e else 0)
    (has_comparator_ e) (has_log_number_ e) (has_prev_log_number_ e) (has_next_file_number_ e)
    (has_last_sequence_ e) (has_max_column_family_ e)
    (deleted_files_ e) (decoded_files next (S next) (new_files_ e)) (column_family_ e)
    (is_column_family_drop_ e) (is_column_family_add_ e)
    (if is_column_family_add_ e then column_family_name_ e else []).

(** The updates of the fields before and after the files. *)
Definition when (c : bool) (f : VersionEdit -> VersionEdit) (p : Parser) : Parser :=
  if c then numbers f p else p.

Definition after_numbers (e : VersionEdit) (p : Parser) : Parser :=
  let p := when (has_comparator_ e) (SetComparatorName (comparator_ e)) p in
  let p := when (has_log_number_ e) (SetLogNumber (log_number_ e)) p in
  let p := when (has_prev_log_number_ e) (SetPrevLogNumber (prev_log_number_ e)) p in
  let p := when (has_next_file_number_ e) (SetNextFile (next_file_number_ e)) p in
  let p := when (has_last_sequence_ e) (SetLastSequence (last_sequence_ e)) p in
  when (has_max_column_family_ e) (SetMaxColumnFamily (max_column_family_ e)) p.

Definition after_column_family (e : VersionEdit) (p : Parser) : Parser :=
  let p := when (negb (column_family_ e =? 0)) (SetColumnFamily (column_family_ e)) p in
  let p := when (is_column_family_add_ e) (AddColumnFamily (column_family_name_ e)) p in
  when (is_column_family_drop_ e) DropColumnFamily p.

Lemma decodes_numbers e p : edit_ok e -> decodes (encode_numbers e) p (after_numbers e p).
Proof.
  intros []. unfold encode_numbers, after_numbers, when.
  repeat (eapply decodes_app; [apply decodes_if; intros _;
    (apply decodes_comparator || apply decodes_log_number || apply decodes_prev_log_number ||
     apply decodes_next_file || apply decodes_last_sequence); assumption|]).
  apply decodes_if. intros _. by apply decodes_max_column_family.
Qed.

Lemma decodes_tail e p : edit_ok e -> decodes (encode_column_family e) p (after_column_family e p).
Proof.
  intros []. unfold encode_column_family, after_column_family, when.
  eapply decodes_app; [apply decodes_if; intros _; by apply decodes_column_family|].
  eapply decodes_app; [apply decodes_if; intros _; by apply decodes_column_family_add|].
  apply decodes_if. intros _. apply decodes_column_family_drop.
Qed.

Lemma after_numbers_spec e p :
  p_edit p = VersionEdit_Clear ->
  after_numbers e p = p <| p_edit := mkVersionEdit 0
    (if has_comparator_ e then comparator_ e else []) (if has_log_number_ e then log_number_ e else 0)
    (if has_prev_log_number_ e then prev_log_number_ e else 0)
    (if has_next_file_number_ e then next_file_number_ e else 0)
    (if has_max_column_family_ e then max_column_family_ e else 0)
    (if has_last_sequence_ e then last_sequence_ e else 0)
    (has_comparator_ e) (has_log_number_ e) (has_prev_log_number_ e) (has_next_file_number_ e)
    (has_last_sequence_ e) (has_max_column_family_ e) [] [] 0 false false [] |>.
Proof.
  destruct p as [? pe ? ? ?]. cbn. intros ->. unfold after_numbers, when, numbers.
  destruct (has_comparator_ e), (has_log_number_ e), (has_prev_log_number_ e), (has_next_file_number_ e),
    (has_last_sequence_ e), (has_max_column_family_ e); reflexivity.
Qed.

Lemma after_column_family_spec e p :
  column_family_ (p_edit p) = 0 -> is_column_family_add_ (p_edit p) = false ->
  is_column_family_drop_ (p_edit p) = false -> column_family_name_ (p_edit p) = [] ->
  after_column_family e p = p <| p_edit ::= fun d => d <| column_family_ := column_family_ e |>
    <| is_column_family_add_ := is_column_family_add_ e |> <| is_column_family_drop_ := is_column_family_drop_ e |>
    <| column_family_name_ := if is_column_family_add_ e then column_family_name_ e else [] |> |>.
Proof.
  destruct p as [? pe ? ? ?]. destruct pe; cbn. intros -> -> -> ->. unfold after_column_family, when, numbers.
  destruct (Z.eqb_spec (column_family_ e) 0) as [->|_], (is_column_family_add_ e), (is_column_family_drop_ e);
    reflexivity.
Qed.

Lemma decode_loop_decodes b p p' next :
  decodes b p p' -> p = mkParser b VersionEdit_Clear (FileMetaData_new next) (S next) true ->
  DecodeFrom next b = Some (OK, p_edit p', p_ok p').
Proof.
  intros (j & Hj & Hd) ->. unfold DecodeFrom.
  specialize (Hd (S (length b - j)) []). rewrite app_nil_r in Hd.
  replace (S (length b)) with (j + S (length b - j))%nat by lia.
  unfold put in Hd. cbn [p_edit p_f p_next_hll p_ok] in Hd. rewrite Hd. done.
Qed.

(** C37: an edit with a valid key range for every file is encoded, and its encoding
    decodes to the same edit: the same numbers, flags, column family, deleted files,
    and the same files with their paths and marks in the same order.  Only the
    statistics that the fork keeps of a file are lost, and files that are not marked
    for compaction share one sketch.  No assertion of the decoder fails. *)
Theorem version_edit_roundtrip (next : nat) (e : VersionEdit) :
  edit_ok e ->
  fst (EncodeTo e) = true /\
  DecodeFrom next (snd (EncodeTo e)) = Some (OK, decoded_edit next e, true).
Proof.
  intros He. destruct He as [] eqn:EHe. unfold EncodeTo.
  set (p0 := mkParser [] VersionEdit_Clear (FileMetaData_new next) (S next) true).
  pose proof (after_numbers_spec e p0 eq_refl) as E1.
  set (p2 := numbers (delete_all (deleted_files_ e)) (after_numbers e p0)).
  assert (Hb : blank next (p_f p2)) by (unfold p2; rewrite E1; by repeat split).
  destruct (decodes_files next (new_files_ e) p2) as (b & Hb1 & Hd); [done|done|].
  rewrite Hb1. split; [done|]. cbn [snd].
  set (p4 := after_column_family e (after_files next (new_files_ e) p2)).
  assert (Hall : decodes (encode_numbers e ++ flat_map encode_deleted (deleted_files_ e) ++ b ++ encode_column_family e) p0 p4).
  { eapply decodes_app; [by apply decodes_numbers|]. eapply decodes_app; [by apply decodes_deleted_files|].
    eapply decodes_app; [exact Hd|by apply decodes_tail]. }
  destruct (after_files_spec next (new_files_ e) p2) as [Ef Eok].
  assert (E2 : p_edit p2 = (p_edit (after_numbers e p0)) <| deleted_files_ := deleted_files_ e |>
      <| max_level_ := foldl (fun m d => higher m (fst d)) 0 (deleted_files_ e) |>).
  { unfold p2, numbers. cbn [p_edit set]. rewrite delete_all_spec; rewrite E1; done. }
  set (src := encode_numbers e ++ _) in *.
  rewrite (decode_loop_decodes src (put p0 src) p4 next); [|exact Hall|done].
  do 2 f_equal. f_equal.
  - assert (En : p_next_hll p2 = S next).
    { change (p_next_hll p2) with (p_next_hll (after_numbers e p0)). by rewrite E1. }
    rewrite E2, E1, En in Ef. unfold p4. rewrite after_column_family_spec by (by rewrite Ef).
    cbn [p_edit set]. by rewrite Ef.
  - assert (Eok' : p_ok (after_files next (new_files_ e) p2) = true).
    { rewrite Eok. change (p_ok p2) with (p_ok (after_numbers e p0)). by rewrite E1. }
    unfold p4, after_column_family, when. by destruct (negb _), (is_column_family_add_ e), (is_column_family_drop_ e).
Qed.

(** ** Any input *)

(** Parsing never lengthens the input. *)
Definition shrinks {A} (m : parse A) : Prop :=
  forall p, (length (p_input (snd (m p))) <= length (p_input p))%nat.

Lemma shrinks_bind {A B} (m : parse A) (k : A -> parse B) :
  shrinks m -> (forall x, shrinks (k x)) -> shrinks (bind m k).
Proof.
  intros Hm Hk p. unfold bind. specialize (Hm p). destruct (m p) as [[x|] q]; cbn in *; [|done].
  specialize (Hk x q). lia.
Qed.

Lemma shrinks_get {A} (g : bytes -> option (A * bytes)) :
  (forall b x r, g b = Some (x, r) -> (length r <= length b)%nat) -> shrinks (get g).
Proof.
  intros Hg p. unfold get. destruct (g (p_input p)) as [[x r]|] eqn:E; cbn; [|done]. by eapply Hg.
Qed.

Lemma shrinks_modify f : (forall p, p_input (f p) = p_input p) -> shrinks (modify f).
Proof. intros Hf p. cbn. by rewrite Hf. Qed.

Create HintDb shrinks.
#[local] Hint Resolve shrinks_bind shrinks_modify : shrinks.

Lemma shrinks_varint32 : shrinks (get GetVarint32).
Proof. apply shrinks_get. intros b x r H. apply GetVarint32_shrinks in H as [_ ?]. lia. Qed.

Lemma shrinks_varint64 : shrinks (get GetVarint64).
Proof. apply shrinks_get. intros b x r H. apply GetVarint64_shrinks in H as [_ ?]. lia. Qed.

Lemma shrinks_slice : shrinks (get GetLengthPrefixedSlice).
Proof. apply shrinks_get. intros b x r H. apply GetLengthPrefixedSlice_shrinks in H. lia. Qed.
#[local] Hint Resolve shrinks_varint32 shrinks_varint64 shrinks_slice : shrinks.

Lemma shrinks_set_edit f : shrinks (set_edit f).
Proof. by apply shrinks_modify. Qed.

Lemma shrinks_set_f f : shrinks (set_f f).
Proof. by apply shrinks_modify. Qed.

Lemma shrinks_ret {A} (x : A) : shrinks (ret x).
Proof. by intros p. Qed.

Lemma shrinks_push level number path_id size : shrinks (push_file level number path_id size).
Proof. by apply shrinks_modify. Qed.
#[local] Hint Resolve shrinks_set_edit shrinks_set_f shrinks_ret shrinks_push : shrinks.

Lemma shrinks_key store : shrinks (GetInternalKey store).
Proof.
  unfold GetInternalKey. apply shrinks_bind; [auto with shrinks|]. intros str.
  apply shrinks_bind; [auto with shrinks|]. intros _ p. done.
Qed.
#[local] Hint Resolve shrinks_key : shrinks.

Lemma shrinks_level : shrinks GetLevel.
Proof. unfold GetLevel. auto with shrinks. Qed.

Lemma shrinks_smallest_seqno : shrinks GetSmallestSeqno.
Proof. unfold GetSmallestSeqno. auto with shrinks. Qed.

Lemma shrinks_largest_seqno : shrinks GetLargestSeqno.
Proof. unfold GetLargestSeqno. auto with shrinks. Qed.

Lemma shrinks_smallest : shrinks GetSmallest.
Proof. apply shrinks_key. Qed.

Lemma shrinks_largest : shrinks GetLargest.
Proof. apply shrinks_key. Qed.
#[local] Hint Resolve shrinks_level shrinks_smallest_seqno shrinks_largest_seqno shrinks_smallest shrinks_largest : shrinks.

Lemma shrinks_or_msg m msg p :
  shrinks m -> let '(r, q) := or_msg m msg p in r <> OutOfFuel /\ (length (p_input q) <= length (p_input p))%nat.
Proof.
  intros Hm. unfold or_msg. specialize (Hm p). destruct (m p) as [[[]|] q]; cbn in *; done.
Qed.

(** A tag takes at least one byte. *)
Lemma get_tag_shrinks p v q :
  get GetVarint32 p = (Some v, q) -> (length (p_input q) < length (p_input p))%nat.
Proof.
  unfold get. destruct (GetVarint32 (p_input p)) as [[x r]|] eqn:E; [|done]. intros [= <- <-].
  by apply GetVarint32_shrinks in E as [_ ?].
Qed.

Lemma custom_fields_total fuel : forall path_id p,
  (length (p_input p) < fuel)%nat ->
  let '(r, q) := custom_fields fuel path_id p in
  r <> CustomFuel /\ (length (p_input q) <= length (p_input p))%nat.
Proof.
  induction fuel as [|fuel IH]; intros path_id p Hfuel; [lia|]. cbn [custom_fields].
  pose proof (shrinks_varint32 p) as Hle.
  destruct (get GetVarint32 p) as [[tag|] q] eqn:E; [|by split].
  apply get_tag_shrinks in E. cbn in Hle. destruct (tag =? kTerminate); [by split|].
  pose proof (shrinks_slice q) as Hq. destruct (get GetLengthPrefixedSlice q) as [[field|] s]; cbn [snd] in Hq;
    [|split; [done|lia]].
  assert (Hrec : forall path p', p_input p' = p_input s ->
    let '(r, q') := custom_fields fuel path p' in r <> CustomFuel /\ (length (p_input q') <= length (p_input p))%nat).
  { intros path p' Hp'. specialize (IH path p'). rewrite Hp' in IH. specialize (IH ltac:(lia)).
    destruct (custom_fields fuel path p') as [r q']. destruct IH. split; [done|lia]. }
  assert (Herr : forall msg, CustomError msg <> CustomFuel /\ (length (p_input s) <= length (p_input p))%nat)
    by (intros msg; split; [done|lia]).
  destruct (tag =? kPathId).
  { destruct field as [|c [|]]; [done|destruct (u32_of_char c >? 3); [done|by apply Hrec]|done]. }
  destruct (tag =? kNeedCompaction).
  { destruct field as [|c [|]]; [done|by apply Hrec|done]. }
  destruct (negb _); [done|by apply Hrec].
Qed.

Lemma DecodeNewFile4From_total p :
  let '(r, q) := DecodeNewFile4From p in r <> OutOfFuel /\ (length (p_input q) <= length (p_input p))%nat.
Proof.
  unfold DecodeNewFile4From. set (p1 := _ <| p_next_hll ::= S |>).
  set (m := bind GetLevel _). assert (Hm : shrinks m) by (unfold m; auto 20 with shrinks).
  specialize (Hm p1). change (p_input p1) with (p_input p) in Hm.
  destruct (m p1) as [[[[level number] size]|] q]; cbn [snd] in Hm; [|done].
  pose proof (custom_fields_total (S (length (p_input q))) 0 q ltac:(lia)) as Hc.
  destruct (custom_fields _ 0 q) as [[path|msg|] s]; destruct Hc as [Hc1 Hc2]; cbn in *; [|split; [done|lia]|done].
  split; [done|]. cbn. lia.
Qed.

Lemma decode_tag_total tag p :
  let '(r, q) := decode_tag tag p in r <> OutOfFuel /\ (length (p_input q) <= length (p_input p))%nat.
Proof.
  unfold decode_tag.
  repeat match goal with
  | |- context [if tag =? ?k then _ else _] =>
      destruct (tag =? k); [first [exact (DecodeNewFile4From_total p) | apply shrinks_or_msg; auto 20 with shrinks]|]
  end. done.
Qed.

Lemma decode_loop_total fuel : forall p,
  (length (p_input p) < fuel)%nat -> fst (decode_loop fuel p) <> OutOfFuel.
Proof.
  induction fuel as [|fuel IH]; intros p Hfuel; [lia|]. cbn [decode_loop].
  destruct (get GetVarint32 p) as [[tag|] q] eqn:E.
  - apply get_tag_shrinks in E. pose proof (decode_tag_total tag q) as Ht.
    destruct (decode_tag tag q) as [[|msg|] s]; destruct Ht as [Ht1 Ht2]; [|done|done]. apply IH. lia.
  - by destruct (bool_decide _).
Qed.


(** ** Instances *)

Definition sample_key : bytes := AppendInternalKey [] (mkParsed [byte_of_Z 97] 5 kTypeValue).

Definition sample_file (number path_id : Z) (marked : bool) : FileMetaData :=
  mkFile (FileDescriptor_make number path_id 4096) sample_key sample_key 5 9 marked 7 1 2 3 4.

Definition sample_edit : VersionEdit :=
  AddFile 1 (sample_file 12 0 false) (AddFile 0 (sample_file 11 2 true) (AddFile 2 (sample_file 10 1 false)
    (DeleteFile 3 8 (DeleteFile 1 9 (SetLogNumber 6 VersionEdit_Clear))))).

Ltac in_range := unfold is_level, is_u32, is_u64; split; vm_compute; congruence.

Lemma sample_file_ok level number path_id marked :
  is_level level -> is_u64 (packed_number_and_path_id (FileDescriptor_make number path_id 4096)) ->
  file_ok (level, sample_file number path_id marked).
Proof. intros Hl Hp. split; [done|done|in_range|split; [in_range|done]|split; [in_range|done]|in_range|in_range]. Qed.

Lemma sample_edit_ok : edit_ok sample_edit.
Proof.
  split; [in_range..| | | |in_range|in_range].
  - apply Forall_cons; split; [split; in_range|]. apply Forall_cons; split; [split; in_range|constructor].
  - repeat constructor.
  - repeat (apply Forall_cons; split; [apply sample_file_ok; in_range|]). constructor.
Qed.

Lemma version_edit_roundtrip_witness :
  fst (EncodeTo sample_edit) = true /\
  exists e, DecodeFrom 0 (snd (EncodeTo sample_edit)) = Some (OK, e, true) /\
    map (fun nf => GetPathId (fd (snd nf))) (new_files_ e) = [1; 2; 0] /\ max_level_ e = 3.
Proof.
  destruct (version_edit_roundtrip 0 sample_edit) as [H1 H2].
  - exact sample_edit_ok.
  - split; [exact H1|]. exists (decoded_edit 0 sample_edit). split; [exact H2|]. by vm_compute.
Defined.

(** The oldest format does not store sequence numbers: a file read in it gets those
    of the file before it, or the initial ones if it is the first. *)
Example old_format_inherits_seqnos :
  let old := PutVarint32 kNewFile ++ PutVarint32Varint64 0 13 ++ PutVarint64 4096 ++
             PutLengthPrefixedSlice sample_key ++ PutLengthPrefixedSlice sample_key in
  let new := default [] (encode_new_file (0, sample_file 12 0 false)) in
  let seqnos src := match DecodeFrom 0 src with
    | Some (_, e, _) => map (fun nf => (smallest_seqno (snd nf), largest_seqno (snd nf))) (new_files_ e)
    | None => [] end in
  seqnos old = [(kMaxSequenceNumber, 0)] /\ seqnos (new ++ old) = [(5, 9); (5, 9)].
Proof. by vm_compute. Qed.
