(* ===== verification/BinaryHeap.v ===== *)
(** * The binary heap of the merging iterators (util/heap.h)

    An array heap with a replace-top operation.  [cmp] is the less-than relation
    and the top is a maximum; it is an argument of every operation, because the
    elements are pointers to iterators whose order changes as they move.  The heap
    remembers which child of the root is the larger one, so that replacing the top
    by an element that stays on top costs one comparison. *)

From Stdlib Require Import Lia.
From stdpp Require Import base list.
From S2P Require Import Prelude.
#[local] Open Scope nat_scope.

(** ** The heap *)

(** [root_cmp_cache_] is [None] where the code has [port::kMaxSizet], which is not
    below any size. *)
Record BinaryHeap (T : Type) := mkHeap { data_ : list T; root_cmp_cache_ : option nat }.
Arguments mkHeap {T}.
Arguments data_ {T}.
Arguments root_cmp_cache_ {T}.

Definition heap_new {T} : BinaryHeap T := mkHeap [] None.
Definition heap_clear {T} (h : BinaryHeap T) : BinaryHeap T := mkHeap [] None.
Definition heap_empty {T} (h : BinaryHeap T) : bool := match data_ h with [] => true | _ => false end.

(** Both heaps after the exchange of their contents. *)
Definition heap_swap {T} (h other : BinaryHeap T) : BinaryHeap T * BinaryHeap T := (other, h).

Definition get_parent (index : nat) : nat := (index - 1) / 2.
Definition get_left (index : nat) : nat := 2 * index + 1.
Definition get_right (index : nat) : nat := 2 * index + 2.

Section Operations.
Context {T : Type} `{Inhabited T} (cmp : T -> T -> bool).

(** The loop of [upheap]: where the value ends up, and the array around it. *)
Fixpoint upheap_loop (fuel index : nat) (v : T) (data : list T) : nat * list T :=
  match fuel with
  | O => (index, data)
  | S fuel =>
      if index =? 0 then (index, data)
      else
        let parent := get_parent index in
        if negb (cmp (data !!! parent) v) then (index, data)
        else upheap_loop fuel parent v (<[index := data !!! parent]> data)
  end.

Definition upheap (index : nat) (h : BinaryHeap T) : BinaryHeap T :=
  let v := data_ h !!! index in
  let '(i, data) := upheap_loop (S index) index v (data_ h) in
  mkHeap (<[i := v]> data) None.

(** The child to compare with: the remembered one, or the larger one. *)
Definition pick_child (cache : option nat) (index : nat) (data : list T) : nat :=
  let left_child := get_left index in
  let right_child := left_child + 1 in
  match cache with
  | Some c => if (index =? 0) && (c <? length data) then c
              else if (right_child <? length data) && cmp (data !!! left_child) (data !!! right_child)
              then right_child else left_child
  | None => if (right_child <? length data) && cmp (data !!! left_child) (data !!! right_child)
            then right_child else left_child
  end.

Fixpoint downheap_loop (fuel : nat) (cache : option nat) (index : nat) (picked : option nat) (v : T)
    (data : list T) : nat * option nat * list T :=
  match fuel with
  | O => (index, picked, data)
  | S fuel =>
      if length data <=? get_left index then (index, picked, data)
      else
        let c := pick_child cache index data in
        if negb (cmp v (data !!! c)) then (index, Some c, data)
        else downheap_loop fuel cache c (Some c) v (<[index := data !!! c]> data)
  end.

Definition downheap (index : nat) (h : BinaryHeap T) : BinaryHeap T :=
  let v := data_ h !!! index in
  let '(i, picked, data) := downheap_loop (length (data_ h)) (root_cmp_cache_ h) index None v (data_ h) in
  mkHeap (<[i := v]> data) (if i =? 0 then picked else None).

Definition heap_push (value : T) (h : BinaryHeap T) : BinaryHeap T :=
  upheap (length (data_ h)) (mkHeap (data_ h ++ [value]) (root_cmp_cache_ h)).

Definition heap_top (h : BinaryHeap T) : option T := head (data_ h).

Definition heap_replace_top (value : T) (h : BinaryHeap T) : BinaryHeap T :=
  downheap 0 (mkHeap (<[0 := value]> (data_ h)) (root_cmp_cache_ h)).

Definition heap_pop (h : BinaryHeap T) : BinaryHeap T :=
  let data := removelast (<[0 := List.last (data_ h) inhabitant]> (data_ h)) in
  let h := mkHeap data (root_cmp_cache_ h) in
  if negb (heap_empty h) then downheap 0 h else mkHeap data None.
End Operations.

(** ** Order *)

(** What is used of the comparison, on the elements that can be compared: it is
    asymmetric, and "not less than" is transitive. *)
Class HeapOrder {T} (cmp : T -> T -> bool) (comparable : T -> Prop) : Prop := {
  cmp_asym a b : comparable a -> comparable b -> cmp a b = true -> cmp b a = false;
  cmp_neg_trans a b c : comparable a -> comparable b -> comparable c ->
    cmp a b = false -> cmp b c = false -> cmp a c = false
}.

Section Order.
Context {T : Type} `{Inhabited T} (cmp : T -> T -> bool) (comparable : T -> Prop)
  `{HeapOrder T cmp comparable}.

(** [data] is a heap except for the pairs of a child and a parent that satisfy [P]. *)
Definition heap_but (P : nat -> nat -> Prop) (data : list T) : Prop :=
  forall j, 0 < j < length data -> ~ P (get_parent j) j -> cmp (data !!! get_parent j) (data !!! j) = false.

Definition heap_ok (data : list T) : Prop := heap_but (fun _ _ => False) data.

(** The remembered child is one of the root's, and not less than the other one. *)
Definition cache_ok (cache : option nat) (data : list T) : Prop :=
  forall c, cache = Some c -> c < length data ->
  (c = 1 \/ c = 2) /\ forall c', (c' = 1 \/ c' = 2) -> c' < length data -> cmp (data !!! c) (data !!! c') = false.

Definition heap_wf (h : BinaryHeap T) : Prop := heap_ok (data_ h) /\ cache_ok (root_cmp_cache_ h) (data_ h).

(** All is in order but the root. *)
Definition heap_wf_below (h : BinaryHeap T) : Prop :=
  heap_but (fun p _ => p = 0) (data_ h) /\ cache_ok (root_cmp_cache_ h) (data_ h).

Lemma heap_wf_weaken h : heap_wf h -> heap_wf_below h.
Proof. intros [H1 H2]. split; [|done]. intros j Hj _. apply H1; tauto. Qed.

Lemma cmp_irrefl a : comparable a -> cmp a a = false.
Proof. intros Ha. destruct (cmp a a) eqn:E; [|done]. pose proof (cmp_asym _ _ Ha Ha E). congruence. Qed.

Lemma comparable_at (data : list T) j : Forall comparable data -> j < length data -> comparable (data !!! j).
Proof. intros Hd Hj. eapply Forall_lookup_1; [done|]. by apply list_lookup_lookup_total_lt. Qed.

Lemma comparable_all (data : list T) :
  (forall j, j < length data -> comparable (data !!! j)) -> Forall comparable data.
Proof.
  intros Hd. apply Forall_lookup. intros j x Hj. rewrite <- (list_lookup_total_correct _ _ _ Hj).
  by apply Hd, (lookup_lt_Some _ _ x).
Qed.

Lemma parent_lt j : 0 < j -> get_parent j < j.
Proof. intros. unfold get_parent. apply Nat.Div0.div_lt_upper_bound. lia. Qed.

Lemma parent_child i j : 0 < j -> get_parent j = i -> j = get_left i \/ j = get_right i.
Proof.
  unfold get_parent, get_left, get_right. intros Hj Hi. pose proof (Nat.div_mod_eq (j - 1) 2).
  pose proof (Nat.mod_upper_bound (j - 1) 2 ltac:(lia)). lia.
Qed.

Lemma parent_of_left i : get_parent (get_left i) = i.
Proof. unfold get_parent, get_left. replace (2 * i + 1 - 1) with (i * 2) by lia. apply Nat.div_mul. lia. Qed.

Lemma parent_of_right i : get_parent (get_right i) = i.
Proof.
  unfold get_parent, get_right. replace (2 * i + 2 - 1) with (1 + i * 2) by lia.
  rewrite Nat.div_add by lia. done.
Qed.

(** The top is a maximum. *)
Lemma heap_ok_top data j :
  Forall comparable data -> heap_ok data -> j < length data -> cmp (data !!! 0) (data !!! j) = false.
Proof.
  intros Hc Hd. induction (lt_wf j) as [j _ IH]. intros Hj. destruct (decide (j = 0)) as [->|Hne].
  - by apply cmp_irrefl, comparable_at.
  - pose proof (parent_lt j ltac:(lia)).
    apply (cmp_neg_trans _ (data !!! get_parent j)); [apply comparable_at; [done|lia]..| |].
    + apply IH; lia.
    + apply Hd; [lia|tauto].
Qed.

(** ** Elements *)

Lemma delete_insert_same (i : nat) (x : T) (data : list T) : delete i (<[i := x]> data) = delete i data.
Proof. revert i. induction data as [|y data IH]; intros [|i]; cbn; [done..|]. f_equal. apply IH. Qed.

Lemma insert_Permutation i x (data : list T) : i < length data -> <[i := x]> data ≡ₚ x :: delete i data.
Proof.
  intros Hi. rewrite <- (delete_insert_same i x data). apply delete_Permutation.
  by apply list_lookup_insert_eq.
Qed.

(** Moving the hole of an array from [i] to [p]. *)
Lemma move_hole i p (data : list T) :
  i < length data -> p < length data -> i <> p ->
  delete p (<[i := data !!! p]> data) ≡ₚ delete i data.
Proof.
  intros Hi Hp Hne. apply (Permutation_cons_inv (a := data !!! p)).
  rewrite <- (insert_Permutation i (data !!! p) data) by done. symmetry. apply delete_Permutation.
  rewrite list_lookup_insert_ne by done. by apply list_lookup_lookup_total_lt.
Qed.

Lemma lookup_total_insert_cases (data : list T) i j x :
  i < length data -> <[i := x]> data !!! j = if decide (i = j) then x else data !!! j.
Proof.
  intros Hi. case_decide as Hd; [subst; by apply list_lookup_total_insert_eq|by apply list_lookup_total_insert_ne].
Qed.

(** ** Moving up *)

(** [v] stands at [i]: all pairs are in order but the one above [v], and what is
    below [v] would be in order below its parent too. *)
Definition up_inv (i : nat) (v : T) (data : list T) : Prop :=
  Forall comparable (<[i := v]> data) /\
  (forall j, 0 < j < length data -> j <> i -> cmp (<[i := v]> data !!! get_parent j) (<[i := v]> data !!! j) = false) /\
  (0 < i -> forall j, 0 < j < length data -> get_parent j = i ->
     cmp (<[i := v]> data !!! get_parent i) (<[i := v]> data !!! j) = false).

Lemma up_inv_step i v data :
  0 < i < length data -> up_inv i v data -> cmp (data !!! get_parent i) v = true ->
  up_inv (get_parent i) v (<[i := data !!! get_parent i]> data).
Proof.
  intros Hi (Hc & Ha & Hb) Hcmp. set (p := get_parent i) in *. pose proof (parent_lt i ltac:(lia)) as Hpi. fold p in Hpi.
  set (D := <[i := v]> data) in *.
  assert (Hcd : forall j, j < length data -> comparable (D !!! j))
    by (intros j Hj; apply (comparable_at D); [done|unfold D; by rewrite length_insert]).
  assert (Hcv : comparable v).
  { specialize (Hcd i ltac:(lia)). unfold D in Hcd. by rewrite lookup_total_insert_cases, decide_True in Hcd by lia. }
  assert (HDp : D !!! p = data !!! p) by (unfold D; rewrite lookup_total_insert_cases, decide_False by lia; done).
  assert (HD' : forall j, <[p := v]> (<[i := data !!! p]> data) !!! j =
    if decide (p = j) then v else if decide (i = j) then D !!! p else D !!! j).
  { intros j. rewrite lookup_total_insert_cases by (rewrite length_insert; lia). case_decide; [done|].
    rewrite lookup_total_insert_cases by lia. case_decide; [done|].
    unfold D. by rewrite lookup_total_insert_cases, decide_False by (lia || done). }
  assert (Hvp : cmp v (D !!! p) = false).
  { apply cmp_asym; [apply Hcd; lia|done|by rewrite HDp]. }
  split.
  { apply comparable_all. rewrite !length_insert. intros j Hj. rewrite HD'. repeat case_decide; auto. apply Hcd. lia. }
  split; rewrite length_insert; [intros j Hj Hjp|intros Hp0 j Hj Hjp]; rewrite !HD'; pose proof (parent_lt j ltac:(lia)).
  - rewrite (decide_False (P := p = j)) by done. destruct (decide (i = j)) as [<-|Hij].
    { fold p. by rewrite (decide_True (P := p = p)). }
    destruct (decide (p = get_parent j)) as [Hpj|Hpj].
    { apply (cmp_neg_trans _ (D !!! p)); [done|apply Hcd; lia..|done|]. rewrite Hpj. by apply Ha. }
    destruct (decide (i = get_parent j)) as [Hij'|Hij']; [|by apply Ha].
    apply Hb; [lia|done|done].
  - pose proof (parent_lt p Hp0).
    rewrite (decide_False (P := p = get_parent p)), (decide_False (P := i = get_parent p)),
      (decide_False (P := p = j)) by lia.
    assert (Hpp : cmp (D !!! get_parent p) (D !!! p) = false) by (apply Ha; lia).
    destruct (decide (i = j)) as [<-|Hij]; [done|].
    apply (cmp_neg_trans _ (D !!! p)); [apply Hcd; lia..|done|].
    rewrite <- Hjp. apply Ha; [done|congruence].
Qed.

Lemma upheap_loop_spec fuel : forall i v data,
  i < length data -> i < fuel -> up_inv i v data ->
  let '(i', data') := upheap_loop cmp fuel i v data in
  i' < length data' /\ delete i' data' ≡ₚ delete i data /\ heap_ok (<[i' := v]> data').
Proof.
  induction fuel as [|fuel IH]; intros i v data Hi Hfuel Hinv; [lia|]. cbn [upheap_loop].
  destruct (Nat.eqb_spec i 0) as [->|Hi0].
  { split; [done|]. split; [done|]. destruct Hinv as (_ & Ha & _). intros j Hj _. rewrite length_insert in Hj. apply Ha; lia. }
  pose proof (parent_lt i ltac:(lia)) as Hp.
  destruct (cmp (data !!! get_parent i) v) eqn:E; cbn [negb].
  - pose proof (up_inv_step i v data ltac:(lia) Hinv E) as Hinv'.
    specialize (IH (get_parent i) v (<[i := data !!! get_parent i]> data)).
    rewrite length_insert in IH. specialize (IH ltac:(lia) ltac:(lia) Hinv').
    destruct (upheap_loop cmp fuel _ v _) as [i' data']. destruct IH as (H1 & H2 & H3).
    split; [done|]. split; [|done]. rewrite H2. by apply move_hole; lia.
  - split; [done|]. split; [done|]. intros j Hj _. rewrite length_insert in Hj.
    destruct Hinv as (_ & Ha & _). destruct (decide (j = i)) as [->|Hji]; [|by apply Ha].
    rewrite !lookup_total_insert_cases, decide_False, decide_True by lia. done.
Qed.

Lemma upheap_spec i h :
  i < length (data_ h) -> Forall comparable (data_ h) ->
  (forall j, 0 < j < length (data_ h) -> j <> i -> cmp (data_ h !!! get_parent j) (data_ h !!! j) = false) ->
  (forall j, 0 < j < length (data_ h) -> get_parent j <> i) ->
  heap_wf (upheap cmp i h) /\ data_ (upheap cmp i h) ≡ₚ data_ h.
Proof.
  intros Hi Hc Ha Hleaf. unfold upheap.
  assert (Hid : <[i := data_ h !!! i]> (data_ h) = data_ h)
    by (apply list_insert_id; by apply list_lookup_lookup_total_lt).
  assert (Hinv : up_inv i (data_ h !!! i) (data_ h)).
  { split; [by rewrite Hid|]. split; rewrite Hid; [done|]. intros _ j Hj Hji. exfalso. by apply (Hleaf j). }
  pose proof (upheap_loop_spec (S i) i _ (data_ h) Hi ltac:(lia) Hinv) as Hl.
  destruct (upheap_loop cmp (S i) i _ _) as [i' data']. destruct Hl as (H1 & H2 & H3).
  split; [split; [done|by intros c]|]. cbn [data_]. rewrite insert_Permutation, H2 by done.
  symmetry. apply delete_Permutation. by apply list_lookup_lookup_total_lt.
Qed.

Lemma lookup_total_snoc (data : list T) (v : T) j :
  j < length data -> (data ++ [v]) !!! j = data !!! j.
Proof. intros. by apply lookup_total_app_l. Qed.

Lemma heap_push_spec v h :
  comparable v -> Forall comparable (data_ h) -> heap_wf h ->
  heap_wf (heap_push cmp v h) /\ data_ (heap_push cmp v h) ≡ₚ v :: data_ h.
Proof.
  intros Hv Hc [Hok _]. unfold heap_push.
  destruct (upheap_spec (length (data_ h)) (mkHeap (data_ h ++ [v]) (root_cmp_cache_ h))) as [H1 H2];
    cbn [data_]; rewrite ?length_app; cbn [length].
  - lia.
  - apply Forall_app. split; [done|]. by apply Forall_singleton.
  - intros j Hj Hne. pose proof (parent_lt j ltac:(lia)). rewrite !lookup_total_snoc by lia.
    apply Hok; [lia|tauto].
  - intros j Hj. pose proof (parent_lt j ltac:(lia)). lia.
  - split; [done|]. rewrite H2. cbn [data_]. by rewrite Permutation_app_comm.
Qed.

(** ** Moving down *)

(** [v] stands at [i]: all pairs are in order but those below [v], and what is below
    [v] would be in order below its parent too. *)
Definition down_inv (i : nat) (v : T) (data : list T) : Prop :=
  Forall comparable (<[i := v]> data) /\
  (forall j, 0 < j < length data -> get_parent j <> i ->
     cmp (<[i := v]> data !!! get_parent j) (<[i := v]> data !!! j) = false) /\
  (0 < i -> forall j, 0 < j < length data -> get_parent j = i ->
     cmp (<[i := v]> data !!! get_parent i) (<[i := v]> data !!! j) = false).

(** [c] is a child of [i] and not less than the other one. *)
Definition larger_child (i c : nat) (data : list T) : Prop :=
  0 < c < length data /\ get_parent c = i /\
  forall j, 0 < j < length data -> get_parent j = i -> cmp (data !!! c) (data !!! j) = false.

Lemma pick_child_spec cache i data :
  (forall j, i < j < length data -> comparable (data !!! j)) ->
  (i = 0 -> cache_ok cache data) -> get_left i < length data -> larger_child i (pick_child cmp cache i data) data.
Proof.
  intros Hcomp Hcache Hleft.
  assert (Hdef : larger_child i (if (get_left i + 1 <? length data) && cmp (data !!! get_left i) (data !!! (get_left i + 1))
    then get_left i + 1 else get_left i) data).
  { replace (get_left i + 1) with (get_right i) by (unfold get_left, get_right; lia).
    destruct (Nat.ltb_spec (get_right i) (length data)) as [Hr|Hr]; cbn [andb].
    - destruct (cmp (data !!! get_left i) (data !!! get_right i)) eqn:E.
      + split; [unfold get_right in *; lia|]. split; [apply parent_of_right|]. intros j Hj Hji.
        destruct (parent_child i j ltac:(lia) Hji) as [-> | ->]; [apply cmp_asym|apply cmp_irrefl]; try done;
          apply Hcomp; unfold get_left, get_right in *; lia.
      + split; [unfold get_left in *; lia|]. split; [apply parent_of_left|]. intros j Hj Hji.
        destruct (parent_child i j ltac:(lia) Hji) as [-> | ->]; [apply cmp_irrefl|done].
        apply Hcomp; unfold get_left, get_right in *; lia.
    - split; [unfold get_left in *; lia|]. split; [apply parent_of_left|]. intros j Hj Hji.
      destruct (parent_child i j ltac:(lia) Hji) as [-> | ->]; [apply cmp_irrefl|lia].
      apply Hcomp; unfold get_left in *; lia. }
  unfold pick_child. destruct cache as [c|]; [|exact Hdef].
  destruct ((i =? 0) && (c <? length data)) eqn:E; [|exact Hdef].
  apply andb_true_iff in E as [->%Nat.eqb_eq Hc%Nat.ltb_lt].
  destruct (Hcache eq_refl c eq_refl Hc) as [Hc12 Hmax].
  split; [lia|]. split; [by destruct Hc12 as [-> | ->]|]. intros j Hj Hji. apply Hmax; [|lia].
  destruct (parent_child 0 j ltac:(lia) Hji) as [-> | ->]; cbn; auto.
Qed.

Lemma down_inv_step i c v data :
  i < length data -> down_inv i v data -> larger_child i c data -> cmp v (data !!! c) = true ->
  down_inv c v (<[i := data !!! c]> data).
Proof.
  intros Hi (Hcomp & Ha & Hb) (Hc & Hci & Hmax) Hcmp. pose proof (parent_lt c ltac:(lia)) as Hlt. rewrite Hci in Hlt.
  set (D := <[i := v]> data) in *.
  assert (Hcd : forall j, j < length data -> comparable (D !!! j))
    by (intros j Hj; apply (comparable_at D); [done|unfold D; by rewrite length_insert]).
  assert (Hcomv : comparable v).
  { specialize (Hcd i ltac:(lia)). unfold D in Hcd. by rewrite lookup_total_insert_cases, decide_True in Hcd by lia. }
  assert (HDc : forall j, i <> j -> D !!! j = data !!! j)
    by (intros j Hj; unfold D; by rewrite lookup_total_insert_cases, decide_False by done).
  assert (HD' : forall j, <[c := v]> (<[i := data !!! c]> data) !!! j =
    if decide (c = j) then v else if decide (i = j) then D !!! c else D !!! j).
  { intros j. rewrite lookup_total_insert_cases by (rewrite length_insert; lia). case_decide; [done|].
    rewrite lookup_total_insert_cases by lia. case_decide; [by rewrite HDc by lia|by rewrite HDc]. }
  assert (Hcv : cmp (D !!! c) v = false).
  { apply cmp_asym; [done|apply Hcd; lia|by rewrite HDc by lia]. }
  split.
  { apply comparable_all. rewrite !length_insert. intros j Hj. rewrite HD'. repeat case_decide; auto. apply Hcd. lia. }
  split; rewrite length_insert; [intros j Hj Hjc|intros _ j Hj Hjc]; rewrite !HD';
    pose proof (parent_lt j ltac:(lia)) as Hpj.
  - rewrite (decide_False (P := c = get_parent j)) by congruence.
    destruct (decide (c = j)) as [<-|Hcj].
    { rewrite Hci, (decide_True (P := i = i)) by done. done. }
    destruct (decide (i = get_parent j)) as [Hij|Hij].
    { rewrite (decide_False (P := i = j)) by lia. rewrite !HDc by lia. by apply Hmax. }
    destruct (decide (i = j)) as [<-|Hij']; [|by apply Ha].
    apply Hb; [lia|lia|done].
  - rewrite Hci. rewrite (decide_False (P := c = i)), (decide_True (P := i = i)), (decide_False (P := c = j)),
      (decide_False (P := i = j)) by lia. rewrite <- Hjc at 1. apply Ha; [done|lia].
Qed.

(** What the loop leaves: [v] belongs at [i'], and if that is still the root, then
    the child it was compared with is the larger one. *)
Lemma downheap_loop_spec fuel : forall cache i picked v data,
  i < length data -> length data <= i + fuel -> (i = 0 -> cache_ok cache data) -> down_inv i v data ->
  (picked = None \/ 0 < i) ->
  let '(i', picked', data') := downheap_loop cmp fuel cache i picked v data in
  i' < length data' /\ delete i' data' ≡ₚ delete i data /\ heap_ok (<[i' := v]> data') /\
  (i' = 0 -> forall c, picked' = Some c -> larger_child 0 c data').
Proof.
  induction fuel as [|fuel IH]; intros cache i picked v data Hi Hfuel Hcache Hinv Hpicked; [lia|].
  cbn [downheap_loop]. destruct (Nat.leb_spec (length data) (get_left i)) as [Hleaf|Hleft].
  { split; [done|]. split; [done|]. split.
    - destruct Hinv as (_ & Ha & _). intros j Hj _. rewrite length_insert in Hj. apply Ha; [done|]. intros Hji.
      destruct (parent_child i j ltac:(lia) Hji) as [-> | ->]; unfold get_left, get_right in *; lia.
    - intros -> c ->. destruct Hpicked; [done|lia]. }
  assert (Hcomp : forall j, i < j < length data -> comparable (data !!! j)).
  { intros j Hj. destruct Hinv as (Hcd & _). pose proof (comparable_at _ j Hcd) as Hcj.
    rewrite length_insert in Hcj. rewrite lookup_total_insert_cases, decide_False in Hcj by lia. apply Hcj. lia. }
  pose proof (pick_child_spec cache i data Hcomp Hcache Hleft) as Hc. set (c := pick_child cmp cache i data) in *.
  destruct (cmp v (data !!! c)) eqn:E; cbn [negb].
  - pose proof (down_inv_step i c v data Hi Hinv Hc E) as Hinv'. destruct Hc as (Hc & Hci & Hmax).
    pose proof (parent_lt c ltac:(lia)) as Hlt. rewrite Hci in Hlt.
    specialize (IH cache c (Some c) v (<[i := data !!! c]> data)). rewrite length_insert in IH.
    specialize (IH ltac:(lia) ltac:(lia)).
    specialize (IH ltac:(lia) Hinv' ltac:(right; lia)).
    destruct (downheap_loop cmp fuel cache c _ v _) as [[i' p'] data']. destruct IH as (H1 & H2 & H3 & H4).
    split; [done|]. split; [|done]. rewrite H2. apply move_hole; lia.
  - split; [done|]. split; [done|]. split.
    + destruct Hinv as (Hcd & Ha & _). intros j Hj _. rewrite length_insert in Hj.
      destruct (decide (get_parent j = i)) as [Hji|Hji]; [|by apply Ha].
      destruct Hc as (Hc & Hci & Hmax). pose proof (parent_lt j ltac:(lia)). pose proof (parent_lt c ltac:(lia)).
      assert (Hcv : comparable v).
      { pose proof (comparable_at _ i Hcd) as Hci'. rewrite length_insert in Hci'.
        rewrite lookup_total_insert_cases, decide_True in Hci' by lia. auto. }
      rewrite Hji, !lookup_total_insert_cases, decide_True, decide_False by lia.
      apply (cmp_neg_trans _ (data !!! c)); [done|apply Hcomp; lia..|done|]. by apply Hmax.
    + by intros -> d [= <-].
Qed.

Lemma downheap_root_spec h :
  data_ h <> [] -> Forall comparable (data_ h) -> heap_wf_below h ->
  heap_wf (downheap cmp 0 h) /\ data_ (downheap cmp 0 h) ≡ₚ data_ h.
Proof.
  intros Hne Hcomp [Hbut Hcache]. unfold downheap.
  assert (Hlen : 0 < length (data_ h)) by (destruct (data_ h); [done|cbn; lia]).
  assert (Hid : <[0 := data_ h !!! 0]> (data_ h) = data_ h)
    by (apply list_insert_id; by apply list_lookup_lookup_total_lt).
  assert (Hinv : down_inv 0 (data_ h !!! 0) (data_ h)) by (split; [by rewrite Hid|]; split; rewrite Hid; [exact Hbut|lia]).
  pose proof (downheap_loop_spec (length (data_ h)) (root_cmp_cache_ h) 0 None _ (data_ h) Hlen ltac:(lia)
    ltac:(auto) Hinv ltac:(auto)) as Hl.
  destruct (downheap_loop _ _ _ _ _ _ _) as [[i' p'] data']. destruct Hl as (H1 & H2 & H3 & H4).
  split; [split; [done|]|].
  - cbn [root_cmp_cache_ data_]. destruct (Nat.eqb_spec i' 0) as [->|]; [|by intros c].
    intros c -> Hc. rewrite length_insert in Hc. destruct (H4 eq_refl c eq_refl) as (Hc1 & Hc2 & Hmax).
    split.
    + destruct (parent_child 0 c ltac:(lia) Hc2) as [-> | ->]; cbn; auto.
    + intros c' Hc' Hl. rewrite length_insert in Hl. rewrite !lookup_total_insert_cases, !decide_False by lia.
      apply Hmax; [lia|]. by destruct Hc' as [-> | ->].
  - cbn [data_]. rewrite insert_Permutation, H2 by done. symmetry. apply delete_Permutation.
    by apply list_lookup_lookup_total_lt.
Qed.

(** The pairs below the root do not depend on what the root is. *)
Lemma heap_wf_below_root v h :
  heap_wf_below h -> heap_wf_below (mkHeap (<[0 := v]> (data_ h)) (root_cmp_cache_ h)).
Proof.
  intros [Hbut Hcache]. destruct (data_ h) as [|x data] eqn:E; [split; cbn; [intros j ?; cbn in *; lia|by intros c ? ?%Nat.nlt_0_r]|].
  rewrite <- E in *. assert (0 < length (data_ h)) by (rewrite E; cbn; lia). split; cbn [data_ root_cmp_cache_].
  - intros j Hj Hp. rewrite length_insert in Hj. pose proof (parent_lt j ltac:(lia)).
    rewrite !lookup_total_insert_cases, !decide_False by lia. by apply Hbut.
  - intros c Hc Hl. rewrite length_insert in Hl. destruct (Hcache c Hc Hl) as [Hc12 Hmax]. split; [done|].
    intros c' Hc' Hl'. rewrite length_insert in Hl'. rewrite !lookup_total_insert_cases, !decide_False by lia.
    by apply Hmax.
Qed.

Lemma heap_replace_top_spec v h :
  data_ h <> [] -> comparable v -> Forall comparable (tail (data_ h)) -> heap_wf_below h ->
  heap_wf (heap_replace_top cmp v h) /\ data_ (heap_replace_top cmp v h) ≡ₚ v :: tail (data_ h).
Proof.
  intros Hne Hv Hc Hwf. unfold heap_replace_top.
  destruct (downheap_root_spec (mkHeap (<[0 := v]> (data_ h)) (root_cmp_cache_ h))) as [H1 H2].
  - cbn. by destruct (data_ h).
  - cbn. destruct (data_ h); [done|]. by apply Forall_cons.
  - by apply heap_wf_below_root.
  - split; [done|]. rewrite H2. cbn. by destruct (data_ h).
Qed.

(** Dropping the last element keeps the order. *)
Lemma heap_wf_below_removelast data cache :
  heap_wf_below (mkHeap data cache) -> heap_wf_below (mkHeap (removelast data) cache).
Proof.
  destruct data as [|x data] using rev_ind; [done|]. rewrite removelast_last. intros [Hbut Hcache].
  split; cbn [data_ root_cmp_cache_] in *.
  - intros j Hj Hp. pose proof (parent_lt j ltac:(lia)). specialize (Hbut j). rewrite length_app in Hbut. cbn [length] in Hbut.
    rewrite !lookup_total_snoc in Hbut by lia. apply Hbut; [lia|done].
  - intros c Hc Hl. specialize (Hcache c Hc). rewrite length_app in Hcache. cbn [length] in Hcache.
    destruct (Hcache ltac:(lia)) as [Hc12 Hmax]. split; [done|]. intros c' Hc' Hl'.
    specialize (Hmax c' Hc' ltac:(lia)). by rewrite !lookup_total_snoc in Hmax by lia.
Qed.

Lemma heap_pop_spec h :
  data_ h <> [] -> Forall comparable (tail (data_ h)) -> heap_wf_below h ->
  heap_wf (heap_pop cmp h) /\ data_ (heap_pop cmp h) ≡ₚ tail (data_ h).
Proof.
  intros Hne Hc Hwf. unfold heap_pop. set (data := removelast _).
  assert (Hperm : data ≡ₚ tail (data_ h)).
  { unfold data. destruct (data_ h) as [|x d] using rev_ind; [done|]. rewrite last_last.
    destruct d as [|y d]; cbn [insert list_insert app tail]; [done|].
    rewrite app_comm_cons, removelast_last, Permutation_app_comm. done. }
  assert (Hbelow : heap_wf_below (mkHeap data (root_cmp_cache_ h)))
    by (by apply heap_wf_below_removelast, (heap_wf_below_root _ h)).
  unfold heap_empty. cbn [data_]. destruct data as [|x d] eqn:E; cbn [negb].
  - split; [|done]. split; cbn; [intros j Hj; cbn in Hj; lia|by intros c].
  - destruct (downheap_root_spec (mkHeap (x :: d) (root_cmp_cache_ h))) as [H1 H2]; [done| |done|].
    { cbn. by rewrite Hperm. }
    split; [done|]. rewrite H2. done.
Qed.

Lemma heap_new_wf : heap_wf heap_new.
Proof. split; [intros j Hj; cbn in Hj; lia|by intros c]. Qed.

Lemma heap_top_spec h :
  Forall comparable (data_ h) -> heap_wf h ->
  match heap_top h with
  | Some x => exists rest, data_ h = x :: rest /\ forall y, y ∈ data_ h -> cmp x y = false
  | None => data_ h = []
  end.
Proof.
  intros Hc [Hok _]. unfold heap_top. destruct (data_ h) as [|x rest] eqn:E; [done|]. cbn. exists rest. split; [done|].
  intros y (j & Hj)%list_elem_of_lookup. change x with ((x :: rest) !!! 0).
  rewrite <- (list_lookup_total_correct _ _ _ Hj). apply heap_ok_top; [done|done|]. by eapply lookup_lt_Some.
Qed.
End Order.

(** ** When the order changes *)

Section Change.
Context {T : Type} `{Inhabited T} (cmp cmp' : T -> T -> bool).

Lemma lookup_total_tail (data : list T) j : 0 < j < length data -> data !!! j ∈ tail data.
Proof.
  intros Hj. destruct data as [|x data]; [cbn in Hj; lia|]. destruct j as [|j]; [lia|]. cbn in Hj |- *.
  apply (list_elem_of_lookup_total_2 data j). lia.
Qed.

Lemma heap_wf_ext h :
  (forall a b, a ∈ data_ h -> b ∈ data_ h -> cmp a b = cmp' a b) -> heap_wf cmp h -> heap_wf cmp' h.
Proof.
  intros Hext [Hok Hcache]. split.
  - intros j Hj Hn. pose proof (parent_lt j ltac:(lia)).
    rewrite <- Hext by (apply list_elem_of_lookup_total_2; lia). by apply Hok.
  - intros c Hc Hl. destruct (Hcache c Hc Hl) as [Hc12 Hmax]. split; [done|]. intros c' Hc' Hl'.
    rewrite <- Hext by (by apply list_elem_of_lookup_total_2). by apply Hmax.
Qed.

(** The root may change its place in the order, until it is replaced or popped. *)
Lemma heap_wf_below_ext h :
  (forall a b, a ∈ tail (data_ h) -> b ∈ tail (data_ h) -> cmp a b = cmp' a b) ->
  heap_wf_below cmp h -> heap_wf_below cmp' h.
Proof.
  intros Hext [Hok Hcache]. split.
  - intros j Hj Hn. pose proof (parent_lt j ltac:(lia)).
    rewrite <- Hext by (apply lookup_total_tail; lia). by apply Hok.
  - intros c Hc Hl. destruct (Hcache c Hc Hl) as [Hc12 Hmax]. split; [done|]. intros c' Hc' Hl'.
    rewrite <- Hext by (apply lookup_total_tail; lia). by apply Hmax.
Qed.
End Change.
