(* ===== verification/Iterators.v ===== *)
(** * Internal iterators (table/internal_iterator.h, table/iterator.cc,
      table/iterator_wrapper.h)

    [InternalIterator] is the interface of everything that can be scanned in the
    order of a comparator, and [IteratorOk] states what internal_iterator.h promises
    of it: where each operation leaves the iterator in the entries of its source.
    Clients are proved against the interface.  The empty iterator, the wrapper that
    caches validity and key, and the generic [SeekForPrevImpl] are modelled here,
    with a reference iterator that looks its position up in the list of entries. *)

From S2P Require Import Prelude Coding DbFormat.
From stdpp Require Import base list sorting.
From Stdlib Require Import ZArith Lia.
#[local] Open Scope Z_scope.

(** A key and its value. *)
Notation entry := (bytes * bytes)%type.

Class InternalIterator (I : Type) := {
  Valid : I -> bool;
  SeekToFirst : I -> I;
  SeekToLast : I -> I;
  Seek : bytes -> I -> I;
  SeekForPrev : bytes -> I -> I;
  Next : I -> I;
  Prev : I -> I;
  key : I -> bytes;
  value : I -> bytes;
  status : I -> Status
}.

(** ** Directions *)

Inductive Direction := kForward | kReverse.

#[global] Instance Direction_eq_dec : EqDecision Direction.
Proof. solve_decision. Defined.

Definition flip_dir (d : Direction) : Direction := match d with kForward => kReverse | kReverse => kForward end.

Section Order.
Context {c : Comparator}.

(** [a] is met no later than [b] in the direction, and strictly before it. *)
Definition upto (d : Direction) (a b : bytes) : Prop :=
  match d with kForward => Compare a b <= 0 | kReverse => Compare b a <= 0 end.
Definition ahead (d : Direction) (a b : bytes) : Prop :=
  match d with kForward => Compare a b < 0 | kReverse => Compare b a < 0 end.

#[global] Instance upto_dec d a b : Decision (upto d a b).
Proof. destruct d; cbn; apply _. Defined.
#[global] Instance ahead_dec d a b : Decision (ahead d a b).
Proof. destruct d; cbn; apply _. Defined.

(** The first of the entries that satisfy [P], in the direction; [None] when there
    is none. *)
Definition best (d : Direction) (P : entry -> Prop) (l : list entry) (o : option entry) : Prop :=
  match o with
  | Some e => e ∈ l /\ P e /\ forall e', e' ∈ l -> P e' -> upto d (fst e) (fst e')
  | None => forall e, e ∈ l -> ~ P e
  end.

(** What internal_iterator.h promises.  [At it l o]: the iterator reads the entries
    [l], and is at [o] of them, or not valid. *)
Class IteratorOk {I} `{InternalIterator I} (valid : bytes -> Prop)
    (At : I -> list entry -> option entry -> Prop) : Prop := {
  at_keys it l o : At it l o -> forall e, e ∈ l -> valid (fst e);
  at_Valid it l o : At it l o -> Valid it = bool_decide (is_Some o);
  at_entry it l e : At it l (Some e) -> e ∈ l /\ key it = fst e /\ value it = snd e;
  at_SeekToFirst it l o : At it l o ->
    exists o', At (SeekToFirst it) l o' /\ best kForward (fun _ => True) l o';
  at_SeekToLast it l o : At it l o ->
    exists o', At (SeekToLast it) l o' /\ best kReverse (fun _ => True) l o';
  at_Seek it l o t : At it l o -> valid t ->
    exists o', At (Seek t it) l o' /\ best kForward (fun e => upto kForward t (fst e)) l o';
  at_SeekForPrev it l o t : At it l o -> valid t ->
    exists o', At (SeekForPrev t it) l o' /\ best kReverse (fun e => upto kReverse t (fst e)) l o';
  at_Next it l e : At it l (Some e) ->
    exists o', At (Next it) l o' /\ best kForward (fun e' => ahead kForward (fst e) (fst e')) l o';
  at_Prev it l e : At it l (Some e) ->
    exists o', At (Prev it) l o' /\ best kReverse (fun e' => ahead kReverse (fst e) (fst e')) l o'
}.
End Order.

(** ** Facts about directions *)

Section OrderFacts.
Context {c : Comparator} {valid : bytes -> Prop} {Ho : CompareOrder c valid}.

Lemma upto_refl d a : valid a -> upto d a a.
Proof. intros Ha. pose proof (compare_refl a Ha). destruct d; cbn [upto]; lia. Qed.

Lemma upto_trans d a b e : valid a -> valid b -> valid e -> upto d a b -> upto d b e -> upto d a e.
Proof.
  intros Ha Hb He. destruct d; cbn [upto]; intros H1 H2;
    [exact (compare_trans a b e Ha Hb He H1 H2)|exact (compare_trans e b a He Hb Ha H2 H1)].
Qed.

Lemma ahead_upto_trans d a b e : valid a -> valid b -> valid e -> ahead d a b -> upto d b e -> ahead d a e.
Proof.
  intros Ha Hb He. destruct d; cbn [upto ahead]; intros H1 H2;
    [exact (compare_lt_le_trans a b e Ha Hb He H1 H2)|exact (compare_le_lt_trans e b a He Hb Ha H2 H1)].
Qed.

Lemma upto_ahead_trans d a b e : valid a -> valid b -> valid e -> upto d a b -> ahead d b e -> ahead d a e.
Proof.
  intros Ha Hb He. destruct d; cbn [upto ahead]; intros H1 H2;
    [exact (compare_le_lt_trans a b e Ha Hb He H1 H2)|exact (compare_lt_le_trans e b a He Hb Ha H2 H1)].
Qed.

Lemma ahead_upto d a b : ahead d a b -> upto d a b.
Proof. destruct d; cbn [upto ahead]; lia. Qed.

Lemma not_upto d a b : valid a -> valid b -> ~ upto d a b <-> ahead d b a.
Proof.
  intros Ha Hb. pose proof (compare_antisym a b Ha Hb). destruct d; cbn [upto ahead]; lia.
Qed.

Lemma not_ahead d a b : valid a -> valid b -> ~ ahead d a b <-> upto d b a.
Proof.
  intros Ha Hb. pose proof (compare_antisym a b Ha Hb). destruct d; cbn [upto ahead]; lia.
Qed.

Lemma upto_total d a b : valid a -> valid b -> upto d a b \/ upto d b a.
Proof.
  intros Ha Hb. pose proof (compare_antisym a b Ha Hb). destruct d; cbn [upto]; lia.
Qed.

Lemma upto_flip d a b : upto (flip_dir d) a b <-> upto d b a.
Proof. by destruct d. Qed.
Lemma ahead_flip d a b : ahead (flip_dir d) a b <-> ahead d b a.
Proof. by destruct d. Qed.

Lemma upto_distinct d a b : valid a -> valid b -> Compare a b <> 0 -> upto d a b <-> ahead d a b.
Proof.
  intros Ha Hb Hne. pose proof (compare_antisym a b Ha Hb). destruct d; cbn [upto ahead]; lia.
Qed.

(** ** Facts about positions *)

Lemma best_ext d P Q l o : (forall e, e ∈ l -> P e <-> Q e) -> best d P l o -> best d Q l o.
Proof.
  intros HPQ. destruct o as [e|]; cbn [best].
  - intros (He & HP & Hmin). split; [done|]. split; [by apply HPQ|]. intros e' He' HQ. apply Hmin; [done|by apply HPQ].
  - intros Hno e He HQ. apply (Hno e He). by apply HPQ.
Qed.

(** A position among the entries of [P] is one among those of [P] from a key on,
    when it is not before that key. *)
Lemma best_narrow d P a l o :
  best d P l o -> (forall e, o = Some e -> upto d a (fst e)) ->
  (forall e, e ∈ l -> upto d a (fst e) -> P e) -> best d (fun e => upto d a (fst e)) l o.
Proof.
  destruct o as [e|]; cbn [best].
  - intros (He & _ & Hmin) Ha HP. split; [done|]. split; [by apply Ha|]. intros e' He' Hae'. apply Hmin; auto.
  - intros Hno _ HP e He Hae. apply (Hno e He). auto.
Qed.

(** Turning around: with nothing of [l] at [a] itself, what comes before the first
    entry from [a] on is the first entry on the other side of [a]. *)
Lemma best_turn d a e l o :
  (forall x, x ∈ l -> valid (fst x)) -> valid a ->
  best d (fun x => upto d a (fst x)) l (Some e) ->
  best (flip_dir d) (fun x => ahead (flip_dir d) (fst e) (fst x)) l o ->
  (forall x, x ∈ l -> Compare a (fst x) <> 0) ->
  best (flip_dir d) (fun x => upto (flip_dir d) a (fst x)) l o.
Proof.
  intros Hl Ha (He & Hae & Hmin) Ho' Hne. eapply best_ext; [|exact Ho']. intros x Hx. cbv beta.
  assert (Hvx := Hl x Hx). assert (Hve := Hl e He).
  rewrite ahead_flip, upto_flip. split; intros H.
  - destruct (upto_total d a (fst x) Ha Hvx) as [Hax|]; [|done].
    exfalso. specialize (Hmin x Hx Hax). by apply (not_ahead d (fst x) (fst e)) in Hmin.
  - apply (not_upto d (fst e) (fst x)); [done|done|]. intros Hex.
    assert (Hax : upto d a (fst x)) by (by apply (upto_trans d a (fst e) (fst x))).
    apply (upto_distinct d a (fst x)) in Hax; [|done|done|by apply Hne].
    by apply (not_ahead d a (fst x)) in H.
Qed.
End OrderFacts.

(** ** The empty iterator *)

Record EmptyInternalIterator := mkEmpty { status_ : Status }.

#[export] Instance EmptyInternalIterator_iterator : InternalIterator EmptyInternalIterator := {
  Valid _ := false;
  SeekToFirst it := it;
  SeekToLast it := it;
  Seek _ it := it;
  SeekForPrev _ it := it;
  Next it := it;
  Prev it := it;
  key _ := [];
  value _ := [];
  status it := status_ it
}.

Definition NewEmptyInternalIterator : EmptyInternalIterator := mkEmpty OK.
Definition NewErrorInternalIterator (s : Status) : EmptyInternalIterator := mkEmpty s.

(** ** The wrapper *)

(** [iter_] is [None] for the null pointer.  The operations that need an iterator
    leave a wrapper without one alone; the code asserts that there is one. *)
Record IteratorWrapper (I : Type) := mkWrapper { iter_ : option I; valid_ : bool; key_ : bytes }.
Arguments mkWrapper {I}.
Arguments iter_ {I}.
Arguments valid_ {I}.
Arguments key_ {I}.

#[global] Instance IteratorWrapper_inhabited I : Inhabited (IteratorWrapper I) :=
  populate (mkWrapper None false []).

Section Wrapper.
Context {I : Type} `{InternalIterator I}.

Definition wrapper_Update (w : IteratorWrapper I) : IteratorWrapper I :=
  match iter_ w with
  | Some it => mkWrapper (Some it) (Valid it) (if Valid it then key it else key_ w)
  | None => w
  end.

Definition wrapper_Set (iter : option I) (w : IteratorWrapper I) : IteratorWrapper I :=
  match iter with
  | None => mkWrapper None false (key_ w)
  | Some _ => wrapper_Update (mkWrapper iter (valid_ w) (key_ w))
  end.

Definition wrapper_new (iter : option I) : IteratorWrapper I := wrapper_Set iter (mkWrapper None false []).

Definition wrapper_Valid (w : IteratorWrapper I) : bool := valid_ w.
Definition wrapper_key (w : IteratorWrapper I) : bytes := key_ w.
Definition wrapper_value (w : IteratorWrapper I) : bytes :=
  match iter_ w with Some it => value it | None => [] end.
Definition wrapper_status (w : IteratorWrapper I) : Status :=
  match iter_ w with Some it => status it | None => OK end.

(** Every move changes the iterator and then updates the cached fields. *)
Definition wrapper_move (f : I -> I) (w : IteratorWrapper I) : IteratorWrapper I :=
  match iter_ w with
  | Some it => wrapper_Update (mkWrapper (Some (f it)) (valid_ w) (key_ w))
  | None => w
  end.

Definition wrapper_Next : IteratorWrapper I -> IteratorWrapper I := wrapper_move Next.
Definition wrapper_Prev : IteratorWrapper I -> IteratorWrapper I := wrapper_move Prev.
Definition wrapper_Seek (k : bytes) : IteratorWrapper I -> IteratorWrapper I := wrapper_move (Seek k).
Definition wrapper_SeekForPrev (k : bytes) : IteratorWrapper I -> IteratorWrapper I := wrapper_move (SeekForPrev k).
Definition wrapper_SeekToFirst : IteratorWrapper I -> IteratorWrapper I := wrapper_move SeekToFirst.
Definition wrapper_SeekToLast : IteratorWrapper I -> IteratorWrapper I := wrapper_move SeekToLast.

(** [SeekForPrevImpl]: seek, and walk back over the entries after the target. *)
Fixpoint SeekForPrev_walk {c : Comparator} (fuel : nat) (target : bytes) (it : I) : I :=
  match fuel with
  | O => it
  | S fuel => if Valid it && (Compare target (key it) <? 0) then SeekForPrev_walk fuel target (Prev it) else it
  end.

Definition SeekForPrevImpl {c : Comparator} (fuel : nat) (target : bytes) (it : I) : I :=
  let it := Seek target it in
  let it := if negb (Valid it) then SeekToLast it else it in
  SeekForPrev_walk fuel target it.

(** The entries met from here on, at most [n]. *)
Fixpoint scan (n : nat) (it : I) : list entry :=
  match n with
  | O => []
  | S n => if Valid it then (key it, value it) :: scan n (Next it) else []
  end.

(** The iterator yields exactly these entries. *)
Fixpoint yields (it : I) (l : list entry) : Prop :=
  match l with
  | [] => Valid it = false
  | e :: l => Valid it = true /\ key it = fst e /\ value it = snd e /\ yields (Next it) l
  end.
End Wrapper.

(** ** The wrapper keeps the promises *)

Section WrapperOk.
Context {c : Comparator} {valid : bytes -> Prop} {Ho : CompareOrder c valid}.
Context {I : Type} `{InternalIterator I} (At : I -> list entry -> option entry -> Prop) `{!IteratorOk valid At}.

Definition wrapper_at (w : IteratorWrapper I) (l : list entry) (o : option entry) : Prop :=
  exists it, iter_ w = Some it /\ At it l o /\ valid_ w = Valid it /\ (Valid it = true -> key_ w = key it).

Lemma wrapper_new_at it l o : At it l o -> wrapper_at (wrapper_new (Some it)) l o.
Proof.
  intros Hat. exists it. unfold wrapper_new, wrapper_Set, wrapper_Update. cbn.
  split; [done|]. split; [done|]. split; [done|]. by intros ->.
Qed.

Lemma wrapper_at_Valid w l o : wrapper_at w l o -> wrapper_Valid w = bool_decide (is_Some o).
Proof. intros (it & _ & Hat & Hv & _). unfold wrapper_Valid. rewrite Hv. by eapply at_Valid. Qed.

Lemma wrapper_at_key w l e : wrapper_at w l (Some e) -> wrapper_key w = fst e.
Proof.
  intros (it & _ & Hat & _ & Hk). unfold wrapper_key. rewrite Hk; [by eapply at_entry|].
  by rewrite (at_Valid _ _ _ Hat).
Qed.

Lemma wrapper_at_value w l e : wrapper_at w l (Some e) -> wrapper_value w = snd e.
Proof. intros (it & Hi & Hat & _). unfold wrapper_value. rewrite Hi. by eapply at_entry. Qed.

Lemma wrapper_at_in w l e : wrapper_at w l (Some e) -> e ∈ l.
Proof. intros (it & _ & Hat & _). by eapply at_entry. Qed.

Lemma wrapper_at_keys w l o e : wrapper_at w l o -> e ∈ l -> valid (fst e).
Proof. intros (it & _ & Hat & _). by eapply at_keys. Qed.

Lemma wrapper_move_at f w l o (Q : option entry -> Prop) :
  wrapper_at w l o -> (forall it, At it l o -> exists o', At (f it) l o' /\ Q o') ->
  exists o', wrapper_at (wrapper_move f w) l o' /\ Q o'.
Proof.
  intros (it & Hi & Hat & _) Hf. destruct (Hf it Hat) as (o' & Hat' & HQ). exists o'. split; [|done].
  unfold wrapper_move, wrapper_Update. rewrite Hi. cbn. exists (f it).
  split; [done|]. split; [done|]. split; [done|]. by intros ->.
Qed.

(** A seek in a direction, and a step in a direction. *)
Definition wrapper_seek_dir (d : Direction) (t : bytes) : IteratorWrapper I -> IteratorWrapper I :=
  match d with kForward => wrapper_Seek t | kReverse => wrapper_SeekForPrev t end.
Definition wrapper_first_dir (d : Direction) : IteratorWrapper I -> IteratorWrapper I :=
  match d with kForward => wrapper_SeekToFirst | kReverse => wrapper_SeekToLast end.
Definition wrapper_step_dir (d : Direction) : IteratorWrapper I -> IteratorWrapper I :=
  match d with kForward => wrapper_Next | kReverse => wrapper_Prev end.

Lemma wrapper_seek_dir_at d t w l o : wrapper_at w l o -> valid t ->
  exists o', wrapper_at (wrapper_seek_dir d t w) l o' /\ best d (fun e => upto d t (fst e)) l o'.
Proof.
  intros Hw Ht. destruct d; apply (wrapper_move_at _ _ _ _ _ Hw); intros it Hit;
    [by eapply at_Seek|by eapply at_SeekForPrev].
Qed.

Lemma wrapper_first_dir_at d w l o : wrapper_at w l o ->
  exists o', wrapper_at (wrapper_first_dir d w) l o' /\ best d (fun _ => True) l o'.
Proof.
  intros Hw. destruct d; apply (wrapper_move_at _ _ _ _ _ Hw); intros it Hit;
    [by eapply at_SeekToFirst|by eapply at_SeekToLast].
Qed.

Lemma wrapper_step_dir_at d w l e : wrapper_at w l (Some e) ->
  exists o', wrapper_at (wrapper_step_dir d w) l o' /\ best d (fun e' => ahead d (fst e) (fst e')) l o'.
Proof.
  intros Hw. destruct d; apply (wrapper_move_at _ _ _ _ _ Hw); intros it Hit; [by eapply at_Next|by eapply at_Prev].
Qed.
End WrapperOk.

Section Clients.
Context {c : Comparator} {valid : bytes -> Prop} {Ho : CompareOrder c valid}.
Context {I : Type} `{InternalIterator I} (At : I -> list entry -> option entry -> Prop) `{!IteratorOk valid At}.

(** The generic [SeekForPrev] ends where the specified one does, after at most one
    step back. *)
Lemma SeekForPrevImpl_at fuel it l o t :
  At it l o -> valid t ->
  exists o', At (SeekForPrevImpl (S fuel) t it) l o' /\ best kReverse (fun e => upto kReverse t (fst e)) l o'.
Proof.
  intros Hat Ht. destruct (at_Seek it l o t Hat Ht) as (o1 & Hat1 & Hb1).
  pose proof (fun e => at_keys _ _ _ Hat e) as Hk. unfold SeekForPrevImpl. cbv zeta. rewrite (at_Valid _ _ _ Hat1).
  destruct o1 as [e|]; cbn [negb].
  - rewrite bool_decide_eq_true_2 by done. cbn [negb SeekForPrev_walk]. rewrite (at_Valid _ _ _ Hat1).
    rewrite bool_decide_eq_true_2 by done. cbn [andb].
    destruct (at_entry _ _ _ Hat1) as (He & -> & _). pose proof (Hk e He) as Hve.
    destruct Hb1 as (_ & Hte & Hmin). cbn [upto] in Hte, Hmin.
    destruct (Z.ltb_spec (Compare t (fst e)) 0) as [Hlt|Hge].
    + destruct (at_Prev _ _ _ Hat1) as (o2 & Hat2 & Hb2). exists o2.
      assert (Hb : best kReverse (fun x => upto kReverse t (fst x)) l o2).
      { eapply best_ext; [|exact Hb2]. intros x Hx. cbn [ahead upto]. pose proof (Hk x Hx) as Hvx. split; intros Hx'.
        - destruct (Z_le_gt_dec (Compare t (fst x)) 0) as [Htx|Htx]; [|pose proof (compare_antisym t (fst x) Ht Hvx); lia].
          specialize (Hmin x Hx Htx). pose proof (compare_antisym (fst x) (fst e) Hvx Hve). lia.
        - by apply (compare_le_lt_trans (fst x) t (fst e)). }
      split; [|done]. destruct fuel as [|fuel]; cbn [SeekForPrev_walk]; [done|]. rewrite (at_Valid _ _ _ Hat2).
      destruct o2 as [e2|]; [|by rewrite bool_decide_eq_false_2 by (by intros [])].
      rewrite bool_decide_eq_true_2 by done. cbn [andb]. destruct (at_entry _ _ _ Hat2) as (He2 & -> & _).
      destruct Hb as (_ & Hle & _). cbn [upto] in Hle. pose proof (compare_antisym t (fst e2) Ht (Hk e2 He2)).
      by rewrite (proj2 (Z.ltb_ge _ _)) by lia.
    + exists (Some e). split; [done|]. pose proof (compare_antisym t (fst e) Ht Hve). cbn [best upto].
      split; [done|]. split; [lia|]. intros x Hx Hxt.
      apply (compare_trans (fst x) t (fst e)); auto.
  - rewrite bool_decide_eq_false_2 by (by intros []). cbn [negb].
    destruct (at_SeekToLast _ _ _ Hat1) as (o2 & Hat2 & Hb2). exists o2.
    assert (Hall : forall x, x ∈ l -> Compare (fst x) t < 0).
    { intros x Hx. specialize (Hb1 x Hx). cbn [upto] in Hb1. pose proof (compare_antisym t (fst x) Ht (Hk x Hx)). lia. }
    split; [|eapply best_ext; [|exact Hb2]; intros x Hx; cbn [upto]; specialize (Hall x Hx); split; [lia|done]].
    cbn [SeekForPrev_walk]. rewrite (at_Valid _ _ _ Hat2). destruct o2 as [e2|]; [|by rewrite bool_decide_eq_false_2 by (by intros [])].
    rewrite bool_decide_eq_true_2 by done. cbn [andb]. destruct (at_entry _ _ _ Hat2) as (He2 & -> & _).
    specialize (Hall e2 He2). pose proof (compare_antisym t (fst e2) Ht (Hk e2 He2)).
    by rewrite (proj2 (Z.ltb_ge _ _)) by lia.
Qed.

(** No two entries have keys that compare equal. *)
Definition distinct_keys (l : list entry) : Prop := ForallOrdPairs (fun a b => Compare (fst a) (fst b) <> 0) l.

Lemma distinct_keys_eq l a b :
  (forall e, e ∈ l -> valid (fst e)) -> distinct_keys l -> a ∈ l -> b ∈ l -> Compare (fst a) (fst b) = 0 -> a = b.
Proof.
  intros Hk Hd Ha Hb Hab. destruct (ForallOrdPairs_In Hd a b) as [|[Hn|Hn]]; [by apply list_elem_of_In..|done|done|].
  destruct Hn. by apply compare_eq_sym; auto.
Qed.

Lemma distinct_keys_NoDup l : (forall e, e ∈ l -> valid (fst e)) -> distinct_keys l -> NoDup l.
Proof.
  intros Hk Hd. induction Hd as [|a l Ha Hd IH]; [constructor|].
  apply NoDup_cons. split; [|apply IH; intros e He; apply Hk; by right].
  intros Hin. rewrite List.Forall_forall in Ha. apply (Ha a); [by apply list_elem_of_In|].
  apply compare_refl, Hk. by left.
Qed.

(** From a position on, the iterator yields the entries that are left. *)
Lemma yields_from it l o (P : entry -> Prop) L :
  At it l o -> best kForward P l o ->
  (forall a b, a ∈ l -> b ∈ l -> P a -> upto kForward (fst a) (fst b) -> P b) ->
  StronglySorted (fun a b => ahead kForward (fst a) (fst b)) L -> (forall e, e ∈ L <-> e ∈ l /\ P e) -> yields it L.
Proof.
  intros Hat Hb Hup Hs. revert it o P Hat Hb Hup. induction Hs as [|a L Hs IH Ha]; intros it o P Hat Hb Hup HL; cbn [yields].
  - rewrite (at_Valid _ _ _ Hat). apply bool_decide_eq_false_2. intros [e ->]. destruct Hb as (He & HP & _).
    by apply (not_elem_of_nil e), HL.
  - rewrite Forall_forall in Ha. destruct (proj1 (HL a) (list_elem_of_here _ _)) as [Hal HPa].
    destruct o as [e|]; [|by destruct (Hb a Hal)]. destruct Hb as (He & HPe & Hmin).
    assert (e = a) as ->.
    { destruct (proj1 (elem_of_cons _ _ _) (proj2 (HL e) (conj He HPe))) as [|Hin]; [done|].
      pose proof (Hmin a Hal HPa) as Hea. apply (not_ahead kForward) in Hea; [|by eapply at_keys..]. by destruct Hea; apply Ha. }
    rewrite (at_Valid _ _ _ Hat). destruct (at_entry _ _ _ Hat) as (_ & -> & ->). do 3 (split; [done|]).
    destruct (at_Next _ _ _ Hat) as (o' & Hat' & Hb'). apply (IH _ _ _ Hat' Hb').
    + intros x y Hx Hy Hax Hxy. eapply (ahead_upto_trans kForward); [..|exact Hax|exact Hxy]; by eapply at_keys.
    + intros x. split.
      * intros Hx. split; [|by apply Ha]. by apply HL; right.
      * intros [Hx Hax]. assert (HxL : x ∈ a :: L) by (apply HL; split; [done|]; apply (Hup a x); [done..|by apply ahead_upto]).
        apply elem_of_cons in HxL as [->|]; [|done]. cbn [ahead] in Hax.
        rewrite (compare_refl (fst a)) in Hax by (by eapply at_keys). lia.
Qed.

Lemma yields_all it l o L :
  At it l o -> L ≡ₚ l -> StronglySorted (fun a b => ahead kForward (fst a) (fst b)) L -> yields (SeekToFirst it) L.
Proof.
  intros Hat HL Hs. destruct (at_SeekToFirst _ _ _ Hat) as (o' & Hat' & Hb).
  eapply yields_from; [exact Hat'|exact Hb|done|done|]. intros e. rewrite HL. tauto.
Qed.

(** From a position on, a scan meets exactly the entries that are left, in
    increasing order of their keys. *)
Lemma scan_from n it l o (P : entry -> Prop) L :
  distinct_keys l -> At it l o -> best kForward P l o ->
  (forall a b, a ∈ l -> b ∈ l -> P a -> upto kForward (fst a) (fst b) -> P b) ->
  (forall e, e ∈ l -> P e -> e ∈ L) -> (length L <= n)%nat ->
  StronglySorted (fun a b => ahead kForward (fst a) (fst b)) (scan n it) /\
  forall e, e ∈ scan n it <-> e ∈ l /\ P e.
Proof.
  intros Hd. revert it o P L. induction n as [|n IH]; intros it o P L Hat Hb Hup HL Hn.
  - destruct L; [|cbn in Hn; lia]. split; [constructor|]. intros e. cbn. split; [by intros ?%not_elem_of_nil|].
    intros [He HP]. destruct (not_elem_of_nil _ (HL e He HP)).
  - pose proof (fun e => at_keys _ _ _ Hat e) as Hk. cbn [scan]. rewrite (at_Valid _ _ _ Hat). destruct o as [e|].
    + rewrite bool_decide_eq_true_2 by done. destruct (at_entry _ _ _ Hat) as (He & -> & ->). destruct Hb as (_ & HPe & Hmin).
      rewrite <- surjective_pairing. destruct (at_Next _ _ _ Hat) as (o' & Hat' & Hb').
      destruct (elem_of_Permutation L e) as [HLe _]. destruct (HLe (HL e He HPe)) as [L' HL'].
      destruct (IH _ _ _ L' Hat' Hb') as [Hs Hin].
      { intros a b Ha Hb Hea Hab. apply (ahead_upto_trans kForward (fst e) (fst a) (fst b)); auto. }
      { intros x Hx Hex. specialize (HL x Hx). rewrite HL', elem_of_cons in HL. destruct HL as [->|]; [|cbn [ahead] in Hex; rewrite (compare_refl _ (Hk _ Hx)) in Hex; lia|done].
        apply (Hup e x); auto. by apply ahead_upto. }
      { apply Permutation_length in HL'. cbn in HL'. lia. }
      split.
      * constructor; [done|]. apply List.Forall_forall. intros x Hx. apply list_elem_of_In, Hin in Hx. apply Hx.
      * intros x. rewrite elem_of_cons, Hin. split.
        -- intros [->|[Hx Hex]]; [done|]. split; [done|]. apply (Hup e x); auto. by apply ahead_upto.
        -- intros [Hx HPx]. destruct (decide (x = e)) as [->|Hne]; [by left|]. right. split; [done|].
           apply (upto_distinct kForward); auto. intros E. apply Hne. symmetry. by apply (distinct_keys_eq l).
    + rewrite bool_decide_eq_false_2 by (by intros []). split; [constructor|]. intros e. split; [by intros ?%not_elem_of_nil|].
      intros [He HP]. by destruct (Hb e He).
Qed.

Lemma scan_all it l o :
  distinct_keys l -> At it l o ->
  StronglySorted (fun a b => ahead kForward (fst a) (fst b)) (scan (length l) (SeekToFirst it)) /\
  scan (length l) (SeekToFirst it) ≡ₚ l.
Proof.
  intros Hd Hat. pose proof (fun e => at_keys _ _ _ Hat e) as Hk. destruct (at_SeekToFirst _ _ _ Hat) as (o' & Hat' & Hb).
  destruct (scan_from (length l) _ _ _ _ l Hd Hat' Hb) as [Hs Hin]; [done..|]. split; [done|].
  apply NoDup_Permutation.
  - apply distinct_keys_NoDup; [intros e He; apply Hk; by apply Hin|]. clear Hin.
    induction Hs as [|a r Hs IH Ha]; constructor; [|done]. eapply Forall_impl; [exact Ha|].
    intros x Hx E. cbn [ahead] in Hx. lia.
  - by apply distinct_keys_NoDup.
  - intros x. rewrite Hin. tauto.
Qed.
End Clients.

(** ** A reference iterator *)

(** The entries in any order, and the one the iterator is at; every move looks the
    new position up among all of them. *)
Record ListIterator := mkListIterator { entries : list entry; at_ : option entry }.

Section Reference.
Context {c : Comparator}.

(** The first entry in the direction among those of [P]. *)
Fixpoint pick (d : Direction) (P : entry -> bool) (l : list entry) : option entry :=
  match l with
  | [] => None
  | e :: l =>
      match pick d P l with
      | None => if P e then Some e else None
      | Some e' => if P e && bool_decide (upto d (fst e) (fst e')) then Some e else Some e'
      end
  end.

Definition list_go (d : Direction) (P : entry -> bool) (it : ListIterator) : ListIterator :=
  mkListIterator (entries it) (pick d P (entries it)).

Definition list_step (d : Direction) (it : ListIterator) : ListIterator :=
  match at_ it with
  | Some e => list_go d (fun e' => bool_decide (ahead d (fst e) (fst e'))) it
  | None => it
  end.

#[export] Instance ListIterator_iterator : InternalIterator ListIterator := {
  Valid it := bool_decide (is_Some (at_ it));
  SeekToFirst := list_go kForward (fun _ => true);
  SeekToLast := list_go kReverse (fun _ => true);
  Seek t := list_go kForward (fun e => bool_decide (upto kForward t (fst e)));
  SeekForPrev t := list_go kReverse (fun e => bool_decide (upto kReverse t (fst e)));
  Next := list_step kForward;
  Prev := list_step kReverse;
  key it := match at_ it with Some e => fst e | None => [] end;
  value it := match at_ it with Some e => snd e | None => [] end;
  status _ := OK
}.
End Reference.

Section ReferenceOk.
Context {c : Comparator} {valid : bytes -> Prop} {Ho : CompareOrder c valid}.

Definition list_at (it : ListIterator) (l : list entry) (o : option entry) : Prop :=
  entries it = l /\ at_ it = o /\ (forall e, e ∈ l -> valid (fst e)) /\ forall e, o = Some e -> e ∈ l.

Lemma pick_best d P l :
  (forall e, e ∈ l -> valid (fst e)) -> best d (fun e => P e = true) l (pick d P l).
Proof.
  induction l as [|e l IH]; intros Hk; cbn [pick]; [by intros e ?%not_elem_of_nil|].
  assert (IH' := IH (fun x Hx => Hk x (list_elem_of_further _ _ _ Hx))). clear IH.
  assert (Hve := Hk e (list_elem_of_here _ _)). destruct (pick d P l) as [e'|].
  - destruct IH' as (He' & HPe' & Hmin). assert (Hve' := Hk e' (list_elem_of_further _ _ _ He')).
    destruct (P e) eqn:HPe; cbn [andb]; [case_bool_decide as Hd|].
    + split; [left|]. split; [done|]. intros x [->|Hx]%elem_of_cons HPx; [by apply upto_refl|].
      apply (upto_trans d (fst e) (fst e')); auto. apply Hk. by right.
    + split; [by right|]. split; [done|]. intros x [->|Hx]%elem_of_cons HPx; [|by apply Hmin].
      by destruct (upto_total d (fst e) (fst e') Hve Hve').
    + split; [by right|]. split; [done|]. intros x [->|Hx]%elem_of_cons HPx; [congruence|by apply Hmin].
  - destruct (P e) eqn:HPe.
    + split; [left|]. split; [done|]. intros x [->|Hx]%elem_of_cons HPx; [by apply upto_refl|]. by destruct (IH' x Hx).
    + intros x [->|Hx]%elem_of_cons; [congruence|by apply IH'].
Qed.

Lemma list_go_at d P Q it l o :
  list_at it l o -> (forall e, P e = true <-> Q e) ->
  exists o', list_at (list_go d P it) l o' /\ best d Q l o'.
Proof.
  intros (<- & _ & Hk & _) HPQ. pose proof (pick_best d P (entries it) Hk) as Hb.
  exists (pick d P (entries it)). split; [|eapply best_ext; [|exact Hb]; intros e _; apply HPQ].
  split; [done|]. split; [done|]. split; [done|]. intros e E. rewrite E in Hb. apply Hb.
Qed.

#[export] Instance ListIterator_ok : IteratorOk valid list_at.
Proof.
  split.
  - intros it l o Hat. apply Hat.
  - by intros it l o (_ & <- & _).
  - intros it l e (_ & E & _ & Hin). cbn. rewrite E. auto.
  - intros it l o Hat. apply (list_go_at _ _ _ _ _ _ Hat). by intros e.
  - intros it l o Hat. apply (list_go_at _ _ _ _ _ _ Hat). by intros e.
  - intros it l o t Hat _. apply (list_go_at _ _ _ _ _ _ Hat). intros e. apply bool_decide_eq_true.
  - intros it l o t Hat _. apply (list_go_at _ _ _ _ _ _ Hat). intros e. apply bool_decide_eq_true.
  - intros it l e Hat. cbn. unfold list_step. rewrite (proj1 (proj2 Hat)).
    apply (list_go_at _ _ _ _ _ _ Hat). intros e'. apply bool_decide_eq_true.
  - intros it l e Hat. cbn. unfold list_step. rewrite (proj1 (proj2 Hat)).
    apply (list_go_at _ _ _ _ _ _ Hat). intros e'. apply bool_decide_eq_true.
Qed.
End ReferenceOk.
