(* ===== verification/MergingIterator.v ===== *)
(** * The merging iterator (table/merging_iterator.cc, table/iter_heap.h)

    An iterator over the union of its children's entries: compactions and reads see
    the memtables and the table files through it.  The children are wrapped
    iterators; those that are valid are in a heap, of smallest keys while the
    iterator moves forward and of largest keys while it moves backward, and the top
    of the heap is the current child.  Changing direction repositions every child.

    The theorems show that the merging iterator keeps the promises of
    [InternalIterator] for the union of the children's entries whenever the children
    keep them for theirs, that none of its assertions fails, and that a scan meets
    every entry once, in order. *)

From S2P Require Import Prelude Coding DbFormat BinaryHeap Iterators.
From stdpp Require Import base list sorting.
From Stdlib Require Import ZArith Lia.
#[local] Open Scope Z_scope.

(** ** State *)

(** The heaps hold pointers to children, here their indices.  [sound_] is cleared
    when an assertion fails, or when a pointer in the heap no longer points to a
    child; nothing is claimed of the state after that. *)
Record MergingIterator (I : Type) := mkMerging {
  children_ : list (IteratorWrapper I);
  current_ : option nat;
  direction_ : Direction;
  minHeap_ : BinaryHeap nat;
  maxHeap_ : option (BinaryHeap nat);
  prefix_seek_mode_ : bool;
  sound_ : bool
}.
Arguments mkMerging {I}.
Arguments children_ {I}.
Arguments current_ {I}.
Arguments direction_ {I}.
Arguments minHeap_ {I}.
Arguments maxHeap_ {I}.
Arguments prefix_seek_mode_ {I}.
Arguments sound_ {I}.

#[export] Instance eta_MergingIterator I : Settable (MergingIterator I) := fun m =>
  mkMerging (children_ m) (current_ m) (direction_ m) (minHeap_ m) (maxHeap_ m) (prefix_seek_mode_ m) (sound_ m).

Section Operations.
Context {c : Comparator} {I : Type} `{InternalIterator I}.

Definition MaxIteratorComparator (ch : list (IteratorWrapper I)) (a b : nat) : bool :=
  Compare (wrapper_key (ch !!! a)) (wrapper_key (ch !!! b)) <? 0.
Definition MinIteratorComparator (ch : list (IteratorWrapper I)) (a b : nat) : bool :=
  Compare (wrapper_key (ch !!! a)) (wrapper_key (ch !!! b)) >? 0.

Definition m_assert (b : bool) (m : MergingIterator I) : MergingIterator I := m <| sound_ ::= andb b |>.

(** ** Heaps *)

Definition ClearHeaps (m : MergingIterator I) : MergingIterator I :=
  m <| minHeap_ ::= heap_clear |> <| maxHeap_ ::= fmap heap_clear |>.

Definition InitMaxHeap (m : MergingIterator I) : MergingIterator I :=
  match maxHeap_ m with None => m <| maxHeap_ := Some heap_new |> | Some _ => m end.

Definition CurrentForward (m : MergingIterator I) : option nat :=
  if negb (heap_empty (minHeap_ m)) then heap_top (minHeap_ m) else None.
Definition CurrentReverse (m : MergingIterator I) : option nat :=
  match maxHeap_ m with
  | Some h => if negb (heap_empty h) then heap_top h else None
  | None => None
  end.

(** [current_ = CurrentForward()] and [current_ = CurrentReverse()], with the
    assertions of the two functions. *)
Definition set_CurrentForward (m : MergingIterator I) : MergingIterator I :=
  m_assert (bool_decide (direction_ m = kForward)) (m <| current_ := CurrentForward m |>).
Definition set_CurrentReverse (m : MergingIterator I) : MergingIterator I :=
  m_assert (bool_decide (direction_ m = kReverse) && bool_decide (is_Some (maxHeap_ m)))
    (m <| current_ := CurrentReverse m |>).

(** The loops over the children: move a child, then push it if it is valid. *)
Fixpoint each_child (cmp : list (IteratorWrapper I) -> nat -> nat -> bool)
    (move : nat -> IteratorWrapper I -> IteratorWrapper I) (ix : list nat)
    (ch : list (IteratorWrapper I)) (h : BinaryHeap nat) : list (IteratorWrapper I) * BinaryHeap nat :=
  match ix with
  | [] => (ch, h)
  | i :: ix =>
      let ch := alter (move i) i ch in
      let h := if wrapper_Valid (ch !!! i) then heap_push (cmp ch) i h else h in
      each_child cmp move ix ch h
  end.

Definition forward_over (move : nat -> IteratorWrapper I -> IteratorWrapper I) (m : MergingIterator I)
  : MergingIterator I :=
  let '(ch, h) := each_child MinIteratorComparator move (seq 0 (length (children_ m))) (children_ m) (minHeap_ m) in
  m <| children_ := ch |> <| minHeap_ := h |> <| direction_ := kForward |>.

Definition reverse_over (move : nat -> IteratorWrapper I -> IteratorWrapper I) (m : MergingIterator I)
  : MergingIterator I :=
  let '(ch, h) := each_child MaxIteratorComparator move (seq 0 (length (children_ m))) (children_ m)
                    (default heap_new (maxHeap_ m)) in
  m <| children_ := ch |> <| maxHeap_ := Some h |> <| direction_ := kReverse |>.

(** ** Construction *)

Definition MergingIterator_new (children : list I) (prefix_seek_mode : bool) : MergingIterator I :=
  let ch := (fun it => wrapper_Set (Some it) (mkWrapper None false [])) <$> children in
  let m := mkMerging ch None kForward heap_new None prefix_seek_mode true in
  set_CurrentForward (forward_over (fun _ w => w) m).

(** The heap gets a pointer to [new_wrapper], a local copy of the wrapper; and its
    other pointers point into [children_], which [emplace_back] may move.  Both are
    harmless only when the iterator is not valid and the heap is empty. *)
Definition AddIterator (iter : I) (m : MergingIterator I) : MergingIterator I :=
  let m := m_assert (bool_decide (direction_ m = kForward)) m in
  let new_wrapper := wrapper_new (Some iter) in
  let m := m_assert (heap_empty (minHeap_ m)) (m <| children_ ::= fun ch => ch ++ [new_wrapper] |>) in
  if wrapper_Valid new_wrapper then
    set_CurrentForward (m_assert false
      (m <| minHeap_ ::= heap_push (MinIteratorComparator (children_ m)) (length (children_ m) - 1)%nat |>))
  else m.

(** ** Moves *)

Definition merging_Valid (m : MergingIterator I) : bool := bool_decide (is_Some (current_ m)).

Definition merging_key (m : MergingIterator I) : bytes :=
  match current_ m with Some i => wrapper_key (children_ m !!! i) | None => [] end.
Definition merging_value (m : MergingIterator I) : bytes :=
  match current_ m with Some i => wrapper_value (children_ m !!! i) | None => [] end.

Fixpoint children_status (ch : list (IteratorWrapper I)) : Status :=
  match ch with
  | [] => OK
  | w :: ch => if negb (ok (wrapper_status w)) then wrapper_status w
               else match ch with [] => wrapper_status w | _ => children_status ch end
  end.
Definition merging_status (m : MergingIterator I) : Status := children_status (children_ m).

Definition merging_SeekToFirst (m : MergingIterator I) : MergingIterator I :=
  set_CurrentForward (forward_over (fun _ => wrapper_SeekToFirst) (ClearHeaps m)).

Definition merging_SeekToLast (m : MergingIterator I) : MergingIterator I :=
  set_CurrentReverse (reverse_over (fun _ => wrapper_SeekToLast) (InitMaxHeap (ClearHeaps m))).

Definition merging_Seek (target : bytes) (m : MergingIterator I) : MergingIterator I :=
  set_CurrentForward (forward_over (fun _ => wrapper_Seek target) (ClearHeaps m)).

Definition merging_SeekForPrev (target : bytes) (m : MergingIterator I) : MergingIterator I :=
  set_CurrentReverse (reverse_over (fun _ => wrapper_SeekForPrev target) (InitMaxHeap (ClearHeaps m))).

(** [Equal] of the comparator is its [Compare]. *)
Definition next_child (k : bytes) (cur i : nat) (w : IteratorWrapper I) : IteratorWrapper I :=
  if bool_decide (i = cur) then w
  else
    let w := wrapper_Seek k w in
    if wrapper_Valid w && (Compare k (wrapper_key w) =? 0) then wrapper_Next w else w.

Definition next_turn (cur : nat) (m : MergingIterator I) : MergingIterator I :=
  let m := forward_over (next_child (merging_key m) cur) (ClearHeaps m) in
  m_assert (bool_decide (current_ m = CurrentForward m)) m.

Definition next_step (m : MergingIterator I) : MergingIterator I :=
  let m := m_assert (bool_decide (current_ m = CurrentForward m)) m in
  match current_ m with
  | None => m_assert false m
  | Some cur =>
      let m := m <| children_ ::= alter wrapper_Next cur |> in
      let m := if wrapper_Valid (children_ m !!! cur)
               then m <| minHeap_ ::= heap_replace_top (MinIteratorComparator (children_ m)) cur |>
               else m <| minHeap_ ::= heap_pop (MinIteratorComparator (children_ m)) |> in
      set_CurrentForward m
  end.

Definition merging_Next (m : MergingIterator I) : MergingIterator I :=
  match current_ m with
  | None => m_assert false m
  | Some cur => next_step (if bool_decide (direction_ m <> kForward) then next_turn cur m else m)
  end.

Definition prev_child (prefix_seek_mode : bool) (k : bytes) (cur i : nat) (w : IteratorWrapper I)
  : IteratorWrapper I :=
  if bool_decide (i = cur) then w
  else if negb prefix_seek_mode then
    let w := wrapper_Seek k w in
    if wrapper_Valid w then wrapper_Prev w else wrapper_SeekToLast w
  else
    let w := wrapper_SeekForPrev k w in
    if wrapper_Valid w && (Compare k (wrapper_key w) =? 0) then wrapper_Prev w else w.

Definition prev_turn (cur : nat) (m : MergingIterator I) : MergingIterator I :=
  let m := reverse_over (prev_child (prefix_seek_mode_ m) (merging_key m) cur) (InitMaxHeap (ClearHeaps m)) in
  let m := if negb (prefix_seek_mode_ m) then set_CurrentReverse m else m in
  m_assert (bool_decide (current_ m = CurrentReverse m)) m.

Definition prev_step (m : MergingIterator I) : MergingIterator I :=
  let m := m_assert (bool_decide (current_ m = CurrentReverse m)) m in
  match current_ m with
  | None => m_assert false m
  | Some cur =>
      let m := m <| children_ ::= alter wrapper_Prev cur |> in
      let m := if wrapper_Valid (children_ m !!! cur)
               then m <| maxHeap_ ::= fmap (heap_replace_top (MaxIteratorComparator (children_ m)) cur) |>
               else m <| maxHeap_ ::= fmap (heap_pop (MaxIteratorComparator (children_ m))) |> in
      set_CurrentReverse m
  end.

Definition merging_Prev (m : MergingIterator I) : MergingIterator I :=
  match current_ m with
  | None => m_assert false m
  | Some cur => prev_step (if bool_decide (direction_ m <> kReverse) then prev_turn cur m else m)
  end.

#[export] Instance MergingIterator_iterator : InternalIterator (MergingIterator I) := {
  Valid := merging_Valid;
  SeekToFirst := merging_SeekToFirst;
  SeekToLast := merging_SeekToLast;
  Seek := merging_Seek;
  SeekForPrev := merging_SeekForPrev;
  Next := merging_Next;
  Prev := merging_Prev;
  key := merging_key;
  value := merging_value;
  status := merging_status
}.

(** ** What the callers get *)

(** An empty iterator, the only child, or a merging iterator. *)
Inductive MergedIterator :=
| MEmpty (it : EmptyInternalIterator)
| MSingle (it : I)
| MMerging (m : MergingIterator I).

Definition merged_move (f : forall J, InternalIterator J -> J -> J) (it : MergedIterator) : MergedIterator :=
  match it with
  | MEmpty it => MEmpty (f _ _ it)
  | MSingle it => MSingle (f _ _ it)
  | MMerging m => MMerging (f _ _ m)
  end.
Definition merged_get {A} (f : forall J, InternalIterator J -> J -> A) (it : MergedIterator) : A :=
  match it with MEmpty it => f _ _ it | MSingle it => f _ _ it | MMerging m => f _ _ m end.

#[export] Instance MergedIterator_iterator : InternalIterator MergedIterator := {
  Valid := merged_get (fun _ _ => Valid);
  SeekToFirst := merged_move (fun _ _ => SeekToFirst);
  SeekToLast := merged_move (fun _ _ => SeekToLast);
  Seek t := merged_move (fun _ _ => Seek t);
  SeekForPrev t := merged_move (fun _ _ => SeekForPrev t);
  Next := merged_move (fun _ _ => Next);
  Prev := merged_move (fun _ _ => Prev);
  key := merged_get (fun _ _ => key);
  value := merged_get (fun _ _ => value);
  status := merged_get (fun _ _ => status)
}.

Definition NewMergingIterator (children : list I) (prefix_seek_mode : bool) : MergedIterator :=
  match children with
  | [] => MEmpty NewEmptyInternalIterator
  | [it] => MSingle it
  | _ => MMerging (MergingIterator_new children prefix_seek_mode)
  end.

(** [Finish] hands the merging iterator over; the null pointer is [None]. *)
Record MergeIteratorBuilder := mkBuilder {
  merge_iter : MergingIterator I;
  first_iter : option I;
  use_merging_iter : bool
}.

Definition MergeIteratorBuilder_new (prefix_seek_mode : bool) : MergeIteratorBuilder :=
  mkBuilder (MergingIterator_new [] prefix_seek_mode) None false.

Definition builder_AddIterator (iter : I) (b : MergeIteratorBuilder) : MergeIteratorBuilder :=
  let b := match first_iter b with
           | Some first => if negb (use_merging_iter b)
                           then mkBuilder (AddIterator first (merge_iter b)) (first_iter b) true else b
           | None => b
           end in
  if use_merging_iter b then mkBuilder (AddIterator iter (merge_iter b)) (first_iter b) (use_merging_iter b)
  else mkBuilder (merge_iter b) (Some iter) (use_merging_iter b).

Definition builder_Finish (b : MergeIteratorBuilder) : option MergedIterator :=
  if negb (use_merging_iter b) then MSingle <$> first_iter b else Some (MMerging (merge_iter b)).
End Operations.
Arguments MergedIterator : clear implicits.
Arguments MergeIteratorBuilder : clear implicits.

(** ** Heaps over children *)

Section Proofs.
Context {c : Comparator} {valid : bytes -> Prop} {Ho : CompareOrder c valid}.
Context {I : Type} `{InternalIterator I} (At : I -> list entry -> option entry -> Prop) `{!IteratorOk valid At}.
#[local] Notation wrapper := (IteratorWrapper I).
#[local] Notation wat := (wrapper_at At).

(** The comparison of the heap of a direction. *)
Definition dir_cmp (d : Direction) : list wrapper -> nat -> nat -> bool :=
  match d with kForward => MinIteratorComparator | kReverse => MaxIteratorComparator end.

Definition comparable (ch : list wrapper) (i : nat) : Prop := valid (wrapper_key (ch !!! i)).

Lemma dir_cmp_false d ch a b : comparable ch a -> comparable ch b ->
  dir_cmp d ch a b = false <-> upto d (wrapper_key (ch !!! a)) (wrapper_key (ch !!! b)).
Proof.
  intros Ha Hb. pose proof (compare_antisym _ _ Ha Hb).
  destruct d; cbn [dir_cmp upto]; unfold MinIteratorComparator, MaxIteratorComparator; rewrite ?Z.gtb_ltb, Z.ltb_ge; lia.
Qed.

#[export] Instance dir_cmp_order d ch : HeapOrder (dir_cmp d ch) (comparable ch).
Proof.
  split.
  - intros a b Ha Hb Hab. apply dir_cmp_false; [done|done|].
    destruct (upto_total d _ _ Hb Ha) as [|Hup]; [done|]. apply dir_cmp_false in Hup; [congruence|done|done].
  - intros a b e Ha Hb He Hab Hbe. apply dir_cmp_false in Hab, Hbe; [|done..]. apply dir_cmp_false; [done|done|].
    by apply (upto_trans d _ (wrapper_key (ch !!! b))).
Qed.

(** What every child reads, and where it is. *)
Notation placing := (list (list entry * option entry)).

Definition children_at (ch : list wrapper) (C : placing) : Prop := Forall2 (fun w p => wat w (fst p) (snd p)) ch C.

Definition holds_valid (C : placing) (h : BinaryHeap nat) : Prop :=
  NoDup (data_ h) /\ forall i, i ∈ data_ h <-> exists l e, C !! i = Some (l, Some e).

Definition heap_over (d : Direction) (ch : list wrapper) (C : placing) (h : BinaryHeap nat) : Prop :=
  heap_wf (dir_cmp d ch) h /\ holds_valid C h.

Lemma children_at_lookup ch C i l o :
  children_at ch C -> C !! i = Some (l, o) -> ch !! i = Some (ch !!! i) /\ wat (ch !!! i) l o.
Proof.
  intros HC Hi. destruct (Forall2_lookup_r _ _ _ _ _ HC Hi) as (w & Hw & Hat).
  by rewrite (list_lookup_total_correct _ _ _ Hw).
Qed.

Lemma children_at_key ch C i l e :
  children_at ch C -> C !! i = Some (l, Some e) -> wrapper_key (ch !!! i) = fst e /\ comparable ch i /\ e ∈ l /\ valid (fst e).
Proof.
  intros HC Hi. destruct (children_at_lookup _ _ _ _ _ HC Hi) as [_ Hat].
  pose proof (wrapper_at_key At _ _ _ Hat) as Hk. pose proof (wrapper_at_in At _ _ _ Hat) as He.
  pose proof (wrapper_at_keys At _ _ _ _ Hat He). split; [done|]. unfold comparable. by rewrite Hk.
Qed.

Lemma children_at_valid ch C l i o e : children_at ch C -> C !! i = Some (l, o) -> e ∈ l -> valid (fst e).
Proof. intros HC Hi He. destruct (children_at_lookup _ _ _ _ _ HC Hi) as [_ Hat]. by eapply wrapper_at_keys. Qed.

Lemma heap_over_comparable d ch C h : children_at ch C -> heap_over d ch C h -> Forall (comparable ch) (data_ h).
Proof.
  intros HC (_ & _ & Hin). apply Forall_forall. intros i (l & e & Hi)%Hin. by eapply children_at_key.
Qed.

(** The top of the heap is the first of the children's entries. *)
Lemma heap_over_top d ch C h :
  children_at ch C -> heap_over d ch C h ->
  match heap_top h with
  | Some i => exists l e, C !! i = Some (l, Some e) /\
      forall j l' e', C !! j = Some (l', Some e') -> upto d (fst e) (fst e')
  | None => forall j l' o, C !! j = Some (l', o) -> o = None
  end.
Proof.
  intros HC Hh. pose proof (heap_top_spec _ _ h (heap_over_comparable _ _ _ _ HC Hh) (proj1 Hh)) as Ht.
  destruct Hh as (_ & _ & Hin). destruct (heap_top h) as [i|].
  - destruct Ht as (rest & Hd & Hmax). destruct (proj1 (Hin i)) as (l & e & Hi); [rewrite Hd; left|].
    exists l, e. split; [done|]. intros j l' e' Hj.
    destruct (children_at_key _ _ _ _ _ HC Hi) as (<- & Hci & _). destruct (children_at_key _ _ _ _ _ HC Hj) as (<- & Hcj & _).
    apply dir_cmp_false; [done|done|]. apply Hmax, Hin. eauto.
  - intros j l' [e|] Hj; [|done]. destruct (not_elem_of_nil j). rewrite <- Ht. apply Hin. eauto.
Qed.

Lemma dir_cmp_ext d ch ch' i j :
  ch !!! i = ch' !!! i -> ch !!! j = ch' !!! j -> dir_cmp d ch i j = dir_cmp d ch' i j.
Proof. intros Hi Hj. destruct d; cbn; unfold MinIteratorComparator, MaxIteratorComparator; by rewrite Hi, Hj. Qed.

(** ** The loops over the children *)

Lemma lookup_total_alter_ne (ch : list wrapper) f i j : i <> j -> alter f i ch !!! j = ch !!! j.
Proof. intros Hij. rewrite !list_lookup_total_alt. by rewrite list_lookup_alter_ne. Qed.

Lemma lookup_total_alter_eq (ch : list wrapper) f i : (i < length ch)%nat -> alter f i ch !!! i = f (ch !!! i).
Proof.
  intros Hi. rewrite !list_lookup_total_alt, list_lookup_alter, decide_True by done.
  destruct (lookup_lt_is_Some_2 ch i Hi) as [w ->]. done.
Qed.

Lemma children_at_alter ch C f i l o o' :
  children_at ch C -> C !! i = Some (l, o) -> wat (f (ch !!! i)) l o' ->
  children_at (alter f i ch) (<[i := (l, o')]> C).
Proof.
  intros HC Hi Hat. destruct (children_at_lookup _ _ _ _ _ HC Hi) as [Hw _].
  assert (Hlt := lookup_lt_Some _ _ _ Hw).
  replace (alter f i ch) with (<[i := f (ch !!! i)]> ch); [by apply Forall2_insert|].
  apply list_eq. intros j. rewrite list_lookup_insert, list_lookup_alter. repeat case_decide; subst; try tauto.
  by rewrite Hw.
Qed.

Lemma fst_insert_same (C : placing) i l o o' : C !! i = Some (l, o) -> fst <$> <[i := (l, o')]> C = fst <$> C.
Proof. intros Hi. rewrite list_fmap_insert. cbn. apply list_insert_id. by rewrite list_lookup_fmap, Hi. Qed.

(** The heap holds the valid ones of the first [j] children. *)
Definition holds_below (j : nat) (C : placing) (h : BinaryHeap nat) : Prop :=
  NoDup (data_ h) /\ forall i, i ∈ data_ h <-> (i < j)%nat /\ exists l e, C !! i = Some (l, Some e).

(** One turn of the loop. *)
Lemma each_child_step d f j ch C h l o o' :
  children_at ch C -> C !! j = Some (l, o) -> wat (f (ch !!! j)) l o' ->
  heap_wf (dir_cmp d ch) h -> holds_below j C h ->
  let ch' := alter f j ch in
  let h' := if wrapper_Valid (ch' !!! j) then heap_push (dir_cmp d ch') j h else h in
  children_at ch' (<[j := (l, o')]> C) /\ heap_wf (dir_cmp d ch') h' /\ holds_below (S j) (<[j := (l, o')]> C) h'.
Proof.
  intros HC Hj Hat Hwf [Hnd Hin]. cbv zeta. set (ch' := alter f j ch). set (C' := <[j := (l, o')]> C).
  assert (HC' : children_at ch' C') by (by eapply children_at_alter).
  assert (Hlt : (j < length ch)%nat) by (by eapply lookup_lt_Some, (children_at_lookup _ _ _ _ _ HC Hj)).
  assert (HltC : (j < length C)%nat) by (by eapply lookup_lt_Some).
  assert (Hnj : forall i, i ∈ data_ h -> i <> j) by (intros i [Hi _]%Hin; lia).
  assert (Hin' : forall i, i ∈ data_ h <-> (i < j)%nat /\ exists l e, C' !! i = Some (l, Some e)).
  { intros i. rewrite Hin. split; intros [Hi Hex]; (split; [done|]); unfold C' in *;
      rewrite list_lookup_insert_ne in * by lia; done. }
  assert (Hwf' : heap_wf (dir_cmp d ch') h).
  { eapply heap_wf_ext; [|exact Hwf]. intros a b Ha%Hnj Hb%Hnj. apply dir_cmp_ext; symmetry; apply lookup_total_alter_ne; auto. }
  assert (HCj : C' !! j = Some (l, o')) by (unfold C'; rewrite list_lookup_insert; by rewrite decide_True).
  split; [done|]. rewrite (wrapper_at_Valid At _ l o') by (eapply children_at_lookup; done). destruct o' as [e|].
  - rewrite bool_decide_eq_true_2 by done.
    destruct (heap_push_spec (dir_cmp d ch') (comparable ch') j h) as [Hpw Hpp]; [|..|done|].
    { by eapply children_at_key. }
    { apply Forall_forall. intros i (_ & l2 & e2 & Hi)%Hin'. by eapply children_at_key. }
    split; [done|]. split.
    + rewrite Hpp. apply NoDup_cons. split; [|done]. by intros ?%Hnj.
    + intros i. rewrite Hpp, elem_of_cons, Hin'. split.
      * intros [->|[Hi Hex]]; [split; [lia|eauto]|split; [lia|done]].
      * intros [Hi Hex]. destruct (decide (i = j)) as [->|]; [by left|right]. split; [lia|done].
  - rewrite bool_decide_eq_false_2 by (by intros []). split; [done|]. split; [done|]. intros i. rewrite Hin'. split.
    + intros [Hi Hex]. split; [lia|done].
    + intros [Hi (l2 & e2 & Hi2)]. split; [|eauto]. destruct (decide (i = j)) as [->|]; [congruence|lia].
Qed.

Lemma each_child_spec d move (Q : nat -> list entry -> option entry -> Prop) n : forall j ch C h,
  children_at ch C -> length C = (j + n)%nat -> heap_wf (dir_cmp d ch) h -> holds_below j C h ->
  (forall i l o, (i < j)%nat -> C !! i = Some (l, o) -> Q i l o) ->
  (forall i l o w, (j <= i)%nat -> C !! i = Some (l, o) -> wat w l o -> exists o', wat (move i w) l o' /\ Q i l o') ->
  let r := each_child (dir_cmp d) move (seq j n) ch h in
  exists C', children_at r.1 C' /\ fst <$> C' = fst <$> C /\ heap_over d r.1 C' r.2 /\
    forall i l o, C' !! i = Some (l, o) -> Q i l o.
Proof.
  induction n as [|n IH]; intros j ch C h HC Hlen Hwf Hh Hdone Hmove; cbn [seq each_child].
  - exists C. split; [done|]. split; [done|]. split.
    + split; [done|]. destruct Hh as [Hnd Hin]. split; [done|]. intros i. rewrite Hin. split; [tauto|].
      intros (l & e & Hi). split; [|eauto]. apply lookup_lt_Some in Hi. lia.
    + intros i l o Hi. apply Hdone; [|done]. apply lookup_lt_Some in Hi. lia.
  - destruct (lookup_lt_is_Some_2 C j ltac:(lia)) as [[l o] Hj].
    destruct (children_at_lookup _ _ _ _ _ HC Hj) as [_ Hw].
    destruct (Hmove j l o _ ltac:(lia) Hj Hw) as (o' & Hw' & HQ).
    destruct (each_child_step d (move j) j ch C h l o o' HC Hj Hw' Hwf Hh) as (HC' & Hwf' & Hh'). cbv zeta.
    destruct (IH (S j) _ _ _ HC' ltac:(rewrite length_insert; lia) Hwf' Hh') as (C' & H1 & H2 & H3 & H4).
    + intros i l2 o2 Hi Hi2. destruct (decide (i = j)) as [->|Hne].
      * rewrite list_lookup_insert, decide_True in Hi2 by (split; [done|lia]). by simplify_eq.
      * rewrite list_lookup_insert_ne in Hi2 by done. apply Hdone; [lia|done].
    + intros i l2 o2 w Hi Hi2. rewrite list_lookup_insert_ne in Hi2 by lia. apply Hmove; [lia|done].
    + exists C'. split; [done|]. split; [|done]. rewrite H2. by eapply fst_insert_same.
Qed.

(** ** The merged position *)

(** The union of what the children read. *)
Definition merged (C : placing) : list entry := concat (fst <$> C).

Lemma elem_of_merged (C : placing) e : e ∈ merged C <-> exists i l o, C !! i = Some (l, o) /\ e ∈ l.
Proof.
  unfold merged. rewrite list_elem_of_In, in_concat. setoid_rewrite <- list_elem_of_In. split.
  - intros (l & Hl & He). apply list_elem_of_fmap in Hl as ([l' o] & -> & (i & Hi)%list_elem_of_lookup). eauto.
  - intros (i & l & o & Hi & He). exists l. split; [|done]. apply list_elem_of_fmap. exists (l, o). split; [done|].
    by eapply list_elem_of_lookup_2.
Qed.

Lemma merged_valid ch C e : children_at ch C -> e ∈ merged C -> valid (fst e).
Proof. intros HC (i & l & o & Hi & He)%elem_of_merged. by eapply children_at_valid. Qed.

(** Different children have no key in common. *)
Definition apart (C : placing) : Prop :=
  forall i j li oi lj oj a b, i <> j -> C !! i = Some (li, oi) -> C !! j = Some (lj, oj) ->
  a ∈ li -> b ∈ lj -> Compare (fst a) (fst b) <> 0.

Lemma fst_lookup (C C' : placing) i l o : fst <$> C' = fst <$> C -> C' !! i = Some (l, o) -> exists o', C !! i = Some (l, o').
Proof.
  intros E Hi. assert (Hf : (fst <$> C') !! i = Some l) by (by rewrite list_lookup_fmap, Hi).
  rewrite E, list_lookup_fmap in Hf. destruct (C !! i) as [[l' o']|]; [|done]. cbn in Hf. simplify_eq. eauto.
Qed.

Lemma apart_fst C C' : fst <$> C' = fst <$> C -> apart C -> apart C'.
Proof.
  intros E Ha i j li oi lj oj a b Hij Hi Hj.
  destruct (fst_lookup _ _ _ _ _ E Hi) as [oi' Hi']. destruct (fst_lookup _ _ _ _ _ E Hj) as [oj' Hj']. by eapply Ha.
Qed.

(** Every child is at its first entry of [P]. *)
Definition all_best (d : Direction) (P : entry -> Prop) (C : placing) : Prop :=
  forall i l o, C !! i = Some (l, o) -> best d P l o.

(** When every child is at its first entry of [P], a set that is closed in the
    direction, the top of the heap has the first one of the union, and every child
    is at its first entry from there on. *)
Lemma all_best_top d P ch C h :
  children_at ch C -> heap_over d ch C h -> all_best d P C ->
  (forall a b, a ∈ merged C -> b ∈ merged C -> P a -> upto d (fst a) (fst b) -> P b) ->
  match heap_top h with
  | Some i => exists l e, C !! i = Some (l, Some e) /\ best d P (merged C) (Some e) /\
                all_best d (fun x => upto d (fst e) (fst x)) C
  | None => best d P (merged C) None
  end.
Proof.
  intros HC Hh Hall Hup. pose proof (heap_over_top _ _ _ _ HC Hh) as Ht. destruct (heap_top h) as [i|].
  - destruct Ht as (l & e & Hi & Hmin). exists l, e. split; [done|].
    destruct (Hall i l _ Hi) as (He & HPe & Hmine).
    assert (Hem : e ∈ merged C) by (apply elem_of_merged; eauto).
    assert (Hve := children_at_valid _ _ _ _ _ _ HC Hi He).
    split; [split; [done|]; split; [done|]|].
    + intros x (j & lj & [ej|] & Hj & Hx)%elem_of_merged HPx.
      * destruct (Hall j lj _ Hj) as (Hej & HPej & Hminj).
        apply (upto_trans d _ (fst ej)); [done|by eapply children_at_valid|by eapply children_at_valid|by eapply Hmin|].
        by apply Hminj.
      * by destruct (Hall j lj _ Hj x Hx).
    + intros j lj oj Hj. apply (best_narrow d P); [by eapply Hall|intros ej ->; by eapply Hmin|].
      intros x Hx Hex. apply (Hup e x); [done| |done|done]. apply elem_of_merged; eauto.
  - intros x (j & lj & oj & Hj & Hx)%elem_of_merged. assert (oj = None) as -> by (by eapply Ht). by apply (Hall j lj _ Hj x Hx).
Qed.

(** The heap of a direction. *)
Definition dir_heap (d : Direction) (m : MergingIterator I) : option (BinaryHeap nat) :=
  match d with kForward => Some (minHeap_ m) | kReverse => maxHeap_ m end.

(** The merging iterator is at [e]: the current child is, it is on top of the heap
    of the direction, and every child is at its first entry from [e] on. *)
Definition merging_on (m : MergingIterator I) (C : placing) (e : entry) : Prop :=
  exists i l h, current_ m = Some i /\ C !! i = Some (l, Some e) /\
    dir_heap (direction_ m) m = Some h /\ heap_top h = Some i /\ heap_over (direction_ m) (children_ m) C h /\
    all_best (direction_ m) (fun x => upto (direction_ m) (fst e) (fst x)) C.

Definition merging_with (m : MergingIterator I) (C : placing) (o : option entry) : Prop :=
  children_at (children_ m) C /\ apart C /\ sound_ m = true /\
  match o with Some e => merging_on m C e | None => current_ m = None end.

Definition merging_at (m : MergingIterator I) (l : list entry) (o : option entry) : Prop :=
  exists C, merging_with m C o /\ l = merged C.

(** Setting the current child to the top of the heap. *)
Definition settle (d : Direction) (m : MergingIterator I) : MergingIterator I :=
  match d with kForward => set_CurrentForward m | kReverse => set_CurrentReverse m end.

Lemma heap_top_guard (h : BinaryHeap nat) : (if negb (heap_empty h) then heap_top h else None) = heap_top h.
Proof. unfold heap_empty, heap_top. by destruct (data_ h). Qed.

Lemma settle_fields d m h :
  direction_ m = d -> dir_heap d m = Some h -> sound_ m = true ->
  let m' := settle d m in
  children_ m' = children_ m /\ current_ m' = heap_top h /\ direction_ m' = d /\ dir_heap d m' = Some h /\
  sound_ m' = true /\ prefix_seek_mode_ m' = prefix_seek_mode_ m.
Proof.
  intros Hd Hh Hs. destruct d; cbn in *; unfold CurrentForward, CurrentReverse; rewrite Hd, ?Hs.
  - injection Hh as <-. rewrite heap_top_guard. done.
  - rewrite Hh, heap_top_guard. done.
Qed.

Lemma settle_with d P m C h :
  direction_ m = d -> dir_heap d m = Some h -> sound_ m = true ->
  children_at (children_ m) C -> apart C -> heap_over d (children_ m) C h -> all_best d P C ->
  (forall a b, a ∈ merged C -> b ∈ merged C -> P a -> upto d (fst a) (fst b) -> P b) ->
  exists o, merging_with (settle d m) C o /\ best d P (merged C) o /\ prefix_seek_mode_ (settle d m) = prefix_seek_mode_ m.
Proof.
  intros Hd Hh Hs HC Hap Hover Hall Hup. destruct (settle_fields d m h Hd Hh Hs) as (E1 & E2 & E3 & E4 & E5 & E6).
  pose proof (all_best_top _ _ _ _ _ HC Hover Hall Hup) as Ht.
  destruct (heap_top h) as [i|] eqn:Htop.
  - destruct Ht as (l & e & Hi & Hb & Hall'). exists (Some e). split; [|done]. unfold merging_with, merging_on.
    rewrite E1, E2, E3, E4, E5. split; [done|]. split; [done|]. split; [done|]. by exists i, l, h.
  - exists None. split; [|done]. unfold merging_with. rewrite E1, E2, E5. done.
Qed.

(** ** Repositioning every child *)

Definition over (d : Direction) (move : nat -> wrapper -> wrapper) (m : MergingIterator I) : MergingIterator I :=
  match d with
  | kForward => forward_over move (ClearHeaps m)
  | kReverse => reverse_over move (InitMaxHeap (ClearHeaps m))
  end.

Lemma over_fields d move m :
  let r := each_child (dir_cmp d) move (seq 0 (length (children_ m))) (children_ m) heap_new in
  let m' := over d move m in
  children_ m' = r.1 /\ dir_heap d m' = Some r.2 /\ direction_ m' = d /\ sound_ m' = sound_ m /\
  current_ m' = current_ m /\ prefix_seek_mode_ m' = prefix_seek_mode_ m.
Proof.
  destruct m as [ch cur dir mn mx pf sd], d; cbn [over dir_cmp].
  - unfold forward_over. cbn [ClearHeaps set children_ minHeap_ eta_MergingIterator]. unfold heap_clear.
    change (mkHeap [] None) with (@heap_new nat).
    by destruct (each_child MinIteratorComparator move _ ch heap_new).
  - unfold reverse_over, InitMaxHeap. destruct mx; cbn; unfold heap_clear; change (mkHeap [] None) with (@heap_new nat);
      by destruct (each_child MaxIteratorComparator move _ ch heap_new).
Qed.

Lemma over_spec d move m C (Q : nat -> list entry -> option entry -> Prop) :
  children_at (children_ m) C ->
  (forall i l o w, C !! i = Some (l, o) -> wat w l o -> exists o', wat (move i w) l o' /\ Q i l o') ->
  exists C' h, let m' := over d move m in
    children_at (children_ m') C' /\ fst <$> C' = fst <$> C /\ dir_heap d m' = Some h /\
    heap_over d (children_ m') C' h /\ forall i l o, C' !! i = Some (l, o) -> Q i l o.
Proof.
  intros HC Hmove. destruct (over_fields d move m) as (E1 & E2 & _).
  destruct (each_child_spec d move Q (length (children_ m)) 0 (children_ m) C heap_new) as (C' & H1 & H2 & H3 & H4).
  - done.
  - cbn. symmetry. by eapply Forall2_length.
  - apply heap_new_wf.
  - split; [constructor|]. intros i. split; [by intros ?%not_elem_of_nil|lia].
  - lia.
  - intros i l o w _. apply Hmove.
  - exists C', (each_child (dir_cmp d) move (seq 0 (length (children_ m))) (children_ m) heap_new).2.
    cbv zeta. by rewrite E1.
Qed.

Lemma merged_fst C C' : fst <$> C' = fst <$> C -> merged C' = merged C.
Proof. unfold merged. by intros ->. Qed.

(** Every seek puts the children where the union has to be. *)
Lemma seek_spec d move P m l o :
  merging_at m l o ->
  (forall i li oi w, wat w li oi -> exists o', wat (move i w) li o' /\ best d P li o') ->
  (forall a b, a ∈ l -> b ∈ l -> P a -> upto d (fst a) (fst b) -> P b) ->
  exists o', merging_at (settle d (over d move m)) l o' /\ best d P l o'.
Proof.
  intros (C & (HC & Hap & Hs & _) & ->) Hmove Hup.
  destruct (over_spec d move m C (fun _ => best d P) HC) as (C' & h & HC' & Hf & Hh & Hover & Hall); [eauto|].
  destruct (over_fields d move m) as (_ & _ & E3 & E4 & _). rewrite <- (merged_fst _ _ Hf) in *.
  destruct (settle_with d P (over d move m) C' h) as (o' & Hw & Hb & _); try done.
  - by rewrite E4.
  - by eapply apart_fst.
  - exists o'. split; [|done]. by exists C'.
Qed.

(** ** One step *)

Definition step (d : Direction) (m : MergingIterator I) : MergingIterator I :=
  match d with kForward => next_step m | kReverse => prev_step m end.

Lemma heap_step d ch C h i l e :
  children_at ch C -> apart C -> heap_over d ch C h -> heap_top h = Some i -> C !! i = Some (l, Some e) ->
  all_best d (fun x => upto d (fst e) (fst x)) C ->
  let ch' := alter (wrapper_step_dir d) i ch in
  let h' := if wrapper_Valid (ch' !!! i) then heap_replace_top (dir_cmp d ch') i h else heap_pop (dir_cmp d ch') h in
  exists C', children_at ch' C' /\ fst <$> C' = fst <$> C /\ heap_over d ch' C' h' /\
    all_best d (fun x => ahead d (fst e) (fst x)) C'.
Proof.
  intros HC Hap [Hwf [Hnd Hin]] Htop Hi Hall. cbv zeta. set (ch' := alter _ i ch).
  destruct (children_at_lookup _ _ _ _ _ HC Hi) as [_ Hw].
  destruct (wrapper_step_dir_at At d _ _ _ Hw) as (o' & Hw' & Hb').
  assert (HC' : children_at ch' (<[i := (l, o')]> C)) by (by eapply children_at_alter).
  set (C' := <[i := (l, o')]> C) in *. exists C'. split; [done|]. split; [by eapply fst_insert_same|].
  assert (Hilt := lookup_lt_Some _ _ _ Hi).
  assert (HCi : C' !! i = Some (l, o')) by (unfold C'; rewrite list_lookup_insert; by rewrite decide_True).
  assert (HCj : forall j, j <> i -> C' !! j = C !! j) by (intros j Hj; unfold C'; by rewrite list_lookup_insert_ne).
  unfold heap_top in Htop. destruct (data_ h) as [|x rest] eqn:Ed; [done|]. cbn in Htop. injection Htop as ->.
  apply NoDup_cons in Hnd as [Hni Hnd].
  assert (Hrest : forall j, j ∈ rest <-> j <> i /\ exists l e, C' !! j = Some (l, Some e)).
  { intros j. split.
    - intros Hj. assert (Hji : j <> i) by (by intros ->). split; [done|]. rewrite HCj by done. apply Hin. by right.
    - intros [Hji Hex]. rewrite HCj in Hex by done. apply Hin, elem_of_cons in Hex as [|]; done. }
  assert (Hbelow : heap_wf_below (dir_cmp d ch') h).
  { eapply heap_wf_below_ext; [|by apply heap_wf_weaken]. rewrite Ed. cbn [tail]. intros a b Ha%Hrest Hb%Hrest.
    apply dir_cmp_ext; symmetry; apply lookup_total_alter_ne; intros ->; tauto. }
  assert (Hcomp : Forall (comparable ch') (tail (data_ h))).
  { rewrite Ed. cbn [tail]. apply Forall_forall. intros j (_ & l2 & e2 & Hj)%Hrest. by eapply children_at_key. }
  split.
  - rewrite (wrapper_at_Valid At _ l o') by (eapply children_at_lookup; done). destruct o' as [e'|].
    + rewrite bool_decide_eq_true_2 by done.
      destruct (heap_replace_top_spec (dir_cmp d ch') (comparable ch') i h) as [H1 H2]; [by rewrite Ed| |done|done|].
      { by eapply children_at_key. }
      rewrite Ed in H2. cbn [tail] in H2. split; [done|]. split; [rewrite H2; by apply NoDup_cons|].
      intros j. rewrite H2, elem_of_cons, Hrest. split; [intros [->|[_ Hex]]; [by eauto|done]|].
      intros Hex. destruct (decide (j = i)) as [->|]; [by left|by right].
    + rewrite bool_decide_eq_false_2 by (by intros []).
      destruct (heap_pop_spec (dir_cmp d ch') (comparable ch') h) as [H1 H2]; [by rewrite Ed|done|done|].
      rewrite Ed in H2. cbn [tail] in H2. split; [done|]. split; [by rewrite H2|].
      intros j. rewrite H2, Hrest. split; [tauto|]. intros (l2 & e2 & Hj). split; [|eauto]. intros ->. congruence.
  - destruct (children_at_key _ _ _ _ _ HC Hi) as (_ & _ & He & Hve).
    intros j lj oj Hj. destruct (decide (j = i)) as [->|Hji]; [by simplify_eq|].
    rewrite HCj in Hj by done. eapply best_ext; [|by eapply Hall]. intros x Hx. cbv beta.
    apply upto_distinct; [done|exact (children_at_valid _ _ _ _ _ _ HC Hj Hx)|]. by eapply (Hap i j).
Qed.

Lemma step_with d m C e :
  merging_with m C (Some e) -> direction_ m = d ->
  exists o, merging_at (step d m) (merged C) o /\ best d (fun x => ahead d (fst e) (fst x)) (merged C) o.
Proof.
  intros (HC & Hap & Hs & (i & l & h & Hcur & Hi & Hh & Htop & Hover & Hall)) Hd. rewrite Hd in *.
  destruct (heap_step d _ _ _ _ _ _ HC Hap Hover Htop Hi Hall) as (C' & HC' & Hf & Hover' & Hall').
  destruct (children_at_key _ _ _ _ _ HC Hi) as (_ & _ & _ & Hve).
  rewrite <- (merged_fst _ _ Hf).
  assert (exists m' h', step d m = settle d m' /\ direction_ m' = d /\ sound_ m' = true /\ dir_heap d m' = Some h' /\
      children_at (children_ m') C' /\ heap_over d (children_ m') C' h') as (m' & h' & -> & E1 & E2 & E3 & E4 & E5).
  { clear - Hcur Hh Htop Hs Hd HC' Hover'. destruct m as [ch cur dir mn mx pf sd]. cbn in Hcur, Hs, Hd. subst.
    destruct d; cbn in Hh; simplify_eq; cbn [step].
    - unfold next_step, CurrentForward. cbn. rewrite heap_top_guard, Htop, bool_decide_eq_true_2 by done.
      unfold wrapper_step_dir in *. cbn in *. destruct (wrapper_Valid _); eexists _, _; by (split; [reflexivity|]).
    - unfold prev_step, CurrentReverse. cbn. rewrite heap_top_guard, Htop, bool_decide_eq_true_2 by done.
      unfold wrapper_step_dir in *. cbn in *. destruct (wrapper_Valid _); eexists _, _; by (split; [reflexivity|]). }
  destruct (settle_with d _ m' C' h' E1 E3 E2 E4 ltac:(by eapply apart_fst) E5 Hall') as (o & Hw & Hb & _).
  - intros a b Ha Hb. apply (ahead_upto_trans d (fst e) (fst a) (fst b)); [done|exact (merged_valid _ _ _ E4 Ha)|].
    exact (merged_valid _ _ _ E4 Hb).
  - exists o. split; [|done]. by exists C'.
Qed.

(** ** Turning around *)

Definition turn (d : Direction) (cur : nat) (m : MergingIterator I) : MergingIterator I :=
  match d with kForward => next_turn cur m | kReverse => prev_turn cur m end.

Definition turn_child (d : Direction) (prefix : bool) : bytes -> nat -> nat -> wrapper -> wrapper :=
  match d with kForward => next_child | kReverse => prev_child prefix end.

Lemma turn_child_other d prefix k cur i w l o :
  i <> cur -> valid k -> wat w l o -> (forall x, x ∈ l -> Compare k (fst x) <> 0) ->
  exists o', wat (turn_child d prefix k cur i w) l o' /\ best d (fun x => upto d k (fst x)) l o'.
Proof.
  intros Hi Hk Hw Hne. assert (Hl := fun e => wrapper_at_keys At _ _ _ e Hw).
  assert (Hno : forall w' l' o', wat w' l o' -> l' = l -> wrapper_Valid w' && (Compare k (wrapper_key w') =? 0) = false).
  { intros w' _ o' Hw' _. rewrite (wrapper_at_Valid At _ _ _ Hw'). destruct o' as [e'|]; [|by rewrite bool_decide_eq_false_2 by (by intros [])].
    rewrite (wrapper_at_key At _ _ _ Hw'). rewrite (proj2 (Z.eqb_neq _ _)); [by rewrite andb_false_r|].
    apply Hne. by eapply wrapper_at_in. }
  destruct d; cbn [turn_child]; [unfold next_child|unfold prev_child]; rewrite bool_decide_eq_false_2 by done; cbv zeta.
  - destruct (wrapper_seek_dir_at At kForward k _ _ _ Hw Hk) as (o' & Hw' & Hb'). cbn [wrapper_seek_dir] in Hw'.
    rewrite (Hno _ l _ Hw' eq_refl). eauto.
  - destruct prefix; cbn [negb].
    + destruct (wrapper_seek_dir_at At kReverse k _ _ _ Hw Hk) as (o' & Hw' & Hb'). cbn [wrapper_seek_dir] in Hw'.
      rewrite (Hno _ l _ Hw' eq_refl). eauto.
    + destruct (wrapper_seek_dir_at At kForward k _ _ _ Hw Hk) as (o' & Hw' & Hb'). cbn [wrapper_seek_dir] in Hw'.
      rewrite (wrapper_at_Valid At _ _ _ Hw'). destruct o' as [e'|].
      * rewrite bool_decide_eq_true_2 by done. destruct (wrapper_step_dir_at At kReverse _ _ _ Hw') as (o2 & Hw2 & Hb2).
        exists o2. split; [done|]. exact (best_turn kForward k e' l o2 Hl Hk Hb' Hb2 Hne).
      * rewrite bool_decide_eq_false_2 by (by intros []). destruct (wrapper_first_dir_at At kReverse _ _ _ Hw') as (o2 & Hw2 & Hb2).
        exists o2. split; [done|]. eapply best_ext; [|exact Hb2]. intros x Hx. split; [intros _|done].
        apply (upto_flip kForward). destruct (upto_total kForward k (fst x) Hk (Hl x Hx)) as [Hup|]; [|done].
        by destruct (Hb' x Hx).
Qed.

(** The current child is still the first one. *)
Lemma top_is_current d ch C h i l e :
  children_at ch C -> apart C -> heap_over d ch C h -> C !! i = Some (l, Some e) ->
  all_best d (fun x => upto d (fst e) (fst x)) C -> heap_top h = Some i.
Proof.
  intros HC Hap Hover Hi Hall. pose proof (heap_over_top _ _ _ _ HC Hover) as Ht. destruct (heap_top h) as [j|].
  - destruct Ht as (lj & ej & Hj & Hmin). f_equal. destruct (decide (j = i)) as [|Hji]; [done|]. exfalso.
    destruct (children_at_key _ _ _ _ _ HC Hi) as (_ & _ & He & Hve). destruct (children_at_key _ _ _ _ _ HC Hj) as (_ & _ & Hej & Hvej).
    destruct (Hall j lj _ Hj) as (_ & Hup & _). apply upto_distinct in Hup; [|done|done|by eapply (Hap i j)].
    specialize (Hmin i l e Hi). by apply (not_ahead d (fst e) (fst ej)) in Hmin.
  - by specialize (Ht i l _ Hi).
Qed.

Lemma turn_spec d m C e :
  merging_with m C (Some e) -> direction_ m <> d ->
  exists cur m' C', current_ m = Some cur /\ turn d cur m = m' /\ merged C' = merged C /\
    merging_with m' C' (Some e) /\ direction_ m' = d.
Proof.
  intros (HC & Hap & Hs & (cur & l & h & Hcur & Hi & _)) Hd.
  destruct (children_at_key _ _ _ _ _ HC Hi) as (Hk & _ & He & Hve).
  assert (Hkey : merging_key m = fst e) by (unfold merging_key; by rewrite Hcur).
  set (mv := turn_child d (prefix_seek_mode_ m) (fst e) cur).
  destruct (over_spec d mv m C
    (fun i l o => best d (fun x => upto d (fst e) (fst x)) l o /\ (i = cur -> o = Some e)) HC) as (C' & h' & HC' & Hf & Hh' & Hover & Hall).
  { intros i li oi w Hi' Hw. destruct (decide (i = cur)) as [->|Hne].
    - simplify_eq. exists (Some e). split; [unfold mv, turn_child, next_child, prev_child; destruct d; by rewrite bool_decide_eq_true_2|].
      split; [|done]. split; [done|]. split; [by apply upto_refl|done].
    - destruct (turn_child_other d (prefix_seek_mode_ m) (fst e) cur i w li oi) as (o' & Hw' & Hb); [done..| |].
      { intros x Hx. by eapply (Hap cur i). }
      exists o'. split; [done|]. split; [done|]. by intros ->. }
  destruct (over_fields d mv m) as (_ & _ & E3 & E4 & E5 & E6). set (m' := over d mv m) in *.
  assert (Hi' : C' !! cur = Some (l, Some e)).
  { destruct (fst_lookup _ _ _ _ _ (eq_sym Hf) Hi) as (o' & Hi'). destruct (Hall _ _ _ Hi') as [_ Ho']. by rewrite Ho' in Hi'. }
  assert (Hall' : all_best d (fun x => upto d (fst e) (fst x)) C') by (intros i li oi Hi2; by eapply Hall).
  assert (Hap' : apart C') by (by eapply apart_fst).
  assert (Htop : heap_top h' = Some cur) by (by eapply top_is_current).
  exists cur, (turn d cur m), C'. split; [done|]. split; [done|]. split; [by apply merged_fst|].
  assert (Ht : turn d cur m = m' \/ turn d cur m = settle d m').
  { unfold m', mv. clear - Hkey Htop Hh' E3 E4 E5 E6 Hcur Hs. unfold m', mv in *. destruct d; cbn [turn over turn_child] in *.
    - left. unfold next_turn. rewrite Hkey. unfold m_assert. rewrite E5, Hcur. unfold CurrentForward. cbn in Hh'. injection Hh' as ->.
      rewrite heap_top_guard, Htop, bool_decide_eq_true_2 by done. by destruct (forward_over _ _).
    - unfold prev_turn. rewrite Hkey. cbn in Hh'. unfold m_assert. rewrite E6.
      destruct (prefix_seek_mode_ m); cbn [negb].
      + left. rewrite E5, Hcur. unfold CurrentReverse. rewrite Hh', heap_top_guard, Htop, bool_decide_eq_true_2 by done.
        by destruct (reverse_over _ _).
      + right. cbn [settle]. destruct (reverse_over _ _) as [ch2 c2 d2 mn2 mx2 p2 s2]. cbn in Hh', E3 |- *. subst.
        unfold CurrentReverse. cbn. rewrite bool_decide_eq_true_2 by done. done. }
  assert (Hw : merging_with m' C' (Some e) /\ direction_ m' = d).
  { split; [|done]. split; [done|]. split; [done|]. split; [by rewrite E4|]. exists cur, l, h'. rewrite E5, E3. done. }
  destruct Ht as [-> | ->]; [done|]. destruct (settle_fields d m' h' E3 Hh' ltac:(by rewrite E4)) as (F1 & F2 & F3 & F4 & F5 & _).
  split; [|done]. unfold merging_with, merging_on. rewrite F1, F2, F3, F4, F5. split; [done|]. split; [done|]. split; [done|].
  by exists cur, l, h'.
Qed.

(** Moving by one entry, in the direction of the last move or against it. *)
Lemma move_spec d m l e :
  merging_at m l (Some e) ->
  exists o, merging_at (match d with kForward => merging_Next m | kReverse => merging_Prev m end) l o /\
    best d (fun x => ahead d (fst e) (fst x)) l o.
Proof.
  intros (C & Hw & ->).
  assert (exists m' C', (match d with kForward => merging_Next m | kReverse => merging_Prev m end) = step d m' /\
    merging_with m' C' (Some e) /\ merged C' = merged C /\ direction_ m' = d) as (m' & C' & -> & Hw' & <- & Hd').
  { destruct Hw as (HC & Hap & Hs & Hon). assert (Hw : merging_with m C (Some e)) by done.
    destruct Hon as (cur & l & h & Hcur & _).
    destruct (decide (direction_ m = d)) as [Hd|Hd].
    - exists m, C. split; [|done]. destruct d; [unfold merging_Next|unfold merging_Prev]; rewrite Hcur;
        by rewrite bool_decide_eq_false_2 by (rewrite Hd; tauto).
    - destruct (turn_spec d m C e Hw Hd) as (cur' & m' & C' & Hcur' & Ht & Hm & Hw' & Hd').
      rewrite Hcur in Hcur'. injection Hcur' as <-. exists m', C'. rewrite <- Ht in *. split; [|done]. destruct d; [unfold merging_Next|unfold merging_Prev]; rewrite Hcur;
        by rewrite bool_decide_eq_true_2. }
  by apply step_with.
Qed.

(** The merging iterator keeps the promises of the interface. *)
Lemma merging_iterator_ok : IteratorOk valid merging_at.
Proof.
  split.
  - intros m l o (C & (HC & _) & ->) e He. by eapply merged_valid.
  - intros m l o (C & (_ & _ & _ & Hon) & ->). cbn. unfold merging_Valid. destruct o as [e|]; [|by rewrite Hon].
    destruct Hon as (i & li & h & -> & _). by rewrite !bool_decide_eq_true_2.
  - intros m l e (C & (HC & _ & _ & (i & li & h & Hcur & Hi & _)) & ->). cbn. unfold merging_key, merging_value. rewrite Hcur.
    destruct (children_at_lookup _ _ _ _ _ HC Hi) as [_ Hw]. destruct (children_at_key _ _ _ _ _ HC Hi) as (-> & _ & He & _).
    split; [apply elem_of_merged; eauto|]. split; [done|]. by eapply wrapper_at_value.
  - intros m l o Hm. apply (seek_spec kForward (fun _ => wrapper_SeekToFirst) _ m l o Hm); [|done].
    intros i li oi w Hw. exact (wrapper_first_dir_at At kForward w li oi Hw).
  - intros m l o Hm. apply (seek_spec kReverse (fun _ => wrapper_SeekToLast) _ m l o Hm); [|done].
    intros i li oi w Hw. exact (wrapper_first_dir_at At kReverse w li oi Hw).
  - intros m l o t Hm Ht. apply (seek_spec kForward (fun _ => wrapper_Seek t) _ m l o Hm).
    + intros i li oi w Hw. exact (wrapper_seek_dir_at At kForward t w li oi Hw Ht).
    + destruct Hm as (C & (HC & _) & ->). intros a b Ha Hb. apply upto_trans; [done|by eapply merged_valid..].
  - intros m l o t Hm Ht. apply (seek_spec kReverse (fun _ => wrapper_SeekForPrev t) _ m l o Hm).
    + intros i li oi w Hw. exact (wrapper_seek_dir_at At kReverse t w li oi Hw Ht).
    + destruct Hm as (C & (HC & _) & ->). intros a b Ha Hb. apply upto_trans; [done|by eapply merged_valid..].
  - intros m l e Hm. exact (move_spec kForward m l e Hm).
  - intros m l e Hm. exact (move_spec kReverse m l e Hm).
Qed.

Lemma merging_at_sound m l o : merging_at m l o -> sound_ m = true.
Proof. by intros (C & (_ & _ & Hs & _) & _). Qed.

(** ** Construction *)

(** Children that have not been positioned yet. *)
Definition fresh (Ls : list (list entry)) : placing := (fun l => (l, None)) <$> Ls.

Lemma merged_fresh Ls : merged (fresh Ls) = concat Ls.
Proof. unfold merged, fresh. by rewrite <- list_fmap_compose, list_fmap_id. Qed.

Lemma fresh_lookup Ls i l o : fresh Ls !! i = Some (l, o) <-> Ls !! i = Some l /\ o = None.
Proof.
  unfold fresh. rewrite list_lookup_fmap. destruct (Ls !! i); cbn; split; intros; destruct_and?; simplify_eq; auto.
Qed.

Lemma children_at_fresh its Ls :
  Forall2 (fun it l => At it l None) its Ls -> children_at ((fun it => wrapper_new (Some it)) <$> its) (fresh Ls).
Proof.
  intros HF. unfold children_at, fresh. rewrite Forall2_fmap. eapply Forall2_impl; [exact HF|].
  intros it l Hat. by apply wrapper_new_at.
Qed.

(** A merging iterator under construction. *)
Definition building (m : MergingIterator I) (Ls : list (list entry)) : Prop :=
  children_at (children_ m) (fresh Ls) /\ sound_ m = true /\ current_ m = None /\
  direction_ m = kForward /\ minHeap_ m = heap_new.

Lemma building_at m Ls : building m Ls -> apart (fresh Ls) -> merging_at m (concat Ls) None.
Proof. intros (HC & Hs & Hcur & _) Hap. exists (fresh Ls). by rewrite merged_fresh. Qed.

Lemma each_child_invalid cmp (ch : list wrapper) h ix :
  (forall i, i ∈ ix -> wrapper_Valid (ch !!! i) = false) -> each_child cmp (fun _ w => w) ix ch h = (ch, h).
Proof.
  induction ix as [|i ix IH]; [done|]. intros Hv. cbn [each_child].
  assert (Ha : alter (fun w : wrapper => w) i ch = ch).
  { apply list_eq. intros j. rewrite list_lookup_alter. destruct (decide _) as [->|]; [|done]. by destruct (ch !! j). }
  rewrite Ha, Hv by (by left). apply IH. intros j Hj. apply Hv. by right.
Qed.

Lemma MergingIterator_new_building its Ls prefix :
  Forall2 (fun it l => At it l None) its Ls -> building (MergingIterator_new its prefix) Ls.
Proof.
  intros HF. pose proof (children_at_fresh its Ls HF) as HC. unfold MergingIterator_new, forward_over. cbn [children_ minHeap_].
  change (fun it : I => wrapper_Set (Some it) (mkWrapper None false [])) with (fun it : I => wrapper_new (Some it)).
  rewrite each_child_invalid; [done|]. intros i (_ & Hi)%elem_of_seq.
  destruct (lookup_lt_is_Some_2 (fresh Ls) i) as [[l o] Hl].
  { rewrite <- (Forall2_length _ _ _ HC). lia. }
  pose proof (children_at_lookup _ _ _ _ _ HC Hl) as [_ Hw]. apply fresh_lookup in Hl as [_ ->].
  by rewrite (wrapper_at_Valid At _ _ _ Hw).
Qed.

Lemma AddIterator_building it l m Ls : building m Ls -> At it l None -> building (AddIterator it m) (Ls ++ [l]).
Proof.
  intros (HC & Hs & Hcur & Hd & Hh) Hat. unfold AddIterator. cbv zeta.
  rewrite (wrapper_at_Valid At _ l None) by (by apply wrapper_new_at).
  rewrite bool_decide_eq_false_2 by (by intros []). cbn. unfold building. cbn. rewrite Hh, Hd, Hs. cbn.
  split; [|done]. unfold fresh. rewrite fmap_app. apply Forall2_app; [done|]. constructor; [|constructor].
  by apply wrapper_new_at.
Qed.

(** The iterators the callers get keep the promises. *)
Definition merged_at (it : MergedIterator I) (l : list entry) (o : option entry) : Prop :=
  match it with
  | MEmpty _ => l = [] /\ o = None
  | MSingle it => At it l o
  | MMerging m => merging_at m l o
  end.

Definition builder_has (b : MergeIteratorBuilder I) (Ls : list (list entry)) : Prop :=
  if use_merging_iter b then building (merge_iter b) Ls /\ is_Some (first_iter b)
  else building (merge_iter b) [] /\
    match first_iter b with Some it => exists l, Ls = [l] /\ At it l None | None => Ls = [] end.

Lemma builder_AddIterator_has it l b Ls :
  builder_has b Ls -> At it l None -> builder_has (builder_AddIterator it b) (Ls ++ [l]).
Proof.
  intros Hb Hat. unfold builder_AddIterator, builder_has in *. destruct b as [m [first|] [|]]; cbn in *.
  - split; [|done]. apply AddIterator_building; [apply Hb|done].
  - destruct Hb as (Hm & l1 & -> & Hf). split; [|done]. apply AddIterator_building; [|done].
    by apply (AddIterator_building first l1 m []).
  - by destruct Hb as [_ []].
  - destruct Hb as [Hm ->]. split; [done|]. by exists l.
Qed.

Lemma builder_all_has its Ls b0 Ls0 :
  builder_has b0 Ls0 -> Forall2 (fun it l => At it l None) its Ls ->
  builder_has (foldl (fun b it => builder_AddIterator it b) b0 its) (Ls0 ++ Ls).
Proof.
  intros Hb HF. revert b0 Ls0 Hb. induction HF as [|it l its Ls Hat HF IH]; intros b0 Ls0 Hb; cbn [foldl].
  - by rewrite app_nil_r.
  - rewrite cons_middle, app_assoc. apply IH. by apply builder_AddIterator_has.
Qed.

Lemma builder_Finish_at b Ls :
  builder_has b Ls -> Ls <> [] -> apart (fresh Ls) ->
  exists it, builder_Finish b = Some it /\ merged_at it (concat Ls) None.
Proof.
  unfold builder_has, builder_Finish. intros Hb Hne Hap. destruct (use_merging_iter b); cbn [negb].
  - eexists. split; [done|]. apply building_at; [apply Hb|done].
  - destruct Hb as [_ Hf]. destruct (first_iter b) as [it|]; [|done]. destruct Hf as (l & -> & Hat).
    exists (MSingle it). split; [done|]. cbn. by rewrite app_nil_r.
Qed.

(** Keys that are distinct in the union are distinct across the children. *)
Lemma ForallOrdPairs_app_inv {A} (R : A -> A -> Prop) l1 l2 :
  ForallOrdPairs R (l1 ++ l2) -> ForallOrdPairs R l2 /\ forall a b, a ∈ l1 -> b ∈ l2 -> R a b.
Proof.
  induction l1 as [|x l1 IH]; cbn [app]; [intros Hr; split; [done|by intros a b ?%not_elem_of_nil]|].
  intros Hr. inversion Hr as [|? ? Hx Hr']; subst. destruct (IH Hr') as [H1 H2]. split; [done|].
  intros a b [->|Ha]%elem_of_cons Hb; [|by apply H2]. rewrite List.Forall_forall in Hx.
  apply Hx, list_elem_of_In, elem_of_app. by right.
Qed.

Lemma distinct_keys_apart Ls :
  (forall e, e ∈ concat Ls -> valid (fst e)) -> distinct_keys (concat Ls) -> apart (fresh Ls).
Proof.
  intros Hv Hd i j li oi lj oj a b Hij [Hi _]%fresh_lookup [Hj _]%fresh_lookup Ha Hb.
  assert (Hlt : forall i j li lj a b, (i < j)%nat -> Ls !! i = Some li -> Ls !! j = Some lj -> a ∈ li -> b ∈ lj ->
    Compare (fst a) (fst b) <> 0 /\ valid (fst a) /\ valid (fst b)).
  { clear - Hd Hv. intros i j li lj a b Hij Hi Hj Ha Hb.
    rewrite <- (take_drop_middle Ls i li Hi), concat_app in Hd, Hv. cbn [concat] in Hd, Hv.
    apply ForallOrdPairs_app_inv in Hd as [Hd _]. apply ForallOrdPairs_app_inv in Hd as [_ Hd].
    assert (Hb' : b ∈ concat (drop (S i) Ls)).
    { apply list_elem_of_In, in_concat. exists lj. split; [|by apply list_elem_of_In]. apply list_elem_of_In.
      apply list_elem_of_lookup. exists (j - S i)%nat. rewrite lookup_drop. by replace (S i + (j - S i))%nat with j by lia. }
    split; [by apply Hd|]. split; apply Hv; rewrite !elem_of_app; auto. }
  destruct (Nat.lt_trichotomy i j) as [Hl|[->|Hl]]; [by eapply Hlt|done|].
  destruct (Hlt j i lj li b a Hl Hj Hi Hb Ha) as (Hne & Hvb & Hva). intros E. apply Hne. by apply compare_eq_sym.
Qed.
End Proofs.

(** ** Main theorems *)

Section Main.
Context {c : Comparator} {valid : bytes -> Prop} {Ho : CompareOrder c valid}.
Context {I : Type} `{InternalIterator I} (At : I -> list entry -> option entry -> Prop) `{!IteratorOk valid At}.

#[export] Instance MergedIterator_ok : IteratorOk valid (merged_at At).
Proof.
  pose proof (merging_iterator_ok At) as Hm.
  assert (Hempty : forall d P, best d P [] None) by (intros d P e ?%not_elem_of_nil; done).
  split; (intros [it|it|m]; cbn [merged_at];
    [|first [by eapply (at_keys (I := I))|by eapply (at_Valid (I := I))|by eapply (at_entry (I := I))
            |by eapply (at_SeekToFirst (I := I))|by eapply (at_SeekToLast (I := I))|by eapply (at_Seek (I := I))
            |by eapply (at_SeekForPrev (I := I))|by eapply (at_Next (I := I))|by eapply (at_Prev (I := I))]
     |first [by eapply (at_keys (I := MergingIterator I))|by eapply (at_Valid (I := MergingIterator I))
            |by eapply (at_entry (I := MergingIterator I))
            |by eapply (at_SeekToFirst (I := MergingIterator I))|by eapply (at_SeekToLast (I := MergingIterator I))
            |by eapply (at_Seek (I := MergingIterator I))|by eapply (at_SeekForPrev (I := MergingIterator I))
            |by eapply (at_Next (I := MergingIterator I))|by eapply (at_Prev (I := MergingIterator I))]]).
  - intros l o [-> ->] e ?%not_elem_of_nil. done.
  - by intros l o [-> ->].
  - by intros l e [-> ?].
  - intros l o [-> ->]. exists None. by split.
  - intros l o [-> ->]. exists None. by split.
  - intros l o t [-> ->] _. exists None. by split.
  - intros l o t [-> ->] _. exists None. by split.
  - by intros l e [-> ?].
  - by intros l e [-> ?].
Qed.

Lemma NewMergingIterator_at its Ls prefix :
  Forall2 (fun it l => At it l None) its Ls -> apart (fresh Ls) ->
  merged_at At (NewMergingIterator its prefix) (concat Ls) None.
Proof.
  intros HF Hap. unfold NewMergingIterator. destruct HF as [|it l its Ls Hat HF]; [done|].
  destruct HF as [|it2 l2 its Ls Hat2 HF]; cbn [merged_at].
  - cbn. by rewrite app_nil_r.
  - apply building_at; [|done]. eapply MergingIterator_new_building; [exact _|]. by repeat constructor.
Qed.

Lemma children_status_ok (ch : list (IteratorWrapper I)) :
  ok (children_status ch) = true <-> Forall (fun w => ok (wrapper_status w) = true) ch.
Proof.
  induction ch as [|w ch IH]; [done|]. rewrite Forall_cons. cbn [children_status].
  destruct (ok (wrapper_status w)) eqn:E; cbn [negb]; [|rewrite E; naive_solver].
  destruct ch as [|w' ch]; [rewrite E; split; [split; [done|constructor]|done]|]. rewrite IH. naive_solver.
Qed.
End Main.

(** C14: The merging iterator refines the union of its children.  If the comparator
    orders the keys and the children are iterators that keep the contract of
    internal_iterator.h, then the merging iterator keeps the same contract for all
    their entries together: every seek finds the first entry of the union in its
    direction, [Next] and [Prev] find the neighbour, also when they reverse the
    direction and reposition the children, and [key] and [value] are those of the
    entry.  A merging iterator built over children that have no key in common and
    are not positioned yet starts in that contract, and as long as it is used
    within it no assertion fails and the heap only points to children. *)
Theorem merging_iterator_refines {c : Comparator} (valid : bytes -> Prop) {I : Type} `{InternalIterator I}
    (At : I -> list entry -> option entry -> Prop) :
  CompareOrder c valid -> IteratorOk valid At ->
  IteratorOk valid (merging_at At) /\
  (forall its Ls prefix, Forall2 (fun it l => At it l None) its Ls -> apart (fresh Ls) ->
     merging_at At (MergingIterator_new its prefix) (concat Ls) None) /\
  (forall m l o, merging_at At m l o -> sound_ m = true).
Proof.
  intros Ho Hok. split; [by apply merging_iterator_ok|]. split; [|apply merging_at_sound].
  intros its Ls prefix HF Hap. apply building_at; [|done]. eapply MergingIterator_new_building; [exact _|done].
Qed.

(** Building a merged iterator and scanning it sorts.  After [AddIterator] of any
    number of children that are not positioned yet, [Finish] gives an iterator whose
    scan from [SeekToFirst] meets every entry of every child exactly once, in
    strictly increasing order of the keys, provided no two keys are equal.  This is
    the order in which a compaction sees its input. *)
Theorem merging_scan_sorted {c : Comparator} (valid : bytes -> Prop) {I : Type} `{InternalIterator I}
    (At : I -> list entry -> option entry -> Prop) its Ls prefix :
  CompareOrder c valid -> IteratorOk valid At ->
  Forall2 (fun it l => At it l None) its Ls -> its <> [] -> distinct_keys (concat Ls) ->
  exists it, builder_Finish (foldl (fun b it => builder_AddIterator it b) (MergeIteratorBuilder_new prefix) its) = Some it /\
    let r := scan (length (concat Ls)) (SeekToFirst it) in
    StronglySorted (fun a b => Compare (fst a) (fst b) < 0) r /\ r ≡ₚ concat Ls.
Proof.
  intros Ho Hok HF Hne Hd.
  assert (Hv : forall e, e ∈ concat Ls -> valid (fst e)).
  { clear - HF Hok. induction HF as [|it l its Ls Hat HF IH]; cbn [concat]; [by intros e ?%not_elem_of_nil|].
    intros e [He|He]%elem_of_app; [by eapply at_keys|by apply IH]. }
  assert (Hb : builder_has At (foldl (fun b it => builder_AddIterator it b) (MergeIteratorBuilder_new prefix) its) ([] ++ Ls)).
  { eapply builder_all_has; [exact _| |done]. split; [|done]. apply (MergingIterator_new_building (valid := valid) At [] []). constructor. }
  destruct (builder_Finish_at At _ Ls Hb) as (it & Hf & Hat).
  - intros ->. by inversion HF; subst.
  - by eapply distinct_keys_apart.
  - exists it. split; [done|]. exact (scan_all (merged_at At) it (concat Ls) None Hd Hat).
Qed.

(** ** Concrete runs *)

#[local] Existing Instance Bytewise.BytewiseComparator.

Module Runs.
Definition k (n : nat) : bytes := [byte_of_Z (Z.of_nat n)].
Definition child (ns : list nat) : list entry := (fun n => (k n, k (n + 100))) <$> ns.
Definition lists : list (list entry) := [child [1; 4; 9]; child [2; 3]; child []; child [7; 5]]%nat.
Definition its : list ListIterator := (fun l => mkListIterator l None) <$> lists.

Lemma its_at : Forall2 (fun it l => list_at (valid := fun _ => True) it l None) its lists.
Proof. repeat constructor; done. Qed.

(** Forward, back over the change of direction, and forward again. *)
Definition m0 : MergingIterator ListIterator := MergingIterator_new its false.
Definition walk : list (MergingIterator ListIterator) :=
  let s := merging_Seek (k 3) m0 in
  let n := merging_Next in
  let p := merging_Prev in
  [s; n s; n (n s); p (n (n s)); p (p (n (n s))); n (p (p (n (n s))))].
End Runs.

Lemma merging_iterator_refines_witness :
  merging_at (list_at (valid := fun _ => True)) Runs.m0 (concat Runs.lists) None /\
  ((fun m => (merging_key m, sound_ m)) <$> Runs.walk) =
    ((fun n => (Runs.k n, true)) <$> [3; 4; 5; 4; 3; 4]%nat).
Proof.
  split; [|vm_compute; reflexivity].
  apply (merging_iterator_refines (fun _ => True)
           (list_at (valid := fun _ => True)) _ _).
  - exact Runs.its_at.
  - apply (distinct_keys_apart (valid := fun _ => True)); [done|].
    repeat (constructor; [repeat (constructor; [vm_compute; congruence|]); constructor|]). constructor.
Defined.

Lemma merging_scan_sorted_witness :
  exists it, builder_Finish (foldl (fun b it => builder_AddIterator it b)
      (MergeIteratorBuilder_new false) Runs.its) = Some it /\
    scan (length (concat Runs.lists)) (SeekToFirst it) ≡ₚ concat Runs.lists.
Proof.
  destruct (merging_scan_sorted (fun _ => True) (list_at (valid := fun _ => True))
    Runs.its Runs.lists false _ _ Runs.its_at) as (it & Hf & _ & Hp).
  - discriminate.
  - repeat (constructor; [repeat (constructor; [vm_compute; congruence|]); constructor|]). constructor.
  - exists it. split; [exact Hf|exact Hp].
Defined.
