(* ===== verification/Block.v ===== *)
(** * Data blocks (table/block_builder.{h,cc}, table/block.{h,cc})

    A block holds sorted entries.  A key is stored as the number of bytes it shares
    with the key before it and the rest; at the restart points, whose offsets are at
    the end of the block, the whole key is stored, so that a reader can search them.

    [BlockBuilder] writes a block, [Block] and [BlockIter] read it.  Offsets and
    lengths are integers with the 32-bit casts of the code; a [Slice] into the block
    is an offset and a length.  The reader's loops take fuel. *)

From S2P Require Import Prelude Coding DbFormat Iterators.
From stdpp Require Import base list strings.
From Stdlib Require Import ZArith Lia.
#[local] Open Scope Z_scope.

(** ** Writing *)

Record BlockBuilder := mkBlockBuilder {
  block_restart_interval_ : Z;
  use_delta_encoding_ : bool;
  bb_buffer_ : bytes;
  bb_restarts_ : list Z;
  estimate_ : Z;
  counter_ : Z;
  finished_ : bool;
  last_key_ : bytes
}.

#[export] Instance eta_BlockBuilder : Settable BlockBuilder := fun b =>
  mkBlockBuilder (block_restart_interval_ b) (use_delta_encoding_ b) (bb_buffer_ b) (bb_restarts_ b)
    (estimate_ b) (counter_ b) (finished_ b) (last_key_ b).

Definition bsize (b : bytes) : Z := Z.of_nat (length b).

Definition BlockBuilder_new (block_restart_interval : Z) (use_delta_encoding : bool) : BlockBuilder :=
  mkBlockBuilder block_restart_interval use_delta_encoding [] [0] (4 + 4) 0 false [].

Definition BlockBuilder_Reset (b : BlockBuilder) : BlockBuilder :=
  b <| bb_buffer_ := [] |> <| bb_restarts_ := [0] |> <| estimate_ := 4 + 4 |> <| counter_ := 0 |>
    <| finished_ := false |> <| last_key_ := [] |>.

Definition CurrentSizeEstimate (b : BlockBuilder) : Z := estimate_ b.

Definition EstimateSizeAfterKV (key value : bytes) (b : BlockBuilder) : Z :=
  let estimate := CurrentSizeEstimate b in
  let estimate := estimate + (bsize key + bsize value) in
  let estimate := if counter_ b >=? block_restart_interval_ b then estimate + 4 else estimate in
  estimate + 4 + VarintLength (bsize key) + VarintLength (bsize value).

Definition BlockBuilder_empty (b : BlockBuilder) : bool := match bb_buffer_ b with [] => true | _ => false end.

(** The slice [Finish] returns is the buffer it leaves. *)
Definition BlockBuilder_Finish (b : BlockBuilder) : BlockBuilder :=
  let buffer := foldl (fun buf r => buf ++ PutFixed32 r) (bb_buffer_ b) (bb_restarts_ b) in
  b <| bb_buffer_ := buffer ++ PutFixed32 (u32 (Z.of_nat (length (bb_restarts_ b)))) |> <| finished_ := true |>.

Fixpoint difference_offset (a b : bytes) : nat :=
  match a, b with
  | x :: a, y :: b => if decide (x <> y) then 0%nat else S (difference_offset a b)
  | _, _ => 0%nat
  end.

(** [Add] asserts that the block is not finished, and that the counter has not
    passed the interval. *)
Definition Add_assert (b : BlockBuilder) : bool := negb (finished_ b) && (counter_ b <=? block_restart_interval_ b).

(** The number of bytes shared with the key before; at a restart point none. *)
Definition Add_start (key : bytes) (b : BlockBuilder) : nat * BlockBuilder :=
  if counter_ b >=? block_restart_interval_ b then
    let b := b <| bb_restarts_ ::= fun r => r ++ [u32 (bsize (bb_buffer_ b))] |> <| estimate_ ::= Z.add 4 |>
               <| counter_ := 0 |> in
    (0%nat, if use_delta_encoding_ b then b <| last_key_ := key |> else b)
  else if use_delta_encoding_ b then (difference_offset key (last_key_ b), b <| last_key_ := key |>)
  else (0%nat, b).

Definition Add_write (shared : nat) (key value : bytes) (b : BlockBuilder) : BlockBuilder :=
  let non_shared := bsize key - Z.of_nat shared in
  let curr_size := bsize (bb_buffer_ b) in
  let b := b <| bb_buffer_ ::= fun buf =>
      ((buf ++ PutVarint32Varint32Varint32 (u32 (Z.of_nat shared)) (u32 non_shared) (u32 (bsize value)))
         ++ drop shared key) ++ value |> in
  b <| counter_ ::= Z.succ |> <| estimate_ ::= Z.add (bsize (bb_buffer_ b) - curr_size) |>.

Definition BlockBuilder_Add (key value : bytes) (b : BlockBuilder) : BlockBuilder :=
  let '(shared, b) := Add_start key b in Add_write shared key value b.

(** ** Reading one entry *)

Definition slice (data : bytes) (off len : Z) : bytes := take (Z.to_nat len) (drop (Z.to_nat off) data).

(** [p] has the bytes from the entry to the limit.  The result has the three
    lengths and the bytes after them.  The sum of the two lengths is taken with 32
    bits. *)
Definition DecodeEntry (p : bytes) : option (Z * Z * Z * bytes) :=
  let check '(shared, non_shared, value_length, p) :=
    if u32 (bsize p) <? u32 (non_shared + value_length) then None
    else Some (shared, non_shared, value_length, p) in
  if bsize p <? 3 then None
  else
    let shared := char_at p 0 in
    let non_shared := char_at p 1 in
    let value_length := char_at p 2 in
    if Z.lor (Z.lor shared non_shared) value_length <? 128 then check (shared, non_shared, value_length, drop 3 p)
    else
      match GetVarint32Ptr p with
      | None => None
      | Some (shared, p) =>
          match GetVarint32Ptr p with
          | None => None
          | Some (non_shared, p) =>
              match GetVarint32Ptr p with
              | None => None
              | Some (value_length, p) => check (shared, non_shared, value_length, p)
              end
          end
      end.

(** ** The iterator's state *)

(** The key a cached entry points to is in the block, or in the buffer. *)
Record CachedPrevEntry := mkCached {
  ce_offset : Z;
  ce_key_ptr : option bytes;
  ce_key_offset : nat;
  ce_key_size : nat;
  ce_value : Z * Z
}.

(** [bi_data] is [None] before [Initialize]; [bi_key_external] is [IsKeyPinned] of
    the [IterKey], whose bytes are [bi_key].  The prefix index gives the blocks that
    may have keys with the target's prefix. *)
Record BlockIter := mkBlockIter {
  bi_data : option bytes;
  bi_restarts : Z;
  bi_num_restarts : Z;
  bi_current : Z;
  bi_restart_index : Z;
  bi_key : bytes;
  bi_key_external : bool;
  bi_value : Z * Z;
  bi_status : Status;
  bi_prefix_index : option (bytes -> list Z);
  bi_key_pinned : bool;
  bi_global_seqno : Z;
  bi_prev_keys_buff : bytes;
  bi_prev_entries : list CachedPrevEntry;
  bi_prev_idx : Z
}.

#[export] Instance eta_BlockIter : Settable BlockIter := fun it =>
  mkBlockIter (bi_data it) (bi_restarts it) (bi_num_restarts it) (bi_current it) (bi_restart_index it) (bi_key it)
    (bi_key_external it) (bi_value it) (bi_status it) (bi_prefix_index it) (bi_key_pinned it) (bi_global_seqno it)
    (bi_prev_keys_buff it) (bi_prev_entries it) (bi_prev_idx it).

Definition kDisableGlobalSequenceNumber : Z := 2 ^ 64 - 1.

Definition BlockIter_new : BlockIter :=
  mkBlockIter None 0 0 0 0 [] false (0, 0) OK None false kDisableGlobalSequenceNumber [] [] (-1).

Definition Initialize (data : bytes) (restarts num_restarts : Z) (prefix_index : option (bytes -> list Z))
    (global_seqno : Z) (it : BlockIter) : BlockIter :=
  it <| bi_data := Some data |> <| bi_restarts := restarts |> <| bi_num_restarts := num_restarts |>
     <| bi_current := restarts |> <| bi_restart_index := num_restarts |> <| bi_prefix_index := prefix_index |>
     <| bi_global_seqno := global_seqno |>.

Definition bi_bytes (it : BlockIter) : bytes := default [] (bi_data it).

Definition bi_Valid (it : BlockIter) : bool := bi_current it <? bi_restarts it.

Definition bi_value_bytes (it : BlockIter) : bytes := slice (bi_bytes it) (fst (bi_value it)) (snd (bi_value it)).

Definition NextEntryOffset (it : BlockIter) : Z := u32 (fst (bi_value it) + snd (bi_value it)).

Definition GetRestartPoint (index : Z) (it : BlockIter) : Z :=
  DecodeFixed32 (drop (Z.to_nat (bi_restarts it + index * 4)) (bi_bytes it)).

Definition SeekToRestartPoint (index : Z) (it : BlockIter) : BlockIter :=
  it <| bi_key := [] |> <| bi_restart_index := index |> <| bi_value := (GetRestartPoint index it, 0) |>.

(** [value_.clear()] leaves a slice outside the block; nothing reads it before the
    next seek. *)
Definition CorruptionError (it : BlockIter) : BlockIter :=
  it <| bi_current := bi_restarts it |> <| bi_restart_index := bi_num_restarts it |>
     <| bi_status := Corruption "bad entry in block"%string |> <| bi_key := [] |> <| bi_value := (0, 0) |>.

(** [IterKey::UpdateInternalKey] overwrites the last eight bytes. *)
Definition IterKey_UpdateInternalKey (seq t : Z) (key : bytes) : bytes :=
  take (length key - 8) key ++ EncodeFixed64 (PackSequenceAndType seq t).

Fixpoint advance_restart (fuel : nat) (it : BlockIter) : BlockIter :=
  match fuel with
  | O => it
  | S fuel =>
      if (bi_restart_index it + 1 <? bi_num_restarts it) && (GetRestartPoint (bi_restart_index it + 1) it <? bi_current it)
      then advance_restart fuel (it <| bi_restart_index ::= Z.succ |>)
      else it
  end.

(** The key, from its shared part and the bytes at [p]. *)
Definition parse_key (shared non_shared p : Z) (it : BlockIter) : BlockIter :=
  if shared =? 0 then
    it <| bi_key := slice (bi_bytes it) p non_shared |> <| bi_key_external := true |> <| bi_key_pinned := true |>
  else
    it <| bi_key ::= fun k => take (Z.to_nat shared) k ++ slice (bi_bytes it) p non_shared |>
       <| bi_key_external := false |> <| bi_key_pinned := false |>.

(** In a file with a global sequence number every key gets that number. *)
Definition apply_global_seqno (it : BlockIter) : BlockIter :=
  if bi_global_seqno it =? kDisableGlobalSequenceNumber then it
  else
    it <| bi_key ::= fun k => IterKey_UpdateInternalKey (bi_global_seqno it) (ExtractValueType k) k |>
       <| bi_key_external := false |> <| bi_key_pinned := false |>.

Definition parsed (shared non_shared value_length p : Z) (it : BlockIter) : BlockIter :=
  let it := apply_global_seqno (parse_key shared non_shared p it) in
  let it := it <| bi_value := (p + non_shared, value_length) |> in
  advance_restart (Z.to_nat (bi_num_restarts it)) it.

Definition ParseNextKey (it : BlockIter) : bool * BlockIter :=
  let it := it <| bi_current := NextEntryOffset it |> in
  if bi_restarts it <=? bi_current it then
    (false, it <| bi_current := bi_restarts it |> <| bi_restart_index := bi_num_restarts it |>)
  else
    match DecodeEntry (slice (bi_bytes it) (bi_current it) (bi_restarts it - bi_current it)) with
    | Some (shared, non_shared, value_length, rest) =>
        if bsize (bi_key it) <? shared then (false, CorruptionError it)
        else (true, parsed shared non_shared value_length (bi_restarts it - bsize rest) it)
    | None => (false, CorruptionError it)
    end.

(** ** Moves *)

Section Moves.
Context {c : Comparator}.

Definition bi_Next (it : BlockIter) : BlockIter := snd (ParseNextKey it).

Definition bi_SeekToFirst (it : BlockIter) : BlockIter :=
  match bi_data it with None => it | Some _ => snd (ParseNextKey (SeekToRestartPoint 0 it)) end.

(** Every turn of a loop over the entries moves on by at least three bytes. *)
Definition loop_fuel (it : BlockIter) : nat := S (Z.to_nat (bi_restarts it)).

Fixpoint last_loop (fuel : nat) (it : BlockIter) : BlockIter :=
  match fuel with
  | O => it
  | S fuel =>
      let '(found, it) := ParseNextKey it in
      if found && (NextEntryOffset it <? bi_restarts it) then last_loop fuel it else it
  end.

Definition bi_SeekToLast (it : BlockIter) : BlockIter :=
  match bi_data it with
  | None => it
  | Some _ => last_loop (loop_fuel it) (SeekToRestartPoint (bi_num_restarts it - 1) it)
  end.

(** Back to a restart point before the entry; [None] when there is none. *)
Fixpoint restart_before (fuel : nat) (original : Z) (it : BlockIter) : option BlockIter :=
  match fuel with
  | O => Some it
  | S fuel =>
      if GetRestartPoint (bi_restart_index it) it >=? original then
        if bi_restart_index it =? 0 then None
        else restart_before fuel original (it <| bi_restart_index ::= Z.pred |>)
      else Some it
  end.

(** The entry that was just parsed goes into the cache. *)
Definition cache_entry (it : BlockIter) : BlockIter :=
  if bi_key_external it then
    it <| bi_prev_entries ::= fun l => l ++ [mkCached (bi_current it) (Some (bi_key it)) 0 (length (bi_key it)) (bi_value it)] |>
  else
    let new_key_offset := length (bi_prev_keys_buff it) in
    it <| bi_prev_keys_buff ::= fun b => b ++ bi_key it |>
       <| bi_prev_entries ::= fun l => l ++ [mkCached (bi_current it) None new_key_offset (length (bi_key it)) (bi_value it)] |>.

Fixpoint prev_loop (fuel : nat) (original : Z) (it : BlockIter) : BlockIter :=
  match fuel with
  | O => it
  | S fuel =>
      let '(found, it) := ParseNextKey it in
      if negb found then it
      else
        let it := cache_entry it in
        if NextEntryOffset it <? original then prev_loop fuel original it else it
  end.

Definition cached_key (e : CachedPrevEntry) (it : BlockIter) : bytes :=
  match ce_key_ptr e with
  | Some k => take (ce_key_size e) k
  | None => take (ce_key_size e) (drop (ce_key_offset e) (bi_prev_keys_buff it))
  end.

Definition prev_scan (it : BlockIter) : BlockIter :=
  let it := it <| bi_prev_idx := -1 |> <| bi_prev_entries := [] |> <| bi_prev_keys_buff := [] |> in
  let original := bi_current it in
  match restart_before (S (Z.to_nat (bi_restart_index it))) original it with
  | None => it <| bi_current := bi_restarts it |> <| bi_restart_index := bi_num_restarts it |>
  | Some it =>
      let it := prev_loop (loop_fuel it) original (SeekToRestartPoint (bi_restart_index it) it) in
      it <| bi_prev_idx := Z.of_nat (length (bi_prev_entries it)) - 1 |>
  end.

(** The cached entry before the current one, if the cache has both. *)
Definition cached_before (it : BlockIter) : option CachedPrevEntry :=
  if bi_prev_idx it >? 0 then
    match bi_prev_entries it !! Z.to_nat (bi_prev_idx it), bi_prev_entries it !! Z.to_nat (bi_prev_idx it - 1) with
    | Some here, Some before => if ce_offset here =? bi_current it then Some before else None
    | _, _ => None
    end
  else None.

Definition bi_Prev (it : BlockIter) : BlockIter :=
  match cached_before it with
  | Some before =>
      it <| bi_prev_idx ::= Z.pred |> <| bi_key_pinned := bool_decide (is_Some (ce_key_ptr before)) |>
         <| bi_current := ce_offset before |> <| bi_key := cached_key before it |> <| bi_key_external := true |>
         <| bi_value := ce_value before |>
  | None => prev_scan it
  end.

(** ** Seeks *)

(** The key at a restart point, which shares nothing with the one before. *)
Definition restart_key (index : Z) (it : BlockIter) : option bytes :=
  let region_offset := GetRestartPoint index it in
  match DecodeEntry (slice (bi_bytes it) region_offset (bi_restarts it - region_offset)) with
  | Some (shared, non_shared, _, rest) =>
      if shared =? 0 then Some (slice (bi_bytes it) (bi_restarts it - bsize rest) non_shared) else None
  | None => None
  end.

(** The index, or [None] with the error in the iterator. *)
Fixpoint BinarySeek (fuel : nat) (target : bytes) (left right : Z) (it : BlockIter) : option Z * BlockIter :=
  match fuel with
  | O => (Some left, it)
  | S fuel =>
      if left <? right then
        let mid := u32 (left + right + 1) / 2 in
        match restart_key mid it with
        | None => (None, CorruptionError it)
        | Some mid_key =>
            let cmp := Compare mid_key target in
            if cmp <? 0 then BinarySeek fuel target mid right it
            else if cmp >? 0 then BinarySeek fuel target left (u32 (mid - 1)) it
            else BinarySeek fuel target mid mid it
        end
      else (Some left, it)
  end.

Definition CompareBlockKey (block_index : Z) (target : bytes) (it : BlockIter) : Z * BlockIter :=
  match restart_key block_index it with
  | None => (1, CorruptionError it)
  | Some block_key => (Compare block_key target, it)
  end.

(** The last two arguments of the result: the final bounds of the search. *)
Fixpoint block_index_loop (fuel : nat) (target : bytes) (block_ids : list Z) (left right : Z) (it : BlockIter)
  : option (Z * Z) * BlockIter :=
  match fuel with
  | O => (Some (left, right), it)
  | S fuel =>
      if left <=? right then
        let mid := u32 (right + left) / 2 in
        let '(cmp, it) := CompareBlockKey (nth (Z.to_nat mid) block_ids 0) target it in
        if negb (ok (bi_status it)) then (None, it)
        else if cmp <? 0 then block_index_loop fuel target block_ids (u32 (mid + 1)) right it
        else if left =? right then (Some (left, right), it)
        else block_index_loop fuel target block_ids left mid it
      else (Some (left, right), it)
  end.

Definition BinaryBlockIndexSeek (target : bytes) (block_ids : list Z) (left right : Z) (it : BlockIter)
  : option Z * BlockIter :=
  let left_bound := left in
  let id i := nth (Z.to_nat i) block_ids 0 in
  match block_index_loop (S (S (length block_ids))) target block_ids left right it with
  | (None, it) => (None, it)
  | (Some (lo, hi), it) =>
      if lo =? hi then
        if (id lo >? 0) && ((lo =? left_bound) || negb (id (lo - 1) =? id lo - 1)) then
          let '(cmp, it) := CompareBlockKey (id lo - 1) target it in
          if cmp >? 0 then (None, it <| bi_current := bi_restarts it |>) else (Some (id lo), it)
        else (Some (id lo), it)
      else (None, it <| bi_current := bi_restarts it |>)
  end.

Definition PrefixSeek (get_blocks : bytes -> list Z) (target : bytes) (it : BlockIter) : option Z * BlockIter :=
  let block_ids := get_blocks target in
  if (length block_ids =? 0)%nat then (None, it <| bi_current := bi_restarts it |>)
  else BinaryBlockIndexSeek target block_ids 0 (Z.of_nat (length block_ids) - 1) it.

Definition whole_seek (target : bytes) (it : BlockIter) : option Z * BlockIter :=
  BinarySeek (S (Z.to_nat (bi_num_restarts it))) target 0 (u32 (bi_num_restarts it - 1)) it.

(** On to the first key that is not before the target. *)
Fixpoint seek_loop (fuel : nat) (target : bytes) (it : BlockIter) : BlockIter :=
  match fuel with
  | O => it
  | S fuel =>
      let '(found, it) := ParseNextKey it in
      if negb found || (Compare (bi_key it) target >=? 0) then it else seek_loop fuel target it
  end.

Definition bi_Seek (target : bytes) (it : BlockIter) : BlockIter :=
  match bi_data it with
  | None => it
  | Some _ =>
      let '(index, it) := match bi_prefix_index it with
                          | Some get_blocks => PrefixSeek get_blocks target it
                          | None => whole_seek target it
                          end in
      match index with
      | None => it
      | Some index => seek_loop (loop_fuel it) target (SeekToRestartPoint index it)
      end
  end.

Fixpoint back_loop (fuel : nat) (target : bytes) (it : BlockIter) : BlockIter :=
  match fuel with
  | O => it
  | S fuel => if bi_Valid it && (Compare (bi_key it) target >? 0) then back_loop fuel target (bi_Prev it) else it
  end.

Definition bi_SeekForPrev (target : bytes) (it : BlockIter) : BlockIter :=
  match bi_data it with
  | None => it
  | Some _ =>
      let '(index, it) := whole_seek target it in
      match index with
      | None => it
      | Some index =>
          let it := seek_loop (loop_fuel it) target (SeekToRestartPoint index it) in
          if negb (bi_Valid it) then bi_SeekToLast it else back_loop (loop_fuel it) target it
      end
  end.

#[export] Instance BlockIter_iterator : InternalIterator BlockIter := {
  Valid := bi_Valid;
  SeekToFirst := bi_SeekToFirst;
  SeekToLast := bi_SeekToLast;
  Seek := bi_Seek;
  SeekForPrev := bi_SeekForPrev;
  Next := bi_Next;
  Prev := bi_Prev;
  key := bi_key;
  value := bi_value_bytes;
  status := bi_status
}.
End Moves.

(** ** The block *)

(** The memory statistics and the read-amplification bitmap are left out. *)
Record Block := mkBlock {
  block_contents : bytes;
  block_size_ : Z;
  restart_offset_ : Z;
  block_global_seqno_ : Z;
  block_prefix_index_ : option (bytes -> list Z)
}.

Definition NumRestarts_of (data : bytes) (size : Z) : Z := DecodeFixed32 (drop (Z.to_nat (size - 4)) data).

(** The arithmetic of the constructor: [1 + NumRestarts()] has 32 bits, the product
    and the difference 64, and the offset 32 again. *)
Definition Block_new (contents : bytes) (global_seqno : Z) : Block :=
  let size := bsize contents in
  if size <? 4 then mkBlock contents 0 0 global_seqno None
  else
    let restart_offset := u32 (u64 (u32 size - u64 (u32 (1 + NumRestarts_of contents size) * 4))) in
    if restart_offset >? size - 4 then mkBlock contents 0 restart_offset global_seqno None
    else mkBlock contents size restart_offset global_seqno None.

Definition NumRestarts (b : Block) : Z := NumRestarts_of (block_contents b) (block_size_ b).

Definition SetBlockPrefixIndex (prefix_index : option (bytes -> list Z)) (b : Block) : Block :=
  mkBlock (block_contents b) (block_size_ b) (restart_offset_ b) (block_global_seqno_ b) prefix_index.

Definition SetStatus (s : Status) (it : BlockIter) : BlockIter := it <| bi_status := s |>.

(** A given iterator is initialized; without one a new iterator is made. *)
Definition NewIterator (iter : option BlockIter) (total_order_seek : bool) (b : Block)
  : EmptyInternalIterator + BlockIter :=
  if block_size_ b <? 2 * 4 then
    match iter with
    | Some iter => inr (SetStatus (Corruption "bad block contents"%string) iter)
    | None => inl (NewErrorInternalIterator (Corruption "bad block contents"%string))
    end
  else if NumRestarts b =? 0 then
    match iter with
    | Some iter => inr (SetStatus OK iter)
    | None => inl NewEmptyInternalIterator
    end
  else
    let prefix_index := if total_order_seek then None else block_prefix_index_ b in
    inr (Initialize (block_contents b) (restart_offset_ b) (NumRestarts b) prefix_index (block_global_seqno_ b)
           (default BlockIter_new iter)).
