(* ===== verification/BlockIterProps.v ===== *)
(** * The block iterator over a well-formed block

    [layout] says where the entries of a block are and that each of them decodes.
    Over such a block every operation of [BlockIter] is proved to end at the entry
    that the contract of [InternalIterator] asks for: parsing, the scans from a
    restart point, the binary search, and [Prev] with its cache. *)

From S2P Require Import Prelude Coding DbFormat Iterators Block.
From stdpp Require Import base list sorting.
From Stdlib Require Import ZArith Lia.
#[local] Open Scope Z_scope.

(** ** Layout *)

(** The entry at offset [o] of a block whose entries end at [R]: the lengths, and the
    offset [p] of the key's bytes. *)
Definition decodes (data : bytes) (R o shared non_shared value_length p : Z) : Prop :=
  exists rest, DecodeEntry (slice data o (R - o)) = Some (shared, non_shared, value_length, rest) /\ p = R - bsize rest.

(** The key the entry is encoded against. *)
Definition key_before (es : list entry) (i : nat) : bytes :=
  match i with O => [] | S i => match es !! i with Some e => fst e | None => [] end end.

(** [off i] is the offset of the entry [i] and [rho j] the entry at the restart
    point [j]. *)
Record layout (data : bytes) (R nr : Z) (es : list entry) (off : nat -> Z) (rho : nat -> nat) : Prop := {
  lay_first : off 0%nat = 0;
  lay_last : off (length es) = R;
  lay_bound : R < 2 ^ 32;
  lay_nr : 0 < nr < 2 ^ 31;
  lay_entry i e : es !! i = Some e -> exists shared non_shared value_length p,
    decodes data R (off i) shared non_shared value_length p /\
    off i < p /\ 0 <= shared <= bsize (key_before es i) /\ 0 <= non_shared /\ 0 <= value_length /\
    fst e = take (Z.to_nat shared) (key_before es i) ++ slice data p non_shared /\
    snd e = slice data (p + non_shared) value_length /\
    off (S i) = p + non_shared + value_length /\
    ((exists j, Z.of_nat j < nr /\ rho j = i) -> shared = 0);
  lay_restart j : Z.of_nat j < nr -> DecodeFixed32 (drop (Z.to_nat (R + Z.of_nat j * 4)) data) = off (rho j) /\
    (rho j < length es \/ rho j = length es /\ j = 0)%nat;
  lay_rho0 : rho 0%nat = 0%nat;
  lay_rho j j' : (j < j')%nat -> Z.of_nat j' < nr -> (rho j < rho j')%nat
}.

(** The keys of the block are in strictly increasing order. *)
Definition key_sorted {c : Comparator} (es : list entry) : Prop :=
  forall i j a b, (i < j)%nat -> es !! i = Some a -> es !! j = Some b -> Compare (fst a) (fst b) < 0.

Section Iter.
Context {c : Comparator} {valid : bytes -> Prop} {Ho : CompareOrder c valid}.
Context (data : bytes) (R nr : Z) (es : list entry) (off : nat -> Z) (rho : nat -> nat).
Context (Hlay : layout data R nr es off rho).

Lemma off_step i : (i < length es)%nat -> off i + 1 <= off (S i).
Proof.
  intros Hi. destruct (lookup_lt_is_Some_2 es i Hi) as [e He].
  destruct (lay_entry _ _ _ _ _ _ Hlay i e He) as (sh & ns & vl & p & _ & ? & _ & ? & ? & _ & _ & ? & _). lia.
Qed.

Lemma off_mono i j : (i <= j <= length es)%nat -> off i + Z.of_nat (j - i) <= off j.
Proof.
  intros [Hij Hj]. induction j as [|j IH]; [replace i with 0%nat by lia; cbn; lia|].
  destruct (decide (i = S j)) as [->|]; [rewrite Nat.sub_diag; lia|].
  pose proof (off_step j ltac:(lia)). specialize (IH ltac:(lia) ltac:(lia)). lia.
Qed.

Lemma off_nonneg i : (i <= length es)%nat -> Z.of_nat i <= off i.
Proof. intros Hi. pose proof (off_mono 0 i ltac:(lia)). rewrite (lay_first _ _ _ _ _ _ Hlay) in *. lia. Qed.

Lemma off_le_R i : (i <= length es)%nat -> off i + Z.of_nat (length es - i) <= R.
Proof. intros Hi. rewrite <- (lay_last _ _ _ _ _ _ Hlay). apply off_mono. lia. Qed.

Lemma off_lt i j : (i <= length es)%nat -> (j <= length es)%nat -> off i < off j <-> (i < j)%nat.
Proof.
  intros Hi Hj. destruct (Nat.lt_trichotomy i j) as [Hlt|[->|Hlt]]; [|lia|].
  - pose proof (off_mono i j ltac:(lia)). lia.
  - pose proof (off_mono j i ltac:(lia)). lia.
Qed.

(** ** Positions *)

Definition same_block (it : BlockIter) : Prop :=
  bi_data it = Some data /\ bi_restarts it = R /\ bi_num_restarts it = nr /\ bi_prefix_index it = None /\
  bi_global_seqno it = kDisableGlobalSequenceNumber.

(** The cached entries are those from some entry on. *)
Definition caches (it : BlockIter) (a : nat) : Prop :=
  forall m ce, bi_prev_entries it !! m = Some ce -> exists e, es !! (a + m)%nat = Some e /\
    ce_offset ce = off (a + m) /\ cached_key ce it = fst e /\
    slice data (fst (ce_value ce)) (snd (ce_value ce)) = snd e /\ fst (ce_value ce) + snd (ce_value ce) = off (S (a + m)).

Definition in_block (it : BlockIter) : Prop := same_block it /\ exists a, caches it a.

Definition on (it : BlockIter) (i : nat) : Prop :=
  in_block it /\ 0 <= bi_restart_index it < nr /\ bi_current it = off i /\
  fst (bi_value it) + snd (bi_value it) = off (S i) /\
  exists e, es !! i = Some e /\ bi_key it = fst e /\ bi_value_bytes it = snd e.

Definition out (it : BlockIter) : Prop := in_block it /\ bi_current it = R.

(** The next entry to be parsed is [i]. *)
Definition ready (it : BlockIter) (i : nat) : Prop :=
  in_block it /\ 0 <= bi_restart_index it < nr /\ NextEntryOffset it = off i /\ (i <= length es)%nat /\
  (bi_key it = key_before es i \/ exists j, Z.of_nat j < nr /\ rho j = i).

(** Equal but for the entry the iterator is at. *)
Definition same_cache (it it' : BlockIter) : Prop :=
  bi_prev_keys_buff it' = bi_prev_keys_buff it /\ bi_prev_entries it' = bi_prev_entries it /\
  bi_prev_idx it' = bi_prev_idx it.

Lemma caches_same it it' a : same_cache it it' -> caches it a -> caches it' a.
Proof.
  intros (E1 & E2 & _) Hc m ce Hm. rewrite E2 in Hm. destruct (Hc m ce Hm) as (e & H1 & H2 & H3 & H4).
  exists e. split; [done|]. split; [done|]. split; [|done]. unfold cached_key in *. by rewrite E1.
Qed.

Lemma in_block_same it it' : in_block it -> same_block it' -> same_cache it it' -> in_block it'.
Proof. intros [_ [a Ha]] Hs Hc. split; [done|]. exists a. by eapply caches_same. Qed.

Lemma bi_bytes_data it d : bi_data it = Some d -> bi_bytes it = d.
Proof. unfold bi_bytes. by intros ->. Qed.

Lemma u32_id z : 0 <= z < 2 ^ 32 -> u32 z = z.
Proof. intros Hz. by apply u32_small. Qed.

Lemma on_lt it i : on it i -> (i < length es)%nat.
Proof. intros (_ & _ & _ & _ & e & He & _). by eapply lookup_lt_Some. Qed.

Lemma on_valid it i : on it i -> bi_Valid it = true.
Proof.
  intros Hon. pose proof (on_lt _ _ Hon). destruct Hon as (((_ & HR & _) & _) & _ & Hc & _). unfold bi_Valid.
  rewrite Hc, HR. apply Z.ltb_lt. pose proof (off_le_R i ltac:(lia)). lia.
Qed.

Lemma out_invalid it : out it -> bi_Valid it = false.
Proof. intros (((_ & HR & _) & _) & Hc). unfold bi_Valid. rewrite Hc, HR. apply Z.ltb_irrefl. Qed.

Lemma on_ready it i : on it i -> ready it (S i).
Proof.
  intros Hon. pose proof (on_lt _ _ Hon). destruct Hon as (Hb & Hri & Hc & Hv & e & He & Hk & _).
  split; [done|]. split; [done|]. split.
  { unfold NextEntryOffset. rewrite Hv. apply u32_id. pose proof (off_nonneg (S i) ltac:(lia)).
    pose proof (off_le_R (S i) ltac:(lia)). pose proof (lay_bound _ _ _ _ _ _ Hlay). lia. }
  split; [lia|]. left. cbn [key_before]. by rewrite He.
Qed.

Lemma restart_point it j : same_block it -> Z.of_nat j < nr -> GetRestartPoint (Z.of_nat j) it = off (rho j).
Proof.
  intros (Hd & HR & _) Hj. unfold GetRestartPoint, bi_bytes. rewrite Hd, HR. cbn [default].
  by apply (lay_restart _ _ _ _ _ _ Hlay).
Qed.

Lemma rho_le j : Z.of_nat j < nr -> (rho j <= length es)%nat.
Proof. intros Hj. destruct (lay_restart _ _ _ _ _ _ Hlay j Hj) as [_ [|]]; lia. Qed.

Lemma seek_restart_ready it j :
  in_block it -> Z.of_nat j < nr -> ready (SeekToRestartPoint (Z.of_nat j) it) (rho j).
Proof.
  intros Hb Hj. pose proof (rho_le j Hj) as Hle. split; [|split; [|split; [|split]]].
  - eapply in_block_same; [done| |done]. apply Hb.
  - cbn. lia.
  - unfold NextEntryOffset, SeekToRestartPoint. cbn [set bi_value eta_BlockIter fst snd]. rewrite Z.add_0_r, restart_point by (done || apply Hb).
    apply u32_id. pose proof (off_nonneg (rho j) Hle). pose proof (off_le_R (rho j) Hle).
    pose proof (lay_bound _ _ _ _ _ _ Hlay). lia.
  - done.
  - right. eauto.
Qed.

(** ** Parsing *)

(** Only the restart index is changed, within its bounds. *)
Lemma advance_restart_spec fuel it :
  exists ri, advance_restart fuel it = it <| bi_restart_index := ri |> /\
    (0 <= bi_restart_index it < bi_num_restarts it -> 0 <= ri < bi_num_restarts it).
Proof.
  revert it. induction fuel as [|fuel IH]; intros it; cbn [advance_restart].
  - exists (bi_restart_index it). split; [by destruct it|done].
  - destruct (_ && _) eqn:E; [|exists (bi_restart_index it); split; [by destruct it|done]].
    apply andb_true_iff in E as [E%Z.ltb_lt _]. destruct (IH (it <| bi_restart_index ::= Z.succ |>)) as (ri & -> & Hri).
    exists ri. split; [by destruct it|]. cbn in Hri. intros. apply Hri. lia.
Qed.

Lemma parse_here it i e :
  ready it i -> es !! i = Some e ->
  exists it', ParseNextKey it = (true, it') /\ on it' i /\ same_cache it it'.
Proof.
  intros (Hb & Hri & Hnext & _ & Hkey) He. assert (Hb' := Hb). destruct Hb' as [(Hd & HR & Hnr & Hpi & Hg) _].
  destruct (lay_entry _ _ _ _ _ _ Hlay i e He) as (sh & ns & vl & p & (rest & Hdec & Hp) & Hlt & Hsh & Hns & Hvl & Hk & Hv & Hnx & Hr).
  assert (Hi := lookup_lt_Some _ _ _ He). pose proof (off_le_R i ltac:(lia)) as HiR.
  unfold ParseNextKey. cbv zeta. cbn [set bi_current bi_restarts bi_key eta_BlockIter]. rewrite Hnext, HR.
  rewrite (proj2 (Z.leb_gt _ _)) by lia. rewrite (bi_bytes_data _ data) by done.
  rewrite Hdec, <- Hp.
  assert (Hsk : bsize (bi_key it) <? sh = false /\ take (Z.to_nat sh) (bi_key it) = take (Z.to_nat sh) (key_before es i)).
  { destruct Hkey as [-> | Hres]; [split; [apply Z.ltb_ge; lia|done]|]. rewrite (Hr Hres). split; [apply Z.ltb_ge; unfold bsize; lia|done]. }
  destruct Hsk as [-> Htake]. eexists. split; [reflexivity|].
  set (it0 := mkBlockIter _ _ _ _ _ _ _ _ _ _ _ _ _ _ _). unfold parsed.
  assert (Hit1 : let it1 := parse_key sh ns p it0 in bi_data it1 = Some data /\ bi_restarts it1 = R /\ bi_num_restarts it1 = nr /\
    bi_prefix_index it1 = None /\ bi_global_seqno it1 = kDisableGlobalSequenceNumber /\ bi_current it1 = off i /\
    bi_restart_index it1 = bi_restart_index it /\ bi_key it1 = fst e /\ same_cache it it1).
  { unfold parse_key. rewrite (bi_bytes_data it0 data) by done.
    destruct (Z.eqb_spec sh 0) as [Esh|]; unfold it0; cbn [set eta_BlockIter bi_data bi_restarts bi_num_restarts bi_prefix_index
      bi_global_seqno bi_current bi_restart_index bi_key]; repeat (split; [done|]); (split; [|done]); rewrite Hk; [by rewrite Esh|by rewrite Htake]. }
  cbv zeta in Hit1. set (it1 := parse_key sh ns p it0) in *. clearbody it1. clear it0.
  destruct Hit1 as (E1 & E2 & E3 & E4 & E5 & E6 & E7 & E8 & E9).
  unfold apply_global_seqno. rewrite E5, Z.eqb_refl. cbv zeta.
  destruct (advance_restart_spec (Z.to_nat (bi_num_restarts (it1 <| bi_value := (p + ns, vl) |>))) (it1 <| bi_value := (p + ns, vl) |>))
    as (ri & -> & Hri'). cbn [set bi_num_restarts eta_BlockIter bi_restart_index] in Hri'. rewrite E7, E3 in Hri'.
  split; [|done]. split; [|split; [|split; [|split]]].
  - eapply in_block_same; [exact Hb|done|done].
  - cbn. auto.
  - done.
  - cbn. lia.
  - exists e. split; [done|]. split; [done|]. unfold bi_value_bytes, bi_bytes. cbn. rewrite E1. by rewrite Hv.
Qed.

Lemma parse_end it i : ready it i -> i = length es -> exists it', ParseNextKey it = (false, it') /\ out it'.
Proof.
  intros (Hb & Hri & Hnext & _ & _) ->. assert (Hb' := Hb). destruct Hb' as [(Hd & HR & Hnr & Hpi & Hg) _].
  unfold ParseNextKey. cbv zeta. cbn [set bi_current bi_restarts eta_BlockIter]. rewrite Hnext, HR, (lay_last _ _ _ _ _ _ Hlay).
  rewrite Z.leb_refl. eexists. split; [reflexivity|]. split; [|done]. by eapply in_block_same.
Qed.

(** ** Scans *)

Lemma fuel_enough it : same_block it -> (length es < loop_fuel it)%nat.
Proof. intros (_ & HR & _). unfold loop_fuel. rewrite HR. pose proof (off_le_R 0 ltac:(lia)). rewrite (lay_first _ _ _ _ _ _ Hlay) in *. lia. Qed.

Lemma next_offset it i : on it i -> NextEntryOffset it = off (S i).
Proof. intros Hon. by destruct (on_ready _ _ Hon) as (_ & _ & -> & _). Qed.

Lemma seek_loop_spec t fuel : forall it i, ready it i -> (length es - i < fuel)%nat ->
  let it' := seek_loop fuel t it in
  (exists i', (i <= i')%nat /\ on it' i' /\ Compare (bi_key it') t >= 0 /\
     forall m e, (i <= m < i')%nat -> es !! m = Some e -> Compare (fst e) t < 0) \/
  (out it' /\ forall m e, (i <= m)%nat -> es !! m = Some e -> Compare (fst e) t < 0).
Proof.
  induction fuel as [|fuel IH]; intros it i Hr Hf; [lia|]. cbn [seek_loop].
  destruct (es !! i) as [e|] eqn:He.
  - destruct (parse_here it i e Hr He) as (it' & -> & Hon & _). cbn [negb orb].
    assert (Hk : bi_key it' = fst e) by (destruct Hon as (_ & _ & _ & _ & e' & He' & Hk & _); congruence).
    destruct (Z.geb_spec (Compare (bi_key it') t) 0) as [Hge|Hlt].
    + left. exists i. split; [lia|]. split; [done|]. split; [lia|]. intros; lia.
    + pose proof (on_lt _ _ Hon). destruct (IH it' (S i) (on_ready _ _ Hon) ltac:(lia)) as [(i' & Hi' & Hon' & Hge & Hall)|[Hout Hall]].
      * left. exists i'. split; [lia|]. split; [done|]. split; [done|]. intros m x Hm Hx.
        destruct (decide (m = i)) as [->|]; [|apply (Hall m); [lia|done]]. congruence.
      * right. split; [done|]. intros m x Hm Hx. destruct (decide (m = i)) as [->|]; [|apply (Hall m); [lia|done]]. congruence.
  - destruct (parse_end it i Hr) as (it' & -> & Hout).
    { apply lookup_ge_None in He. destruct Hr as (_ & _ & _ & Hle & _). lia. }
    cbn. right. split; [done|]. intros m x Hm Hx. apply lookup_ge_None in He. apply lookup_lt_Some in Hx. lia.
Qed.

Lemma last_loop_spec fuel : forall it i, ready it i -> (length es - i < fuel)%nat ->
  let it' := last_loop fuel it in
  if (i <? length es)%nat then on it' (length es - 1) else out it'.
Proof.
  induction fuel as [|fuel IH]; intros it i Hr Hf; [lia|]. cbn [last_loop].
  destruct (es !! i) as [e|] eqn:He.
  - destruct (parse_here it i e Hr He) as (it' & -> & Hon & _). cbn [andb]. pose proof (on_lt _ _ Hon) as Hi.
    rewrite (proj2 (Nat.ltb_lt _ _)) by done. rewrite (next_offset _ _ Hon).
    assert (bi_restarts it' = R) as -> by (by destruct Hon as (((_ & ? & _) & _) & _)).
    rewrite <- (lay_last _ _ _ _ _ _ Hlay). destruct (Z.ltb_spec (off (S i)) (off (length es))) as [Hlt|Hge].
    + apply off_lt in Hlt; [|lia|lia]. specialize (IH it' (S i) (on_ready _ _ Hon) ltac:(lia)). cbv zeta in IH.
      by rewrite (proj2 (Nat.ltb_lt _ _)) in IH by done.
    + pose proof (off_lt (S i) (length es) ltac:(lia) ltac:(lia)). by replace (length es - 1)%nat with i by lia.
  - apply lookup_ge_None in He. assert (i = length es) as Hi by (destruct Hr as (_ & _ & _ & Hle & _); lia).
    destruct (parse_end it i Hr Hi) as (it' & -> & Hout). by rewrite (proj2 (Nat.ltb_ge _ _)) by lia.
Qed.

(** ** Going back *)

Lemma restart_before_spec m fuel : forall it ri,
  same_block it -> (m <= length es)%nat -> bi_restart_index it = Z.of_nat ri -> Z.of_nat ri < nr -> (ri < fuel)%nat ->
  match restart_before fuel (off m) it with
  | Some it' => exists ri', it' = it <| bi_restart_index := Z.of_nat ri' |> /\ Z.of_nat ri' < nr /\ (rho ri' < m)%nat
  | None => m = 0%nat
  end.
Proof.
  induction fuel as [|fuel IH]; intros it ri Hb Hm Hri Hlt Hf; [lia|]. cbn [restart_before].
  rewrite Hri, restart_point by done. pose proof (rho_le ri Hlt) as Hle.
  destruct (Z.geb_spec (off (rho ri)) (off m)) as [Hge|Hlo].
  - destruct (Z.eqb_spec (Z.of_nat ri) 0) as [E|E].
    + assert (ri = 0%nat) as -> by lia. rewrite (lay_rho0 _ _ _ _ _ _ Hlay) in Hge.
      destruct (decide (m = 0%nat)); [done|]. pose proof (off_lt 0 m ltac:(lia) Hm). lia.
    + assert (Hp : bi_restart_index (it <| bi_restart_index ::= Z.pred |>) = Z.of_nat (ri - 1))
        by (cbn [set bi_restart_index eta_BlockIter]; rewrite Hri; lia).
      specialize (fun Hb' => IH _ (ri - 1)%nat Hb' Hm Hp ltac:(lia) ltac:(lia)) as IH'. specialize (IH' Hb).
      destruct (restart_before fuel (off m) _) as [it'|]; [|done]. destruct IH' as (ri' & -> & ? & ?). exists ri'. by destruct it.
  - exists ri. split; [rewrite <- Hri; by destruct it|]. split; [done|]. by apply off_lt.
Qed.

Lemma caches_snoc it it' a i ce :
  caches it a -> (a + length (bi_prev_entries it) = i)%nat ->
  bi_prev_entries it' = bi_prev_entries it ++ [ce] -> (exists b, bi_prev_keys_buff it' = bi_prev_keys_buff it ++ b) ->
  (forall m ce, bi_prev_entries it !! m = Some ce -> ce_key_ptr ce = None ->
     (ce_key_offset ce + ce_key_size ce <= length (bi_prev_keys_buff it))%nat) ->
  (exists e, es !! i = Some e /\ ce_offset ce = off i /\ cached_key ce it' = fst e /\
    slice data (fst (ce_value ce)) (snd (ce_value ce)) = snd e /\ fst (ce_value ce) + snd (ce_value ce) = off (S i)) ->
  caches it' a.
Proof.
  intros Hc Hlen E (b & Eb) Hin Hnew m x Hm. rewrite E in Hm. apply lookup_app_Some in Hm as [Hm|[Hge Hm]].
  - destruct (Hc m x Hm) as (e & H1 & H2 & H3 & H4). exists e. split; [done|]. split; [done|]. split; [|done].
    unfold cached_key in *. destruct (ce_key_ptr x) as [k|] eqn:Ek; [done|]. specialize (Hin m x Hm Ek).
    rewrite Eb, drop_app_le, take_app_le by (rewrite ?length_drop; lia). done.
  - apply list_lookup_singleton_Some in Hm as [Hm0 <-]. replace (a + m)%nat with i by lia. done.
Qed.

(** Keys of cached entries stay inside the buffer. *)
Definition buffer_ok (it : BlockIter) : Prop :=
  forall m ce, bi_prev_entries it !! m = Some ce -> ce_key_ptr ce = None ->
  (ce_key_offset ce + ce_key_size ce <= length (bi_prev_keys_buff it))%nat.

(** The cache has exactly the entries from [a] to before [i]. *)
Definition cached_from (it : BlockIter) (a i : nat) : Prop :=
  caches it a /\ (a + length (bi_prev_entries it) = i)%nat /\ buffer_ok it.

Lemma cache_entry_spec it a i :
  on it i -> cached_from it a i -> on (cache_entry it) i /\ cached_from (cache_entry it) a (S i).
Proof.
  intros Hon (Hc & Hlen & Hbuf). assert (Hon' := Hon). destruct Hon as ((Hs & _) & Hri & Hcur & Hv & e & He & Hk & Hval).
  assert (Hvs : slice data (fst (bi_value it)) (snd (bi_value it)) = snd e).
  { rewrite <- Hval. unfold bi_value_bytes. by rewrite (bi_bytes_data it data) by apply Hs. }
  assert (Hcf : cached_from (cache_entry it) a (S i)).
  { unfold cache_entry. destruct (bi_key_external it).
    - split; [|split].
      + eapply (caches_snoc it); [done..| |done|]; [exists []; by rewrite app_nil_r|].
        exists e. split; [done|]. split; [done|]. split; [|done]. unfold cached_key. cbn. by rewrite firstn_all.
      + cbn. rewrite length_app. cbn. lia.
      + intros m ce Hm Hn. cbn in Hm |- *. apply lookup_app_Some in Hm as [Hm|[_ Hm]]; [by eapply Hbuf|].
        by apply list_lookup_singleton_Some in Hm as [_ <-].
    - split; [|split].
      + eapply (caches_snoc it); [done..| |done|]; [by exists (bi_key it)|].
        exists e. split; [done|]. split; [done|]. split; [|done]. unfold cached_key. cbn. by rewrite drop_app_length, firstn_all.
      + cbn. rewrite length_app. cbn. lia.
      + intros m ce Hm Hn. cbn in Hm |- *. rewrite length_app. apply lookup_app_Some in Hm as [Hm|[_ Hm]].
        * specialize (Hbuf m ce Hm Hn). lia.
        * apply list_lookup_singleton_Some in Hm as [_ <-]. cbn. lia. }
  split; [|done]. destruct Hcf as (Hc' & _).
  assert (E : exists b l, cache_entry it = it <| bi_prev_keys_buff := b |> <| bi_prev_entries := l |>)
    by (exists (bi_prev_keys_buff (cache_entry it)), (bi_prev_entries (cache_entry it)); unfold cache_entry;
        by destruct it as [? ? ? ? ? ? [] ? ? ? ? ? ? ? ?]).
  destruct E as (b & l & E). rewrite E in *. split; [split; [done|by exists a]|]. split; [done|]. split; [done|]. split; [done|].
  exists e. split; [done|]. done.
Qed.

Lemma prev_loop_spec m a fuel : forall it i,
  ready it i -> cached_from it a i -> (i < m <= length es)%nat -> (m - i <= fuel)%nat ->
  on (prev_loop fuel (off m) it) (m - 1) /\ cached_from (prev_loop fuel (off m) it) a m.
Proof.
  induction fuel as [|fuel IH]; intros it i Hr Hcf Hm Hf; [lia|]. cbn [prev_loop].
  destruct (lookup_lt_is_Some_2 es i ltac:(lia)) as [e He].
  destruct (parse_here it i e Hr He) as (it' & -> & Hon & Hsc). cbn [negb].
  assert (Hcf' : cached_from it' a i).
  { destruct Hcf as (Hc & Hl & Hb). split; [by eapply caches_same|]. destruct Hsc as (E1 & E2 & _).
    unfold buffer_ok. by rewrite E1, E2. }
  destruct (cache_entry_spec it' a i Hon Hcf') as [Hon2 Hcf2]. rewrite (next_offset _ _ Hon2).
  destruct (Z.ltb_spec (off (S i)) (off m)) as [Hlt|Hge].
  - apply off_lt in Hlt; [|lia|lia]. apply (IH _ (S i)); [by apply on_ready|done|lia|lia].
  - assert (~ (S i < m)%nat) by (intros H; apply off_lt in H; lia). replace (m - 1)%nat with i by lia.
    by replace m with (S i) by lia.
Qed.

Lemma prev_scan_spec it m :
  on it m -> if (m =? 0)%nat then out (prev_scan it) else on (prev_scan it) (m - 1).
Proof.
  intros Hon. pose proof (on_lt _ _ Hon) as Hm. destruct Hon as ((Hs & _) & Hri & Hcur & _). unfold prev_scan.
  set (it0 := it <| bi_prev_idx := -1 |> <| bi_prev_entries := [] |> <| bi_prev_keys_buff := [] |>).
  assert (Hs0 : same_block it0) by done. assert (Hcf0 : bi_prev_entries it0 = []) by done.
  assert (Hcur0 : bi_current it0 = off m) by done. assert (Hri0 : 0 <= bi_restart_index it0 < nr) by done.
  clearbody it0. cbv zeta. rewrite Hcur0.
  pose proof (restart_before_spec m (S (Z.to_nat (bi_restart_index it0))) it0 (Z.to_nat (bi_restart_index it0)) Hs0
    ltac:(lia) ltac:(lia) ltac:(lia) ltac:(lia)) as Hrb.
  assert (Hib : forall it', same_block it' -> bi_prev_entries it' = [] -> forall a, in_block it' /\ cached_from it' a a).
  { intros it' Hs' He' a. assert (Hc : caches it' a) by (intros n ce Hn; by rewrite He' in Hn).
    split; [split; [done|by exists a]|]. split; [done|]. rewrite He'. split; [cbn; lia|]. intros n ce Hn. by rewrite He' in Hn. }
  destruct (restart_before _ (off m) it0) as [it1|].
  - destruct Hrb as (ri & -> & Hri' & Hrho). set (it1 := it0 <| bi_restart_index := Z.of_nat ri |>).
    destruct (Nat.eqb_spec m 0) as [->|Hm0]; [lia|].
    change (bi_restart_index it1) with (Z.of_nat ri).
    destruct (Hib it1 Hs0 Hcf0 (rho ri)) as [Hib1 Hcf1].
    pose proof (seek_restart_ready it1 ri Hib1 Hri') as Hr.
    destruct (prev_loop_spec m (rho ri) (loop_fuel it1) _ _ Hr) as [Hon Hcf]; [|lia|pose proof (fuel_enough it1 Hs0); lia|].
    { destruct Hcf1 as (Hc & Hl & Hb). split; [eapply caches_same; [|exact Hc]; done|]. done. }
    set (it2 := prev_loop _ _ _) in *. clearbody it2. destruct Hon as ((Hs2 & Hc2) & H3). split; [split; done|]. done.
  - subst m. cbn [Nat.eqb]. split; [|cbn; by destruct Hs0 as (_ & -> & _)].
    destruct (Hib it0 Hs0 Hcf0 0%nat) as [Hb _]. by eapply in_block_same.
Qed.

Lemma prev_spec it m : on it m -> if (m =? 0)%nat then out (bi_Prev it) else on (bi_Prev it) (m - 1).
Proof.
  intros Hon. unfold bi_Prev. destruct (cached_before it) as [before|] eqn:Ec; [|by apply prev_scan_spec].
  pose proof (on_lt _ _ Hon) as Hm. destruct Hon as ((Hs & a & Hc) & Hri & Hcur & _). unfold cached_before in Ec.
  destruct (Z.gtb_spec (bi_prev_idx it) 0) as [Hidx|]; [|done].
  destruct (bi_prev_entries it !! Z.to_nat (bi_prev_idx it)) as [here|] eqn:Eh; [|done].
  destruct (bi_prev_entries it !! Z.to_nat (bi_prev_idx it - 1)) as [b|] eqn:Eb; [|done].
  destruct (Z.eqb_spec (ce_offset here) (bi_current it)) as [Eo|]; [|done]. injection Ec as ->.
  destruct (Hc _ _ Eh) as (eh & Heh & Hoh & _). destruct (Hc _ _ Eb) as (eb & Heb & Hob & Hkb & Hvb & Hnb).
  assert (Hmi : (a + Z.to_nat (bi_prev_idx it))%nat = m).
  { apply lookup_lt_Some in Heh. pose proof (off_lt (a + Z.to_nat (bi_prev_idx it)) m ltac:(lia) ltac:(lia)).
    pose proof (off_lt m (a + Z.to_nat (bi_prev_idx it)) ltac:(lia) ltac:(lia)). rewrite <- Hoh, Eo, Hcur in *. lia. }
  assert (Hmb : (a + Z.to_nat (bi_prev_idx it - 1))%nat = (m - 1)%nat) by lia. rewrite Hmb in *.
  destruct (Nat.eqb_spec m 0) as [->|]; [lia|]. split; [|split; [done|split; [done|split; [done|]]]].
  - split; [done|]. exists a. intros q ce Hq. exact (Hc q ce Hq).
  - exists eb. split; [done|]. split; [done|]. unfold bi_value_bytes. by rewrite (bi_bytes_data _ data) by apply Hs.
Qed.

(** ** The binary search *)

Context (Hsorted : key_sorted es) (Hvalid : forall e, e ∈ es -> valid (fst e)).

Lemma valid_at i e : es !! i = Some e -> valid (fst e).
Proof. intros He. apply Hvalid. by eapply list_elem_of_lookup_2. Qed.

Lemma restart_key_spec it j e :
  same_block it -> Z.of_nat j < nr -> es !! rho j = Some e -> restart_key (Z.of_nat j) it = Some (fst e).
Proof.
  intros Hs Hj He. unfold restart_key. rewrite restart_point by done. cbv zeta.
  destruct Hs as (Hd & HR & _). rewrite (bi_bytes_data it data Hd), HR.
  destruct (lay_entry _ _ _ _ _ _ Hlay _ e He) as (sh & ns & vl & p & (rest & -> & Hp) & _ & _ & _ & _ & Hk & _ & _ & Hr).
  rewrite (Hr (ex_intro _ j (conj Hj eq_refl))) in *. by rewrite Hk, Hp.
Qed.

(** The keys at restart points after [r] are after the target, and the one at [l] is
    not, unless it is the first. *)
Definition search_bounds (t : bytes) (l r : nat) : Prop :=
  (l = 0%nat \/ forall e, es !! rho l = Some e -> Compare (fst e) t <= 0) /\
  (forall j e, (r < j)%nat -> Z.of_nat j < nr -> es !! rho j = Some e -> Compare (fst e) t > 0).

Lemma rho_entry j : (0 < j)%nat -> Z.of_nat j < nr -> exists e, es !! rho j = Some e.
Proof.
  intros Hj Hlt. destruct (lay_restart _ _ _ _ _ _ Hlay j Hlt) as [_ [H|[_ ->]]]; [|lia]. by apply lookup_lt_is_Some_2.
Qed.

Lemma BinarySeek_spec t fuel : forall l r it,
  valid t -> same_block it -> (l <= r)%nat -> Z.of_nat r < nr -> (r - l < fuel)%nat -> search_bounds t l r ->
  exists j, BinarySeek fuel t (Z.of_nat l) (Z.of_nat r) it = (Some (Z.of_nat j), it) /\ Z.of_nat j < nr /\ search_bounds t j j.
Proof.
  induction fuel as [|fuel IH]; intros l r it Ht Hs Hlr Hr Hf Hb; [lia|]. cbn [BinarySeek].
  destruct (Z.ltb_spec (Z.of_nat l) (Z.of_nat r)) as [Hlt|Hge].
  2:{ assert (l = r) as <- by lia. exists l. split; [done|]. split; [lia|done]. }
  pose proof (lay_nr _ _ _ _ _ _ Hlay) as Hnr. cbv zeta.
  assert (Hmid : u32 (Z.of_nat l + Z.of_nat r + 1) / 2 = Z.of_nat ((l + r + 1) / 2)).
  { rewrite u32_id by lia. rewrite Nat2Z.inj_div. f_equal; lia. }
  rewrite Hmid. set (mid := ((l + r + 1) / 2)%nat) in *.
  assert (Hm : (l < mid <= r)%nat).
  { unfold mid. split; [apply Nat.div_le_lower_bound; lia|]. apply Nat.Div0.div_le_upper_bound. lia. }
  destruct (rho_entry mid ltac:(lia) ltac:(lia)) as [e He].
  rewrite (restart_key_spec it mid e Hs ltac:(lia) He). pose proof (valid_at _ _ He) as Hve.
  assert (Hafter : forall j e', (mid < j)%nat -> Z.of_nat j < nr -> es !! rho j = Some e' -> Compare (fst e) (fst e') < 0).
  { intros j e' Hj Hjn He'. eapply Hsorted; [|done|done]. by apply (lay_rho _ _ _ _ _ _ Hlay). }
  destruct (Z.ltb_spec (Compare (fst e) t) 0) as [Hc|Hc]; [|destruct (Z.gtb_spec (Compare (fst e) t) 0) as [Hc'|Hc']].
  - apply IH; try done; try lia. split; [|apply Hb]. right. intros e' He'. assert (e' = e) as -> by congruence. lia.
  - replace (u32 (Z.of_nat mid - 1)) with (Z.of_nat (mid - 1)) by (rewrite u32_id; lia).
    apply IH; try done; try lia. split; [apply Hb|]. intros j e' Hj Hjn He'.
    destruct (decide (j = mid)) as [->|]; [assert (e' = e) as -> by congruence; lia|].
    specialize (Hafter j e' ltac:(lia) Hjn He'). pose proof (valid_at _ _ He') as Hve'.
    apply Z.lt_gt, Z.gt_lt, (compare_lt_gt t (fst e')); [done|done|].
    apply (compare_lt_le_trans t (fst e) (fst e')); try done; [|lia]. apply (compare_lt_gt t (fst e)); [done|done|lia].
  - assert (Heq : Compare (fst e) t = 0) by lia.
    apply IH; try done; try lia. split; [right; intros e' He'; assert (e' = e) as -> by congruence; lia|].
    intros j e' Hj Hjn He'. specialize (Hafter j e' Hj Hjn He'). pose proof (valid_at _ _ He') as Hve'.
    apply Z.lt_gt, Z.gt_lt, (compare_lt_gt t (fst e')); [done|done|].
    apply (compare_le_lt_trans t (fst e) (fst e')); try done. apply (compare_eq_sym (fst e) t) in Heq; [lia|done|done].
Qed.

(** The search and the scan after it end at the first key that is not before the
    target. *)
Lemma whole_seek_spec t it :
  valid t -> in_block it -> exists j, whole_seek t it = (Some (Z.of_nat j), it) /\
  let it' := seek_loop (loop_fuel it) t (SeekToRestartPoint (Z.of_nat j) it) in
  exists i, (forall m e, (m < i)%nat -> es !! m = Some e -> Compare (fst e) t < 0) /\
    ((on it' i /\ forall e, es !! i = Some e -> Compare (fst e) t >= 0) \/ (out it' /\ i = length es)).
Proof.
  intros Ht Hb. assert (Hs : same_block it) by apply Hb. pose proof (lay_nr _ _ _ _ _ _ Hlay) as Hnr.
  assert (Hn : bi_num_restarts it = nr) by (by destruct Hs as (_ & _ & -> & _)).
  destruct (BinarySeek_spec t (S (Z.to_nat nr)) 0 (Z.to_nat (nr - 1)) it Ht Hs ltac:(lia) ltac:(lia) ltac:(lia)) as (j & Hj & Hlt & Hl & _).
  { split; [by left|]. intros; lia. }
  exists j. split. { unfold whole_seek. rewrite Hn, u32_id by lia. rewrite <- Hj. f_equal. lia. }
  cbv zeta. pose proof (rho_le j Hlt) as Hrj. pose proof (fuel_enough it Hs).
  assert (Hbefore : forall m e, (m < rho j)%nat -> es !! m = Some e -> Compare (fst e) t < 0).
  { intros m e Hm He. destruct Hl as [->|Hl]; [rewrite (lay_rho0 _ _ _ _ _ _ Hlay) in Hm; lia|].
    destruct (decide (j = 0%nat)) as [->|Hj0]; [rewrite (lay_rho0 _ _ _ _ _ _ Hlay) in Hm; lia|].
    destruct (rho_entry j ltac:(lia) Hlt) as [ej Hej]. pose proof (Hsorted m (rho j) e ej Hm He Hej).
    apply (compare_lt_le_trans (fst e) (fst ej) t); try done; [by eapply valid_at..|by apply Hl]. }
  destruct (seek_loop_spec t (loop_fuel it) _ _ (seek_restart_ready it j Hb Hlt) ltac:(lia)) as [(i & Hi & Hon & Hge & Hall)|[Hout Hall]].
  - exists i. split.
    + intros m e Hm He. destruct (decide (m < rho j)%nat); [by eapply Hbefore|]. apply (Hall m); [lia|done].
    + left. split; [done|]. intros e He. destruct Hon as (_ & _ & _ & _ & e' & He' & Hk & _). congruence.
  - exists (length es). split; [|by right]. intros m e Hm He.
    destruct (decide (m < rho j)%nat); [by eapply Hbefore|]. apply (Hall m); [lia|done].
Qed.

(** ** The contract *)

Lemma best_from P i :
  (forall m e, (m < i)%nat -> es !! m = Some e -> ~ P e) -> (forall e, es !! i = Some e -> P e) ->
  best kForward P es (es !! i).
Proof.
  intros Hlo Hi. destruct (es !! i) as [e|] eqn:He.
  - split; [by eapply list_elem_of_lookup_2|]. split; [by apply Hi|].
    intros e' (m & Hm)%list_elem_of_lookup HP. cbn [upto]. destruct (Nat.lt_trichotomy m i) as [Hlt|[->|Hlt]].
    + by destruct (Hlo m e').
    + assert (e' = e) as -> by congruence. rewrite compare_refl; [done|by eapply valid_at].
    + pose proof (Hsorted i m e e' Hlt He Hm). lia.
  - apply lookup_ge_None in He. intros e (m & Hm)%list_elem_of_lookup. apply (Hlo m e); [|done].
    apply lookup_lt_Some in Hm. lia.
Qed.

Definition entry_before (i : nat) : option entry := match i with O => None | S i => es !! i end.

Lemma best_before P i :
  (i <= length es)%nat -> (forall m e, (i <= m)%nat -> es !! m = Some e -> ~ P e) ->
  (forall e, entry_before i = Some e -> P e) -> best kReverse P es (entry_before i).
Proof.
  intros Hi Hhi HP. destruct i as [|i]; cbn [entry_before] in *.
  - intros e (m & Hm)%list_elem_of_lookup. apply (Hhi m e); [lia|done].
  - destruct (lookup_lt_is_Some_2 es i ltac:(lia)) as [e He]. rewrite He in *.
    split; [by eapply list_elem_of_lookup_2|]. split; [by apply HP|].
    intros e' (m & Hm)%list_elem_of_lookup HP'. cbn [upto]. destruct (Nat.lt_trichotomy m i) as [Hlt|[->|Hlt]].
    + pose proof (Hsorted m i e' e Hlt Hm He). lia.
    + assert (e' = e) as -> by congruence. rewrite compare_refl; [done|by eapply valid_at].
    + by destruct (Hhi m e').
Qed.

Definition position (it : BlockIter) (o : option entry) : Prop :=
  match o with Some e => exists i, es !! i = Some e /\ on it i | None => out it end.

Lemma position_in it o : position it o -> in_block it.
Proof. destruct o as [e|]; [intros (i & _ & H)|intros H]; apply H. Qed.

Lemma on_position it i : on it i -> position it (es !! i).
Proof. intros Hon. destruct (lookup_lt_is_Some_2 es i (on_lt _ _ Hon)) as [e He]. rewrite He. by exists i. Qed.

Lemma out_position it i : out it -> (length es <= i)%nat -> position it (es !! i).
Proof. intros Hout Hi. by rewrite lookup_ge_None_2. Qed.

Lemma parse_position it i :
  ready it i -> position (snd (ParseNextKey it)) (es !! i).
Proof.
  intros Hr. destruct (es !! i) as [e|] eqn:He.
  - destruct (parse_here it i e Hr He) as (it' & -> & Hon & _). by exists i.
  - destruct (parse_end it i Hr) as (it' & -> & Hout); [|done]. apply lookup_ge_None in He.
    destruct Hr as (_ & _ & _ & Hle & _). lia.
Qed.

Lemma next_position it i : on it i -> position (bi_Next it) (es !! S i).
Proof. intros Hon. apply parse_position. by apply on_ready. Qed.

Lemma prev_position it i : on it i -> position (bi_Prev it) (entry_before i).
Proof.
  intros Hon. pose proof (prev_spec it i Hon) as Hp. destruct i as [|i]; [done|]. cbn in Hp. rewrite Nat.sub_0_r in Hp.
  by apply on_position.
Qed.

Lemma scan_position n it i : position it (es !! i) -> (length es - i <= n)%nat -> scan n it = drop i es.
Proof.
  revert it i. induction n as [|n IH]; intros it i Hp Hn; cbn [scan].
  - symmetry. apply drop_ge. lia.
  - change (Valid it) with (bi_Valid it). change (Next it) with (bi_Next it). destruct (es !! i) as [e|] eqn:He.
    + destruct Hp as (i' & Hi' & Hon). assert (i' = i) as ->.
      { destruct (Nat.lt_trichotomy i' i) as [Hlt|[?|Hlt]]; [exfalso|done|exfalso].
        - pose proof (Hsorted i' i e e Hlt Hi' He). rewrite compare_refl in *; [lia|by eapply valid_at..].
        - pose proof (Hsorted i i' e e Hlt He Hi'). rewrite compare_refl in *; [lia|by eapply valid_at..]. }
      rewrite (on_valid _ _ Hon), (drop_S _ _ _ He), (IH (bi_Next it) (S i)); [|by apply next_position|lia].
      destruct Hon as (_ & _ & _ & _ & e' & He' & Hk & Hv). assert (e' = e) as -> by congruence.
      f_equal. cbn. rewrite Hk, Hv. by destruct e.
    + rewrite (out_invalid _ Hp). symmetry. apply drop_ge. by apply lookup_ge_None.
Qed.

Lemma in_block_data it : in_block it -> bi_data it = Some data /\ bi_num_restarts it = nr /\ bi_prefix_index it = None.
Proof. by intros [(? & _ & ? & ? & _) _]. Qed.

Lemma first_position it : in_block it -> position (bi_SeekToFirst it) (es !! 0%nat).
Proof.
  intros Hb. unfold bi_SeekToFirst. destruct (in_block_data it Hb) as (-> & _). apply parse_position.
  pose proof (seek_restart_ready it 0 Hb) as Hr. rewrite (lay_rho0 _ _ _ _ _ _ Hlay) in Hr. apply Hr.
  pose proof (lay_nr _ _ _ _ _ _ Hlay). lia.
Qed.

Lemma last_position it : in_block it -> position (bi_SeekToLast it) (entry_before (length es)).
Proof.
  intros Hb. unfold bi_SeekToLast. destruct (in_block_data it Hb) as (-> & -> & _).
  pose proof (lay_nr _ _ _ _ _ _ Hlay). pose proof (fuel_enough it (proj1 Hb)).
  replace (nr - 1) with (Z.of_nat (Z.to_nat (nr - 1))) by lia.
  pose proof (seek_restart_ready it (Z.to_nat (nr - 1)) Hb ltac:(lia)) as Hr.
  pose proof (last_loop_spec (loop_fuel it) _ _ Hr ltac:(lia)) as Hl. cbv zeta in Hl.
  destruct (Nat.ltb_spec (rho (Z.to_nat (nr - 1))) (length es)) as [Hlt|Hge].
  - destruct (length es) as [|n]; [lia|]. cbn [entry_before]. replace (S n - 1)%nat with n in Hl by lia. by apply on_position.
  - destruct (lay_restart _ _ _ _ _ _ Hlay (Z.to_nat (nr - 1)) ltac:(lia)) as [_ [?|[E1 E2]]]; [lia|].
    rewrite E2, (lay_rho0 _ _ _ _ _ _ Hlay) in E1. by rewrite <- E1.
Qed.

Lemma seek_position t it :
  valid t -> in_block it -> exists i, (i <= length es)%nat /\ position (bi_Seek t it) (es !! i) /\
    (forall m e, (m < i)%nat -> es !! m = Some e -> Compare (fst e) t < 0) /\
    (forall e, es !! i = Some e -> Compare (fst e) t >= 0).
Proof.
  intros Ht Hb. destruct (whole_seek_spec t it Ht Hb) as (j & Hw & i & Hlo & Hat).
  unfold bi_Seek. destruct (in_block_data it Hb) as (-> & _ & ->). rewrite Hw.
  destruct Hat as [[Hon Hge]|[Hout ->]].
  - exists i. pose proof (on_lt _ _ Hon). split; [lia|]. split; [by apply on_position|done].
  - exists (length es). split; [lia|]. split; [by apply out_position|]. split; [done|].
    intros e He. apply lookup_lt_Some in He. lia.
Qed.

Lemma back_loop_spec t fuel it i :
  on it i -> (forall m e, (m < i)%nat -> es !! m = Some e -> Compare (fst e) t < 0) ->
  exists k, (k = i \/ k = S i) /\ position (back_loop (S (S fuel)) t it) (entry_before k) /\
    forall e, es !! i = Some e -> k = i <-> Compare (fst e) t > 0.
Proof.
  intros Hon Hlo. destruct (lookup_lt_is_Some_2 es i (on_lt _ _ Hon)) as [e He].
  assert (Hk : bi_key it = fst e) by (destruct Hon as (_ & _ & _ & _ & e' & He' & Hk & _); congruence).
  cbn [back_loop]. rewrite (on_valid _ _ Hon), Hk. cbn [andb].
  destruct (Z.gtb_spec (Compare (fst e) t) 0) as [Hgt|Hle].
  - exists i. split; [by left|]. split; [|intros e' He'; assert (e' = e) as -> by congruence; split; [lia|done]].
    pose proof (prev_position it i Hon) as Hp. destruct (entry_before i) as [e1|] eqn:E1.
    + destruct Hp as (i1 & Hi1 & Hon1). rewrite (on_valid _ _ Hon1). cbn [andb].
      assert (Hk1 : bi_key (bi_Prev it) = fst e1) by (destruct Hon1 as (_ & _ & _ & _ & e' & He' & Hk1 & _); congruence).
      destruct i as [|i]; [done|]. cbn in E1. pose proof (Hlo i e1 ltac:(lia) E1).
      rewrite Hk1. rewrite Z.gtb_ltb, (proj2 (Z.ltb_ge _ _)) by lia. by exists i1.
    + rewrite (out_invalid _ Hp). done.
  - exists (S i). split; [by right|]. split; [cbn [entry_before]; rewrite He; by exists i|].
    intros e' He'. assert (e' = e) as -> by congruence. split; lia.
Qed.

Lemma seek_for_prev_position t it :
  valid t -> in_block it -> exists i, (i <= length es)%nat /\ position (bi_SeekForPrev t it) (entry_before i) /\
    (forall m e, (m < i)%nat -> es !! m = Some e -> Compare (fst e) t <= 0) /\
    (forall m e, (i <= m)%nat -> es !! m = Some e -> Compare (fst e) t > 0).
Proof.
  intros Ht Hb. destruct (whole_seek_spec t it Ht Hb) as (j & Hw & i & Hlo & Hat).
  unfold bi_SeekForPrev. destruct (in_block_data it Hb) as (-> & _). rewrite Hw. cbv zeta.
  set (it' := seek_loop _ _ _) in *. destruct Hat as [[Hon Hge]|[Hout ->]].
  - rewrite (on_valid _ _ Hon). cbn [negb]. pose proof (on_lt _ _ Hon) as Hi. pose proof (fuel_enough it' ltac:(apply Hon)) as Hf.
    destruct (loop_fuel it') as [|[|fuel]]; [lia|lia|].
    destruct (back_loop_spec t fuel it' i Hon Hlo) as (k & Hk & Hp & Hgt).
    destruct (lookup_lt_is_Some_2 es i Hi) as [e He]. specialize (Hgt e He). specialize (Hge e He). pose proof (valid_at _ _ He) as Hve.
    exists k. split; [lia|]. split; [done|].
    assert (Hafter : forall m x, (i < m)%nat -> es !! m = Some x -> Compare (fst x) t > 0).
    { intros m x Hm Hx. pose proof (Hsorted i m e x Hm He Hx). pose proof (valid_at _ _ Hx) as Hvx.
      apply Z.lt_gt, Z.gt_lt, (compare_lt_gt t (fst x)); [done|done|].
      apply (compare_le_lt_trans t (fst e) (fst x)); try done. pose proof (compare_antisym t (fst e) Ht Hve). lia. }
    split; intros m x Hm Hx.
    + destruct (decide (m < i)%nat) as [Hmi|]; [pose proof (Hlo m x Hmi Hx); lia|].
      assert (m = i) as -> by lia. assert (x = e) as -> by congruence. destruct (decide (Compare (fst e) t > 0)); [|lia].
      apply Hgt in g. lia.
    + destruct (decide (m = i)) as [->|]; [|apply (Hafter m); [lia|done]]. assert (x = e) as -> by congruence. apply Hgt. lia.
  - rewrite (out_invalid _ Hout). cbn [negb]. exists (length es). split; [lia|].
    split; [apply last_position; apply Hout|]. split.
    + intros m e Hm He. pose proof (Hlo m e Hm He). lia.
    + intros m e Hm He. apply lookup_lt_Some in He. lia.
Qed.
End Iter.

Section Contract.
Context {c : Comparator} {valid : bytes -> Prop} {Ho : CompareOrder c valid}.

(** The iterator reads a well-formed block with the sorted entries [l], and is at
    [o] of them. *)
Definition block_at (it : BlockIter) (l : list entry) (o : option entry) : Prop :=
  exists data R nr off rho, layout data R nr l off rho /\ key_sorted l /\ (forall e, e ∈ l -> valid (fst e)) /\
    position data R nr l off it o.

Lemma BlockIter_ok : IteratorOk valid block_at.
Proof.
  split.
  - intros it l o (data & R & nr & off & rho & Hl & Hs & Hv & Hp). done.
  - intros it l o (data & R & nr & off & rho & Hl & Hs & Hv & Hp). cbn. destruct o as [e|].
    + destruct Hp as (i & _ & Hon). rewrite (on_valid _ _ _ _ _ _ Hl _ _ Hon). by rewrite bool_decide_eq_true_2.
    + by rewrite (out_invalid _ _ _ _ _ _ Hp).
  - intros it l e (data & R & nr & off & rho & Hl & Hs & Hv & i & Hi & Hon). split; [by eapply list_elem_of_lookup_2|].
    destruct Hon as (_ & _ & _ & _ & e' & He' & Hk & Hval). assert (e' = e) as -> by congruence. done.
  - intros it l o (data & R & nr & off & rho & Hl & Hs & Hv & Hp). exists (l !! 0%nat).
    split; [exists data, R, nr, off, rho; split; [done|]; split; [done|]; split; [done|]; eapply first_position; [done|by eapply position_in]|].
    by eapply best_from; [..|lia|done].
  - intros it l o (data & R & nr & off & rho & Hl & Hs & Hv & Hp). exists (entry_before l (length l)).
    split; [exists data, R, nr, off, rho; split; [done|]; split; [done|]; split; [done|]; eapply last_position; [done|by eapply position_in]|].
    eapply best_before; [done..| |done]. intros m e Hm Hme. apply lookup_lt_Some in Hme. lia.
  - intros it l o t (data & R & nr & off & rho & Hl & Hs & Hv & Hp) Ht.
    destruct (seek_position _ _ _ _ _ _ Hl Hs Hv t it Ht ltac:(by eapply position_in)) as (i & _ & Hpos & Hlo & Hge).
    exists (l !! i). split; [by exists data, R, nr, off, rho|]. eapply best_from; [done..| |].
    + intros m e Hm Hme. pose proof (Hlo m e Hm Hme). cbn [upto]. pose proof (compare_antisym t (fst e) Ht ltac:(eapply Hv, list_elem_of_lookup_2, Hme)). lia.
    + intros e He. pose proof (Hge e He). cbn [upto]. pose proof (compare_antisym t (fst e) Ht ltac:(eapply Hv, list_elem_of_lookup_2, He)). lia.
  - intros it l o t (data & R & nr & off & rho & Hl & Hs & Hv & Hp) Ht.
    destruct (seek_for_prev_position _ _ _ _ _ _ Hl Hs Hv t it Ht ltac:(by eapply position_in)) as (i & Hi & Hpos & Hlo & Hgt).
    exists (entry_before l i). split; [by exists data, R, nr, off, rho|]. eapply best_before; [done..| |].
    + intros m e Hm Hme. pose proof (Hgt m e Hm Hme). cbn [upto]. lia.
    + intros e He. cbn [upto]. destruct i as [|i]; [done|]. apply (Hlo i e); [lia|done].
  - intros it l e (data & R & nr & off & rho & Hl & Hs & Hv & i & Hi & Hon). exists (l !! S i).
    split; [exists data, R, nr, off, rho; split; [done|]; split; [done|]; split; [done|]; by eapply next_position|].
    eapply best_from; [done..| |].
    + intros m x Hm Hx. cbn [ahead]. destruct (decide (m = i)) as [->|].
      * assert (x = e) as -> by congruence. rewrite compare_refl; [lia|]. eapply Hv, list_elem_of_lookup_2, Hi.
      * pose proof (Hs m i x e ltac:(lia) Hx Hi). pose proof (compare_antisym (fst x) (fst e) ltac:(eapply Hv, list_elem_of_lookup_2, Hx) ltac:(eapply Hv, list_elem_of_lookup_2, Hi)). lia.
    + intros x Hx. cbn [ahead]. apply (Hs i (S i)); [lia|done|done].
  - intros it l e (data & R & nr & off & rho & Hl & Hs & Hv & i & Hi & Hon). exists (entry_before l i).
    pose proof (lookup_lt_Some _ _ _ Hi).
    split; [exists data, R, nr, off, rho; split; [done|]; split; [done|]; split; [done|]; by eapply prev_position|].
    eapply best_before; [done..|lia| |].
    + intros m x Hm Hx. cbn [ahead]. destruct (decide (m = i)) as [->|].
      * assert (x = e) as -> by congruence. rewrite compare_refl; [lia|]. eapply Hv, list_elem_of_lookup_2, Hi.
      * pose proof (Hs i m e x ltac:(lia) Hi Hx). pose proof (compare_antisym (fst x) (fst e) ltac:(eapply Hv, list_elem_of_lookup_2, Hx) ltac:(eapply Hv, list_elem_of_lookup_2, Hi)). lia.
    + intros x Hx. cbn [ahead]. destruct i as [|i]; [done|]. apply (Hs i (S i)); [lia|done|done].
Qed.
End Contract.
