(* ===== verification/BlockProps.v ===== *)
(** * What a block builder writes, a block iterator reads

    The invariant of [BlockBuilder] says how its buffer is made of encoded entries.
    It gives the [layout] of the finished block, and with it the contract of the
    iterator that [Block::NewIterator] returns. *)

From S2P Require Import Prelude Coding DbFormat Iterators Block BlockIterProps.
From stdpp Require Import base list sorting strings.
From Stdlib Require Import ZArith Lia.
#[local] Open Scope Z_scope.

(** ** Encoded entries *)

Definition encode_entry (shared : nat) (e : entry) : bytes :=
  PutVarint32Varint32Varint32 (Z.of_nat shared) (bsize (fst e) - Z.of_nat shared) (bsize (snd e))
  ++ drop shared (fst e) ++ snd e.

(** The first byte of a varint tells whether it is the only one. *)
Lemma varint32_head v :
  is_u32 v -> (v < 128 /\ EncodeVarint32 v = [byte_of_Z v] /\ Z_of_byte (byte_of_Z v) = v) \/
  exists b rest, EncodeVarint32 v = b :: rest /\ 128 <= Z_of_byte b.
Proof.
  intros Hv. rewrite EncodeVarint32_loop by done. unfold EncodeVarint64, kMaxVarint64Length. rewrite varint_group.
  destruct (Z.geb_spec v 128) as [Hge|Hlt].
  - right. eexists _, _. split; [reflexivity|]. rewrite Z_of_varint_head. pose proof (Z.mod_pos_bound v 128 ltac:(lia)). lia.
  - left. split; [done|]. split; [done|]. unfold is_u32 in Hv. rewrite Z_of_byte_of_Z. apply Z.mod_small. lia.
Qed.

Lemma lor_lt_128 a b : 0 <= a -> 0 <= b -> Z.lor a b < 128 -> a < 128 /\ b < 128.
Proof.
  intros Ha Hb Hlt. assert (Hm : forall x, 128 <= x -> 7 <= Z.log2 x) by (intros x Hx; apply (Z.log2_le_mono 128 x) in Hx; exact Hx).
  assert (Hor := Z.log2_lor a b Ha Hb). assert (Hnn : 0 <= Z.lor a b) by (by apply Z.lor_nonneg).
  assert (Hl : Z.log2 (Z.lor a b) <= 6) by (apply (Z.log2_le_mono (Z.lor a b) 127); lia).
  split; apply Z.nle_gt; intros Hx%Hm; lia.
Qed.

(** [DecodeEntry] reads the lengths back, on the fast path and on the slow one. *)
Lemma DecodeEntry_encoded s n v rest :
  is_u32 s -> is_u32 n -> is_u32 v -> n + v <= bsize rest -> bsize rest < 2 ^ 32 ->
  DecodeEntry (PutVarint32Varint32Varint32 s n v ++ rest) = Some (s, n, v, rest).
Proof.
  intros Hs Hn Hv Hle Hlt. unfold DecodeEntry, PutVarint32Varint32Varint32. rewrite <- !app_assoc.
  unfold is_u32 in Hs, Hn, Hv.
  assert (Hcheck : u32 (bsize rest) <? u32 (n + v) = false).
  { apply Z.ltb_ge. rewrite !u32_small by (unfold is_u32; lia). lia. }
  assert (Hget : forall x r, is_u32 x -> GetVarint32Ptr (EncodeVarint32 x ++ r) = Some (x, r)) by (intros; by apply GetVarint32_app).
  assert (Hne : forall x, is_u32 x -> (1 <= length (EncodeVarint32 x))%nat).
  { intros x Hx. destruct (varint32_head x Hx) as [(_ & -> & _)|(b & r & -> & _)]; cbn; lia. }
  rewrite (proj2 (Z.ltb_ge _ _)).
  2:{ unfold bsize. rewrite !length_app. pose proof (Hne s Hs). pose proof (Hne n Hn). pose proof (Hne v Hv). lia. }
  cbv zeta. rewrite (Hget s) by done. cbv iota beta. rewrite (Hget n) by done. cbv iota beta. rewrite (Hget v) by done.
  cbv iota beta. rewrite Hcheck.
  destruct (Z.ltb_spec (Z.lor (Z.lor (char_at (EncodeVarint32 s ++ EncodeVarint32 n ++ EncodeVarint32 v ++ rest) 0)
    (char_at (EncodeVarint32 s ++ EncodeVarint32 n ++ EncodeVarint32 v ++ rest) 1))
    (char_at (EncodeVarint32 s ++ EncodeVarint32 n ++ EncodeVarint32 v ++ rest) 2)) 128) as [Hfast|]; [|done].
  assert (Hr : forall p i, 0 <= char_at p i) by (intros p i; unfold char_at; pose proof (Z_of_byte_range (nth i p Byte.x00)); lia).
  apply lor_lt_128 in Hfast as [[H0 H1]%lor_lt_128 H2]; [|try apply Z.lor_nonneg; auto..].
  destruct (varint32_head s Hs) as [(_ & Es & Vs)|(b & r & Es & Hb)]; rewrite Es in *; [|unfold char_at in H0; cbn in H0; lia].
  destruct (varint32_head n Hn) as [(_ & En & Vn)|(b & r & En & Hb)]; rewrite En in *; [|unfold char_at in H1; cbn in H1; lia].
  destruct (varint32_head v Hv) as [(_ & Ev & Vv)|(b & r & Ev & Hb)]; rewrite Ev in *; [|unfold char_at in H2; cbn in H2; lia].
  unfold char_at. cbn [app nth skipn]. rewrite drop_0, Vs, Vn, Vv, Hcheck. done.
Qed.

(** ** Slices *)

Lemma slice_mid (data pre mid post : bytes) o n :
  data = pre ++ mid ++ post -> o = bsize pre -> n = bsize mid -> slice data o n = mid.
Proof. intros -> -> ->. unfold slice, bsize. by rewrite !Nat2Z.id, drop_app_length, take_app_length. Qed.

Lemma difference_offset_spec a b :
  take (difference_offset a b) a = take (difference_offset a b) b /\
  (difference_offset a b <= length a)%nat /\ (difference_offset a b <= length b)%nat.
Proof.
  revert b. induction a as [|x a IH]; intros [|y b]; cbn [difference_offset]; [cbn; repeat split; lia..|].
  destruct (decide (x <> y)) as [|E]; [cbn; repeat split; lia|].
  assert (x = y) as <- by (by apply dec_stable). cbn [take length]. destruct (IH b) as (-> & ? & ?). repeat split; lia.
Qed.

(** ** Any contents *)

Lemma DecodeEntry_bounds p s n v rest :
  DecodeEntry p = Some (s, n, v, rest) -> bsize rest + 3 <= bsize p /\ u32 (n + v) <= u32 (bsize rest).
Proof.
  unfold DecodeEntry. destruct (Z.ltb_spec (bsize p) 3) as [|Hp]; [done|]. cbv zeta.
  assert (Hcheck : forall s' n' v' r, (if u32 (bsize r) <? u32 (n' + v') then None else Some (s', n', v', r)) = Some (s, n, v, rest) ->
    rest = r /\ u32 (n + v) <= u32 (bsize rest)).
  { intros s' n' v' r. destruct (Z.ltb_spec (u32 (bsize r)) (u32 (n' + v'))); [done|]. by intros [= -> -> -> ->]. }
  destruct (_ <? 128).
  - intros [-> Hu]%Hcheck. split; [|done]. unfold bsize in *. rewrite length_drop. lia.
  - destruct (GetVarint32Ptr p) as [[a p1]|] eqn:E1; [|done]. destruct (GetVarint32Ptr p1) as [[b p2]|] eqn:E2; [|done].
    destruct (GetVarint32Ptr p2) as [[d p3]|] eqn:E3; [|done]. intros [-> Hu]%Hcheck. split; [|done].
    pose proof (GetVarint32_shrinks _ _ _ E1). pose proof (GetVarint32_shrinks _ _ _ E2). pose proof (GetVarint32_shrinks _ _ _ E3).
    unfold bsize. lia.
Qed.

(** A successful parse moves on by at least three bytes and stays before the restart
    array, whatever the block contains. *)
Lemma ParseNextKey_advances it it' :
  0 <= bi_restarts it < 2 ^ 32 -> ParseNextKey it = (true, it') ->
  bi_restarts it' = bi_restarts it /\ NextEntryOffset it + 3 <= NextEntryOffset it' <= bi_restarts it.
Proof.
  intros HR. unfold ParseNextKey. cbv zeta. cbn [set eta_BlockIter bi_current bi_restarts].
  assert (Hn0 : 0 <= NextEntryOffset it) by (unfold NextEntryOffset, u32; apply Z.mod_pos_bound; lia).
  destruct (Z.leb_spec (bi_restarts it) (NextEntryOffset it)) as [|Hlt]; [done|].
  set (it0 := mkBlockIter _ _ _ _ _ _ _ _ _ _ _ _ _ _ _).
  destruct (DecodeEntry _) as [[[[s n] v] rest]|] eqn:Ed; [|done]. destruct (_ <? s); [done|]. intros [= <-].
  apply DecodeEntry_bounds in Ed as [Hlen Hu].
  assert (Hsl : bsize (slice (bi_bytes it0) (NextEntryOffset it) (bi_restarts it - NextEntryOffset it)) <= bi_restarts it - NextEntryOffset it).
  { unfold slice, bsize. rewrite length_take. lia. }
  assert (Hr0 : 0 <= bsize rest) by (unfold bsize; lia). rewrite (u32_id (bsize rest)) in Hu by lia.
  assert (Hu0 : 0 <= u32 (n + v)) by (unfold u32; apply Z.mod_pos_bound; lia).
  unfold parsed. set (it1 := apply_global_seqno _).
  assert (Hit1 : bi_restarts it1 = bi_restarts it).
  { unfold it1, apply_global_seqno, parse_key. destruct (s =? 0); cbn [set eta_BlockIter bi_global_seqno];
      destruct (bi_global_seqno it0 =? _); done. }
  destruct (advance_restart_spec (Z.to_nat (bi_num_restarts (it1 <| bi_value := (bi_restarts it - bsize rest + n, v) |>)))
    (it1 <| bi_value := (bi_restarts it - bsize rest + n, v) |>)) as (ri & -> & _).
  split; [done|]. unfold NextEntryOffset at 2 3. cbn [set eta_BlockIter bi_value fst snd].
  replace (u32 (bi_restarts it - bsize rest + n + v)) with (bi_restarts it - bsize rest + u32 (n + v)); [lia|].
  rewrite <- (u32_id (bi_restarts it - bsize rest + u32 (n + v))) by lia. unfold u32.
  rewrite Zplus_mod_idemp_r. f_equal. lia.
Qed.

Definition remaining (it : BlockIter) : Z := bi_restarts it - NextEntryOffset it.

(** One turn of a loop over entries: after a successful parse there is enough fuel
    for the rest. *)
Lemma parse_fuel fuel it it' :
  0 <= bi_restarts it < 2 ^ 32 -> remaining it < Z.of_nat (S fuel) -> ParseNextKey it = (true, it') ->
  0 <= bi_restarts it' < 2 ^ 32 /\ remaining it' < Z.of_nat fuel /\ (0 < fuel)%nat.
Proof.
  intros HR Hf Hp. destruct (ParseNextKey_advances it it' HR Hp) as [HR' Hn]. unfold remaining in *. rewrite HR'. lia.
Qed.

Section Fuel.
Context {c : Comparator}.

Lemma seek_loop_fuel t k fuel : forall it,
  0 <= bi_restarts it < 2 ^ 32 -> remaining it < Z.of_nat fuel -> (0 < fuel)%nat ->
  seek_loop (fuel + k) t it = seek_loop fuel t it.
Proof.
  induction fuel as [|fuel IH]; intros it HR Hf H0; [lia|]. cbn [Nat.add seek_loop].
  destruct (ParseNextKey it) as [[] it'] eqn:Hp; cbn [negb orb]; [|done].
  destruct (parse_fuel fuel it it' HR Hf Hp) as (HR' & Hf' & H0'). destruct (_ >=? 0); [done|]. by apply IH.
Qed.

Lemma last_loop_fuel k fuel : forall it,
  0 <= bi_restarts it < 2 ^ 32 -> remaining it < Z.of_nat fuel -> (0 < fuel)%nat ->
  last_loop (fuel + k) it = last_loop fuel it.
Proof.
  induction fuel as [|fuel IH]; intros it HR Hf H0; [lia|]. cbn [Nat.add last_loop].
  destruct (ParseNextKey it) as [[] it'] eqn:Hp; cbn [andb]; [|done].
  destruct (parse_fuel fuel it it' HR Hf Hp) as (HR' & Hf' & H0'). destruct (_ <? _); [|done]. by apply IH.
Qed.

Lemma prev_loop_fuel o k fuel : forall it,
  0 <= bi_restarts it < 2 ^ 32 -> remaining it < Z.of_nat fuel -> (0 < fuel)%nat ->
  prev_loop (fuel + k) o it = prev_loop fuel o it.
Proof.
  induction fuel as [|fuel IH]; intros it HR Hf H0; [lia|]. cbn [Nat.add prev_loop].
  destruct (ParseNextKey it) as [[] it'] eqn:Hp; cbn [negb]; [|done].
  destruct (parse_fuel fuel it it' HR Hf Hp) as (HR' & Hf' & H0'). destruct (_ <? o); [|done].
  apply IH; unfold cache_entry; by destruct (bi_key_external it').
Qed.
End Fuel.

(** The 32-bit sum lets an entry through whose lengths are far past the end, ... *)
Example decode_entry_overflow : DecodeEntry (PutVarint32Varint32Varint32 0 (2 ^ 31) (2 ^ 31)) = Some (0, 2 ^ 31, 2 ^ 31, []).
Proof. vm_compute. reflexivity. Qed.

(** ... and a number of restarts of 2^30 or more wraps around in the size check: this
    block of eight bytes is accepted with 2^30 restart points. *)
Example num_restarts_overflow :
  let b := Block_new (PutFixed32 0 ++ PutFixed32 (2 ^ 30)) kDisableGlobalSequenceNumber in
  block_size_ b = 8 /\ NumRestarts b = 2 ^ 30.
Proof. vm_compute. done. Qed.

(** ** The builder's invariant *)

(** The encoded entries, and the offset of an entry. *)
Definition encoded (shs : list nat) (es : list entry) : list bytes := zip_with encode_entry shs es.
Definition offset_of (shs : list nat) (es : list entry) (i : nat) : nat := length (concat (take i (encoded shs es))).

(** [shs] has the shared length of every entry and [rhos] the entries at restart
    points. *)
Record block_building (b : BlockBuilder) (es : list entry) (shs rhos : list nat) : Prop := {
  bd_len : length shs = length es;
  bd_buffer : bb_buffer_ b = concat (encoded shs es);
  bd_restarts : bb_restarts_ b = (fun r => Z.of_nat (offset_of shs es r)) <$> rhos;
  bd_first : rhos !! 0%nat = Some 0%nat;
  bd_rhos i j r r' : (i < j)%nat -> rhos !! i = Some r -> rhos !! j = Some r' -> (r < r')%nat;
  bd_rhos_lt j r : (0 < j)%nat -> rhos !! j = Some r -> (r < length es)%nat;
  bd_shared i sh e : shs !! i = Some sh -> es !! i = Some e ->
    take sh (fst e) = take sh (key_before es i) /\ (sh <= length (fst e))%nat /\ (sh <= length (key_before es i))%nat;
  bd_shared_restart i j : rhos !! j = Some i -> (i < length es)%nat -> shs !! i = Some 0%nat;
  bd_interval : 1 <= block_restart_interval_ b;
  bd_counter : exists last, rhos !! (length rhos - 1)%nat = Some last /\
    counter_ b = Z.of_nat (length es) - Z.of_nat last /\ counter_ b <= block_restart_interval_ b;
  bd_last_key : use_delta_encoding_ b = true -> last_key_ b = key_before es (length es);
  bd_estimate : estimate_ b = bsize (bb_buffer_ b) + 4 * Z.of_nat (length (bb_restarts_ b)) + 4;
  bd_finished : finished_ b = false;
  bd_key_size i : (i <= length es)%nat -> (length (key_before es i) <= length (bb_buffer_ b))%nat
}.

Lemma key_before_snoc es e i : (i <= length es)%nat -> key_before (es ++ [e]) i = key_before es i.
Proof. intros Hi. destruct i as [|i]; [done|]. cbn [key_before]. by rewrite lookup_app_l by lia. Qed.

Lemma key_before_last es e : key_before (es ++ [e]) (length (es ++ [e])) = fst e.
Proof. rewrite length_app, Nat.add_1_r. cbn [key_before]. by rewrite lookup_app_r, Nat.sub_diag by lia. Qed.

Lemma encoded_snoc shs es sh e : length shs = length es -> encoded (shs ++ [sh]) (es ++ [e]) = encoded shs es ++ [encode_entry sh e].
Proof. intros Hl. unfold encoded. by rewrite zip_with_app. Qed.

Lemma length_encoded shs es : length shs = length es -> length (encoded shs es) = length es.
Proof. intros Hl. unfold encoded. rewrite length_zip_with. lia. Qed.

Lemma offset_of_snoc shs es sh e r :
  length shs = length es -> (r <= length es)%nat -> offset_of (shs ++ [sh]) (es ++ [e]) r = offset_of shs es r.
Proof. intros Hl Hr. unfold offset_of. rewrite encoded_snoc, take_app_le by (done || rewrite length_encoded; lia). done. Qed.

Lemma offset_of_all shs es : length shs = length es -> offset_of shs es (length es) = length (concat (encoded shs es)).
Proof. intros Hl. unfold offset_of. by rewrite take_ge by (rewrite length_encoded; lia). Qed.

Lemma building_new interval delta : 1 <= interval -> block_building (BlockBuilder_new interval delta) [] [] [0%nat].
Proof.
  intros Hi. split; try done.
  - intros i j r r' Hij Hr Hr'. apply list_lookup_singleton_Some in Hr as [-> _], Hr' as [-> _]. lia.
  - intros j r Hj Hr. apply list_lookup_singleton_Some in Hr as [-> _]. lia.
  - intros i j Hj Hlt. cbn in Hlt. lia.
  - exists 0%nat. split; [done|]. cbn. lia.
  - intros i Hle. cbn in Hle. by replace i with 0%nat by lia.
Qed.

(** What [Add] appends. *)
Lemma Add_buffer k v b sh :
  Z.of_nat sh <= bsize k < 2 ^ 32 -> bsize v < 2 ^ 32 ->
  ((bb_buffer_ b ++ PutVarint32Varint32Varint32 (u32 (Z.of_nat sh)) (u32 (bsize k - Z.of_nat sh)) (u32 (bsize v))) ++ drop sh k) ++ v
  = bb_buffer_ b ++ encode_entry sh (k, v).
Proof. intros Hk Hv. unfold encode_entry. cbn [fst snd]. unfold bsize in *. rewrite !u32_small by (unfold is_u32; lia). by rewrite !app_assoc. Qed.

Lemma block_building_snoc b b' es shs rhos rhos' sh k v :
  block_building b es shs rhos ->
  bb_buffer_ b' = bb_buffer_ b ++ encode_entry sh (k, v) ->
  block_restart_interval_ b' = block_restart_interval_ b -> use_delta_encoding_ b' = use_delta_encoding_ b ->
  finished_ b' = false -> (use_delta_encoding_ b' = true -> last_key_ b' = k) ->
  estimate_ b' = bsize (bb_buffer_ b') + 4 * Z.of_nat (length (bb_restarts_ b')) + 4 ->
  take sh k = take sh (key_before es (length es)) /\ (sh <= length k)%nat /\ (sh <= length (key_before es (length es)))%nat ->
  (rhos' = rhos /\ bb_restarts_ b' = bb_restarts_ b /\ counter_ b' = counter_ b + 1 /\ counter_ b < block_restart_interval_ b \/
   rhos' = rhos ++ [length es] /\ bb_restarts_ b' = bb_restarts_ b ++ [bsize (bb_buffer_ b)] /\ counter_ b' = 1 /\
   block_restart_interval_ b <= counter_ b /\ sh = 0%nat) ->
  block_building b' (es ++ [(k, v)]) (shs ++ [sh]) rhos'.
Proof.
  intros [Hlen Hbuf Hres Hfirst Hmono Hlt Hsh Hshr Hint (last & Hlast & Hcnt & Hcle) _ _ _ Hks] Hbuf' Hint' Hdelta' Hfin' Hlk' Hest' Hsh' Hcase.
  assert (Hrle : forall j r, rhos !! j = Some r -> (r <= length es)%nat).
  { intros j r Hr. destruct j as [|j]; [assert (r = 0%nat) by congruence; lia|]. specialize (Hlt (S j) r ltac:(lia) Hr). lia. }
  assert (Hres' : (fun r => Z.of_nat (offset_of (shs ++ [sh]) (es ++ [(k, v)]) r)) <$> rhos = bb_restarts_ b).
  { rewrite Hres. apply list_fmap_ext. intros j r Hr. by rewrite offset_of_snoc by eauto. }
  assert (Hnlast : rhos !! length rhos = None) by (by apply lookup_ge_None_2).
  split; try done.
  - rewrite !length_app. cbn. lia.
  - rewrite Hbuf', Hbuf, encoded_snoc, concat_app by done. cbn. by rewrite app_nil_r.
  - destruct Hcase as [(-> & -> & _)|(-> & -> & _)]; [done|]. rewrite fmap_app, Hres'. f_equal. cbn.
    rewrite offset_of_snoc, offset_of_all by lia. by rewrite Hbuf.
  - destruct Hcase as [(-> & _)|(-> & _)]; [done|]. by rewrite lookup_app_l by (by eapply lookup_lt_Some).
  - destruct Hcase as [(-> & _)|(-> & _ & _ & Hci & _)]; [done|]. intros i j r r' Hij Hr Hr'.
    apply lookup_app_Some in Hr' as [Hr'|[Hj Hr']].
    + apply lookup_app_Some in Hr as [Hr|[Hi _]]; [by eapply Hmono|]. apply lookup_lt_Some in Hr'. lia.
    + apply list_lookup_singleton_Some in Hr' as [Hj0 <-]. apply lookup_app_Some in Hr as [Hr|[Hi Hr]].
      * assert (r <= last)%nat; [|lia]. pose proof (lookup_lt_Some _ _ _ Hr).
        destruct (decide (i = length rhos - 1)%nat) as [->|]; [assert (r = last) by congruence; lia|].
        specialize (Hmono i (length rhos - 1)%nat r last ltac:(lia) Hr Hlast). lia.
      * lia.
  - rewrite length_app. cbn. intros j r Hj Hr. destruct Hcase as [(-> & _)|(-> & _)].
    + specialize (Hlt j r Hj Hr). lia.
    + apply lookup_app_Some in Hr as [Hr|[_ Hr]]; [specialize (Hlt j r Hj Hr); lia|].
      apply list_lookup_singleton_Some in Hr as [_ <-]. lia.
  - intros i x e Hx He. destruct (decide (i < length es)%nat) as [Hi|Hi].
    + rewrite lookup_app_l in Hx by lia. rewrite lookup_app_l in He by lia. rewrite key_before_snoc by lia. by apply Hsh.
    + apply lookup_app_Some in He as [He|[_ He]]; [apply lookup_lt_Some in He; lia|].
      apply list_lookup_singleton_Some in He as [Hi0 <-]. assert (i = length es) as -> by lia.
      rewrite lookup_app_r, Hlen, Nat.sub_diag in Hx by lia. injection Hx as <-. by rewrite key_before_snoc by lia.
  - rewrite length_app. cbn. intros i j Hj Hi. destruct (decide (i = length es)) as [->|Hne].
    + rewrite lookup_app_r, Hlen, Nat.sub_diag by lia. cbn. f_equal. destruct Hcase as [(-> & _ & Hc' & _)|(_ & _ & _ & _ & ->)]; [|done].
      destruct j as [|j]; [|specialize (Hlt (S j) _ ltac:(lia) Hj); lia].
      assert (Hz : length es = 0%nat) by congruence. rewrite Hz in Hsh'. cbn in Hsh'. lia.
    + rewrite lookup_app_l by lia. apply (Hshr i j); [|lia]. destruct Hcase as [(-> & _)|(-> & _)]; [done|].
      apply lookup_app_Some in Hj as [Hj|[_ Hj]]; [done|]. apply list_lookup_singleton_Some in Hj as [_ ?]. lia.
  - by rewrite Hint'.
  - destruct Hcase as [(-> & _ & Hc' & Hlt')|(-> & _ & Hc' & Hge & _)].
    + exists last. split; [done|]. rewrite length_app, Hc', Hint'. cbn. lia.
    + exists (length es). rewrite length_app, Nat.add_sub, lookup_app_r, Nat.sub_diag by (cbn; lia). split; [done|].
      rewrite length_app, Hc', Hint'. cbn. lia.
  - intros Hd. rewrite key_before_last. by apply Hlk'.
  - intros i Hi. rewrite Hbuf'. unfold encode_entry. rewrite !length_app, length_drop. cbn [fst snd].
    destruct (decide (i <= length es)%nat) as [Hle|Hgt]; [rewrite key_before_snoc by done; specialize (Hks i Hle); lia|].
    rewrite length_app in Hi. cbn in Hi. replace i with (length (es ++ [(k, v)])) by (rewrite length_app; cbn; lia).
    rewrite key_before_last. specialize (Hks (length es) ltac:(lia)). cbn. lia.
Qed.

(** The first half of [Add]. *)
Lemma Add_start_spec k b es shs rhos :
  block_building b es shs rhos -> bsize (bb_buffer_ b) < 2 ^ 32 ->
  let '(sh, b1) := Add_start k b in
  bb_buffer_ b1 = bb_buffer_ b /\ block_restart_interval_ b1 = block_restart_interval_ b /\
  use_delta_encoding_ b1 = use_delta_encoding_ b /\ finished_ b1 = false /\ (use_delta_encoding_ b = true -> last_key_ b1 = k) /\
  estimate_ b1 = bsize (bb_buffer_ b) + 4 * Z.of_nat (length (bb_restarts_ b1)) + 4 /\
  (take sh k = take sh (key_before es (length es)) /\ (sh <= length k)%nat /\ (sh <= length (key_before es (length es)))%nat) /\
  exists rhos',
    (rhos' = rhos /\ bb_restarts_ b1 = bb_restarts_ b /\ counter_ b1 = counter_ b /\ counter_ b < block_restart_interval_ b \/
     rhos' = rhos ++ [length es] /\ bb_restarts_ b1 = bb_restarts_ b ++ [bsize (bb_buffer_ b)] /\ counter_ b1 = 0 /\
     block_restart_interval_ b <= counter_ b /\ sh = 0%nat).
Proof.
  intros Hb Hsize. pose proof (bd_estimate _ _ _ _ Hb) as Hest. pose proof (bd_finished _ _ _ _ Hb) as Hfin.
  unfold Add_start. destruct (Z.geb_spec (counter_ b) (block_restart_interval_ b)) as [Hge|Hlt].
  - rewrite u32_id by (unfold bsize in *; lia). destruct b as [i d buf res est cnt fin lk]. cbn [use_delta_encoding_ set eta_BlockBuilder] in *.
    destruct d; cbn in *; rewrite length_app; cbn; (repeat (split; [done|])); (split; [lia|]); (split; [split; [done|lia]|]);
      exists (rhos ++ [length es]); right; done.
  - destruct (use_delta_encoding_ b) eqn:Hd.
    + split; [done|]. split; [done|]. split; [done|]. split; [done|]. split; [done|]. split; [done|].
      rewrite (bd_last_key _ _ _ _ Hb Hd). split; [apply difference_offset_spec|]. exists rhos. left. done.
    + split; [done|]. split; [done|]. split; [done|]. split; [done|]. split; [done|]. split; [done|].
      split; [split; [done|lia]|]. exists rhos. left. done.
Qed.

Lemma Add_start_buffer k b : bb_buffer_ (snd (Add_start k b)) = bb_buffer_ b.
Proof. unfold Add_start. destruct (_ >=? _); [by cbn; destruct (use_delta_encoding_ b)|by destruct (use_delta_encoding_ b)]. Qed.

Lemma Add_write_buffer sh k v b :
  bb_buffer_ (Add_write sh k v b) =
  ((bb_buffer_ b ++ PutVarint32Varint32Varint32 (u32 (Z.of_nat sh)) (u32 (bsize k - Z.of_nat sh)) (u32 (bsize v))) ++ drop sh k) ++ v.
Proof. by destruct b. Qed.

Lemma Add_building k v b es shs rhos :
  block_building b es shs rhos -> bsize (bb_buffer_ (BlockBuilder_Add k v b)) < 2 ^ 32 ->
  Add_assert b = true /\
  exists sh rhos', block_building (BlockBuilder_Add k v b) (es ++ [(k, v)]) (shs ++ [sh]) rhos'.
Proof.
  intros Hb Hsize. split.
  { unfold Add_assert. destruct (bd_counter _ _ _ _ Hb) as (? & _ & _ & Hc). rewrite (bd_finished _ _ _ _ Hb).
    apply andb_true_iff. split; [done|by apply Z.leb_le]. }
  unfold BlockBuilder_Add in *. pose proof (Add_start_spec k b es shs rhos Hb) as Hs.
  pose proof (Add_start_buffer k b) as Hbuf1.
  destruct (Add_start k b) as [sh b1]. cbn [snd] in Hbuf1.
  assert (Hlen : bsize (bb_buffer_ b) + (bsize k - Z.of_nat sh) + bsize v <= bsize (bb_buffer_ (Add_write sh k v b1)) /\
    bsize (bb_buffer_ b) <= bsize (bb_buffer_ (Add_write sh k v b1))).
  { rewrite Add_write_buffer, Hbuf1. unfold bsize. rewrite !length_app, length_drop. lia. }
  destruct (Hs ltac:(lia)) as (_ & E2 & E3 & E4 & E5 & E6 & E7 & rhos' & Hcase). clear Hs.
  pose proof (bd_key_size _ _ _ _ Hb (length es) ltac:(lia)) as Hks.
  assert (Hw : bb_buffer_ (Add_write sh k v b1) = bb_buffer_ b ++ encode_entry sh (k, v)).
  { rewrite Add_write_buffer, Hbuf1. apply Add_buffer; unfold bsize in *; lia. }
  exists sh, rhos'. apply (block_building_snoc b _ es shs rhos); [done|done|done|by rewrite <- E3|done| | |done|].
  - cbn. by rewrite E3.
  - rewrite Hw. cbn [Add_write set eta_BlockBuilder estimate_ bb_restarts_ bb_buffer_]. cbn in Hw. unfold Add_write. cbv zeta. cbn [set eta_BlockBuilder estimate_ bb_restarts_ bb_buffer_].
    rewrite E6, Hbuf1, Add_buffer by (unfold bsize in *; lia). unfold bsize. rewrite length_app. lia.
  - destruct Hcase as [(-> & Hr & Hc & Hlt)|(-> & Hr & Hc & Hge & Hz)]; [left|right]; cbn [Add_write set eta_BlockBuilder bb_restarts_ counter_]; unfold Add_write; cbn [set eta_BlockBuilder bb_restarts_ counter_]; rewrite Hr, Hc; done.
Qed.

(** Adding a list of entries. *)
Definition add_all (es : list entry) (b : BlockBuilder) : BlockBuilder :=
  foldl (fun b e => BlockBuilder_Add (fst e) (snd e) b) b es.

Lemma Add_grows k v b : bsize (bb_buffer_ b) <= bsize (bb_buffer_ (BlockBuilder_Add k v b)).
Proof.
  unfold BlockBuilder_Add. pose proof (Add_start_buffer k b) as Hbuf1.
  destruct (Add_start k b) as [sh b1]. cbn [snd] in Hbuf1. rewrite Add_write_buffer, Hbuf1. unfold bsize. rewrite !length_app. lia.
Qed.

Lemma add_all_grows es b : bsize (bb_buffer_ b) <= bsize (bb_buffer_ (add_all es b)).
Proof.
  revert b. induction es as [|e es IH]; intros b; cbn; [lia|]. etrans; [apply (Add_grows (fst e) (snd e))|]. apply IH.
Qed.

Lemma add_all_building es : forall b es0 shs rhos,
  block_building b es0 shs rhos -> bsize (bb_buffer_ (add_all es b)) < 2 ^ 32 ->
  exists shs' rhos', block_building (add_all es b) (es0 ++ es) shs' rhos'.
Proof.
  induction es as [|[k v] es IH]; intros b es0 shs rhos Hb Hsize; [exists shs, rhos; by rewrite app_nil_r|].
  cbn [add_all foldl fst snd] in *. destruct (Add_building k v b es0 shs rhos Hb) as (_ & sh & rhos' & Hb').
  { pose proof (add_all_grows es (BlockBuilder_Add k v b)). unfold add_all in *. lia. }
  destruct (IH _ _ _ _ Hb' Hsize) as (shs' & rhos2 & Hb2). exists shs', rhos2. by rewrite <- app_assoc in Hb2.
Qed.

(** ** The finished block *)

Definition restart_array (restarts : list Z) : bytes := concat (PutFixed32 <$> restarts).

Lemma foldl_append {A} (f : A -> bytes) (l : list A) buf :
  foldl (fun buf r => buf ++ f r) buf l = buf ++ concat (f <$> l).
Proof.
  revert buf. induction l as [|x l IH]; intros buf; cbn [foldl]; [by rewrite app_nil_r|]. rewrite IH. cbn. by rewrite app_assoc.
Qed.

Lemma Finish_buffer b :
  bb_buffer_ (BlockBuilder_Finish b) =
  bb_buffer_ b ++ restart_array (bb_restarts_ b) ++ PutFixed32 (u32 (Z.of_nat (length (bb_restarts_ b)))).
Proof. cbn. by rewrite foldl_append, app_assoc. Qed.

Lemma length_restart_array l : length (restart_array l) = (4 * length l)%nat.
Proof.
  induction l as [|r l IH]; [done|]. change (restart_array (r :: l)) with (EncodeFixed32 r ++ restart_array l).
  rewrite length_app, length_EncodeFixed32, IH. cbn [length]. lia.
Qed.

Lemma restart_array_lookup l j r rest :
  l !! j = Some r -> is_u32 r -> DecodeFixed32 (drop (4 * j) (restart_array l ++ rest)) = r.
Proof.
  intros Hj Hr. unfold restart_array. rewrite <- (take_drop_middle l j r Hj), fmap_app, concat_app, <- app_assoc.
  assert (Hlen : length (concat (PutFixed32 <$> take j l)) = (4 * j)%nat).
  { fold (restart_array (take j l)). rewrite length_restart_array, length_take. apply lookup_lt_Some in Hj. lia. }
  rewrite drop_app_length' by done. cbn [fmap list_fmap concat]. rewrite <- app_assoc. by apply DecodeFixed32_app.
Qed.

Lemma length_encode_entry sh e : (3 <= length (encode_entry sh e))%nat.
Proof.
  unfold encode_entry, PutVarint32Varint32Varint32. rewrite !length_app.
  assert (H : forall x, (1 <= length (EncodeVarint32 x))%nat) by (intros x; unfold EncodeVarint32; cbv zeta; split_ifs; cbn; lia).
  pose proof (H (Z.of_nat sh)). pose proof (H (bsize (fst e) - Z.of_nat sh)). pose proof (H (bsize (snd e))). lia.
Qed.

(** The entry [i] in the buffer, between those before and those after. *)
Lemma buffer_split b es shs rhos i e :
  block_building b es shs rhos -> es !! i = Some e -> exists sh D,
    shs !! i = Some sh /\ bb_buffer_ b = concat (take i (encoded shs es)) ++ encode_entry sh e ++ D /\
    offset_of shs es (S i) = (offset_of shs es i + length (encode_entry sh e))%nat.
Proof.
  intros Hb He. pose proof (bd_len _ _ _ _ Hb) as Hlen. assert (Hi := lookup_lt_Some _ _ _ He).
  destruct (lookup_lt_is_Some_2 shs i ltac:(lia)) as [sh Hsh].
  assert (HE : encoded shs es !! i = Some (encode_entry sh e)) by (unfold encoded; rewrite lookup_zip_with, Hsh; cbn; by rewrite He).
  exists sh, (concat (drop (S i) (encoded shs es))). split; [done|]. split.
  - rewrite (bd_buffer _ _ _ _ Hb). rewrite <- (take_drop_middle _ _ _ HE) at 1. by rewrite concat_app.
  - unfold offset_of. rewrite (take_S_r _ _ _ HE), concat_app, length_app. cbn. rewrite app_nil_r. lia.
Qed.

Lemma building_entry b es shs rhos tail i e :
  block_building b es shs rhos -> bsize (bb_buffer_ b) < 2 ^ 32 -> es !! i = Some e ->
  exists shared non_shared value_length p,
    decodes (bb_buffer_ b ++ tail) (bsize (bb_buffer_ b)) (Z.of_nat (offset_of shs es i)) shared non_shared value_length p /\
    Z.of_nat (offset_of shs es i) < p /\ 0 <= shared <= bsize (key_before es i) /\ 0 <= non_shared /\ 0 <= value_length /\
    fst e = take (Z.to_nat shared) (key_before es i) ++ slice (bb_buffer_ b ++ tail) p non_shared /\
    snd e = slice (bb_buffer_ b ++ tail) (p + non_shared) value_length /\
    Z.of_nat (offset_of shs es (S i)) = p + non_shared + value_length /\
    ((exists j, Z.of_nat j < Z.of_nat (length rhos) /\ nth j rhos 0%nat = i) -> shared = 0).
Proof.
  intros Hb Hsize He. destruct (buffer_split _ _ _ _ _ _ Hb He) as (sh & D & Hsh & Hbuf & Hnext).
  destruct (bd_shared _ _ _ _ Hb i sh e Hsh He) as (Htake & Hle & Hleb). assert (Hi := lookup_lt_Some _ _ _ He).
  set (A := concat (take i (encoded shs es))) in *. assert (HA : offset_of shs es i = length A) by done.
  unfold encode_entry in Hbuf, Hnext. set (H := PutVarint32Varint32Varint32 _ _ _) in *. set (dk := drop sh (fst e)) in *.
  assert (Hdk : bsize dk = bsize (fst e) - Z.of_nat sh) by (unfold dk, bsize; rewrite length_drop; lia).
  pose proof (bd_key_size _ _ _ _ Hb i ltac:(lia)) as Hks.
  assert (HH : (1 <= length H)%nat).
  { unfold H, PutVarint32Varint32Varint32, EncodeVarint32 at 1. rewrite length_app. cbv zeta. split_ifs; cbn; lia. }
  exists (Z.of_nat sh), (bsize dk), (bsize (snd e)), (bsize A + bsize H).
  assert (Hlen : bsize (bb_buffer_ b) = bsize A + bsize H + bsize dk + bsize (snd e) + bsize D).
  { rewrite Hbuf. unfold bsize. rewrite !length_app. lia. }
  rewrite HA, Hnext, HA. rewrite !length_app. change (Z.of_nat (length A)) with (bsize A).
  split; [|split; [|split; [|split; [|split; [|split; [|split; [|split]]]]]]].
  - exists (dk ++ snd e ++ D). split; [|rewrite Hlen; unfold bsize; rewrite !length_app; lia].
    replace (slice _ _ _) with (H ++ dk ++ snd e ++ D).
    + unfold H. rewrite <- Hdk. apply DecodeEntry_encoded; unfold is_u32, bsize in *; rewrite ?length_app; lia.
    + symmetry. apply (slice_mid _ A _ tail); [by rewrite Hbuf, <- !app_assoc|done|].
      unfold bsize in *. rewrite !length_app. lia.
  - unfold bsize. lia.
  - unfold bsize. lia.
  - unfold bsize. lia.
  - unfold bsize. lia.
  - rewrite Nat2Z.id, <- Htake, (slice_mid _ (A ++ H) dk (snd e ++ D ++ tail)).
    + symmetry. apply take_drop.
    + by rewrite Hbuf, <- !app_assoc.
    + unfold bsize. rewrite length_app. lia.
    + done.
  - symmetry. apply (slice_mid _ (A ++ H ++ dk) _ (D ++ tail)); [by rewrite Hbuf, <- !app_assoc| |done].
    unfold bsize. rewrite !length_app. lia.
  - unfold bsize. lia.
  - intros (j & Hj & Hjr). destruct (lookup_lt_is_Some_2 rhos j ltac:(lia)) as [r Hr].
    rewrite (nth_lookup_Some _ _ _ _ Hr) in Hjr. subst r. pose proof (bd_shared_restart _ _ _ _ Hb i j Hr Hi). naive_solver.
Qed.

Lemma building_layout b es shs rhos :
  block_building b es shs rhos -> bsize (bb_buffer_ (BlockBuilder_Finish b)) < 2 ^ 32 ->
  layout (bb_buffer_ (BlockBuilder_Finish b)) (bsize (bb_buffer_ b)) (Z.of_nat (length rhos)) es
    (fun i => Z.of_nat (offset_of shs es i)) (fun j => nth j rhos 0%nat).
Proof.
  intros Hb Hsize. pose proof (bd_len _ _ _ _ Hb) as Hlen. rewrite Finish_buffer in *.
  assert (Hnr : length (bb_restarts_ b) = length rhos) by (rewrite (bd_restarts _ _ _ _ Hb); by rewrite length_fmap).
  assert (Hsz : bsize (bb_buffer_ b) + 4 * Z.of_nat (length rhos) + 4 < 2 ^ 32).
  { unfold bsize in *. rewrite !length_app, length_restart_array, Hnr in Hsize. unfold PutFixed32 in Hsize. rewrite length_EncodeFixed32 in Hsize. lia. }
  pose proof (bd_first _ _ _ _ Hb) as Hfirst. assert (Hpos := lookup_lt_Some _ _ _ Hfirst).
  assert (Hnth : forall j, (j < length rhos)%nat -> rhos !! j = Some (nth j rhos 0%nat)).
  { intros j Hj. destruct (lookup_lt_is_Some_2 rhos j Hj) as [r Hr]. by rewrite (nth_lookup_Some _ _ _ _ Hr). }
  assert (Hoff : forall i, (i <= length es)%nat -> Z.of_nat (offset_of shs es i) <= bsize (bb_buffer_ b)).
  { intros i Hi. unfold offset_of, bsize. rewrite (bd_buffer _ _ _ _ Hb).
    rewrite <- (take_drop i (encoded shs es)) at 2. rewrite concat_app, length_app. lia. }
  split.
  - done.
  - rewrite offset_of_all by done. by rewrite (bd_buffer _ _ _ _ Hb).
  - lia.
  - unfold bsize in Hsz. lia.
  - intros i e He. eapply building_entry; [done| |done]. lia.
  - intros j Hj. assert (Hj' := Hnth j ltac:(lia)). split.
    + assert (Hres : bb_restarts_ b !! j = Some (Z.of_nat (offset_of shs es (nth j rhos 0%nat))))
        by (rewrite (bd_restarts _ _ _ _ Hb), list_lookup_fmap, Hj'; done).
      replace (Z.to_nat (bsize (bb_buffer_ b) + Z.of_nat j * 4)) with (length (bb_buffer_ b) + 4 * j)%nat by (unfold bsize; lia).
      rewrite <- drop_drop, drop_app_length. apply restart_array_lookup; [done|].
      assert (Hle : (nth j rhos 0 <= length es)%nat).
      { destruct j as [|j]; [rewrite Hfirst in Hj'; injection Hj' as E; rewrite <- E; lia|]. apply Nat.lt_le_incl. by apply (bd_rhos_lt _ _ _ _ Hb (S j)); [lia|]. }
      pose proof (Hoff (nth j rhos 0%nat) Hle). unfold is_u32. lia.
    + destruct j as [|j]; [|left; by apply (bd_rhos_lt _ _ _ _ Hb (S j)); [lia|]].
      rewrite Hfirst in Hj'. injection Hj' as E. rewrite <- E. destruct (length es); [right; done|left; lia].
  - specialize (Hnth 0%nat Hpos). congruence.
  - intros j j' Hj Hj'. apply (bd_rhos _ _ _ _ Hb j j'); [done|apply Hnth; lia..].
Qed.

(** ** The reader's view of it *)

Definition built (interval : Z) (delta : bool) (es : list entry) : bytes :=
  bb_buffer_ (BlockBuilder_Finish (add_all es (BlockBuilder_new interval delta))).

Lemma DecodeFixed32_nil v : is_u32 v -> DecodeFixed32 (PutFixed32 v) = v.
Proof. intros Hv. rewrite <- (app_nil_r (PutFixed32 v)). by apply DecodeFixed32_app. Qed.

(** The constructor finds the restart array, and the iterator starts outside. *)
Lemma NewIterator_built b es shs rhos :
  block_building b es shs rhos -> bsize (bb_buffer_ (BlockBuilder_Finish b)) < 2 ^ 32 ->
  NewIterator None true (Block_new (bb_buffer_ (BlockBuilder_Finish b)) kDisableGlobalSequenceNumber) =
  inr (Initialize (bb_buffer_ (BlockBuilder_Finish b)) (bsize (bb_buffer_ b)) (Z.of_nat (length rhos)) None
         kDisableGlobalSequenceNumber BlockIter_new).
Proof.
  intros Hb Hsize. rewrite Finish_buffer in *. set (data := bb_buffer_ b ++ _ ++ _) in *.
  assert (Hnr : length (bb_restarts_ b) = length rhos) by (rewrite (bd_restarts _ _ _ _ Hb); by rewrite length_fmap).
  assert (Hpos : (0 < length rhos)%nat) by (by eapply lookup_lt_Some, (bd_first _ _ _ _ Hb)).
  assert (Hsz : bsize data = bsize (bb_buffer_ b) + 4 * Z.of_nat (length rhos) + 4).
  { unfold data, bsize. rewrite !length_app, length_restart_array, Hnr. unfold PutFixed32. rewrite length_EncodeFixed32. lia. }
  assert (Hb0 : 0 <= bsize (bb_buffer_ b)) by (unfold bsize; lia).
  assert (Hnum : NumRestarts_of data (bsize data) = Z.of_nat (length rhos)).
  { unfold NumRestarts_of. replace (Z.to_nat (bsize data - 4)) with (length (bb_buffer_ b ++ restart_array (bb_restarts_ b))).
    - unfold data. rewrite app_assoc, drop_app_length, DecodeFixed32_nil, Hnr; [apply u32_id; lia|].
      rewrite Hnr. unfold u32, is_u32. apply Z.mod_pos_bound. lia.
    - rewrite length_app, length_restart_array, Hnr. unfold bsize in *. lia. }
  unfold Block_new. cbv zeta. rewrite (proj2 (Z.ltb_ge _ _)) by lia. rewrite Hnum.
  assert (Hro : u32 (u64 (u32 (bsize data) - u64 (u32 (1 + Z.of_nat (length rhos)) * 4))) = bsize (bb_buffer_ b)).
  { rewrite (u32_id (bsize data)), (u32_id (1 + _)) by lia. unfold u64. rewrite (Z.mod_small (_ * 4)) by lia.
    rewrite Z.mod_small by lia. rewrite u32_id by lia. lia. }
  rewrite Hro, Z.gtb_ltb, (proj2 (Z.ltb_ge _ _)) by lia. unfold NewIterator, NumRestarts.
  cbn [block_size_ block_contents restart_offset_ block_global_seqno_]. rewrite Hnum.
  rewrite (proj2 (Z.ltb_ge _ _)) by lia. rewrite (proj2 (Z.eqb_neq _ _)) by lia. done.
Qed.

Section Main.
Context {c : Comparator} {valid : bytes -> Prop} {Ho : CompareOrder c valid}.

Lemma StronglySorted_key_sorted es : StronglySorted (fun a b => Compare (fst a) (fst b) < 0) es -> key_sorted es.
Proof.
  induction 1 as [|e es Hs IH He]; intros i j a b Hij Ha Hb; [done|].
  destruct j as [|j]; [lia|]. cbn in Hb. destruct i as [|i]; cbn in Ha.
  - injection Ha as <-. rewrite Forall_forall in He. apply He. by eapply list_elem_of_lookup_2.
  - apply (IH i j); [lia|done|done].
Qed.

Lemma block_at_built interval delta es it :
  1 <= interval -> StronglySorted (fun a b => Compare (fst a) (fst b) < 0) es -> (forall e, e ∈ es -> valid (fst e)) ->
  bsize (built interval delta es) < 2 ^ 32 ->
  NewIterator None true (Block_new (built interval delta es) kDisableGlobalSequenceNumber) = inr it ->
  block_at (valid := valid) it es None /\ scan (length es) (SeekToFirst it) = es.
Proof.
  intros Hi Hs Hv Hsize Hit. unfold built in *. set (b := add_all es _) in *.
  assert (Hsize' : bsize (bb_buffer_ b) < 2 ^ 32).
  { rewrite Finish_buffer in Hsize. unfold bsize in *. rewrite length_app in Hsize. lia. }
  destruct (add_all_building es _ _ _ _ (building_new interval delta Hi) Hsize') as (shs & rhos & Hb). cbn [app] in Hb. fold b in Hb.
  pose proof (building_layout _ _ _ _ Hb Hsize) as Hlay. rewrite (NewIterator_built _ _ _ _ Hb Hsize) in Hit.
  injection Hit as <-. set (it := Initialize _ _ _ _ _ _). pose proof (StronglySorted_key_sorted _ Hs) as Hks.
  assert (Hout : out (bb_buffer_ (BlockBuilder_Finish b)) (bsize (bb_buffer_ b)) (Z.of_nat (length rhos)) es
    (fun i => Z.of_nat (offset_of shs es i)) it).
  { split; [|done]. split; [done|]. exists 0%nat. by intros m ce Hm. }
  split.
  - eexists _, _, _, _, _. split; [exact Hlay|]. done.
  - rewrite (scan_position _ _ _ _ _ _ Hlay Hks Hv (length es) _ 0%nat); [done| |lia].
    eapply first_position; [exact Hlay|]. apply Hout.
Qed.
End Main.

(** C16: What a block builder writes, a block iterator reads.  Let a builder with any
    restart interval, with or without delta encoding, be given entries in strictly
    increasing key order, and let the finished block be smaller than 4 GB.  Its size
    is then exactly the builder's estimate, the reader accepts it, and the iterator
    keeps the contract of internal_iterator.h for those entries: binary search in the
    restart array, linear scans, and backward moves with their cache all end at the
    entry the contract asks for.  A scan from the start gives back the entries. *)
Theorem block_iterator_refines {c : Comparator} (valid : bytes -> Prop) interval delta es :
  CompareOrder c valid -> 1 <= interval -> StronglySorted (fun a b => Compare (fst a) (fst b) < 0) es ->
  (forall e, e ∈ es -> valid (fst e)) -> bsize (built interval delta es) < 2 ^ 32 ->
  CurrentSizeEstimate (add_all es (BlockBuilder_new interval delta)) = bsize (built interval delta es) /\
  IteratorOk valid (block_at (valid := valid)) /\
  exists it, NewIterator None true (Block_new (built interval delta es) kDisableGlobalSequenceNumber) = inr it /\
    block_at (valid := valid) it es None /\ scan (length es) (SeekToFirst it) = es.
Proof.
  intros Ho Hi Hs Hv Hsize.
  assert (Hsize' : bsize (bb_buffer_ (add_all es (BlockBuilder_new interval delta))) < 2 ^ 32).
  { unfold built in Hsize. rewrite Finish_buffer in Hsize. unfold bsize in *. rewrite length_app in Hsize. lia. }
  destruct (add_all_building es _ _ _ _ (building_new interval delta Hi) Hsize') as (shs & rhos & Hb).
  split; [|split; [apply BlockIter_ok|]].
  - unfold CurrentSizeEstimate. rewrite (bd_estimate _ _ _ _ Hb). unfold built, bsize. rewrite Finish_buffer, !length_app, length_restart_array.
    unfold PutFixed32. rewrite length_EncodeFixed32. lia.
  - pose proof (NewIterator_built _ _ _ _ Hb Hsize) as Hit. eexists. split; [exact Hit|]. by eapply block_at_built.
Qed.

(** Scanning a block terminates, whatever bytes it holds.  Every successful parse
    moves on by at least three bytes, also when the stored lengths overflow, so the
    loops of [Seek], [SeekToLast] and [Prev] over the entries end after at most as
    many turns as there are bytes before the restart array: more fuel than that
    changes nothing. *)
Theorem block_scan_terminates {c : Comparator} it target original k :
  0 <= bi_restarts it < 2 ^ 32 ->
  seek_loop (loop_fuel it + k) target it = seek_loop (loop_fuel it) target it /\
  last_loop (loop_fuel it + k) it = last_loop (loop_fuel it) it /\
  prev_loop (loop_fuel it + k) original it = prev_loop (loop_fuel it) original it.
Proof.
  intros HR. assert (Hf : remaining it < Z.of_nat (loop_fuel it) /\ (0 < loop_fuel it)%nat).
  { unfold remaining, loop_fuel, NextEntryOffset, u32. pose proof (Z.mod_pos_bound (fst (bi_value it) + snd (bi_value it)) (2 ^ 32) ltac:(lia)). lia. }
  destruct Hf. split; [by apply seek_loop_fuel|]. split; [by apply last_loop_fuel|by apply prev_loop_fuel].
Qed.

#[local] Existing Instance Bytewise.BytewiseComparator.

Module BlockRuns.
Definition bs (l : list Z) : bytes := byte_of_Z <$> l.
Definition es : list entry :=
  [(bs [1; 2; 3], bs [9]); (bs [1; 2; 4], bs [8; 8]); (bs [1; 3], bs []); (bs [1; 3; 5; 7], bs [7]); (bs [2], bs [6])].
End BlockRuns.

Lemma block_iterator_refines_witness :
  exists it, NewIterator None true (Block_new (built 2 true BlockRuns.es) kDisableGlobalSequenceNumber) = inr it /\
    scan 5 (SeekToFirst it) = BlockRuns.es /\
    bi_key (bi_Prev (bi_Seek (BlockRuns.bs [1; 3; 1]) it)) = BlockRuns.bs [1; 3].
Proof.
  destruct (block_iterator_refines (fun _ => True) 2 true BlockRuns.es) as (_ & _ & it & Hit & _ & Hscan).
  - exact _.
  - lia.
  - repeat (constructor; [|repeat (constructor; [vm_compute; reflexivity|]); constructor]). constructor.
  - done.
  - vm_compute. reflexivity.
  - exists it. split; [exact Hit|]. split; [exact Hscan|]. vm_compute in Hit. injection Hit as <-. vm_compute. reflexivity.
Defined.

(** A block of one entry whose lengths do not fit. *)
Lemma block_scan_terminates_witness :
  let it := Initialize (BlockRuns.bs [0; 9; 9; 1; 2; 3; 0; 0; 0; 0; 1; 0; 0; 0]) 6 1 None kDisableGlobalSequenceNumber BlockIter_new in
  last_loop (loop_fuel it + 1) (SeekToRestartPoint 0 it) = last_loop (loop_fuel it) (SeekToRestartPoint 0 it) /\
  bi_status (bi_SeekToLast it) = Corruption "bad entry in block".
Proof.
  intros it. split; [|vm_compute; reflexivity].
  refine (proj1 (proj2 (block_scan_terminates (SeekToRestartPoint 0 it) [] 0 1 _))). vm_compute. split; congruence.
Defined.
