(* ===== verification/CompactionIterator.v ===== *)
(** * The compaction iterator (db/compaction_iterator.{h,cc}, db/compaction.cc)

    A compaction writes what this iterator returns.  It reads the merged input in the
    order of the internal keys, and drops what no snapshot can see: versions that a
    newer one hides in the same snapshot stripe, deletions that hide nothing any
    more, and single deletions together with what they delete.

    The input is any [InternalIterator].  The merge helper, the aggregator of range
    deletions, the compaction filter and the shutdown flag are arguments
    ([CompactionEnv]); the test for keys in deeper levels is
    Compaction::KeyNotExistsBeyondOutputLevel, with the file ranges of those levels.
    Statistics, the event listener and the pinning of memory are left out.  The key
    that the iterator returns is a slice of its own copy of the key
    ([current_key_]), so that a change of the copy changes the key. *)

From S2P Require Import Prelude Coding DbFormat Iterators.
From stdpp Require Import base list strings.
From Stdlib Require Import ZArith Lia.
#[local] Open Scope Z_scope.

(** ** Deeper levels *)

(** The files of a level by their smallest and largest user keys. *)
Notation level_files := (list (bytes * bytes)) (only parsing).

(** What the iterator uses of the compaction.  [cp_beyond] has the levels below the
    output level. *)
Record CompactionProxy := mkProxy {
  cp_level : Z;
  cp_universal : bool;
  cp_bottommost : bool;
  cp_beyond : list level_files;
  cp_largest_user_key : bytes;
  cp_allow_ingest_behind : bool
}.

Section KeyNotExists.
Context {ucmp : Comparator}.

(** The inner loop over one level from the file [ptr] on: where it stops, and
    whether the key is in the range of a file. *)
Fixpoint level_scan (user_key : bytes) (files : level_files) (ptr : nat) : nat * bool :=
  match files with
  | [] => (ptr, false)
  | (smallest, largest) :: files =>
      if Compare user_key largest <=? 0 then (ptr, Compare user_key smallest >=? 0)
      else level_scan user_key files (S ptr)
  end.

(** The levels in order, with the pointers into them. *)
Fixpoint levels_scan (user_key : bytes) (levels : list level_files) (level_ptrs : list nat) : bool * list nat :=
  match levels, level_ptrs with
  | files :: levels, ptr :: level_ptrs =>
      let '(ptr, found) := level_scan user_key (drop ptr files) ptr in
      if found then (false, ptr :: level_ptrs)
      else
        let '(r, level_ptrs) := levels_scan user_key levels level_ptrs in
        (r, ptr :: level_ptrs)
  | _, _ => (true, level_ptrs)
  end.

Definition KeyNotExistsBeyondOutputLevel (cp : CompactionProxy) (user_key : bytes) (level_ptrs : list nat)
  : bool * list nat :=
  if cp_universal cp then (cp_bottommost cp, level_ptrs) else levels_scan user_key (cp_beyond cp) level_ptrs.
End KeyNotExists.

(** ** The arguments *)

Inductive Decision :=
| kKeep | kRemove | kChangeValue (new_value : bytes) | kRemoveAndSkipUntil (skip_until : bytes).

Record CompactionFilter := mkFilter {
  IgnoreSnapshots : bool;
  FilterV2 : Z -> bytes -> bytes -> Decision
}.

(** What [MergeUntil] leaves: its status, the records of the merge output in the
    order in which they are returned, the input after the merged records, and the
    key to skip to. *)
Record MergeResult (I : Type) := mkMergeResult {
  mr_status : Status;
  mr_records : list (bytes * bytes);
  mr_input : I;
  mr_filtered_until : option bytes
}.
Arguments mkMergeResult {I}.
Arguments mr_status {I}.
Arguments mr_records {I}.
Arguments mr_input {I}.
Arguments mr_filtered_until {I}.

Record CompactionEnv (I : Type) := mkEnv {
  snapshots_ : list Z;
  earliest_write_conflict_snapshot_ : Z;
  expect_valid_internal_key_ : bool;
  compaction_ : option CompactionProxy;
  compaction_filter_ : option CompactionFilter;
  HasOperator : bool;
  MergeUntil : I -> Z -> bool -> MergeResult I;
  ShouldDelete : bytes -> bool;
  shutting_down_ : nat -> bool
}.
Arguments mkEnv {I}.
Arguments snapshots_ {I}.
Arguments earliest_write_conflict_snapshot_ {I}.
Arguments expect_valid_internal_key_ {I}.
Arguments compaction_ {I}.
Arguments compaction_filter_ {I}.
Arguments HasOperator {I}.
Arguments MergeUntil {I}.
Arguments ShouldDelete {I}.
Arguments shutting_down_ {I}.

(** ** State *)

(** [ci_polls] counts the reads of the shutdown flag; [ci_merge_out] are the records of
    the merge output from the current one on. *)
Record CompactionIterator (I : Type) := mkCI {
  ci_input : I;
  ci_bottommost_level : bool;
  ci_valid : bool;
  ci_visible_at_tip : bool;
  ci_earliest_snapshot : Z;
  ci_latest_snapshot : Z;
  ci_ignore_snapshots : bool;
  ci_value : bytes;
  ci_status : Status;
  ci_ikey : ParsedInternalKey;
  ci_has_current_user_key : bool;
  ci_at_next : bool;
  ci_current_key : bytes;
  ci_current_user_key : bytes;
  ci_current_user_key_sequence : Z;
  ci_current_user_key_snapshot : Z;
  ci_has_outputted_key : bool;
  ci_clear_and_output_next_key : bool;
  ci_merge_out : list (bytes * bytes);
  ci_level_ptrs : list nat;
  ci_polls : nat;
  ci_asserts : bool
}.
Arguments mkCI {I}.
Arguments ci_input {I}.
Arguments ci_bottommost_level {I}.
Arguments ci_valid {I}.
Arguments ci_visible_at_tip {I}.
Arguments ci_earliest_snapshot {I}.
Arguments ci_latest_snapshot {I}.
Arguments ci_ignore_snapshots {I}.
Arguments ci_value {I}.
Arguments ci_status {I}.
Arguments ci_ikey {I}.
Arguments ci_has_current_user_key {I}.
Arguments ci_at_next {I}.
Arguments ci_current_key {I}.
Arguments ci_current_user_key {I}.
Arguments ci_current_user_key_sequence {I}.
Arguments ci_current_user_key_snapshot {I}.
Arguments ci_has_outputted_key {I}.
Arguments ci_clear_and_output_next_key {I}.
Arguments ci_merge_out {I}.
Arguments ci_level_ptrs {I}.
Arguments ci_polls {I}.
Arguments ci_asserts {I}.

#[export] Instance eta_CI I : Settable (CompactionIterator I) := fun m =>
  mkCI (ci_input m) (ci_bottommost_level m) (ci_valid m) (ci_visible_at_tip m) (ci_earliest_snapshot m)
    (ci_latest_snapshot m) (ci_ignore_snapshots m) (ci_value m) (ci_status m) (ci_ikey m) (ci_has_current_user_key m)
    (ci_at_next m) (ci_current_key m) (ci_current_user_key m) (ci_current_user_key_sequence m)
    (ci_current_user_key_snapshot m) (ci_has_outputted_key m) (ci_clear_and_output_next_key m) (ci_merge_out m)
    (ci_level_ptrs m) (ci_polls m) (ci_asserts m).

Definition set_type (t : Z) (k : ParsedInternalKey) : ParsedInternalKey := mkParsed (user_key k) (sequence k) t.
Definition set_sequence (s : Z) (k : ParsedInternalKey) : ParsedInternalKey := mkParsed (user_key k) s (type k).
Definition set_user_key (u : bytes) (k : ParsedInternalKey) : ParsedInternalKey := mkParsed u (sequence k) (type k).

(** ** Operations *)

(** [ParseInternalKey(key, &result)]: whether the key is well formed, and what
    [result] holds afterwards; a bad type is stored there too. *)
Definition ParseInto (internal_key : bytes) (result : ParsedInternalKey) : bool * ParsedInternalKey :=
  let n := length internal_key in
  if (n <? 8)%nat then (false, result)
  else
    let num := key_footer internal_key in
    let c := Z.land num 255 in
    let result := mkParsed (take (n - 8) internal_key) (Z.shiftr num 8) c in
    (IsExtendedValueType (type result), result).

(** How one pass of the loop of [NextFromInput] ends: with the test of the loop, after
    the loop, or out of the function. *)
Inductive LoopControl := Continue | Break | Return.

Section Operations.
Context {ucmp : Comparator} {I : Type} `{InternalIterator I} (env : CompactionEnv I).
#[local] Notation CI := (CompactionIterator I).

Definition Equal (a b : bytes) : bool := Compare a b =? 0.

Definition ci_assert (b : bool) (ci : CI) : CI := ci <| ci_asserts ::= andb b |>.

(** The constructor.  [ikey_] and [current_key_] are set before they are read. *)
Definition CompactionIterator_new (input : I) : CI :=
  let bottommost := match compaction_ env with None => false | Some cp => cp_bottommost cp end in
  let level_ptrs := match compaction_ env with None => [] | Some cp => replicate (length (cp_beyond cp)) 0%nat end in
  let '(visible_at_tip, earliest, latest) :=
    match snapshots_ env with
    | [] => (true, kMaxSequenceNumber, 0)
    | s :: _ => (false, s, List.last (snapshots_ env) 0)
    end in
  let ignore_snapshots := match compaction_filter_ env with None => false | Some f => IgnoreSnapshots f end in
  mkCI input bottommost false visible_at_tip earliest latest ignore_snapshots [] OK (mkParsed [] kMaxSequenceNumber 0)
    false false [] [] 0 0 false false [] level_ptrs 0
    (match compaction_filter_ env, compaction_ env with Some _, None => false | _, _ => true end).

(** The earliest snapshot that sees the sequence number, and the one before it, 0 when
    there is none. *)
Fixpoint find_snapshot (in_ prev : Z) (snapshots : list Z) : Z * Z :=
  match snapshots with
  | [] => (kMaxSequenceNumber, prev)
  | cur :: snapshots =>
      if cur >=? in_ then (cur, if prev =? kMaxSequenceNumber then 0 else prev)
      else find_snapshot in_ cur snapshots
  end.
Definition findEarliestVisibleSnapshot (in_ : Z) : Z * Z := find_snapshot in_ kMaxSequenceNumber (snapshots_ env).

Definition IsShuttingDown (ci : CI) : bool * CI := (shutting_down_ env (ci_polls ci), ci <| ci_polls ::= S |>).

(** [compaction_ != nullptr && ikey_.sequence <= earliest_snapshot_ &&
    compaction_->KeyNotExistsBeyondOutputLevel(ikey_.user_key, &level_ptrs_)] *)
Definition obsolete (ci : CI) : bool * CI :=
  match compaction_ env with
  | None => (false, ci)
  | Some cp =>
      if sequence (ci_ikey ci) <=? ci_earliest_snapshot ci then
        let '(r, ptrs) := KeyNotExistsBeyondOutputLevel cp (user_key (ci_ikey ci)) (ci_level_ptrs ci) in
        (r, ci <| ci_level_ptrs := ptrs |>)
      else (false, ci)
  end.

(** [current_key_.UpdateInternalKey]: the sequence number and the type change in place. *)
Definition update_current_key (seq t : Z) (ci : CI) : CI :=
  ci <| ci_current_key ::= fun k => UpdateInternalKey k seq t |>.

(** What the filter decides, without a skip that does not go forward. *)
Definition filter_decision (f : CompactionFilter) (level : Z) (ci : CI) : Decision :=
  let filter := FilterV2 f level (user_key (ci_ikey ci)) (ci_value ci) in
  match filter with
  | kRemoveAndSkipUntil u => if Compare u (user_key (ci_ikey ci)) <=? 0 then kKeep else filter
  | _ => filter
  end.

(** The compaction filter on the first occurrence of a user key, with the internal key
    to skip to. *)
Definition apply_filter (ci : CI) : option bytes * CI :=
  match compaction_filter_ env, compaction_ env with
  | Some f, Some cp =>
      if (type (ci_ikey ci) =? kTypeValue) &&
         (ci_visible_at_tip ci || (sequence (ci_ikey ci) >? ci_latest_snapshot ci) || ci_ignore_snapshots ci) then
        match filter_decision f (cp_level cp) ci with
        | kKeep => (None, ci)
        | kRemove =>
            (None, update_current_key (sequence (ci_ikey ci)) kTypeDeletion ci
                     <| ci_ikey ::= set_type kTypeDeletion |> <| ci_value := [] |>)
        | kChangeValue v => (None, ci <| ci_value := v |>)
        | kRemoveAndSkipUntil u => (Some (AppendInternalKey [] (mkParsed u kMaxSequenceNumber kValueTypeForSeek)), ci)
        end
      else (None, ci)
  | _, _ => (None, ci)
  end.

(** The first occurrence of a user key: the key is copied, and the filter asked. *)
Definition first_occurrence (k : bytes) (ci : CI) : option bytes * CI :=
  apply_filter (ci <| ci_current_key := k |> <| ci_current_user_key := user_key (ci_ikey ci) |>
    <| ci_has_current_user_key := true |> <| ci_has_outputted_key := false |>
    <| ci_current_user_key_sequence := kMaxSequenceNumber |> <| ci_current_user_key_snapshot := 0 |>).

(** The parsed key [ci_ikey] takes the place of the key before it. *)
Definition next_user_key (k : bytes) (ci : CI) : option bytes * CI :=
  if negb (ci_has_current_user_key ci) || negb (Equal (user_key (ci_ikey ci)) (ci_current_user_key ci)) then
    first_occurrence k ci
  else
    let ci := update_current_key (sequence (ci_ikey ci)) (type (ci_ikey ci)) ci in
    (None, ci <| ci_ikey ::= set_user_key (ExtractUserKey (ci_current_key ci)) |>).

(** The snapshot stripe of the key: the state, and the snapshots of the last key and
    before this one. *)
Definition next_snapshot (ci : CI) : Z * Z * CI :=
  let last_snapshot := ci_current_user_key_snapshot ci in
  let '(snapshot, prev_snapshot) :=
    if ci_visible_at_tip ci then (ci_earliest_snapshot ci, 0)
    else findEarliestVisibleSnapshot (sequence (ci_ikey ci)) in
  (last_snapshot, prev_snapshot,
   ci <| ci_current_user_key_sequence := sequence (ci_ikey ci) |> <| ci_current_user_key_snapshot := snapshot |>).

(** A single deletion.  The input is already at the entry after it. *)
Definition single_deletion_alone (ci : CI) : CI :=
  let '(drop_it, ci) := obsolete (ci <| ci_has_current_user_key := false |>) in
  if drop_it then ci else ci <| ci_valid := true |>.

Definition single_deletion_match (prev_snapshot : Z) (next_ikey : ParsedInternalKey) (ci : CI) : CI :=
  if (prev_snapshot =? 0) || (sequence next_ikey >? prev_snapshot) then
    if type next_ikey =? kTypeSingleDeletion then ci
    else if (sequence (ci_ikey ci) <=? earliest_write_conflict_snapshot_ env) || ci_has_outputted_key ci then
      ci <| ci_input ::= Next |>
    else ci <| ci_valid := true |> <| ci_clear_and_output_next_key := true |>
  else ci <| ci_valid := true |>.

Definition single_deletion (prev_snapshot : Z) (ci : CI) : CI :=
  let ci := ci <| ci_input ::= Next |> in
  let next_ikey := if Valid (ci_input ci) then ParseInternalKey (key (ci_input ci)) else None in
  let ci :=
    match next_ikey with
    | Some next_ikey =>
        if Equal (user_key (ci_ikey ci)) (user_key next_ikey) then single_deletion_match prev_snapshot next_ikey ci
        else single_deletion_alone ci
    | None => single_deletion_alone ci
    end in
  if ci_valid ci then ci <| ci_at_next := true |> else ci.

(** The current record of the merge output becomes the output. *)
Definition merge_output (r : entry) (ci : CI) : CI :=
  let '(valid_key, ikey) := ParseInto (fst r) (ci_ikey ci) in
  let ci := ci_assert valid_key (ci <| ci_value := snd r |> <| ci_ikey := ikey |>) in
  let ci := update_current_key (sequence ikey) (type ikey) ci in
  ci <| ci_ikey ::= set_user_key (ExtractUserKey (ci_current_key ci)) |> <| ci_valid := true |>.

(** A merge operand: the merge helper takes it from here. *)
Definition merge_operand (prev_snapshot : Z) (ci : CI) : LoopControl * CI :=
  if negb (HasOperator env) then (Return, ci <| ci_status := InvalidArgument "merge_operator is not properly initialized."%string |>)
  else
    let r := MergeUntil env (ci_input ci) prev_snapshot (ci_bottommost_level ci) in
    let ci := ci <| ci_input := mr_input r |> <| ci_merge_out := mr_records r |> in
    if negb (ok (mr_status r)) && negb (bool_decide (code (mr_status r) = kMergeInProgress)) then
      (Return, ci <| ci_status := mr_status r |>)
    else
      match mr_records r with
      | rec :: _ => (Continue, merge_output rec ci)
      | [] =>
          let ci := ci <| ci_has_current_user_key := false |> in
          (Continue, match mr_filtered_until r with Some u => ci <| ci_input ::= Seek u |> | None => ci end)
      end.

(** A new user key, or a new stripe, that is neither merged nor deleted. *)
Definition plain_output (ci : CI) : CI :=
  if ShouldDelete env (ci_current_key ci) then ci <| ci_input ::= Next |> else ci <| ci_valid := true |>.

(** What becomes of the key, by the order of the tests. *)
Definition dispatch (last_sequence last_snapshot prev_snapshot : Z) (ci : CI) : LoopControl * CI :=
  if ci_clear_and_output_next_key ci then
    let ci := ci_assert (type (ci_ikey ci) =? kTypeValue)
                (ci_assert (ci_current_user_key_snapshot ci =? last_snapshot) ci) in
    (Continue, ci <| ci_value := [] |> <| ci_valid := true |> <| ci_clear_and_output_next_key := false |>)
  else if type (ci_ikey ci) =? kTypeSingleDeletion then (Continue, single_deletion prev_snapshot ci)
  else if last_snapshot =? ci_current_user_key_snapshot ci then
    (Continue, ci_assert (last_sequence >=? ci_current_user_key_sequence ci) ci <| ci_input ::= Next |>)
  else
    let '(drop_it, ci) := if type (ci_ikey ci) =? kTypeDeletion then obsolete ci else (false, ci) in
    if drop_it then (Continue, ci <| ci_input ::= Next |>)
    else if type (ci_ikey ci) =? kTypeMerge then merge_operand prev_snapshot ci
    else (Continue, plain_output ci).

(** A key that does not parse. *)
Definition corrupt_key (k : bytes) (ci : CI) : CI :=
  if expect_valid_internal_key_ env then ci_assert false ci <| ci_status := Corruption "Corrupted internal key not expected."%string |>
  else ci <| ci_current_key := k |> <| ci_has_current_user_key := false |>
          <| ci_current_user_key_sequence := kMaxSequenceNumber |> <| ci_current_user_key_snapshot := 0 |>
          <| ci_valid := true |>.

(** One pass of the loop. *)
Definition next_pass (ci : CI) : LoopControl * CI :=
  let k := key (ci_input ci) in
  let '(parsed, ikey) := ParseInto k (ci_ikey ci) in
  let ci := ci <| ci_value := value (ci_input ci) |> <| ci_ikey := ikey |> in
  if parsed then
    let '(skip_until, ci) := next_user_key k ci in
    let last_sequence := ci_current_user_key_sequence ci in
    let '(last_snapshot, prev_snapshot, ci) := next_snapshot ci in
    match skip_until with
    | Some u => (Continue, ci <| ci_input ::= Seek u |>)
    | None => dispatch last_sequence last_snapshot prev_snapshot ci
    end
  else (Break, corrupt_key k ci).

(** The loop, and what follows it; [None] when the fuel is used up. *)
Definition after_loop (ci : CI) : CI :=
  if ci_valid ci then ci
  else
    let '(down, ci) := IsShuttingDown ci in
    if down then ci <| ci_status := ShutdownInProgress |> else ci.

Fixpoint next_loop (fuel : nat) (ci : CI) : option CI :=
  match fuel with
  | O => None
  | S fuel =>
      if negb (ci_valid ci) && Valid (ci_input ci) then
        let '(down, ci) := IsShuttingDown ci in
        if down then Some (after_loop ci)
        else
          match next_pass ci with
          | (Continue, ci) => next_loop fuel ci
          | (Break, ci) => Some (after_loop ci)
          | (Return, ci) => Some ci
          end
      else Some (after_loop ci)
  end.

Definition NextFromInput (fuel : nat) (ci : CI) : option CI :=
  next_loop fuel (ci <| ci_at_next := false |> <| ci_valid := false |>).

(** On the bottommost level the sequence number becomes 0. *)
Definition PrepareOutput (ci : CI) : CI :=
  match compaction_ env with
  | None => ci
  | Some cp =>
      if negb (cp_allow_ingest_behind cp) && ci_bottommost_level ci && ci_valid ci &&
         (sequence (ci_ikey ci) <=? ci_earliest_snapshot ci) && negb (type (ci_ikey ci) =? kTypeMerge) &&
         negb (Equal (cp_largest_user_key cp) (user_key (ci_ikey ci))) then
        let ci := ci_assert (negb (type (ci_ikey ci) =? kTypeDeletion) && negb (type (ci_ikey ci) =? kTypeSingleDeletion)) ci in
        update_current_key 0 (type (ci_ikey ci)) (ci <| ci_ikey ::= set_sequence 0 |>)
      else ci
  end.

Definition ci_SeekToFirst (fuel : nat) (ci : CI) : option CI := PrepareOutput <$> NextFromInput fuel ci.

(** [ci_merge_out] holds the merge output from its current record on. *)
Definition ci_Next (fuel : nat) (ci : CI) : option CI :=
  let advanced :=
    match ci_merge_out ci with
    | _ :: rest =>
        let ci := ci <| ci_merge_out := rest |> in
        match rest with
        | r :: _ => Some (merge_output r ci)
        | [] => NextFromInput fuel ci
        end
    | [] => NextFromInput fuel (if ci_at_next ci then ci else ci <| ci_input ::= Next |>)
    end in
  (fun ci => PrepareOutput (if ci_valid ci then ci <| ci_has_outputted_key := true |> else ci)) <$> advanced.

(** What the loop of the compaction job and of the flush job reads: the entries, and
    the iterator at the end. *)
Fixpoint ci_drain (fuel : nat) (ci : CI) : option (list entry * CI) :=
  match fuel with
  | O => None
  | S fuel' =>
      if ci_valid ci then
        ci' ← ci_Next fuel' ci; '(l, e) ← ci_drain fuel' ci'; Some ((ci_current_key ci, ci_value ci) :: l, e)
      else Some ([], ci)
  end.

Definition ci_outputs (fuel : nat) (input : I) : option (list entry * CI) :=
  ci ← ci_SeekToFirst fuel (CompactionIterator_new input); ci_drain fuel ci.
End Operations.
