(* ===== verification/CompactionReads.v ===== *)
(** * What a compaction may do with the versions of a key

    The abstract side of the compaction iterator: snapshot stripes, reads of a run of
    versions at a snapshot, and the relation [compacts] of the steps a compaction may
    take.  Every result of such steps is sorted, and answers every read at a live
    snapshot, and at the tip, like its input over the same deeper levels. *)

From S2P Require Import Prelude Coding DbFormat Iterators CompactionIterator.
From stdpp Require Import base list sorting.
From Stdlib Require Import ZArith Lia.
#[local] Open Scope Z_scope.

(** A parsed internal key and its value. *)
Notation version := (ParsedInternalKey * bytes)%type.

Definition enc (v : version) : entry := (AppendInternalKey [] (fst v), snd v).

(** The stripe of a sequence number is the earliest snapshot that sees it. *)
Fixpoint stripe (snapshots : list Z) (seq : Z) : Z :=
  match snapshots with
  | [] => kMaxSequenceNumber
  | s :: snapshots => if seq <=? s then s else stripe snapshots seq
  end.

Definition earliest (snapshots : list Z) : Z := hd kMaxSequenceNumber snapshots.

(** The snapshots in the order in which SnapshotList::GetAll returns them.  A snapshot
    of sequence number 0 is no snapshot to the iterator. *)
Definition snapshots_ok (snapshots : list Z) : Prop :=
  StronglySorted Z.le snapshots /\ Forall (fun s => 0 < s < kMaxSequenceNumber) snapshots.

Lemma stripe_in snaps seq : stripe snaps seq ∈ snaps \/ stripe snaps seq = kMaxSequenceNumber.
Proof.
  induction snaps as [|s l IH]; cbn [stripe]; [by right|].
  destruct (seq <=? s); [left; left|]. destruct IH; [left; by right|by right].
Qed.

Lemma stripe_ge snaps seq : seq <= kMaxSequenceNumber -> seq <= stripe snaps seq.
Proof. intros Hq. induction snaps as [|y l IH]; cbn [stripe]; [done|]. by destruct (Z.leb_spec seq y). Qed.

Section Stripes.
Context (snaps : list Z) (Hs : snapshots_ok snaps).

Lemma snapshot_bounds s : s ∈ snaps -> 0 < s < kMaxSequenceNumber.
Proof. destruct Hs as [_ Hf]. rewrite Forall_forall in Hf. apply Hf. Qed.

Lemma stripe_pos seq : 0 < stripe snaps seq.
Proof.
  destruct (stripe_in snaps seq) as [Hin| ->]; [by apply snapshot_bounds|]. rewrite kMaxSequenceNumber_value. lia.
Qed.

(** A version is visible in a snapshot when its stripe is. *)
Lemma stripe_visible seq s :
  seq <= kMaxSequenceNumber -> s ∈ snaps \/ s = kMaxSequenceNumber -> seq <= s <-> stripe snaps seq <= s.
Proof.
  destruct Hs as [Hsort Hf]. clear Hs. intros Hq Hin. induction Hsort as [|x l Hsort IH Hx]; cbn [stripe].
  { destruct Hin as [?%not_elem_of_nil| ->]; [done|lia]. }
  apply Forall_cons in Hf as [Hfx Hf]. rewrite Forall_forall in Hx. destruct (Z.leb_spec seq x) as [Hle|Hgt].
  - destruct Hin as [[->|Hin]%elem_of_cons| ->]; [lia|specialize (Hx s Hin); lia|lia].
  - destruct Hin as [[->|Hin]%elem_of_cons| ->]; [|apply IH; [done|by left]|apply IH; [done|by right]].
    split; [lia|]. intros Hst.
    assert (Hgt' : forall l', Forall (fun y => x <= y) l' -> stripe l' seq <= x -> seq <= x).
    { clear -Hfx. intros l' Hl. induction Hl as [|y l' Hy Hl IH]; cbn [stripe]; [lia|].
      destruct (Z.leb_spec seq y); [lia|done]. }
    apply (Hgt' l); [by apply Forall_forall|done].
Qed.

Lemma stripe_mono a b : a <= b -> stripe snaps a <= stripe snaps b.
Proof.
  destruct Hs as [Hsort Hf]. clear Hs. intros Hab. induction Hsort as [|x l Hsort IH Hx]; cbn [stripe]; [lia|].
  apply Forall_cons in Hf as [Hfx Hf]. destruct (Z.leb_spec a x), (Z.leb_spec b x); [lia| |lia|by apply IH].
  rewrite Forall_forall in Hx. destruct (stripe_in l b) as [Hin| ->]; [by apply Hx|lia].
Qed.

Lemma stripe_earliest seq : seq <= kMaxSequenceNumber -> seq <= earliest snaps <-> stripe snaps seq = earliest snaps.
Proof.
  intros Hq. unfold earliest. destruct Hs as [Hsort Hf]. destruct Hsort as [|x l Hsort Hx]; cbn [hd stripe]; [done|].
  apply Forall_cons in Hf as [Hfx _]. destruct (Z.leb_spec seq x) as [|Hgt]; [done|]. split; [lia|].
  intros E. rewrite Forall_forall in Hx.
  pose proof (stripe_ge l seq Hq). lia.
Qed.

Lemma earliest_le s : s ∈ snaps \/ s = kMaxSequenceNumber -> earliest snaps <= s.
Proof.
  unfold earliest. destruct Hs as [Hsort Hf]. destruct Hsort as [|x l Hsort Hx]; cbn [hd].
  - by intros [?%not_elem_of_nil| ->].
  - rewrite Forall_forall in Hx. apply Forall_cons in Hf as [Hfx _].
    intros [[->|Hin]%elem_of_cons| ->]; [done|by apply Hx|lia].
Qed.

(** What [findEarliestVisibleSnapshot] returns. *)
Lemma find_snapshot_stripe seq prev : fst (find_snapshot seq prev snaps) = stripe snaps seq.
Proof.
  clear Hs. revert prev. induction snaps as [|x l IH]; intros prev; cbn [find_snapshot stripe]; [done|].
  rewrite Z.geb_leb. by destruct (seq <=? x).
Qed.

End Stripes.

(** The snapshot before the stripe tells whether an older version is in it too. *)
Lemma find_snapshot_same l seq prev next :
  StronglySorted Z.le l -> Forall (fun s => prev <= s) l -> prev <> kMaxSequenceNumber -> seq <= kMaxSequenceNumber ->
  next <= seq -> prev < seq -> Forall (fun s => s < kMaxSequenceNumber) l ->
  let p := snd (find_snapshot seq prev l) in
  (p < next <-> prev < next /\ stripe l next = stripe l seq) /\ prev <= p < seq.
Proof.
  cbv zeta. intros Hsort. revert prev. induction Hsort as [|x l Hsort IH Hx]; intros prev Hp Hpk Hq Hn Hps Hk;
    cbn [find_snapshot stripe]; [cbn [snd]; lia|].
  apply Forall_cons in Hp as [Hpx Hp]. apply Forall_cons in Hk as [Hkx Hk]. rewrite Z.geb_leb.
  destruct (Z.leb_spec seq x) as [Hle|Hgt].
  - rewrite (proj2 (Z.leb_le next x)) by lia. cbn [snd].
    destruct (Z.eqb_spec prev kMaxSequenceNumber); [done|]. lia.
  - destruct (IH x) as [IHa IHb]; [done|lia|done|done|done|done|]. rewrite IHa. split; [|lia].
    destruct (Z.leb_spec next x) as [Hnx|Hnx]; [|lia]. pose proof (stripe_ge l seq Hq). lia.
Qed.

(** The two results of [next_snapshot]. *)
Definition prev_snapshot_of (snaps : list Z) (seq : Z) : Z :=
  match snaps with [] => 0 | _ => snd (find_snapshot seq kMaxSequenceNumber snaps) end.

Lemma prev_snapshot_same snaps seq next :
  snapshots_ok snaps -> next <= seq <= kMaxSequenceNumber ->
  let p := prev_snapshot_of snaps seq in
  (p = 0 \/ p < next <-> stripe snaps next = stripe snaps seq) /\ (p <> 0 -> earliest snaps < seq).
Proof.
  cbv zeta. intros [Hsort Hf] Hn. destruct Hsort as [|x l Hsort Hx]; [cbn; split; [tauto|lia]|].
  apply Forall_cons in Hf as [Hfx Hf]. unfold prev_snapshot_of, earliest. cbn [find_snapshot stripe hd]. rewrite Z.geb_leb.
  destruct (Z.leb_spec seq x) as [Hle|Hgt].
  - rewrite (proj2 (Z.leb_le next x)) by lia. cbn [snd]. rewrite Z.eqb_refl. split; [tauto|lia].
  - destruct (find_snapshot_same l seq x next) as [Ha Hb]; [done..|lia|lia|lia|done| |].
    { eapply Forall_impl; [exact Hf|]. cbn. lia. }
    split; [|lia]. destruct (Z.leb_spec next x) as [Hnx|Hnx]; [|lia].
    pose proof (stripe_ge l seq (proj2 Hn)). lia.
Qed.

(** ** Runs of versions *)

#[local] Notation uk v := (user_key (fst v)).
#[local] Notation sq v := (sequence (fst v)).
#[local] Notation ty v := (type (fst v)).

Section Runs.
Context {ucmp : Comparator} {Ho : CompareOrder ucmp (fun _ => True)}.

(** User keys that the comparator does not tell apart. *)
Definition same (a b : bytes) : Prop := Is_true (Equal a b).

Lemma same_iff a b : same a b <-> Compare a b = 0.
Proof. unfold same, Equal. by rewrite Is_true_true, Z.eqb_eq. Qed.

#[export] Instance same_dec a b : Decision (same a b) := Is_true_dec _.

#[export] Instance same_equivalence : Equivalence same.
Proof.
  split; intros a; [|intros b|intros b d]; rewrite !same_iff.
  - by apply compare_refl.
  - by rewrite (compare_eq_sym (valid := fun _ => True)).
  - intros Hab Hbd. pose proof (compare_trans a b d Logic.I Logic.I Logic.I).
    pose proof (compare_trans d b a Logic.I Logic.I Logic.I).
    pose proof (compare_antisym a d Logic.I Logic.I).
    pose proof (compare_antisym a b Logic.I Logic.I). pose proof (compare_antisym b d Logic.I Logic.I). lia.
Qed.

Lemma Equal_same a b : Equal a b = bool_decide (same a b).
Proof. case_bool_decide as E; [by apply Is_true_true|]. apply not_true_iff_false. by rewrite <- Is_true_true. Qed.

Lemma same_le a a' b : same a a' -> Compare a b <= 0 -> Compare a' b <= 0.
Proof.
  intros Ha Hb. assert (Ha' : same a' a) by (by symmetry). rewrite same_iff in Ha'.
  apply (compare_trans a' a b); auto; lia.
Qed.

(** The order of a run: by user key, newest version first. *)
Definition before (a b : version) : Prop := ParsedCompare ucmp (fst a) (fst b) < 0.

Lemma before_iff a b :
  before a b <-> Compare (uk a) (uk b) < 0 \/ (same (uk a) (uk b) /\ (sq b < sq a \/ (sq b = sq a /\ ty b < ty a))).
Proof. unfold before, ParsedCompare. rewrite same_iff. cbv zeta. split_ifs; lia. Qed.

Lemma before_user a b : before a b -> Compare (uk a) (uk b) <= 0.
Proof. rewrite before_iff, ?same_iff. lia. Qed.

Lemma before_sequence a b : before a b -> same (uk a) (uk b) -> sq b <= sq a.
Proof. rewrite before_iff, ?same_iff. lia. Qed.

Definition run (l : list version) : Prop :=
  StronglySorted before l /\ Forall (fun v => 0 <= sq v <= kMaxSequenceNumber) l.

Lemma run_cons v l :
  run (v :: l) -> 0 <= sq v <= kMaxSequenceNumber /\ (forall w, w ∈ l -> before v w) /\ run l.
Proof.
  intros [Hs Hf]. inversion Hs as [|? ? Hs' Hv]; subst. apply Forall_cons in Hf as [Hfv Hf].
  rewrite Forall_forall in Hv. split; [done|]. split; [done|]. by split.
Qed.

(** Keys past the head are not met again. *)
Lemma run_past u v l :
  run (v :: l) -> Compare u (uk v) <= 0 -> ~ same u (uk v) -> forall w, w ∈ v :: l -> ~ same u (uk w).
Proof.
  intros (_ & Hv & _)%run_cons Hu Hn w [->|Hw]%elem_of_cons; [done|]. rewrite same_iff in *. intros E.
  pose proof (before_user _ _ (Hv w Hw)).
  pose proof (compare_lt_le_trans u (uk v) (uk w) Logic.I Logic.I Logic.I). lia.
Qed.

(** ** Reads *)

(** The newest version of the user key that a reader at [s] sees. *)
Definition find_version (s : Z) (u : bytes) (l : list version) : option version :=
  List.find (fun v => Equal u (uk v) && (sq v <=? s)) l.

(** A read at [s]: the version of the run decides, or the deeper levels do. *)
Definition read (deeper : Z -> bytes -> option bytes) (s : Z) (u : bytes) (l : list version) : option bytes :=
  match find_version s u l with
  | Some v => if ty v =? kTypeValue then Some (snd v) else None
  | None => deeper s u
  end.

Lemma read_skip deeper s u v l : ~ (same u (uk v) /\ sq v <= s) -> read deeper s u (v :: l) = read deeper s u l.
Proof.
  intros Hn. unfold read, find_version. cbn [List.find]. rewrite Equal_same.
  case_bool_decide as E; cbn [andb]; [|done]. by destruct (Z.leb_spec (sq v) s); [destruct Hn|].
Qed.

Lemma read_hit deeper s u v l :
  same u (uk v) -> sq v <= s -> read deeper s u (v :: l) = if ty v =? kTypeValue then Some (snd v) else None.
Proof.
  intros Hu Hs. unfold read, find_version. cbn [List.find]. rewrite Equal_same, bool_decide_eq_true_2 by done.
  by rewrite (proj2 (Z.leb_le _ _)).
Qed.

Lemma read_absent deeper s u l : (forall v, v ∈ l -> ~ same u (uk v)) -> read deeper s u l = deeper s u.
Proof.
  induction l as [|v l IH]; intros Hn; [done|]. rewrite read_skip; [|intros [? _]; eapply Hn; [left|done]].
  apply IH. intros w Hw. apply Hn. by right.
Qed.

(** The versions of a user key, newest first. *)
Definition versions (u : bytes) (l : list version) : list version := filter (fun v => same u (uk v)) l.

(** Puts and single deletions in turn; [put]: the version before was a put.  When the
    oldest version is a put, [none] holds: there is nothing below it. *)
Fixpoint alternates (put : bool) (none : Prop) (l : list version) : Prop :=
  match l with
  | [] => if put then none else True
  | v :: l => (if put then ty v = kTypeSingleDeletion else ty v = kTypeValue) /\ alternates (negb put) none l
  end.

(** The contract of DB::SingleDelete (include/rocksdb/db.h) on the versions of a key:
    a key that is single-deleted is put once before each single deletion, and not
    deleted otherwise. *)
Definition single_delete_ok (none : Prop) (l : list version) : Prop :=
  Forall (fun v => ty v <> kTypeSingleDeletion) l \/ exists put, alternates put none l.

Definition single_deletes_ok (deeper : Z -> bytes -> option bytes) (l : list version) : Prop :=
  forall s u, single_delete_ok (deeper s u = None) (versions u l).

Lemma versions_same u v l : same u (uk v) -> versions u (v :: l) = v :: versions u l.
Proof. intros E. unfold versions. by rewrite filter_cons_True. Qed.

Lemma versions_other u v l : ~ same u (uk v) -> versions u (v :: l) = versions u l.
Proof. intros E. unfold versions. by rewrite filter_cons_False. Qed.

Lemma versions_absent u l : (forall v, v ∈ l -> ~ same u (uk v)) -> versions u l = [].
Proof.
  induction l as [|v l IH]; intros Hn; [done|]. rewrite versions_other by (apply Hn; left).
  apply IH. intros w Hw. apply Hn. by right.
Qed.

Lemma single_delete_ok_tail none v l : single_delete_ok none (v :: l) -> single_delete_ok none l.
Proof.
  intros [Hno|[put [_ Ha]]]; [left; by apply Forall_cons in Hno as [_ ?]|right; by eexists].
Qed.

Lemma no_single_delete none v l w :
  single_delete_ok none (v :: l) -> ty v = kTypeDeletion -> w ∈ l -> ty w <> kTypeSingleDeletion.
Proof.
  intros [Hno|[put [Hv _]]] Hty; [|by destruct put; rewrite Hty in Hv].
  apply Forall_cons in Hno as [_ Hno]. rewrite Forall_forall in Hno. apply Hno.
Qed.

Lemma single_delete_pair none v w l :
  single_delete_ok none (v :: w :: l) -> ty v = kTypeSingleDeletion -> alternates true none l.
Proof.
  intros [Hno|[put [Hv [Hw Ha]]]] Hty; [by apply Forall_cons in Hno as [? _]|].
  destruct put; [done|]. by rewrite Hty in Hv.
Qed.

Lemma single_deletes_ok_tail deeper v l : single_deletes_ok deeper (v :: l) -> single_deletes_ok deeper l.
Proof.
  intros Hok s u. specialize (Hok s u). destruct (decide (same u (uk v))).
  - rewrite versions_same in Hok by done. by eapply single_delete_ok_tail.
  - by rewrite versions_other in Hok.
Qed.
End Runs.

(** ** The steps of a compaction *)

Section Compacts.
Context {ucmp : Comparator} {Ho : CompareOrder ucmp (fun _ => True)}.
(** The live snapshots, whether sequence numbers become 0, and the user keys that no
    deeper level can hold. *)
Context (snaps : list Z) (zeroing : bool) (gone : bytes -> Prop).
#[local] Notation st v := (stripe snaps (sq v)).

(** [o] is the user key before, with the stripe of its last version. *)
Definition hidden (o : option (bytes * Z)) (v : version) : Prop :=
  match o with Some (u, b) => same u (uk v) /\ b = st v | None => False end.

(** A version on its way to the output: deletions in the last stripe go only where
    sequence numbers are kept. *)
Definition kept (v v' : version) : Prop :=
  same (uk v) (uk v') /\ ty v' = ty v /\ snd v' = snd v /\
  (sq v' = sq v \/ (zeroing = true /\ ty v = kTypeValue /\ sq v <= earliest snaps /\ sq v' = 0)) /\
  (zeroing = true -> ty v <> kTypeValue -> earliest snaps < sq v).

(** [compacts clear o l out]: from [l] a compaction may write [out]; [clear] when the
    value of the next version is to be dropped. *)
Inductive compacts : bool -> option (bytes * Z) -> list version -> list version -> Prop :=
| compacts_nil o : compacts false o [] []
| compacts_keep o u v v' l out :
    ~ hidden o v \/ ty v = kTypeSingleDeletion -> same u (uk v) -> kept v v' ->
    compacts false (Some (u, st v)) l out -> compacts false o (v :: l) (v' :: out)
| compacts_keep_alone o v v' l out :
    ty v = kTypeSingleDeletion -> (forall w, w ∈ l -> ~ same (uk v) (uk w)) -> kept v v' ->
    compacts false None l out -> compacts false o (v :: l) (v' :: out)
| compacts_hidden u b v l out :
    hidden (Some (u, b)) v -> ty v <> kTypeSingleDeletion ->
    compacts false (Some (u, b)) l out -> compacts false (Some (u, b)) (v :: l) out
| compacts_obsolete o u v l out :
    ty v = kTypeDeletion -> sq v <= earliest snaps -> gone (uk v) -> same u (uk v) ->
    compacts false (Some (u, st v)) l out -> compacts false o (v :: l) out
| compacts_alone o v l out :
    ty v = kTypeSingleDeletion -> (forall w, w ∈ l -> ~ same (uk v) (uk w)) -> gone (uk v) ->
    compacts false None l out -> compacts false o (v :: l) out
| compacts_pair o u v w l out :
    ty v = kTypeSingleDeletion -> same (uk v) (uk w) -> st w = st v -> same u (uk v) ->
    compacts false (Some (u, st v)) l out -> compacts false o (v :: w :: l) out
| compacts_clear o u v v' w l out :
    ty v = kTypeSingleDeletion -> same (uk v) (uk w) -> st w = st v -> earliest snaps < sq v -> kept v v' -> same u (uk v) ->
    compacts true (Some (u, st v)) (w :: l) out -> compacts false o (v :: w :: l) (v' :: out)
| compacts_cleared u b w w' l out :
    same u (uk w) -> b = st w -> earliest snaps < sq w -> kept (fst w, []) w' ->
    compacts false (Some (u, b)) l out -> compacts true (Some (u, b)) (w :: l) (w' :: out).

Context (Hs : snapshots_ok snaps).

(** What is written comes from the input. *)
Definition comes_from (x v : version) : Prop :=
  same (uk v) (uk x) /\ ty x = ty v /\ 0 <= sq x <= sq v /\ (sq x = 0 \/ sq x = sq v).

Lemma kept_from v v' : kept v v' -> 0 <= sq v -> comes_from v' v.
Proof. intros (Hu & Ht & _ & Hq & _) Hv. split; [done|]. split; [done|]. lia. Qed.

Lemma from_cons v v' l out x :
  comes_from v' v -> (x ∈ out -> exists w, w ∈ l /\ comes_from x w) ->
  x ∈ v' :: out -> exists w, w ∈ v :: l /\ comes_from x w.
Proof.
  intros Hv Htl [->|Hx]%elem_of_cons; [exists v; split; [left|done]|].
  destruct (Htl Hx) as (w & Hw & ?). exists w. split; [by right|done].
Qed.

Lemma compacts_from c o l out :
  compacts c o l out -> run l -> forall x, x ∈ out -> exists v, v ∈ l /\ comes_from x v.
Proof.
  assert (Hgrow : forall v l (P : version -> Prop), (exists w, w ∈ l /\ P w) -> exists w, w ∈ v :: l /\ P w).
  { intros v l' P (w & Hw & HP). exists w. split; [by right|done]. }
  induction 1 as [|? ? ? ? ? ? ? ? Hk ? IH|? ? ? ? ? ? ? Hk ? IH|? ? ? ? ? ? ? ? IH|? ? ? ? ? ? ? ? ? ? IH|
    ? ? ? ? ? ? ? ? IH|? ? ? ? ? ? ? ? ? ? ? IH|? ? ? ? ? ? ? ? ? ? ? Hk ? ? IH|? ? ? ? ? ? ? ? ? Hk ? IH];
    intros Hr x; try (apply run_cons in Hr as (Hv & _ & Hr));
    try (apply from_cons; [exact (kept_from _ _ Hk (proj1 Hv))|by apply IH]); try (by intros; apply Hgrow, IH).
  - by intros ?%not_elem_of_nil.
  - intros Hx. apply Hgrow, Hgrow, IH; [|done]. apply (run_cons _ _ Hr).
Qed.

Lemma compacts_absent c o l out u :
  compacts c o l out -> run l -> (forall w, w ∈ l -> ~ same u (uk w)) -> forall x, x ∈ out -> ~ same u (uk x).
Proof.
  intros Hc Hr Hn x Hx E. destruct (compacts_from _ _ _ _ Hc Hr x Hx) as (v & Hv & Hvx & _).
  apply (Hn v Hv). by rewrite E, Hvx.
Qed.

(** After a version in the last stripe, the older versions of its key are dropped, but
    for single deletions where sequence numbers are kept. *)
Lemma compacts_last u l out :
  compacts false (Some (u, earliest snaps)) l out -> run l -> (forall w, w ∈ l -> Compare u (uk w) <= 0) ->
  (forall w, w ∈ l -> same u (uk w) -> sq w <= earliest snaps /\ (ty w = kTypeSingleDeletion -> zeroing = true)) ->
  forall x, x ∈ out -> ~ same u (uk x).
Proof.
  remember (length l) as n eqn:En. revert u l out En. induction n as [n IH] using lt_wf_ind.
  intros u l out -> Hc Hr Hge Hlast. destruct l as [|v l]; [inversion Hc; by intros x ?%not_elem_of_nil|].
  destruct (decide (same u (uk v))) as [Huv|Hnv];
    [|eapply compacts_absent; [exact Hc|exact Hr|apply run_past; [done|apply Hge; left|done]]].
  destruct (Hlast v (list_elem_of_here _ _) Huv) as [Hqv Hzv]. pose proof Hr as (Hv & Hb & Hr')%run_cons.
  pose proof (proj1 (stripe_earliest snaps Hs (sq v) (proj2 Hv)) Hqv) as Est.
  assert (Hstep : forall u' l', same u' (uk v) -> run l' -> (length l' < S (length l))%nat -> (forall w, w ∈ l' -> w ∈ v :: l) ->
    compacts false (Some (u', earliest snaps)) l' out -> forall x, x ∈ out -> ~ same u (uk x)).
  { intros u' l' Hu' Hrl' Hlen Hsub Hc' x Hx E. assert (Huu : same u' u) by (by rewrite Hu').
    apply (IH (length l') Hlen u' l' out eq_refl Hc' Hrl') in Hx; [by destruct Hx; rewrite Huu| |].
    - intros w Hw. apply (same_le u); [by symmetry|]. by apply Hge, Hsub.
    - intros w Hw Hww. apply Hlast; [by apply Hsub|by rewrite <- Huu]. }
  inversion Hc as [|? u' ? v' ? ? Hnh Hu' (_ & _ & _ & _ & Hz)|? ? v' ? ? Hty Hno (_ & _ & _ & _ & Hz)|? ? ? ? ? Hh Hty Hc'|
    ? u' ? ? ? Hty Hq Hg Hu' Hc'|? ? ? ? Hty Hno Hg Hc'|? u' ? w l' ? Hty Hvw Hst Hu' Hc'|? ? ? ? ? ? ? Hty ? ? Hq|]; subst.
  - exfalso. destruct Hnh as [Hnh|Hty]; [apply Hnh; by split|]. specialize (Hzv Hty). rewrite Hty in Hz.
    specialize (Hz Hzv ltac:(done)). lia.
  - exfalso. rewrite Hty in Hz. specialize (Hz (Hzv Hty) ltac:(done)). lia.
  - eapply Hstep; [exact Huv|exact Hr'|lia|by intros; right|exact Hc'].
  - rewrite Est in Hc'. eapply Hstep; [exact Hu'|exact Hr'|lia|by intros; right|exact Hc'].
  - intros x Hx E. eapply (compacts_absent _ _ _ _ (uk v) Hc' Hr'); [done|exact Hx|by rewrite <- Huv].
  - rewrite Est in Hc'. eapply Hstep; [exact Hu'|apply (run_cons _ _ Hr')|cbn; lia|by intros; right; right|exact Hc'].
  - lia.
Qed.

(** *** The output is sorted *)

Lemma run_tail_ge u v l : run (v :: l) -> same u (uk v) -> forall w, w ∈ l -> Compare u (uk w) <= 0.
Proof.
  intros (_ & Hb & _)%run_cons Hu w Hw. apply (same_le (uk v)); [by symmetry|]. by apply before_user, Hb.
Qed.

Lemma before_from v v' x y :
  before v y -> 0 <= sq y -> same (uk v) (uk v') -> ty v' = ty v -> sq v' = sq v -> comes_from x y -> before v' x.
Proof.
  intros Hvy Hy Hu Ht Hq (Hyx & Htx & Hqx & Hqx'). apply before_iff in Hvy. apply before_iff. rewrite Ht, Hq, Htx.
  destruct Hvy as [Hlt|[Hsame Hlt]].
  - left. apply (compare_lt_le_trans (valid := fun _ => True) _ (uk y)); [done..| |rewrite same_iff in Hyx; lia].
    apply (compare_le_lt_trans (valid := fun _ => True) _ (uk v)); [done..| |done].
    symmetry in Hu. rewrite same_iff in Hu. lia.
  - right. split; [by rewrite <- Hu, Hsame|]. lia.
Qed.

Lemma kept_before v v' l out :
  kept v v' -> run (v :: l) -> (forall x, x ∈ out -> exists y, y ∈ l /\ comes_from x y) ->
  (zeroing = true -> sq v <= earliest snaps -> forall x, x ∈ out -> ~ same (uk v) (uk x)) ->
  Forall (before v') out.
Proof.
  intros Hk (Hv & Hb & Hr)%run_cons Hfrom Hzero. destruct Hk as (Hu & Ht & _ & Hq & _).
  apply Forall_forall. intros x Hx. destruct (Hfrom x Hx) as (y & Hy & Hxy). pose proof (Hb y Hy) as Hvy.
  assert (0 <= sq y) by (destruct Hr as [_ Hf]; rewrite Forall_forall in Hf; by apply Hf).
  destruct Hq as [Hq|(Hz & Hty & Hle & Hq)]; [by eapply before_from|].
  specialize (Hzero Hz Hle x Hx). destruct Hxy as (Hyx & _). apply before_iff. left.
  apply before_user in Hvy. pose proof Hu as Hu'. symmetry in Hu'. rewrite same_iff in *.
  pose proof (compare_trans (uk v) (uk y) (uk x) Logic.I Logic.I Logic.I Hvy).
  pose proof (compare_le_lt_trans (valid := fun _ => True) (uk v') (uk v) (uk x) Logic.I Logic.I Logic.I). lia.
Qed.

Lemma compacts_sorted c o l out : compacts c o l out -> run l -> run out.
Proof.
  intros Hc Hr. split.
  2: { apply Forall_forall. intros x Hx. destruct (compacts_from _ _ _ _ Hc Hr x Hx) as (v & Hv & _ & _ & Hq & _).
       destruct Hr as [_ Hf]. rewrite Forall_forall in Hf. specialize (Hf v Hv). cbn in Hf. lia. }
  induction Hc as [|o u v v' l out Hnh Hu Hk Hc IH|o v v' l out Hty Hno Hk Hc IH|u b v l out Hh Hty Hc IH|
    o u v l out Hty Hq Hg Hu Hc IH|o v l out Hty Hno Hg Hc IH|o u v w l out Hty Hvw Hst Hu Hc IH|
    o u v v' w l out Hty Hvw Hst Hq Hk Hu Hc IH|u b w w' l out Hu Hb Hq Hk Hc IH];
    try (pose proof Hr as (Hv & Hbf & Hr')%run_cons); try (by apply IH).
  - constructor.
  - constructor; [by apply IH|]. eapply kept_before; [done|done|by eapply compacts_from|].
    intros Hz Hle x Hx E. rewrite (proj1 (stripe_earliest snaps Hs (sq v) (proj2 Hv)) Hle) in Hc.
    eapply (compacts_last u); [exact Hc|exact Hr'|by eapply run_tail_ge| |exact Hx|by rewrite Hu].
    intros w Hw Huw. split; [|done]. specialize (Hbf w Hw). apply before_sequence in Hbf; [lia|by rewrite <- Hu].
  - constructor; [by apply IH|]. eapply kept_before; [done|done|by eapply compacts_from|].
    intros Hz Hle. by eapply compacts_absent.
  - apply IH. apply (run_cons _ _ Hr').
  - constructor; [by apply IH|]. eapply kept_before; [done|done|by eapply compacts_from|]. lia.
  - constructor; [by apply IH|]. eapply (kept_before (fst w, [])); [done| |by eapply compacts_from|cbn; lia].
    destruct Hr as [Hsrt Hf]. inversion Hsrt as [|? ? Hs1 Hs2]; subst. apply Forall_cons in Hf as [Hf1 Hf2].
    split; constructor; done.
Qed.

(** *** Reads *)

Context (deeper : Z -> bytes -> option bytes).
Context (Hgone : forall s u u', gone u' -> same u u' -> deeper s u = None).

(** Where the versions left of a key start with a single deletion, nothing is read. *)
Lemma compacts_deleted s u o l out :
  compacts false o l out -> run l -> (forall w, w ∈ l -> Compare u (uk w) <= 0) ->
  (forall w, w ∈ l -> same u (uk w) -> sq w <= s) ->
  alternates true (deeper s u = None) (versions u l) -> read deeper s u out = None.
Proof.
  remember (length l) as n eqn:En. revert o l out En. induction n as [n IH] using lt_wf_ind.
  intros o l out -> Hc Hr Hge Hvis Ha. destruct l as [|v l]; [by inversion Hc; subst|].
  destruct (decide (same u (uk v))) as [Huv|Hnv].
  2: { assert (Hn : forall w, w ∈ v :: l -> ~ same u (uk w)) by (apply run_past; [done|apply Hge; left|done]).
       rewrite versions_absent in Ha by done. rewrite read_absent; [done|]. by eapply compacts_absent. }
  rewrite versions_same in Ha by done. destruct Ha as [Htv Ha]. cbn [negb] in Ha.
  specialize (Hvis v (list_elem_of_here _ _) Huv) as Hqv. pose proof Hr as (Hv & Hb & Hr')%run_cons.
  assert (Hhit : forall v' out, kept v v' -> read deeper s u (v' :: out) = None).
  { intros v' out' Hk. destruct (kept_from v v' Hk (proj1 Hv)) as (Hu' & Ht' & Hq' & _).
    rewrite read_hit; [by rewrite Ht', Htv|by rewrite Huv|lia]. }
  inversion Hc as [| | | |? u' ? ? ? Hty Hq Hg Hu' Hc'|? ? ? ? Hty Hno Hg Hc'|? u' ? w l' ? Hty Hvw Hst Hu' Hc'|? ? ? ? ? ? ? Hty ? ? Hq|];
    subst; try (by apply Hhit); try congruence; try (rewrite Hty in Htv; discriminate).
  - rewrite read_absent; [by eapply Hgone|]. eapply compacts_absent; [exact Hc'|done|].
    intros w Hw E. apply (Hno w Hw). by rewrite <- Huv.
  - rewrite versions_same in Ha by (by rewrite Huv). destruct Ha as [_ Ha].
    eapply (IH (length l')); [cbn; lia|done|exact Hc'|apply (run_cons _ _ Hr')| | |done].
    + intros x Hx. apply Hge. by do 2 right.
    + intros x Hx. apply Hvis. by do 2 right.
Qed.

(** The version before decides the reads of its key at [s]. *)
Definition decided (o : option (bytes * Z)) (s : Z) (u : bytes) : Prop :=
  match o with Some (u0, b) => same u u0 /\ b <= s | None => False end.

(** A version that is kept answers as before where it is visible, and leaves the other
    reads to the rest. *)
Lemma kept_read s u v v' l out :
  kept v v' -> 0 <= sq v -> earliest snaps <= s ->
  (~ (same u (uk v) /\ sq v <= s) -> read deeper s u out = read deeper s u l) ->
  read deeper s u (v' :: out) = read deeper s u (v :: l).
Proof.
  intros Hk Hv Hear Hrest. destruct (kept_from v v' Hk Hv) as (Hu & Ht & Hq & _).
  destruct Hk as (_ & _ & Hval & Hq' & _). destruct (decide (same u (uk v))) as [Huv|Hnv].
  - destruct (Z_le_gt_dec (sq v) s) as [Hle|Hgt].
    + rewrite !read_hit; [by rewrite Ht, Hval|done|lia|by rewrite Huv|lia].
    + rewrite !read_skip; [apply Hrest; lia|lia|intros [_ ?]; lia].
  - rewrite !read_skip; [apply Hrest; tauto|tauto|]. intros [E _]. apply Hnv. by rewrite Hu.
Qed.

(** Nothing of the key is left after a deletion that is dropped. *)
Lemma obsolete_absent u0 v l out u :
  compacts false (Some (u0, stripe snaps (sq v))) l out -> run (v :: l) -> same u0 (uk v) -> same u (uk v) ->
  ty v = kTypeDeletion -> sq v <= earliest snaps -> single_deletes_ok deeper (v :: l) ->
  forall x, x ∈ out -> ~ same u (uk x).
Proof.
  intros Hc Hr Hu Huv Hty Hq Hok x Hx E. pose proof Hr as (Hv & Hbf & Hr')%run_cons.
  rewrite (proj1 (stripe_earliest snaps Hs (sq v) (proj2 Hv)) Hq) in Hc.
  eapply (compacts_last u0); [exact Hc|exact Hr'|by eapply run_tail_ge| |exact Hx|by rewrite Hu, <- Huv].
  intros w Hw Huw. split; [specialize (Hbf w Hw); apply before_sequence in Hbf; [lia|by rewrite <- Hu]|].
  intros Htw. exfalso. specialize (Hok 0 u). rewrite versions_same in Hok by done.
  eapply (no_single_delete _ v); [exact Hok|by rewrite Hty| |exact Htw].
  apply list_elem_of_filter. split; [by rewrite Huv, <- Hu|done].
Qed.

(** Nor after a single deletion and its put. *)
Lemma pair_deleted o v w l out s u :
  compacts false o l out -> run (v :: w :: l) -> single_deletes_ok deeper (v :: w :: l) ->
  ty v = kTypeSingleDeletion -> same (uk v) (uk w) -> same u (uk v) -> sq v <= s -> read deeper s u out = None.
Proof.
  intros Hc Hr Hok Hty Hvw Huv Hle. pose proof Hr as (Hv & Hbf & Hr')%run_cons.
  eapply compacts_deleted; [done|apply (run_cons _ _ Hr')|..].
  - intros x Hx. eapply run_tail_ge; [exact Hr|done|by right].
  - intros x Hx E. assert (Hbx := Hbf x (list_elem_of_further _ _ _ Hx)).
    apply before_sequence in Hbx; [lia|by rewrite <- Huv].
  - specialize (Hok s u). rewrite versions_same, versions_same in Hok by (done || by rewrite Huv).
    by eapply single_delete_pair.
Qed.

Lemma compacts_read c o l out s u :
  compacts c o l out -> run l -> single_deletes_ok deeper l -> s ∈ snaps \/ s = kMaxSequenceNumber ->
  ~ decided o s u -> read deeper s u out = read deeper s u l.
Proof.
  intros Hc Hr Hok Hlive.
  assert (Hvis : forall q, q <= kMaxSequenceNumber -> q <= s <-> stripe snaps q <= s) by (intros; by apply stripe_visible).
  pose proof (earliest_le snaps Hs s Hlive) as Hear.
  induction Hc as [|o u0 v v' l out Hnh Hu Hk Hc IH|o v v' l out Hty Hno Hk Hc IH|u0 b v l out Hh Hty Hc IH|
    o u0 v l out Hty Hq Hg Hu Hc IH|o v l out Hty Hno Hg Hc IH|o u0 v w l out Hty Hvw Hst Hu Hc IH|
    o u0 v v' w l out Hty Hvw Hst Hq Hk Hu Hc IH|u0 b w w' l out Hu Hb Hq Hk Hc IH]; intros Hnd;
    try (pose proof Hr as (Hv & Hbf & Hr')%run_cons; pose proof (single_deletes_ok_tail _ _ _ Hok) as Hok').
  - done.
  - apply kept_read; [done|lia|done|]. intros Hn. apply IH; [done|done|]. intros [E Hst]. apply Hn.
    split; [by rewrite E|]. apply Hvis; [lia|done].
  - apply kept_read; [done|lia|done|]. intros Hn. apply IH; [done|done|by intros []].
  - destruct Hh as [Hu Hb]. rewrite read_skip; [by apply IH|]. intros [E Hle]. apply Hnd.
    split; [by rewrite Hu|]. rewrite Hb. apply (Hvis (sq v)); [lia|done].
  - destruct (decide (same u (uk v))) as [Huv|Hnv].
    + rewrite read_hit, Hty by (done || lia). rewrite read_absent; [by eapply Hgone|].
      by eapply (obsolete_absent u0 v).
    + rewrite read_skip by tauto. apply IH; [done|done|]. intros [E _]. apply Hnv. by rewrite E.
  - destruct (decide (same u (uk v))) as [Huv|Hnv]; [|rewrite read_skip by tauto; apply IH; [done|done|by intros []]].
    destruct (Z_le_gt_dec (sq v) s); [|rewrite read_skip by lia; apply IH; [done|done|by intros []]].
    rewrite read_hit, Hty by done. rewrite read_absent; [by eapply Hgone|]. eapply compacts_absent; [done|done|].
    intros w Hw E. apply (Hno w Hw). by rewrite <- Huv.
  - pose proof Hr' as (Hw & Hbf' & Hr'')%run_cons. pose proof (single_deletes_ok_tail _ _ _ Hok') as Hok''.
    destruct (decide (same u (uk v))) as [Huv|Hnv].
    + destruct (Z_le_gt_dec (sq v) s) as [Hle|Hgt].
      * rewrite read_hit, Hty by done. by eapply pair_deleted.
      * assert (~ stripe snaps (sq v) <= s) by (rewrite <- Hvis; lia). assert (~ sq w <= s) by (rewrite Hvis; lia).
        rewrite !read_skip by lia. apply IH; [done|done|]. cbn. lia.
    + assert (~ same u (uk w)) by (by rewrite <- Hvw). rewrite !read_skip by tauto.
      apply IH; [done|done|]. intros [E _]. apply Hnv. by rewrite E.
  - apply kept_read; [done|lia|done|]. intros Hn. apply IH; [done|done|]. intros [E Hst']. apply Hn.
    split; [by rewrite E|]. apply Hvis; [lia|done].
  - assert (Hinv : ~ (same u (uk w) /\ sq w <= s)).
    { intros [E Hle]. apply Hnd. split; [by rewrite Hu|]. rewrite Hb. apply (Hvis (sq w)); [lia|done]. }
    rewrite (read_skip _ _ _ w) by done. rewrite <- (read_skip deeper s u (fst w, []) l) by done.
    apply kept_read; [done|cbn; lia|done|]. intros _. by apply IH.
Qed.
End Compacts.
