(* ===== verification/CompactionProps.v ===== *)
(** * The compaction iterator implements the steps of a compaction

    The test for keys in deeper levels is exact along increasing keys, and the
    iterator, on any input that keeps the promises of [InternalIterator], takes the
    steps of [compacts]: it ends with the status OK and without a failed assertion,
    its output is a sorted run, and every read at a live snapshot and at the tip is
    answered as before. *)

From S2P Require Import Prelude Coding DbFormat Iterators MergingIterator CompactionIterator CompactionReads.
From stdpp Require Import base list sorting strings.
From Stdlib Require Import ZArith Lia.
#[local] Open Scope Z_scope.

#[local] Notation uk v := (user_key (fst v)).
#[local] Notation sq v := (sequence (fst v)).
#[local] Notation ty v := (type (fst v)).

(** ** Deeper levels *)

Section DeeperLevels.
Context {ucmp : Comparator} {Ho : CompareOrder ucmp (fun _ => True)}.

Definition in_file (u : bytes) (f : bytes * bytes) : Prop := 0 <= Compare u (fst f) /\ Compare u (snd f) <= 0.

Definition in_beyond (cp : CompactionProxy) (u : bytes) : Prop := Exists (Exists (in_file u)) (cp_beyond cp).

(** The files of a level below level 0: in order, meeting at most in one user key. *)
Definition level_ok (files : level_files) : Prop :=
  Forall (fun f => Compare (fst f) (snd f) <= 0) files /\ StronglySorted (fun f g => Compare (snd f) (fst g) <= 0) files.

(** The files before the pointer end before the key. *)
Definition ptr_ok (u : bytes) (files : level_files) (ptr : nat) : Prop := Forall (fun f => 0 < Compare u (snd f)) (take ptr files).

Lemma in_file_same u u' f : same u u' -> in_file u f -> in_file u' f.
Proof.
  intros Hu [H1 H2]. assert (Hu' : same u' u) by (by symmetry). split; [|by apply (same_le u)].
  pose proof (compare_antisym u (fst f) Logic.I Logic.I). pose proof (compare_antisym u' (fst f) Logic.I Logic.I).
  rewrite same_iff in Hu. pose proof (compare_trans (fst f) u u' Logic.I Logic.I Logic.I). lia.
Qed.

Lemma in_beyond_same cp u u' : same u u' -> in_beyond cp u -> in_beyond cp u'.
Proof.
  intros Hu. unfold in_beyond. intros Hex. eapply Exists_impl; [exact Hex|]. cbn. intros files Hf.
  eapply Exists_impl; [exact Hf|]. intros f. by apply in_file_same.
Qed.

Lemma ptr_ok_mono u u' files ptr : Compare u u' <= 0 -> ptr_ok u files ptr -> ptr_ok u' files ptr.
Proof.
  intros Hu Hf. eapply Forall_impl; [exact Hf|]. cbn. intros f Hlt.
  pose proof (compare_antisym u (snd f) Logic.I Logic.I). pose proof (compare_antisym u' (snd f) Logic.I Logic.I).
  pose proof (compare_lt_le_trans (snd f) u u' Logic.I Logic.I Logic.I). lia.
Qed.

(** One level. *)
Lemma level_scan_rest u files ptr :
  level_ok files -> let '(ptr', found) := level_scan u files ptr in
  exists n, ptr' = (ptr + n)%nat /\ ptr_ok u files n /\ found = bool_decide (Exists (in_file u) files).
Proof.
  intros [Hf Hs]. revert ptr. induction Hs as [|[sm lg] files Hs IH Hh]; intros ptr; cbn [level_scan].
  - exists 0%nat. split; [lia|]. split; [constructor|done].
  - apply Forall_cons in Hf as [Hsl Hf]. cbn [fst snd] in *. destruct (Z.leb_spec (Compare u lg) 0) as [Hle|Hgt].
    + exists 0%nat. split; [lia|]. split; [constructor|]. rewrite Z.geb_leb. symmetry.
      destruct (Z.leb_spec 0 (Compare u sm)) as [Hge|Hlt].
      * apply bool_decide_eq_true_2. left. by split.
      * apply bool_decide_eq_false_2. intros [Hx|Hx]%Exists_cons; [destruct Hx as [Hx _]; cbn in Hx; lia|].
        apply Exists_exists in Hx as (g & Hg & Hge & _). rewrite Forall_forall in Hh, Hf. specialize (Hh g Hg). cbn in Hh.
        pose proof (compare_lt_le_trans u sm lg Logic.I Logic.I Logic.I Hlt Hsl) as H1.
        pose proof (compare_lt_le_trans u lg (fst g) Logic.I Logic.I Logic.I H1 Hh). lia.
    + specialize (IH Hf (S ptr)). destruct (level_scan u files (S ptr)) as [ptr' found].
      destruct IH as (n & -> & Hn & ->). exists (S n). split; [lia|]. split; [constructor; [cbn; lia|done]|].
      apply bool_decide_ext. rewrite Exists_cons. split; [by right|]. intros [[_ Hx]|]; [cbn in Hx; lia|done].
Qed.

Lemma level_ok_drop n files : level_ok files -> level_ok (drop n files).
Proof.
  intros [Hf Hs]. split; [by apply Forall_drop|]. clear Hf. revert n. induction Hs as [|f files Hs IH Hh]; intros [|n];
    cbn [drop]; try by constructor. apply IH.
Qed.

Lemma level_scan_ok u files ptr :
  level_ok files -> ptr_ok u files ptr ->
  let '(ptr', found) := level_scan u (drop ptr files) ptr in
  ptr_ok u files ptr' /\ found = bool_decide (Exists (in_file u) files).
Proof.
  intros Hok Hp. pose proof (level_scan_rest u (drop ptr files) ptr (level_ok_drop ptr files Hok)) as Hsc.
  destruct (level_scan u (drop ptr files) ptr) as [ptr' found]. destruct Hsc as (n & -> & Hn & ->). split.
  - unfold ptr_ok. rewrite <- (take_take_drop files ptr n). by apply Forall_app.
  - apply bool_decide_ext. rewrite <- (take_drop ptr files) at 2. rewrite Exists_app. split; [by right|].
    intros [Hx|]; [|done]. apply Exists_exists in Hx as (f & Hf & _ & Hle). unfold ptr_ok in Hp.
    rewrite Forall_forall in Hp. specialize (Hp f Hf). cbn in Hp. lia.
Qed.

(** All levels, with a pointer into each. *)
Lemma levels_scan_ok u levels ptrs :
  Forall level_ok levels -> Forall2 (ptr_ok u) levels ptrs ->
  let '(r, ptrs') := levels_scan u levels ptrs in
  Forall2 (ptr_ok u) levels ptrs' /\ r = negb (bool_decide (Exists (Exists (in_file u)) levels)).
Proof.
  intros Hl HF. induction HF as [|files ptr levels ptrs Hp HF IH]; cbn [levels_scan]; [by split|].
  apply Forall_cons in Hl as [Hok Hl]. pose proof (level_scan_ok u files ptr Hok Hp) as Hsc.
  destruct (level_scan u (drop ptr files) ptr) as [ptr' found]. destruct Hsc as [Hp' ->].
  destruct (bool_decide_reflect (Exists (in_file u) files)) as [Hin|Hin].
  - split; [by constructor|]. rewrite bool_decide_eq_true_2; [done|by left].
  - specialize (IH Hl). destruct (levels_scan u levels ptrs) as [r ptrs']. destruct IH as [HF' ->].
    split; [by constructor|]. f_equal. apply bool_decide_ext. rewrite Exists_cons. tauto.
Qed.

(** The pointers of the iterator before a user key. *)
Definition ptrs_ok (cp : CompactionProxy) (u : bytes) (ptrs : list nat) : Prop := Forall2 (ptr_ok u) (cp_beyond cp) ptrs.

Lemma ptrs_ok_new cp u : ptrs_ok cp u (replicate (length (cp_beyond cp)) 0%nat).
Proof. unfold ptrs_ok. induction (cp_beyond cp); constructor; [constructor|done]. Qed.

Lemma ptrs_ok_mono cp u u' ptrs : Compare u u' <= 0 -> ptrs_ok cp u ptrs -> ptrs_ok cp u' ptrs.
Proof. intros Hu HF. eapply Forall2_impl; [exact HF|]. intros. by eapply ptr_ok_mono. Qed.

(** The universal style trusts the test of the bottommost level. *)
Definition not_beyond (cp : CompactionProxy) (u : bytes) : bool :=
  if cp_universal cp then cp_bottommost cp else negb (bool_decide (in_beyond cp u)).

Lemma KeyNotExists_ok cp u ptrs :
  Forall level_ok (cp_beyond cp) -> ptrs_ok cp u ptrs ->
  let '(r, ptrs') := KeyNotExistsBeyondOutputLevel cp u ptrs in ptrs_ok cp u ptrs' /\ r = not_beyond cp u.
Proof.
  intros Hl HF. unfold KeyNotExistsBeyondOutputLevel, not_beyond. destruct (cp_universal cp); [done|].
  exact (levels_scan_ok u (cp_beyond cp) ptrs Hl HF).
Qed.

(** The tests for a sequence of keys, each from where the one before stopped. *)
Fixpoint key_tests (cp : CompactionProxy) (ptrs : list nat) (us : list bytes) : list bool :=
  match us with
  | [] => []
  | u :: us => let '(r, ptrs) := KeyNotExistsBeyondOutputLevel cp u ptrs in r :: key_tests cp ptrs us
  end.
End DeeperLevels.

(** C39: Compaction::KeyNotExistsBeyondOutputLevel resumes its search of each level where
    the last call stopped.  For user keys in increasing order, and levels whose files
    are in order, every answer is exact: true when the key is in the range of no file
    below the output level. *)
Theorem key_not_exists_exact {ucmp : Comparator} cp us :
  CompareOrder ucmp (fun _ => True) -> cp_universal cp = false -> Forall level_ok (cp_beyond cp) ->
  StronglySorted (fun a b => Compare a b <= 0) us ->
  key_tests cp (replicate (length (cp_beyond cp)) 0%nat) us = (fun u => negb (bool_decide (in_beyond cp u))) <$> us.
Proof.
  intros Ho Hu Hl Hs. assert (Hp : forall u, ptrs_ok cp u (replicate (length (cp_beyond cp)) 0%nat)) by (intros; apply ptrs_ok_new).
  assert (Hp' : forall u, u ∈ us -> ptrs_ok cp u (replicate (length (cp_beyond cp)) 0%nat)) by auto. clear Hp.
  revert Hp'. generalize (replicate (length (cp_beyond cp)) 0%nat). induction Hs as [|u us Hs IH Hh]; intros ptrs Hp; [done|].
  cbn [key_tests fmap list_fmap]. pose proof (KeyNotExists_ok cp u ptrs Hl (Hp u (list_elem_of_here _ _))) as Hk.
  destruct (KeyNotExistsBeyondOutputLevel cp u ptrs) as [r ptrs']. destruct Hk as [Hp' ->]. unfold not_beyond. rewrite Hu.
  f_equal. apply IH. intros u' Hu'. rewrite Forall_forall in Hh. apply (ptrs_ok_mono cp u); [by apply Hh|done].
Qed.

(** ** The iterator takes the steps of a compaction *)

Ltac ci_simpl :=
  cbn [set eta_CI ci_input ci_bottommost_level ci_valid ci_visible_at_tip ci_earliest_snapshot ci_latest_snapshot
    ci_ignore_snapshots ci_value ci_status ci_ikey ci_has_current_user_key ci_at_next ci_current_key
    ci_current_user_key ci_current_user_key_sequence ci_current_user_key_snapshot ci_has_outputted_key
    ci_clear_and_output_next_key ci_merge_out ci_level_ptrs ci_polls ci_asserts fst snd user_key sequence type
    set_user_key set_sequence set_type] in *.

Lemma ParseInto_Append k r : valid_parsed k -> ParseInto (AppendInternalKey [] k) r = (true, k).
Proof.
  intros Hk. pose proof (ParseInternalKey_Append k Hk) as Hp. unfold ParseInternalKey in Hp. unfold ParseInto. cbv zeta in *.
  destruct (_ <? 8)%nat; [done|]. destruct (IsExtendedValueType _) eqn:E in Hp; [|done].
  injection Hp as Hp. by rewrite E, Hp.
Qed.

Lemma UpdateInternalKey_Append k s t :
  UpdateInternalKey (AppendInternalKey [] k) s t = AppendInternalKey [] (mkParsed (user_key k) s t).
Proof.
  unfold UpdateInternalKey. change (take _ _) with (ExtractUserKey (AppendInternalKey [] k)).
  by rewrite ExtractUserKey_Append.
Qed.

Section Simulation.
Context {ucmp : Comparator} {Ho : CompareOrder ucmp (fun _ => True)}.
Context {I : Type} `{InternalIterator I} (env : CompactionEnv I).
#[local] Notation CI := (CompactionIterator I).
#[local] Notation snaps := (snapshots_ env).

(** Puts, deletions and single deletions. *)
Definition version_ok (v : version) : Prop :=
  valid_parsed (fst v) /\ (ty v = kTypeValue \/ ty v = kTypeDeletion \/ ty v = kTypeSingleDeletion).

(** No filter, no range deletion, no shutdown; the snapshots and the levels are in
    order; the bottommost level has nothing of the input below it. *)
Record env_ok (vs : list version) : Prop := {
  eo_snapshots : snapshots_ok snaps;
  eo_conflict : earliest snaps <= earliest_write_conflict_snapshot_ env;
  eo_filter : compaction_filter_ env = None;
  eo_ranges : forall k, ShouldDelete env k = false;
  eo_running : forall n, shutting_down_ env n = false;
  eo_levels : forall cp, compaction_ env = Some cp -> Forall level_ok (cp_beyond cp);
  eo_bottom : forall cp, compaction_ env = Some cp -> cp_bottommost cp = true ->
    forall v, v ∈ vs -> ~ in_beyond cp (uk v)
}.

Definition zeroing : bool :=
  match compaction_ env with Some cp => negb (cp_allow_ingest_behind cp) && cp_bottommost cp | None => false end.

Definition gone (u : bytes) : Prop := exists cp, compaction_ env = Some cp /\ ~ in_beyond cp u.

(** In a run, what follows a single deletion of the same key is a put. *)
Fixpoint puts_follow (l : list version) : Prop :=
  match l with
  | v :: l' =>
      match l' with
      | w :: _ => (ty v = kTypeSingleDeletion -> same (uk v) (uk w) -> ty w = kTypeValue) /\ puts_follow l'
      | [] => True
      end
  | [] => True
  end.

Record input_ok (l : list version) : Prop := {
  io_run : run l;
  io_versions : Forall version_ok l;
  io_puts : puts_follow l;
  io_bottom : forall cp, compaction_ env = Some cp -> cp_bottommost cp = true -> forall v, v ∈ l -> ~ in_beyond cp (uk v)
}.

Lemma input_ok_tail v l : input_ok (v :: l) -> input_ok l.
Proof.
  intros [Hr Hv Hp Hb]. split.
  - apply (run_cons _ _ Hr).
  - by apply Forall_cons in Hv as [_ ?].
  - destruct l; [done|]. apply Hp.
  - intros cp Hcp Hbot w Hw. eapply Hb; [done|done|by right].
Qed.

(** What no operation changes, and the pointers into the levels. *)
Record steady (ci : CI) (l : list version) : Prop := {
  sd_bottommost : ci_bottommost_level ci = match compaction_ env with None => false | Some cp => cp_bottommost cp end;
  sd_tip : ci_visible_at_tip ci = match snaps with [] => true | _ => false end;
  sd_earliest : ci_earliest_snapshot ci = earliest snaps;
  sd_status : ci_status ci = OK;
  sd_asserts : ci_asserts ci = true;
  sd_merge : ci_merge_out ci = [];
  sd_ptrs : forall cp, compaction_ env = Some cp -> forall v, v ∈ l -> ptrs_ok cp (uk v) (ci_level_ptrs ci)
}.

Lemma steady_sub ci l l' : (forall v, v ∈ l' -> v ∈ l) -> steady ci l -> steady ci l'.
Proof. intros Hsub []. split; auto. Qed.

(** The user key before, and the stripe of its last version. *)
Definition current (ci : CI) (o : option (bytes * Z)) (l : list version) : Prop :=
  match o with
  | None => ci_has_current_user_key ci = false
  | Some (u, b) =>
      ci_has_current_user_key ci = true /\ ci_current_user_key ci = u /\ ci_current_user_key_snapshot ci = b /\
      (exists s t, ci_current_key ci = AppendInternalKey [] (mkParsed u s t)) /\
      forall w, w ∈ l -> same u (uk w) -> sq w <= ci_current_user_key_sequence ci
  end.

(** What is due after a single deletion that was kept with its put. *)
Definition clear_ok (c : bool) (o : option (bytes * Z)) (l : list version) : Prop :=
  c = true -> exists u w l', l = w :: l' /\ o = Some (u, stripe snaps (sq w)) /\ same u (uk w) /\ ty w = kTypeValue /\
    earliest snaps < sq w.

(** Between two passes of the loop. *)
Record scanning (ci : CI) (c : bool) (o : option (bytes * Z)) (l : list version) : Prop := {
  sc_input : yields (ci_input ci) (enc <$> l);
  sc_valid : ci_valid ci = false;
  sc_next : ci_at_next ci = false;
  sc_clear : ci_clear_and_output_next_key ci = c;
  sc_clear_ok : clear_ok c o l;
  sc_current : current ci o l;
  sc_steady : steady ci l
}.

(** At an entry of the output, with [l] to come. *)
Record resting (ci : CI) (c : bool) (o : option (bytes * Z)) (l : list version) : Prop := {
  rs_input : if ci_at_next ci then yields (ci_input ci) (enc <$> l) else yields (Next (ci_input ci)) (enc <$> l);
  rs_valid : ci_valid ci = true;
  rs_clear : ci_clear_and_output_next_key ci = c;
  rs_clear_ok : clear_ok c o l;
  rs_current : current ci o l;
  rs_steady : steady ci l
}.

(** The entry is the version [v], whose key is that of the first version of its user
    key. *)
Record showing (ci : CI) (v : version) : Prop := {
  sh_key : exists u, same u (uk v) /\ ci_ikey ci = mkParsed u (sq v) (ty v);
  sh_current : ci_current_key ci = AppendInternalKey [] (ci_ikey ci);
  sh_value : ci_value ci = snd v
}.

(** In a pass, when the key was parsed and its stripe found. *)
Record prepared (ci : CI) (c : bool) (u : bytes) (v : version) (l : list version) : Prop := {
  pr_input : yields (ci_input ci) (enc <$> v :: l);
  pr_valid : ci_valid ci = false;
  pr_next : ci_at_next ci = false;
  pr_clear : ci_clear_and_output_next_key ci = c;
  pr_same : same u (uk v);
  pr_ikey : ci_ikey ci = mkParsed u (sq v) (ty v);
  pr_key : ci_current_key ci = AppendInternalKey [] (mkParsed u (sq v) (ty v));
  pr_value : ci_value ci = snd v;
  pr_has : ci_has_current_user_key ci = true;
  pr_user_key : ci_current_user_key ci = u;
  pr_sequence : ci_current_user_key_sequence ci = sq v;
  pr_snapshot : ci_current_user_key_snapshot ci = stripe snaps (sq v);
  pr_steady : steady ci (v :: l)
}.

Lemma next_snapshot_eq ci l :
  steady ci l ->
  next_snapshot env ci =
  (ci_current_user_key_snapshot ci, prev_snapshot_of snaps (sequence (ci_ikey ci)),
   ci <| ci_current_user_key_sequence := sequence (ci_ikey ci) |>
      <| ci_current_user_key_snapshot := stripe snaps (sequence (ci_ikey ci)) |>).
Proof.
  intros Hst. unfold next_snapshot. rewrite (sd_tip _ _ Hst), (sd_earliest _ _ Hst).
  unfold findEarliestVisibleSnapshot, prev_snapshot_of, earliest. destruct snaps as [|x r] eqn:E; [done|].
  pose proof (find_snapshot_stripe (x :: r) (sequence (ci_ikey ci)) kMaxSequenceNumber) as Hf.
  destruct (find_snapshot _ _ _) as [a b]. cbn [fst snd] in *. by rewrite <- Hf.
Qed.

(** The parsed key takes the place of the one before. *)
Lemma next_user_key_new ci o v l k :
  compaction_filter_ env = None -> current ci o (v :: l) -> ci_ikey ci = fst v ->
  (forall u b, o = Some (u, b) -> ~ same u (uk v)) ->
  next_user_key env k ci =
  (None, ci <| ci_current_key := k |> <| ci_current_user_key := uk v |>
    <| ci_has_current_user_key := true |> <| ci_has_outputted_key := false |>
    <| ci_current_user_key_sequence := kMaxSequenceNumber |> <| ci_current_user_key_snapshot := 0 |>).
Proof.
  intros Hf Hc Hk Hn. unfold next_user_key, first_occurrence, apply_filter. rewrite Hf, Hk.
  destruct o as [[u b]|]; cbn [current] in Hc; [|by rewrite Hc].
  destruct Hc as (-> & -> & _). rewrite Equal_same, bool_decide_eq_false_2; [done|].
  intros E. apply (Hn u b eq_refl). by symmetry.
Qed.

Lemma next_user_key_same ci u b v l k :
  current ci (Some (u, b)) (v :: l) -> ci_ikey ci = fst v -> same u (uk v) ->
  next_user_key env k ci =
  (None, ci <| ci_current_key := AppendInternalKey [] (mkParsed u (sq v) (ty v)) |>
    <| ci_ikey := mkParsed u (sq v) (ty v) |>).
Proof.
  intros (Hh & Hu & _ & (s & t & Hck) & _) Hk Hs. unfold next_user_key. rewrite Hh, Hu, Hk, Equal_same.
  rewrite bool_decide_eq_true_2 by (by symmetry). cbn [negb orb]. unfold update_current_key.
  ci_simpl. rewrite Hck, UpdateInternalKey_Append, ExtractUserKey_Append, Hk. done.
Qed.

Lemma next_pass_prepared ci c o v l :
  snapshots_ok snaps -> compaction_filter_ env = None -> scanning ci c o (v :: l) -> input_ok (v :: l) ->
  exists ci' u last_sequence b,
    next_pass env ci = dispatch env last_sequence b (prev_snapshot_of snaps (sq v)) ci' /\
    prepared ci' c u v l /\ sq v <= last_sequence /\ (hidden snaps o v <-> b = stripe snaps (sq v)) /\
    (forall u0 b0, o = Some (u0, b0) -> same u0 (uk v) -> u = u0 /\ b = b0).
Proof.
  intros Hs Hf [Hin Hval Hnx Hcl Hclok Hcur Hst] [Hr Hvs _ _].
  apply Forall_cons in Hvs as [[Hpv _] _]. apply run_cons in Hr as (Hv & _ & _).
  pose proof Hin as (_ & Hkey & Hvalue & _). unfold next_pass. rewrite Hkey, Hvalue. cbn [enc fst snd].
  rewrite ParseInto_Append by done. cbv beta iota zeta.
  set (ci1 := ci <| ci_value := snd v |> <| ci_ikey := fst v |>).
  assert (Hcur1 : current ci1 o (v :: l)) by exact Hcur.
  assert (Hst1 : steady ci1 (v :: l)) by (destruct Hst; split; assumption).
  assert (Hcase : (exists u b, o = Some (u, b) /\ same u (uk v)) \/ forall u b, o = Some (u, b) -> ~ same u (uk v)).
  { destruct o as [[u b]|]; [|by right]. destruct (decide (same u (uk v))); [left; by eauto|right].
    by intros ? ? [= <- <-]. }
  destruct Hcase as [(u & b & -> & Hsm)|Hnew].
  - rewrite (next_user_key_same ci1 u b v l) by done. cbv beta iota.
    set (ci2 := ci1 <| ci_current_key := _ |> <| ci_ikey := _ |>).
    assert (Hst2 : steady ci2 (v :: l)) by (destruct Hst1; split; assumption).
    rewrite (next_snapshot_eq ci2 _ Hst2). cbv beta iota. destruct Hcur1 as (Hh & Hu & Hb & _ & Hmax).
    eexists _, u, _, _. split; [reflexivity|]. split; [|split; [|split]].
    + destruct Hst2. split; ci_simpl; try done; split; assumption.
    + apply Hmax; [left|done].
    + ci_simpl. rewrite <- Hb. cbn [hidden]. tauto.
    + intros u0 b0 [= <- <-] _. by split.
  - rewrite (next_user_key_new ci1 o v l) by done. cbv beta iota.
    set (ci2 := ci1 <| ci_current_key := _ |> <| ci_current_user_key := _ |> <| ci_has_current_user_key := _ |>
      <| ci_has_outputted_key := _ |> <| ci_current_user_key_sequence := _ |> <| ci_current_user_key_snapshot := _ |>).
    assert (Hst2 : steady ci2 (v :: l)) by (destruct Hst1; split; assumption).
    rewrite (next_snapshot_eq ci2 _ Hst2). cbv beta iota.
    eexists _, (uk v), _, _. split; [reflexivity|]. split; [|split; [|split]].
    + destruct Hst2, v as [[? ? ?] ?]. split; ci_simpl; try done; split; assumption.
    + unfold ci2. ci_simpl. lia.
    + unfold ci2. ci_simpl. pose proof (stripe_pos snaps Hs (sq v)). split; [|lia]. destruct o as [[u b]|]; [|done].
      intros [Hx _]. by destruct (Hnew u b).
    + intros u0 b0 E Hx. by destruct (Hnew u0 b0).
Qed.

(** The test for deletions that hide nothing. *)
Lemma obsolete_ok ci u v l :
  input_ok (v :: l) -> (forall cp, compaction_ env = Some cp -> Forall level_ok (cp_beyond cp)) ->
  steady ci (v :: l) -> same u (uk v) -> user_key (ci_ikey ci) = u -> sequence (ci_ikey ci) = sq v ->
  exists r ptrs, obsolete env ci = (r, ci <| ci_level_ptrs := ptrs |>) /\ steady (ci <| ci_level_ptrs := ptrs |>) (v :: l) /\
    (r = true -> gone (uk v) /\ sq v <= earliest snaps) /\
    (r = false -> zeroing = true -> earliest snaps < sq v).
Proof.
  intros [Hr _ _ Hbot] Hlev Hst Hu Eu Eq. unfold obsolete, gone, zeroing. rewrite (sd_earliest _ _ Hst), Eq, Eu.
  assert (Heta : ci = ci <| ci_level_ptrs := ci_level_ptrs ci |>) by (by destruct ci).
  destruct (compaction_ env) as [cp|] eqn:Ecp.
  2: { exists false, (ci_level_ptrs ci). rewrite <- Heta. split; [done|]. split; [exact Hst|]. by split. }
  destruct (Z.leb_spec (sq v) (earliest snaps)) as [Hle|Hgt].
  2: { exists false, (ci_level_ptrs ci). rewrite <- Heta. split; [done|]. split; [exact Hst|]. by split. }
  assert (Hp : ptrs_ok cp u (ci_level_ptrs ci)).
  { apply (ptrs_ok_mono cp (uk v)); [|by apply (sd_ptrs _ _ Hst cp Ecp); left]. symmetry in Hu. rewrite same_iff in Hu. lia. }
  pose proof (KeyNotExists_ok cp u _ (Hlev cp eq_refl) Hp) as Hk.
  destruct (KeyNotExistsBeyondOutputLevel cp u (ci_level_ptrs ci)) as [r ptrs]. destruct Hk as [Hp' ->].
  exists (not_beyond cp u), ptrs. split; [done|]. split; [|split].
  - destruct Hst. split; try assumption. ci_simpl. intros cp' E w Hw. replace cp' with cp by congruence.
    apply (ptrs_ok_mono cp u); [|done]. apply (same_le (uk v)); [by symmetry|]. apply elem_of_cons in Hw as [->|Hw].
    + by rewrite compare_refl.
    + apply run_cons in Hr as (_ & Hb & _). by apply before_user, Hb.
  - intros Hnb. split; [|done]. exists cp. split; [done|]. unfold not_beyond in Hnb. destruct (cp_universal cp).
    + eapply Hbot; [done|done|left].
    + apply negb_true_iff, bool_decide_eq_false in Hnb. intros Hin. apply Hnb. by eapply in_beyond_same; [symmetry|].
  - intros Hnb [_ Hb]%andb_true_iff. exfalso. unfold not_beyond in Hnb. rewrite Hb in Hnb.
    destruct (cp_universal cp); [done|]. apply negb_false_iff, bool_decide_eq_true in Hnb.
    eapply (Hbot cp eq_refl Hb v); [left|]. by eapply in_beyond_same.
Qed.

(** The two ways a pass ends: it dropped a version or two, or it shows one. *)
Definition zero_ok (v : version) : Prop := zeroing = true -> ty v <> kTypeValue -> earliest snaps < sq v.

#[local] Notation steps := (compacts snaps zeroing gone).

Definition dropped (ci : CI) (c : bool) (o : option (bytes * Z)) (v : version) (l : list version) : Prop :=
  exists o' l', scanning ci false o' l' /\ (exists k, l' = drop k l) /\
    forall out, steps false o' l' out -> steps c o (v :: l) out.

Definition shown (ci : CI) (c : bool) (o : option (bytes * Z)) (v : version) (l : list version) : Prop :=
  exists x c' o', resting ci c' o' l /\ showing ci x /\ zero_ok x /\ version_ok x /\
    forall x' out, kept snaps zeroing x x' -> steps c' o' l out -> steps c o (v :: l) (x' :: out).

(** The constructor. *)
Lemma scanning_new it l :
  compaction_filter_ env = None -> yields it (enc <$> l) ->
  scanning ((CompactionIterator_new env it) <| ci_at_next := false |> <| ci_valid := false |>) false None l.
Proof.
  intros Hf Hin. unfold CompactionIterator_new. rewrite Hf.
  destruct snaps as [|s r] eqn:Es; split; ci_simpl; try done; split; ci_simpl; try done; rewrite ?Es; try done;
    intros cp -> v _; apply ptrs_ok_new.
Qed.

Lemma scanning_poll ci c o l : scanning ci c o l -> scanning (ci <| ci_polls ::= S |>) c o l.
Proof. intros [? ? ? ? ? ? []]. by split. Qed.

(** With a snapshot of sequence number 0, a put of sequence number 0 counts as hidden. *)
Lemma next_pass_zero ci u val later :
  compaction_filter_ env = None -> snaps = 0 :: later -> scanning ci false None [(mkParsed u 0 kTypeValue, val)] ->
  exists ci', next_pass env ci = (Continue, ci') /\ ci_valid ci' = false /\ ci_input ci' = Next (ci_input ci) /\ ci_status ci' = OK.
Proof.
  intros Hf Hsn [(_ & Hkey & Hvalue & _) Hval Hnx Hcl _ Hcur Hst]. unfold next_pass. rewrite Hkey, Hvalue. cbn [enc fst snd].
  rewrite ParseInto_Append by (by vm_compute). cbv beta iota zeta.
  set (ci1 := ci <| ci_value := val |> <| ci_ikey := mkParsed u 0 kTypeValue |>).
  rewrite (next_user_key_new ci1 None (mkParsed u 0 kTypeValue, val) []) by done. cbv beta iota.
  set (ci2 := ci1 <| ci_current_key := _ |> <| ci_current_user_key := _ |> <| ci_has_current_user_key := _ |>
    <| ci_has_outputted_key := _ |> <| ci_current_user_key_sequence := _ |> <| ci_current_user_key_snapshot := _ |>).
  assert (Hst2 : steady ci2 [(mkParsed u 0 kTypeValue, val)]) by (destruct Hst; split; assumption).
  rewrite (next_snapshot_eq ci2 _ Hst2). cbv beta iota. rewrite Hsn.
  set (ci3 := ci2 <| ci_current_user_key_sequence := _ |> <| ci_current_user_key_snapshot := _ |>).
  unfold dispatch. change (ci_clear_and_output_next_key ci3) with (ci_clear_and_output_next_key ci). rewrite Hcl.
  eexists. split; [reflexivity|]. split; [exact Hval|]. split; [done|]. exact (sd_status _ _ Hst).
Qed.

Context (vs : list version) (Hok : env_ok vs).

Lemma prepared_current ci c u v l l' :
  prepared ci c u v l -> run (v :: l) -> (forall w, w ∈ l' -> w ∈ l) -> current ci (Some (u, stripe snaps (sq v))) l'.
Proof.
  intros Hp (_ & Hb & _)%run_cons Hsub. destruct Hp. cbn [current]. split; [done|]. split; [done|]. split; [done|].
  split; [by eexists _, _|]. intros w Hw Hu. rewrite pr_sequence0. apply before_sequence; [by apply Hb, Hsub|].
  by rewrite <- pr_same0.
Qed.

Lemma steady_tail ci v l : steady ci (v :: l) -> steady ci l.
Proof. apply steady_sub. intros. by right. Qed.

(** A version is kept as it is. *)
Lemma plain_shown ci o u v l :
  prepared ci false u v l -> input_ok (v :: l) -> zero_ok v ->
  ~ hidden snaps o v \/ ty v = kTypeSingleDeletion -> shown (ci <| ci_valid := true |>) false o v l.
Proof.
  intros Hp Hio Hz Hnh. pose proof (prepared_current _ _ _ _ _ l Hp (io_run _ Hio) ltac:(done)) as Hcur.
  pose proof (io_versions _ Hio) as [Hv _]%Forall_cons. destruct Hp. exists v, false, (Some (u, stripe snaps (sq v))).
  split; [|split; [|split; [done|split; [done|]]]].
  - split; ci_simpl; try done; [rewrite pr_next0; by apply pr_input0|]. by apply steady_tail in pr_steady0 as [].
  - split; ci_simpl; [by exists u|by rewrite pr_ikey0|done].
  - intros x' out Hk Hst. by eapply compacts_keep.
Qed.

(** A version that a newer one hides is dropped. *)
Lemma hidden_dropped ci u b v l s :
  prepared ci false u v l -> input_ok (v :: l) -> hidden snaps (Some (u, b)) v -> ty v <> kTypeSingleDeletion ->
  sq v <= s -> dropped (ci_assert (s >=? ci_current_user_key_sequence ci) ci <| ci_input ::= Next |>) false (Some (u, b)) v l.
Proof.
  intros Hp Hio Hh Hty Hle. pose proof (prepared_current _ _ _ _ _ l Hp (io_run _ Hio) ltac:(done)) as Hcur.
  destruct Hp. exists (Some (u, b)), l. split; [|split; [by exists 0%nat|]].
  - unfold ci_assert. destruct Hh as [_ ->]. rewrite pr_sequence0, Z.geb_leb, (proj2 (Z.leb_le _ _)) by done.
    split; ci_simpl; try done; [by apply pr_input0|]. by apply steady_tail in pr_steady0 as [].
  - intros out Hst. by apply compacts_hidden.
Qed.

(** So is a deletion below which there is nothing. *)
Lemma obsolete_dropped ci o u v l ptrs :
  prepared ci false u v l -> input_ok (v :: l) -> steady (ci <| ci_level_ptrs := ptrs |>) (v :: l) ->
  ty v = kTypeDeletion -> gone (uk v) -> sq v <= earliest snaps ->
  dropped (ci <| ci_level_ptrs := ptrs |> <| ci_input ::= Next |>) false o v l.
Proof.
  intros Hp Hio Hst Hty Hg Hle. pose proof (prepared_current _ _ _ _ _ l Hp (io_run _ Hio) ltac:(done)) as Hcur.
  destruct Hp. exists (Some (u, stripe snaps (sq v))), l. split; [|split; [by exists 0%nat|]].
  - split; ci_simpl; try done; [by apply pr_input0|]. by apply steady_tail in Hst as [].
  - intros out Hst'. by eapply compacts_obsolete.
Qed.

(** The put of a single deletion that was kept is kept without its value. *)
Lemma cleared_shown ci u b v l :
  prepared ci true u v l -> input_ok (v :: l) -> clear_ok true (Some (u, b)) (v :: l) ->
  shown (ci_assert (type (ci_ikey ci) =? kTypeValue) (ci_assert (ci_current_user_key_snapshot ci =? b) ci)
    <| ci_value := [] |> <| ci_valid := true |> <| ci_clear_and_output_next_key := false |>) true (Some (u, b)) v l.
Proof.
  intros Hp Hio Hcl. pose proof (prepared_current _ _ _ _ _ l Hp (io_run _ Hio) ltac:(done)) as Hcur.
  destruct (Hcl eq_refl) as (u' & w & l' & [= <- <-] & [= <- Eb] & Hsm & Hty & Hq). subst b.
  pose proof (io_versions _ Hio) as [Hv _]%Forall_cons.
  destruct Hp. exists (fst v, []), false, (Some (u, stripe snaps (sq v))).
  unfold ci_assert. rewrite pr_ikey0, pr_snapshot0, Z.eqb_refl. cbn [type]. rewrite Hty, Z.eqb_refl.
  split; [|split; [|split; [|split; [exact Hv|]]]].
  - split; ci_simpl; try done; [rewrite pr_next0; by apply pr_input0|]. apply steady_tail in pr_steady0 as [].
    split; ci_simpl; try done.
  - split; ci_simpl; [by exists u; rewrite pr_ikey0|by rewrite pr_ikey0|done].
  - intros _ Hn. by destruct Hn.
  - intros x' out Hk Hst. by apply compacts_cleared.
Qed.

(** A single deletion with no older version of its key in the input. *)
Lemma alone_ok ci o u v l :
  prepared ci false u v l -> input_ok (v :: l) -> ty v = kTypeSingleDeletion ->
  (forall w, w ∈ l -> ~ same (uk v) (uk w)) ->
  let ci' := single_deletion_alone env (ci <| ci_input ::= Next |>) in
  if ci_valid ci' then shown (ci' <| ci_at_next := true |>) false o v l else dropped ci' false o v l.
Proof.
  intros Hp Hio Hty Hno ci'. pose proof (io_versions _ Hio) as [Hv _]%Forall_cons. destruct Hp.
  set (ci1 := ci <| ci_input ::= Next |> <| ci_has_current_user_key := false |>) in *.
  destruct (obsolete_ok ci1 u v l Hio (eo_levels _ Hok)) as (r & ptrs & E & Hst & Ht & Hf); [destruct pr_steady0; by split|done| | |];
    [unfold ci1; ci_simpl; by rewrite pr_ikey0..|].
  assert (Ea : ci' = let '(drop_it, ci2) := obsolete env ci1 in if drop_it then ci2 else ci2 <| ci_valid := true |>)
    by reflexivity.
  rewrite E in Ea. clearbody ci'. subst ci'. apply steady_tail in Hst. destruct r.
  - replace (ci_valid _) with false by done. destruct (Ht eq_refl) as [Hg Hle].
    exists None, l. split; [|split; [by exists 0%nat|]].
    + unfold ci1 in *. split; ci_simpl; try done. by apply pr_input0.
    + intros out Hst'. by apply compacts_alone.
  - replace (ci_valid _) with true by done. exists v, false, None. split; [|split; [|split; [|split; [done|]]]].
    + unfold ci1 in *. split; ci_simpl; try done; [by apply pr_input0|]. destruct Hst; by split.
    + unfold ci1. split; ci_simpl; [by exists u|by rewrite pr_ikey0|done].
    + intros Hz _. by apply Hf.
    + intros x' out Hk Hst'. by apply compacts_keep_alone.
Qed.

(** A single deletion is kept, and the input is at the next version already. *)
Lemma single_shown ci o u v l c o' :
  prepared ci false u v l -> input_ok (v :: l) -> clear_ok c o' l -> current ci o' l -> zero_ok v ->
  (forall x' out, kept snaps zeroing v x' -> steps c o' l out -> steps false o (v :: l) (x' :: out)) ->
  shown (ci <| ci_input ::= Next |> <| ci_valid := true |> <| ci_clear_and_output_next_key := c |> <| ci_at_next := true |>)
    false o v l.
Proof.
  intros Hp Hio Hco Hcu Hz Hcomp. pose proof (io_versions _ Hio) as [Hv _]%Forall_cons. destruct Hp.
  exists v, c, o'. split; [|split; [|done]].
  - split; ci_simpl; try done; [by apply pr_input0|]. by apply steady_tail in pr_steady0 as [].
  - split; ci_simpl; [by exists u|by rewrite pr_ikey0|done].
Qed.

(** A single deletion and its put are dropped together. *)
Lemma pair_dropped ci o u v w l :
  prepared ci false u v (w :: l) -> input_ok (v :: w :: l) -> ty v = kTypeSingleDeletion -> same (uk v) (uk w) ->
  stripe snaps (sq w) = stripe snaps (sq v) ->
  dropped (ci <| ci_input ::= Next |> <| ci_input ::= Next |>) false o v (w :: l).
Proof.
  intros Hp Hio Hty Hvw Hst.
  pose proof (prepared_current _ _ _ _ _ l Hp (io_run _ Hio) ltac:(by intros; right)) as Hcur. destruct Hp.
  exists (Some (u, stripe snaps (sq v))), l. split; [|split; [by exists 1%nat|]].
  - split; ci_simpl; try done; [by apply pr_input0|]. by do 2 apply steady_tail in pr_steady0; destruct pr_steady0.
  - intros out Hs. by eapply compacts_pair.
Qed.

(** A single deletion before an older version [w] of its key. *)
Lemma match_ok ci o u v w l :
  prepared ci false u v (w :: l) -> input_ok (v :: w :: l) -> ty v = kTypeSingleDeletion -> same (uk v) (uk w) ->
  let ci' := single_deletion_match env (prev_snapshot_of snaps (sq v)) (fst w) (ci <| ci_input ::= Next |>) in
  if ci_valid ci' then shown (ci' <| ci_at_next := true |>) false o v (w :: l) else dropped ci' false o v (w :: l).
Proof.
  intros Hp Hio Hty Hvw. pose proof (io_run _ Hio) as Hr. pose proof (eo_snapshots _ Hok) as Hsn.
  pose proof (prepared_current _ _ _ _ _ (w :: l) Hp Hr ltac:(done)) as Hcur.
  pose proof Hr as (Hbv & Hb & Hr')%run_cons. pose proof Hr' as (Hbw & _ & _)%run_cons.
  assert (Hqw : sq w <= sq v) by (apply before_sequence; [apply Hb; left|done]).
  destruct (prev_snapshot_same snaps (sq v) (sq w) Hsn (conj Hqw (proj2 Hbv))) as [Hsame Hprev].
  destruct (io_puts _ Hio) as [Hput _]. specialize (Hput Hty Hvw).
  pose proof (pr_valid _ _ _ _ _ Hp) as Ev. pose proof (pr_ikey _ _ _ _ _ Hp) as Ek. pose proof (pr_same _ _ _ _ _ Hp) as Eu.
  unfold single_deletion_match. rewrite Hput. change (kTypeValue =? kTypeSingleDeletion) with false. cbv iota.
  destruct ((prev_snapshot_of snaps (sq v) =? 0) || (sq w >? prev_snapshot_of snaps (sq v))) eqn:Et.
  - assert (Hst : stripe snaps (sq w) = stripe snaps (sq v)) by (apply Hsame; lia).
    change (ci_ikey (ci <| ci_input ::= Next |>)) with (ci_ikey ci). rewrite Ek. cbn [sequence].
    destruct ((sq v <=? _) || _) eqn:Ew.
    + change (ci_valid (ci <| ci_input ::= Next |> <| ci_input ::= Next |>)) with (ci_valid ci). rewrite Ev. by apply (pair_dropped ci o u).
    + cbv iota. pose proof (eo_conflict _ Hok). assert (Hear : earliest snaps < sq v) by lia.
      refine (single_shown ci o u v (w :: l) true (Some (u, stripe snaps (sq v))) Hp Hio _ Hcur _ _); [|by intros _ _|].
      * intros _. exists u, w, l. rewrite Hst. do 2 (split; [done|]). split; [by rewrite Eu|]. split; [done|].
        destruct (Z_lt_le_dec (earliest snaps) (sq w)) as [|Hle]; [done|].
        apply (stripe_earliest snaps Hsn) in Hle; [|lia]. rewrite Hst in Hle. apply (stripe_earliest snaps Hsn) in Hle; lia.
      * intros x' out Hk Hs. by eapply compacts_clear.
  - cbv iota. replace (ci <| ci_input ::= Next |> <| ci_valid := true |> <| ci_at_next := true |>) with
      (ci <| ci_input ::= Next |> <| ci_valid := true |> <| ci_clear_and_output_next_key := false |> <| ci_at_next := true |>)
      by (pose proof (pr_clear _ _ _ _ _ Hp); by destruct ci; ci_simpl; subst).
    refine (single_shown ci o u v (w :: l) false (Some (u, stripe snaps (sq v))) Hp Hio _ Hcur _ _); [by intros ?| |].
    + intros _ _. apply Hprev. lia.
    + intros x' out Hk Hs. eapply compacts_keep; [by right|done|done|done].
Qed.

(** A single deletion. *)
Lemma single_deletion_ok ci o u v l :
  prepared ci false u v l -> input_ok (v :: l) -> ty v = kTypeSingleDeletion ->
  let ci' := single_deletion env (prev_snapshot_of snaps (sq v)) ci in
  shown ci' false o v l \/ dropped ci' false o v l.
Proof.
  intros Hp Hio Hty. unfold single_deletion. cbv zeta. pose proof (pr_input _ _ _ _ _ Hp) as (_ & _ & _ & Hin).
  pose proof (io_run _ Hio) as Hr.
  assert (Hcases : forall ci', (if ci_valid ci' then shown (ci' <| ci_at_next := true |>) false o v l else dropped ci' false o v l) ->
    shown (if ci_valid ci' then ci' <| ci_at_next := true |> else ci') false o v l \/
    dropped (if ci_valid ci' then ci' <| ci_at_next := true |> else ci') false o v l).
  { intros ci'. destruct (ci_valid ci'); auto. }
  apply Hcases. clear Hcases. change (ci_input (ci <| ci_input ::= Next |>)) with (Next (ci_input ci)).
  change (ci_ikey (ci <| ci_input ::= Next |>)) with (ci_ikey ci). rewrite (pr_ikey _ _ _ _ _ Hp). cbn [user_key].
  destruct l as [|w l]; cbn [fmap list_fmap yields] in Hin.
  - rewrite Hin. apply (alone_ok ci o u); [done|done|done|by intros w ?%not_elem_of_nil].
  - destruct Hin as (-> & -> & _). cbn [enc fst].
    pose proof (io_versions _ Hio) as [_ [[Hw _] _]%Forall_cons]%Forall_cons.
    rewrite ParseInternalKey_Append by done. cbv iota. pose proof (pr_same _ _ _ _ _ Hp) as Eu. rewrite Equal_same.
    destruct (bool_decide_reflect (same u (uk w))) as [Huw|Huw].
    + apply (match_ok ci o u); [done|done|done|by rewrite <- Eu].
    + apply (alone_ok ci o u); [done|done|done|]. pose proof Hr as (_ & Hb & Hr')%run_cons.
      apply run_past; [done|by apply before_user, Hb; left|by rewrite <- Eu].
Qed.

(** The last branches: no merge, no range deletion. *)
Lemma output_shown ci o u v l p :
  prepared ci false u v l -> input_ok (v :: l) -> ty v <> kTypeSingleDeletion -> zero_ok v -> ~ hidden snaps o v ->
  exists ci', (if type (ci_ikey ci) =? kTypeMerge then merge_operand env p ci else (Continue, plain_output env ci)) =
    (Continue, ci') /\ (shown ci' false o v l \/ dropped ci' false o v l).
Proof.
  intros Hp Hio Hsd Hz Hnh. rewrite (pr_ikey _ _ _ _ _ Hp). cbn [type].
  pose proof (io_versions _ Hio) as [[_ Hty] _]%Forall_cons. destruct (Z.eqb_spec (ty v) kTypeMerge) as [E|_].
  { by destruct Hty as [Hty|[Hty|Hty]]; rewrite E in Hty. }
  unfold plain_output. rewrite (eo_ranges _ Hok). eexists. split; [reflexivity|]. left.
  apply (plain_shown ci o u); [done|done|done|by left].
Qed.

(** One pass drops something or shows something. *)
Lemma next_pass_ok ci c o v l :
  scanning ci c o (v :: l) -> input_ok (v :: l) ->
  exists ci', next_pass env ci = (Continue, ci') /\ (shown ci' c o v l \/ dropped ci' c o v l).
Proof.
  intros Hsc Hio. destruct (next_pass_prepared ci c o v l (eo_snapshots _ Hok) (eo_filter _ Hok) Hsc Hio)
    as (ci' & u & s & b & -> & Hp & Hle & Hhid & Hsm).
  pose proof (io_versions _ Hio) as [[_ Hty] _]%Forall_cons. pose proof (pr_ikey _ _ _ _ _ Hp) as Ek.
  unfold dispatch. rewrite (pr_clear _ _ _ _ _ Hp). destruct c.
  { destruct (sc_clear_ok _ _ _ _ Hsc eq_refl) as (u' & w & l' & [= <- <-] & -> & Hu' & _).
    destruct (Hsm _ _ eq_refl Hu') as [-> ->]. eexists. split; [reflexivity|]. left.
    apply cleared_shown; [done|done|]. exact (sc_clear_ok _ _ _ _ Hsc). }
  rewrite Ek, (pr_snapshot _ _ _ _ _ Hp). cbn [type].
  destruct (Z.eqb_spec (ty v) kTypeSingleDeletion) as [Esd|Nsd].
  { eexists. split; [reflexivity|]. by apply single_deletion_ok with u. }
  destruct (Z.eqb_spec b (stripe snaps (sq v))) as [Eb|Nb].
  { apply Hhid in Eb as Hh. destruct o as [[u0 b0]|]; [|done]. destruct (Hsm _ _ eq_refl (proj1 Hh)) as [-> ->].
    eexists. split; [reflexivity|]. right. by apply hidden_dropped. }
  destruct (Z.eqb_spec (ty v) kTypeDeletion) as [Edel|Ndel].
  - destruct (obsolete_ok ci' u v l Hio (eo_levels _ Hok) (pr_steady _ _ _ _ _ Hp) (pr_same _ _ _ _ _ Hp))
      as (r & ptrs & -> & Hst & Ht & Hf); [by rewrite Ek..|]. destruct r.
    + eexists. split; [reflexivity|]. right. destruct (Ht eq_refl). by apply (obsolete_dropped ci' o u).
    + apply (output_shown _ o u v l); [by destruct Hp; split|done|done|by intros ? _; apply Hf|by rewrite Hhid].
  - apply (output_shown _ o u v l); [done|done|done|intros _ Hn; destruct Hn; tauto|by rewrite Hhid].
Qed.

(** The loop, one test at a time. *)
Lemma next_loop_pass fuel ci ci' :
  (forall n, shutting_down_ env n = false) -> ci_valid ci = false -> Valid (ci_input ci) = true ->
  next_pass env (ci <| ci_polls ::= S |>) = (Continue, ci') -> next_loop env (S fuel) ci = next_loop env fuel ci'.
Proof. intros Hd Hv Hin Hp. cbn [next_loop]. unfold IsShuttingDown. by rewrite Hv, Hin, Hd, Hp. Qed.

Lemma next_loop_end fuel ci :
  (forall n, shutting_down_ env n = false) -> ci_valid ci = false -> Valid (ci_input ci) = false ->
  next_loop env (S fuel) ci = Some (ci <| ci_polls ::= S |>).
Proof. intros Hd Hv Hin. cbn [next_loop]. unfold after_loop, IsShuttingDown. by rewrite Hv, Hin, Hd. Qed.

Lemma input_ok_drop k l : input_ok l -> input_ok (drop k l).
Proof.
  revert k. induction l as [|v l IH]; intros [|k] Hio; cbn [drop]; try done. apply IH. by eapply input_ok_tail.
Qed.

(** What [NextFromInput] leaves: the end of the input, or the next entry. *)
Definition ended (ci : CI) (c : bool) (o : option (bytes * Z)) (l : list version) : Prop :=
  ci_valid ci = false /\ steady ci [] /\ steps c o l [].

Definition found (ci : CI) (c : bool) (o : option (bytes * Z)) (l : list version) : Prop :=
  exists x c' o' l', resting ci c' o' l' /\ showing ci x /\ zero_ok x /\ version_ok x /\
    input_ok l' /\ (length l' < length l)%nat /\
    forall x' out, kept snaps zeroing x x' -> steps c' o' l' out -> steps c o l (x' :: out).

Lemma next_loop_ok fuel ci c o l :
  scanning ci c o l -> input_ok l -> (length l < fuel)%nat ->
  exists ci', next_loop env fuel ci = Some ci' /\ (ended ci' c o l \/ found ci' c o l).
Proof.
  revert ci c o l. induction fuel as [|fuel IH]; intros ci c o l Hsc Hio Hlen; [lia|].
  pose proof (sc_input _ _ _ _ Hsc) as Hin. pose proof (sc_valid _ _ _ _ Hsc) as Hv.
  destruct l as [|v l]; cbn [fmap list_fmap yields] in Hin.
  - rewrite (next_loop_end _ _ (eo_running _ Hok) Hv Hin). eexists. split; [reflexivity|]. left.
    apply scanning_poll in Hsc. destruct Hsc. split; [done|]. split; [done|].
    destruct c; [|constructor]. destruct (sc_clear_ok0 eq_refl) as (? & ? & ? & ? & _). discriminate.
  - destruct Hin as [Hin _].
    destruct (next_pass_ok _ _ _ _ _ (scanning_poll _ _ _ _ Hsc) Hio) as (ci' & Hp & Hres).
    rewrite (next_loop_pass _ _ _ (eo_running _ Hok) Hv Hin Hp).
    destruct Hres as [(x & c' & o' & Hrs & Hsh & Hz & Hvx & Hst)|(o' & l' & Hsc' & [k ->] & Hst)].
    + destruct fuel as [|fuel]; [cbn in Hlen; lia|]. cbn [next_loop]. rewrite (rs_valid _ _ _ _ Hrs). cbn [negb andb].
      unfold after_loop. rewrite (rs_valid _ _ _ _ Hrs). exists ci'. split; [done|]. right.
      exists x, c', o', l. do 4 (split; [done|]). split; [by eapply input_ok_tail|]. split; [cbn; lia|done].
    + destruct (IH ci' false o' (drop k l) Hsc') as (ci2 & -> & Hres).
      { apply input_ok_drop. by eapply input_ok_tail. }
      { rewrite length_drop. cbn in Hlen. lia. }
      exists ci2. split; [done|]. destruct Hres as [(Hv2 & Hsd & Hc)|(x & c' & o2 & l' & ? & ? & ? & ? & ? & Hl & Hc)].
      * left. split; [done|]. split; [done|]. by apply Hst.
      * right. exists x, c', o2, l'. do 5 (split; [done|]). split; [rewrite length_drop in Hl; cbn; lia|].
        intros x' out Hk Hs. by apply Hst, Hc.
Qed.

(** [PrepareOutput] leaves a version that may be kept for the one shown. *)
Lemma PrepareOutput_ok ci c o l x :
  resting ci c o l -> showing ci x -> zero_ok x ->
  exists x', kept snaps zeroing x x' /\ resting (PrepareOutput env ci) c o l /\
    (ci_current_key (PrepareOutput env ci), ci_value (PrepareOutput env ci)) = enc x'.
Proof.
  intros Hrs [(u & Hu & Ek) Hck Hval] Hz.
  assert (Hplain : exists x', kept snaps zeroing x x' /\ resting ci c o l /\ (ci_current_key ci, ci_value ci) = enc x').
  { exists (mkParsed u (sq x) (ty x), snd x). split; [|split; [done|unfold enc; by rewrite Hck, Ek, Hval]].
    split; [by symmetry|]. cbn. do 2 (split; [done|]). split; [by left|done]. }
  unfold PrepareOutput. destruct (compaction_ env) as [cp|] eqn:Ecp; [|done].
  destruct (_ && _) eqn:Et; [|done]. clear Hplain. bprop. destruct Hrs as [Hin Hv Hc Hco Hcur Hsd]. rewrite Ek in *. ci_simpl.
  assert (Hzero : zeroing = true).
  { unfold zeroing. pose proof (sd_bottommost _ _ Hsd) as Hb. rewrite Ecp in *. apply andb_true_iff. split; [|congruence].
    by apply negb_true_iff. }
  assert (Hle : sq x <= earliest snaps) by (rewrite <- (sd_earliest _ _ Hsd); lia).
  assert (Hty : ty x = kTypeValue).
  { destruct (Z.eq_dec (ty x) kTypeValue) as [|Hn]; [done|]. specialize (Hz Hzero Hn). lia. }
  rewrite Hty. exists (mkParsed u 0 (ty x), snd x). split; [|split].
  - split; [by symmetry|]. cbn. do 2 (split; [done|]). split; [by right|done].
  - unfold update_current_key, ci_assert. split; ci_simpl; try done.
    + destruct o as [[u0 b]|]; [|done]. destruct Hcur as (? & ? & ? & (s & t & E) & ?). ci_simpl.
      do 3 (split; [done|]). split; [|done]. rewrite E, UpdateInternalKey_Append. by eexists _, _.
    + by destruct Hsd.
  - unfold update_current_key, ci_assert, enc. ci_simpl. by rewrite Hck, UpdateInternalKey_Append, Hval, Ek.
Qed.

(** The entries from one that is shown on. *)
Lemma NextFromInput_ok fuel ci c o l :
  resting ci c o l -> input_ok l -> (length l < fuel)%nat ->
  exists ci', NextFromInput env fuel (if ci_at_next ci then ci else ci <| ci_input ::= Next |>) = Some ci' /\
    (ended ci' c o l \/ found ci' c o l).
Proof.
  intros [Hin Hv Hc Hco Hcur Hsd] Hio Hlen. unfold NextFromInput. apply next_loop_ok; [|done|done].
  destruct (ci_at_next ci); split; ci_simpl; try done; by destruct Hsd.
Qed.

Lemma PrepareOutput_invalid ci : ci_valid ci = false -> PrepareOutput env ci = ci.
Proof. intros Hv. unfold PrepareOutput. destruct (compaction_ env); [|done]. by rewrite Hv, !andb_false_r. Qed.

Lemma ci_Next_ok fuel ci c o l :
  resting ci c o l -> input_ok l -> (length l < fuel)%nat ->
  exists ci', ci_Next env fuel ci = Some (PrepareOutput env ci') /\ (ended ci' c o l \/ found ci' c o l).
Proof.
  intros Hrs Hio Hlen. unfold ci_Next. rewrite (sd_merge _ _ (rs_steady _ _ _ _ Hrs)). cbv zeta iota.
  destruct (NextFromInput_ok fuel ci c o l Hrs Hio Hlen) as (ci' & -> & Hres). cbn [fmap option_fmap option_map].
  destruct Hres as [Hend|(y & c' & o' & l' & Hrs2 & Hsh & Hres)].
  - rewrite (proj1 Hend). exists ci'. split; [done|by left].
  - rewrite (rs_valid _ _ _ _ Hrs2). exists (ci' <| ci_has_outputted_key := true |>). split; [done|]. right.
    exists y, c', o', l'. split; [|split; [by destruct Hsh; split|done]]. destruct Hrs2 as [? ? ? ? ? []]. by split.
Qed.

Lemma ci_drain_S fuel ci :
  ci_drain env (S fuel) ci =
  if ci_valid ci then
    ci' ← ci_Next env fuel ci; '(l, e) ← ci_drain env fuel ci'; Some ((ci_current_key ci, ci_value ci) :: l, e)
  else Some ([], ci).
Proof. done. Qed.

Lemma ci_drain_ok fuel ci c o l x :
  resting ci c o l -> showing ci x -> zero_ok x -> input_ok l -> (length l < fuel)%nat ->
  exists x' out e, ci_drain env (S fuel) (PrepareOutput env ci) = Some (enc <$> x' :: out, e) /\
    steady e [] /\ kept snaps zeroing x x' /\ steps c o l out.
Proof.
  revert ci c o l x. induction fuel as [|fuel IH]; intros ci c o l x Hrs Hsh Hz Hio Hlen; [lia|].
  destruct (PrepareOutput_ok ci c o l x Hrs Hsh Hz) as (x' & Hk & Hrs' & Henc).
  set (p := PrepareOutput env ci) in *. rewrite ci_drain_S, (rs_valid _ _ _ _ Hrs'), Henc.
  destruct (ci_Next_ok (S fuel) p c o l Hrs' Hio Hlen) as (ci' & -> & Hres). cbn [mbind option_bind].
  destruct Hres as [(Hv & Hsd & Hst)|(y & c' & o' & l' & Hrs2 & Hsh2 & Hz2 & _ & Hio2 & Hl & Hst)].
  - rewrite PrepareOutput_invalid by done. cbn [ci_drain]. rewrite Hv. exists x', [], ci'. done.
  - destruct (IH ci' c' o' l' y Hrs2 Hsh2 Hz2 Hio2) as (y' & out & e & -> & Hsd & Hky & Hs2); [lia|].
    exists x', (y' :: out), e. split; [done|]. split; [done|]. split; [done|]. by apply Hst.
Qed.

(** All entries, from the constructor on. *)
Lemma ci_outputs_ok fuel it l :
  yields it (enc <$> l) -> input_ok l -> (length l < fuel)%nat ->
  exists out e, ci_outputs env fuel it = Some (enc <$> out, e) /\ steady e [] /\ steps false None l out.
Proof.
  intros Hin Hio Hlen. unfold ci_outputs, ci_SeekToFirst, NextFromInput.
  destruct (next_loop_ok fuel _ _ _ _ (scanning_new it l (eo_filter _ Hok) Hin) Hio Hlen) as (ci & -> & Hres). cbn [fmap option_fmap option_map mbind option_bind].
  destruct fuel as [|fuel]; [lia|].
  destruct Hres as [(Hv & Hsd & Hst)|(y & c' & o' & l' & Hrs & Hsh & Hz & _ & Hio2 & Hl & Hst)].
  - rewrite PrepareOutput_invalid by done. cbn [ci_drain]. rewrite Hv. by exists [], ci.
  - destruct (ci_drain_ok fuel ci c' o' l' y Hrs Hsh Hz Hio2) as (y' & out & e & -> & Hsd & Hky & Hs2); [lia|].
    exists (y' :: out), e. split; [done|]. split; [done|]. by apply Hst.
Qed.
End Simulation.

(** ** The contract of the compaction iterator *)

Section Contract.
Context {ucmp : Comparator} {Ho : CompareOrder ucmp (fun _ => True)}.

(** A reader above all versions reads what a reader at the largest number reads. *)
Lemma read_tip deeper s u l :
  (forall v, v ∈ l -> sq v <= s) -> Forall (fun v => 0 <= sq v <= kMaxSequenceNumber) l ->
  read deeper s u l = read (fun _ => deeper s) kMaxSequenceNumber u l.
Proof.
  intros Htop Hf. induction l as [|v l IH]; [done|]. apply Forall_cons in Hf as [Hv Hf].
  assert (IH' := IH (fun w Hw => Htop w (list_elem_of_further _ _ _ Hw)) Hf). specialize (Htop v (list_elem_of_here _ _)).
  destruct (decide (same u (uk v))) as [Hu|Hu]; [by rewrite !read_hit by (done || lia)|by rewrite !read_skip by tauto].
Qed.

Lemma single_deletes_ok_puts deeper l : single_deletes_ok deeper l -> puts_follow l.
Proof.
  induction l as [|v l IH]; intros Hok; [done|]. pose proof (IH (single_deletes_ok_tail _ _ _ Hok)) as Hl.
  destruct l as [|w l]; [done|]. split; [|done]. intros Hty Hvw. specialize (Hok 0 (uk v)).
  rewrite versions_same, versions_same in Hok by done. destruct Hok as [Hno|[put [Hv [Hw _]]]].
  - by apply Forall_cons in Hno as [? _].
  - destruct put; [done|]. by rewrite Hty in Hv.
Qed.

(** It is enough to look at the user keys of the run. *)
Lemma single_deletes_ok_keys deeper l :
  (forall s u v, v ∈ l -> same u (uk v) -> single_delete_ok (deeper s u = None) (versions (uk v) l)) -> single_deletes_ok deeper l.
Proof.
  intros Hv s u. destruct (decide (Exists (fun v => same u (uk v)) l)) as [Hex|Hno].
  - apply Exists_exists in Hex as (v & Hin & Hu). specialize (Hv s u v Hin Hu).
    enough (E : versions u l = versions (uk v) l) by (by rewrite E). apply list_filter_iff. intros w. by rewrite Hu.
  - rewrite versions_absent; [left; constructor|]. intros v Hin Hu. apply Hno, Exists_exists. by exists v.
Qed.

Lemma input_ok_of {I} (env : CompactionEnv I) deeper vs :
  run vs -> Forall version_ok vs -> env_ok env vs -> single_deletes_ok deeper vs -> input_ok env vs.
Proof. intros Hr Hv He Hsd. split; [done|done|by eapply single_deletes_ok_puts|apply (eo_bottom _ _ He)]. Qed.

Lemma enc_sorted l :
  Forall version_ok l -> StronglySorted before l ->
  StronglySorted (fun a b => ahead (c := InternalKeyComparator ucmp) kForward (fst a) (fst b)) (enc <$> l).
Proof.
  intros Hf Hs. induction Hs as [|v l Hs IH Hh]; [constructor|]. apply Forall_cons in Hf as [Hv Hf].
  cbn [fmap list_fmap]. constructor; [by apply IH|]. apply Forall_fmap. rewrite Forall_forall in *.
  intros w Hw. cbn [compose ahead Compare InternalKeyComparator enc fst]. rewrite InternalKeyCompare_Append; [by apply Hh| |].
  - by destruct Hv as [[? _] _].
  - by destruct (Hf w Hw) as [[? _] _].
Qed.

Lemma compaction_gone {I} (env : CompactionEnv I) (deeper : Z -> bytes -> option bytes) :
  (forall s u cp, deeper s u <> None -> compaction_ env = Some cp -> in_beyond cp u) ->
  forall s u u', gone env u' -> same u u' -> deeper s u = None.
Proof.
  intros Hd s u u' (cp & Hcp & Hn) Hu. destruct (deeper s u) eqn:E; [|done]. exfalso. apply Hn.
  eapply in_beyond_same; [exact Hu|]. apply (Hd s u cp); [by rewrite E|done].
Qed.
End Contract.



(** C40: The iterator takes 0 for "no snapshot": the stripe of a user key starts at 0, so
    that with a live snapshot of sequence number 0 the first version of sequence number
    0 counts as hidden.  A put of sequence number 0, the only version of its key, is
    dropped without an error, and every reader loses it. *)
Theorem snapshot_zero_loses_put {ucmp : Comparator} {I : Type} `{InternalIterator I} (env : CompactionEnv I) it u val later fuel :
  CompareOrder ucmp (fun _ => True) -> snapshots_ env = 0 :: later -> compaction_filter_ env = None ->
  (forall n, shutting_down_ env n = false) -> yields it [enc (mkParsed u 0 kTypeValue, val)] -> (2 <= fuel)%nat ->
  exists e, ci_outputs env fuel it = Some ([], e) /\ ci_status e = OK /\
    forall deeper s, 0 <= s ->
      read deeper s u [(mkParsed u 0 kTypeValue, val)] = Some val /\ read deeper s u [] = deeper s u.
Proof.
  intros Ho Hs Hf Hd Hy Hfuel. destruct fuel as [|[|fuel]]; [lia|lia|].
  pose proof (scanning_new env it [(mkParsed u 0 kTypeValue, val)] Hf Hy) as Hsc.
  pose proof (sc_input _ _ _ _ _ Hsc) as (Hv & _ & _ & Hn).
  destruct (next_pass_zero env _ u val later Hf Hs (scanning_poll _ _ _ _ _ Hsc)) as (ci' & Hp & Hval' & Hin' & Hok).
  unfold ci_outputs, ci_SeekToFirst, NextFromInput.
  rewrite (next_loop_pass env _ _ ci' Hd (sc_valid _ _ _ _ _ Hsc)); [|exact Hv|exact Hp].
  rewrite (next_loop_end env fuel ci' Hd Hval'); [|rewrite Hin'; exact Hn]. cbn [fmap option_fmap option_map mbind option_bind].
  rewrite PrepareOutput_invalid by done. rewrite ci_drain_S.
  change (ci_valid (ci' <| ci_polls ::= S |>)) with (ci_valid ci'). rewrite Hval'. eexists. split; [reflexivity|]. split; [done|]. intros deeper s Hs0. split; [|done]. by rewrite read_hit.
Qed.

(** ** A concrete compaction *)

(** Two runs and three snapshots over a level that holds other keys, through the
    merging iterator. *)
Module Example.
Definition ucmp : Comparator := Bytewise.BytewiseComparator.
Definition icmp : Comparator := InternalKeyComparator ucmp.
#[local] Existing Instance ucmp.
Definition ItI : InternalIterator ListIterator := ListIterator_iterator (c := icmp).
Definition MItI : InternalIterator (MergedIterator ListIterator) := MergedIterator_iterator (c := icmp) (H := ItI).

Definition str (s : string) : bytes := String.list_byte_of_string s.
Definition ver (u : string) (s t : Z) (v : string) : version := (mkParsed (str u) s t, str v).

Definition newer : list version :=
  [ver "a" 12 kTypeValue "a12"; ver "a" 8 kTypeDeletion ""; ver "b" 11 kTypeSingleDeletion ""; ver "d" 30 kTypeSingleDeletion ""]%string.
Definition older : list version :=
  [ver "a" 7 kTypeValue "a7"; ver "a" 3 kTypeValue "a3"; ver "b" 9 kTypeValue "b9"; ver "c" 4 kTypeDeletion "";
   ver "c" 2 kTypeValue "c2"; ver "d" 29 kTypeValue "d29"; ver "e" 1 kTypeValue "e1"]%string.
Definition merged : list version :=
  [ver "a" 12 kTypeValue "a12"; ver "a" 8 kTypeDeletion ""; ver "a" 7 kTypeValue "a7"; ver "a" 3 kTypeValue "a3";
   ver "b" 11 kTypeSingleDeletion ""; ver "b" 9 kTypeValue "b9"; ver "c" 4 kTypeDeletion ""; ver "c" 2 kTypeValue "c2";
   ver "d" 30 kTypeSingleDeletion ""; ver "d" 29 kTypeValue "d29"; ver "e" 1 kTypeValue "e1"]%string.
Definition written : list version :=
  [ver "a" 12 kTypeValue "a12"; ver "a" 8 kTypeDeletion ""; ver "a" 0 kTypeValue "a3";
   ver "b" 11 kTypeSingleDeletion ""; ver "b" 9 kTypeValue "b9";
   ver "d" 30 kTypeSingleDeletion ""; ver "d" 29 kTypeValue ""; ver "e" 1 kTypeValue "e1"]%string.

Definition proxy : CompactionProxy := mkProxy 1 false true [[(str "x", str "z")]] (str "e") false.
Definition env : CompactionEnv (MergedIterator ListIterator) :=
  mkEnv [5; 10; 20] 20 true (Some proxy) None false (fun it _ _ => mkMergeResult OK [] it None) (fun _ => false) (fun _ => false).
Definition children : list ListIterator := [mkListIterator (enc <$> newer) None; mkListIterator (enc <$> older) None].
Definition input : MergedIterator ListIterator := NewMergingIterator (c := icmp) (H := ItI) children false.
Definition deeper (s : Z) (u : bytes) : option bytes := if Equal u (str "y") then Some (str "y") else None.

#[global] Instance ucmp_order : CompareOrder ucmp (fun _ => True) := _.
#[global] Instance children_ok : IteratorOk (c := icmp) (H := ItI) valid_internal_key (list_at (valid := valid_internal_key)).
Proof. exact (ListIterator_ok (c := icmp) (valid := valid_internal_key)). Qed.

Definition At : MergedIterator ListIterator -> list entry -> option entry -> Prop :=
  merged_at (c := icmp) (H := ItI) (list_at (valid := valid_internal_key)).

Lemma input_at : At input (concat [enc <$> newer; enc <$> older]) None.
Proof.
  assert (Hv : forall (l : list version) (e : entry), e ∈ enc <$> l -> valid_internal_key (fst e)).
  { intros l e (v & -> & _)%list_elem_of_fmap. apply valid_AppendInternalKey. }
  eapply (NewMergingIterator_at (c := icmp) (H := ItI)); [exact children_ok|..].
  - constructor; [|constructor; [|constructor]]; (split; [done|]; split; [done|]; split; [apply Hv|done]).
  - apply distinct_keys_apart.
    + cbn [concat]. rewrite app_nil_r, <- fmap_app. apply Hv.
    + repeat (constructor; [repeat (constructor; [vm_compute; congruence|]); constructor|]). constructor.
Qed.

Lemma merged_of_runs : enc <$> merged ≡ₚ concat [enc <$> newer; enc <$> older].
Proof. apply (bool_decide_eq_true_1 _). by vm_compute. Qed.

Lemma deeper_beyond s u cp : deeper s u <> None -> compaction_ env = Some cp -> in_beyond cp u.
Proof.
  intros Hd [= <-]. unfold deeper in Hd. rewrite Equal_same in Hd. case_bool_decide as Hy; [|done].
  apply (in_beyond_same _ (str "y"%string)); [by symmetry|]. left. left. by vm_compute.
Qed.

Lemma run_merged : run merged.
Proof.
  split; [|repeat (constructor; [vm_compute; split; congruence|]); constructor].
  repeat (constructor; [|repeat (constructor; [by vm_compute|]); constructor]). constructor.
Qed.

Lemma versions_merged : Forall version_ok merged.
Proof.
  assert (Hd : forallb (fun v => bool_decide (version_ok v)) merged = true) by (by vm_compute).
  apply Forall_forall. intros v Hv. rewrite forallb_forall in Hd. apply list_elem_of_In, Hd in Hv.
  by apply bool_decide_eq_true in Hv.
Qed.

Lemma beyond_iff u : in_beyond proxy u <-> 0 <= Compare u (str "x"%string) /\ Compare u (str "z"%string) <= 0.
Proof. unfold in_beyond. cbn [cp_beyond proxy]. rewrite !Exists_cons, !Exists_nil. unfold in_file. cbn [fst snd]. tauto. Qed.

Lemma env_merged : env_ok env merged.
Proof.
  split; try done.
  - split; repeat constructor; vm_compute; congruence.
  - intros cp [= <-]. repeat constructor. vm_compute. congruence.
  - intros cp [= <-] _ v Hv. rewrite beyond_iff. revert v Hv. apply Forall_forall.
    repeat (constructor; [vm_compute; intros [? ?]; congruence|]). constructor.
Qed.

(** Keys whose versions have no single deletion, or alternate, with nothing below. *)
Definition alternate (put : bool) (l : list version) : bool :=
  bool_decide (type <$> (fst <$> l) = (fun i => if xorb put (Nat.even i) then kTypeValue else kTypeSingleDeletion) <$> seq 0 (length l)).

Lemma alternate_alternates put (none : Prop) l : none -> alternate put l = true -> alternates put none l.
Proof.
  intros Hn. unfold alternate. rewrite bool_decide_eq_true. revert put. induction l as [|v l IH]; intros put E.
  - by destruct put.
  - cbn [fmap list_fmap length seq alternates] in *. injection E as Ev E. split; [by destruct put|]. apply IH. rewrite E.
    rewrite <- (fmap_S_seq 0), <- list_fmap_compose. apply list_fmap_ext. intros i x _. unfold compose.
    rewrite Nat.even_succ, <- Nat.negb_even. by destruct put, (Nat.even x).
Qed.

Lemma deletes_merged : single_deletes_ok deeper merged.
Proof.
  apply single_deletes_ok_keys. intros s u v Hv Hu.
  assert (Hd : deeper s u = None).
  { unfold deeper. rewrite Equal_same, bool_decide_eq_false_2; [done|]. intros E.
    assert (Hn : forallb (fun v => negb (Equal (uk v) (str "y"%string))) merged = true) by (by vm_compute).
    rewrite forallb_forall in Hn. apply list_elem_of_In, Hn in Hv. rewrite Equal_same, bool_decide_eq_true_2 in Hv; [done|].
    by rewrite <- Hu. }
  assert (Hn : forallb (fun v => forallb (fun w => negb (ty w =? kTypeSingleDeletion)) (versions (uk v) merged) ||
    alternate true (versions (uk v) merged)) merged = true) by (by vm_compute).
  rewrite forallb_forall in Hn. apply list_elem_of_In, Hn, orb_true_iff in Hv as [Hv|Hv].
  - left. apply Forall_forall. intros w Hw. rewrite forallb_forall in Hv. apply list_elem_of_In, Hv in Hw. lia.
  - right. exists true. by apply alternate_alternates.
Qed.
End Example.

#[local] Existing Instance Example.ucmp.
#[local] Existing Instance Example.MItI.
#[local] Notation inputs_ok f := (f Example.At Example.env Example.input _ None Example.merged Example.deeper 20%nat _
  (MergedIterator_ok (c := Example.icmp) (H := Example.ItI) _) Example.input_at Example.merged_of_runs Example.run_merged
  Example.versions_merged Example.env_merged Example.deletes_merged).



Lemma key_not_exists_exact_witness :
  let s := Example.str in
  let cp := mkProxy 1 false false [[(s "b", s "d"); (s "d", s "f")]; [(s "c", s "c"); (s "m", s "p")]]%string (s "z"%string) false in
  key_tests cp [0; 0]%nat (s <$> ["a"; "b"; "e"; "g"; "m"; "q"]%string) = [true; false; false; true; false; true].
Proof.
  intros s cp. etransitivity.
  - apply (key_not_exists_exact cp (s <$> ["a"; "b"; "e"; "g"; "m"; "q"]%string)); [exact _|reflexivity| |].
    + repeat constructor; vm_compute; congruence.
    + repeat (constructor; [|repeat (constructor; [vm_compute; congruence|]); constructor]). constructor.
  - vm_compute. reflexivity.
Defined.

Lemma snapshot_zero_loses_put_witness :
  let env := mkEnv [0; 7] 7 true None None false (fun it _ _ => mkMergeResult OK [] it None) (fun _ => false) (fun _ => false) in
  let put : version := (mkParsed (Example.str "k"%string) 0 kTypeValue, Example.str "v"%string) in
  exists e, ci_outputs (H := Example.ItI) env 2 (mkListIterator [enc put] (Some (enc put))) = Some ([], e).
Proof.
  intros env put.
  destruct (snapshot_zero_loses_put (H := Example.ItI) env (mkListIterator [enc put] (Some (enc put)))
    (Example.str "k"%string) (Example.str "v"%string) [7] 2 _ eq_refl eq_refl (fun _ => eq_refl)) as (e & He & _).
  - vm_compute. tauto.
  - lia.
  - exists e. exact He.
Defined.
