(* ===== verification/SnapshotList.v ===== *)
(** * The list of snapshots (db/snapshot_impl.h, db/db_impl.cc)

    Snapshots are nodes of a doubly-linked circular list.  The model keeps the memory
    of the nodes, with the assignments of the code one after another; the dummy head
    [list_] has the address 0.  [SnapshotSpec] is what the list stands for: the live
    snapshots in the order in which they were taken.  The system takes and releases
    snapshots while writes raise the last sequence number, and what GetAll hands to
    flushes and compactions is what the compaction iterator expects. *)

From S2P Require Import Prelude Coding DbFormat CompactionIterator CompactionReads.
From stdpp Require Import base list gmap sorting.
From Stdlib Require Import ZArith Lia.
#[local] Open Scope Z_scope.

(** ** The nodes *)

Record SnapshotImpl := mkSnapshot {
  number_ : Z;
  prev_ : nat;
  next_ : nat;
  unix_time_ : Z;
  is_write_conflict_boundary_ : bool
}.
#[export] Instance eta_SnapshotImpl : Settable SnapshotImpl := fun s =>
  mkSnapshot (number_ s) (prev_ s) (next_ s) (unix_time_ s) (is_write_conflict_boundary_ s).

(** The memory of the nodes, the head at 0, and the count. *)
Record SnapshotList := mkSnapshotList { nodes : gmap nat SnapshotImpl; count_ : Z }.

Definition list_ : nat := 0.

(** A node that is not allocated reads as zeros. *)
Definition node (m : gmap nat SnapshotImpl) (a : nat) : SnapshotImpl := default (mkSnapshot 0 0 0 0 false) (m !! a).

Definition set_next (a v : nat) (m : gmap nat SnapshotImpl) : gmap nat SnapshotImpl := alter (fun s => s <| next_ := v |>) a m.
Definition set_prev (a v : nat) (m : gmap nat SnapshotImpl) : gmap nat SnapshotImpl := alter (fun s => s <| prev_ := v |>) a m.

(** ** Operations *)

Definition SnapshotList_new : SnapshotList := mkSnapshotList {[ list_ := mkSnapshot 0xFFFFFFFF list_ list_ 0 false ]} 0.

Definition sl_empty (l : SnapshotList) : bool := (next_ (node (nodes l) list_) =? list_)%nat.
Definition sl_oldest (l : SnapshotList) : nat := next_ (node (nodes l) list_).
Definition newest (l : SnapshotList) : nat := prev_ (node (nodes l) list_).

(** [s] is the address of a new node. *)
Definition New (s : nat) (seq unix_time : Z) (is_write_conflict_boundary : bool) (l : SnapshotList) : SnapshotList :=
  let m := nodes l in
  let m := <[s := mkSnapshot seq (prev_ (node m list_)) list_ unix_time is_write_conflict_boundary]> m in
  let m := set_next (prev_ (node m s)) s m in
  let m := set_prev (next_ (node m s)) s m in
  mkSnapshotList m (u64 (count_ l + 1)).

Definition Delete (s : nat) (l : SnapshotList) : SnapshotList :=
  let m := nodes l in
  let m := set_next (prev_ (node m s)) (next_ (node m s)) m in
  let m := set_prev (next_ (node m s)) (prev_ (node m s)) m in
  mkSnapshotList m (u64 (count_ l - 1)).

(** The loop of [GetAll] from the node [s]: the numbers, and the first number of a
    write-conflict boundary; [None] when the fuel is used up. *)
Fixpoint GetAll_loop (fuel : nat) (m : gmap nat SnapshotImpl) (s : nat) (ret : list Z) (oldest_conflict : Z)
  : option (list Z * Z) :=
  match fuel with
  | O => None
  | S fuel =>
      let n := next_ (node m s) in
      if (n =? list_)%nat then Some (ret, oldest_conflict)
      else
        GetAll_loop fuel m n (ret ++ [number_ (node m n)])
          (if (oldest_conflict =? kMaxSequenceNumber) && is_write_conflict_boundary_ (node m n)
           then number_ (node m n) else oldest_conflict)
  end.

Definition GetAll (fuel : nat) (l : SnapshotList) : option (list Z * Z) :=
  if sl_empty l then Some ([], kMaxSequenceNumber) else GetAll_loop fuel (nodes l) list_ [] kMaxSequenceNumber.

Definition GetNewest (l : SnapshotList) : Z := if sl_empty l then 0 else number_ (node (nodes l) (newest l)).
Definition GetOldestSnapshotTime (l : SnapshotList) : Z := if sl_empty l then 0 else unix_time_ (node (nodes l) (sl_oldest l)).

(** ** Snapshots of the database *)

(** The list with the last sequence number of the versions. *)
Record SnapshotDb := mkSnapshotDb { snapshot_list : SnapshotList; last_sequence_ : Z }.

(** GetSnapshotImpl; [s] is the node that was allocated. *)
Definition GetSnapshotImpl (is_snapshot_supported : bool) (s : nat) (unix_time : Z) (is_write_conflict_boundary : bool)
    (db : SnapshotDb) : option nat * SnapshotDb :=
  if is_snapshot_supported then
    (Some s, mkSnapshotDb (New s (last_sequence_ db) unix_time is_write_conflict_boundary (snapshot_list db)) (last_sequence_ db))
  else (None, db).

(** ReleaseSnapshot unlinks the node and frees it. *)
Definition ReleaseSnapshot (s : nat) (db : SnapshotDb) : SnapshotDb :=
  let l := Delete s (snapshot_list db) in
  mkSnapshotDb (mkSnapshotList (delete s (nodes l)) (count_ l)) (last_sequence_ db).

Definition HasActiveSnapshotLaterThanSN (sn : Z) (db : SnapshotDb) : bool :=
  if sl_empty (snapshot_list db) then false
  else number_ (node (nodes (snapshot_list db)) (newest (snapshot_list db))) >? sn.

(** ** The ring *)

#[local] Notation mem := (gmap nat SnapshotImpl).
Definition nx (m : mem) (a : nat) : option nat := next_ <$> m !! a.
Definition pv (m : mem) (a : nat) : option nat := prev_ <$> m !! a.

(** From [x] the nodes [l] lead to [y], and back. *)
Fixpoint seg (m : mem) (x : nat) (l : list nat) (y : nat) : Prop :=
  match l with
  | [] => nx m x = Some y /\ pv m y = Some x
  | a :: l => nx m x = Some a /\ pv m a = Some x /\ seg m a l y
  end.

Lemma seg_app m x l1 a l2 y : seg m x (l1 ++ a :: l2) y <-> seg m x l1 a /\ seg m a l2 y.
Proof. revert x. induction l1 as [|b l1 IH]; intros x; cbn [seg app]; [tauto|]. rewrite IH. tauto. Qed.

(** Only the forward links before [y] and the backward links after [x] matter. *)
Lemma seg_ext m m' x l y :
  (forall a, a ∈ x :: l -> nx m' a = nx m a) -> (forall a, a ∈ l ++ [y] -> pv m' a = pv m a) ->
  seg m x l y -> seg m' x l y.
Proof.
  revert x. induction l as [|a l IH]; intros x Hn Hp; cbn [seg].
  - rewrite Hn by left. by rewrite Hp by left.
  - rewrite Hn by left. rewrite Hp by left. intros (? & ? & ?). do 2 (split; [done|]).
    apply IH; [|intros b Hb; apply Hp; by right|done]. intros b Hb. apply Hn. by right.
Qed.

Lemma seg_nodes m x l y a : seg m x l y -> a ∈ l -> is_Some (m !! a).
Proof.
  revert x. induction l as [|b l IH]; intros x; cbn [seg]; [by intros _ ?%not_elem_of_nil|].
  intros (_ & Hp & Hs) [->|Ha]%elem_of_cons; [|by eapply IH]. unfold pv in Hp. by destruct (m !! b).
Qed.

Lemma seg_ends m x l y : seg m x l y -> is_Some (m !! x) /\ is_Some (m !! y).
Proof.
  revert x. induction l as [|b l IH]; intros x; cbn [seg]; unfold nx, pv.
  - intros [Hn Hp]. by destruct (m !! x), (m !! y).
  - intros (Hn & Hp & Hs). split; [by destruct (m !! x)|by eapply IH].
Qed.

Lemma nx_set_next a v m b : nx (set_next a v m) b = if decide (b = a) then (fun _ => v) <$> m !! a else nx m b.
Proof.
  unfold nx, set_next. destruct (decide (b = a)) as [->|Hn]; [rewrite lookup_alter|by rewrite lookup_alter_ne].
  rewrite decide_True by done. by destruct (m !! a).
Qed.
Lemma pv_set_next a v m b : pv (set_next a v m) b = pv m b.
Proof.
  unfold pv, set_next. destruct (decide (b = a)) as [->|Hn]; [rewrite lookup_alter|by rewrite lookup_alter_ne].
  rewrite decide_True by done. by destruct (m !! a).
Qed.
Lemma nx_set_prev a v m b : nx (set_prev a v m) b = nx m b.
Proof.
  unfold nx, set_prev. destruct (decide (b = a)) as [->|Hn]; [rewrite lookup_alter|by rewrite lookup_alter_ne].
  rewrite decide_True by done. by destruct (m !! a).
Qed.
Lemma pv_set_prev a v m b : pv (set_prev a v m) b = if decide (b = a) then (fun _ => v) <$> m !! a else pv m b.
Proof.
  unfold pv, set_prev. destruct (decide (b = a)) as [->|Hn]; [rewrite lookup_alter|by rewrite lookup_alter_ne].
  rewrite decide_True by done. by destruct (m !! a).
Qed.

(** The last node of a segment, and leading it elsewhere. *)
Lemma seg_last m x l y : seg m x l y -> exists l0 p, x :: l = l0 ++ [p] /\ nx m p = Some y /\ pv m y = Some p.
Proof.
  revert x. induction l as [|a l IH]; intros x; cbn [seg].
  - intros [Hn Hp]. by exists [], x.
  - intros (_ & _ & Hs). destruct (IH a Hs) as (l0 & p & -> & ?). by exists (x :: l0), p.
Qed.

Lemma seg_retarget m m' x l y z l0 p :
  seg m x l y -> x :: l = l0 ++ [p] -> nx m' p = Some z -> pv m' z = Some p ->
  (forall a, a ∈ l0 -> nx m' a = nx m a) -> (forall a, a ∈ l -> pv m' a = pv m a) -> seg m' x l z.
Proof.
  revert x l0. induction l as [|a l IH]; intros x l0; cbn [seg].
  - intros _ E. destruct l0 as [|b l0]; [|by destruct l0]. by injection E as ->.
  - intros (Hn & Hp & Hs) E Hnz Hpz Hn' Hp'. destruct l0 as [|b l0]; [done|]. injection E as -> E.
    rewrite Hn' by left. rewrite Hp' by left. do 2 (split; [done|]).
    eapply IH; [exact Hs|exact E|done|done| |]; intros c Hc; [apply Hn'|apply Hp']; by right.
Qed.

(** ** What the list stands for *)

(** A live snapshot: its node, sequence number, time, and whether it is a boundary for
    write conflicts. *)
Record Snap := mkSnap { sn_node : nat; sn_number : Z; sn_time : Z; sn_conflict : bool }.

Definition holds (m : mem) (s : Snap) : Prop :=
  number_ (node m (sn_node s)) = sn_number s /\ unix_time_ (node m (sn_node s)) = sn_time s /\
  is_write_conflict_boundary_ (node m (sn_node s)) = sn_conflict s.

(** The live snapshots in the order in which they were taken; no other node is
    allocated. *)
Record represents (l : SnapshotList) (sp : list Snap) : Prop := {
  rp_ring : seg (nodes l) list_ (sn_node <$> sp) list_;
  rp_nodup : NoDup (list_ :: (sn_node <$> sp));
  rp_data : Forall (holds (nodes l)) sp;
  rp_count : count_ l = u64 (Z.of_nat (length sp));
  rp_dom : forall a, is_Some (nodes l !! a) <-> a ∈ list_ :: (sn_node <$> sp)
}.

Lemma represents_new : represents SnapshotList_new [].
Proof.
  split; [done|apply NoDup_singleton|constructor|done|]. intros a. cbn [SnapshotList_new nodes fmap list_fmap].
  rewrite lookup_singleton, list_elem_of_singleton. destruct (decide (list_ = a)) as [->|Hn]; [done|].
  split; [by intros []|]. by intros ->.
Qed.

Lemma nx_node m a b : nx m a = Some b -> next_ (node m a) = b.
Proof. unfold nx, node. destruct (m !! a); [|done]. cbn. congruence. Qed.
Lemma pv_node m a b : pv m a = Some b -> prev_ (node m a) = b.
Proof. unfold pv, node. destruct (m !! a); [|done]. cbn. congruence. Qed.

(** The links do not change what a node holds. *)
Lemma holds_set_next m a v s : holds (set_next a v m) s <-> holds m s.
Proof.
  unfold holds, node, set_next. destruct (decide (sn_node s = a)) as [->|]; [|by rewrite lookup_alter_ne].
  rewrite lookup_alter, decide_True by done. by destruct (m !! a).
Qed.
Lemma holds_set_prev m a v s : holds (set_prev a v m) s <-> holds m s.
Proof.
  unfold holds, node, set_prev. destruct (decide (sn_node s = a)) as [->|]; [|by rewrite lookup_alter_ne].
  rewrite lookup_alter, decide_True by done. by destruct (m !! a).
Qed.

Lemma nx_insert m s v a : nx (<[s := v]> m) a = if decide (a = s) then Some (next_ v) else nx m a.
Proof. unfold nx. destruct (decide (a = s)) as [->|]; [by rewrite lookup_insert_eq|by rewrite lookup_insert_ne]. Qed.
Lemma pv_insert m s v a : pv (<[s := v]> m) a = if decide (a = s) then Some (prev_ v) else pv m a.
Proof. unfold pv. destruct (decide (a = s)) as [->|]; [by rewrite lookup_insert_eq|by rewrite lookup_insert_ne]. Qed.

Lemma set_next_dom a v m b : is_Some (set_next a v m !! b) <-> is_Some (m !! b).
Proof.
  unfold set_next. destruct (decide (b = a)) as [->|]; [|by rewrite lookup_alter_ne].
  rewrite lookup_alter, decide_True by done. by rewrite fmap_is_Some.
Qed.
Lemma set_prev_dom a v m b : is_Some (set_prev a v m !! b) <-> is_Some (m !! b).
Proof.
  unfold set_prev. destruct (decide (b = a)) as [->|]; [|by rewrite lookup_alter_ne].
  rewrite lookup_alter, decide_True by done. by rewrite fmap_is_Some.
Qed.

Lemma holds_insert m s v x : sn_node x <> s -> holds (<[s := v]> m) x <-> holds m x.
Proof. intros Hn. unfold holds, node. by rewrite lookup_insert_ne. Qed.

(** The assignments of [New], when [p] is the last node. *)
Lemma New_nodes s seq time conflict l p :
  pv (nodes l) list_ = Some p -> p <> s -> s <> list_ ->
  nodes (New s seq time conflict l) =
    set_prev list_ s (set_next p s (<[s := mkSnapshot seq p list_ time conflict]> (nodes l))).
Proof.
  intros Hp Hps Hs. unfold New. cbv zeta. cbn [nodes]. rewrite (pv_node _ _ _ Hp).
  set (m := <[s := _]> (nodes l)).
  replace (prev_ (node m s)) with p by (unfold m, node; by rewrite lookup_insert_eq).
  by replace (next_ (node (set_next p s m) s)) with list_
    by (unfold m, node, set_next; by rewrite lookup_alter_ne, lookup_insert_eq).
Qed.

(** A fresh node is linked in at the end. *)
Lemma New_represents s seq time conflict l sp :
  represents l sp -> nodes l !! s = None -> represents (New s seq time conflict l) (sp ++ [mkSnap s seq time conflict]).
Proof.
  intros [Hring Hnd Hdata Hcount Hdom] Hs. destruct (seg_last _ _ _ _ Hring) as (l0 & p & Hl0 & Hnp & Hp0).
  assert (Hfresh : s ∉ list_ :: (sn_node <$> sp)) by (rewrite <- Hdom, Hs; by intros []).
  assert (Hps : p <> s) by (intros ->; apply Hfresh; rewrite Hl0; apply elem_of_app; right; left).
  assert (Hs0 : s <> list_) by (intros ->; apply Hfresh; left).
  pose proof (New_nodes s seq time conflict l p Hp0 Hps Hs0) as Em.
  assert (Hn : forall a, nx (nodes (New s seq time conflict l)) a =
    if decide (a = p) then Some s else if decide (a = s) then Some list_ else nx (nodes l) a).
  { intros a. rewrite Em, nx_set_prev, nx_set_next, nx_insert. destruct (decide (a = p)); [|done].
    rewrite lookup_insert_ne by done. unfold nx in Hnp. by destruct (nodes l !! p). }
  assert (Hp : forall a, pv (nodes (New s seq time conflict l)) a =
    if decide (a = list_) then Some s else if decide (a = s) then Some p else pv (nodes l) a).
  { intros a. rewrite Em, pv_set_prev, pv_set_next, pv_insert. destruct (decide (a = list_)); [|done].
    destruct (proj2 (set_next_dom p s (<[s := mkSnapshot seq p list_ time conflict]> (nodes l)) list_)) as [x ->]; [|done].
    rewrite lookup_insert_ne by done. apply Hdom. left. }
  pose proof Hnd as Hnd2. rewrite Hl0 in Hnd2. apply NoDup_app in Hnd2 as (_ & Hdis & _). apply NoDup_cons in Hnd as [Hn0 Hnd].
  split.
  - rewrite fmap_app. cbn [fmap list_fmap]. apply seg_app. split.
    + eapply seg_retarget; [exact Hring|exact Hl0|by rewrite Hn, decide_True| | |].
      * by rewrite Hp, decide_False, decide_True.
      * intros a Ha. rewrite Hn, !decide_False; [done| |].
        -- intros ->. apply Hfresh. rewrite Hl0. apply elem_of_app. by left.
        -- intros ->. apply (Hdis p Ha). left.
      * intros a Ha. rewrite Hp, !decide_False; [done| |]; intros ->; [apply Hfresh; by right|done].
    + cbn [seg]. rewrite Hn, Hp, decide_False, !decide_True by done. done.
  - rewrite fmap_app, app_comm_cons. apply NoDup_app. split; [by apply NoDup_cons|].
    split; [|apply NoDup_singleton]. by intros a Ha ->%list_elem_of_singleton.
  - rewrite Em. apply Forall_app. split.
    + rewrite Forall_forall in *. intros x Hx. rewrite holds_set_prev, holds_set_next, holds_insert; [by apply Hdata|].
      intros <-. apply Hfresh. right. by apply list_elem_of_fmap_2.
    + constructor; [|constructor]. rewrite holds_set_prev, holds_set_next. unfold holds, node. cbn [sn_node].
      by rewrite lookup_insert_eq.
  - unfold New. cbn [count_]. rewrite Hcount, length_app. unfold u64. rewrite Nat2Z.inj_add. by rewrite Zplus_mod_idemp_l.
  - intros a. rewrite Em, set_prev_dom, set_next_dom, fmap_app, app_comm_cons, elem_of_app, <- Hdom. cbn [fmap list_fmap sn_node].
    rewrite list_elem_of_singleton. destruct (decide (a = s)) as [->|Hne].
    + rewrite lookup_insert_eq. split; [by right|done].
    + rewrite lookup_insert_ne by done. tauto.
Qed.

(** Node [s] is unlinked between its neighbours. *)
Lemma Delete_nodes s l p n :
  pv (nodes l) s = Some p -> nx (nodes l) s = Some n -> p <> s ->
  nodes (Delete s l) = set_prev n p (set_next p n (nodes l)).
Proof.
  intros Hp Hn Hps. unfold Delete. cbv zeta. cbn [nodes]. rewrite (pv_node _ _ _ Hp), (nx_node _ _ _ Hn).
  set (m := set_next p n (nodes l)).
  replace (next_ (node m s)) with n by (symmetry; apply nx_node; unfold m; by rewrite nx_set_next, decide_False by done).
  by replace (prev_ (node m s)) with p by (symmetry; apply pv_node; unfold m; by rewrite pv_set_next).
Qed.

Lemma lookup_delete_links m s a : a <> s -> nx (delete s m) a = nx m a /\ pv (delete s m) a = pv m a.
Proof. intros Hn. unfold nx, pv. by rewrite lookup_delete_ne. Qed.

(** The ring without [s]. *)
Lemma seg_unlink m x a1 s a2 y l0 p :
  seg m x a1 s -> seg m s a2 y -> x :: a1 = l0 ++ [p] -> NoDup (x :: a1 ++ s :: a2) -> NoDup (a1 ++ s :: a2 ++ [y]) ->
  let n := match a2 with [] => y | b :: _ => b end in
  seg (delete s (set_prev n p (set_next p n m))) x (a1 ++ a2) y.
Proof.
  intros H1 H2 Hl0 Hnd Hnd'. cbv zeta. set (n := match a2 with [] => y | b :: _ => b end).
  set (m' := delete s (set_prev n p (set_next p n m))).
  assert (Hpin : p ∈ x :: a1) by (rewrite Hl0; apply elem_of_app; right; left).
  rewrite app_comm_cons in Hnd. apply NoDup_app in Hnd as (Hnd1 & Hd1 & [Hs2 _]%NoDup_cons).
  apply NoDup_app in Hnd' as (_ & Hd2 & [Hs2' Hnd2]%NoDup_cons).
  rewrite Hl0 in Hnd1. apply NoDup_app in Hnd1 as (_ & Hdl0 & _).
  assert (Hns : n ∈ a2 ++ [y]) by (unfold n; destruct a2; left).
  assert (Hps : p <> s) by (intros ->; apply (Hd1 s Hpin); left).
  assert (Hn_ : forall a, a <> s -> nx m' a = if decide (a = p) then (fun _ => n) <$> m !! p else nx m a).
  { intros a Ha. unfold m'. rewrite (proj1 (lookup_delete_links _ _ _ Ha)), nx_set_prev, nx_set_next. done. }
  assert (Hp_ : forall a, a <> s -> pv m' a = if decide (a = n) then (fun _ => p) <$> set_next p n m !! n else pv m a).
  { intros a Ha. unfold m'. rewrite (proj2 (lookup_delete_links _ _ _ Ha)), pv_set_prev, pv_set_next. done. }
  assert (Hsn : n <> s) by (intros ->; by apply Hs2').
  assert (Hm : is_Some (m !! n)).
  { destruct a2 as [|b a2]; unfold n; [exact (proj2 (seg_ends _ _ _ _ H2))|]. eapply seg_nodes; [exact H2|left]. }
  assert (Hreach : seg m' x a1 n).
  { eapply (seg_retarget m); [exact H1|exact Hl0| | | |].
    - rewrite Hn_, decide_True by done. assert (Hmp : is_Some (m !! p)).
      { apply elem_of_cons in Hpin as [->|Hin]; [exact (proj1 (seg_ends _ _ _ _ H1))|exact (seg_nodes _ _ _ _ _ H1 Hin)]. }
      by destruct Hmp as [? ->].
    - rewrite Hp_, decide_True by done. by destruct (proj2 (set_next_dom p n m n) Hm) as [? ->].
    - intros a Ha. rewrite Hn_, decide_False; [done|intros ->; apply (Hdl0 p Ha); left|].
      intros ->. apply (Hd1 s); [|left]. rewrite Hl0. apply elem_of_app. by left.
    - intros a Ha. rewrite Hp_, decide_False; [done|intros ->; apply (Hd2 n Ha); by right|].
      intros ->. apply (Hd2 s Ha). left. }
  destruct a2 as [|b a2]; [by rewrite app_nil_r|]. apply seg_app. split; [done|]. destruct H2 as (_ & _ & H2).
  eapply seg_ext; [| |exact H2]; intros a Ha.
  - rewrite Hn_, decide_False; [done|intros ->; apply (Hd1 p Hpin); by right|intros ->; by apply Hs2].
  - apply NoDup_cons in Hnd2 as [Hb _]. rewrite Hp_, decide_False; [done|by intros ->|]. intros ->. apply Hs2'. by right.
Qed.

(** A live snapshot is unlinked and freed. *)
Lemma ReleaseSnapshot_represents s db sp1 sp2 x :
  represents (snapshot_list db) (sp1 ++ x :: sp2) -> sn_node x = s ->
  represents (snapshot_list (ReleaseSnapshot s db)) (sp1 ++ sp2).
Proof.
  intros [Hring Hnd Hdata Hcount Hdom] Hx. unfold ReleaseSnapshot. cbn [snapshot_list].
  set (l := snapshot_list db) in *. rewrite fmap_app in *. cbn [fmap list_fmap] in *. rewrite Hx in *.
  pose proof Hring as [H1 H2]%seg_app. destruct (seg_last _ _ _ _ H1) as (l0 & p & Hl0 & Hnp & Hps).
  assert (Hnd' : NoDup ((sn_node <$> sp1) ++ s :: (sn_node <$> sp2) ++ [list_])).
  { apply NoDup_cons in Hnd as [Hn0 Hnd]. rewrite app_comm_cons, app_assoc. apply NoDup_app. split; [done|].
    split; [|apply NoDup_singleton]. by intros a Ha ->%list_elem_of_singleton. }
  set (n := match sn_node <$> sp2 with [] => list_ | b :: _ => b end).
  assert (Hns : nx (nodes l) s = Some n) by (unfold n; destruct sp2; apply H2).
  assert (Hne : p <> s).
  { intros ->. rewrite app_comm_cons, Hl0, <- app_assoc in Hnd. apply NoDup_app in Hnd as (_ & _ & Hnd).
    apply NoDup_cons in Hnd as [Hnd _]. apply Hnd. left. }
  rewrite (Delete_nodes s l p n Hps Hns Hne). split; cbn [nodes count_].
  - rewrite fmap_app. by eapply seg_unlink.
  - rewrite fmap_app. eapply sublist_NoDup; [exact Hnd|apply sublist_skip, sublist_app; [done|by apply sublist_cons]].
  - rewrite Forall_app, Forall_cons in Hdata. destruct Hdata as (Hd1 & _ & Hd2).
    assert (Hout : forall y, y ∈ sp1 ++ sp2 -> sn_node y <> s).
    { intros y Hy E. apply NoDup_cons in Hnd as [_ Hnd]. apply NoDup_app in Hnd as (_ & Hdis & [Hs2 _]%NoDup_cons).
      apply elem_of_app in Hy as [Hy|Hy]; apply (list_elem_of_fmap_2 sn_node) in Hy; rewrite E in Hy;
        [apply (Hdis s Hy); left|done]. }
    assert (Hd : Forall (holds (nodes l)) (sp1 ++ sp2)) by (by apply Forall_app). rewrite Forall_forall in *.
    intros y Hy. specialize (Hd y Hy). rewrite <- (holds_set_next _ p n), <- (holds_set_prev _ n p) in Hd.
    unfold holds, node in *. by rewrite lookup_delete_ne by (symmetry; by apply Hout).
  - unfold Delete. cbn [count_]. rewrite Hcount, !length_app. cbn [length]. unfold u64. rewrite Zminus_mod_idemp_l. f_equal. lia.
  - intros a. rewrite fmap_app. destruct (decide (a = s)) as [->|Ha].
    + rewrite lookup_delete_eq. split; [by intros []|]. intros Hin. exfalso.
      rewrite app_comm_cons in Hnd, Hin. apply NoDup_app in Hnd as (_ & Hdis & [Hs2 _]%NoDup_cons).
      apply elem_of_app in Hin as [Hin|Hin]; [apply (Hdis s Hin); left|done].
    + rewrite lookup_delete_ne, set_prev_dom, set_next_dom, Hdom by done. rewrite !elem_of_cons, !elem_of_app, elem_of_cons. tauto.
Qed.

(** ** What GetAll returns *)

Fixpoint first_conflict (sp : list Snap) : Z :=
  match sp with [] => kMaxSequenceNumber | x :: sp => if sn_conflict x then sn_number x else first_conflict sp end.

Lemma GetAll_loop_ok fuel m s sp ret c :
  seg m s (sn_node <$> sp) list_ -> list_ ∉ sn_node <$> sp -> Forall (holds m) sp ->
  Forall (fun x => sn_number x < kMaxSequenceNumber) sp -> (length sp < fuel)%nat ->
  GetAll_loop fuel m s ret c =
    Some (ret ++ (sn_number <$> sp), if c =? kMaxSequenceNumber then first_conflict sp else c).
Proof.
  revert s sp ret c. induction fuel as [|fuel IH]; intros s sp ret c Hs H0 Hd Hk Hl; [lia|].
  destruct sp as [|x sp]; cbn [fmap list_fmap seg GetAll_loop] in *.
  - destruct Hs as [Hn _]. rewrite (nx_node _ _ _ Hn), Nat.eqb_refl, app_nil_r. by destruct (Z.eqb_spec c kMaxSequenceNumber) as [->|].
  - destruct Hs as (Hn & _ & Hs). apply not_elem_of_cons in H0 as [Hx0 H0]. rewrite (nx_node _ _ _ Hn).
    rewrite (proj2 (Nat.eqb_neq _ _)) by done. apply Forall_cons in Hd as [(-> & _ & ->) Hd]. apply Forall_cons in Hk as [Hkx Hk].
    cbn in Hl. rewrite (IH _ sp) by (done || lia). rewrite <- app_assoc. cbn [app first_conflict]. do 2 f_equal.
    destruct (Z.eqb_spec c kMaxSequenceNumber) as [->|Hc]; cbn [andb].
    + destruct (sn_conflict x); [|by rewrite Z.eqb_refl]. by rewrite (proj2 (Z.eqb_neq _ _)) by lia.
    + by rewrite (proj2 (Z.eqb_neq _ _)).
Qed.

Lemma GetAll_ok fuel l sp :
  represents l sp -> Forall (fun x => sn_number x < kMaxSequenceNumber) sp -> (length sp < fuel)%nat ->
  GetAll fuel l = Some (sn_number <$> sp, first_conflict sp).
Proof.
  intros [Hring Hnd Hdata _ _] Hk Hl. unfold GetAll, sl_empty. destruct sp as [|x sp].
  - destruct Hring as [Hn _]. by rewrite (nx_node _ _ _ Hn), Nat.eqb_refl.
  - pose proof Hring as (Hn & _). apply NoDup_cons in Hnd as [H0 _]. rewrite (nx_node _ _ _ Hn).
    rewrite (proj2 (Nat.eqb_neq _ _)) by (intros E; apply H0; rewrite <- E; left). by rewrite (GetAll_loop_ok _ _ _ (x :: sp)).
Qed.

(** ** Taking and releasing snapshots *)

(** The states of the database with the live snapshots they stand for: a new node is
    one that is not allocated, only live snapshots are released, and writes raise the
    last sequence number. *)
Inductive reachable : SnapshotDb -> list Snap -> Prop :=
| reach_open seq : 0 <= seq < kMaxSequenceNumber -> reachable (mkSnapshotDb SnapshotList_new seq) []
| reach_take db sp s time conflict :
    reachable db sp -> nodes (snapshot_list db) !! s = None ->
    reachable (snd (GetSnapshotImpl true s time conflict db)) (sp ++ [mkSnap s (last_sequence_ db) time conflict])
| reach_release db sp1 x sp2 :
    reachable db (sp1 ++ x :: sp2) -> reachable (ReleaseSnapshot (sn_node x) db) (sp1 ++ sp2)
| reach_write db sp seq :
    reachable db sp -> last_sequence_ db <= seq < kMaxSequenceNumber -> reachable (mkSnapshotDb (snapshot_list db) seq) sp.

(** The numbers are in order and not above the last sequence number. *)
Definition in_order (last : Z) (sp : list Snap) : Prop :=
  StronglySorted Z.le (sn_number <$> sp) /\ Forall (fun n => 0 <= n <= last) (sn_number <$> sp).

Lemma reachable_ok db sp :
  reachable db sp -> represents (snapshot_list db) sp /\ in_order (last_sequence_ db) sp /\ 0 <= last_sequence_ db < kMaxSequenceNumber.
Proof.
  induction 1 as [seq Hq|db sp s time conflict _ (Hr & [Hso Hle] & Hl) Hs|db sp1 x sp2 _ (Hr & [Hso Hle] & Hl)|db sp seq _ (Hr & [Hso Hle] & Hl) Hq].
  - split; [apply represents_new|]. split; [|done]. split; constructor.
  - split; [by apply New_represents|]. split; [|done]. cbn [GetSnapshotImpl snd last_sequence_]. unfold in_order. rewrite fmap_app.
    split; [|apply Forall_app; split; [done|]; cbn; constructor; [lia|constructor]].
    apply StronglySorted_app_2; [|done|by repeat constructor]. intros a b Ha ->%list_elem_of_singleton.
    rewrite Forall_forall in Hle. by apply Hle.
  - split; [by eapply ReleaseSnapshot_represents|]. split; [|done]. cbn [ReleaseSnapshot last_sequence_]. unfold in_order in *.
    rewrite fmap_app in *. cbn [fmap list_fmap] in *. split.
    + apply StronglySorted_app in Hso as (H12 & H1 & H2). inversion H2; subst. apply StronglySorted_app_2; [|done|done].
      intros a b Ha Hb. apply H12; [done|by right].
    + rewrite Forall_app, Forall_cons in Hle. apply Forall_app. tauto.
  - split; [done|]. cbn [last_sequence_]. split; [|lia]. split; [done|]. eapply Forall_impl; [exact Hle|]. cbn. lia.
Qed.

Lemma first_conflict_earliest last sp : in_order last sp -> last < kMaxSequenceNumber -> earliest (sn_number <$> sp) <= first_conflict sp.
Proof.
  intros [Hso Hle] Hk. destruct sp as [|x sp]; cbn [fmap list_fmap earliest hd first_conflict] in *; [done|].
  unfold earliest. cbn [hd]. inversion Hso as [|? ? _ Hx]; subst. apply Forall_cons in Hle as [Hlx Hle]. clear Hso.
  destruct (sn_conflict x); [done|]. induction sp as [|y sp IH]; cbn [fmap list_fmap first_conflict] in *; [lia|].
  apply Forall_cons in Hx as [Hxy Hx]. apply Forall_cons in Hle as [_ Hle]. destruct (sn_conflict y); [done|by apply IH].
Qed.


