(* ===== verification/TwoLevelIterator.v ===== *)
(** * Two-level iterators (table/two_level_iterator.{h,cc})

    An index iterator whose values are handles of blocks, and an iterator over the
    block the index is at.  Both levels are any [InternalIterator]; what the two-level
    iterator asks of its state (the blocks of handles, prefix filters, the upper bound)
    is the record [TwoLevelIteratorState].  Pinning of memory is left out.

    When the index separates the blocks, the two-level iterator keeps the promises of
    internal_iterator.h for the concatenation of the blocks: it skips empty blocks in
    both directions, keeps the block it has open when the index does not move, and a
    seek to the last entry not after a target falls back to the block before. *)

From S2P Require Import Prelude Coding DbFormat Iterators Block BlockIterProps BlockProps.
From stdpp Require Import base list sorting.
From Stdlib Require Import ZArith Lia.
#[local] Open Scope Z_scope.

Definition IsIncomplete (s : Status) : bool := bool_decide (code s = kIncomplete).

(** [NewSecondaryIterator] returns [None] for the null pointer. *)
Record TwoLevelIteratorState (I2 : Type) := mkTwoLevelState {
  check_prefix_may_match : bool;
  NewSecondaryIterator : bytes -> option I2;
  PrefixMayMatch : bytes -> bool;
  KeyReachedUpperBound : bytes -> bool
}.
Arguments mkTwoLevelState {I2}.
Arguments check_prefix_may_match {I2}.
Arguments NewSecondaryIterator {I2}.
Arguments PrefixMayMatch {I2}.
Arguments KeyReachedUpperBound {I2}.

(** The status field has the prefix of the type, apart from that of the empty
    iterator. *)
Record TwoLevelIterator (I1 I2 : Type) := mkTwoLevel {
  state_ : TwoLevelIteratorState I2;
  first_level_iter_ : IteratorWrapper I1;
  second_level_iter_ : IteratorWrapper I2;
  tl_status_ : Status;
  data_block_handle_ : bytes
}.
Arguments mkTwoLevel {I1 I2}.
Arguments state_ {I1 I2}.
Arguments first_level_iter_ {I1 I2}.
Arguments second_level_iter_ {I1 I2}.
Arguments tl_status_ {I1 I2}.
Arguments data_block_handle_ {I1 I2}.

#[export] Instance eta_TwoLevelIterator I1 I2 : Settable (TwoLevelIterator I1 I2) := fun t =>
  mkTwoLevel (state_ t) (first_level_iter_ t) (second_level_iter_ t) (tl_status_ t) (data_block_handle_ t).

Section Operations.
Context {I1 I2 : Type} `{InternalIterator I1} `{InternalIterator I2}.
#[local] Notation TL := (TwoLevelIterator I1 I2).

Definition TwoLevelIterator_new (state : TwoLevelIteratorState I2) (first_level_iter : I1) : TL :=
  mkTwoLevel state (wrapper_new (Some first_level_iter)) (wrapper_new None) OK [].

Definition tl_Valid (t : TL) : bool := wrapper_Valid (second_level_iter_ t).
Definition tl_key (t : TL) : bytes := wrapper_key (second_level_iter_ t).
Definition tl_value (t : TL) : bytes := wrapper_value (second_level_iter_ t).

Definition has_second (t : TL) : bool := bool_decide (is_Some (iter_ (second_level_iter_ t))).

Definition tl_status (t : TL) : Status :=
  if negb (ok (wrapper_status (first_level_iter_ t))) then wrapper_status (first_level_iter_ t)
  else if has_second t && negb (ok (wrapper_status (second_level_iter_ t))) then wrapper_status (second_level_iter_ t)
  else tl_status_ t.

Definition SaveError (s : Status) (t : TL) : TL := if ok (tl_status_ t) && negb (ok s) then t <| tl_status_ := s |> else t.

Definition SetSecondLevelIterator (iter : option I2) (t : TL) : TL :=
  let t := if has_second t then SaveError (wrapper_status (second_level_iter_ t)) t else t in
  t <| second_level_iter_ ::= wrapper_Set iter |>.

Definition InitDataBlock (t : TL) : TL :=
  if negb (wrapper_Valid (first_level_iter_ t)) then SetSecondLevelIterator None t
  else
    let handle := wrapper_value (first_level_iter_ t) in
    if has_second t && negb (IsIncomplete (wrapper_status (second_level_iter_ t))) &&
       bool_decide (handle = data_block_handle_ t) then t
    else SetSecondLevelIterator (NewSecondaryIterator (state_ t) handle) (t <| data_block_handle_ := handle |>).

(** A move of the second level, if there is one. *)
Definition second_move (f : I2 -> I2) (t : TL) : TL :=
  if has_second t then t <| second_level_iter_ ::= wrapper_move f |> else t.

(** The test of both skipping loops. *)
Definition block_exhausted (t : TL) : bool :=
  negb (has_second t) ||
  (negb (wrapper_Valid (second_level_iter_ t)) && negb (IsIncomplete (wrapper_status (second_level_iter_ t)))).

Fixpoint SkipEmptyDataBlocksForward (fuel : nat) (t : TL) : TL :=
  match fuel with
  | O => t
  | S fuel =>
      if block_exhausted t then
        if negb (wrapper_Valid (first_level_iter_ t)) || KeyReachedUpperBound (state_ t) (wrapper_key (first_level_iter_ t)) then
          SetSecondLevelIterator None t
        else
          SkipEmptyDataBlocksForward fuel
            (second_move SeekToFirst (InitDataBlock (t <| first_level_iter_ ::= wrapper_Next |>)))
      else t
  end.

Fixpoint SkipEmptyDataBlocksBackward (fuel : nat) (t : TL) : TL :=
  match fuel with
  | O => t
  | S fuel =>
      if block_exhausted t then
        if negb (wrapper_Valid (first_level_iter_ t)) then SetSecondLevelIterator None t
        else
          SkipEmptyDataBlocksBackward fuel
            (second_move SeekToLast (InitDataBlock (t <| first_level_iter_ ::= wrapper_Prev |>)))
      else t
  end.

(** A seek outside of the prefixes of the table ends at once. *)
Definition prefix_mismatch (target : bytes) (t : TL) : bool :=
  check_prefix_may_match (state_ t) && negb (PrefixMayMatch (state_ t) target).

Context (fuel : nat).

Definition tl_Seek (target : bytes) (t : TL) : TL :=
  if prefix_mismatch target t then SetSecondLevelIterator None t
  else
    SkipEmptyDataBlocksForward fuel
      (second_move (Seek target) (InitDataBlock (t <| first_level_iter_ ::= wrapper_Seek target |>))).

Definition tl_SeekForPrev (target : bytes) (t : TL) : TL :=
  if prefix_mismatch target t then SetSecondLevelIterator None t
  else
    let t := second_move (SeekForPrev target) (InitDataBlock (t <| first_level_iter_ ::= wrapper_Seek target |>)) in
    if negb (tl_Valid t) then
      let t :=
        if negb (wrapper_Valid (first_level_iter_ t)) then
          second_move (SeekForPrev target) (InitDataBlock (t <| first_level_iter_ ::= wrapper_SeekToLast |>))
        else t in
      SkipEmptyDataBlocksBackward fuel t
    else t.

Definition tl_SeekToFirst (t : TL) : TL :=
  SkipEmptyDataBlocksForward fuel (second_move SeekToFirst (InitDataBlock (t <| first_level_iter_ ::= wrapper_SeekToFirst |>))).

Definition tl_SeekToLast (t : TL) : TL :=
  SkipEmptyDataBlocksBackward fuel (second_move SeekToLast (InitDataBlock (t <| first_level_iter_ ::= wrapper_SeekToLast |>))).

Definition tl_Next (t : TL) : TL :=
  SkipEmptyDataBlocksForward fuel (t <| second_level_iter_ ::= wrapper_Next |>).

Definition tl_Prev (t : TL) : TL :=
  SkipEmptyDataBlocksBackward fuel (t <| second_level_iter_ ::= wrapper_Prev |>).

(** [fuel] bounds the number of blocks. *)
Definition TwoLevelIterator_iterator : InternalIterator TL := {|
  Valid := tl_Valid;
  SeekToFirst := tl_SeekToFirst;
  SeekToLast := tl_SeekToLast;
  Seek := tl_Seek;
  SeekForPrev := tl_SeekForPrev;
  Next := tl_Next;
  Prev := tl_Prev;
  key := tl_key;
  value := tl_value;
  status := tl_status
|}.
End Operations.

(** ** The iterator keeps the promises *)

Section Proofs.
Context {c : Comparator} {valid : bytes -> Prop} {Ho : CompareOrder c valid}.
Context {I1 I2 : Type} `{InternalIterator I1} `{InternalIterator I2}.
Context (At1 : I1 -> list entry -> option entry -> Prop) (At2 : I2 -> list entry -> option entry -> Prop).
Context `{!IteratorOk valid At1} `{!IteratorOk valid At2}.
#[local] Notation TL := (TwoLevelIterator I1 I2).

(** The index and the blocks of its handles: an index key is not before the keys of its
    block, and before those of the blocks after it. *)
Record index_ok (idx : list entry) (block : bytes -> list entry) : Prop := {
  ix_distinct : distinct_keys idx;
  ix_upper ie e : ie ∈ idx -> e ∈ block (snd ie) -> Compare (fst e) (fst ie) <= 0;
  ix_lower ie ie' e : ie ∈ idx -> ie' ∈ idx -> Compare (fst ie) (fst ie') < 0 -> e ∈ block (snd ie') ->
    Compare (fst ie) (fst e) < 0;
  ix_keys ie e : ie ∈ idx -> e ∈ block (snd ie) -> valid (fst e)
}.

(** What the state promises: no prefix filter, no upper bound, a block for every handle,
    and no block that could not be read without I/O. *)
Record state_ok (idx : list entry) (block : bytes -> list entry) (st : TwoLevelIteratorState I2) : Prop := {
  so_prefix : check_prefix_may_match st = false;
  so_bound k : KeyReachedUpperBound st k = false;
  so_blocks ie : ie ∈ idx -> exists it, NewSecondaryIterator st (snd ie) = Some it /\ At2 it (block (snd ie)) None;
  so_complete it l o : At2 it l o -> IsIncomplete (status it) = false
}.

Context (idx : list entry) (block : bytes -> list entry) (st : TwoLevelIteratorState I2).
Context (Hix : index_ok idx block) (Hst : state_ok idx block st).

Definition blocks : list entry := concat ((fun ie => block (snd ie)) <$> idx).

Lemma elem_of_blocks e : e ∈ blocks <-> exists ie, ie ∈ idx /\ e ∈ block (snd ie).
Proof.
  unfold blocks. rewrite list_elem_of_In, in_concat. split.
  - intros (l & Hl & He). apply list_elem_of_In in Hl, He. apply list_elem_of_fmap in Hl as (ie & -> & Hie). by exists ie.
  - intros (ie & Hie & He). exists (block (snd ie)). split; apply list_elem_of_In; [|done].
    by apply (list_elem_of_fmap_2 (fun ie => block (snd ie))).
Qed.

(** The index is at [ie] and the block of [ie] is open, at [o]. *)
Definition at_block (t : TL) (ie : entry) (o : option entry) : Prop :=
  state_ t = st /\ wrapper_at At1 (first_level_iter_ t) idx (Some ie) /\
  wrapper_at At2 (second_level_iter_ t) (block (snd ie)) o /\ data_block_handle_ t = snd ie.

(** No block is open. *)
Definition closed (t : TL) (o1 : option entry) : Prop :=
  state_ t = st /\ wrapper_at At1 (first_level_iter_ t) idx o1 /\
  iter_ (second_level_iter_ t) = None /\ valid_ (second_level_iter_ t) = false.

(** Between the two: the index has moved, a block may be open. *)
Definition moved (t : TL) (o1 : option entry) : Prop :=
  state_ t = st /\ wrapper_at At1 (first_level_iter_ t) idx o1 /\
  (iter_ (second_level_iter_ t) = None \/
   exists o, wrapper_at At2 (second_level_iter_ t) (block (data_block_handle_ t)) o).

Lemma has_second_at (t : TL) l o : wrapper_at At2 (second_level_iter_ t) l o -> has_second t = true.
Proof. intros (it & E & _). unfold has_second. by rewrite E. Qed.

Lemma SetSecond_fields iter (t : TL) :
  state_ (SetSecondLevelIterator iter t) = state_ t /\
  first_level_iter_ (SetSecondLevelIterator iter t) = first_level_iter_ t /\
  data_block_handle_ (SetSecondLevelIterator iter t) = data_block_handle_ t /\
  second_level_iter_ (SetSecondLevelIterator iter t) = wrapper_Set iter (second_level_iter_ t).
Proof. unfold SetSecondLevelIterator, SaveError. by destruct (has_second t); [split_ifs|]. Qed.

Lemma SetSecond_None_closed t o1 :
  state_ t = st -> wrapper_at At1 (first_level_iter_ t) idx o1 -> closed (SetSecondLevelIterator None t) o1.
Proof. intros E Hw. destruct (SetSecond_fields None t) as (E1 & E2 & _ & E4). unfold closed. by rewrite E1, E2, E4. Qed.

Lemma wrapper_Set_at it l w : At2 it l None -> wrapper_at At2 (wrapper_Set (Some it) w) l None.
Proof.
  intros Hat. exists it. unfold wrapper_Set, wrapper_Update. cbn. split; [done|]. split; [done|]. split; [done|]. by intros ->.
Qed.

(** The block of the index entry is opened, or stays open. *)
Lemma InitDataBlock_ok t o1 :
  moved t o1 ->
  match o1 with
  | Some ie => exists o, at_block (InitDataBlock t) ie o
  | None => closed (InitDataBlock t) None
  end.
Proof.
  intros (E & Hw & Hsec). unfold InitDataBlock. rewrite (wrapper_at_Valid At1 _ _ _ Hw). destruct o1 as [ie|].
  2: { rewrite bool_decide_eq_false_2 by (by intros []). by apply SetSecond_None_closed. }
  rewrite bool_decide_eq_true_2 by done. cbn [negb]. rewrite (wrapper_at_value At1 _ _ _ Hw).
  destruct (_ && bool_decide _) eqn:Et.
  - apply andb_true_iff in Et as [Et Eh]. apply andb_true_iff in Et as [Eh2 _]. apply bool_decide_eq_true in Eh, Eh2.
    destruct Hsec as [Hn|[o Ho']]; [rewrite Hn in Eh2; by destruct Eh2|]. exists o. split; [done|]. split; [done|].
    split; [by rewrite Eh|done].
  - destruct (so_blocks _ _ _ Hst ie) as (it & Hit & Hat); [exact (wrapper_at_in At1 _ _ _ Hw)|].
    rewrite E, Hit. destruct (SetSecond_fields (Some it) (t <| data_block_handle_ := snd ie |>)) as (E1 & E2 & E3 & E4).
    exists None. unfold at_block. rewrite E1, E2, E3, E4. split; [done|]. split; [done|]. split; [by apply wrapper_Set_at|done].
Qed.

Lemma second_move_at f t ie o (Q : option entry -> Prop) :
  at_block t ie o -> (forall it, At2 it (block (snd ie)) o -> exists o', At2 (f it) (block (snd ie)) o' /\ Q o') ->
  exists o', at_block (second_move f t) ie o' /\ Q o'.
Proof.
  intros (E & Hw & Hs & Eh) Hf. unfold second_move. rewrite (has_second_at t _ _ Hs).
  destruct (wrapper_move_at At2 f _ _ _ Q Hs Hf) as (o' & Hs' & HQ). exists o'. by split.
Qed.

Lemma second_move_closed f t o1 : closed t o1 -> second_move f t = t.
Proof. intros (_ & _ & Hn & _). unfold second_move, has_second. rewrite Hn. by rewrite bool_decide_eq_false_2 by (by intros []). Qed.

(** A position in the direction [d], for the entries of [Q]: the index is at the first
    block that can have some of them, with at most [n] blocks to come, or there are
    none. *)
Definition open_block (d : Direction) (Q : entry -> Prop) (n : nat) (t : TL) (ie : entry) (o : option entry) : Prop :=
  at_block t ie o /\ best d Q (block (snd ie)) o /\
  (forall ie' e, ie' ∈ idx -> ahead d (fst ie') (fst ie) -> e ∈ block (snd ie') -> ~ Q e) /\
  (forall ie' e, ie' ∈ idx -> ahead d (fst ie) (fst ie') -> e ∈ block (snd ie') -> Q e) /\
  exists L, (forall ie', ie' ∈ idx -> ahead d (fst ie) (fst ie') -> ie' ∈ L) /\ (length L <= n)%nat.

Definition open_at (d : Direction) (Q : entry -> Prop) (n : nat) (t : TL) : Prop :=
  (exists ie o, open_block d Q n t ie o) \/ (closed t None /\ forall e, e ∈ blocks -> ~ Q e).

Definition two_at (t : TL) (l : list entry) (o : option entry) : Prop :=
  l = blocks /\ match o with Some e => exists ie, at_block t ie (Some e) | None => exists o1, closed t o1 end.

Lemma index_valid (t : TL) o1 ie : wrapper_at At1 (first_level_iter_ t) idx o1 -> ie ∈ idx -> valid (fst ie).
Proof. apply (wrapper_at_keys At1). Qed.

(** Blocks do not overlap. *)
Lemma blocks_apart d ie ie' e e' :
  valid (fst ie) -> valid (fst ie') -> ie ∈ idx -> ie' ∈ idx -> ahead d (fst ie) (fst ie') ->
  e ∈ block (snd ie) -> e' ∈ block (snd ie') -> ahead d (fst e) (fst e').
Proof.
  intros Hv Hv' Hie Hie' Hd He He'. pose proof (ix_keys _ _ Hix _ _ Hie He). pose proof (ix_keys _ _ Hix _ _ Hie' He').
  destruct d; cbn [ahead] in *.
  - apply (compare_le_lt_trans _ (fst ie)); [done..|by apply (ix_upper _ _ Hix)|by apply (ix_lower _ _ Hix ie ie')].
  - apply (compare_le_lt_trans _ (fst ie')); [done..|by apply (ix_upper _ _ Hix)|by apply (ix_lower _ _ Hix ie' ie)].
Qed.

(** At an entry of the open block, or past the last block. *)
Lemma open_at_entry d Q t ie e :
  at_block t ie (Some e) -> best d Q (block (snd ie)) (Some e) ->
  (forall ie' e, ie' ∈ idx -> ahead d (fst ie') (fst ie) -> e ∈ block (snd ie') -> ~ Q e) ->
  two_at t blocks (Some e) /\ best d Q blocks (Some e).
Proof.
  intros Hb (He & HQ & Hmin) Hbefore. split; [split; [done|by exists ie]|].
  destruct Hb as (_ & Hw & _). pose proof (wrapper_at_in At1 _ _ _ Hw) as Hie.
  split; [apply elem_of_blocks; by exists ie|]. split; [done|]. intros e' (ie' & Hie' & He')%elem_of_blocks HQ'.
  pose proof (index_valid t _ ie Hw Hie) as Hv. pose proof (index_valid t _ ie' Hw Hie') as Hv'.
  destruct (Z.eq_dec (Compare (fst ie) (fst ie')) 0) as [E|Hne].
  - assert (ie = ie') as <- by (eapply (distinct_keys_eq idx); [by intros; eapply index_valid|apply (ix_distinct _ _ Hix)|done..]).
    by apply Hmin.
  - destruct (upto_total d (fst ie) (fst ie') Hv Hv') as [Hd|Hd].
    + apply ahead_upto, (blocks_apart d ie ie'); try done. by apply (upto_distinct d).
    + exfalso. apply (Hbefore ie' e' Hie'); [|done|done]. apply (upto_distinct d); [done..| |done].
      intros E. by apply Hne, (compare_eq_sym (valid := valid)).
Qed.

Definition skip_dir (d : Direction) (fuel : nat) (t : TL) : TL :=
  match d with kForward => SkipEmptyDataBlocksForward fuel t | kReverse => SkipEmptyDataBlocksBackward fuel t end.
Definition first_dir (d : Direction) : I2 -> I2 := match d with kForward => SeekToFirst | kReverse => SeekToLast end.

Lemma skip_dir_S d fuel t :
  state_ t = st ->
  skip_dir d (S fuel) t =
  if block_exhausted t then
    if negb (wrapper_Valid (first_level_iter_ t)) then SetSecondLevelIterator None t
    else skip_dir d fuel (second_move (first_dir d) (InitDataBlock (t <| first_level_iter_ ::= wrapper_step_dir d |>)))
  else t.
Proof.
  intros E. destruct d; cbn [skip_dir SkipEmptyDataBlocksForward SkipEmptyDataBlocksBackward first_dir wrapper_step_dir]; [|done].
  by rewrite E, (so_bound _ _ _ Hst), orb_false_r.
Qed.

Lemma first_dir_at d it l o : At2 it l o -> exists o', At2 (first_dir d it) l o' /\ best d (fun _ => True) l o'.
Proof. destruct d; [apply at_SeekToFirst|apply at_SeekToLast]. Qed.

(** Index entries other than [ie] are on one of its sides. *)
Lemma index_sides d (t : TL) ie ie' :
  wrapper_at At1 (first_level_iter_ t) idx (Some ie) -> ie' ∈ idx ->
  ie' = ie \/ ahead d (fst ie') (fst ie) \/ ahead d (fst ie) (fst ie').
Proof.
  intros Hw Hie'. pose proof (wrapper_at_in At1 _ _ _ Hw) as Hie.
  pose proof (index_valid t _ ie Hw Hie) as Hv. pose proof (index_valid t _ ie' Hw Hie') as Hv'.
  destruct (Z.eq_dec (Compare (fst ie') (fst ie)) 0) as [E|Hne].
  - left. eapply (distinct_keys_eq idx); [by intros; eapply index_valid|apply (ix_distinct _ _ Hix)|done..].
  - right. destruct (upto_total d (fst ie') (fst ie) Hv' Hv) as [Hd|Hd].
    + left. by apply (upto_distinct d).
    + right. apply (upto_distinct d); [done..| |done]. intros E. by apply Hne, (compare_eq_sym (valid := valid)).
Qed.

(** A block without an entry of [Q] gives way to the next one. *)
Lemma advance_ok d Q n t ie :
  open_block d Q n t ie None ->
  let t' := second_move (first_dir d) (InitDataBlock (t <| first_level_iter_ ::= wrapper_step_dir d |>)) in
  (exists n', n = S n' /\ open_at d Q n' t') \/ (closed t' None /\ forall e, e ∈ blocks -> ~ Q e).
Proof.
  intros ((E & Hw & Hs & Eh) & Hno & Hbefore & Hafter & L & HL & Hn).
  destruct (wrapper_step_dir_at At1 d _ _ _ Hw) as (o1 & Hw1 & Hb1).
  set (t1 := t <| first_level_iter_ ::= wrapper_step_dir d |>).
  assert (Hmv : moved t1 o1) by (split; [done|]; split; [done|]; right; exists None; unfold t1; cbn; by rewrite Eh).
  pose proof (InitDataBlock_ok t1 o1 Hmv) as Hini. destruct o1 as [ie1|].
  - destruct Hini as [o0 Hini]. destruct Hb1 as (Hie1 & Hd1 & Hmin1).
    destruct (second_move_at (first_dir d) _ _ _ (best d (fun _ => True) (block (snd ie1))) Hini) as (o2 & Hat2 & Hb2).
    { intros it Hit. by apply first_dir_at with o0. }
    destruct (elem_of_Permutation L ie1) as [HP _]. destruct (HP (HL ie1 Hie1 Hd1)) as [L' HL'].
    pose proof (Permutation_length HL') as Hlen. cbn [length] in Hlen. destruct n as [|n]; [lia|].
    left. exists n. split; [done|]. left. exists ie1, o2. split; [done|]. pose proof (fun x => index_valid t _ x Hw) as Hv.
    pose proof (wrapper_at_in At1 _ _ _ Hw) as Hie. split; [|split; [|split]].
    + eapply best_ext; [|exact Hb2]. intros e He. split; [|done]. intros _. by apply (Hafter ie1).
    + intros ie' e Hie' Hd' He. destruct (index_sides d t ie ie' Hw Hie') as [->|[Hd|Hd]].
      * by apply Hno.
      * by apply (Hbefore ie').
      * exfalso. specialize (Hmin1 ie' Hie' Hd). by apply (not_ahead d (fst ie') (fst ie1)) in Hmin1; auto.
    + intros ie' e Hie' Hd' He. apply (Hafter ie'); [done| |done].
      apply (ahead_upto_trans d _ (fst ie1)); auto. by apply ahead_upto.
    + exists L'. split; [|lia]. intros ie' Hie' Hd'. assert (Hin : ie' ∈ L).
      { apply HL; [done|]. apply (ahead_upto_trans d _ (fst ie1)); auto. by apply ahead_upto. }
      rewrite HL' in Hin. apply elem_of_cons in Hin as [->|]; [|done]. exfalso.
      exact (proj2 (not_ahead d _ _ (Hv ie1 Hie1) (Hv ie1 Hie1)) (upto_refl d _ (Hv ie1 Hie1)) Hd').
  - right. rewrite (second_move_closed _ _ None Hini). split; [done|]. intros e (ie' & Hie' & He)%elem_of_blocks.
    destruct (index_sides d t ie ie' Hw Hie') as [->|[Hd|Hd]]; [by apply Hno|by apply (Hbefore ie')|]. by destruct (Hb1 ie' Hie').
Qed.

Lemma exhausted_at t ie o : at_block t ie o -> block_exhausted t = negb (bool_decide (is_Some o)).
Proof.
  intros (_ & _ & Hs & _). unfold block_exhausted. rewrite (has_second_at t _ _ Hs), (wrapper_at_Valid At2 _ _ _ Hs).
  destruct Hs as (it & Hi & Hat & _). unfold wrapper_status. rewrite Hi, (so_complete _ _ _ Hst _ _ _ Hat). cbn.
  by rewrite andb_true_r.
Qed.

(** The skipping loops end at the first entry of [Q], given fuel for the blocks. *)
Lemma skip_closed d Q fuel t :
  closed t None -> (forall e, e ∈ blocks -> ~ Q e) -> exists o, two_at (skip_dir d (S fuel) t) blocks o /\ best d Q blocks o.
Proof.
  intros (E & Hw & Hn & Hv) Hno. rewrite (skip_dir_S d fuel t E). unfold block_exhausted, has_second. rewrite Hn.
  rewrite bool_decide_eq_false_2 by (by intros []). cbn [negb orb]. rewrite (wrapper_at_Valid At1 _ _ _ Hw).
  rewrite bool_decide_eq_false_2 by (by intros []). cbn [negb]. exists None. split; [|done]. split; [done|]. exists None.
  by apply SetSecond_None_closed.
Qed.

Lemma skip_ok d Q fuel n t :
  open_at d Q n t -> (S n < fuel)%nat -> exists o, two_at (skip_dir d fuel t) blocks o /\ best d Q blocks o.
Proof.
  revert n t. induction fuel as [|fuel IH]; intros n t Hop Hn; [lia|].
  destruct Hop as [(ie & o & Hob)|[Hcl Hno]]; [|by apply skip_closed].
  pose proof Hob as (Hat & Hb & Hbefore & _). rewrite (skip_dir_S d fuel t (proj1 Hat)), (exhausted_at t ie o Hat).
  destruct o as [e|].
  - rewrite bool_decide_eq_true_2 by done. cbn [negb]. exists (Some e). by apply open_at_entry with ie.
  - rewrite bool_decide_eq_false_2 by (by intros []). cbn [negb]. rewrite (wrapper_at_Valid At1 _ _ _ (proj1 (proj2 Hat))).
    rewrite bool_decide_eq_true_2 by done. cbn [negb].
    destruct (advance_ok d Q n t ie Hob) as [(n' & -> & Hop)|[Hcl Hno]]; [apply (IH n' _ Hop); lia|].
    destruct fuel as [|fuel]; [lia|]. by apply skip_closed.
Qed.

Lemma two_at_moved t l o fm o1 :
  two_at t l o -> wrapper_at At1 (fm (first_level_iter_ t)) idx o1 -> moved (t <| first_level_iter_ ::= fm |>) o1.
Proof.
  intros [_ Ht] Hw. destruct o as [e|].
  - destruct Ht as (ie & E & _ & Hs & Eh). split; [done|]. split; [done|]. right. exists (Some e). cbn. by rewrite Eh.
  - destruct Ht as (o0 & E & _ & Hn & _). split; [done|]. split; [done|]. by left.
Qed.

Lemma two_at_first t l o : two_at t l o -> exists o1, wrapper_at At1 (first_level_iter_ t) idx o1.
Proof. intros [_ Ht]. destruct o; [destruct Ht as (ie & _ & Hw & _); by exists (Some ie)|destruct Ht as (o1 & _ & Hw & _); by exists o1]. Qed.

(** The index moves, and its block is opened and searched. *)
Lemma enter_block d Q t f ie :
  moved t (Some ie) ->
  (forall it o, At2 it (block (snd ie)) o -> exists o', At2 (f it) (block (snd ie)) o' /\ best d Q (block (snd ie)) o') ->
  (forall ie' e, ie' ∈ idx -> ahead d (fst ie') (fst ie) -> e ∈ block (snd ie') -> ~ Q e) ->
  (forall ie' e, ie' ∈ idx -> ahead d (fst ie) (fst ie') -> e ∈ block (snd ie') -> Q e) ->
  exists o, open_block d Q (length idx) (second_move f (InitDataBlock t)) ie o.
Proof.
  intros Hmv Hf Hbefore Hafter. destruct (InitDataBlock_ok t _ Hmv) as [o0 Hini].
  destruct (second_move_at f _ _ _ (best d Q (block (snd ie))) Hini) as (o2 & Hat2 & Hb2).
  { intros it Hit. by apply Hf with o0. }
  exists o2. split; [done|]. split; [done|]. split; [done|]. split; [done|]. by exists idx.
Qed.

Lemma enter_none f t : moved t None -> closed (second_move f (InitDataBlock t)) None.
Proof. intros Hmv. pose proof (InitDataBlock_ok t _ Hmv) as Hini. by rewrite (second_move_closed _ _ None Hini). Qed.

Lemma enter_ok d Q t f o1 :
  moved t o1 ->
  (forall (ie : entry) it o, At2 it (block (snd ie)) o -> exists o', At2 (f it) (block (snd ie)) o' /\ best d Q (block (snd ie)) o') ->
  match o1 with
  | Some ie =>
      (forall ie' e, ie' ∈ idx -> ahead d (fst ie') (fst ie) -> e ∈ block (snd ie') -> ~ Q e) /\
      (forall ie' e, ie' ∈ idx -> ahead d (fst ie) (fst ie') -> e ∈ block (snd ie') -> Q e)
  | None => forall e, e ∈ blocks -> ~ Q e
  end ->
  open_at d Q (length idx) (second_move f (InitDataBlock t)).
Proof.
  intros Hmv Hf Hside. destruct o1 as [ie|]; [|right; split; [by apply enter_none|done]].
  left. exists ie. apply enter_block; [done|by apply Hf|apply Hside..].
Qed.

(** The first position in either direction. *)
Lemma first_ok d fuel t l o :
  two_at t l o -> (S (length idx) < fuel)%nat ->
  exists o', two_at (skip_dir d fuel (second_move (first_dir d) (InitDataBlock (t <| first_level_iter_ ::= wrapper_first_dir d |>)))) blocks o' /\
    best d (fun _ => True) blocks o'.
Proof.
  intros Ht Hf. destruct (two_at_first t l o Ht) as [o0 Hw0].
  destruct (wrapper_first_dir_at At1 d _ _ _ Hw0) as (o1 & Hw1 & Hb1).
  eapply skip_ok; [|exact Hf]. eapply (enter_ok d _ _ _ o1).
  - by eapply two_at_moved.
  - intros ie it o'. apply first_dir_at.
  - pose proof (fun x => wrapper_at_keys At1 _ _ _ x Hw1) as Hv. destruct o1 as [ie|].
    + destruct Hb1 as (Hie & _ & Hmin). split; [|done]. intros ie' e Hie' Hd _ _. specialize (Hmin ie' Hie' Logic.I).
      by apply (not_ahead d (fst ie') (fst ie)) in Hmin; auto.
    + intros e (ie & Hie & _)%elem_of_blocks _. by apply (Hb1 ie).
Qed.

(** A step in either direction. *)
Lemma step_ok d fuel t l e :
  two_at t l (Some e) -> (S (length idx) < fuel)%nat ->
  exists o', two_at (skip_dir d fuel (t <| second_level_iter_ ::= wrapper_step_dir d |>)) blocks o' /\
    best d (fun e' => ahead d (fst e) (fst e')) blocks o'.
Proof.
  intros [_ (ie & E & Hw & Hs & Eh)] Hf. eapply skip_ok; [|exact Hf].
  destruct (wrapper_step_dir_at At2 d _ _ _ Hs) as (o2 & Hs2 & Hb2).
  pose proof (wrapper_at_in At1 _ _ _ Hw) as Hie. pose proof (wrapper_at_in At2 _ _ _ Hs) as He.
  pose proof (fun x => wrapper_at_keys At1 _ _ _ x Hw) as Hv.
  left. exists ie, o2. split; [done|]. split; [done|]. split; [|split; [|by exists idx]].
  - intros ie' e' Hie' Hd He'. apply (not_ahead d); [exact (ix_keys _ _ Hix _ _ Hie He)|exact (ix_keys _ _ Hix _ _ Hie' He')|].
    apply ahead_upto, (blocks_apart d ie' ie); auto.
  - intros ie' e' Hie' Hd He'. apply (blocks_apart d ie ie'); auto.
Qed.

(** Where the index entry for a target is, the entries before and after it are on its
    sides. *)
Lemma seek_sides t ie (w : IteratorWrapper I1) :
  wrapper_at At1 w idx (Some ie) -> best kForward (fun x => upto kForward t (fst x)) idx (Some ie) -> valid t ->
  (forall ie' e, ie' ∈ idx -> Compare (fst ie') (fst ie) < 0 -> e ∈ block (snd ie') -> Compare (fst e) t < 0) /\
  (forall ie' e, ie' ∈ idx -> Compare (fst ie) (fst ie') < 0 -> e ∈ block (snd ie') -> Compare t (fst e) < 0).
Proof.
  intros Hw (Hie & Hle & Hmin) Ht. cbn [upto] in *. pose proof (fun x => wrapper_at_keys At1 _ _ _ x Hw) as Hv.
  split; intros ie' e Hie' Hd He; pose proof (ix_keys _ _ Hix _ _ Hie' He) as Hve.
  - apply (compare_le_lt_trans _ (fst ie')); auto; [by apply (ix_upper _ _ Hix)|].
    destruct (Z_le_gt_dec (Compare t (fst ie')) 0) as [Hle'|Hgt].
    + specialize (Hmin ie' Hie' Hle'). pose proof (compare_antisym (fst ie) (fst ie') (Hv _ Hie) (Hv _ Hie')). lia.
    + pose proof (compare_antisym t (fst ie') Ht (Hv _ Hie')). lia.
  - apply (compare_le_lt_trans _ (fst ie)); auto. by apply (ix_lower _ _ Hix ie ie').
Qed.

Lemma seek_none t w e :
  wrapper_at At1 w idx None -> best kForward (fun x => upto kForward t (fst x)) idx None -> valid t ->
  e ∈ blocks -> Compare (fst e) t < 0.
Proof.
  intros Hw Hno Ht (ie & Hie & He)%elem_of_blocks. specialize (Hno ie Hie). cbn [upto] in Hno.
  pose proof (ix_keys _ _ Hix _ _ Hie He) as Hve. pose proof (wrapper_at_keys At1 _ _ _ _ Hw Hie) as Hv.
  apply (compare_le_lt_trans _ (fst ie)); auto; [by apply (ix_upper _ _ Hix)|].
  pose proof (compare_antisym t (fst ie) Ht Hv). lia.
Qed.

Lemma two_at_state t l o : two_at t l o -> state_ t = st.
Proof. intros [_ Ht]. by destruct o; [destruct Ht as (? & ? & _)|destruct Ht as (? & ? & _)]. Qed.

Lemma Seek_ok fuel target t l o :
  two_at t l o -> valid target -> (S (length idx) < fuel)%nat ->
  exists o', two_at (tl_Seek fuel target t) blocks o' /\ best kForward (fun e => upto kForward target (fst e)) blocks o'.
Proof.
  intros Ht Hv Hf. destruct (two_at_first t l o Ht) as [o0 Hw0]. unfold tl_Seek, prefix_mismatch.
  rewrite (two_at_state t l o Ht), (so_prefix _ _ _ Hst). cbn [andb].
  destruct (wrapper_seek_dir_at At1 kForward target _ _ _ Hw0 Hv) as (o1 & Hw1 & Hb1).
  eapply (skip_ok kForward); [|exact Hf]. eapply (enter_ok kForward _ _ _ o1).
  - by eapply two_at_moved.
  - intros ie it o' Hat. by eapply at_Seek.
  - destruct o1 as [ie|].
    + destruct (seek_sides target ie _ Hw1 Hb1 Hv) as [Hlt Hgt]. cbn [ahead upto]. split; intros ie' e Hie' Hd He.
      * specialize (Hlt ie' e Hie' Hd He). pose proof (compare_antisym (fst e) target (ix_keys _ _ Hix _ _ Hie' He) Hv). lia.
      * specialize (Hgt ie' e Hie' Hd He). lia.
    + intros e He. cbn [upto]. pose proof (seek_none target _ e Hw1 Hb1 Hv He).
      apply elem_of_blocks in He as (ie & Hie & He).
      pose proof (compare_antisym (fst e) target (ix_keys _ _ Hix _ _ Hie He) Hv). lia.
Qed.

Lemma closed_two_at t o1 : closed t o1 -> two_at t blocks None.
Proof. intros Hc. split; [done|by exists o1]. Qed.

(** With the target past the index, the search starts in the last block. *)
Lemma SeekForPrev_past fuel target t (w : IteratorWrapper I1) :
  closed t None -> wrapper_at At1 w idx None -> best kForward (fun x => upto kForward target (fst x)) idx None ->
  valid target -> (S (length idx) < fuel)%nat ->
  exists o', two_at (SkipEmptyDataBlocksBackward fuel
      (second_move (SeekForPrev target) (InitDataBlock (t <| first_level_iter_ ::= wrapper_SeekToLast |>)))) blocks o' /\
    best kReverse (fun e => upto kReverse target (fst e)) blocks o'.
Proof.
  intros Hcl Hw1 Hb1 Hv Hf. pose proof Hcl as (E & Hw2 & _).
  destruct (wrapper_first_dir_at At1 kReverse _ _ _ Hw2) as (o2 & Hw3 & Hb3). cbn [wrapper_first_dir] in Hw3.
  eapply (skip_ok kReverse); [|exact Hf]. eapply (enter_ok kReverse _ _ _ o2).
  - eapply two_at_moved; [by eapply closed_two_at|done].
  - intros ie it o Hat. by eapply at_SeekForPrev.
  - destruct o2 as [ie|]; [|intros e (ie & Hie & _)%elem_of_blocks _; by apply (Hb3 ie)].
    destruct Hb3 as (Hie & _ & Hmin). split; intros ie' e Hie' Hd He.
    + specialize (Hmin ie' Hie' Logic.I). cbn [ahead upto] in *.
      pose proof (compare_antisym (fst ie') (fst ie) (wrapper_at_keys At1 _ _ _ _ Hw2 Hie') (wrapper_at_keys At1 _ _ _ _ Hw2 Hie)). lia.
    + cbn [upto]. enough (Compare (fst e) target < 0) by lia. apply (seek_none target _ e Hw1 Hb1 Hv).
      apply elem_of_blocks. by exists ie'.
Qed.

Lemma SeekForPrev_ok fuel target t l o :
  two_at t l o -> valid target -> (S (length idx) < fuel)%nat ->
  exists o', two_at (tl_SeekForPrev fuel target t) blocks o' /\ best kReverse (fun e => upto kReverse target (fst e)) blocks o'.
Proof.
  intros Ht Hv Hf. destruct (two_at_first t l o Ht) as [o0 Hw0]. unfold tl_SeekForPrev, prefix_mismatch.
  rewrite (two_at_state t l o Ht), (so_prefix _ _ _ Hst). cbn [andb]. cbv zeta.
  destruct (wrapper_seek_dir_at At1 kForward target _ _ _ Hw0 Hv) as (o1 & Hw1 & Hb1). cbn [wrapper_seek_dir] in Hw1.
  pose proof (two_at_moved t l o (wrapper_Seek target) o1 Ht Hw1) as Hmv. destruct o1 as [ie|].
  - destruct (seek_sides target ie _ Hw1 Hb1 Hv) as [Hlt Hgt].
    destruct (enter_block kReverse (fun e => upto kReverse target (fst e)) _ (SeekForPrev target) ie Hmv) as [o2 Hob].
    { intros it o' Hat. by eapply at_SeekForPrev. }
    { intros ie' e Hie' Hd He. cbn [ahead upto] in *. specialize (Hgt ie' e Hie' Hd He).
      pose proof (compare_antisym (fst e) target (ix_keys _ _ Hix _ _ Hie' He) Hv). lia. }
    { intros ie' e Hie' Hd He. cbn [ahead upto] in *. specialize (Hlt ie' e Hie' Hd He). lia. }
    pose proof Hob as ((E & Hw2 & Hs2 & Eh) & Hb2 & Hbefore & _). unfold tl_Valid. rewrite (wrapper_at_Valid At2 _ _ _ Hs2).
    destruct o2 as [e|].
    + rewrite bool_decide_eq_true_2 by done. cbn [negb]. exists (Some e). by apply open_at_entry with ie.
    + rewrite bool_decide_eq_false_2 by (by intros []). cbn [negb]. rewrite (wrapper_at_Valid At1 _ _ _ Hw2).
      rewrite bool_decide_eq_true_2 by done. cbn [negb]. eapply (skip_ok kReverse); [|exact Hf]. left. by eexists _, _.
  - pose proof (enter_none (SeekForPrev target) _ Hmv) as Hcl. pose proof Hcl as (E & Hw2 & _ & Hvf).
    unfold tl_Valid. change (wrapper_Valid (second_level_iter_ ?x)) with (valid_ (second_level_iter_ x)). rewrite Hvf. cbn [negb].
    rewrite (wrapper_at_Valid At1 _ _ _ Hw2), bool_decide_eq_false_2 by (by intros []). cbn [negb].
    by eapply SeekForPrev_past.
Qed.
End Proofs.

Section Main.
Context {c : Comparator} {valid : bytes -> Prop} {Ho : CompareOrder c valid}.
Context {I1 I2 : Type} `{InternalIterator I1} `{InternalIterator I2}.
Context (At1 : I1 -> list entry -> option entry -> Prop) (At2 : I2 -> list entry -> option entry -> Prop).
Context `{!IteratorOk valid At1} `{!IteratorOk valid At2}.

Lemma TwoLevelIterator_ok idx block st fuel :
  index_ok (valid := valid) idx block -> state_ok At2 idx block st -> (S (length idx) < fuel)%nat ->
  IteratorOk (H := TwoLevelIterator_iterator fuel) valid (two_at At1 At2 idx block st).
Proof.
  intros Hix Hst Hf. split.
  - intros t l o [-> _] e (ie & Hie & He)%elem_of_blocks. by eapply ix_keys.
  - intros t l o [-> Ht]. cbn. unfold tl_Valid. destruct o as [e|].
    + destruct Ht as (ie & _ & _ & Hs & _). exact (wrapper_at_Valid At2 _ _ _ Hs).
    + destruct Ht as (o1 & _ & _ & _ & Hv). unfold wrapper_Valid. rewrite Hv. by rewrite bool_decide_eq_false_2 by (by intros []).
  - intros t l e [-> (ie & _ & Hw & Hs & _)]. split; [|split].
    + apply elem_of_blocks. exists ie. split; [exact (wrapper_at_in At1 _ _ _ Hw)|exact (wrapper_at_in At2 _ _ _ Hs)].
    + exact (wrapper_at_key At2 _ _ _ Hs).
    + exact (wrapper_at_value At2 _ _ _ Hs).
  - intros t l o Ht. pose proof Ht as [-> _]. exact (first_ok At1 At2 idx block st Hix Hst kForward fuel t _ o Ht Hf).
  - intros t l o Ht. pose proof Ht as [-> _]. exact (first_ok At1 At2 idx block st Hix Hst kReverse fuel t _ o Ht Hf).
  - intros t l o k Ht Hk. pose proof Ht as [-> _]. by eapply Seek_ok.
  - intros t l o k Ht Hk. pose proof Ht as [-> _]. by eapply SeekForPrev_ok.
  - intros t l e Ht. pose proof Ht as [-> _]. exact (step_ok At1 At2 idx block st Hix Hst kForward fuel t _ e Ht Hf).
  - intros t l e Ht. pose proof Ht as [-> _]. exact (step_ok At1 At2 idx block st Hix Hst kReverse fuel t _ e Ht Hf).
Qed.

Lemma TwoLevelIterator_new_at idx block st it o :
  At1 it idx o -> two_at At1 At2 idx block st (TwoLevelIterator_new st it) (blocks idx block) None.
Proof.
  intros Hat. split; [done|]. exists o. split; [done|]. split; [by apply wrapper_new_at|done].
Qed.
End Main.

(** C15: A two-level iterator keeps the contract of internal_iterator.h for the
    concatenation of its blocks.  Both levels are iterators that keep it, the index
    separates the blocks, and no block is unavailable.  Then every seek and every step,
    forward and backward, ends at the entry the contract asks for, over empty blocks
    and across block boundaries, with fuel for the number of blocks; the new iterator
    is at no entry. *)
Theorem two_level_iterator_refines {c : Comparator} (valid : bytes -> Prop) {I1 I2 : Type} `{InternalIterator I1}
    `{InternalIterator I2} (At1 : I1 -> list entry -> option entry -> Prop)
    (At2 : I2 -> list entry -> option entry -> Prop) idx block st fuel :
  CompareOrder c valid -> IteratorOk valid At1 -> IteratorOk valid At2 ->
  index_ok (valid := valid) idx block -> state_ok At2 idx block st -> (S (length idx) < fuel)%nat ->
  IteratorOk (H := TwoLevelIterator_iterator fuel) valid (two_at At1 At2 idx block st) /\
  forall it o, At1 it idx o ->
    two_at At1 At2 idx block st (TwoLevelIterator_new st it) (concat ((fun ie => block (snd ie)) <$> idx)) None.
Proof.
  intros Ho H1 H2 Hix Hst Hf. split; [by apply TwoLevelIterator_ok|]. intros it o Hat. by eapply TwoLevelIterator_new_at.
Qed.

(** ** Tables: an index block over data blocks *)

(** A block iterator has all of its block in memory: its status is never Incomplete. *)
Definition complete (it : BlockIter) : Prop := IsIncomplete (bi_status it) = false.

Section Complete.
Context {c : Comparator}.

Lemma advance_restart_complete fuel it : complete it -> complete (advance_restart fuel it).
Proof. revert it. induction fuel as [|fuel IH]; intros it Hc; cbn [advance_restart]; [done|]. destruct (_ && _); [by apply IH|done]. Qed.

Lemma parsed_complete shared non_shared value_length p it : complete it -> complete (parsed shared non_shared value_length p it).
Proof.
  intros Hc. unfold parsed. apply advance_restart_complete.
  assert (Hk : complete (parse_key shared non_shared p it)) by (unfold parse_key; by destruct (shared =? 0)).
  assert (Hg : complete (apply_global_seqno (parse_key shared non_shared p it))).
  { unfold apply_global_seqno. destruct (_ =? _); [done|]. exact Hk. }
  exact Hg.
Qed.

Lemma ParseNextKey_complete it : complete it -> complete (snd (ParseNextKey it)).
Proof.
  intros Hc. pose (it1 := it <| bi_current := NextEntryOffset it |>).
  change (ParseNextKey it) with
    (if bi_restarts it1 <=? bi_current it1 then
       (false, it1 <| bi_current := bi_restarts it1 |> <| bi_restart_index := bi_num_restarts it1 |>)
     else
       match DecodeEntry (slice (bi_bytes it1) (bi_current it1) (bi_restarts it1 - bi_current it1)) with
       | Some (shared, non_shared, value_length, rest) =>
           if bsize (bi_key it1) <? shared then (false, CorruptionError it1)
           else (true, parsed shared non_shared value_length (bi_restarts it1 - bsize rest) it1)
       | None => (false, CorruptionError it1)
       end).
  assert (Hc1 : complete it1) by exact Hc. clearbody it1. destruct (_ <=? _); [exact Hc1|].
  destruct (DecodeEntry _) as [[[[shared non_shared] value_length] rest]|]; [|reflexivity]. destruct (_ <? _); [reflexivity|].
  by apply parsed_complete.
Qed.

Lemma last_loop_complete fuel it : complete it -> complete (last_loop fuel it).
Proof.
  revert it. induction fuel as [|fuel IH]; intros it Hc; cbn [last_loop]; [done|].
  pose proof (ParseNextKey_complete it Hc) as Hp. destruct (ParseNextKey it) as [found it']. destruct (_ && _); [by apply IH|done].
Qed.

Lemma seek_loop_complete fuel target it : complete it -> complete (seek_loop fuel target it).
Proof.
  revert it. induction fuel as [|fuel IH]; intros it Hc; cbn [seek_loop]; [done|].
  pose proof (ParseNextKey_complete it Hc) as Hp. destruct (ParseNextKey it) as [found it']. destruct (_ || _); [done|by apply IH].
Qed.

Lemma prev_loop_complete fuel original it : complete it -> complete (prev_loop fuel original it).
Proof.
  revert it. induction fuel as [|fuel IH]; intros it Hc; cbn [prev_loop]; [done|].
  pose proof (ParseNextKey_complete it Hc) as Hp. destruct (ParseNextKey it) as [found it']. cbn [snd] in Hp.
  destruct (negb found); [done|]. assert (Hce : complete (cache_entry it')) by (unfold cache_entry; by destruct (bi_key_external it')).
  destruct (_ <? _); [by apply IH|done].
Qed.

Lemma restart_before_complete fuel original it it' : complete it -> restart_before fuel original it = Some it' -> complete it'.
Proof.
  revert it. induction fuel as [|fuel IH]; intros it Hc; cbn [restart_before]; [by intros [= <-]|].
  destruct (_ >=? _); [|by intros [= <-]]. destruct (_ =? 0); [done|]. by apply IH.
Qed.

Lemma bi_Prev_complete it : complete it -> complete (bi_Prev it).
Proof.
  intros Hc. unfold bi_Prev. destruct (cached_before it); [exact Hc|]. unfold prev_scan.
  set (it1 := it <| bi_prev_idx := -1 |> <| bi_prev_entries := [] |> <| bi_prev_keys_buff := [] |>).
  assert (Hc1 : complete it1) by exact Hc. clearbody it1. cbv zeta.
  destruct (restart_before _ _ _) as [it'|] eqn:E; [|exact Hc1]. apply restart_before_complete in E; [|exact Hc1].
  exact (prev_loop_complete (loop_fuel it') (bi_current it1) (SeekToRestartPoint (bi_restart_index it') it') E).
Qed.

Lemma back_loop_complete fuel target it : complete it -> complete (back_loop fuel target it).
Proof.
  revert it. induction fuel as [|fuel IH]; intros it Hc; cbn [back_loop]; [done|]. destruct (_ && _); [|done].
  by apply IH, bi_Prev_complete.
Qed.

Lemma BinarySeek_complete fuel target lo hi it : complete it -> complete (snd (BinarySeek fuel target lo hi it)).
Proof.
  revert lo hi it. induction fuel as [|fuel IH]; intros lo hi it Hc; cbn [BinarySeek]; [done|].
  destruct (_ <? _); [|done]. destruct (restart_key _ it); [|done]. split_ifs; by apply IH.
Qed.

Lemma CompareBlockKey_complete i target it : complete it -> complete (snd (CompareBlockKey i target it)).
Proof. intros Hc. unfold CompareBlockKey. by destruct (restart_key i it). Qed.

Lemma block_index_loop_complete fuel target ids lo hi it : complete it -> complete (snd (block_index_loop fuel target ids lo hi it)).
Proof.
  revert lo hi it. induction fuel as [|fuel IH]; intros lo hi it Hc; cbn [block_index_loop]; [done|]. destruct (_ <=? _); [|done].
  cbv zeta. pose proof (CompareBlockKey_complete (nth (Z.to_nat (u32 (hi + lo) / 2)) ids 0) target it Hc) as Hk.
  destruct (CompareBlockKey _ _ _) as [cmp it']. cbn [snd] in Hk. destruct (negb _); [done|]. destruct (cmp <? 0); [by apply IH|].
  destruct (_ =? _); [done|by apply IH].
Qed.

Lemma PrefixSeek_complete f target it : complete it -> complete (snd (PrefixSeek f target it)).
Proof.
  intros Hc. unfold PrefixSeek, BinaryBlockIndexSeek. cbv zeta. destruct (_ =? 0)%nat; [done|].
  pose proof (block_index_loop_complete (S (S (length (f target)))) target (f target) 0 (Z.of_nat (length (f target)) - 1) it Hc) as Hl.
  destruct (block_index_loop _ _ _ _ _ _) as [[[lo hi]|] it']; [|done]. cbn [snd] in Hl. destruct (lo =? hi); [|done].
  destruct (_ && _); [|done]. pose proof (CompareBlockKey_complete (nth (Z.to_nat lo) (f target) 0 - 1) target it' Hl) as Hk.
  destruct (CompareBlockKey _ _ _) as [cmp it2]. cbn [snd] in Hk. by destruct (cmp >? 0).
Qed.

Lemma whole_seek_complete target it : complete it -> complete (snd (whole_seek target it)).
Proof. apply BinarySeek_complete. Qed.

Lemma bi_SeekToLast_complete it : complete it -> complete (bi_SeekToLast it).
Proof. intros Hc. unfold bi_SeekToLast. destruct (bi_data it); [|exact Hc]. by apply last_loop_complete. Qed.

Lemma bi_Seek_complete target it : complete it -> complete (bi_Seek target it).
Proof.
  intros Hc. unfold bi_Seek. destruct (bi_data it); [|exact Hc].
  assert (Hp : complete (snd (match bi_prefix_index it with Some f => PrefixSeek f target it | None => whole_seek target it end))).
  { destruct (bi_prefix_index it); [by apply PrefixSeek_complete|by apply whole_seek_complete]. }
  destruct (match bi_prefix_index it with Some f => _ | None => _ end) as [[index|] it']; [|exact Hp]. by apply seek_loop_complete.
Qed.

Lemma bi_SeekForPrev_complete target it : complete it -> complete (bi_SeekForPrev target it).
Proof.
  intros Hc. unfold bi_SeekForPrev. destruct (bi_data it); [|exact Hc]. pose proof (whole_seek_complete target it Hc) as Hp.
  destruct (whole_seek target it) as [[index|] it']; [|exact Hp]. cbv zeta.
  pose proof (seek_loop_complete (loop_fuel it') target (SeekToRestartPoint index it') Hp) as Hl.
  destruct (negb _); [by apply bi_SeekToLast_complete|by apply back_loop_complete].
Qed.

Lemma bi_SeekToFirst_complete it : complete it -> complete (bi_SeekToFirst it).
Proof.
  intros Hc. unfold bi_SeekToFirst. destruct (bi_data it); [|exact Hc]. by apply (ParseNextKey_complete (SeekToRestartPoint 0 it)).
Qed.

(** A property that all moves keep can be added to a contract. *)
Lemma IteratorOk_and {valid : bytes -> Prop} {I} `{InternalIterator I} (At : I -> list entry -> option entry -> Prop) (P : I -> Prop) :
  IteratorOk valid At ->
  (forall it, P it -> P (SeekToFirst it) /\ P (SeekToLast it) /\ P (Next it) /\ P (Prev it)) ->
  (forall it k, P it -> P (Seek k it) /\ P (SeekForPrev k it)) ->
  IteratorOk valid (fun it l o => At it l o /\ P it).
Proof.
  intros Hok Hm Hs. split.
  - intros it l o [Hat _]. by eapply at_keys.
  - intros it l o [Hat _]. by eapply at_Valid.
  - intros it l e [Hat _]. by eapply at_entry.
  - intros it l o [Hat HP]. destruct (at_SeekToFirst _ _ _ Hat) as (o' & ? & ?). exists o'. split; [split; [done|apply Hm, HP]|done].
  - intros it l o [Hat HP]. destruct (at_SeekToLast _ _ _ Hat) as (o' & ? & ?). exists o'. split; [split; [done|apply Hm, HP]|done].
  - intros it l o t [Hat HP] Ht. destruct (at_Seek _ _ _ t Hat Ht) as (o' & ? & ?). exists o'. split; [split; [done|apply Hs, HP]|done].
  - intros it l o t [Hat HP] Ht. destruct (at_SeekForPrev _ _ _ t Hat Ht) as (o' & ? & ?). exists o'. split; [split; [done|apply Hs, HP]|done].
  - intros it l e [Hat HP]. destruct (at_Next _ _ _ Hat) as (o' & ? & ?). exists o'. split; [split; [done|apply Hm, HP]|done].
  - intros it l e [Hat HP]. destruct (at_Prev _ _ _ Hat) as (o' & ? & ?). exists o'. split; [split; [done|apply Hm, HP]|done].
Qed.
End Complete.

Definition complete_at {c : Comparator} (valid : bytes -> Prop) (it : BlockIter) (l : list entry) (o : option entry) : Prop :=
  block_at (valid := valid) it l o /\ complete it.

Lemma complete_at_ok {c : Comparator} (valid : bytes -> Prop) : CompareOrder c valid -> IteratorOk valid (complete_at valid).
Proof.
  intros Ho. apply IteratorOk_and; [exact BlockIter_ok| |].
  - intros it Hc. split; [by apply bi_SeekToFirst_complete|]. split; [by apply bi_SeekToLast_complete|].
    split; [by apply ParseNextKey_complete|by apply bi_Prev_complete].
  - intros it k Hc. split; [by apply bi_Seek_complete|by apply bi_SeekForPrev_complete].
Qed.

(** The iterator of a block that was built. *)
Definition open_block_iter (contents : bytes) : option BlockIter :=
  match NewIterator None true (Block_new contents kDisableGlobalSequenceNumber) with inr it => Some it | inl _ => None end.

Lemma open_built {c : Comparator} (valid : bytes -> Prop) interval delta es :
  CompareOrder c valid -> 1 <= interval -> StronglySorted (fun a b => Compare (fst a) (fst b) < 0) es ->
  (forall e, e ∈ es -> valid (fst e)) -> bsize (built interval delta es) < 2 ^ 32 ->
  exists it, open_block_iter (built interval delta es) = Some it /\ complete_at valid it es None.
Proof.
  intros Ho Hi Hs Hv Hz.
  assert (Hz' : bsize (bb_buffer_ (add_all es (BlockBuilder_new interval delta))) < 2 ^ 32).
  { unfold built in Hz. rewrite Finish_buffer in Hz. unfold bsize in *. rewrite length_app in Hz. lia. }
  destruct (add_all_building es _ _ _ _ (building_new interval delta Hi) Hz') as (shs & rhos & Hb).
  pose proof (NewIterator_built _ _ _ _ Hb Hz) as Hit. unfold open_block_iter, built. rewrite Hit. eexists. split; [reflexivity|].
  split; [|done]. by eapply block_at_built.
Qed.

(** A data block with its handle and the index key that separates it from the next. *)
Record DataBlock := mkDataBlock { db_separator : bytes; db_handle : bytes; db_entries : list entry }.

Definition table_index (bs : list DataBlock) : list entry := (fun b => (db_separator b, db_handle b)) <$> bs.
Definition table_block (bs : list DataBlock) (h : bytes) : list entry :=
  match List.find (fun b => bool_decide (db_handle b = h)) bs with Some b => db_entries b | None => [] end.
Definition table_state (bs : list DataBlock) : TwoLevelIteratorState BlockIter :=
  mkTwoLevelState false (fun h => open_block_iter (built 16 true (table_block bs h))) (fun _ => true) (fun _ => false).

(** What a table builder makes sure of. *)
Record table_ok {c : Comparator} (valid : bytes -> Prop) (bs : list DataBlock) : Prop := {
  tb_handles : NoDup (db_handle <$> bs);
  tb_sorted : StronglySorted (fun a b => Compare (db_separator a) (db_separator b) < 0) bs;
  tb_entries b : b ∈ bs -> StronglySorted (fun a b => Compare (fst a) (fst b) < 0) (db_entries b);
  tb_upper b e : b ∈ bs -> e ∈ db_entries b -> Compare (fst e) (db_separator b) <= 0;
  tb_lower a b e : a ∈ bs -> b ∈ bs -> Compare (db_separator a) (db_separator b) < 0 -> e ∈ db_entries b ->
    Compare (db_separator a) (fst e) < 0;
  tb_valid b e : b ∈ bs -> e ∈ db_entries b -> valid (fst e);
  tb_separators b : b ∈ bs -> valid (db_separator b);
  tb_size b : b ∈ bs -> bsize (built 16 true (db_entries b)) < 2 ^ 32
}.

Section Table.
Context {c : Comparator} (valid : bytes -> Prop) {Ho : CompareOrder c valid} (bs : list DataBlock) (Hok : table_ok valid bs).

Lemma table_block_of b : b ∈ bs -> table_block bs (db_handle b) = db_entries b.
Proof.
  pose proof (tb_handles _ _ Hok) as Hnd. clear Hok. unfold table_block. induction bs as [|a l IH]; [by intros ?%not_elem_of_nil|].
  apply NoDup_cons in Hnd as [Ha Hnd]. intros Hin. cbn [List.find]. case_bool_decide as E.
  - apply elem_of_cons in Hin as [->|Hin]; [done|]. exfalso. apply Ha. rewrite E. by apply list_elem_of_fmap_2.
  - apply elem_of_cons in Hin as [->|Hin]; [done|]. by apply IH.
Qed.

Lemma table_index_in ie : ie ∈ table_index bs -> exists b, b ∈ bs /\ ie = (db_separator b, db_handle b).
Proof. intros (b & -> & Hb)%list_elem_of_fmap. by exists b. Qed.

Lemma table_index_ok : index_ok (valid := valid) (table_index bs) (table_block bs).
Proof.
  split.
  - pose proof (tb_sorted _ _ Hok) as Hs. clear Hok. unfold distinct_keys, table_index.
    induction Hs as [|a l Hs IH Ha]; cbn [fmap list_fmap]; constructor; [|done]. apply Forall_fmap.
    eapply Forall_impl; [exact Ha|]. cbn. lia.
  - intros ie e (b & Hb & ->)%table_index_in. cbn [snd fst]. rewrite table_block_of by done. by apply (tb_upper _ _ Hok).
  - intros ie ie' e (a & Ha & ->)%table_index_in (b & Hb & ->)%table_index_in. cbn [snd fst]. rewrite table_block_of by done.
    by apply (tb_lower _ _ Hok).
  - intros ie e (b & Hb & ->)%table_index_in. cbn [snd]. rewrite table_block_of by done. by apply (tb_valid _ _ Hok).
Qed.

Lemma table_state_ok : state_ok (complete_at valid) (table_index bs) (table_block bs) (table_state bs).
Proof.
  split; [done|done| |by intros it l o [_ Hc]]. intros ie (b & Hb & ->)%table_index_in. cbn [snd table_state NewSecondaryIterator].
  rewrite table_block_of by done. apply open_built; [done|lia|by apply (tb_entries _ _ Hok)| |by apply (tb_size _ _ Hok)].
  intros e. by apply (tb_valid _ _ Hok).
Qed.
End Table.

#[local] Existing Instance Bytewise.BytewiseComparator.

Module TableRuns.
Definition bs (l : list Z) : bytes := byte_of_Z <$> l.
Definition table : list DataBlock :=
  [mkDataBlock (bs [2]) (bs [0]) [(bs [1; 2], bs [9]); (bs [1; 2; 4], bs [8])];
   mkDataBlock (bs [3]) (bs [1]) [];
   mkDataBlock (bs [5]) (bs [2]) [(bs [4], bs [7]); (bs [5], bs [6])]].
Definition index : bytes := built 1 true (table_index table).

Lemma table_is_ok : table_ok (fun _ => True) table.
Proof.
  assert (Hin : forall P : DataBlock -> Prop, Forall P table -> forall b, b ∈ table -> P b).
  { intros P HP b. by apply Forall_forall. }
  split; [| | | | |done|done|].
  - by apply (bool_decide_unpack _).
  - repeat (constructor; [|repeat (constructor; [vm_compute; reflexivity|]); constructor]). constructor.
  - apply Hin. repeat constructor.
  - intros b e Hb. revert e. pattern b. revert b Hb. apply Hin. repeat (constructor; [apply Forall_forall; repeat (constructor; [vm_compute; discriminate|]); constructor|]). constructor.
  - intros a b e Ha Hb. revert e. pattern b. revert b Hb. apply Hin. revert a Ha.
    match goal with |- forall a, _ -> @?P a => apply (Hin P) end.
    repeat (constructor; [repeat (constructor; [intros e Hc; revert e; apply Forall_forall; vm_compute in Hc;
      first [discriminate Hc|repeat (constructor; [vm_compute; reflexivity|]); constructor]|]); constructor|]). constructor.
  - apply Hin. repeat (constructor; [vm_compute; reflexivity|]). constructor.
Qed.
End TableRuns.

(** A table of three data blocks, the second of them empty. *)
Lemma two_level_iterator_refines_witness :
  exists i0, open_block_iter TableRuns.index = Some i0 /\
    let it := TwoLevelIterator_new (table_state TableRuns.table) i0 in
    tl_Valid it = false /\
    tl_key (tl_Seek 9 (TableRuns.bs [1; 3]) it) = TableRuns.bs [4] /\
    tl_key (tl_Prev 9 (tl_Seek 9 (TableRuns.bs [1; 3]) it)) = TableRuns.bs [1; 2; 4].
Proof.
  destruct (open_built (fun _ => True) 1 true (table_index TableRuns.table)) as (i0 & Hi & Hat); [exact _|lia| |done|vm_compute; reflexivity|].
  { repeat (constructor; [|repeat (constructor; [vm_compute; reflexivity|]); constructor]). constructor. }
  destruct (two_level_iterator_refines (fun _ => True) (complete_at (fun _ => True)) (complete_at (fun _ => True))
    (table_index TableRuns.table) (table_block TableRuns.table) (table_state TableRuns.table) 9) as [Hok Hnew].
  - exact _.
  - by apply complete_at_ok, _.
  - by apply complete_at_ok, _.
  - apply (table_index_ok (fun _ => True)), TableRuns.table_is_ok.
  - apply (table_state_ok (fun _ => True)), TableRuns.table_is_ok.
  - cbn. lia.
  - exists i0. split; [exact Hi|]. intros it. specialize (Hnew _ _ Hat). split; [reflexivity|].
    vm_compute in Hi. injection Hi as <-. subst it. split; vm_compute; reflexivity.
Defined.
